(* ===== verification/_CoqProject ===== *)
-Q . S2P
Prelude.v
Types.v
Wire.v
Messages.v
HashUtil.v
KeyMap.v
FlatMap.v
Path.v
Unicode.v
WinNames.v
Ignore.v
Auth.v
StringPool.v
MetadataTree.v
Forest.v
TreeIndex.v
TreeLinks.v
TreeInv.v
TreeRelease.v
TreeOps.v
TreeSpec.v
TreeRefine.v
TreeExport.v
Coalescer.v
Channel.v
Resolve.v
FileSystem.v
Scanner.v
Watcher.v
WatchRun.v
TreeProps.v
ScanProps.v
Server.v
Retry.v
Broadcast.v
Peers.v
ReadCache.v
Requests.v
Connect.v
Client.v
ClientProps.v
Walk.v
Mirror.v
Warm.v
Converge.v
Catchup.v
Through.v
Names.v
Namespace.v
Told.v
Kernel.v
Stale.v
Bridge.v
Mount.v
Refusal.v
Lifecycle.v
Handles.v
Endpoint.v
Transport.v
Launch.v
Discover.v
Agent.v
Cli.v
Session.v
