(* ===== verification/Prelude.v ===== *)
(** * wsldrive: verification development

    wsldrive serves a directory tree from one side of the WSL boundary to the
    other.  An _agent_ ([src/src/agent/server.cpp], run by
    [src/src/tools/wsldrived_main.cpp]) owns the real directory; a _client_
    ([src/src/agent/client.cpp]) holds a mirror of its metadata and a cache of
    its contents, and a FUSE mount ([src/src/mount/]) answers the kernel from
    the two.  The command-line tool ([src/src/tools/wsldrive_main.cpp]) launches
    the agent on the other side and connects them.

    The flow of data.  The agent scans its root into a snapshot and streams it;
    the client loads it into a [MetadataTree].  A watcher reports changes to a
    coalescer; the agent's flusher turns what the coalescer releases into
    invalidation batches and broadcasts them to every session; the client
    applies them to the mirror and drops the cached contents they touch, the
    mount tells the kernel's page cache, and the notification bridge replays
    them as local file events.  Reads and mutations go the other way, as
    requests that carry an id and come back as replies.  All of it travels in
    frames over one stream socket, after a mutual proof of a shared token.

    ** Files

    Foundations.
    - [Prelude]: bytes, widths, results, tactics, hint databases, lemmas.
    - [Types]: [core/error.hpp], [core/types.hpp].

    The protocol.
    - [Wire], [Messages]: [core/protocol.cpp]: primitives, then every message
      with its codec, as instances of the classes [Codec] and [CodecSound].
    - [Channel], [Transport], [Endpoint], [Handles]: [net/frame_channel.cpp]
      and [net/socket.cpp]: frames over a fragmented stream; the same against a
      clock with the per-frame deadline, and connecting, binding and accepting;
      the text of endpoints and GUIDs; which object owns a socket as it moves.
    - [Auth]: [core/hash.cpp], [core/auth_token.cpp].

    Names and rules.
    - [Path], [Unicode], [WinNames], [Ignore]: the files of [core/] of those
      names.

    The metadata tree ([core/metadata_tree.cpp]), over [HashUtil],
    [StringPool] and [FlatMap] ([core/hash_util.hpp], [core/string_pool.cpp],
    [core/flat_map.hpp]).
    - [KeyMap]: the class of what the tree asks of its indices; [FlatMap]
      discharges it for the program's [U64Map].
    - [MetadataTree]: the operations as written, on the node vector.
    - [Forest], [TreeIndex], [TreeLinks], [TreeInv]: what the vector, the
      sibling lists and the indices represent, and the invariant.
    - [TreeRelease], [TreeOps]: what each operation does to the forest.
    - [TreeSpec], [TreeRefine], [TreeExport], [TreeProps]: the path map as the
      specification, the refinement and the round trip of snapshots.

    The agent.
    - [FileSystem]: the operating system's files, as a class of operations.
    - [Resolve], [Scanner], [ScanProps], [Server], [Broadcast], [Coalescer]:
      containment of paths, the walk and what it finds, the session with every
      handler, the flusher's batches, the coalescer.
    - [Peers]: session threads, flusher and shutdown of one [RootServer] as
      interleaved steps.
    - [Watcher]: what both directory watchers ([platform/*/dir_watcher.cpp]) do
      with one buffer of records; [WatchRun]: the threads around it, which
      poll, read and re-arm, and how [RootServer] starts one.
    - [Retry]: the errors of [accept] and of a new watcher that the agent waits
      out, and for how long.
    - [Agent]: [tools/wsldrived_main.cpp].

    The client.
    - [ReadCache], [Requests], [Connect], [Client], [ClientProps]: the content
      cache, the table of pending requests as interleaved steps, the handshake,
      the mirror with its mutations, invalidations and rescans.
    - [Walk], [Warm]: what a search of the mirror finds; the cache warmed from
      it, with the prefetcher and the agent's answers.
    - [Mirror], [Converge], [Catchup], [Told]: the two sides composed: a snapshot
      from the agent's disk to the client's tree; one batch as a step of the path
      map towards the disk; the flusher's batch for the operations planned; the
      coalescer and the flusher round after round.  [Kernel]: the changes
      themselves, as steps on the map of the disk with what the watcher of either
      platform makes of each (the class [Teller]).  [Stale] runs the cases that
      the premises of [Catchup] and [Told] exclude.
    - [Through]: a file read and written through client, frames and agent.
      [Names], [Namespace]: the names on a disk, as a setoid of maps from paths
      to kinds with a class of laws for directories; the mount's namespace calls
      against it.  [Refusal]: the calls the agent refuses, from the disk's error to
      the caller's errno.
    - [Mount], [Bridge], [Lifecycle]: the FUSE handlers
      ([mount/fuse_mount.cpp]), the notification bridge
      ([mount/fsnotify_bridge.cpp]), and the threads of both.
    - [Launch], [Discover], [Cli], [Session]: the launchers
      ([platform/*/*_launch.cpp]), their discovery of distros and GUIDs with the
      windowless starter ([tools/wsldrivew_main.cpp]), the commands of
      [tools/wsldrive_main.cpp] up to their socket, and what they do with it.

    ** Conventions

    Bytes and machine integers are [Z]; where the source can wrap, the
    wrap-around is written out ([wrap]), and elsewhere the range of the C++ type
    is a hypothesis ([u32_ok], [bytes_ok]).  [std::expected] is [result Errc];
    early returns are values of it.  State is passed explicitly; where several
    threads share it, the program is a step function on the shared state and a
    schedule is an arbitrary list of steps.  The operating system (files,
    sockets, processes, clocks, inotify) and the BLAKE3 library are parameters:
    classes of operations or functions that a theorem quantifies over.  A
    theorem that needs something of them names it as a hypothesis, and its
    witness instantiates them.

    ** What the theorems show

    - Safety towards peers: nothing is served before authentication, the two
      sides prove themselves in the right order and over an unambiguous
      transcript, and no request leaves the served root.
    - Data structures: the tree refines a map from paths to attributes over any
      sequence of operations, with results and errors; the hash map refines a
      finite map and never probes forever; the cache keeps its budget and never
      serves what an invalidation has outdated.
    - Protocol: every message survives the wire, whatever decodes is in range,
      frames survive any fragmentation, and a slow peer cannot hold a bounded
      channel.
    - Consistency of the mirror: invalidations apply exactly when they are not
      older than the client's own mutations, a snapshot loses no change that
      arrives while it is fetched, write-back buffering is invisible to the
      file, and batches report the disk as it is.
    - Threads: replies reach the request they answer, a lost connection
      completes every registered caller, channels and the FUSE handle outlive
      their users, shutting down does not deadlock, and sessions stay capped.
    - Composition: the command the tool builds, taken through the shell of the
      distro and the agent's argument parser, gives an agent that serves the
      requested root where the client expects it; a scan reports exactly what
      is on the disk ([ScanProps.scan_mirrors_disk]), a snapshot makes the
      client's tree a mirror of it ([Mirror.fetch_mirrors_disk]), and each round of
      changes to the disk, through the kernel's records, watcher,
      coalescer, flusher and frames, brings that mirror up to date
      ([Kernel.changes_reach_mirror]); the warmed cache answers for every small file
      ([Warm.warm_reads_stay_local]); a file written and read
      through the mount is its bytes ([Through.file_refines_bytes]), and the
      names the mount shows stay the names on the agent's disk
      ([Namespace.names_stay_level]); a mutation the agent refuses gives its caller
      the errno of the reason and changes nothing ([Refusal.refusals_reach_caller]);
      and nothing is mounted before the agent has
      proved itself ([Session.mount_after_proof]).
    - Watching: however the kernel splits its records into reads, the Linux
      watcher handles each of them once and in order
      ([WatchRun.linux_run_batching]).

    ** Fuel and bounds

    Recursion that is not structural has fuel, and a theorem says it is enough.
    - [U64Map] probing: the table size; the load factor keeps an empty slot.
    - [release_loop] of the tree: twice the length of the node vector, since
      every node is pushed once and popped once.
    - The tree's theorems assume node vectors and name pools below 2^31 entries
      ([room], [total_cost]) and names below 2^30 bytes, the range in which the
      32-bit ids of the source do not wrap.
    - [scan_loop]: the number of directories; [ScanProps] shows that any
      enumeration of the reachable directories is enough.  On a filesystem that
      never stops growing the walk of the source does not end either.
    - Receive loops: the bytes still wanted, since each round delivers one or
      ends; the wait for a distro: the timeout over the polling interval.
    - Records of the watchers: the length of the buffer, as each record moves
      forward.  The recursive watch: the depth of the tree.
    - [fgets] over a pipe: one round per byte at most; the index loops over GUID
      text: its length.

    ** Not modelled

    - BLAKE3 ([third_party]): a parameter.
    - [platform/win/wide.cpp], the loader of the WinFsp library, the assembly
      of FUSE arguments and socket options: they only call the system.
    - Output for people: the logging of the tools, the statistics and timings of
      [fetch].
    - Creating threads, handles and processes: their effects are steps or
      parameters of the models that depend on them.

    ** Limits of the composition

    [Kernel] takes the changes of a round one after another and lets each batch
    find the disk at rest, with every record of the round delivered; a record may be
    missing only below a directory whose appearance has been reported.  Directories
    appear only where there was nothing to forget: [Stale] and
    [Watcher.replaced_reported_removed] show what the code does elsewhere.
    [Namespace], [Through] and [Refusal] take the mount's calls one after another; the agent's
    echoes of them, arriving between two calls, are covered by [ClientProps] one
    batch at a time. *)

From Stdlib Require Export ZArith Lia.
From stdpp Require Export base list gmap strings sorting.

#[global] Set Default Goal Selector "!".
#[global] Open Scope Z_scope.

(** ** Bytes

    A byte of the program ([std::byte], [char], [std::uint8_t]) is a [Z]; a
    string, string view, span or byte vector is a [list Z].  [bytes_ok] is the
    range the C++ type guarantees. *)
Abbreviation byte := Z.
Abbreviation bytes := (list Z).

Definition byte_ok (b : byte) : Prop := 0 <= b < 256.
Definition bytes_ok (s : bytes) : Prop := Forall byte_ok s.

(** Length of a byte string at the type the source measures it with. *)
Definition zlen {A} (l : list A) : Z := Z.of_nat (length l).

(** A string literal of the source. *)
Definition str (s : string) : bytes := (λ c, Z.of_N (Ascii.N_of_ascii c)) <$> String.list_ascii_of_string s.

(** Machine widths. *)
Definition wrap (w v : Z) : Z := v mod 2 ^ w.
Definition u16_ok (v : Z) : Prop := 0 <= v < 2 ^ 16.
Definition u32_ok (v : Z) : Prop := 0 <= v < 2 ^ 32.
Definition u64_ok (v : Z) : Prop := 0 <= v < 2 ^ 64.
Definition i64_ok (v : Z) : Prop := - 2 ^ 63 <= v < 2 ^ 63.
Definition to_i64 (u : Z) : Z := if u <? 2 ^ 63 then u else u - 2 ^ 64.

(** ** Results ([std::expected])

    The error type is a parameter; [Types] fixes it to [Errc]. *)
Inductive result (E A : Type) : Type :=
| Ok (a : A)
| Err (e : E).
Arguments Ok {E A} a.
Arguments Err {E A} e.

#[global] Instance result_ret {E} : MRet (result E) := λ A a, Ok a.
#[global] Instance result_bind {E} : MBind (result E) :=
  λ A B k m, match m with Ok a => k a | Err e => Err e end.

Definition is_ok {E A} (r : result E A) : bool :=
  match r with Ok _ => true | Err _ => false end.

(** ** Hint databases and tactics *)
Create HintDb wsl discriminated.
Create Rewrite HintDb zlen.
Create Rewrite HintDb codes.

(** Discharges the arithmetic side conditions the development generates. *)
Ltac zsolve := unfold byte_ok, u16_ok, u32_ok, u64_ok, i64_ok, zlen in *; lia.

(** Case analysis on every [if]/[match] scrutinee of the goal, innermost
    equations recorded, the contradictory branches closed. *)
Ltac crush_match :=
  repeat (case_match; simplify_eq/=; try done).

(** Turns a boolean comparison in the context into the proposition it decides. *)
Ltac b2p :=
  repeat match goal with
  | H : (_ =? _) = true |- _ => apply Z.eqb_eq in H
  | H : (_ =? _) = false |- _ => apply Z.eqb_neq in H
  | H : (_ <? _) = true |- _ => apply Z.ltb_lt in H
  | H : (_ <? _) = false |- _ => apply Z.ltb_ge in H
  | H : (_ <=? _) = true |- _ => apply Z.leb_le in H
  | H : (_ <=? _) = false |- _ => apply Z.leb_gt in H
  | H : (_ >? _) = true |- _ => rewrite Z.gtb_lt in H
  | H : (_ >? _) = false |- _ => rewrite Z.gtb_ltb, Z.ltb_ge in H
  | H : (_ >=? _) = true |- _ => rewrite Z.geb_leb, Z.leb_le in H
  | H : (_ >=? _) = false |- _ => rewrite Z.geb_leb, Z.leb_gt in H
  | H : (_ && _) = true |- _ => apply andb_true_iff in H; destruct H
  | H : (_ || _) = false |- _ => apply orb_false_iff in H; destruct H
  | H : negb _ = true |- _ => apply negb_true_iff in H
  | H : negb _ = false |- _ => apply negb_false_iff in H
  | H : bool_decide _ = true |- _ => apply bool_decide_eq_true in H
  | H : bool_decide _ = false |- _ => apply bool_decide_eq_false in H
  end.

(** ** Generic lemmas *)

Lemma zlen_nonneg {A} (l : list A) : 0 <= zlen l.
Proof. unfold zlen; lia. Qed.

Lemma zlen_app {A} (l k : list A) : zlen (l ++ k) = zlen l + zlen k.
Proof. unfold zlen; rewrite length_app; lia. Qed.

Lemma zlen_cons {A} (x : A) (l : list A) : zlen (x :: l) = 1 + zlen l.
Proof. unfold zlen; simpl; lia. Qed.

Lemma zlen_nil {A} : zlen (@nil A) = 0.
Proof. done. Qed.

#[export] Hint Rewrite @zlen_app @zlen_cons @zlen_nil : zlen.

Lemma bytes_ok_app s t : bytes_ok (s ++ t) ↔ bytes_ok s ∧ bytes_ok t.
Proof. apply Forall_app. Qed.

Lemma to_i64_wrap v : i64_ok v → to_i64 (wrap 64 v) = v.
Proof.
  unfold to_i64, wrap, i64_ok. intros Hv.
  destruct (Z.ltb_spec (v mod 2 ^ 64) (2 ^ 63)) as [H|H].
  - destruct (decide (0 <= v)).
    + apply Z.mod_small; lia.
    + exfalso. rewrite <- (Z.mod_add v 1), Z.mod_small in H by lia. lia.
  - destruct (decide (0 <= v)).
    + exfalso. rewrite Z.mod_small in H by lia. lia.
    + rewrite <- (Z.mod_add v 1), Z.mod_small by lia. lia.
Qed.

Lemma wrap_ok w v : 0 <= w → 0 <= wrap w v < 2 ^ w.
Proof. intros. apply Z.mod_pos_bound. apply Z.pow_pos_nonneg; lia. Qed.

Lemma wrap_id w v : 0 <= v < 2 ^ w → wrap w v = v.
Proof. apply Z.mod_small. Qed.

Lemma filter_all {A} (P : A → Prop) `{∀ x, Decision (P x)} l : Forall P l → filter P l = l.
Proof. induction 1 as [|x l Hx _ IH]; [done|]. by rewrite filter_cons_True, IH. Qed.

(** ** Finite ranges decided by evaluation *)

Definition forall_below (n : nat) (P : Z → bool) : bool := forallb P (Z.of_nat <$> seq 0 n).

Lemma forall_below_spec n P : forall_below n P = true → ∀ v, 0 <= v < Z.of_nat n → P v = true.
Proof.
  unfold forall_below. rewrite forallb_forall. intros H v Hv. apply H.
  apply list_elem_of_In, list_elem_of_fmap. exists (Z.to_nat v).
  split; [lia|]. apply elem_of_seq. lia.
Qed.

(** ** Bit fields *)

Lemma lor_add a b k : 0 <= k → 0 <= b < 2 ^ k → Z.lor (Z.shiftl a k) b = a * 2 ^ k + b.
Proof.
  intros Hk Hb. rewrite <- Z.shiftl_mul_pow2 by lia. symmetry. apply Z.add_nocarry_lor.
  apply Z.bits_inj'. intros n Hn. rewrite Z.land_spec, Z.bits_0, Z.shiftl_spec by lia.
  destruct (Z.ltb_spec n k).
  - by rewrite Z.testbit_neg_r by lia.
  - destruct (decide (b = 0)) as [->|]; [by rewrite Z.bits_0, andb_false_r|].
    rewrite (Z.bits_above_log2 b n), andb_false_r; [done|lia|]. apply Z.log2_lt_pow2; [lia|].
    apply Z.lt_le_trans with (2 ^ k); [lia|]. apply Z.pow_le_mono_r; lia.
Qed.

(** A value is its high part next to its low [k] bits. *)
Lemma bits_split v k : 0 <= k → Z.lor (Z.shiftl (Z.shiftr v k) k) (Z.land v (Z.ones k)) = v.
Proof.
  intros Hk. rewrite Z.land_ones by lia. rewrite lor_add by (try apply Z.mod_pos_bound; lia).
  rewrite Z.shiftr_div_pow2 by lia. pose proof (Z.div_mod v (2 ^ k)). lia.
Qed.
