(* ===== verification/Types.v ===== *)
(** * Shared types ([core/error.hpp], [core/types.hpp]) *)

From S2P Require Import Prelude.

(** ** Error codes *)
Inductive Errc :=
| NotFound | AlreadyExists | NotADirectory | IsADirectory | InvalidArgument
| InvalidPath | Truncated | BadMagic | UnsupportedVersion | Corrupt | IoError
| TooLarge | ConnectionClosed | Unsupported | Timeout | ProtocolError | Unauthorized.

#[global] Instance Errc_eq_dec : EqDecision Errc.
Proof. solve_decision. Defined.

(** The [std::uint8_t] value of the enumerator ([NotFound = 1], then in order). *)
Definition errc_code (e : Errc) : Z :=
  match e with
  | NotFound => 1 | AlreadyExists => 2 | NotADirectory => 3 | IsADirectory => 4
  | InvalidArgument => 5 | InvalidPath => 6 | Truncated => 7 | BadMagic => 8
  | UnsupportedVersion => 9 | Corrupt => 10 | IoError => 11 | TooLarge => 12
  | ConnectionClosed => 13 | Unsupported => 14 | Timeout => 15 | ProtocolError => 16
  | Unauthorized => 17
  end.

Definition kLastErrc : Errc := Unauthorized.

(** [static_cast<Errc>(code)] on a validated code. *)
Definition errc_of_code (c : Z) : option Errc :=
  match c with
  | 1 => Some NotFound | 2 => Some AlreadyExists | 3 => Some NotADirectory
  | 4 => Some IsADirectory | 5 => Some InvalidArgument | 6 => Some InvalidPath
  | 7 => Some Truncated | 8 => Some BadMagic | 9 => Some UnsupportedVersion
  | 10 => Some Corrupt | 11 => Some IoError | 12 => Some TooLarge
  | 13 => Some ConnectionClosed | 14 => Some Unsupported | 15 => Some Timeout
  | 16 => Some ProtocolError | 17 => Some Unauthorized
  | _ => None
  end.

Abbreviation Result A := (result Errc A).

Lemma errc_of_code_code e : errc_of_code (errc_code e) = Some e.
Proof. by destruct e. Qed.

Lemma errc_code_of_code c e : errc_of_code c = Some e → errc_code e = c.
Proof. unfold errc_of_code; intros; crush_match. Qed.

(** [to_string(Errc)], for messages; past the last enumerator it says "unknown". *)
Definition errc_to_string (e : Errc) : bytes :=
  str match e with
      | NotFound => "not found" | AlreadyExists => "already exists" | NotADirectory => "not a directory" | IsADirectory => "is a directory"
      | InvalidArgument => "invalid argument" | InvalidPath => "invalid path" | Truncated => "truncated" | BadMagic => "bad magic"
      | UnsupportedVersion => "unsupported version" | Corrupt => "corrupt" | IoError => "i/o error" | TooLarge => "too large"
      | ConnectionClosed => "connection closed" | Unsupported => "unsupported" | Timeout => "timeout" | ProtocolError => "protocol error"
      | Unauthorized => "unauthorized"
      end.

(** No two errors read the same in a message. *)
Lemma errc_to_string_inj e e' : errc_to_string e = errc_to_string e' → e = e'.
Proof. by destruct e, e'. Qed.

(** ** Nodes *)
Definition kInvalidNode : Z := 2 ^ 32 - 1.
Definition kInvalidName : Z := 2 ^ 32 - 1.

Inductive NodeKind := File | Directory | Symlink | Other.

#[global] Instance NodeKind_eq_dec : EqDecision NodeKind.
Proof. solve_decision. Defined.

Definition node_kind_code (k : NodeKind) : Z :=
  match k with File => 0 | Directory => 1 | Symlink => 2 | Other => 3 end.

Definition node_kind_of (c : Z) : NodeKind :=
  match c with 0 => File | 1 => Directory | 2 => Symlink | _ => Other end.

Lemma node_kind_of_code k : node_kind_of (node_kind_code k) = k.
Proof. by destruct k. Qed.

Record Attributes := mkAttr {
  a_size : Z;       (* std::uint64_t *)
  a_mtime_ns : Z;   (* std::int64_t *)
  a_mode : Z;       (* std::uint32_t *)
  a_kind : NodeKind
}.

#[global] Instance Attributes_eq_dec : EqDecision Attributes.
Proof. solve_decision. Defined.

Definition default_attr : Attributes := mkAttr 0 0 0 File.

Definition attr_ok (a : Attributes) : Prop :=
  u64_ok (a_size a) ∧ i64_ok (a_mtime_ns a) ∧ u32_ok (a_mode a).

(** One entry of a snapshot: [parent] is 0 for the root and [k] for the [k]-th
    entry (from 1) of the same snapshot. *)
Record SnapshotEntry := mkSnap { se_parent : Z; se_name : bytes; se_attr : Attributes }.

(** ** Invalidations and changes *)
Inductive InvalidationKind := Upsert | Remove | Rescan.

#[global] Instance InvalidationKind_eq_dec : EqDecision InvalidationKind.
Proof. solve_decision. Defined.

Definition invalidation_code (k : InvalidationKind) : Z :=
  match k with Upsert => 0 | Remove => 1 | Rescan => 2 end.

Definition invalidation_of (c : Z) : InvalidationKind :=
  match c with 0 => Upsert | 1 => Remove | _ => Rescan end.

Inductive ChangeKind := Unknown | Created | Modified | Removed | MovedFrom | MovedTo.

#[global] Instance ChangeKind_eq_dec : EqDecision ChangeKind.
Proof. solve_decision. Defined.

Definition change_code (c : ChangeKind) : Z :=
  match c with
  | Unknown => 0 | Created => 1 | Modified => 2 | Removed => 3 | MovedFrom => 4 | MovedTo => 5
  end.

Definition change_of (c : Z) : ChangeKind :=
  match c with
  | 0 => Unknown | 1 => Created | 2 => Modified | 3 => Removed | 4 => MovedFrom | _ => MovedTo
  end.

Definition kMaxChangeKind : Z := change_code MovedTo.

Definition is_move (c : ChangeKind) : bool :=
  match c with MovedFrom | MovedTo => true | _ => false end.

Lemma invalidation_of_code k : invalidation_of (invalidation_code k) = k.
Proof. by destruct k. Qed.

Lemma change_of_code c : change_of (change_code c) = c.
Proof. by destruct c. Qed.

#[export] Hint Rewrite node_kind_of_code invalidation_of_code change_of_code : codes.

Lemma node_kind_code_bound k : 0 <= node_kind_code k <= 3.
Proof. destruct k; simpl; lia. Qed.
Lemma invalidation_code_bound k : 0 <= invalidation_code k <= 2.
Proof. destruct k; simpl; lia. Qed.
Lemma change_code_bound c : 0 <= change_code c <= kMaxChangeKind.
Proof. destruct c; unfold kMaxChangeKind; simpl; lia. Qed.
