(* ===== verification/Wire.v ===== *)
(** * Wire primitives ([core/protocol.hpp], [core/protocol.cpp])

    Little-endian integers, LEB128 varints and length-prefixed strings.  A
    [Writer] operation is modelled by the bytes it appends to [out_]; a
    [Reader] by a function from the bytes not read yet ([in_] from [pos_] on)
    to the decoded value and the bytes still unread, or the error the source
    returns.  No caller looks at a reader after it failed, so the position of a
    failed reader is not kept. *)

From S2P Require Import Prelude Types.

(** ** [put_le] / [get_le] *)

Definition put_le (v : Z) (n : nat) : bytes :=
  (λ i : nat, Z.land (Z.shiftr v (8 * Z.of_nat i)) 0xFF) <$> seq 0 n.

Definition get_le (p : bytes) (n : nat) : Z :=
  foldl (λ v (i : nat), Z.lor v (Z.shiftl (p !!! i) (8 * Z.of_nat i))) 0 (seq 0 n).

(** ** Writer *)

Definition w_u8 (v : Z) : bytes := [v].
Definition w_u16 (v : Z) : bytes := put_le v 2.
Definition w_u32 (v : Z) : bytes := put_le v 4.
Definition w_u64 (v : Z) : bytes := put_le v 8.
Definition w_i64 (v : Z) : bytes := w_u64 (wrap 64 v).

(** The [while] of [Writer::varint]; a 64-bit value needs at most ten rounds. *)
Fixpoint w_varint_loop (fuel : nat) (v : Z) : bytes :=
  match fuel with
  | O => []
  | S fuel =>
      if v >=? 0x80
      then Z.lor (Z.land v 0x7F) 0x80 :: w_varint_loop fuel (Z.shiftr v 7)
      else [v]
  end.
Definition w_varint (v : Z) : bytes := w_varint_loop 10 v.

Definition w_raw (b : bytes) : bytes := b.
Definition w_string (s : bytes) : bytes := w_varint (zlen s) ++ s.
Definition w_blob (b : bytes) : bytes := w_varint (zlen b) ++ w_raw b.

(** ** Reader *)

Definition Reader (A : Type) : Type := bytes → Result (A * bytes).

#[global] Instance reader_ret : MRet Reader := λ A a bs, Ok (a, bs).
#[global] Instance reader_bind : MBind Reader := λ A B k m bs,
  match m bs with Ok (a, bs') => k a bs' | Err e => Err e end.

Definition r_fail {A} (e : Errc) : Reader A := λ _, Err e.
(** [Reader::remaining()]. *)
Definition r_remaining : Reader Z := λ bs, Ok (zlen bs, bs).

Definition r_u8 : Reader Z := λ bs,
  match bs with [] => Err Truncated | b :: bs' => Ok (b, bs') end.

Definition r_fixed (n : nat) : Reader Z := λ bs,
  if zlen bs <? Z.of_nat n then Err Truncated else Ok (get_le bs n, drop n bs).
Definition r_u16 : Reader Z := r_fixed 2.
Definition r_u32 : Reader Z := r_fixed 4.
Definition r_u64 : Reader Z := r_fixed 8.
Definition r_i64 : Reader Z := v ← r_u64; mret (to_i64 v).

(** The [for (shift = 0; shift < 64; shift += 7)] of [Reader::varint]: [n] is
    the number of rounds left, [shift] and [v] the loop's variables. *)
Fixpoint r_varint_loop (n : nat) (shift v : Z) : Reader Z := λ bs,
  match n with
  | O => Err Corrupt
  | S n =>
      match bs with
      | [] => Err Truncated
      | b :: bs' =>
          let v := Z.lor v (wrap 64 (Z.shiftl (Z.land b 0x7F) shift)) in
          if Z.land b 0x80 =? 0
          then if (shift =? 63) && (b >? 1) then Err Corrupt else Ok (v, bs')
          else r_varint_loop n (shift + 7) v bs'
      end
  end.
Definition r_varint : Reader Z := r_varint_loop 10 0 0.

Definition r_raw (n : Z) : Reader bytes := λ bs,
  if zlen bs <? n then Err Truncated else Ok (take (Z.to_nat n) bs, drop (Z.to_nat n) bs).

Definition r_string : Reader bytes :=
  len ← r_varint;
  rem ← r_remaining;
  if len >? rem then r_fail Truncated
  else λ bs, Ok (take (Z.to_nat len) bs, drop (Z.to_nat len) bs).

Definition r_blob : Reader bytes :=
  len ← r_varint;
  rem ← r_remaining;
  if len >? rem then r_fail Truncated else r_raw len.

(** ** Little-endian lemmas *)

Lemma length_put_le v n : length (put_le v n) = n.
Proof. unfold put_le. by rewrite length_fmap, length_seq. Qed.

Lemma put_le_lookup v n i :
  (i < n)%nat → put_le v n !! i = Some (Z.land (Z.shiftr v (8 * Z.of_nat i)) 0xFF).
Proof. intros. unfold put_le. by rewrite list_lookup_fmap, lookup_seq_lt. Qed.

Lemma get_le_S p n :
  get_le p (S n) = Z.lor (get_le p n) (Z.shiftl (p !!! n) (8 * Z.of_nat n)).
Proof. unfold get_le. by rewrite seq_S, foldl_snoc. Qed.

Lemma mod_pow2_step v k :
  0 <= k →
  Z.lor (v mod 2 ^ k) (Z.shiftl (Z.land (Z.shiftr v k) 0xFF) k) = v mod 2 ^ (k + 8).
Proof.
  intros Hk. apply Z.bits_inj'. intros i Hi.
  change 0xFF with (Z.ones 8).
  rewrite <- !Z.land_ones, Z.lor_spec, Z.shiftl_spec, !Z.land_spec by lia.
  rewrite (Z.testbit_ones_nonneg k), (Z.testbit_ones_nonneg (k + 8)) by lia.
  destruct (decide (i < k)) as [Hik|Hik].
  - rewrite (Z.testbit_neg_r _ (i - k)) by lia.
    destruct (Z.ltb_spec i k), (Z.ltb_spec i (k + 8)); try lia.
    by rewrite andb_false_l, orb_false_r.
  - rewrite Z.testbit_ones_nonneg, Z.shiftr_spec by lia.
    replace (i - k + k) with i by lia.
    destruct (Z.ltb_spec i k), (Z.ltb_spec i (k + 8)), (Z.ltb_spec (i - k) 8); try lia;
      by rewrite ?andb_true_r, ?andb_false_r, ?orb_false_l.
Qed.

Lemma get_le_put_le v m rest n :
  (n <= m)%nat → get_le (put_le v m ++ rest) n = wrap (8 * Z.of_nat n) v.
Proof.
  unfold wrap. induction n as [|n IH]; intros Hn.
  - unfold get_le. simpl. by rewrite Z.mod_1_r.
  - rewrite get_le_S, IH by lia.
    rewrite lookup_total_app_l by (rewrite length_put_le; lia).
    erewrite list_lookup_total_correct by (apply put_le_lookup; lia).
    rewrite mod_pow2_step by lia. do 2 f_equal; lia.
Qed.

Lemma get_le_bound p n :
  bytes_ok p → 0 <= get_le p n < 2 ^ (8 * Z.of_nat n).
Proof.
  intros Hp. induction n as [|n IH]; [unfold get_le; simpl; lia|].
  rewrite get_le_S.
  assert (Hb : byte_ok (p !!! n)).
  { rewrite list_lookup_total_alt. destruct (p !! n) as [b|] eqn:Hl; simpl.
    - by apply (Forall_lookup_1 _ _ _ _ Hp Hl).
    - unfold byte_ok, inhabitant. simpl. lia. }
  split.
  - apply Z.lor_nonneg. split; [lia|]. apply Z.shiftl_nonneg. zsolve.
  - destruct (decide (get_le p n = 0)) as [->|Hn0].
    + rewrite Z.lor_0_l, Z.shiftl_mul_pow2 by lia.
      replace (8 * Z.of_nat (S n)) with (8 + 8 * Z.of_nat n) by lia.
      rewrite Z.pow_add_r by lia. unfold byte_ok in Hb.
      pose proof (Z.pow_pos_nonneg 2 (8 * Z.of_nat n)). nia.
    + apply Z.log2_lt_cancel. rewrite Z.log2_lor.
      2:{ lia. } 2:{ apply Z.shiftl_nonneg. zsolve. }
      rewrite (Z.log2_pow2 (8 * Z.of_nat (S n))) by lia.
      apply Z.max_lub_lt.
      * apply Z.log2_lt_pow2; [lia|]. etrans; [apply IH|]. apply Z.pow_lt_mono_r; lia.
      * destruct (decide (p !!! n = 0)) as [->|Hp0].
        { rewrite Z.shiftl_0_l. simpl. lia. }
        rewrite Z.log2_shiftl by (unfold byte_ok in Hb; lia).
        assert (Z.log2 (p !!! n) < 8) by (apply Z.log2_lt_pow2; unfold byte_ok in Hb; lia). lia.
Qed.

(** ** Varint lemmas *)

Lemma lor_shiftl_add a b k :
  0 <= a < 2 ^ k → 0 <= k → Z.lor a (Z.shiftl b k) = a + b * 2 ^ k.
Proof.
  intros Ha Hk.
  assert (Hdisj : Z.land a (Z.shiftl b k) = 0).
  { apply Z.bits_inj'. intros i Hi. rewrite Z.land_spec, Z.shiftl_spec, Z.bits_0 by lia.
    destruct (decide (i < k)).
    - by rewrite (Z.testbit_neg_r b), andb_false_r by lia.
    - rewrite <- (Z.mod_small a (2 ^ k)) by done. by rewrite Z.mod_pow2_bits_high by lia. }
  rewrite <- Z.lxor_lor, <- Z.add_nocarry_lxor by done. by rewrite Z.shiftl_mul_pow2.
Qed.

Lemma land_7F v : Z.land v 0x7F = v mod 128.
Proof. change 0x7F with (Z.ones 7). by rewrite Z.land_ones. Qed.

Lemma varint_cont_byte v :
  let b := Z.lor (Z.land v 0x7F) 0x80 in
  Z.land b 0x7F = v mod 128 ∧ (Z.land b 0x80 =? 0) = false.
Proof.
  simpl. rewrite (land_7F v).
  pose proof (Z.mod_pos_bound v 128 ltac:(lia)) as Hm. set (x := v mod 128) in *.
  assert (Hlor : Z.lor x 0x80 = x + 128) by (apply (lor_shiftl_add x 1 7); lia).
  rewrite Hlor. split.
  - rewrite land_7F.
    change (x + 128) with (x + 1 * 128). rewrite Z.mod_add by lia. by apply Z.mod_small.
  - apply Z.eqb_neq. intros Hz.
    assert (Hbit : Z.testbit (Z.land (x + 128) 0x80) 7 = false) by (by rewrite Hz).
    change 0x80 with (2 ^ 7) in Hbit at 2.
    rewrite Z.land_spec, Z.pow2_bits_true, andb_true_r in Hbit by lia.
    rewrite Z.testbit_false in Hbit by lia. change (2 ^ 7) with 128 in Hbit.
    replace (x + 128) with (x + 1 * 128) in Hbit by lia.
    rewrite Z.div_add, (Z.div_small x) in Hbit by lia. done.
Qed.

Lemma varint_last_byte v : 0 <= v < 128 → Z.land v 0x7F = v ∧ Z.land v 0x80 = 0.
Proof.
  intros Hv. rewrite land_7F, Z.mod_small by lia. split; [done|].
  apply Z.bits_inj'. intros i Hi. rewrite Z.land_spec, Z.bits_0.
  change 0x80 with (2 ^ 7). destruct (decide (i = 7)) as [->|].
  - rewrite <- (Z.mod_small v (2 ^ 7)), Z.mod_pow2_bits_high by lia. done.
  - by rewrite Z.pow2_bits_false, andb_false_r by lia.
Qed.

Lemma r_varint_loop_w n shift acc v rest :
  shift = 7 * (10 - Z.of_nat n) → 0 <= shift <= 63 →
  0 <= acc < 2 ^ shift → 0 <= v < 2 ^ (64 - shift) →
  r_varint_loop n shift acc (w_varint_loop n v ++ rest) = Ok (acc + v * 2 ^ shift, rest).
Proof.
  revert shift acc v. induction n as [|n IH]; intros shift acc v Hs Hr Hacc Hv; [lia|].
  assert (Hpow : 2 ^ (64 - shift) * 2 ^ shift = 2 ^ 64).
  { rewrite <- Z.pow_add_r by lia. f_equal. lia. }
  cbn [w_varint_loop r_varint_loop]. destruct (v >=? 0x80) eqn:Hge; b2p; cbn [app].
  - destruct (varint_cont_byte v) as [H7 H8]. rewrite H7, H8.
    pose proof (Z.mod_pos_bound v 128 ltac:(lia)). pose proof (Z.mod_le v 128 ltac:(lia) ltac:(lia)).
    assert (shift < 63).
    { destruct (decide (shift = 63)) as [->|]; [|lia]. simpl in Hv. lia. }
    rewrite (wrap_id 64) by (rewrite Z.shiftl_mul_pow2 by lia; nia).
    rewrite lor_shiftl_add by lia. rewrite IH.
    + rewrite Z.shiftr_div_pow2, Z.pow_add_r by lia. change (2 ^ 7) with 128.
      do 2 f_equal. pose proof (Z.div_mod v 128 ltac:(lia)). nia.
    + lia.
    + lia.
    + rewrite Z.pow_add_r by lia. nia.
    + rewrite Z.shiftr_div_pow2 by lia. split; [apply Z.div_pos; lia|].
      apply Z.div_lt_upper_bound; [lia|]. rewrite <- Z.pow_add_r by lia.
      replace (7 + (64 - (shift + 7))) with (64 - shift) by lia. lia.
  - destruct (varint_last_byte v ltac:(lia)) as [H7 H8]. rewrite H7, H8. simpl Z.eqb.
    replace ((shift =? 63) && (v >? 1)) with false.
    2:{ symmetry. apply andb_false_iff. destruct (decide (shift = 63)) as [->|]; [right|left; lia].
        simpl in Hv. lia. }
    rewrite (wrap_id 64) by (rewrite Z.shiftl_mul_pow2 by lia; nia).
    by rewrite lor_shiftl_add by lia.
Qed.

(** ** Reader laws *)

Lemma reader_bind_ok {A B} (m : Reader A) (k : A → Reader B) bs a bs' :
  m bs = Ok (a, bs') → (m ≫= k) bs = k a bs'.
Proof. unfold mbind, reader_bind. by intros ->. Qed.

Lemma reader_bind_inv {A B} (m : Reader A) (k : A → Reader B) bs b bs' :
  (m ≫= k) bs = Ok (b, bs') → ∃ a mid, m bs = Ok (a, mid) ∧ k a mid = Ok (b, bs').
Proof. unfold mbind, reader_bind. destruct (m bs) as [[a mid]|e] eqn:Hm; [eauto|done]. Qed.

(** *** Codecs

    A type with an encoder of the [Writer] family and a decoder of the
    [Reader] family.  [cwf] is the range of values the C++ types of the fields
    allow; [con_wire] is what the peer sees of a value (the identity, except
    for messages with conditional fields). *)
Class Codec (A : Type) := {
  enc : A → bytes;
  dec : Reader A;
  cwf : A → Prop;
  con_wire : A → A;
  codec_rt : ∀ a rest, cwf a → dec (enc a ++ rest) = Ok (con_wire a, rest)
}.

Lemma r_u8_w v rest : r_u8 (w_u8 v ++ rest) = Ok (v, rest).
Proof. done. Qed.

Lemma r_fixed_w n v rest :
  0 <= v < 2 ^ (8 * Z.of_nat n) → r_fixed n (put_le v n ++ rest) = Ok (v, rest).
Proof.
  intros Hv. unfold r_fixed.
  destruct (Z.ltb_spec (zlen (put_le v n ++ rest)) (Z.of_nat n)) as [Hlt|_].
  { exfalso. unfold zlen in Hlt. rewrite length_app, length_put_le in Hlt. lia. }
  rewrite get_le_put_le, wrap_id by lia.
  by rewrite drop_app_length' by (by rewrite length_put_le).
Qed.

Lemma r_u16_w v rest : u16_ok v → r_u16 (w_u16 v ++ rest) = Ok (v, rest).
Proof. intros. apply r_fixed_w. zsolve. Qed.
Lemma r_u32_w v rest : u32_ok v → r_u32 (w_u32 v ++ rest) = Ok (v, rest).
Proof. intros. apply r_fixed_w. zsolve. Qed.
Lemma r_u64_w v rest : u64_ok v → r_u64 (w_u64 v ++ rest) = Ok (v, rest).
Proof. intros. apply r_fixed_w. zsolve. Qed.

Lemma r_i64_w v rest : i64_ok v → r_i64 (w_i64 v ++ rest) = Ok (v, rest).
Proof.
  intros Hv. unfold r_i64, w_i64. erewrite reader_bind_ok.
  2:{ apply r_u64_w. apply wrap_ok; lia. }
  unfold mret, reader_ret. by rewrite to_i64_wrap.
Qed.

Lemma r_varint_w v rest : u64_ok v → r_varint (w_varint v ++ rest) = Ok (v, rest).
Proof.
  intros Hv. unfold r_varint, w_varint. rewrite r_varint_loop_w by zsolve.
  do 2 f_equal. lia.
Qed.

Lemma r_remaining_ok bs : r_remaining bs = Ok (zlen bs, bs).
Proof. done. Qed.

(** A string or span fits in memory: its size is a [std::size_t]. *)
Definition str_ok (s : bytes) : Prop := u64_ok (zlen s).

Lemma str_ok_nil : str_ok [].
Proof. unfold str_ok, u64_ok, zlen. simpl. lia. Qed.

Lemma r_string_w s rest : str_ok s → r_string (w_string s ++ rest) = Ok (s, rest).
Proof.
  intros Hs. unfold r_string, w_string. rewrite <- app_assoc.
  erewrite reader_bind_ok by (by apply r_varint_w).
  erewrite reader_bind_ok by apply r_remaining_ok.
  destruct (zlen s >? zlen (s ++ rest)) eqn:Hgt.
  { b2p. autorewrite with zlen in Hgt. pose proof (zlen_nonneg rest). lia. }
  unfold zlen. by rewrite Nat2Z.id, take_app_length, drop_app_length.
Qed.

Lemma r_blob_w s rest : str_ok s → r_blob (w_blob s ++ rest) = Ok (s, rest).
Proof.
  intros Hs. unfold r_blob, w_blob, w_raw, r_raw. rewrite <- app_assoc.
  erewrite reader_bind_ok by (by apply r_varint_w).
  erewrite reader_bind_ok by apply r_remaining_ok.
  assert (Hle : zlen s <= zlen (s ++ rest)).
  { autorewrite with zlen. pose proof (zlen_nonneg rest). lia. }
  destruct (zlen s >? zlen (s ++ rest)) eqn:Hgt; [b2p; lia|].
  destruct (zlen (s ++ rest) <? zlen s) eqn:Hlt; [b2p; lia|].
  unfold zlen. by rewrite Nat2Z.id, take_app_length, drop_app_length.
Qed.

Lemma codec_step {A B} `{Codec A} (k : A → Reader B) a rest :
  cwf a → (dec ≫= k) (enc a ++ rest) = k (con_wire a) rest.
Proof. intros. by erewrite reader_bind_ok by (by apply codec_rt). Qed.

#[export] Hint Resolve r_u8_w r_u16_w r_u32_w r_u64_w r_i64_w r_varint_w r_string_w r_blob_w
  r_remaining_ok : wsl.

#[export] Hint Extern 2 (u16_ok _) => zsolve : wsl.
#[export] Hint Extern 2 (u32_ok _) => zsolve : wsl.
#[export] Hint Extern 2 (u64_ok _) => zsolve : wsl.
#[export] Hint Extern 2 (i64_ok _) => zsolve : wsl.

(** Runs a decoder over the encoding it faces: one [reader_bind_ok] per field,
    closed with the primitive round trips of the hint database. *)
Ltac wire_step := erewrite reader_bind_ok by (solve [eauto with wsl]).
(** A guard [if x >? y then fail] whose bound is known to hold. *)
Ltac wire_guard := rewrite Z.gtb_ltb, (proj2 (Z.ltb_ge _ _)) by (simpl; zsolve).
Ltac wire_run := rewrite <- ?app_assoc; repeat first [wire_step | wire_guard].

(** *** Consumption

    [Consumes n r]: whenever [r] succeeds it has read a prefix of at least [n]
    bytes and returns exactly the rest. *)
Class Consumes {A} (n : nat) (r : Reader A) : Prop :=
  consumes : ∀ bs a rest, r bs = Ok (a, rest) → ∃ pre, bs = pre ++ rest ∧ (n <= length pre)%nat.

#[global] Instance consumes_ret {A} (a : A) : Consumes 0 (mret a : Reader A).
Proof. intros bs a' rest [= -> ->]. by exists []. Qed.

#[global] Instance consumes_fail {A} n e : Consumes n (@r_fail A e).
Proof. by intros bs a rest. Qed.

#[global] Instance consumes_bind {A B} n m (r : Reader A) (k : A → Reader B) :
  Consumes n r → (∀ a, Consumes m (k a)) → Consumes (n + m) (r ≫= k).
Proof.
  intros Hr Hk bs b rest (a & mid & H1 & H2)%reader_bind_inv.
  apply Hr in H1 as (p1 & -> & ?). apply Hk in H2 as (p2 & -> & ?).
  exists (p1 ++ p2). rewrite app_assoc, length_app. split; [done|lia].
Qed.

Lemma consumes_if {A} n (b : bool) (r1 r2 : Reader A) :
  Consumes n r1 → Consumes n r2 → Consumes n (if b then r1 else r2).
Proof. by destruct b. Qed.

Lemma consumes_weaken {A} n m (r : Reader A) : (m <= n)%nat → Consumes n r → Consumes m r.
Proof. intros Hle Hr bs a rest (p & -> & ?)%Hr. exists p. split; [done|lia]. Qed.

#[global] Instance consumes_remaining : Consumes 0 r_remaining.
Proof. intros bs a rest [= <- ->]. by exists []. Qed.

#[global] Instance consumes_u8 : Consumes 1 r_u8.
Proof. intros [|b bs] a rest; [done|]. intros [= -> ->]. by exists [a]. Qed.

#[global] Instance consumes_fixed n : Consumes n (r_fixed n).
Proof.
  unfold r_fixed. intros bs a rest H. destruct (Z.ltb_spec (zlen bs) (Z.of_nat n)) as [|Hle]; [done|].
  injection H as _ <-. exists (take n bs). rewrite take_drop, length_take.
  split; [done|]. unfold zlen in Hle. lia.
Qed.

#[global] Instance consumes_u16 : Consumes 2 r_u16 := consumes_fixed 2.
#[global] Instance consumes_u32 : Consumes 4 r_u32 := consumes_fixed 4.
#[global] Instance consumes_u64 : Consumes 8 r_u64 := consumes_fixed 8.
#[global] Instance consumes_i64 : Consumes 8 r_i64.
Proof. apply (consumes_bind 8 0); apply _. Qed.

Lemma consumes_varint_loop n shift v : Consumes 1 (r_varint_loop n shift v).
Proof.
  revert shift v. induction n as [|n IH]; intros shift v [|b bs] a rest; try done.
  cbn [r_varint_loop]. intros H. case_match.
  - case_match; [done|]. injection H as <- <-. by exists [b].
  - apply IH in H as (p & -> & ?). exists (b :: p). simpl. split; [done|lia].
Qed.

#[global] Instance consumes_varint : Consumes 1 r_varint := consumes_varint_loop _ _ _.

#[global] Instance consumes_raw n : Consumes 0 (r_raw n).
Proof.
  unfold r_raw. intros bs a rest H. case_match; [done|]. injection H as <- <-.
  exists (take (Z.to_nat n) bs). rewrite take_drop. split; [done|lia].
Qed.

#[global] Instance consumes_string : Consumes 1 r_string.
Proof.
  apply (consumes_bind 1 0); [apply _|]. intros len. apply (consumes_bind 0 0); [apply _|].
  intros rem. apply consumes_if; [apply _|]. intros bs a rest [= <- <-].
  exists (take (Z.to_nat len) bs). rewrite take_drop. split; [done|lia].
Qed.

#[global] Instance consumes_blob : Consumes 1 r_blob.
Proof.
  apply (consumes_bind 1 0); [apply _|]. intros len. apply (consumes_bind 0 0); [apply _|].
  intros rem. apply consumes_if; apply _.
Qed.

(** Adds up what the fields of a decoder consume. *)
Ltac consumes_walk :=
  lazymatch goal with
  | |- Consumes _ (mret _) => apply consumes_ret
  | |- Consumes _ (if _ then r_fail _ else _) =>
      eapply consumes_if; [|consumes_walk]; apply consumes_fail
  | |- Consumes _ (_ ≫= _) => eapply consumes_bind; [apply _|intros ?; consumes_walk]
  end.
Ltac solve_consumes := eapply consumes_weaken; [|consumes_walk]; simpl; lia.

(** A successful reader never returns more than it was given. *)
Lemma consumes_length {A} n (r : Reader A) `{!Consumes n r} bs a rest :
  r bs = Ok (a, rest) → zlen rest + Z.of_nat n <= zlen bs.
Proof. intros (p & -> & Hp)%consumes. rewrite zlen_app. unfold zlen. lia. Qed.

Lemma consumes_ok {A} n (r : Reader A) `{!Consumes n r} bs a rest :
  r bs = Ok (a, rest) → bytes_ok bs → bytes_ok rest.
Proof. intros (p & -> & _)%consumes [_ ?]%bytes_ok_app. done. Qed.

(** *** What a decoder guarantees about values read off the wire

    [Yields P r]: on any input made of bytes, a value [r] returns satisfies
    [P], and the unread input is still made of bytes. *)
Definition input_ok (bs : bytes) : Prop := bytes_ok bs ∧ u64_ok (zlen bs).

Class Yields {A} (P : A → Prop) (r : Reader A) : Prop :=
  yields : ∀ bs a rest, input_ok bs → r bs = Ok (a, rest) → P a ∧ input_ok rest.

Lemma yields_ret {A} (P : A → Prop) a : P a → Yields P (mret a : Reader A).
Proof. intros HP bs a' rest Hbs [= -> ->]. done. Qed.

Lemma yields_fail {A} (P : A → Prop) e : Yields P (@r_fail A e).
Proof. by intros bs a rest. Qed.

Lemma yields_bind {A B} (Q : A → Prop) (P : B → Prop) (m : Reader A) (k : A → Reader B) :
  Yields Q m → (∀ a, Q a → Yields P (k a)) → Yields P (m ≫= k).
Proof.
  intros Hm Hk bs b rest Hbs (a & mid & H1 & H2)%reader_bind_inv.
  destruct (Hm _ _ _ Hbs H1) as [HQ Hmid]. by apply (Hk a HQ mid b rest).
Qed.

(** The test a decoder makes before going on is known to have failed. *)
Lemma yields_guard {A} (P : A → Prop) (x y : Z) e (r : Reader A) :
  (x <= y → Yields P r) → Yields P (if x >? y then r_fail e else r).
Proof. intros Hr. destruct (x >? y) eqn:Hgt; b2p; [apply yields_fail|by apply Hr]. Qed.

Lemma consumes_yields {A} n (P : A → Prop) (r : Reader A) :
  Consumes n r → (∀ bs a rest, input_ok bs → r bs = Ok (a, rest) → P a) → Yields P r.
Proof.
  intros Hc HP bs a rest Hbs H. split; [by eapply HP|].
  destruct Hbs as [Hok Hlen]. split; [by eapply consumes_ok|].
  apply (consumes_length n r) in H. pose proof (zlen_nonneg rest). zsolve.
Qed.

Lemma bytes_ok_take n bs : bytes_ok bs → bytes_ok (take n bs).
Proof. apply Forall_take. Qed.

Lemma input_ok_take n bs : input_ok bs → input_ok (take n bs).
Proof.
  intros [Hok Hlen]. split; [by apply bytes_ok_take|].
  unfold u64_ok, zlen in *. rewrite length_take. lia.
Qed.

#[global] Instance yields_u8 : Yields byte_ok r_u8.
Proof.
  apply (consumes_yields 1); [apply _|]. intros [|b bs] a rest [Hok _]; [done|].
  intros [= -> ->]. by inversion Hok.
Qed.

Lemma yields_fixed n : Yields (λ v, 0 <= v < 2 ^ (8 * Z.of_nat n)) (r_fixed n).
Proof.
  apply (consumes_yields n); [apply _|]. unfold r_fixed. intros bs a rest [Hok _] H.
  case_match; [done|]. injection H as <- _. by apply get_le_bound.
Qed.

#[global] Instance yields_u16 : Yields u16_ok r_u16 := yields_fixed 2.
#[global] Instance yields_u32 : Yields u32_ok r_u32 := yields_fixed 4.
#[global] Instance yields_u64 : Yields u64_ok r_u64 := yields_fixed 8.

#[global] Instance yields_i64 : Yields i64_ok r_i64.
Proof.
  apply (yields_bind u64_ok); [apply _|]. intros v Hv. apply yields_ret.
  unfold to_i64, i64_ok, u64_ok in *. case_match; b2p; lia.
Qed.

Lemma u64_ok_lor a b : u64_ok a → u64_ok b → u64_ok (Z.lor a b).
Proof.
  unfold u64_ok. intros Ha Hb. rewrite <- (Z.mod_small a (2 ^ 64)), <- (Z.mod_small b (2 ^ 64)) by done.
  rewrite <- !Z.land_ones, <- Z.land_lor_distr_l, Z.land_ones by lia.
  apply Z.mod_pos_bound. lia.
Qed.

Lemma yields_varint_loop n shift v : u64_ok v → Yields u64_ok (r_varint_loop n shift v).
Proof.
  intros Hv. apply (consumes_yields 1); [apply consumes_varint_loop|].
  intros bs a rest _. revert shift v bs Hv.
  induction n as [|n IH]; intros shift v [|b bs] Hv; try done. cbn [r_varint_loop].
  assert (Hv' : u64_ok (Z.lor v (wrap 64 (Z.shiftl (Z.land b 0x7F) shift)))).
  { apply u64_ok_lor; [done|]. apply wrap_ok. lia. }
  intros H. case_match; [|by eapply IH]. case_match; [done|]. by injection H as <- _.
Qed.

#[global] Instance yields_varint : Yields u64_ok r_varint.
Proof. apply yields_varint_loop. zsolve. Qed.

#[global] Instance yields_remaining : Yields u64_ok r_remaining.
Proof. apply (consumes_yields 0); [apply _|]. intros bs a rest [_ ?] [= <- _]. done. Qed.

#[global] Instance yields_string : Yields input_ok r_string.
Proof.
  apply (yields_bind u64_ok); [apply _|]. intros len Hlen.
  apply (yields_bind u64_ok); [apply _|]. intros rem Hrem. apply yields_guard. intros _.
  apply (consumes_yields 0).
  - intros bs a rest [= <- <-]. exists (take (Z.to_nat len) bs). rewrite take_drop. split; [done|lia].
  - intros bs a rest Hbs [= <- _]. by apply input_ok_take.
Qed.

#[global] Instance yields_blob : Yields input_ok r_blob.
Proof.
  apply (yields_bind u64_ok); [apply _|]. intros len Hlen.
  apply (yields_bind u64_ok); [apply _|]. intros rem Hrem. apply yields_guard. intros _.
  apply (consumes_yields 0); [apply _|].
  unfold r_raw. intros bs a rest Hbs H. case_match; [done|]. injection H as <- _. by apply input_ok_take.
Qed.

(** Walks a decoder written with [←] and guards, leaving the final condition. *)
Ltac yields_step :=
  first [ eapply yields_bind; [apply _|let Hy := fresh "Hy" in intros ? Hy; cbn beta in Hy]
        | apply yields_guard; intros ?
        | apply yields_ret ].

(** ** [put_le] inverts [get_le] on bytes *)

Lemma testbit_byte_high b i : byte_ok b → 8 <= i → Z.testbit b i = false.
Proof.
  intros Hb Hi. rewrite <- (Z.mod_small b (2 ^ 8)) by (unfold byte_ok in Hb; lia).
  apply Z.mod_pow2_bits_high. lia.
Qed.

Lemma get_le_cons b p n : byte_ok b → bytes_ok p →
  get_le (b :: p) (S n) = b + 2 ^ 8 * get_le p n.
Proof.
  intros Hb Hp. induction n as [|n IH].
  - unfold get_le. cbn. rewrite Z.shiftl_0_r, Z.lor_0_l. lia.
  - rewrite get_le_S, IH, get_le_S. change ((b :: p) !!! S n) with (p !!! n).
    replace (8 * Z.of_nat (S n)) with (8 + 8 * Z.of_nat n) by lia.
    rewrite <- Z.shiftl_shiftl by lia.
    rewrite !(Z.add_comm b), !(Z.mul_comm (2 ^ 8)), <- !Z.shiftl_mul_pow2 by lia.
    assert (Hadd : ∀ x, Z.shiftl x 8 + b = Z.lor (Z.shiftl x 8) b).
    { intros x. unfold byte_ok in Hb. rewrite Z.lor_comm, lor_shiftl_add, Z.shiftl_mul_pow2 by lia. lia. }
    rewrite !Hadd, Z.shiftl_lor, <- !Z.lor_assoc, (Z.lor_comm b).
    do 2 f_equal. rewrite !Z.shiftl_shiftl by lia. f_equal. lia.
Qed.

Lemma put_le_S v n : put_le v (S n) = Z.land v 0xFF :: put_le (Z.shiftr v 8) n.
Proof.
  unfold put_le. cbn [seq fmap list_fmap]. f_equal.
  rewrite <- fmap_S_seq, <- list_fmap_compose. apply list_fmap_ext. intros i x _. simpl.
  rewrite Z.shiftr_shiftr by lia. do 2 f_equal. lia.
Qed.

Lemma put_le_get_le p n : bytes_ok p → (n <= length p)%nat → put_le (get_le p n) n = take n p.
Proof.
  revert p. induction n as [|n IH]; intros p Hp Hn; [by destruct p|].
  destruct p as [|b p]; simpl in Hn; [lia|]. apply Forall_cons in Hp as [Hb Hp].
  rewrite put_le_S, get_le_cons by done. change (2 ^ 8) with 256. unfold byte_ok in Hb.
  cbn [take]. f_equal.
  - change 0xFF with (Z.ones 8). rewrite Z.land_ones, Z.mul_comm by lia. change (2 ^ 8) with 256.
    rewrite Z.mod_add by lia. apply Z.mod_small. lia.
  - rewrite <- IH by (done || lia). f_equal. rewrite Z.shiftr_div_pow2, Z.mul_comm by lia.
    change (2 ^ 8) with 256. rewrite Z.div_add, Z.div_small by lia. lia.
Qed.

(** ** Encoded sizes *)

Lemma w_varint_length v : zlen (w_varint v) <= 10.
Proof.
  unfold w_varint. assert (∀ n v, zlen (w_varint_loop n v) <= Z.of_nat n) as Hn.
  { clear. induction n as [|n IH]; intros v; [done|]. cbn [w_varint_loop]. case_match.
    - rewrite zlen_cons. specialize (IH (Z.shiftr v 7)). lia.
    - unfold zlen; simpl; lia. }
  apply (Hn 10%nat).
Qed.

Lemma put_le_zlen v n : zlen (put_le v n) = Z.of_nat n.
Proof. unfold zlen. by rewrite length_put_le. Qed.
