(* ===== verification/Messages.v ===== *)
(** * Frame header and messages ([core/protocol.hpp], [core/protocol.cpp])

    Every message of the protocol with its [write_*]/[read_*] pair, the frame
    header and [write_frame].  Each pair is an instance of [Codec] (the reader
    inverts the writer) and of [CodecSound] (a decoded value is in range
    whatever the peer sent, and is a fixed point of the wire view). *)

From S2P Require Import Prelude Types Wire.

(** ** Constants *)
Definition kMagic : Z := 0x444C5357.
Definition kVersion : Z := 4.
Definition kHeaderSize : nat := 24.
Definition kMaxPayload : Z := Z.shiftl 64 20.
Definition kMaxReadManyPaths : Z := 4096.
Definition kMaxFileOffset : Z := Z.shiftl 1 44.
Definition kFlagMore : Z := 0x1.

(** ** Message types *)
Module MsgType.
Inductive t :=
| Hello | HelloAck | SnapshotRequest | Snapshot | Invalidation | ReadRequest | ReadResponse
| Error | Ping | Pong | WriteRequest | WriteResponse | CreateRequest | CreateResponse
| MkdirRequest | UnlinkRequest | RmdirRequest | RenameRequest | TruncateRequest | Ok
| ReadManyRequest | ReadManyResponse | ReadlinkRequest | ReadlinkResponse | Auth
| Unlisted (code : Z).   (* any other 16-bit value: the enum has a fixed underlying type *)

#[global] Instance eq_dec : EqDecision t.
Proof. solve_decision. Defined.

Definition code (m : t) : Z :=
  match m with
  | Hello => 1 | HelloAck => 2 | SnapshotRequest => 3 | Snapshot => 4 | Invalidation => 5
  | ReadRequest => 6 | ReadResponse => 7 | Error => 8 | Ping => 9 | Pong => 10
  | WriteRequest => 11 | WriteResponse => 12 | CreateRequest => 13 | CreateResponse => 14
  | MkdirRequest => 15 | UnlinkRequest => 16 | RmdirRequest => 17 | RenameRequest => 18
  | TruncateRequest => 19 | Ok => 20 | ReadManyRequest => 21 | ReadManyResponse => 22
  | ReadlinkRequest => 23 | ReadlinkResponse => 24 | Auth => 25
  | Unlisted c => c
  end.

Definition of_code (c : Z) : t :=
  match c with
  | 1 => Hello | 2 => HelloAck | 3 => SnapshotRequest | 4 => Snapshot | 5 => Invalidation
  | 6 => ReadRequest | 7 => ReadResponse | 8 => Error | 9 => Ping | 10 => Pong
  | 11 => WriteRequest | 12 => WriteResponse | 13 => CreateRequest | 14 => CreateResponse
  | 15 => MkdirRequest | 16 => UnlinkRequest | 17 => RmdirRequest | 18 => RenameRequest
  | 19 => TruncateRequest | 20 => Ok | 21 => ReadManyRequest | 22 => ReadManyResponse
  | 23 => ReadlinkRequest | 24 => ReadlinkResponse | 25 => Auth
  | _ => Unlisted c
  end.

(** [Unlisted c] stands only for values the enumeration does not name. *)
Definition ok (m : t) : Prop := of_code (code m) = m ∧ u16_ok (code m).

Lemma code_of_code c : code (of_code c) = c.
Proof. unfold of_code. repeat (case_match; try done). Qed.

Lemma ok_of_code c : u16_ok c → ok (of_code c).
Proof. intros. unfold ok. by rewrite code_of_code. Qed.
End MsgType.

(** ** Frame header *)
Record FrameHeader := mkHeader {
  h_type : MsgType.t;
  h_flags : Z;
  h_payload_len : Z;
  h_request_id : Z
}.

Definition header_ok (h : FrameHeader) : Prop :=
  MsgType.ok (h_type h) ∧ u32_ok (h_flags h) ∧ 0 <= h_payload_len h <= kMaxPayload
  ∧ u64_ok (h_request_id h).

(** The six [put_le] calls write consecutive ranges of the 24-byte span. *)
Definition encode_header (h : FrameHeader) : bytes :=
  put_le kMagic 4 ++ put_le kVersion 2 ++ put_le (MsgType.code (h_type h)) 2 ++
  put_le (h_flags h) 4 ++ put_le (h_payload_len h) 4 ++ put_le (h_request_id h) 8.

Definition decode_header (inp : bytes) : Result FrameHeader :=
  if zlen inp <? Z.of_nat kHeaderSize then Err Truncated
  else if negb (get_le inp 4 =? kMagic) then Err BadMagic
  else if negb (get_le (drop 4 inp) 2 =? kVersion) then Err UnsupportedVersion
  else
    let h := mkHeader (MsgType.of_code (get_le (drop 6 inp) 2)) (get_le (drop 8 inp) 4)
               (get_le (drop 12 inp) 4) (get_le (drop 16 inp) 8) in
    if h_payload_len h >? kMaxPayload then Err TooLarge else Ok h.

(** [write_frame]: the frame appended to the buffer.  [payload_len] is the
    32-bit truncation of the payload size. *)
Definition write_frame (t : MsgType.t) (request_id : Z) (payload : bytes) (flags : Z) : bytes :=
  encode_header (mkHeader t flags (wrap 32 (zlen payload)) request_id) ++ payload.

(** ** Messages *)
Record Hello := mkHello {
  protocol_version : Z;
  capabilities : Z;
  agent : bytes;
  nonce : bytes;
  proof : bytes
}.

Record SnapshotHeader := mkSnapshotHeader {
  sh_generation : Z;
  sh_count : Z
}.

Record InvalidationOp := mkOp {
  op_kind : InvalidationKind;
  op_path : bytes;
  op_attr : Attributes;
  op_change : ChangeKind;
  op_cookie : Z
}.

Record InvalidationBatch := mkBatch {
  b_generation : Z;
  b_ops : list InvalidationOp
}.

Record ReadRequest := mkReadRequest { rq_path : bytes; rq_offset : Z; rq_length : Z }.
Record ReadResponse := mkReadResponse { rp_file_size : Z; rp_data : bytes }.
Record ErrorMessage := mkErrorMessage { em_code : Z; em_detail : bytes }.
Record WriteRequest := mkWriteRequest { wq_path : bytes; wq_offset : Z; wq_data : bytes }.
Record MutationAck := mkAck { ack_generation : Z }.
Record WriteResponse := mkWriteResponse { wr_written : Z; wr_generation : Z }.
Record CreateRequest := mkCreateRequest { cq_path : bytes; cq_mode : Z }.
Record MkdirRequest := mkMkdirRequest { mq_path : bytes; mq_mode : Z }.
Record PathRequest := mkPathRequest { pq_path : bytes }.
Record TruncateRequest := mkTruncateRequest { tq_path : bytes; tq_size : Z }.
Record RenameRequest := mkRenameRequest { nq_from : bytes; nq_to : bytes }.
Record ReadManyRequest := mkReadManyRequest { rmq_paths : list bytes }.
Record ReadManyItem := mkItem { it_ok : bool; it_data : bytes }.
Record ReadManyResponse := mkReadManyResponse { rmp_items : list ReadManyItem }.
Record ReadlinkResponse := mkReadlinkResponse { rl_target : bytes }.

(** The [for] loops that write one element per round. *)
Fixpoint w_each {A} (w : A → bytes) (l : list A) : bytes :=
  match l with [] => [] | a :: l => w a ++ w_each w l end.

(** The [for] loops that append one decoded element per round. *)
Fixpoint read_n {A} (n : nat) (r : Reader A) : Reader (list A) :=
  match n with
  | O => mret []
  | S n => a ← r; l ← read_n n r; mret (a :: l)
  end.

Definition write_attributes (a : Attributes) : bytes :=
  w_u8 (node_kind_code (a_kind a)) ++ w_varint (a_mode a) ++ w_varint (a_size a)
  ++ w_i64 (a_mtime_ns a).

Definition read_attributes : Reader Attributes :=
  k ← r_u8;
  if k >? node_kind_code Other then r_fail Corrupt else
  m ← r_varint;
  if m >? 0xFFFFFFFF then r_fail Corrupt else
  s ← r_varint;
  t ← r_i64;
  mret (mkAttr s t m (node_kind_of k)).

Definition write_hello (h : Hello) : bytes :=
  w_u32 (protocol_version h) ++ w_u64 (capabilities h) ++ w_string (agent h)
  ++ w_string (nonce h) ++ w_string (proof h).

Definition read_hello : Reader Hello :=
  v ← r_u32;
  caps ← r_u64;
  ag ← r_string;
  no ← r_string;
  pr ← r_string;
  mret (mkHello v caps ag no pr).

Definition write_snapshot_header (generation count : Z) : bytes :=
  w_u64 generation ++ w_u32 count.

Definition write_snapshot_entry (e : SnapshotEntry) : bytes :=
  w_u32 (se_parent e) ++ write_attributes (se_attr e) ++ w_string (se_name e).

Definition read_snapshot_header : Reader SnapshotHeader :=
  gen ← r_u64;
  count ← r_u32;
  rem ← r_remaining;
  if count * 16 >? rem then r_fail Corrupt else mret (mkSnapshotHeader gen count).

Definition read_snapshot_entry : Reader SnapshotEntry :=
  par ← r_u32;
  attr ← read_attributes;
  name ← r_string;
  mret (mkSnap par name attr).

(** [read_snapshot] with [on_entry] collecting the entries in order. *)
Definition read_snapshot : Reader (Z * list SnapshotEntry) :=
  hdr ← read_snapshot_header;
  es ← read_n (Z.to_nat (sh_count hdr)) read_snapshot_entry;
  mret (sh_generation hdr, es).

Definition write_op (op : InvalidationOp) : bytes :=
  w_u8 (invalidation_code (op_kind op)) ++ w_string (op_path op)
  ++ (if bool_decide (op_kind op = Upsert) then write_attributes (op_attr op) else [])
  ++ w_u8 (change_code (op_change op))
  ++ (if is_move (op_change op) then w_u32 (op_cookie op) else []).

Definition write_invalidation (b : InvalidationBatch) : bytes :=
  w_u64 (b_generation b) ++ w_varint (zlen (b_ops b)) ++ w_each write_op (b_ops b).

(** One round of the loop of [read_invalidation]. *)
Definition read_op : Reader InvalidationOp :=
  k ← r_u8;
  if k >? invalidation_code Rescan then r_fail Corrupt else
  path ← r_string;
  attr ← (if bool_decide (invalidation_of k = Upsert) then read_attributes else mret default_attr);
  c ← r_u8;
  if c >? kMaxChangeKind then r_fail Corrupt else
  cookie ← (if is_move (change_of c) then r_u32 else mret 0);
  mret (mkOp (invalidation_of k) path attr (change_of c) cookie).

Definition read_invalidation : Reader InvalidationBatch :=
  gen ← r_u64;
  count ← r_varint;
  rem ← r_remaining;
  if count >? rem then r_fail Corrupt else
  ops ← read_n (Z.to_nat count) read_op;
  mret (mkBatch gen ops).

Definition write_read_request (q : ReadRequest) : bytes :=
  w_u64 (rq_offset q) ++ w_u32 (rq_length q) ++ w_string (rq_path q).
Definition read_read_request : Reader ReadRequest :=
  off ← r_u64; len ← r_u32; path ← r_string; mret (mkReadRequest path off len).

Definition write_read_response (p : ReadResponse) : bytes :=
  w_u64 (rp_file_size p) ++ w_blob (rp_data p).
Definition read_read_response : Reader ReadResponse :=
  size ← r_u64; data ← r_blob; mret (mkReadResponse size data).

Definition write_error (e : ErrorMessage) : bytes := w_u32 (em_code e) ++ w_string (em_detail e).
Definition read_error : Reader ErrorMessage :=
  code ← r_u32; detail ← r_string; mret (mkErrorMessage code detail).

Definition write_write_request (q : WriteRequest) : bytes :=
  w_u64 (wq_offset q) ++ w_string (wq_path q) ++ w_blob (wq_data q).
Definition read_write_request : Reader WriteRequest :=
  off ← r_u64; path ← r_string; data ← r_blob; mret (mkWriteRequest path off data).

Definition write_write_response (p : WriteResponse) : bytes :=
  w_u64 (wr_written p) ++ w_u64 (wr_generation p).
Definition read_write_response : Reader WriteResponse :=
  n ← r_u64; g ← r_u64; mret (mkWriteResponse n g).

Definition write_mutation_ack (a : MutationAck) : bytes := w_u64 (ack_generation a).
Definition read_mutation_ack : Reader MutationAck := g ← r_u64; mret (mkAck g).

Definition write_create_request (q : CreateRequest) : bytes := w_varint (cq_mode q) ++ w_string (cq_path q).
Definition read_create_request : Reader CreateRequest :=
  m ← r_varint;
  if m >? 0xFFFFFFFF then r_fail Corrupt else
  path ← r_string; mret (mkCreateRequest path m).

Definition write_mkdir_request (q : MkdirRequest) : bytes := w_varint (mq_mode q) ++ w_string (mq_path q).
Definition read_mkdir_request : Reader MkdirRequest :=
  m ← r_varint;
  if m >? 0xFFFFFFFF then r_fail Corrupt else
  path ← r_string; mret (mkMkdirRequest path m).

Definition write_path_request (q : PathRequest) : bytes := w_string (pq_path q).
Definition read_path_request : Reader PathRequest := path ← r_string; mret (mkPathRequest path).

Definition write_truncate_request (q : TruncateRequest) : bytes := w_u64 (tq_size q) ++ w_string (tq_path q).
Definition read_truncate_request : Reader TruncateRequest :=
  size ← r_u64; path ← r_string; mret (mkTruncateRequest path size).

Definition write_rename_request (q : RenameRequest) : bytes := w_string (nq_from q) ++ w_string (nq_to q).
Definition read_rename_request : Reader RenameRequest :=
  from ← r_string; to ← r_string; mret (mkRenameRequest from to).

Definition write_read_many_request (q : ReadManyRequest) : bytes :=
  w_varint (zlen (rmq_paths q)) ++ w_each w_string (rmq_paths q).
Definition read_read_many_request : Reader ReadManyRequest :=
  count ← r_varint;
  rem ← r_remaining;
  if count >? rem then r_fail Corrupt else
  if count >? kMaxReadManyPaths then r_fail InvalidArgument else
  ps ← read_n (Z.to_nat count) r_string;
  mret (mkReadManyRequest ps).

Definition write_item (it : ReadManyItem) : bytes :=
  w_u8 (if it_ok it then 1 else 0) ++ (if it_ok it then w_blob (it_data it) else []).
Definition write_read_many_response (p : ReadManyResponse) : bytes :=
  w_varint (zlen (rmp_items p)) ++ w_each write_item (rmp_items p).

Definition read_item : Reader ReadManyItem :=
  okb ← r_u8;
  data ← (if negb (okb =? 0) then r_blob else mret []);
  mret (mkItem (negb (okb =? 0)) data).
Definition read_read_many_response : Reader ReadManyResponse :=
  count ← r_varint;
  rem ← r_remaining;
  if count >? rem then r_fail Corrupt else
  items ← read_n (Z.to_nat count) read_item;
  mret (mkReadManyResponse items).

Definition write_readlink_response (p : ReadlinkResponse) : bytes := w_string (rl_target p).
Definition read_readlink_response : Reader ReadlinkResponse :=
  t ← r_string; mret (mkReadlinkResponse t).

(** ** Codec instances *)

(** [CodecSound n A]: a value decoded from arbitrary bytes is in range and is
    exactly what its own encoding would deliver; decoding reads at least [n]
    bytes. *)
Class CodecSound (n : nat) (A : Type) `{Codec A} := {
  #[global] codec_consumes :: Consumes n (dec : Reader A);
  #[global] codec_yields :: Yields (λ a : A, cwf a ∧ con_wire a = a) (dec : Reader A)
}.

(** Re-encoding what was decoded gives the same value back. *)
Lemma codec_stable {A} n `{CodecSound n A} bs (a : A) rest rest' :
  input_ok bs → dec bs = Ok (a, rest) → dec (enc a ++ rest') = Ok (a, rest').
Proof.
  intros Hbs Hd. destruct (codec_yields _ _ _ Hbs Hd) as [[Hwf Heq] _].
  rewrite codec_rt by done. by rewrite Heq.
Qed.

Lemma codec_enc_length {A} n `{CodecSound n A} (a : A) : cwf a → Z.of_nat n <= zlen (enc a).
Proof.
  intros Hwf. pose proof (codec_rt a [] Hwf) as Hrt.
  apply (consumes_length n) in Hrt; [|apply _]. rewrite app_nil_r, zlen_nil in Hrt. lia.
Qed.

Lemma input_str_ok s : input_ok s → str_ok s.
Proof. by intros [_ ?]. Qed.
#[export] Hint Resolve input_str_ok : wsl.

(** Proof schemes of the instances. *)
Ltac codec_run :=
  intros a rest Hwf; destruct_and?; wire_run; by destruct a.
Ltac yields_run :=
  repeat yields_step; simpl in *; destruct_and?; split_and?; eauto with wsl; try zsolve.

#[global] Program Instance attributes_codec : Codec Attributes :=
  {| enc := write_attributes; dec := read_attributes; cwf := attr_ok; con_wire := id |}.
Next Obligation.
  intros a rest (Hs & Ht & Hm). unfold write_attributes, read_attributes.
  pose proof (node_kind_code_bound (a_kind a)). wire_run.
  rewrite node_kind_of_code. by destruct a.
Qed.

#[global] Instance attributes_sound : CodecSound 11 Attributes.
Proof. split; unfold dec, cwf, con_wire, attributes_codec, attr_ok, read_attributes; [solve_consumes|yields_run]. Qed.

Lemma read_attributes_w a rest : attr_ok a → read_attributes (write_attributes a ++ rest) = Ok (a, rest).
Proof. exact (codec_rt (A:=Attributes) a rest). Qed.
#[global] Instance consumes_attributes : Consumes 11 read_attributes := codec_consumes (A:=Attributes).
#[global] Instance yields_attributes : Yields (λ a, attr_ok a ∧ id a = a) read_attributes :=
  codec_yields (A:=Attributes).
#[export] Hint Resolve read_attributes_w : wsl.

#[global] Program Instance hello_codec : Codec Hello :=
  {| enc := write_hello; dec := read_hello; con_wire := id;
     cwf h := u32_ok (protocol_version h) ∧ u64_ok (capabilities h) ∧ str_ok (agent h)
              ∧ str_ok (nonce h) ∧ str_ok (proof h) |}.
Next Obligation. unfold write_hello, read_hello. codec_run. Qed.
#[global] Instance hello_sound : CodecSound 15 Hello.
Proof. split; unfold dec, cwf, con_wire, hello_codec, read_hello; [solve_consumes|yields_run]. Qed.

#[global] Program Instance entry_codec : Codec SnapshotEntry :=
  {| enc := write_snapshot_entry; dec := read_snapshot_entry; con_wire := id;
     cwf e := u32_ok (se_parent e) ∧ attr_ok (se_attr e) ∧ str_ok (se_name e) |}.
Next Obligation. unfold write_snapshot_entry, read_snapshot_entry. codec_run. Qed.
#[global] Instance entry_sound : CodecSound 16 SnapshotEntry.
Proof. split; unfold dec, cwf, con_wire, entry_codec, read_snapshot_entry; [solve_consumes|yields_run]. Qed.

#[global] Program Instance read_request_codec : Codec ReadRequest :=
  {| enc := write_read_request; dec := read_read_request; con_wire := id;
     cwf q := u64_ok (rq_offset q) ∧ u32_ok (rq_length q) ∧ str_ok (rq_path q) |}.
Next Obligation. unfold write_read_request, read_read_request. codec_run. Qed.
#[global] Instance read_request_sound : CodecSound 13 ReadRequest.
Proof. split; unfold dec, cwf, con_wire, read_request_codec, read_read_request; [solve_consumes|yields_run]. Qed.

#[global] Program Instance read_response_codec : Codec ReadResponse :=
  {| enc := write_read_response; dec := read_read_response; con_wire := id;
     cwf q := u64_ok (rp_file_size q) ∧ str_ok (rp_data q) |}.
Next Obligation. unfold write_read_response, read_read_response. codec_run. Qed.
#[global] Instance read_response_sound : CodecSound 9 ReadResponse.
Proof. split; unfold dec, cwf, con_wire, read_response_codec, read_read_response; [solve_consumes|yields_run]. Qed.

#[global] Program Instance error_codec : Codec ErrorMessage :=
  {| enc := write_error; dec := read_error; con_wire := id;
     cwf q := u32_ok (em_code q) ∧ str_ok (em_detail q) |}.
Next Obligation. unfold write_error, read_error. codec_run. Qed.
#[global] Instance error_sound : CodecSound 5 ErrorMessage.
Proof. split; unfold dec, cwf, con_wire, error_codec, read_error; [solve_consumes|yields_run]. Qed.

#[global] Program Instance write_request_codec : Codec WriteRequest :=
  {| enc := write_write_request; dec := read_write_request; con_wire := id;
     cwf q := u64_ok (wq_offset q) ∧ str_ok (wq_path q) ∧ str_ok (wq_data q) |}.
Next Obligation. unfold write_write_request, read_write_request. codec_run. Qed.
#[global] Instance write_request_sound : CodecSound 10 WriteRequest.
Proof. split; unfold dec, cwf, con_wire, write_request_codec, read_write_request; [solve_consumes|yields_run]. Qed.

#[global] Program Instance write_response_codec : Codec WriteResponse :=
  {| enc := write_write_response; dec := read_write_response; con_wire := id;
     cwf q := u64_ok (wr_written q) ∧ u64_ok (wr_generation q) |}.
Next Obligation. unfold write_write_response, read_write_response. codec_run. Qed.
#[global] Instance write_response_sound : CodecSound 16 WriteResponse.
Proof. split; unfold dec, cwf, con_wire, write_response_codec, read_write_response; [solve_consumes|yields_run]. Qed.

#[global] Program Instance mutation_ack_codec : Codec MutationAck :=
  {| enc := write_mutation_ack; dec := read_mutation_ack; con_wire := id;
     cwf q := u64_ok (ack_generation q) |}.
Next Obligation. unfold write_mutation_ack, read_mutation_ack. codec_run. Qed.
#[global] Instance mutation_ack_sound : CodecSound 8 MutationAck.
Proof. split; unfold dec, cwf, con_wire, mutation_ack_codec, read_mutation_ack; [solve_consumes|yields_run]. Qed.

#[global] Program Instance create_request_codec : Codec CreateRequest :=
  {| enc := write_create_request; dec := read_create_request; con_wire := id;
     cwf q := u32_ok (cq_mode q) ∧ str_ok (cq_path q) |}.
Next Obligation. unfold write_create_request, read_create_request. codec_run. Qed.
#[global] Instance create_request_sound : CodecSound 2 CreateRequest.
Proof. split; unfold dec, cwf, con_wire, create_request_codec, read_create_request; [solve_consumes|yields_run]. Qed.

#[global] Program Instance mkdir_request_codec : Codec MkdirRequest :=
  {| enc := write_mkdir_request; dec := read_mkdir_request; con_wire := id;
     cwf q := u32_ok (mq_mode q) ∧ str_ok (mq_path q) |}.
Next Obligation. unfold write_mkdir_request, read_mkdir_request. codec_run. Qed.
#[global] Instance mkdir_request_sound : CodecSound 2 MkdirRequest.
Proof. split; unfold dec, cwf, con_wire, mkdir_request_codec, read_mkdir_request; [solve_consumes|yields_run]. Qed.

#[global] Program Instance path_request_codec : Codec PathRequest :=
  {| enc := write_path_request; dec := read_path_request; con_wire := id;
     cwf q := str_ok (pq_path q) |}.
Next Obligation. unfold write_path_request, read_path_request. codec_run. Qed.
#[global] Instance path_request_sound : CodecSound 1 PathRequest.
Proof. split; unfold dec, cwf, con_wire, path_request_codec, read_path_request; [solve_consumes|yields_run]. Qed.

#[global] Program Instance truncate_request_codec : Codec TruncateRequest :=
  {| enc := write_truncate_request; dec := read_truncate_request; con_wire := id;
     cwf q := u64_ok (tq_size q) ∧ str_ok (tq_path q) |}.
Next Obligation. unfold write_truncate_request, read_truncate_request. codec_run. Qed.
#[global] Instance truncate_request_sound : CodecSound 9 TruncateRequest.
Proof. split; unfold dec, cwf, con_wire, truncate_request_codec, read_truncate_request; [solve_consumes|yields_run]. Qed.

#[global] Program Instance rename_request_codec : Codec RenameRequest :=
  {| enc := write_rename_request; dec := read_rename_request; con_wire := id;
     cwf q := str_ok (nq_from q) ∧ str_ok (nq_to q) |}.
Next Obligation. unfold write_rename_request, read_rename_request. codec_run. Qed.
#[global] Instance rename_request_sound : CodecSound 2 RenameRequest.
Proof. split; unfold dec, cwf, con_wire, rename_request_codec, read_rename_request; [solve_consumes|yields_run]. Qed.

#[global] Program Instance readlink_response_codec : Codec ReadlinkResponse :=
  {| enc := write_readlink_response; dec := read_readlink_response; con_wire := id;
     cwf q := str_ok (rl_target q) |}.
Next Obligation. unfold write_readlink_response, read_readlink_response. codec_run. Qed.
#[global] Instance readlink_response_sound : CodecSound 1 ReadlinkResponse.
Proof. split; unfold dec, cwf, con_wire, readlink_response_codec, read_readlink_response; [solve_consumes|yields_run]. Qed.

(** ** Messages with repeated elements *)

Lemma read_n_w {A} (w : A → bytes) (r : Reader A) (f : A → A) l rest :
  Forall (λ a, ∀ rest, r (w a ++ rest) = Ok (f a, rest)) l →
  read_n (length l) r (w_each w l ++ rest) = Ok (f <$> l, rest).
Proof.
  induction 1 as [|a l Ha Hl IH]; [done|]. cbn [length read_n w_each]. rewrite fmap_cons.
  rewrite <- app_assoc. erewrite reader_bind_ok by apply Ha.
  by erewrite reader_bind_ok by apply IH.
Qed.

Lemma w_each_length {A} n `{CodecSound n A} (l : list A) :
  Forall cwf l → Z.of_nat n * zlen l <= zlen (w_each enc l).
Proof.
  induction 1 as [|a l Ha Hl IH]; [unfold zlen; simpl; lia|].
  cbn [w_each]. rewrite zlen_app, (zlen_cons a), Z.mul_add_distr_l.
  pose proof (codec_enc_length n a Ha). lia.
Qed.

Lemma read_n_codec {A} `{Codec A} (l : list A) n rest :
  n = zlen l → Forall cwf l →
  read_n (Z.to_nat n) dec (w_each enc l ++ rest) = Ok (con_wire <$> l, rest).
Proof.
  intros -> Hl. unfold zlen. rewrite Nat2Z.id. apply read_n_w.
  eapply Forall_impl; [exact Hl|]. intros a Ha rest'. by apply codec_rt.
Qed.

#[global] Instance consumes_read_n {A} n (r : Reader A) : Consumes 0 r → Consumes 0 (read_n n r).
Proof. intros Hr. induction n; cbn [read_n]; [apply _|]. solve_consumes. Qed.

Lemma yields_read_n {A} (P : A → Prop) n (r : Reader A) :
  Yields P r → Yields (λ l, Forall P l ∧ length l = n) (read_n n r).
Proof.
  intros Hr. induction n as [|n IH]; cbn [read_n]; [by apply yields_ret|].
  repeat yields_step. destruct_and!. split; [by constructor|simpl; lia].
Qed.

(** What the peer sees of an operation: attributes travel with an [Upsert]
    only, the cookie with the two move kinds only. *)
Definition op_on_wire (op : InvalidationOp) : InvalidationOp :=
  mkOp (op_kind op) (op_path op)
    (if bool_decide (op_kind op = Upsert) then op_attr op else default_attr)
    (op_change op) (if is_move (op_change op) then op_cookie op else 0).

#[global] Program Instance op_codec : Codec InvalidationOp :=
  {| enc := write_op; dec := read_op; con_wire := op_on_wire;
     cwf op := str_ok (op_path op) ∧ attr_ok (op_attr op) ∧ u32_ok (op_cookie op) |}.
Next Obligation.
  intros op rest (Hp & Ha & Hc). unfold write_op, read_op, op_on_wire.
  pose proof (invalidation_code_bound (op_kind op)). pose proof (change_code_bound (op_change op)).
  wire_run. rewrite invalidation_of_code.
  destruct (bool_decide (op_kind op = Upsert)); wire_run; rewrite ?app_nil_l; wire_run;
    rewrite change_of_code; destruct (is_move (op_change op)); wire_run; by destruct op.
Qed.

(** A field present under a condition. *)
#[global] Instance consumes_opt {A} n (b : bool) (r : Reader A) d :
  Consumes n r → Consumes 0 (if b then r else mret d).
Proof. intros. destruct b; [|apply _]. by eapply consumes_weaken; [|done]; lia. Qed.

#[global] Instance yields_opt {A} P (b : bool) (r : Reader A) d :
  Yields P r → Yields (λ a, if b then P a else a = d) (if b then r else mret d).
Proof. intros. destruct b; [done|]. by apply yields_ret. Qed.

#[global] Instance op_sound : CodecSound 3 InvalidationOp.
Proof.
  split; unfold dec, cwf, con_wire, op_codec, read_op; [solve_consumes|].
  repeat yields_step. unfold op_on_wire; simpl.
  repeat case_match; destruct_and?; subst; split_and?; eauto with wsl;
    unfold attr_ok; simpl; zsolve.
Qed.

#[global] Program Instance path_item_codec : Codec bytes :=
  {| enc := w_string; dec := r_string; con_wire := id; cwf := str_ok |}.
Next Obligation. intros s rest Hs. by apply r_string_w. Qed.
#[global] Instance path_item_sound : CodecSound 1 bytes.
Proof. split; [apply consumes_string|]. intros bs a rest Hbs H. by apply yields in H as [[? ?] ?]. Qed.

#[global] Program Instance item_codec : Codec ReadManyItem :=
  {| enc := write_item; dec := read_item; cwf it := str_ok (it_data it);
     con_wire it := mkItem (it_ok it) (if it_ok it then it_data it else []) |}.
Next Obligation.
  intros [[|] d] rest Hd; unfold write_item, read_item; simpl in Hd; cbn [it_ok it_data]; by wire_run.
Qed.
#[global] Instance item_sound : CodecSound 1 ReadManyItem.
Proof.
  split; unfold dec, cwf, con_wire, item_codec, read_item; [solve_consumes|].
  repeat yields_step. simpl. case_match; destruct_and?; subst; eauto with wsl.
  split; [apply str_ok_nil|done].
Qed.

(** The element count fits the encoded elements, so the [count > remaining]
    test of a decoder never rejects an encoded message. *)
Lemma count_guard {A} n `{CodecSound (S n) A} (l : list A) rest :
  Forall cwf l → zlen l <= zlen (w_each enc l ++ rest).
Proof.
  intros Hl. pose proof (w_each_length (S n) l Hl). pose proof (zlen_nonneg l).
  rewrite zlen_app. pose proof (zlen_nonneg rest). nia.
Qed.

#[global] Program Instance invalidation_codec : Codec InvalidationBatch :=
  {| enc := write_invalidation; dec := read_invalidation;
     con_wire b := mkBatch (b_generation b) (op_on_wire <$> b_ops b);
     cwf b := u64_ok (b_generation b) ∧ u64_ok (zlen (b_ops b)) ∧ Forall (cwf (A:=InvalidationOp)) (b_ops b) |}.
Next Obligation.
  intros b rest (Hg & Hn & Hops). unfold write_invalidation, read_invalidation.
  pose proof (count_guard 2 (b_ops b) rest Hops) as Hle. cbn in Hle.
  wire_run. by erewrite reader_bind_ok by (exact (read_n_codec (A:=InvalidationOp) _ _ rest eq_refl Hops)).
Qed.

#[global] Program Instance read_many_request_codec : Codec ReadManyRequest :=
  {| enc := write_read_many_request; dec := read_read_many_request; con_wire := id;
     cwf q := zlen (rmq_paths q) <= kMaxReadManyPaths ∧ Forall str_ok (rmq_paths q) |}.
Next Obligation.
  intros q rest (Hn & Hps). unfold write_read_many_request, read_read_many_request.
  pose proof (count_guard 0 (rmq_paths q) rest Hps) as Hle. cbn in Hle.
  pose proof (zlen_nonneg (rmq_paths q)). unfold kMaxReadManyPaths in *.
  wire_run. erewrite reader_bind_ok by (exact (read_n_codec (A:=bytes) _ _ rest eq_refl Hps)).
  unfold con_wire, path_item_codec. rewrite list_fmap_id. by destruct q.
Qed.

#[global] Program Instance read_many_response_codec : Codec ReadManyResponse :=
  {| enc := write_read_many_response; dec := read_read_many_response;
     con_wire p := mkReadManyResponse (con_wire <$> rmp_items p);
     cwf p := u64_ok (zlen (rmp_items p)) ∧ Forall (cwf (A:=ReadManyItem)) (rmp_items p) |}.
Next Obligation.
  intros p rest (Hn & Hps). unfold write_read_many_response, read_read_many_response.
  pose proof (count_guard 0 (rmp_items p) rest Hps) as Hle. cbn in Hle.
  wire_run. by erewrite reader_bind_ok by (exact (read_n_codec (A:=ReadManyItem) _ _ rest eq_refl Hps)).
Qed.

Lemma read_invalidation_w b rest :
  cwf b → read_invalidation (write_invalidation b ++ rest)
          = Ok (mkBatch (b_generation b) (op_on_wire <$> b_ops b), rest).
Proof. exact (codec_rt (A:=InvalidationBatch) b rest). Qed.

(** Bounded decoding: a batch or bulk message never yields more elements than
    the payload has bytes, whatever count it claims. *)
Lemma read_invalidation_bounded bs b rest :
  read_invalidation bs = Ok (b, rest) → zlen (b_ops b) <= zlen bs.
Proof.
  unfold read_invalidation.
  intros (gen & bs1 & H1 & H)%reader_bind_inv. apply (consumes_length 8) in H1; [|apply _].
  apply reader_bind_inv in H as (count & bs2 & H2 & H). apply (consumes_length 1) in H2; [|apply _].
  apply reader_bind_inv in H as (rem & bs3 & [= <- <-] & H).
  case_match; [done|]. b2p.
  apply reader_bind_inv in H as (ops & bs4 & H4 & [= <- <-]). simpl.
  enough (zlen ops <= Z.max 0 count) by (pose proof (zlen_nonneg bs2); lia).
  enough (Hn : ∀ n (l : list InvalidationOp) i o, read_n n read_op i = Ok (l, o) → length l = n).
  { apply Hn in H4. unfold zlen. lia. }
  clear. intros n. induction n as [|n IH]; intros l i o; [by intros [= <- <-]|]. cbn [read_n].
  intros (a & mid & _ & H)%reader_bind_inv. apply reader_bind_inv in H as (l' & mid' & H & [= <- <-]).
  simpl. f_equal. by eapply IH.
Qed.

(** ** Properties *)

Lemma length_encode_header h : length (encode_header h) = kHeaderSize.
Proof. unfold encode_header. by rewrite !length_app, !length_put_le. Qed.

(** The header fields sit at the offsets [decode_header] reads them from. *)
Lemma header_field (pre : bytes) v n rest :
  0 <= v < 2 ^ (8 * Z.of_nat n) → get_le (drop (length pre) (pre ++ put_le v n ++ rest)) n = v.
Proof. intros. rewrite drop_app_length, get_le_put_le, wrap_id by (done || lia). done. Qed.

Lemma header_decodes h rest :
  header_ok h → decode_header (encode_header h ++ rest) = Ok h.
Proof.
  intros (Ht & Hf & Hl & Hr). destruct h as [t f l r].
  cbn [h_type h_flags h_payload_len h_request_id] in *. destruct Ht as [Ht Htc].
  unfold decode_header.
  rewrite (proj2 (Z.ltb_ge _ _)) by (unfold zlen; rewrite length_app, length_encode_header; lia).
  assert (kMaxPayload < 2 ^ 32) by (vm_compute; done).
  unfold encode_header. cbn [h_type h_flags h_payload_len h_request_id]. rewrite <- !app_assoc.
  set (m := put_le kMagic 4). set (v := put_le kVersion 2). set (c := put_le (MsgType.code t) 2).
  set (fl := put_le f 4). set (ln := put_le l 4). set (rq := put_le r 8).
  assert (H0 : get_le (m ++ v ++ c ++ fl ++ ln ++ rq ++ rest) 4 = kMagic)
    by (apply (header_field []); vm_compute; done).
  assert (H4 : get_le (drop 4 (m ++ v ++ c ++ fl ++ ln ++ rq ++ rest)) 2 = kVersion)
    by (apply (header_field m); vm_compute; done).
  assert (H6 : get_le (drop 6 (m ++ v ++ c ++ fl ++ ln ++ rq ++ rest)) 2 = MsgType.code t)
    by (rewrite (app_assoc m); apply (header_field (m ++ v)); zsolve).
  assert (H8 : get_le (drop 8 (m ++ v ++ c ++ fl ++ ln ++ rq ++ rest)) 4 = f)
    by (rewrite (app_assoc v), (app_assoc m); apply (header_field (m ++ v ++ c)); zsolve).
  assert (H12 : get_le (drop 12 (m ++ v ++ c ++ fl ++ ln ++ rq ++ rest)) 4 = l)
    by (rewrite (app_assoc c), (app_assoc v), (app_assoc m); apply (header_field (m ++ v ++ c ++ fl)); lia).
  assert (H16 : get_le (drop 16 (m ++ v ++ c ++ fl ++ ln ++ rq ++ rest)) 8 = r)
    by (rewrite (app_assoc fl), (app_assoc c), (app_assoc v), (app_assoc m);
        apply (header_field (m ++ v ++ c ++ fl ++ ln)); zsolve).
  rewrite H0, H4, H6, H8, H12, H16, !Z.eqb_refl, Ht. cbn [negb h_payload_len].
  rewrite Z.gtb_ltb, (proj2 (Z.ltb_ge _ _)) by lia. done.
Qed.

(** The 24-byte frame header decodes back to the header it was built from,
    whatever bytes follow it. *)
Theorem decode_encode_header h rest :
  header_ok h → decode_header (encode_header h ++ rest) = Ok h.
Proof. apply header_decodes. Qed.

Lemma decode_encode_header_witness :
  decode_header (encode_header (mkHeader MsgType.Snapshot kFlagMore 17 9) ++ [1; 2]) =
  Ok (mkHeader MsgType.Snapshot kFlagMore 17 9).
Proof. apply decode_encode_header. vm_compute. intuition congruence. Defined.

Lemma take_drop_put (p : bytes) k n :
  bytes_ok p → (k + n <= length p)%nat → put_le (get_le (drop k p) n) n = take n (drop k p).
Proof.
  intros Hp Hl. apply put_le_get_le; [by apply Forall_drop|]. rewrite length_drop. lia.
Qed.

Lemma take_drop_join {A} (l : list A) (k n j m : nat) :
  j = (k + n)%nat → take n (drop k l) ++ take m (drop j l) = take (n + m) (drop k l).
Proof. intros ->. by rewrite <- drop_drop, take_take_drop. Qed.

(** A header that decodes is exactly the encoding of the header returned,
    with every field in range and the payload within the frame limit: nothing
    else is accepted off the wire. *)
Theorem decode_header_sound bs h :
  bytes_ok bs → decode_header bs = Ok h →
  take kHeaderSize bs = encode_header h ∧ header_ok h.
Proof.
  intros Hok. unfold decode_header. repeat case_match; try done. b2p. intros [= <-].
  assert (Hlen : (24 <= length bs)%nat) by (unfold zlen, kHeaderSize in *; lia).
  assert (Hb : ∀ k n, 0 <= get_le (drop k bs) n < 2 ^ (8 * Z.of_nat n))
    by (intros; apply get_le_bound; by apply Forall_drop).
  split.
  - unfold encode_header. cbn [h_type h_flags h_payload_len h_request_id].
    rewrite MsgType.code_of_code.
    replace kMagic with (get_le (drop 0 bs) 4) by (by rewrite drop_0).
    replace kVersion with (get_le (drop 4 bs) 2) by done.
    rewrite !take_drop_put by (done || lia).
    rewrite (take_drop_join bs 12 4 16), (take_drop_join bs 8 4 12), (take_drop_join bs 6 2 8),
      (take_drop_join bs 4 2 6), (take_drop_join bs 0 4 4) by lia.
    by rewrite drop_0.
  - split_and!; cbn.
    + apply MsgType.ok_of_code. apply (Hb 6%nat 2%nat).
    + apply (Hb 8%nat 4%nat).
    + apply (Hb 12%nat 4%nat).
    + done.
    + apply (Hb 16%nat 8%nat).
Qed.

Lemma decode_header_sound_witness :
  let bs := encode_header (mkHeader MsgType.Ping 0 0 7) in
  take kHeaderSize bs = encode_header (mkHeader MsgType.Ping 0 0 7)
  ∧ header_ok (mkHeader MsgType.Ping 0 0 7).
Proof.
  apply decode_header_sound; [|vm_compute; reflexivity].
  apply (bool_decide_unpack _); vm_compute; exact I.
Defined.

(** An invalidation batch decodes to the operations that were written, in
    order, each carrying its attributes exactly when it is an [Upsert] and its
    cookie exactly when it is half of a move. *)
Theorem invalidation_roundtrip b rest :
  u64_ok (b_generation b) → u64_ok (zlen (b_ops b)) →
  Forall (λ op, str_ok (op_path op) ∧ attr_ok (op_attr op) ∧ u32_ok (op_cookie op)) (b_ops b) →
  read_invalidation (write_invalidation b ++ rest) =
  Ok (mkBatch (b_generation b) (op_on_wire <$> b_ops b), rest).
Proof. intros. by apply read_invalidation_w. Qed.

Lemma invalidation_roundtrip_witness :
  let b := mkBatch 5 [mkOp Remove (str "a/b") default_attr MovedFrom 3;
                      mkOp Upsert (str "c") (mkAttr 4096 (-1) 420 File) MovedTo 3] in
  read_invalidation (write_invalidation b ++ [255]) = Ok (b, [255]).
Proof.
  apply invalidation_roundtrip; [vm_compute; intuition congruence ..|].
  repeat constructor; vm_compute; intuition congruence.
Defined.

Lemma read_snapshot_header_w gen es rest :
  u64_ok gen → u32_ok (zlen es) →
  Forall (λ e, u32_ok (se_parent e) ∧ attr_ok (se_attr e) ∧ str_ok (se_name e)) es →
  read_snapshot_header (write_snapshot_header gen (zlen es) ++ w_each write_snapshot_entry es ++ rest)
  = Ok (mkSnapshotHeader gen (zlen es), w_each write_snapshot_entry es ++ rest).
Proof.
  intros Hg Hn Hes. unfold write_snapshot_header, read_snapshot_header.
  pose proof (w_each_length (A:=SnapshotEntry) 16 es Hes) as Hlen.
  cbn in Hlen. pose proof (zlen_nonneg rest). wire_run.
  rewrite Z.gtb_ltb, (proj2 (Z.ltb_ge _ _)) by (rewrite zlen_app; lia). done.
Qed.

(** A snapshot (header, then the entries) is read back entry for entry with
    its generation. *)
Lemma read_snapshot_w gen es rest :
  u64_ok gen → u32_ok (zlen es) →
  Forall (λ e, u32_ok (se_parent e) ∧ attr_ok (se_attr e) ∧ str_ok (se_name e)) es →
  read_snapshot (write_snapshot_header gen (zlen es) ++ w_each write_snapshot_entry es ++ rest) =
  Ok ((gen, es), rest).
Proof.
  intros Hg Hn Hes. unfold read_snapshot.
  erewrite reader_bind_ok by (by apply read_snapshot_header_w). cbn [sh_count sh_generation].
  erewrite reader_bind_ok by (exact (read_n_codec (A:=SnapshotEntry) es _ rest eq_refl Hes)).
  unfold con_wire, entry_codec. by rewrite list_fmap_id.
Qed.

Lemma read_n_consumes {A} k (r : Reader A) `{!Consumes k r} n bs l rest :
  read_n n r bs = Ok (l, rest) → Z.of_nat n * Z.of_nat k + zlen rest <= zlen bs.
Proof.
  revert bs l rest. induction n as [|n IH]; intros bs l rest; [intros [= <- <-]; lia|].
  cbn [read_n]. intros (a & mid & H1 & H)%reader_bind_inv.
  apply reader_bind_inv in H as (l' & mid' & H2 & [= <- <-]).
  apply IH in H2. apply (consumes_length k) in H1; [|done]. lia.
Qed.

(** The pre-check of the snapshot header ([count * 16 > remaining]) is
    exact in the useful direction: a payload it refuses could not have been
    decoded, because every entry takes at least sixteen bytes. *)
Theorem snapshot_header_check_safe gen count bs es rest :
  r_u64 bs = Ok (gen, drop 8 bs) → r_u32 (drop 8 bs) = Ok (count, drop 12 bs) →
  read_snapshot_header bs = Err Corrupt →
  read_n (Z.to_nat count) read_snapshot_entry (drop 12 bs) ≠ Ok (es, rest).
Proof.
  intros Hg Hc Hh Hr. unfold read_snapshot_header in Hh.
  erewrite reader_bind_ok in Hh by exact Hg. erewrite reader_bind_ok in Hh by exact Hc.
  erewrite reader_bind_ok in Hh by apply r_remaining_ok.
  case_match; [|done]. b2p. apply (read_n_consumes 16) in Hr; [|exact (codec_consumes (A:=SnapshotEntry))].
  pose proof (zlen_nonneg rest). lia.
Qed.

Lemma snapshot_header_check_safe_witness :
  let bs := write_snapshot_header 1 2 ++ repeat 0 20 in
  read_n 2 read_snapshot_entry (drop 12 bs) ≠ Ok ([], []).
Proof.
  apply (snapshot_header_check_safe 1 2 (write_snapshot_header 1 2 ++ repeat 0 20));
    vm_compute; reflexivity.
Defined.


(** C25: whatever bytes a peer sends, a batch that decodes has its paths, sizes,
    modes, timestamps and cookies inside the ranges of their C++ types, holds
    no more operations than the payload has bytes, and carries nothing its
    kinds do not allow (decoding it again from its own encoding returns it). *)
Theorem invalidation_decode_sound bs b rest :
  input_ok bs → read_invalidation bs = Ok (b, rest) →
  Forall (λ op, str_ok (op_path op) ∧ attr_ok (op_attr op) ∧ u32_ok (op_cookie op)
                ∧ op_on_wire op = op) (b_ops b)
  ∧ zlen (b_ops b) <= zlen bs
  ∧ read_invalidation (write_invalidation b ++ rest) = Ok (b, rest).
Proof.
  intros Hbs H. pose proof (read_invalidation_bounded _ _ _ H) as Hbound.
  assert (Hy : Yields (λ b, u64_ok (b_generation b)
                 ∧ Forall (λ op, cwf op ∧ con_wire op = op) (b_ops b)) read_invalidation).
  { unfold read_invalidation. repeat yields_step.
    eapply yields_bind; [exact (yields_read_n _ _ read_op (codec_yields (A:=InvalidationOp)))|].
    intros ops [Hops _]. by apply yields_ret. }
  destruct (Hy _ _ _ Hbs H) as [[Hg Hops] _].
  split; [|split; [done|]].
  - eapply Forall_impl; [exact Hops|]. intros op [(? & ? & ?) ?]. done.
  - rewrite read_invalidation_w; [|split; [done|split]].
    + do 2 f_equal. destruct b as [g ops]. simpl in *. f_equal.
      clear -Hops. induction Hops as [|op ops [_ Hop] _ IH]; [done|].
      cbn. by rewrite IH, Hop.
    + destruct Hbs as [_ Hlen]. pose proof (zlen_nonneg (b_ops b)). zsolve.
    + eapply Forall_impl; [exact Hops|]. by intros op [? _].
Qed.

Lemma invalidation_decode_sound_witness :
  let bs := write_invalidation (mkBatch 2 [mkOp Upsert (str "x") default_attr Created 0]) in
  ∃ b, read_invalidation bs = Ok (b, [])
    ∧ (Forall (λ op, str_ok (op_path op) ∧ attr_ok (op_attr op) ∧ u32_ok (op_cookie op)
                ∧ op_on_wire op = op) (b_ops b)
       ∧ zlen (b_ops b) <= zlen bs
       ∧ read_invalidation (write_invalidation b ++ []) = Ok (b, [])).
Proof.
  exists (mkBatch 2 [mkOp Upsert (str "x") default_attr Created 0]). split; [vm_compute; reflexivity|].
  apply invalidation_decode_sound; [|vm_compute; reflexivity].
  split; [|vm_compute; intuition congruence]. apply (bool_decide_unpack _); vm_compute; exact I.
Defined.
