(* ===== verification/HashUtil.v ===== *)
(** * Table hashing ([core/hash_util.hpp])

    The 64-bit finaliser and the byte-range hash, with the wrap-around of
    [std::uint64_t] arithmetic written out. *)

From S2P Require Import Prelude Types Wire.

Definition mul64 (x y : Z) : Z := wrap 64 (x * y).

Definition mix64 (x : Z) : Z :=
  let x := Z.lxor x (Z.shiftr x 32) in
  let x := mul64 x 0xd6e8feb86659fd93 in
  let x := Z.lxor x (Z.shiftr x 32) in
  let x := mul64 x 0xd6e8feb86659fd93 in
  Z.lxor x (Z.shiftr x 32).

(** One step of the loop (and of the tail) on an 8-byte little-endian word. *)
Definition hash_word (h v : Z) : Z :=
  let h := mul64 (Z.lxor h v) 0x9FB21C651E98DF25 in
  Z.lxor h (Z.shiftr h 29).

(** The [while (len >= 8)] loop and the [len != 0] tail; the fuel is the number
    of words, which the remaining length bounds. *)
Fixpoint hash_loop (fuel : nat) (h : Z) (p : bytes) : Z :=
  match fuel with
  | O => h
  | S fuel =>
      if 8 <=? zlen p then hash_loop fuel (hash_word h (get_le p 8)) (drop 8 p)
      else if zlen p =? 0 then h
      else hash_word h (get_le p (length p))
  end.

Definition hash_bytes (p : bytes) : Z :=
  let h := Z.lxor 0x9E3779B97F4A7C15 (mul64 (zlen p) 0xff51afd7ed558ccd) in
  mix64 (hash_loop (S (length p)) h p).

Definition hash_string (s : bytes) : Z := hash_bytes s.

(** ** Range *)

Lemma lxor_u64 a b : u64_ok a → u64_ok b → u64_ok (Z.lxor a b).
Proof.
  unfold u64_ok. intros Ha Hb.
  assert (H : Z.lxor a b = Z.lxor a b mod 2 ^ 64); [|rewrite H; apply Z.mod_pos_bound; lia].
  apply Z.bits_inj'. intros i Hi. destruct (decide (i < 64)).
  - by rewrite Z.mod_pow2_bits_low.
  - rewrite Z.mod_pow2_bits_high, Z.lxor_spec by lia.
    rewrite <- (Z.mod_small a (2 ^ 64)), <- (Z.mod_small b (2 ^ 64)) by done.
    by rewrite !Z.mod_pow2_bits_high by lia.
Qed.

Lemma shiftr_u64 a n : 0 <= n → u64_ok a → u64_ok (Z.shiftr a n).
Proof.
  unfold u64_ok. intros Hn Ha. rewrite Z.shiftr_div_pow2 by done.
  pose proof (Z.pow_pos_nonneg 2 n). split; [apply Z.div_pos; lia|].
  apply Z.div_lt_upper_bound; nia.
Qed.

Lemma mul64_u64 x y : u64_ok (mul64 x y).
Proof. apply wrap_ok. lia. Qed.

#[export] Hint Resolve lxor_u64 mul64_u64 : wsl.
#[export] Hint Extern 2 (u64_ok (Z.shiftr _ _)) => apply shiftr_u64; [lia|] : wsl.

Lemma mix64_u64 x : u64_ok x → u64_ok (mix64 x).
Proof. intros. unfold mix64. eauto 8 with wsl. Qed.
