(* ===== verification/KeyMap.v ===== *)
(** * The key map interface

    What [MetadataTree] asks of its two indices [exact_] and [folded_]: a
    finite map from 64-bit keys to 32-bit values.  The operations and their
    laws against [gmap] are separate classes, so that the tree runs on any
    implementation of the former and its theorems rest on the latter only.
    [FlatMap] provides the implementation the program uses. *)

From S2P Require Import Prelude.

Class KeyMapOps (M : Type) := {
  km_new : M;
  km_find : M → Z → option Z;
  km_insert_or_assign : M → Z → Z → M * bool;
  km_insert_if_absent : M → Z → Z → M * bool;
  km_erase : M → Z → M * bool;
  km_reserve : M → Z → M;
  km_clear : M → M
}.

(** Keys that are not sentinels of the implementation. *)
Class KeyMap (M : Type) `{KeyMapOps M} := {
  km_key : Z → Prop;
  km_inv : M → Prop;
  km_model : M → gmap Z Z;
  km_key_ok k : 0 <= k < 2 ^ 64 - 2 ^ 32 → km_key k;
  km_new_inv : km_inv km_new;
  km_new_model : km_model km_new = ∅;
  km_find_spec m k : km_inv m → km_key k → km_find m k = km_model m !! k;
  km_assign_spec m k v : km_inv m → km_key k →
    km_inv (km_insert_or_assign m k v).1
    ∧ km_model (km_insert_or_assign m k v).1 = <[k:=v]> (km_model m)
    ∧ (km_insert_or_assign m k v).2 = bool_decide (km_model m !! k = None);
  km_absent_spec m k v : km_inv m → km_key k →
    km_inv (km_insert_if_absent m k v).1
    ∧ km_model (km_insert_if_absent m k v).1
      = match km_model m !! k with None => <[k:=v]> (km_model m) | Some _ => km_model m end
    ∧ (km_insert_if_absent m k v).2 = bool_decide (km_model m !! k = None);
  km_erase_spec m k : km_inv m → km_key k →
    km_inv (km_erase m k).1
    ∧ km_model (km_erase m k).1 = delete k (km_model m)
    ∧ (km_erase m k).2 = bool_decide (km_model m !! k ≠ None);
  km_reserve_spec m n : km_inv m → 0 <= n < 2 ^ 61 → km_inv (km_reserve m n) ∧ km_model (km_reserve m n) = km_model m;
  km_clear_spec m : km_inv m → km_inv (km_clear m) ∧ km_model (km_clear m) = ∅
}.
