(* ===== verification/FlatMap.v ===== *)
(** * Open-addressing hash map ([core/flat_map.hpp])

    [U64Map]: linear probing over a power-of-two table with tombstones.  Every
    unbounded [for (;;)] of the source is a loop with fuel equal to the table
    size that returns [None] when the fuel runs out, i.e. when the source would
    not terminate; the invariant excludes that. *)

From S2P Require Import Prelude Types HashUtil KeyMap.

Definition kEmpty : Z := 2 ^ 64 - 1.
Definition kTombstone : Z := 2 ^ 64 - 2.

Record Slot := mkSlot { s_key : Z; s_value : Z }.
#[global] Instance Slot_inhabited : Inhabited Slot := populate (mkSlot kEmpty 0).
Definition empty_slot : Slot := mkSlot kEmpty 0.

Record U64Map := mkMap {
  slots_ : list Slot;
  size_ : nat;     (* live entries *)
  used_ : nat      (* live entries + tombstones *)
}.

Definition map_new : U64Map := mkMap [] 0 0.

(** [x & mask] with [mask = slots_.size() - 1]. *)
Definition masked (x : Z) (cap : nat) : nat := Z.to_nat (Z.land x (Z.of_nat cap - 1)).
Definition home (key : Z) (cap : nat) : nat := masked (mix64 key) cap.
Definition next (i cap : nat) : nat := masked (Z.of_nat i + 1) cap.

(** The probe of [find] and [erase]: [Some (Some i)] when slot [i] holds the
    key, [Some None] when an empty slot ends the probe. *)
Fixpoint find_loop (fuel : nat) (s : list Slot) (key : Z) (i : nat) : option (option nat) :=
  match fuel with
  | O => None
  | S fuel =>
      if s_key (s !!! i) =? key then Some (Some i)
      else if s_key (s !!! i) =? kEmpty then Some None
      else find_loop fuel s key (next i (length s))
  end.

Definition find (m : U64Map) (key : Z) : option Z :=
  if bool_decide (slots_ m = []) then None
  else
    match find_loop (length (slots_ m)) (slots_ m) key (home key (length (slots_ m))) with
    | Some (Some i) => Some (s_value (slots_ m !!! i))
    | _ => None
    end.

Definition contains (m : U64Map) (key : Z) : bool := bool_decide (find m key ≠ None).

Definition erase (m : U64Map) (key : Z) : U64Map * bool :=
  if bool_decide (slots_ m = []) then (m, false)
  else
    match find_loop (length (slots_ m)) (slots_ m) key (home key (length (slots_ m))) with
    | Some (Some i) =>
        (mkMap (<[i := mkSlot kTombstone (s_value (slots_ m !!! i))]> (slots_ m))
           (size_ m - 1) (used_ m), true)
    | _ => (m, false)
    end.

(** [while (slots_[i].key != kEmpty) i = (i + 1) & mask;] of [rehash]. *)
Fixpoint place_loop (fuel : nat) (s : list Slot) (i : nat) : option nat :=
  match fuel with
  | O => None
  | S fuel => if s_key (s !!! i) =? kEmpty then Some i else place_loop fuel s (next i (length s))
  end.

(** One round of the copy loop of [rehash]. *)
Definition rehash_step (m : U64Map) (x : Slot) : U64Map :=
  if (s_key x =? kEmpty) || (s_key x =? kTombstone) then m
  else
    match place_loop (length (slots_ m)) (slots_ m) (home (s_key x) (length (slots_ m))) with
    | Some i => mkMap (<[i := x]> (slots_ m)) (S (size_ m)) (S (used_ m))
    | None => m
    end.

Definition rehash (m : U64Map) (new_cap : nat) : U64Map :=
  foldl rehash_step (mkMap (replicate new_cap empty_slot) 0 0) (slots_ m).

Definition grow_if_needed (m : U64Map) : U64Map :=
  if bool_decide (slots_ m = []) then rehash m 16
  else if bool_decide (length (slots_ m) * 3 < (used_ m + 1) * 4)%nat
  then rehash m (if bool_decide (length (slots_ m) < (size_ m + 1) * 2)%nat
                 then length (slots_ m) * 2 else length (slots_ m))
  else m.

(** The probe of [emplace]: the slot holding the key ([inl]) or the empty slot
    that ended the probe and the first tombstone met on the way ([inr]). *)
Fixpoint emplace_loop (fuel : nat) (s : list Slot) (key : Z) (tomb : option nat) (i : nat)
    : option (nat + nat * option nat) :=
  match fuel with
  | O => None
  | S fuel =>
      if s_key (s !!! i) =? key then Some (inl i)
      else if s_key (s !!! i) =? kTombstone
      then emplace_loop fuel s key (match tomb with None => Some i | Some t => Some t end)
             (next i (length s))
      else if s_key (s !!! i) =? kEmpty then Some (inr (i, tomb))
      else emplace_loop fuel s key tomb (next i (length s))
  end.

Definition emplace (m : U64Map) (key value : Z) (assign : bool) : U64Map * bool :=
  let m := grow_if_needed m in
  match emplace_loop (length (slots_ m)) (slots_ m) key None (home key (length (slots_ m))) with
  | Some (inl i) =>
      (if assign then mkMap (<[i := mkSlot key value]> (slots_ m)) (size_ m) (used_ m) else m, false)
  | Some (inr (i, tomb)) =>
      (mkMap (<[default i tomb := mkSlot key value]> (slots_ m)) (S (size_ m))
         (match tomb with None => S (used_ m) | Some _ => used_ m end), true)
  | None => (m, false)
  end.

Definition insert_or_assign (m : U64Map) (key value : Z) := emplace m key value true.
Definition insert_if_absent (m : U64Map) (key value : Z) := emplace m key value false.

(** [while (cap * 3 < n * 4) cap <<= 1;] *)
Fixpoint reserve_cap (fuel : nat) (cap n : Z) : Z :=
  match fuel with
  | O => cap
  | S fuel => if cap * 3 <? n * 4 then reserve_cap fuel (Z.shiftl cap 1) n else cap
  end.

Definition reserve (m : U64Map) (n : Z) : U64Map :=
  let cap := reserve_cap 64 16 n in
  if Z.of_nat (length (slots_ m)) <? cap then rehash m (Z.to_nat cap) else m.

Definition clear (m : U64Map) : U64Map :=
  mkMap (replicate (length (slots_ m)) empty_slot) 0 0.

(** ** Probe sequences *)

Definition pow2 (cap : nat) : Prop := ∃ k : nat, cap = (2 ^ k)%nat.

Lemma pow2_pos cap : pow2 cap → (0 < cap)%nat.
Proof. intros [k ->]. pose proof (Nat.pow_nonzero 2 k). lia. Qed.

Lemma pow2_double cap : pow2 cap → pow2 (cap * 2).
Proof. intros [k ->]. exists (S k). simpl. lia. Qed.

Lemma masked_mod x cap : pow2 cap → 0 <= x → masked x cap = Z.to_nat (x mod Z.of_nat cap).
Proof.
  intros [k ->] Hx. unfold masked. f_equal.
  rewrite Nat2Z.inj_pow. change (Z.of_nat 2) with 2.
  replace (2 ^ Z.of_nat k - 1) with (Z.ones (Z.of_nat k)) by (rewrite Z.ones_equiv; lia).
  by rewrite Z.land_ones by lia.
Qed.

(** The [n]-th slot of the probe that starts at [h]. *)
Definition pos (cap h n : nat) : nat := (h + n) mod cap.

Lemma pos_lt cap h n : (0 < cap)%nat → (pos cap h n < cap)%nat.
Proof. intros. apply Nat.mod_upper_bound. lia. Qed.

Lemma home_lt key cap : pow2 cap → u64_ok key → (home key cap < cap)%nat.
Proof.
  intros Hc Hk. pose proof (pow2_pos cap Hc). unfold home.
  rewrite masked_mod by (done || apply mix64_u64, Hk).
  pose proof (Z.mod_pos_bound (mix64 key) (Z.of_nat cap)). lia.
Qed.

Lemma pos_0 cap h : (h < cap)%nat → pos cap h 0 = h.
Proof. intros. unfold pos. rewrite Nat.add_0_r. by apply Nat.mod_small. Qed.

Lemma next_pos cap h n : pow2 cap → next (pos cap h n) cap = pos cap h (S n).
Proof.
  intros Hc. unfold next, pos. rewrite masked_mod by (done || lia).
  replace (Z.of_nat ((h + n) mod cap) + 1) with (Z.of_nat ((h + n) mod cap + 1)) by lia.
  rewrite <- Nat2Z.inj_mod, Nat2Z.id, Nat.Div0.add_mod_idemp_l. f_equal. lia.
Qed.

(** Every slot is on every probe sequence, once. *)
Lemma pos_surj cap h i : (i < cap)%nat → ∃ n, (n < cap)%nat ∧ pos cap h n = i.
Proof.
  intros Hi. exists ((i + (cap - h mod cap)) mod cap)%nat.
  pose proof (Nat.mod_upper_bound h cap ltac:(lia)).
  split; [apply Nat.mod_upper_bound; lia|]. unfold pos.
  rewrite Nat.Div0.add_mod_idemp_r, (Nat.Div0.add_mod h) by lia.
  rewrite <- (Nat.Div0.add_mod_idemp_r (h mod cap)).
  rewrite Nat.Div0.mod_mod, Nat.Div0.add_mod_idemp_r by lia.
  replace (h mod cap + (i + (cap - h mod cap)))%nat with (i + 1 * cap)%nat by lia.
  rewrite Nat.Div0.mod_add. by apply Nat.mod_small.
Qed.

(** ** Contents of a table *)

Implicit Types (s : list Slot) (x y : Slot) (m : U64Map) (k v : Z).

Definition live (k : Z) : bool := negb (k =? kEmpty) && negb (k =? kTombstone).

(** The (key, value) pairs of the live slots: what [for_each] visits. *)
Definition entries (s : list Slot) : list (Z * Z) :=
  omap (λ x, if live (s_key x) then Some (s_key x, s_value x) else None) s.
Definition nonempty (s : list Slot) : nat := length (filter (λ x, s_key x ≠ kEmpty) s).
Definition model (m : U64Map) : gmap Z Z := list_to_map (entries (slots_ m)).

(** [map_key k]: a key the map may be asked about (the source asserts it). *)
Definition map_key (k : Z) : Prop := u64_ok k ∧ live k = true.

(** The slot at [i] is reached by the probe of its own key. *)
Definition reached (s : list Slot) (k : Z) (i : nat) : Prop :=
  ∃ d, i = pos (length s) (home k (length s)) d
     ∧ ∀ n, (n < d)%nat → s_key (s !!! pos (length s) (home k (length s)) n) ≠ kEmpty.

Record table_ok (s : list Slot) : Prop := {
  tab_pow2 : pow2 (length s);
  tab_keys : Forall (λ x, live (s_key x) = true → u64_ok (s_key x)) s;
  tab_nodup : NoDup (entries s).*1;
  tab_free : (nonempty s < length s)%nat;
  tab_reached : ∀ i x, s !! i = Some x → live (s_key x) = true → reached s (s_key x) i
}.

Record map_inv (m : U64Map) : Prop := {
  inv_size : size_ m = length (entries (slots_ m));
  inv_used : used_ m = nonempty (slots_ m);
  inv_load : (used_ m * 4 <= length (slots_ m) * 3)%nat;
  inv_table : slots_ m = [] ∨ (16 <= length (slots_ m))%nat ∧ table_ok (slots_ m)
}.

Lemma entries_app s t : entries (s ++ t) = entries s ++ entries t.
Proof. apply omap_app. Qed.

Lemma nonempty_app s t : nonempty (s ++ t) = (nonempty s + nonempty t)%nat.
Proof. unfold nonempty. by rewrite filter_app, length_app. Qed.

Lemma elem_of_entries s k v :
  (k, v) ∈ entries s ↔ live k = true ∧ ∃ i, s !! i = Some (mkSlot k v).
Proof.
  unfold entries. rewrite list_elem_of_omap. split.
  - intros ([k' v'] & Hin & Heq). simpl in Heq. case_match; simplify_eq.
    apply list_elem_of_lookup in Hin as [i Hi]. eauto.
  - intros (Hl & i & Hi). exists (mkSlot k v). split; [by eapply list_elem_of_lookup_2|].
    simpl. by rewrite Hl.
Qed.

Lemma slot_split s (i : nat) x : s !! i = Some x →
  s = take i s ++ x :: drop (S i) s ∧ ∀ y, <[i := y]> s = take i s ++ y :: drop (S i) s.
Proof.
  intros Hi. split; [by rewrite take_drop_middle|]. intros y.
  apply insert_take_drop. by eapply lookup_lt_Some.
Qed.

(** Effect of overwriting one slot. *)
Lemma entries_insert s (i : nat) x y : s !! i = Some x →
  entries s ++ entries [y] ≡ₚ entries (<[i := y]> s) ++ entries [x].
Proof.
  intros [Hs Hi]%slot_split. rewrite Hi. rewrite Hs at 1.
  rewrite !(cons_middle _ (take i s)), !entries_app, <- !app_assoc. f_equiv.
  by rewrite (Permutation_app_comm (entries [x])), (Permutation_app_comm _ (entries [y])), <- app_assoc.
Qed.

Lemma nonempty_insert s (i : nat) x y : s !! i = Some x →
  (nonempty s + nonempty [y] = nonempty (<[i := y]> s) + nonempty [x])%nat.
Proof.
  intros [Hs Hi]%slot_split. rewrite Hi. rewrite Hs at 1.
  rewrite !(cons_middle _ (take i s)), !nonempty_app. lia.
Qed.

Lemma entries_live k v : live k = true → entries [mkSlot k v] = [(k, v)].
Proof. intros H. unfold entries. simpl. by rewrite H. Qed.
Lemma entries_dead x : live (s_key x) = false → entries [x] = [].
Proof. intros H. unfold entries. simpl. by rewrite H. Qed.

Lemma nodup_entries_index s (i j : nat) x y :
  NoDup (entries s).*1 → s !! i = Some x → s !! j = Some y →
  s_key x = s_key y → live (s_key x) = true → i = j.
Proof.
  intros Hnd Hi Hj Hk Hl. destruct (decide (i = j)) as [|Hne]; [done|exfalso].
  destruct x as [k v], y as [k' v']. simpl in *. subst k'.
  assert (Hp := entries_insert s i (mkSlot k v) empty_slot Hi).
  rewrite (entries_dead empty_slot), app_nil_r, entries_live in Hp by done.
  rewrite Hp, fmap_app in Hnd. apply NoDup_app in Hnd as (_ & Hd & _).
  apply (Hd k); [|by left]. apply list_elem_of_fmap. exists (k, v'). split; [done|].
  apply elem_of_entries. split; [done|]. exists j. by rewrite list_lookup_insert_ne.
Qed.

(** ** Probing *)

(** The slot at distance [d] from the home of [k]. *)
Definition at_dist s k (d : nat) : nat := pos (length s) (home k (length s)) d.

Lemma at_dist_lookup s k d : table_ok s → s !! at_dist s k d = Some (s !!! at_dist s k d).
Proof.
  intros Hs. apply list_lookup_lookup_total_lt, pos_lt, pow2_pos, tab_pow2, Hs.
Qed.

(** A table with a free slot: every probe meets a slot where [P] holds, if [P]
    holds of the empty key. *)
Definition first_hit s k (P : Z → Prop) (d : nat) : Prop :=
  (d < length s)%nat ∧ P (s_key (s !!! at_dist s k d))
  ∧ ∀ n, (n < d)%nat → ¬ P (s_key (s !!! at_dist s k n)).

Lemma free_slot s : (nonempty s < length s)%nat → ∃ i x, s !! i = Some x ∧ s_key x = kEmpty.
Proof.
  unfold nonempty. induction s as [|x s IH]; simpl; [lia|]. rewrite filter_cons. case_decide as Hx.
  - simpl. intros H. destruct IH as (i & y & Hi & Hy); [lia|]. by exists (S i), y.
  - intros _. exists 0%nat, x. split; [done|]. by destruct (decide (s_key x = kEmpty)).
Qed.

Lemma first_hit_exists s k (P : Z → Prop) :
  (∀ z, Decision (P z)) → table_ok s → P kEmpty → ∃ d, first_hit s k P d.
Proof.
  intros Hdec Hs HP. destruct (free_slot s (tab_free s Hs)) as (i & x & Hi & Hx).
  pose proof (lookup_lt_Some _ _ _ Hi) as Hlt.
  destruct (pos_surj (length s) (home k (length s)) i Hlt) as (n & Hn & Hpos).
  assert (HPn : P (s_key (s !!! at_dist s k n))).
  { unfold at_dist. rewrite Hpos, (list_lookup_total_correct _ _ _ Hi), Hx. done. }
  clear Hpos Hi. revert Hn HPn.
  induction (lt_wf n) as [n _ IH]. intros Hn HPn.
  destruct (decide (Exists (λ j, P (s_key (s !!! at_dist s k j))) (seq 0 n))) as [Hex|Hno].
  - apply Exists_exists in Hex as (j & Hj%elem_of_seq & HPj). apply (IH j); [lia|lia|done].
  - exists n. split_and!; [done|done|]. intros j Hj HPj. apply Hno, Exists_exists.
    exists j. split; [apply elem_of_seq; lia|done].
Qed.

Lemma next_at_dist s k n : table_ok s → next (at_dist s k n) (length s) = at_dist s k (S n).
Proof. intros Hs. apply next_pos, Hs. Qed.

(** The loops stop at the first hit. *)
Lemma find_loop_hit s k d fuel n :
  table_ok s → first_hit s k (λ z, z = k ∨ z = kEmpty) d → (n <= d)%nat → (d - n < fuel)%nat →
  find_loop fuel s k (at_dist s k n) =
  Some (if s_key (s !!! at_dist s k d) =? k then Some (at_dist s k d) else None).
Proof.
  intros Hs (Hd & HP & Hn). revert n. induction fuel as [|fuel IH]; intros n Hnd Hf; [lia|].
  cbn [find_loop]. destruct (decide (n = d)) as [->|Hne].
  - destruct (Z.eqb_spec (s_key (s !!! at_dist s k d)) k); [done|].
    destruct HP as [?|HP]; [done|]. by rewrite HP, Z.eqb_refl.
  - specialize (Hn n ltac:(lia)). apply Decidable.not_or in Hn as [? ?].
    rewrite (proj2 (Z.eqb_neq _ k)), (proj2 (Z.eqb_neq _ kEmpty)) by done.
    rewrite next_at_dist by done. apply IH; lia.
Qed.

Lemma place_loop_hit s k d fuel n :
  table_ok s → first_hit s k (λ z, z = kEmpty) d → (n <= d)%nat → (d - n < fuel)%nat →
  place_loop fuel s (at_dist s k n) = Some (at_dist s k d).
Proof.
  intros Hs (Hd & HP & Hn). revert n. induction fuel as [|fuel IH]; intros n Hnd Hf; [lia|].
  cbn [place_loop]. destruct (decide (n = d)) as [->|Hne].
  - by rewrite HP, Z.eqb_refl.
  - rewrite (proj2 (Z.eqb_neq _ kEmpty)) by (apply Hn; lia).
    rewrite next_at_dist by done. apply IH; lia.
Qed.

(** [emplace] remembers a tombstone met before the hit. *)
Lemma emplace_loop_hit s k d fuel n tomb :
  table_ok s → k ≠ kTombstone →
  first_hit s k (λ z, z = k ∨ z = kEmpty) d → (n <= d)%nat → (d - n < fuel)%nat →
  (∀ t, tomb = Some t → ∃ e, (e < n)%nat ∧ t = at_dist s k e ∧ s_key (s !!! t) = kTombstone) →
  if s_key (s !!! at_dist s k d) =? k
  then emplace_loop fuel s k tomb (at_dist s k n) = Some (inl (at_dist s k d))
  else ∃ tomb', emplace_loop fuel s k tomb (at_dist s k n) = Some (inr (at_dist s k d, tomb'))
       ∧ ∀ t, tomb' = Some t → ∃ e, (e < d)%nat ∧ t = at_dist s k e ∧ s_key (s !!! t) = kTombstone.
Proof.
  intros Hs Hk (Hd & HP & Hn). revert n tomb.
  induction fuel as [|fuel IH]; intros n tomb Hnd Hf Ht; [lia|].
  cbn [emplace_loop]. destruct (decide (n = d)) as [->|Hne].
  - destruct (Z.eqb_spec (s_key (s !!! at_dist s k d)) k); [done|].
    destruct HP as [?|HP]; [done|]. rewrite HP. simpl. eauto.
  - pose proof (Hn n ltac:(lia)) as [? ?]%Decidable.not_or.
    rewrite (proj2 (Z.eqb_neq (s_key (s !!! at_dist s k n)) k)), (proj2 (Z.eqb_neq _ kEmpty)) by done.
    rewrite next_at_dist by done.
    destruct (Z.eqb_spec (s_key (s !!! at_dist s k n)) kTombstone) as [Htb|_].
    + apply IH; [lia|lia|]. intros t' Ht'. destruct tomb as [t|]; simplify_eq.
      * destruct (Ht t' eq_refl) as (e & ? & ? & ?). exists e. split; [lia|done].
      * exists n. split; [lia|done].
    + apply IH; [lia|lia|]. intros t' Ht'. destruct (Ht t' Ht') as (e & ? & ? & ?). exists e. split; [lia|done].
Qed.

(** ** Lookup *)

Lemma at_dist_0 s k : table_ok s → u64_ok k → at_dist s k 0 = home k (length s).
Proof. intros Hs Hk. apply pos_0, home_lt; [apply Hs|done]. Qed.

Lemma model_lookup s k v : NoDup (entries s).*1 →
  (list_to_map (entries s) : gmap Z Z) !! k = Some v ↔ live k = true ∧ ∃ i, s !! i = Some (mkSlot k v).
Proof. intros Hnd. rewrite <- elem_of_entries. symmetry. by apply elem_of_list_to_map. Qed.

(** Where the probe for a key ends, against the contents of the table. *)
Lemma probe_outcome s k d : table_ok s → map_key k →
  first_hit s k (λ z, z = k ∨ z = kEmpty) d →
  if s_key (s !!! at_dist s k d) =? k
  then (list_to_map (entries s) : gmap Z Z) !! k = Some (s_value (s !!! at_dist s k d))
  else (list_to_map (entries s) : gmap Z Z) !! k = None.
Proof.
  intros Hs [Hu Hl] (Hd & HP & Hn). pose proof (tab_nodup s Hs) as Hnd.
  destruct (Z.eqb_spec (s_key (s !!! at_dist s k d)) k) as [Heq|Hne].
  - apply model_lookup; [done|]. split; [done|]. exists (at_dist s k d).
    rewrite at_dist_lookup by done. by destruct (s !!! at_dist s k d); simpl in *; subst.
  - destruct HP as [?|HP]; [done|]. apply eq_None_not_Some. intros [v Hv].
    apply model_lookup in Hv as (_ & i & Hi); [|done].
    destruct (tab_reached s Hs i _ Hi Hl) as (e & -> & He). simpl in *.
    destruct (Nat.lt_trichotomy d e) as [Hlt|[->|Hgt]].
    + by apply (He d Hlt).
    + rewrite (list_lookup_total_correct _ _ _ Hi) in Hne. done.
    + apply (Hn e Hgt). left. unfold at_dist. by rewrite (list_lookup_total_correct _ _ _ Hi).
Qed.

Lemma hit_dec (k z : Z) : Decision (z = k ∨ z = kEmpty).
Proof. apply _. Defined.

Lemma find_correct m k : map_inv m → map_key k → find m k = model m !! k.
Proof.
  intros Hm Hk. unfold find, model. case_bool_decide as Hnil; [by rewrite Hnil|].
  destruct (inv_table m Hm) as [?|[_ Hs]]; [done|].
  destruct (first_hit_exists (slots_ m) k (λ z, z = k ∨ z = kEmpty)) as [d Hd];
    [apply _|done|by right|].
  pose proof (probe_outcome _ _ _ Hs Hk Hd) as Hout.
  rewrite <- (at_dist_0 (slots_ m) k Hs) by apply Hk.
  rewrite (find_loop_hit _ _ d) by (done || lia || apply Hd || (destruct Hd; lia)).
  by destruct (Z.eqb_spec (s_key (slots_ m !!! at_dist (slots_ m) k d)) k).
Qed.

(** ** Writing a slot *)

Lemma lookup_total_insert s (i j : nat) y : (i < length s)%nat →
  <[i := y]> s !!! j = if decide (i = j) then y else s !!! j.
Proof.
  intros Hi. case_decide as Hij; subst; rewrite list_lookup_total_alt.
  - by rewrite list_lookup_insert_eq.
  - by rewrite list_lookup_insert_ne, <- list_lookup_total_alt.
Qed.

(** Slots never become empty again, so no probe is cut. *)
Lemma reached_insert s (i j : nat) k y : (i < length s)%nat →
  s_key y ≠ kEmpty → reached s k j → reached (<[i := y]> s) k j.
Proof.
  intros Hi Hy (d & -> & Hd). unfold reached. rewrite length_insert. exists d. split; [done|].
  intros n Hn. rewrite lookup_total_insert by done. case_decide; [done|by apply Hd].
Qed.

Lemma insert_lookup_cases s (i j : nat) x y :
  <[i := y]> s !! j = Some x → i = j ∧ x = y ∨ i ≠ j ∧ s !! j = Some x.
Proof.
  destruct (decide (i = j)) as [->|Hne].
  - intros H. pose proof (lookup_lt_Some _ _ _ H) as Hlt. rewrite length_insert in Hlt.
    rewrite list_lookup_insert_eq in H by done. left. by simplify_eq.
  - rewrite list_lookup_insert_ne by done. by right.
Qed.

Lemma live_not_empty k : live k = true → k ≠ kEmpty ∧ k ≠ kTombstone.
Proof. unfold live. intros. b2p. done. Qed.

Lemma live_false k : live k = false → k = kEmpty ∨ k = kTombstone.
Proof.
  unfold live. destruct (Z.eqb_spec k kEmpty); [by left|]. destruct (Z.eqb_spec k kTombstone); [by right|done].
Qed.

Section write.
Context (s : list Slot) (k v : Z) (t : nat).
Context (Hs : table_ok s) (Hk : map_key k).
Context (Hprobe : ∀ n, (n < t)%nat → s_key (s !!! at_dist s k n) ≠ kEmpty).
Context (Hdead : live (s_key (s !!! at_dist s k t)) = false).
Context (Hnew : (list_to_map (entries s) : gmap Z Z) !! k = None).
Let i := at_dist s k t.
Let s' := <[i := mkSlot k v]> s.

Lemma write_index : (i < length s)%nat.
Proof. apply pos_lt, pow2_pos, tab_pow2, Hs. Qed.

Lemma write_entries : entries s' ≡ₚ (k, v) :: entries s.
Proof.
  pose proof (entries_insert s i _ (mkSlot k v) (at_dist_lookup s k t Hs)) as Hp.
  rewrite (entries_live k v), (entries_dead _ Hdead), app_nil_r in Hp by apply Hk.
  unfold s'. rewrite <- Hp. by rewrite Permutation_app_comm.
Qed.

Lemma write_nonempty :
  nonempty s' = (nonempty s + if decide (s_key (s !!! i) = kEmpty) then 1 else 0)%nat.
Proof.
  pose proof (nonempty_insert s i _ (mkSlot k v) (at_dist_lookup s k t Hs)) as Hp.
  destruct (live_not_empty k (proj2 Hk)) as [Hne _]. fold i in Hp.
  unfold s'. unfold nonempty in *. rewrite !filter_cons, !filter_nil in Hp. simpl in Hp.
  rewrite (decide_True (P := k ≠ kEmpty)) in Hp by done. simpl in Hp.
  repeat case_decide; simpl in *; try done; lia.
Qed.

Lemma write_fresh : k ∉ (entries s).*1.
Proof. by apply not_elem_of_list_to_map. Qed.

Lemma write_nodup : NoDup (entries s').*1.
Proof.
  rewrite write_entries. simpl. constructor; [apply write_fresh|apply Hs].
Qed.

Lemma write_table : (nonempty s' < length s)%nat → table_ok s'.
Proof.
  intros Hfree. pose proof write_index as Hi. split.
  - unfold s'. rewrite length_insert. apply Hs.
  - unfold s'. apply Forall_insert; [apply Hs|]. by intros _; apply Hk.
  - apply write_nodup.
  - unfold s' at 2. by rewrite length_insert.
  - intros j x Hj Hl. destruct (live_not_empty k (proj2 Hk)) as [Hne _].
    apply insert_lookup_cases in Hj as [[<- ->]|[_ Hj]]; simpl.
    + apply reached_insert; [done|done|]. by exists t.
    + apply reached_insert; [done|done|]. by apply (tab_reached s Hs).
Qed.

Lemma write_model : (list_to_map (entries s') : gmap Z Z) = <[k := v]> (list_to_map (entries s)).
Proof. rewrite (list_to_map_proper _ _ write_nodup write_entries). done. Qed.
End write.

(** ** Rehashing *)

Lemma entries_replicate n : entries (replicate n empty_slot) = [].
Proof. induction n; [done|]. unfold entries in *. simpl. done. Qed.

Lemma nonempty_replicate n : nonempty (replicate n empty_slot) = 0%nat.
Proof. induction n; [done|]. unfold nonempty in *. simpl. done. Qed.

Lemma table_ok_replicate cap : pow2 cap → table_ok (replicate cap empty_slot).
Proof.
  intros Hc. split.
  - by rewrite length_replicate.
  - apply Forall_replicate. done.
  - by rewrite entries_replicate; constructor.
  - rewrite nonempty_replicate, length_replicate. by apply pow2_pos.
  - intros i x [-> _]%lookup_replicate_1. done.
Qed.

(** A rehashed table: no tombstones, counters in step. *)
Record compact (m : U64Map) (l : list (Z * Z)) : Prop := {
  c_table : table_ok (slots_ m);
  c_entries : entries (slots_ m) ≡ₚ l;
  c_size : size_ m = length l;
  c_used : used_ m = length l;
  c_nonempty : nonempty (slots_ m) = length l
}.

Lemma rehash_step_ok m l x :
  compact m l → (live (s_key x) = true → u64_ok (s_key x)) →
  NoDup (l ++ entries [x]).*1 → (length (l ++ entries [x]) < length (slots_ m))%nat →
  compact (rehash_step m x) (l ++ entries [x]) ∧ length (slots_ (rehash_step m x)) = length (slots_ m).
Proof.
  intros Hm Hx Hnd Hlen. unfold rehash_step.
  destruct (live (s_key x)) eqn:Hl.
  2:{ rewrite (entries_dead x Hl), app_nil_r. apply live_false in Hl as [->| ->]; by simpl. }
  destruct (live_not_empty _ Hl) as [He Ht].
  rewrite (proj2 (Z.eqb_neq _ kEmpty)), (proj2 (Z.eqb_neq _ kTombstone)) by done. simpl orb.
  destruct x as [k v]. cbn [s_key s_value] in *. rewrite (entries_live k v Hl) in *.
  assert (Hk : map_key k) by (split; auto).
  pose proof (c_table m l Hm) as Hs.
  destruct (first_hit_exists (slots_ m) k (λ z, z = kEmpty)) as [d Hd]; [apply _|done|done|].
  pose proof Hd as (Hdl & HP & Hn).
  rewrite <- (at_dist_0 _ _ Hs) by apply Hk.
  rewrite (place_loop_hit _ _ d) by (done || lia).
  assert (Hnew : (list_to_map (entries (slots_ m)) : gmap Z Z) !! k = None).
  { apply not_elem_of_list_to_map. rewrite (c_entries m l Hm).
    rewrite fmap_app in Hnd. apply NoDup_app in Hnd as (_ & Hd2 & _).
    intros Hin. apply (Hd2 k Hin). simpl. by left. }
  assert (Hdead : live (s_key (slots_ m !!! at_dist (slots_ m) k d)) = false) by (by rewrite HP).
  pose proof (write_entries _ k v d Hs Hk Hdead) as Hent.
  pose proof (write_nonempty _ k v d Hs Hk) as Hne. rewrite decide_True in Hne by done.
  rewrite (c_nonempty m l Hm) in Hne. rewrite length_app in *. simpl in *.
  rewrite length_insert. split; [|done].
  split; simpl; rewrite ?length_app; simpl.
  - apply write_table; try done. lia.
  - rewrite Hent, (c_entries m l Hm). by rewrite Permutation_app_comm.
  - rewrite (c_size m l Hm). lia.
  - rewrite (c_used m l Hm). lia.
  - done.
Qed.

Lemma rehash_fold_ok (todo : list Slot) m l :
  compact m l → Forall (λ x, live (s_key x) = true → u64_ok (s_key x)) todo →
  NoDup (l ++ entries todo).*1 → (length (l ++ entries todo) < length (slots_ m))%nat →
  compact (foldl rehash_step m todo) (l ++ entries todo)
  ∧ length (slots_ (foldl rehash_step m todo)) = length (slots_ m).
Proof.
  revert m l. induction todo as [|x todo IH]; intros m l Hm Hkeys Hnd Hlen.
  { unfold entries in *. simpl. by rewrite app_nil_r. }
  apply Forall_cons in Hkeys as [Hx Hkeys].
  change (x :: todo) with ([x] ++ todo) in *. rewrite entries_app, app_assoc in *.
  assert (Hnd1 : NoDup (l ++ entries [x]).*1).
  { rewrite fmap_app in Hnd. by apply NoDup_app in Hnd as (? & _ & _). }
  destruct (rehash_step_ok m l x Hm Hx Hnd1) as [Hm' Hlen'].
  { rewrite length_app in Hlen. lia. }
  rewrite foldl_app. cbn [foldl].
  destruct (IH _ _ Hm' Hkeys Hnd) as [? ?]; [by rewrite Hlen'|]. split; [done|congruence].
Qed.

Lemma rehash_ok m cap :
  (slots_ m = [] ∨ table_ok (slots_ m)) → pow2 cap → (length (entries (slots_ m)) < cap)%nat →
  compact (rehash m cap) (entries (slots_ m)) ∧ length (slots_ (rehash m cap)) = cap.
Proof.
  intros Hm Hc Hlen. unfold rehash.
  destruct (rehash_fold_ok (slots_ m) (mkMap (replicate cap empty_slot) 0 0) []) as [H1 H2].
  - split; simpl; rewrite ?entries_replicate, ?nonempty_replicate; try done.
    by apply table_ok_replicate.
  - destruct Hm as [->|Hm]; [constructor|apply Hm].
  - destruct Hm as [->|Hm]; [constructor|apply Hm].
  - simpl. by rewrite length_replicate.
  - split; [done|]. rewrite H2. simpl. by rewrite length_replicate.
Qed.

(** ** The invariant under each operation *)

Lemma compact_inv m l : compact m l → (16 <= length (slots_ m))%nat →
  (length l * 4 <= length (slots_ m) * 3)%nat → map_inv m.
Proof.
  intros [Ht He Hs Hu Hn] H16 Hload. split.
  - rewrite Hs. by rewrite He.
  - congruence.
  - lia.
  - by right.
Qed.

Lemma compact_model m l : compact m l → NoDup l.*1 → model m = list_to_map l.
Proof.
  intros Hm Hnd. unfold model. apply list_to_map_proper; [apply Hm|apply Hm].
Qed.

Lemma inv_entries_used m : map_inv m → (size_ m <= used_ m)%nat.
Proof.
  intros Hm. rewrite (inv_size m Hm), (inv_used m Hm).
  induction (slots_ m) as [|x s IH]; [done|].
  change (x :: s) with ([x] ++ s). rewrite entries_app, nonempty_app, length_app.
  enough (length (entries [x]) <= nonempty [x])%nat by lia.
  destruct (live (s_key x)) eqn:Hl; [|rewrite (entries_dead x Hl); simpl; lia].
  destruct x as [k v]. simpl in Hl. rewrite entries_live by done.
  apply live_not_empty in Hl as [? _]. unfold nonempty. by rewrite filter_cons_True.
Qed.

Lemma map_inv_nodup m : map_inv m → NoDup (entries (slots_ m)).*1.
Proof. intros Hm. destruct (inv_table m Hm) as [->|[_ Hs]]; [constructor|apply Hs]. Qed.

Lemma map_inv_slots m : map_inv m → slots_ m = [] ∨ table_ok (slots_ m).
Proof. intros Hm. destruct (inv_table m Hm) as [|[_ ?]]; auto. Qed.

(** Rehashing to any capacity with room for the live entries keeps the map. *)
Lemma rehash_inv m cap : map_inv m → pow2 cap → (16 <= cap)%nat →
  (size_ m * 4 <= cap * 3)%nat →
  map_inv (rehash m cap) ∧ model (rehash m cap) = model m
  ∧ length (slots_ (rehash m cap)) = cap ∧ used_ (rehash m cap) = size_ m.
Proof.
  intros Hm Hc H16 Hload. pose proof (inv_size m Hm) as Hsz.
  destruct (rehash_ok m cap) as [H1 H2]; [by apply map_inv_slots|done|lia|].
  split_and!.
  - eapply compact_inv; [exact H1|lia|]. rewrite H2. lia.
  - by apply compact_model; [|apply map_inv_nodup].
  - done.
  - rewrite (c_used _ _ H1). done.
Qed.

Lemma pow2_16 : pow2 16.
Proof. by exists 4%nat. Qed.

Lemma grow_inv m : map_inv m →
  map_inv (grow_if_needed m) ∧ model (grow_if_needed m) = model m
  ∧ slots_ (grow_if_needed m) ≠ []
  ∧ ((used_ (grow_if_needed m) + 1) * 4 <= length (slots_ (grow_if_needed m)) * 3)%nat.
Proof.
  intros Hm. pose proof (inv_entries_used m Hm) as Hsu. pose proof (inv_load m Hm) as Hload.
  unfold grow_if_needed. case_bool_decide as Hnil.
  - rewrite Hnil in Hload. cbn [length] in Hload.
    destruct (rehash_inv m 16) as (? & ? & Hl & Hu); [done|apply pow2_16|lia|lia|].
    split_and!; [done|done| |rewrite Hl, Hu; lia]. intros Hn. by rewrite Hn in Hl.
  - destruct (inv_table m Hm) as [?|[H16 Hs]]; [done|].
    case_bool_decide as Hfull; [|split_and!; (done || lia)].
    set (cap := if bool_decide _ then _ else _).
    assert (Hcap : pow2 cap ∧ (16 <= cap)%nat ∧ ((size_ m + 1) * 4 <= cap * 3)%nat).
    { unfold cap. case_bool_decide; split_and!;
        (lia || by apply tab_pow2 || by apply pow2_double, tab_pow2). }
    destruct Hcap as (Hc1 & Hc2 & Hc3).
    destruct (rehash_inv m cap) as (? & ? & Hl & Hu); [done|done|done|lia|].
    split_and!; [done|done| |rewrite Hl, Hu; lia]. intros Hn. rewrite Hn in Hl. simpl in Hl. lia.
Qed.

(** The table with one slot taken out. *)
Lemma entries_overwrite s (i : nat) x y : s !! i = Some x →
  entries (<[i := y]> s) ≡ₚ entries [y] ++ entries (<[i := empty_slot]> s).
Proof.
  intros Hi. pose proof (entries_insert s i x y Hi) as H1.
  pose proof (entries_insert s i x empty_slot Hi) as H2.
  rewrite (entries_dead empty_slot), app_nil_r in H2 by done.
  rewrite H2, <- app_assoc, (Permutation_app_comm (entries [x])), app_assoc in H1.
  apply Permutation_app_inv_r in H1. rewrite <- H1. apply Permutation_app_comm.
Qed.

Lemma entries_take_out s (i : nat) x : s !! i = Some x →
  entries s ≡ₚ entries [x] ++ entries (<[i := empty_slot]> s).
Proof. intros Hi. rewrite <- (entries_overwrite s i x x Hi). by rewrite list_insert_id. Qed.

(** Overwriting a live slot, with the same key or with a tombstone. *)
Lemma table_overwrite s (i : nat) x y :
  table_ok s → s !! i = Some x → live (s_key x) = true →
  (s_key y = s_key x ∨ s_key y = kTombstone) →
  table_ok (<[i := y]> s) ∧ nonempty (<[i := y]> s) = nonempty s.
Proof.
  intros Hs Hi Hl Hy. pose proof (lookup_lt_Some _ _ _ Hi) as Hlt.
  destruct (live_not_empty _ Hl) as [Hxe _].
  assert (Hye : s_key y ≠ kEmpty) by (destruct Hy as [->| ->]; [done|by vm_compute]).
  assert (Hne : nonempty (<[i := y]> s) = nonempty s).
  { pose proof (nonempty_insert s i x y Hi) as Hp. unfold nonempty in Hp at 2 4.
    rewrite !filter_cons_True in Hp by done. simpl in Hp. lia. }
  split; [|done]. split.
  - rewrite length_insert. apply Hs.
  - apply Forall_insert; [apply Hs|]. intros Hly. destruct Hy as [Hy|Hy].
    + rewrite Hy. pose proof (Forall_lookup_1 _ _ _ _ (tab_keys s Hs) Hi). auto.
    + rewrite Hy in Hly. by vm_compute in Hly.
  - pose proof (tab_nodup s Hs) as Hnd. rewrite (entries_take_out s i x Hi), fmap_app in Hnd.
    rewrite (entries_overwrite s i x y Hi), fmap_app. destruct Hy as [Hy|Hy].
    + replace (entries [y]).*1 with (entries [x]).*1; [done|].
      unfold entries. simpl. rewrite Hy, Hl. simpl. congruence.
    + rewrite (entries_dead y) by (rewrite Hy; done). by apply NoDup_app in Hnd as (_ & _ & ?).
  - rewrite Hne, length_insert. apply Hs.
  - intros j z Hj Hlz. apply insert_lookup_cases in Hj as [[<- ->]|[_ Hj]].
    + destruct Hy as [Hy|Hy]; [|rewrite Hy in Hlz; by vm_compute in Hlz].
      rewrite Hy. apply reached_insert; [done|done|]. by apply (tab_reached s Hs).
    + apply reached_insert; [done|done|]. by apply (tab_reached s Hs).
Qed.

Lemma live_tombstone : live kTombstone = false.
Proof. done. Qed.

Section overwrite.
Context (m : U64Map) (Hm : map_inv m) (i : nat) (k old : Z).
Context (Hi : slots_ m !! i = Some (mkSlot k old)) (Hl : live k = true).
Let rest : gmap Z Z := list_to_map (entries (<[i := empty_slot]> (slots_ m))).

Lemma overwrite_table_ok : table_ok (slots_ m).
Proof. destruct (inv_table m Hm) as [Hn|[_ ?]]; [by rewrite Hn in Hi|done]. Qed.

Lemma overwrite_model : model m = <[k := old]> rest ∧ rest !! k = None.
Proof.
  pose proof (entries_take_out _ _ _ Hi) as Hp. rewrite entries_live in Hp by done.
  pose proof (map_inv_nodup m Hm) as Hnd. split.
  - unfold model, rest. by rewrite (list_to_map_proper _ _ Hnd Hp).
  - apply not_elem_of_list_to_map. rewrite Hp in Hnd. by apply NoDup_cons in Hnd as [? _].
Qed.

Lemma assign_ok v :
  let m' := mkMap (<[i := mkSlot k v]> (slots_ m)) (size_ m) (used_ m) in
  map_inv m' ∧ model m' = <[k := v]> (model m).
Proof.
  destruct (table_overwrite _ _ _ (mkSlot k v) overwrite_table_ok Hi Hl) as [Ht Hne]; [by left|].
  pose proof (entries_overwrite _ _ _ (mkSlot k v) Hi) as Hp. rewrite entries_live in Hp by done.
  pose proof (entries_take_out _ _ _ Hi) as Hp0. rewrite entries_live in Hp0 by done.
  destruct overwrite_model as [Hmod _]. split.
  - split; simpl.
    + by rewrite (inv_size m Hm), Hp, Hp0.
    + by rewrite Hne, (inv_used m Hm).
    + rewrite length_insert. apply Hm.
    + right. rewrite length_insert. destruct (inv_table m Hm) as [Hn|[? _]]; [by rewrite Hn in Hi|done].
  - rewrite Hmod, insert_insert_eq. unfold model. simpl.
    by rewrite (list_to_map_proper _ _ (tab_nodup _ Ht) Hp).
Qed.

Lemma tombstone_ok :
  let m' := mkMap (<[i := mkSlot kTombstone old]> (slots_ m)) (size_ m - 1) (used_ m) in
  map_inv m' ∧ model m' = delete k (model m).
Proof.
  destruct (table_overwrite _ _ _ (mkSlot kTombstone old) overwrite_table_ok Hi Hl) as [Ht Hne]; [by right|].
  pose proof (entries_overwrite _ _ _ (mkSlot kTombstone old) Hi) as Hp.
  rewrite entries_dead in Hp by apply live_tombstone.
  pose proof (entries_take_out _ _ _ Hi) as Hp0. rewrite entries_live in Hp0 by done.
  destruct overwrite_model as [Hmod Hnone]. split.
  - split; simpl.
    + rewrite (inv_size m Hm), Hp, Hp0. simpl. lia.
    + by rewrite Hne, (inv_used m Hm).
    + rewrite length_insert. apply Hm.
    + right. rewrite length_insert. destruct (inv_table m Hm) as [Hn|[? _]]; [by rewrite Hn in Hi|done].
  - rewrite Hmod, delete_insert_id by done. unfold model. simpl.
    by rewrite (list_to_map_proper _ _ (tab_nodup _ Ht) Hp).
Qed.
End overwrite.

(** ** Operations against the model *)

Lemma hit_lookup s k d : table_ok s → s_key (s !!! at_dist s k d) = k →
  s !! at_dist s k d = Some (mkSlot k (s_value (s !!! at_dist s k d))).
Proof.
  intros Hs Hk. rewrite at_dist_lookup by done. by destruct (s !!! at_dist s k d); simpl in *; subst.
Qed.

(** Inserting a new key after a probe that ended on an empty slot. *)
Lemma emplace_new_ok m k v d (tomb : option nat) :
  map_inv m → map_key k → slots_ m ≠ [] → ((used_ m + 1) * 4 <= length (slots_ m) * 3)%nat →
  model m !! k = None →
  first_hit (slots_ m) k (λ z, z = k ∨ z = kEmpty) d →
  s_key (slots_ m !!! at_dist (slots_ m) k d) = kEmpty →
  (∀ t, tomb = Some t → ∃ e, (e < d)%nat ∧ t = at_dist (slots_ m) k e
                             ∧ s_key (slots_ m !!! t) = kTombstone) →
  let m' := mkMap (<[default (at_dist (slots_ m) k d) tomb := mkSlot k v]> (slots_ m)) (S (size_ m))
              (match tomb with None => S (used_ m) | Some _ => used_ m end) in
  map_inv m' ∧ model m' = <[k := v]> (model m).
Proof.
  intros Hm Hk Hnil Hroom Hnone (Hdl & _ & Hn) Hempty Htomb.
  destruct (inv_table m Hm) as [?|[H16 Hs]]; [done|].
  pose proof (inv_used m Hm) as Hu.
  assert (∃ t, default (at_dist (slots_ m) k d) tomb = at_dist (slots_ m) k t ∧ (t <= d)%nat
          ∧ s_key (slots_ m !!! at_dist (slots_ m) k t) = match tomb with None => kEmpty | _ => kTombstone end)
    as (t & -> & Htd & Hkey).
  { destruct tomb as [j|]; simpl; [|by exists d].
    destruct (Htomb j eq_refl) as (e & He & -> & Hke). exists e. split_and!; [done|lia|done]. }
  assert (Hprobe : ∀ n, (n < t)%nat → s_key (slots_ m !!! at_dist (slots_ m) k n) ≠ kEmpty).
  { intros n Hnt ?. apply (Hn n); [lia|by right]. }
  assert (Hdead : live (s_key (slots_ m !!! at_dist (slots_ m) k t)) = false)
    by (rewrite Hkey; by destruct tomb).
  pose proof (write_nonempty _ k v t Hs Hk) as Hne. rewrite Hkey in Hne.
  assert (Hne' : nonempty (<[at_dist (slots_ m) k t := mkSlot k v]> (slots_ m))
                 = match tomb with None => S (used_ m) | Some _ => used_ m end).
  { rewrite Hne, Hu. destruct tomb; [rewrite decide_False by done|rewrite decide_True by done]; lia. }
  intros m'. split.
  - split; simpl.
    + rewrite (inv_size m Hm), (write_entries _ k v t Hs Hk Hdead). done.
    + done.
    + rewrite length_insert. destruct tomb; lia.
    + right. rewrite length_insert. split; [done|]. apply write_table; try done.
      rewrite Hne'. destruct tomb; lia.
  - by apply write_model.
Qed.

Lemma emplace_ok m k v assign : map_inv m → map_key k →
  map_inv (emplace m k v assign).1
  ∧ model (emplace m k v assign).1
    = (if model m !! k is Some _ then (if assign then <[k := v]> (model m) else model m)
       else <[k := v]> (model m))
  ∧ (emplace m k v assign).2 = bool_decide (model m !! k = None).
Proof.
  intros Hm0 Hk. unfold emplace. destruct (grow_inv m Hm0) as (Hm & Hmod & Hnil & Hroom).
  rewrite <- Hmod. clear Hmod Hm0. revert Hm Hnil Hroom. generalize (grow_if_needed m). clear m.
  intros m Hm Hnil Hroom. destruct (inv_table m Hm) as [?|[_ Hs]]; [done|].
  destruct (first_hit_exists (slots_ m) k (λ z, z = k ∨ z = kEmpty)) as [d Hd];
    [apply _|done|by right|].
  pose proof (probe_outcome _ _ _ Hs Hk Hd) as Hout. fold (model m) in Hout.
  destruct (live_not_empty k (proj2 Hk)) as [_ Hkt].
  rewrite <- (at_dist_0 (slots_ m) k Hs) by apply Hk.
  pose proof (emplace_loop_hit (slots_ m) k d (length (slots_ m)) 0 None Hs Hkt Hd) as Hloop.
  specialize (Hloop ltac:(lia) ltac:(destruct Hd; lia) ltac:(done)).
  destruct (Z.eqb_spec (s_key (slots_ m !!! at_dist (slots_ m) k d)) k) as [Heq|Hne].
  - rewrite Hloop, Hout. destruct assign; [|done].
    destruct (assign_ok m Hm _ k _ (hit_lookup _ _ _ Hs Heq) (proj2 Hk) v) as [? ?]. done.
  - destruct Hloop as (tomb & -> & Htomb). rewrite Hout.
    destruct (emplace_new_ok m k v d tomb) as [? ?]; try done.
    pose proof Hd as (_ & [?|?] & _); done.
Qed.

Lemma erase_ok m k : map_inv m → map_key k →
  map_inv (erase m k).1 ∧ model (erase m k).1 = delete k (model m)
  ∧ (erase m k).2 = bool_decide (model m !! k ≠ None).
Proof.
  intros Hm Hk. unfold erase. case_bool_decide as Hnil.
  { split_and!; [done|..]; unfold model; cbn [fst snd]; rewrite Hnil; [symmetry; apply delete_empty|done]. }
  destruct (inv_table m Hm) as [?|[_ Hs]]; [done|].
  destruct (first_hit_exists (slots_ m) k (λ z, z = k ∨ z = kEmpty)) as [d Hd];
    [apply _|done|by right|].
  pose proof (probe_outcome _ _ _ Hs Hk Hd) as Hout. fold (model m) in Hout.
  rewrite <- (at_dist_0 (slots_ m) k Hs) by apply Hk.
  rewrite (find_loop_hit _ _ d) by (done || lia || apply Hd || (destruct Hd; lia)).
  destruct (Z.eqb_spec (s_key (slots_ m !!! at_dist (slots_ m) k d)) k) as [Heq|Hne].
  - rewrite Hout.
    destruct (tombstone_ok m Hm _ k _ (hit_lookup _ _ _ Hs Heq) (proj2 Hk)) as [? ?]. done.
  - rewrite Hout. by rewrite delete_id.
Qed.

Lemma reserve_cap_pow2 fuel cap n : (∃ j, 4 <= j ∧ cap = 2 ^ j) →
  ∃ j, 4 <= j ∧ reserve_cap fuel cap n = 2 ^ j.
Proof.
  revert cap. induction fuel as [|fuel IH]; intros cap (j & Hj & ->); simpl; [eauto|].
  case_match; [|eauto]. apply IH. exists (j + 1). split; [lia|].
  rewrite Z.shiftl_mul_pow2, <- Z.pow_add_r by lia. done.
Qed.

Lemma reserve_ok m n : map_inv m → map_inv (reserve m n) ∧ model (reserve m n) = model m.
Proof.
  intros Hm. unfold reserve.
  destruct (reserve_cap_pow2 64 16 n) as (j & Hj & ->); [by exists 4|].
  case_match; [|done]. b2p. pose proof (inv_entries_used m Hm). pose proof (inv_load m Hm).
  pose proof (Z.pow_le_mono_r 2 4 j).
  destruct (rehash_inv m (Z.to_nat (2 ^ j))) as (? & ? & _); [done| |lia|lia|done].
  exists (Z.to_nat j). rewrite <- (Z2Nat.id j) at 1 by lia.
  replace (2 ^ Z.of_nat (Z.to_nat j)) with (Z.of_nat (2 ^ Z.to_nat j)) by (by rewrite Nat2Z.inj_pow).
  by rewrite Nat2Z.id.
Qed.

Lemma clear_ok m : map_inv m → map_inv (clear m) ∧ model (clear m) = ∅.
Proof.
  intros Hm. unfold clear, model. simpl. rewrite entries_replicate. split; [|done].
  split; simpl; rewrite ?entries_replicate, ?nonempty_replicate, ?length_replicate; try done; try lia.
  destruct (inv_table m Hm) as [->|[? Hs]]; [by left|right].
  split; [done|]. apply table_ok_replicate, Hs.
Qed.

Lemma new_ok : map_inv map_new ∧ model map_new = ∅.
Proof. split; [|done]. split; [done|done|simpl; lia|by left]. Qed.

#[global] Instance flat_ops : KeyMapOps U64Map := {|
  km_new := map_new; km_find := find; km_insert_or_assign := insert_or_assign;
  km_insert_if_absent := insert_if_absent; km_erase := erase; km_reserve := reserve; km_clear := clear
|}.

#[global] Program Instance flat_map : KeyMap U64Map :=
  {| km_key := map_key; km_inv := map_inv; km_model := model |}.
Next Obligation.
  cbn. intros k Hk. split; [zsolve|]. unfold live, kEmpty, kTombstone.
  apply andb_true_intro. split; apply negb_true_iff, Z.eqb_neq; lia.
Qed.
Next Obligation. apply new_ok. Qed.
Next Obligation. done. Qed.
Next Obligation. apply find_correct. Qed.
Next Obligation.
  intros m k v Hm Hk. destruct (emplace_ok m k v true Hm Hk) as (? & Hmod & ?).
  split_and!; [done| |done]. simpl. unfold insert_or_assign. rewrite Hmod. by case_match.
Qed.
Next Obligation.
  intros m k v Hm Hk. destruct (emplace_ok m k v false Hm Hk) as (? & Hmod & ?).
  split_and!; [done| |done]. simpl. unfold insert_if_absent. rewrite Hmod. by case_match.
Qed.
Next Obligation. apply erase_ok. Qed.
Next Obligation. intros m n Hm _. by apply reserve_ok. Qed.
Next Obligation. apply clear_ok. Qed.

(** ** Sequences of calls *)

Inductive MapOp :=
| OpFind (k : Z) | OpAssign (k v : Z) | OpAbsent (k v : Z) | OpErase (k : Z)
| OpReserve (n : Z) | OpClear.

(** What a call returns: the value found, or the flag of a mutation. *)
Definition reply : Type := option Z + bool.

Definition flat_step (m : U64Map) (o : MapOp) : U64Map * reply :=
  match o with
  | OpFind k => (m, inl (find m k))
  | OpAssign k v => let '(m, b) := insert_or_assign m k v in (m, inr b)
  | OpAbsent k v => let '(m, b) := insert_if_absent m k v in (m, inr b)
  | OpErase k => let '(m, b) := erase m k in (m, inr b)
  | OpReserve n => (reserve m n, inr true)
  | OpClear => (clear m, inr true)
  end.

Definition spec_step (g : gmap Z Z) (o : MapOp) : gmap Z Z * reply :=
  match o with
  | OpFind k => (g, inl (g !! k))
  | OpAssign k v => (<[k := v]> g, inr (bool_decide (g !! k = None)))
  | OpAbsent k v => (if g !! k is Some _ then g else <[k := v]> g, inr (bool_decide (g !! k = None)))
  | OpErase k => (delete k g, inr (bool_decide (g !! k ≠ None)))
  | OpReserve n => (g, inr true)
  | OpClear => (∅, inr true)
  end.

Fixpoint run {S} (step : S → MapOp → S * reply) (s : S) (ops : list MapOp) : S * list reply :=
  match ops with
  | [] => (s, [])
  | o :: ops => let '(s, r) := step s o in let '(s, rs) := run step s ops in (s, r :: rs)
  end.

Definition op_key_ok (o : MapOp) : Prop :=
  match o with
  | OpFind k | OpAssign k _ | OpAbsent k _ | OpErase k => map_key k
  | _ => True
  end.

Lemma flat_step_refines m o : map_inv m → op_key_ok o →
  map_inv (flat_step m o).1 ∧ model (flat_step m o).1 = (spec_step (model m) o).1
  ∧ (flat_step m o).2 = (spec_step (model m) o).2.
Proof.
  intros Hm Ho. destruct o as [k|k v|k v|k|n|]; simpl in *.
  - split_and!; [done|done|]. by rewrite find_correct.
  - unfold insert_or_assign. destruct (emplace_ok m k v true Hm Ho) as (Hi & Hmod & Hb).
    destruct (emplace m k v true). simpl in *. rewrite Hb. split_and!; [done| |done].
    rewrite Hmod. by case_match.
  - unfold insert_if_absent. destruct (emplace_ok m k v false Hm Ho) as (Hi & Hmod & Hb).
    destruct (emplace m k v false). simpl in *. by rewrite Hb.
  - destruct (erase_ok m k Hm Ho) as (Hi & Hmod & Hb). destruct (erase m k). simpl in *. by rewrite Hb.
  - by destruct (reserve_ok m n Hm).
  - by destruct (clear_ok m Hm).
Qed.

Lemma flat_run_refines m ops : map_inv m → Forall op_key_ok ops →
  map_inv (run flat_step m ops).1 ∧ model (run flat_step m ops).1 = (run spec_step (model m) ops).1
  ∧ (run flat_step m ops).2 = (run spec_step (model m) ops).2.
Proof.
  intros Hm Hops. revert m Hm. induction Hops as [|o ops Ho Hops IH]; intros m Hm; [done|]. simpl.
  destruct (flat_step_refines m o Hm Ho) as (Hi & Hmod & Hr).
  destruct (flat_step m o) as [m' r], (spec_step (model m) o) as [g' r']. simpl in *. subst.
  destruct (IH m' Hi) as (? & ? & ?).
  destruct (run flat_step m' ops), (run spec_step (model m') ops). simpl in *. by subst.
Qed.

(** C12: [U64Map] is a finite map.  Any sequence of finds, inserts, erases,
    reserves and clears starting from a new table returns, call for call, what
    a mathematical map would, through every growth, tombstone and rehash. *)
Theorem flat_map_refines_gmap ops :
  Forall op_key_ok ops →
  (run flat_step map_new ops).2 = (run spec_step (∅ : gmap Z Z) ops).2
  ∧ model (run flat_step map_new ops).1 = (run spec_step ∅ ops).1.
Proof.
  intros Hops. destruct new_ok as [Hi Hm].
  destruct (flat_run_refines map_new ops Hi Hops) as (_ & H1 & H2). by rewrite Hm in H1, H2.
Qed.

Lemma flat_map_refines_gmap_witness :
  let ops := [OpAssign 7 1; OpAbsent 7 2; OpFind 7; OpErase 7; OpFind 7; OpAbsent 7 3; OpFind 7] in
  (run flat_step map_new ops).2
  = [inr true; inr false; inl (Some 1); inr true; inl None; inr true; inl (Some 3)]
  ∧ (run flat_step map_new ops).2 = (run spec_step (∅ : gmap Z Z) ops).2.
Proof.
  split; [vm_compute; reflexivity|].
  apply flat_map_refines_gmap. repeat constructor; vm_compute; intuition congruence.
Defined.

(** No probe runs forever.  In every table reachable by the operations,
    the [for (;;)] loops of [find]/[erase] and of [emplace] stop within one
    pass over the table, and at most three quarters of it are in use. *)
Theorem probes_terminate ops k :
  Forall op_key_ok ops → map_key k →
  let m := (run flat_step map_new ops).1 in
  (used_ m * 4 <= length (slots_ m) * 3)%nat
  ∧ (slots_ m ≠ [] → find_loop (length (slots_ m)) (slots_ m) k (home k (length (slots_ m))) ≠ None)
  ∧ let g := grow_if_needed m in
    emplace_loop (length (slots_ g)) (slots_ g) k None (home k (length (slots_ g))) ≠ None.
Proof.
  intros Hops Hk m. destruct (flat_run_refines map_new ops (proj1 new_ok) Hops) as (Hm & _).
  fold m in Hm.
  assert (Hhit : ∀ s, table_ok s → ∃ d, first_hit s k (λ z, z = k ∨ z = kEmpty) d)
    by (intros s Hs; apply first_hit_exists; [apply _|done|by right]).
  split; [apply Hm|split].
  - intros Hnil. destruct (inv_table m Hm) as [?|[_ Hs]]; [done|]. destruct (Hhit _ Hs) as [d Hd].
    rewrite <- (at_dist_0 (slots_ m) k Hs) by apply Hk.
    by rewrite (find_loop_hit _ _ d) by (done || lia || (destruct Hd; lia)).
  - intros g. destruct (grow_inv m Hm) as (Hg & _ & Hnil & _). fold g in Hg, Hnil.
    destruct (inv_table g Hg) as [?|[_ Hs]]; [done|]. destruct (Hhit _ Hs) as [d Hd].
    rewrite <- (at_dist_0 (slots_ g) k Hs) by apply Hk.
    pose proof (emplace_loop_hit (slots_ g) k d (length (slots_ g)) 0 None Hs
      (proj2 (live_not_empty k (proj2 Hk))) Hd ltac:(lia) ltac:(destruct Hd; lia) ltac:(done)) as Hl.
    case_match; [by rewrite Hl|]. by destruct Hl as (? & -> & _).
Qed.

Lemma probes_terminate_witness :
  let m := (run flat_step map_new [OpAssign 5 1; OpErase 5]).1 in
  (used_ m * 4 <= length (slots_ m) * 3)%nat
  ∧ (slots_ m ≠ [] → find_loop (length (slots_ m)) (slots_ m) 9 (home 9 (length (slots_ m))) ≠ None)
  ∧ let g := grow_if_needed m in
    emplace_loop (length (slots_ g)) (slots_ g) 9 None (home 9 (length (slots_ g))) ≠ None.
Proof.
  apply probes_terminate; [repeat constructor; vm_compute; intuition congruence|].
  vm_compute. intuition congruence.
Defined.
