(* ===== verification/Path.v ===== *)
(** * Path keys ([core/path.hpp], [core/path.cpp])

    Normalisation of relative paths, the parent/leaf split and the ancestor
    test, against the list of components a path denotes. *)

From S2P Require Import Prelude.

Definition c_slash : byte := 47.      (* '/' *)
Definition c_backslash : byte := 92.  (* '\' *)
Definition c_dot : byte := 46.        (* '.' *)

Definition is_path_separator (c : byte) : bool := (c =? c_slash) || (c =? c_backslash).

(** [while (i < n && is_path_separator(in[i])) ++i;] on the bytes from [i] on. *)
Fixpoint skip_seps (s : bytes) : bytes :=
  match s with
  | c :: s' => if is_path_separator c then skip_seps s' else s
  | [] => []
  end.

(** [while (j < n && !is_path_separator(in[j])) ++j;]: the component and the rest. *)
Fixpoint span_comp (s : bytes) : bytes * bytes :=
  match s with
  | c :: s' => if is_path_separator c then ([], s) else let '(a, b) := span_comp s' in (c :: a, b)
  | [] => ([], [])
  end.

(** The [comp] of each round of the scanning loop that [normalize_path_append],
    [MetadataTree::lookup] and [MetadataTree::ensure_directory_path] share. *)
Fixpoint scan_loop (fuel : nat) (s : bytes) : list bytes :=
  match fuel, s with
  | S fuel, _ :: _ => let '(comp, rest) := span_comp (skip_seps s) in comp :: scan_loop fuel rest
  | _, _ => []
  end.
Definition scan (s : bytes) : list bytes := scan_loop (length s) s.

(** [comp.empty() || comp == "."] *)
Definition skipped (comp : bytes) : bool := bool_decide (comp = []) || bool_decide (comp = [c_dot]).

(** One round of [normalize_path_append]; [start] is [out.size()] on entry. *)
Definition normalize_step (start : nat) (out comp : bytes) : bytes :=
  if skipped comp then out
  else (if (start <? length out)%nat then out ++ [c_slash] else out) ++ comp.

Definition normalize_path_append (inp out : bytes) : bytes :=
  foldl (normalize_step (length out)) out (scan inp).

Definition normalize_path (inp : bytes) : bytes := normalize_path_append inp [].

(** [path.rfind('/')] with the two substrings it delimits. *)
Fixpoint rsplit (s : bytes) : option (bytes * bytes) :=
  match s with
  | [] => None
  | c :: s' =>
      match rsplit s' with
      | Some (a, b) => Some (c :: a, b)
      | None => if c =? c_slash then Some ([], s') else None
      end
  end.

Definition split_parent (path : bytes) : bytes * bytes :=
  match rsplit path with None => ([], path) | Some (a, b) => (a, b) end.

Definition path_is_under (child parent : bytes) : bool :=
  if bool_decide (parent = []) then true
  else if (length child <? length parent)%nat then false
  else if negb (bool_decide (take (length parent) child = parent)) then false
  else (length child =? length parent)%nat || (child !!! length parent =? c_slash).

(** ** Components *)

(** The components a path denotes: what the scanning loop keeps. *)
Definition components (s : bytes) : list bytes := filter (λ c, skipped c = false) (scan s).

(** Components joined with '/'. *)
Fixpoint join (cs : list bytes) : bytes :=
  match cs with
  | [] => []
  | [c] => c
  | c :: cs => c ++ c_slash :: join cs
  end.

(** A component: no separator inside, not empty, not ".". *)
Definition comp_ok (c : bytes) : Prop :=
  skipped c = false ∧ Forall (λ b, is_path_separator b = false) c.

(** A normalised path. *)
Definition normalized (p : bytes) : Prop := ∃ cs, Forall comp_ok cs ∧ p = join cs.

(** ** The scan *)

Lemma sep_slash : is_path_separator c_slash = true.
Proof. done. Qed.

Lemma span_comp_spec s :
  let '(c, r) := span_comp s in
  s = c ++ r ∧ Forall (λ b, is_path_separator b = false) c
  ∧ (r = [] ∨ ∃ b r', r = b :: r' ∧ is_path_separator b = true).
Proof.
  induction s as [|b s IH]; simpl; [by auto|].
  destruct (is_path_separator b) eqn:Hb; [by eauto 10|].
  destruct (span_comp s) as [c r]. destruct IH as (-> & Hc & Hr). by auto.
Qed.

Lemma skip_seps_length s : (length (skip_seps s) <= length s)%nat.
Proof. induction s as [|b s IH]; simpl; [done|]. case_match; simpl; lia. Qed.

Lemma span_comp_length s : (length (span_comp s).2 <= length s)%nat.
Proof. induction s as [|b s IH]; simpl; [done|]. case_match; [done|]. destruct (span_comp s); simpl in *; lia. Qed.

(** A round consumes at least one byte. *)
Lemma scan_round_length c s : (length (span_comp (skip_seps (c :: s))).2 <= length s)%nat.
Proof.
  simpl. destruct (is_path_separator c) eqn:Hc.
  - etrans; [apply span_comp_length|apply skip_seps_length].
  - simpl. rewrite Hc. destruct (span_comp s) as [a b] eqn:E. simpl.
    pose proof (span_comp_length s) as Hl. by rewrite E in Hl.
Qed.

(** More fuel than bytes changes nothing. *)
Lemma scan_loop_fuel fuel fuel' s :
  (length s <= fuel)%nat → (length s <= fuel')%nat → scan_loop fuel s = scan_loop fuel' s.
Proof.
  revert fuel' s. induction fuel as [|fuel IH]; intros fuel' s Hf Hf'.
  - destruct s; simpl in Hf; [by destruct fuel'|lia].
  - destruct s as [|c s]; [by destruct fuel'|]. destruct fuel' as [|fuel']; simpl in Hf'; [lia|].
    cbn [scan_loop]. pose proof (scan_round_length c s) as Hr.
    destruct (span_comp (skip_seps (c :: s))) as [a r]. simpl in *. f_equal. apply IH; lia.
Qed.

Lemma scan_cons c s :
  scan (c :: s) = let '(comp, rest) := span_comp (skip_seps (c :: s)) in comp :: scan rest.
Proof.
  unfold scan at 1. cbn [length scan_loop]. pose proof (scan_round_length c s) as Hr.
  destruct (span_comp (skip_seps (c :: s))) as [a r]. simpl in Hr. f_equal.
  by apply scan_loop_fuel.
Qed.

Lemma scan_comps s : Forall (λ c, Forall (λ b, is_path_separator b = false) c) (scan s).
Proof.
  unfold scan. generalize (length s) at 1. intros fuel. revert s.
  induction fuel as [|fuel IH]; intros [|c s]; simpl; try constructor.
  pose proof (span_comp_spec (if is_path_separator c then skip_seps s else c :: s)) as Hs.
  destruct (span_comp _) as [a r]. destruct Hs as (_ & Ha & _). by constructor.
Qed.

Lemma components_ok s : Forall comp_ok (components s).
Proof.
  unfold components. apply Forall_forall. intros c [Hs Hc]%list_elem_of_filter.
  split; [done|]. pose proof (scan_comps s) as H. rewrite Forall_forall in H. by apply H.
Qed.

(** ** Normalisation is join after components *)

Lemma skipped_nil c : skipped c = false → c ≠ [].
Proof. unfold skipped. intros H ->. done. Qed.

Lemma scan_slash s : s ≠ [] → scan (c_slash :: s) = scan s.
Proof. intros Hs. destruct s as [|c s]; [done|]. rewrite !scan_cons. done. Qed.

Lemma span_comp_app c r :
  Forall (λ b, is_path_separator b = false) c → span_comp (c ++ c_slash :: r) = (c, c_slash :: r).
Proof. induction 1 as [|b c Hb _ IH]; simpl; [done|]. by rewrite Hb, IH. Qed.

Lemma span_comp_all c : Forall (λ b, is_path_separator b = false) c → span_comp c = (c, []).
Proof. induction 1 as [|b c Hb _ IH]; simpl; [done|]. by rewrite Hb, IH. Qed.

Lemma skip_seps_comp c r : comp_ok c → skip_seps (c ++ r) = c ++ r.
Proof.
  intros [Hn%skipped_nil Hc]. destruct c as [|b c]; [done|]. simpl.
  inversion Hc as [|? ? Hb ?]. by rewrite Hb.
Qed.

Lemma scan_join cs : Forall comp_ok cs → scan (join cs) = cs.
Proof.
  induction 1 as [|c cs Hc Hcs IH]; [done|].
  pose proof (skipped_nil _ (proj1 Hc)) as Hn.
  destruct cs as [|c' cs].
  - cbn [join]. destruct c as [|b c]; [done|]. rewrite scan_cons.
    rewrite <- (app_nil_r (b :: c)), skip_seps_comp, app_nil_r, span_comp_all by (done || apply Hc). done.
  - set (r := c_slash :: join (c' :: cs)). change (scan (c ++ r) = c :: c' :: cs).
    assert (scan (c ++ r) = c :: scan r) as ->.
    { destruct c as [|b c]; [done|]. cbn [app]. rewrite scan_cons.
      change (b :: c ++ r) with ((b :: c) ++ r). rewrite skip_seps_comp by done.
      unfold r. by rewrite span_comp_app by apply Hc. }
    unfold r. rewrite scan_slash, IH; [done|].
    inversion Hcs as [|? ? [Hn'%skipped_nil _] _]; subst. destruct c'; [done|]. by destruct cs.
Qed.

Lemma components_join cs : Forall comp_ok cs → components (join cs) = cs.
Proof.
  intros H. unfold components. rewrite scan_join by done.
  induction H as [|c cs [Hc _] _ IH]; [done|]. rewrite filter_cons_True by done. by rewrite IH.
Qed.

Lemma foldl_skipped start out cs :
  foldl (normalize_step start) out cs
  = foldl (normalize_step start) out (filter (λ c, skipped c = false) cs).
Proof.
  revert out. induction cs as [|c cs IH]; intros out; [done|]. rewrite filter_cons. simpl.
  case_decide as Hc; simpl; rewrite IH; [done|]. unfold normalize_step at 2.
  by rewrite (not_false_is_true _ Hc).
Qed.

Lemma foldl_tail start out cs :
  (start < length out)%nat → Forall (λ c, skipped c = false) cs →
  foldl (normalize_step start) out cs = match cs with [] => out | _ => out ++ c_slash :: join cs end.
Proof.
  intros Hs H. revert out Hs. induction H as [|c cs Hc _ IH]; intros out Hs; [done|].
  cbn [foldl]. unfold normalize_step at 2. rewrite Hc, (proj2 (Nat.ltb_lt _ _) Hs).
  rewrite IH by (rewrite !length_app; lia).
  destruct cs; cbn [join]; by rewrite <- ?app_assoc.
Qed.

Lemma normalize_path_append_eq s out : normalize_path_append s out = out ++ join (components s).
Proof.
  unfold normalize_path_append. rewrite foldl_skipped. fold (components s).
  pose proof (components_ok s) as H. destruct (components s) as [|c cs]; [by rewrite app_nil_r|].
  inversion H as [|? ? [Hc _] Hcs]; subst. cbn [foldl]. unfold normalize_step at 2.
  rewrite Hc, Nat.ltb_irrefl. pose proof (skipped_nil _ Hc) as Hn.
  rewrite foldl_tail.
  - destruct cs; cbn [join]; by rewrite <- ?app_assoc.
  - rewrite length_app. destruct c; [done|]. simpl. lia.
  - eapply Forall_impl; [done|]. by intros ? [].
Qed.

Lemma normalize_path_eq s : normalize_path s = join (components s).
Proof. apply normalize_path_append_eq. Qed.

Lemma normalize_path_normalized s : normalized (normalize_path s).
Proof. rewrite normalize_path_eq. eexists. split; [apply components_ok|done]. Qed.

Lemma normalized_id p : normalized p → normalize_path p = p.
Proof. intros (cs & Hcs & ->). by rewrite normalize_path_eq, components_join. Qed.

(** ** Splitting and the ancestor test *)

Lemma rsplit_none s : Forall (λ b, is_path_separator b = false) s → rsplit s = None.
Proof.
  induction 1 as [|b s Hb _ IH]; simpl; [done|]. rewrite IH.
  unfold is_path_separator in Hb. by apply orb_false_iff in Hb as [-> _].
Qed.

Lemma rsplit_app a b : Forall (λ b, is_path_separator b = false) b → rsplit (a ++ c_slash :: b) = Some (a, b).
Proof. intros Hb. induction a as [|c a IH]; simpl; [by rewrite rsplit_none|]. by rewrite IH. Qed.

Lemma join_snoc cs c : cs ≠ [] → join (cs ++ [c]) = join cs ++ c_slash :: c.
Proof.
  induction cs as [|d cs IH]; intros; [done|]. destruct cs as [|e cs]; [done|].
  cbn [app join] in *. rewrite IH by done. by rewrite <- app_assoc.
Qed.

Lemma split_parent_join cs c :
  Forall comp_ok cs → comp_ok c → split_parent (join (cs ++ [c])) = (join cs, c).
Proof.
  intros _ [_ Hc]. unfold split_parent. destruct (decide (cs = [])) as [->|Hn].
  - simpl. by rewrite rsplit_none.
  - by rewrite join_snoc, rsplit_app.
Qed.

(** A component followed by '/' or the end determines where it ends. *)
Lemma join_prefix_inv ps cs r :
  Forall comp_ok ps → Forall comp_ok cs → ps ≠ [] →
  join cs = join ps ++ r → (r = [] ∨ ∃ r', r = c_slash :: r') → ps `prefix_of` cs.
Proof.
  intros Hps Hcs Hn He Hr.
  assert (scan (join cs) = scan (join ps ++ r)) as Hs by by rewrite He.
  rewrite scan_join in Hs by done. destruct Hr as [->|[r' ->]].
  { rewrite app_nil_r, scan_join in Hs by done. by subst. }
  clear He Hcs. revert cs Hs. induction Hps as [|p ps Hp Hps IH]; intros cs Hs; [done|].
  pose proof (skipped_nil _ (proj1 Hp)) as Hpn.
  assert (∀ x, scan (p ++ c_slash :: x) = p :: scan (c_slash :: x)) as Hscan.
  { intros x. destruct p as [|b p]; [done|]. cbn [app]. rewrite scan_cons.
    change (b :: p ++ c_slash :: x) with ((b :: p) ++ c_slash :: x). rewrite skip_seps_comp by done.
    by rewrite span_comp_app by apply Hp. }
  destruct ps as [|p' ps]; cbn [join] in Hs.
  - rewrite Hscan in Hs. subst cs. by exists (scan (c_slash :: r')).
  - rewrite <- app_assoc in Hs. cbn [app] in Hs. rewrite Hscan in Hs. subst cs.
    apply prefix_cons. apply IH; [done|]. rewrite scan_slash; [done|].
    inversion Hps as [|? ? [Hn'%skipped_nil _] _]; subst. destruct p'; [done|]. by destruct ps.
Qed.

Lemma join_app ps rs : ps ≠ [] → rs ≠ [] → join (ps ++ rs) = join ps ++ c_slash :: join rs.
Proof.
  induction ps as [|p ps IH]; intros Hp Hr; [done|]. destruct ps as [|p' ps].
  - by destruct rs.
  - cbn [app join] in *. rewrite IH by done. by rewrite <- app_assoc.
Qed.

Lemma path_is_under_app child parent :
  path_is_under child parent = true ↔
  parent = [] ∨ ∃ r, child = parent ++ r ∧ (r = [] ∨ ∃ r', r = c_slash :: r').
Proof.
  unfold path_is_under. case_bool_decide as He; [by split; auto|].
  destruct (Nat.ltb_spec (length child) (length parent)) as [Hl|Hl].
  { split; [done|]. intros [?|(r & -> & _)]; [done|]. rewrite length_app in Hl. lia. }
  case_bool_decide as Ht; simpl.
  - rewrite <- (take_drop (length parent) child), Ht. set (r := drop (length parent) child).
    rewrite length_app, lookup_total_app_r, Nat.sub_diag by lia. split.
    + intros [H|H]%orb_true_iff; right; exists r.
      * apply Nat.eqb_eq in H. split; [done|]. left. by apply length_zero_iff_nil; lia.
      * split; [done|]. destruct r as [|b r]; [by left|]. right. apply Z.eqb_eq in H.
        simpl in H. subst b. eauto.
    + intros [?|(r0 & Hr & Hr')]; [done|]. apply app_inv_head in Hr. rewrite Hr.
      destruct Hr' as [->|[r' ->]]; apply orb_true_iff; [left|right; done].
      apply Nat.eqb_eq. simpl. lia.
  - split; [done|]. intros [?|(r & -> & _)]; [done|]. by rewrite take_app_length in Ht.
Qed.

(** Normalisation is a retraction onto the normalised paths: its result is
    the '/'-joined list of the input's components (no empty or "." component,
    no separator inside one), whatever [out] already held is kept in front of
    it, and normalising a result again changes nothing. *)
Theorem normalize_path_retraction s out :
  normalize_path_append s out = out ++ join (components s)
  ∧ normalized (normalize_path s)
  ∧ normalize_path (normalize_path s) = normalize_path s
  ∧ components (normalize_path s) = components s.
Proof.
  split_and!.
  - apply normalize_path_append_eq.
  - apply normalize_path_normalized.
  - apply normalized_id, normalize_path_normalized.
  - rewrite normalize_path_eq. apply components_join, components_ok.
Qed.

(** On normalised paths [path_is_under] decides the prefix order on
    component lists ("a/b" is under "a", "ab" is not), and [split_parent]
    separates the last component. *)
Theorem path_is_under_prefix ps cs c :
  Forall comp_ok ps → Forall comp_ok cs → comp_ok c →
  (path_is_under (join cs) (join ps) = true ↔ ps `prefix_of` cs)
  ∧ split_parent (join (cs ++ [c])) = (join cs, c).
Proof.
  intros Hp Hc Hl. split; [|by apply split_parent_join]. rewrite path_is_under_app. split.
  - intros [He|(r & He & Hr)].
    + rewrite <- (components_join ps), He by done. apply prefix_nil.
    + destruct (decide (ps = [])) as [->|Hn]; [apply prefix_nil|]. by eapply join_prefix_inv.
  - intros [rs ->]. destruct (decide (ps = [])) as [->|Hn]; [by left|]. right.
    destruct (decide (rs = [])) as [->|Hr].
    + exists []. rewrite !app_nil_r. auto.
    + exists (c_slash :: join rs). split; [by apply join_app|]. eauto.
Qed.

Lemma path_is_under_prefix_witness :
  path_is_under (str "a/b") (str "a") = true ∧ split_parent (str "a/b/c") = (str "a/b", str "c").
Proof.
  pose proof (path_is_under_prefix [str "a"] [str "a"; str "b"] (str "c")) as H.
  destruct H as [H1 H2]; [by repeat constructor..|].
  split; [apply H1; by exists [str "b"]|exact H2].
Defined.
