(* ===== verification/Unicode.v ===== *)
(** * UTF-8 and case folding ([core/unicode.cpp])

    The decoder and encoder of one code point, the simple case folding of a
    code point and of a name, as the case-insensitive index of the tree uses
    it. *)

From S2P Require Import Prelude.

(** [for (k = 1; k < len; ++k)]: the continuation bytes folded into [cp]. *)
Fixpoint decode_cont (n : nat) (s : bytes) (cp : Z) : option (Z * bytes) :=
  match n, s with
  | O, _ => Some (cp, s)
  | S n, b :: s' =>
      if negb (Z.land b 0xC0 =? 0x80) then None
      else decode_cont n s' (Z.lor (Z.shiftl cp 6) (Z.land b 0x3F))
  | S _, [] => None
  end.

(** Overlong encodings, surrogates and values past U+10FFFF. *)
Definition rejected (len : nat) (cp : Z) : bool :=
  ((len =? 2)%nat && (cp <? 0x80)) || ((len =? 3)%nat && (cp <? 0x800))
  || ((len =? 4)%nat && (cp <? 0x10000)) || (cp >? 0x10FFFF)
  || ((cp >=? 0xD800) && (cp <=? 0xDFFF)).

(** The tail of [decode_utf8] past the lead byte: [s'] holds the bytes after it. *)
Definition decode_multi (len : nat) (s' : bytes) (cp : Z) : option (Z * bytes) :=
  if (S (length s') <? len)%nat then None
  else match decode_cont (len - 1) s' cp with
       | None => None
       | Some (cp, rest) => if rejected len cp then None else Some (cp, rest)
       end.

(** [decode_utf8] at [in[i]]: [s] holds the bytes from [i] on, the result the
    code point and the bytes from the advanced [i] on. *)
Definition decode_utf8 (s : bytes) : option (Z * bytes) :=
  match s with
  | [] => None
  | b0 :: s' =>
      if b0 <? 0x80 then Some (b0, s')
      else if Z.land b0 0xE0 =? 0xC0 then decode_multi 2 s' (Z.land b0 0x1F)
      else if Z.land b0 0xF0 =? 0xE0 then decode_multi 3 s' (Z.land b0 0x0F)
      else if Z.land b0 0xF8 =? 0xF0 then decode_multi 4 s' (Z.land b0 0x07)
      else None
  end.

(** [static_cast<char>(v)] *)
Definition to_byte (v : Z) : byte := wrap 8 v.

Definition encode_utf8 (cp : Z) : bytes :=
  if cp <? 0x80 then [to_byte cp]
  else if cp <? 0x800 then
    [to_byte (Z.lor 0xC0 (Z.shiftr cp 6)); to_byte (Z.lor 0x80 (Z.land cp 0x3F))]
  else if cp <? 0x10000 then
    [to_byte (Z.lor 0xE0 (Z.shiftr cp 12)); to_byte (Z.lor 0x80 (Z.land (Z.shiftr cp 6) 0x3F));
     to_byte (Z.lor 0x80 (Z.land cp 0x3F))]
  else
    [to_byte (Z.lor 0xF0 (Z.shiftr cp 18)); to_byte (Z.lor 0x80 (Z.land (Z.shiftr cp 12) 0x3F));
     to_byte (Z.lor 0x80 (Z.land (Z.shiftr cp 6) 0x3F)); to_byte (Z.lor 0x80 (Z.land cp 0x3F))].

Definition between (lo cp hi : Z) : bool := (lo <=? cp) && (cp <=? hi).

Definition casefold_codepoint (cp : Z) : Z :=
  if cp <? 0x80 then (if between 65 cp 90 then cp + 0x20 else cp)
  else if between 0xC0 cp 0xDE && negb (cp =? 0xD7) then cp + 0x20
  else if between 0x100 cp 0x17F then
    if cp =? 0x130 then 0x69
    else if cp =? 0x131 then 0x131
    else if cp =? 0x138 then 0x138
    else if cp =? 0x149 then 0x149
    else if cp =? 0x178 then 0xFF
    else if cp =? 0x17F then 0x73
    else if between 0x139 cp 0x148 || between 0x179 cp 0x17E then
      (if Z.odd cp then cp + 1 else cp)
    else if Z.odd cp then cp else cp + 1
  else if between 0x391 cp 0x3A9 && negb (cp =? 0x3A2) then cp + 0x20
  else if between 0x410 cp 0x42F then cp + 0x20
  else if between 0x400 cp 0x40F then cp + 0x50
  else cp.

Definition is_ascii (s : bytes) : bool := forallb (λ c, negb (c >=? 0x80)) s.

(** The loop of [casefold_append]; each round consumes a byte at least, so the
    length of the input is enough fuel ([casefold_unfold]). *)
Fixpoint casefold_loop (fuel : nat) (s : bytes) : bytes :=
  match fuel, s with
  | S fuel, b :: s' =>
      if b <? 0x80 then (if between 65 b 90 then b + 0x20 else b) :: casefold_loop fuel s'
      else match decode_utf8 s with
           | None => b :: casefold_loop fuel s'
           | Some (cp, rest) => encode_utf8 (casefold_codepoint cp) ++ casefold_loop fuel rest
           end
  | _, _ => []
  end.

Definition casefold_append (inp out : bytes) : bytes := out ++ casefold_loop (length inp) inp.
Definition casefold (inp : bytes) : bytes := casefold_append inp [].

(** Scalar values: what UTF-8 can carry. *)
Definition scalar (cp : Z) : Prop := 0 <= cp <= 0x10FFFF ∧ ¬ 0xD800 <= cp <= 0xDFFF.

(** ** The encoder is read back by the decoder *)

Definition is_cont (b : byte) : bool := Z.land b 0xC0 =? 0x80.

Lemma cont_byte v : to_byte (Z.lor 0x80 (Z.land v 0x3F)) = 0x80 + v mod 64
  ∧ Z.land (0x80 + v mod 64) 0xC0 = 0x80 ∧ Z.land (0x80 + v mod 64) 0x3F = v mod 64.
Proof.
  change 0x3F with (Z.ones 6). rewrite Z.land_ones by lia. change (2 ^ 6) with 64.
  pose proof (Z.mod_pos_bound v 64 ltac:(lia)) as Hm. revert Hm. generalize (v mod 64). intros m Hm.
  pose proof (forall_below_spec 64 (λ m, (to_byte (Z.lor 0x80 m) =? 0x80 + m)
    && (Z.land (0x80 + m) 0xC0 =? 0x80) && (Z.land (0x80 + m) (Z.ones 6) =? m)) eq_refl m Hm) as H.
  simpl in H. b2p. auto.
Qed.

(** The lead byte of each length, and the branch the decoder takes on it. *)
Definition lead_len (b : Z) : nat * Z :=
  if b <? 0x80 then (1%nat, b) else if Z.land b 0xE0 =? 0xC0 then (2%nat, Z.land b 0x1F)
  else if Z.land b 0xF0 =? 0xE0 then (3%nat, Z.land b 0x0F)
  else if Z.land b 0xF8 =? 0xF0 then (4%nat, Z.land b 0x07) else (0%nat, 0).

Lemma decode_lead b s len cp : lead_len b = (len, cp) → (2 <= len)%nat →
  decode_utf8 (b :: s) = decode_multi len s cp.
Proof. unfold lead_len, decode_utf8. intros H Hl. repeat case_match; simplify_eq; lia || done. Qed.

Lemma lead_byte (base : Z) (len n : nat) q :
  forall_below n (λ q, (to_byte (Z.lor base q) =? base + q)
                       && bool_decide (lead_len (base + q) = (len, q))) = true →
  0 <= q < Z.of_nat n →
  to_byte (Z.lor base q) = base + q ∧ lead_len (base + q) = (len, q).
Proof. intros H Hq. pose proof (forall_below_spec n _ H q Hq) as Hp. simpl in Hp. b2p. auto. Qed.

Lemma decode_cont_step n s cp m v : v mod 64 = m →
  decode_cont (S n) (0x80 + m :: s) cp = decode_cont n s (cp * 64 + m).
Proof.
  intros <-. destruct (cont_byte v) as (_ & H1 & H2). cbn [decode_cont]. rewrite H1, H2. simpl negb. cbv iota.
  rewrite lor_add by (pose proof (Z.mod_pos_bound v 64); lia). done.
Qed.

Lemma not_rejected len cp : scalar cp →
  match len with 2%nat => 0x80 <= cp | 3%nat => 0x800 <= cp | 4%nat => 0x10000 <= cp | _ => True end →
  rejected len cp = false.
Proof.
  intros [H1 H2] H. unfold rejected.
  destruct (Z.gtb_spec cp 0x10FFFF); [lia|].
  destruct (Z.geb_spec cp 0xD800), (Z.leb_spec cp 0xDFFF); try lia;
  destruct len as [|[|[|[|[|]]]]]; simpl; try done; rewrite !orb_false_r; apply Z.ltb_ge; lia.
Qed.

Lemma decode_multi_ok len s cp cp' rest :
  (len <= S (length s))%nat → decode_cont (len - 1) s cp = Some (cp', rest) → rejected len cp' = false →
  decode_multi len s cp = Some (cp', rest).
Proof.
  intros Hl Hc Hr. unfold decode_multi. rewrite Hc, Hr.
  by destruct (Nat.ltb_spec (S (length s)) len); [lia|].
Qed.

Lemma decode_encode_utf8 cp rest : scalar cp → decode_utf8 (encode_utf8 cp ++ rest) = Some (cp, rest).
Proof.
  intros Hs. pose proof Hs as [Hr Hsur]. unfold encode_utf8.
  pose proof (Z.div_mod cp 64 ltac:(lia)) as D1.
  pose proof (Z.div_mod (cp / 64) 64 ltac:(lia)) as D2.
  pose proof (Z.div_mod (cp / 64 / 64) 64 ltac:(lia)) as D3.
  assert (Z.shiftr cp 6 = cp / 64) as S1 by by rewrite Z.shiftr_div_pow2.
  assert (Z.shiftr cp 12 = cp / 64 / 64) as S2 by (rewrite Z.shiftr_div_pow2, Z.div_div; done || lia).
  assert (Z.shiftr cp 18 = cp / 64 / 64 / 64) as S3 by (rewrite Z.shiftr_div_pow2, !Z.div_div; done || lia).
  pose proof (Z.mod_pos_bound cp 64 ltac:(lia)). pose proof (Z.mod_pos_bound (cp / 64) 64 ltac:(lia)).
  pose proof (Z.mod_pos_bound (cp / 64 / 64) 64 ltac:(lia)).
  destruct (Z.ltb_spec cp 0x80) as [G1|G1].
  { simpl. unfold to_byte. rewrite wrap_id by lia. by rewrite (proj2 (Z.ltb_lt _ _) G1). }
  rewrite S1, S2, S3, !(proj1 (cont_byte _)).
  destruct (Z.ltb_spec cp 0x800) as [G2|G2]; [|destruct (Z.ltb_spec cp 0x10000) as [G3|G3]].
  - destruct (lead_byte 0xC0 2 32 (cp / 64) eq_refl) as [-> Hl]; [lia|].
    cbn [app]. rewrite (decode_lead _ _ _ _ Hl) by lia.
    apply decode_multi_ok; [simpl; lia| |by apply not_rejected].
    cbn [Nat.sub]. erewrite !decode_cont_step by done. cbn [decode_cont]. do 2 f_equal. lia.
  - destruct (lead_byte 0xE0 3 16 (cp / 64 / 64) eq_refl) as [-> Hl]; [lia|].
    cbn [app]. rewrite (decode_lead _ _ _ _ Hl) by lia.
    apply decode_multi_ok; [simpl; lia| |by apply not_rejected].
    cbn [Nat.sub]. erewrite !decode_cont_step by done. cbn [decode_cont]. do 2 f_equal. lia.
  - destruct (lead_byte 0xF0 4 8 (cp / 64 / 64 / 64) eq_refl) as [-> Hl]; [lia|].
    cbn [app]. rewrite (decode_lead _ _ _ _ Hl) by lia.
    apply decode_multi_ok; [simpl; lia| |by apply not_rejected].
    cbn [Nat.sub]. erewrite !decode_cont_step by done. cbn [decode_cont]. do 2 f_equal. lia.
Qed.

(** ** Folding *)

Lemma decode_cont_inv n s cp cp' rest :
  0 <= cp → decode_cont n s cp = Some (cp', rest) → 0 <= cp' ∧ rest `suffix_of` s.
Proof.
  revert s cp. induction n as [|n IH]; intros s cp Hcp; [by intros [= -> ->]|].
  destruct s as [|b s]; [done|]. cbn [decode_cont]. case_match; [done|]. intros H'.
  apply IH in H' as [? ?]; [by split; [|apply suffix_cons_r]|].
  rewrite Z.lor_nonneg, Z.shiftl_nonneg, Z.land_nonneg. lia.
Qed.

Lemma decode_multi_inv len s cp cp' rest :
  0 <= cp → decode_multi len s cp = Some (cp', rest) → scalar cp' ∧ rest `suffix_of` s.
Proof.
  intros Hcp. unfold decode_multi. case_match; [done|].
  destruct (decode_cont _ _ _) as [[c r]|] eqn:E; [|done]. destruct (rejected len c) eqn:R; [done|].
  intros [= <- <-]. apply decode_cont_inv in E as [Hc Hsuf]; [|done]. split; [|done].
  unfold rejected in R. apply orb_false_iff in R as [R1 R2]. b2p. split; [lia|]. intros Hs.
  apply andb_false_iff in R2 as [R2|R2]; b2p; lia.
Qed.

Lemma decode_utf8_inv b s cp rest :
  0 <= b → decode_utf8 (b :: s) = Some (cp, rest) → scalar cp ∧ rest `suffix_of` s.
Proof.
  intros Hb. unfold decode_utf8. destruct (Z.ltb_spec b 0x80).
  { intros [= <- <-]. split; [split; lia|done]. }
  repeat case_match; try done; apply decode_multi_inv; rewrite Z.land_nonneg; lia.
Qed.

Lemma bytes_ok_suffix s t : s `suffix_of` t → bytes_ok t → bytes_ok s.
Proof. intros [k ->]. rewrite bytes_ok_app. tauto. Qed.

Lemma casefold_loop_fuel fuel fuel' s : bytes_ok s →
  (length s <= fuel)%nat → (length s <= fuel')%nat → casefold_loop fuel s = casefold_loop fuel' s.
Proof.
  revert fuel' s. induction fuel as [|fuel IH]; intros fuel' s Hs Hf Hf'.
  - destruct s; simpl in Hf; [by destruct fuel'|lia].
  - destruct s as [|b s]; [by destruct fuel'|]. destruct fuel' as [|fuel']; simpl in Hf'; [lia|].
    cbn [casefold_loop]. inversion Hs as [|? ? Hb Hs']; subst. simpl in Hf.
    case_match; [f_equal; apply IH; done || lia|].
    destruct (decode_utf8 (b :: s)) as [[cp r]|] eqn:E; [|f_equal; apply IH; done || lia].
    pose proof (decode_utf8_inv b s cp r ltac:(zsolve) E) as [_ Hr].
    pose proof (suffix_length _ _ Hr). f_equal. apply IH; [by eapply bytes_ok_suffix|lia..].
Qed.

(** One round of folding, the fuel gone. *)
Lemma casefold_unfold b s : bytes_ok (b :: s) →
  casefold (b :: s) =
    if b <? 0x80 then (if between 65 b 90 then b + 0x20 else b) :: casefold s
    else match decode_utf8 (b :: s) with
         | None => b :: casefold s
         | Some (cp, rest) => encode_utf8 (casefold_codepoint cp) ++ casefold rest
         end.
Proof.
  intros Hs. unfold casefold, casefold_append. cbn [app length casefold_loop].
  case_match; [done|]. destruct (decode_utf8 (b :: s)) as [[cp r]|] eqn:E; [|done].
  inversion Hs as [|? ? Hb Hs']; subst.
  pose proof (decode_utf8_inv b s cp r ltac:(zsolve) E) as [_ Hr].
  pose proof (suffix_length _ _ Hr). f_equal.
  apply casefold_loop_fuel; [by eapply bytes_ok_suffix|lia..].
Qed.

Lemma casefold_codepoint_high cp : 0x500 <= cp → casefold_codepoint cp = cp.
Proof.
  intros Hc. unfold casefold_codepoint, between.
  repeat (case_match; b2p; try lia; try done).
Qed.

Lemma casefold_codepoint_spec cp : 0 <= cp →
  casefold_codepoint (casefold_codepoint cp) = casefold_codepoint cp
  ∧ (scalar cp → scalar (casefold_codepoint cp))
  ∧ (casefold_codepoint cp < 0x80 → between 65 (casefold_codepoint cp) 90 = false).
Proof.
  intros Hc. destruct (Z.ltb_spec cp 0x500) as [Hl|Hl].
  - pose proof (forall_below_spec 0x500 (λ cp, (casefold_codepoint (casefold_codepoint cp) =? casefold_codepoint cp)
      && between 0 (casefold_codepoint cp) 0x500
      && (negb (casefold_codepoint cp <? 0x80) || negb (between 65 (casefold_codepoint cp) 90))) eq_refl cp) as H.
    simpl in H. specialize (H ltac:(lia)). unfold between at 1 in H. b2p. split_and!; [done| |].
    + intros _. split; lia.
    + intros Hx. apply orb_true_iff in H0 as [H0|H0]; b2p; [lia|done].
  - rewrite !(casefold_codepoint_high cp) by lia. split_and!; [done..|intros; lia].
Qed.

(** The continuation bytes a string starts with, which is all the decoder can
    consume behind a lead byte. *)
Fixpoint cont_prefix (s : bytes) : bytes :=
  match s with b :: s => if is_cont b then b :: cont_prefix s else [] | [] => [] end.

Lemma decode_cont_prefix n s t cp : cont_prefix s = cont_prefix t →
  fst <$> decode_cont n s cp = fst <$> decode_cont n t cp.
Proof.
  revert s t cp. induction n as [|n IH]; intros s t cp H; [done|]. cbn [decode_cont].
  destruct s as [|b s], t as [|c t]; cbn [cont_prefix] in H; unfold is_cont in H; try done.
  - by destruct (Z.land c 0xC0 =? 0x80).
  - by destruct (Z.land b 0xC0 =? 0x80).
  - destruct (Z.land b 0xC0 =? 0x80), (Z.land c 0xC0 =? 0x80); simplify_eq; simpl; [by apply IH|done].
Qed.

Lemma decode_cont_short n s cp : (length s < n)%nat → decode_cont n s cp = None.
Proof.
  revert s cp. induction n as [|n IH]; intros s cp Hs; [lia|].
  destruct s as [|b s]; [done|]. cbn [decode_cont]. case_match; [done|]. apply IH. simpl in Hs. lia.
Qed.

Lemma decode_multi_prefix len s t cp : (1 <= len)%nat → cont_prefix s = cont_prefix t →
  decode_multi len s cp = None → decode_multi len t cp = None.
Proof.
  intros Hlen H. unfold decode_multi.
  pose proof (decode_cont_prefix (len - 1) s t cp H) as Hd.
  pose proof (decode_cont_short (len - 1) s cp) as Hs.
  destruct (decode_cont (len - 1) t cp) as [[c r]|]; [|by repeat case_match].
  destruct (decode_cont (len - 1) s cp) as [[c' r']|]; simplify_eq/=.
  destruct (Nat.ltb_spec (S (length s)) len); [specialize (Hs ltac:(lia)); done|].
  by destruct (rejected len c), (_ <? _)%nat.
Qed.

Lemma decode_utf8_prefix b s t : cont_prefix s = cont_prefix t →
  decode_utf8 (b :: s) = None → decode_utf8 (b :: t) = None.
Proof. intros H. unfold decode_utf8. repeat case_match; try done; apply decode_multi_prefix; done || lia. Qed.

Lemma decode_utf8_cont b s : byte_ok b → is_cont b = true → decode_utf8 (b :: s) = None ∧ 0x80 <= b.
Proof.
  intros Hb Hc.
  pose proof (forall_below_spec 256 (λ b, negb (is_cont b) || bool_decide (lead_len b = (0%nat, 0)) && (0x80 <=? b)) eq_refl b Hb) as H.
  simpl in H. rewrite Hc in H. simpl in H. b2p. split; [|done].
  unfold lead_len in H. unfold decode_utf8. by repeat case_match; simplify_eq.
Qed.

Lemma encode_utf8_head cp : ∃ b r, encode_utf8 cp = b :: r ∧ byte_ok b.
Proof. unfold encode_utf8, byte_ok. repeat case_match; (do 2 eexists; split; [done|apply (wrap_ok 8); lia]). Qed.

Lemma ascii_not_cont b : 0 <= b < 0x80 → is_cont b = false.
Proof. intros Hb. pose proof (forall_below_spec 128 (λ b, negb (is_cont b)) eq_refl b Hb) as H. simpl in H. by b2p. Qed.

Lemma cont_prefix_casefold s : bytes_ok s → cont_prefix (casefold s) = cont_prefix s.
Proof.
  induction s as [|b s IH]; intros Hs; [done|]. rewrite casefold_unfold by done.
  inversion Hs as [|? ? Hb Hs']; subst. destruct (is_cont b) eqn:Hc.
  { destruct (decode_utf8_cont b s Hb Hc) as [-> Hge]. rewrite (proj2 (Z.ltb_ge _ _) Hge).
    cbn [cont_prefix]. by rewrite Hc, IH. }
  cbn [cont_prefix]. rewrite Hc. destruct (Z.ltb_spec b 0x80).
  { cbn [cont_prefix]. rewrite ascii_not_cont; [done|].
    unfold byte_ok in Hb. unfold between. case_match; b2p; lia. }
  destruct (decode_utf8 (b :: s)) as [[cp r]|] eqn:E; [|cbn [cont_prefix]; by rewrite Hc].
  pose proof (decode_utf8_inv b s cp r ltac:(zsolve) E) as [Hcp _].
  destruct (encode_utf8_head (casefold_codepoint cp)) as (c & r' & He & Hcb). rewrite He. cbn [app cont_prefix].
  destruct (is_cont c) eqn:Hcc; [|done].
  pose proof (decode_encode_utf8 (casefold_codepoint cp) (casefold r)) as Hd.
  rewrite He in Hd. cbn [app] in Hd. rewrite (proj1 (decode_utf8_cont c _ Hcb Hcc)) in Hd.
  discriminate Hd. by apply casefold_codepoint_spec; [destruct Hcp; lia|].
Qed.

Lemma to_byte_ok v : byte_ok (to_byte v).
Proof. apply (wrap_ok 8); lia. Qed.

Lemma encode_utf8_ok cp : bytes_ok (encode_utf8 cp).
Proof. unfold encode_utf8. repeat case_match; repeat constructor; apply to_byte_ok. Qed.

(** Induction on a byte string along the rounds of folding. *)
Lemma casefold_ind (P : bytes → Prop) :
  P [] → (∀ b s, bytes_ok (b :: s) → (∀ r, r `suffix_of` s → P r) → P (b :: s)) →
  ∀ s, bytes_ok s → P s.
Proof.
  intros H0 HS s. remember (length s) as n eqn:Hn. revert s Hn.
  induction n as [n IH] using lt_wf_ind. intros [|b s] -> Hs; [done|]. apply HS; [done|].
  intros r Hr. inversion Hs; subst. eapply IH; [|done|by eapply bytes_ok_suffix].
  pose proof (suffix_length _ _ Hr). simpl. lia.
Qed.

Lemma casefold_ok s : bytes_ok s → bytes_ok (casefold s).
Proof.
  revert s. apply (casefold_ind (λ s, bytes_ok (casefold s))); [constructor|]. intros b s Hs' IH'.
  rewrite casefold_unfold by done. inversion Hs' as [|? ? Hb Hs]; subst.
  case_match.
  { constructor; [|by apply IH']. unfold between, byte_ok in *. case_match; b2p; lia. }
  destruct (decode_utf8 (b :: s)) as [[cp r]|] eqn:E; [|constructor; [done|by apply IH']].
  apply decode_utf8_inv in E as [_ Hr]; [|zsolve]. apply bytes_ok_app. split; [apply encode_utf8_ok|by apply IH'].
Qed.

(** Folding a code point encoded in front of folded bytes. *)
Lemma casefold_encode cp s : scalar cp → casefold_codepoint cp = cp → bytes_ok s →
  (cp < 0x80 → between 65 cp 90 = false) →
  casefold (encode_utf8 cp ++ s) = encode_utf8 cp ++ casefold s.
Proof.
  intros Hc Hf Hs Hu. pose proof (decode_encode_utf8 cp s Hc) as Hd.
  destruct (encode_utf8 cp) as [|b r] eqn:E; [by destruct (encode_utf8_head cp) as (?&?&?&_); simplify_eq|].
  assert (bytes_ok ((b :: r) ++ s)) as Hok by (apply bytes_ok_app; split; [rewrite <- E; apply encode_utf8_ok|done]).
  cbn [app] in *. rewrite casefold_unfold by done. destruct (Z.ltb_spec b 0x80) as [Hb|Hb].
  - unfold decode_utf8 in Hd. rewrite (proj2 (Z.ltb_lt _ _) Hb) in Hd. simplify_eq.
    assert (r = []) as -> by (apply (f_equal length) in H0; rewrite length_app in H0; destruct r; simpl in *; [done|lia]).
    by rewrite Hu.
  - by rewrite Hd, Hf, E.
Qed.

Lemma casefold_idemp s : bytes_ok s → casefold (casefold s) = casefold s.
Proof.
  revert s. apply (casefold_ind (λ s, casefold (casefold s) = casefold s)); [done|]. intros b s Hs' IH.
  rewrite (casefold_unfold b s) by done. inversion Hs' as [|? ? Hb Hs]; subst.
  assert (∀ r, r `suffix_of` s → bytes_ok r ∧ casefold (casefold r) = casefold r) as IH'.
  { intros r Hr. assert (bytes_ok r) by by eapply bytes_ok_suffix. auto. }
  destruct (IH' s ltac:(done)) as [_ IHs]. pose proof (casefold_ok s Hs) as Hcs.
  destruct (Z.ltb_spec b 0x80) as [Hlt|Hge].
  - set (b' := if between 65 b 90 then b + 0x20 else b).
    assert (0 <= b' < 0x80 ∧ between 65 b' 90 = false) as [Hb' Hn].
    { unfold b', byte_ok in *. destruct (between 65 b 90) eqn:E; [|by split; [lia|]]. unfold between in *. b2p.
      split; [lia|]. apply andb_false_iff. right. apply Z.leb_gt. lia. }
    rewrite casefold_unfold by (constructor; [unfold byte_ok; lia|done]).
    by rewrite (proj2 (Z.ltb_lt _ _) (proj2 Hb')), Hn, IHs.
  - destruct (decode_utf8 (b :: s)) as [[cp r]|] eqn:E.
    + apply decode_utf8_inv in E as [Hcp Hr]; [|zsolve].
      destruct (casefold_codepoint_spec cp) as (H1 & H2 & H3); [destruct Hcp; lia|].
      destruct (IH' r Hr) as [Hro IHr].
      rewrite casefold_encode by auto using casefold_ok. by rewrite IHr.
    + rewrite casefold_unfold by by constructor. rewrite (proj2 (Z.ltb_ge _ _) Hge).
      rewrite (decode_utf8_prefix b s (casefold s)), IHs; [done| |done].
      by rewrite cont_prefix_casefold.
Qed.

Lemma casefold_ascii s t : is_ascii s = true → bytes_ok (s ++ t) →
  casefold (s ++ t) = ((λ b, if between 65 b 90 then b + 0x20 else b) <$> s) ++ casefold t.
Proof.
  induction s as [|b s IH]; intros Ha Hs; [done|]. cbn [app fmap list_fmap] in *.
  rewrite casefold_unfold by done. unfold is_ascii in Ha. cbn [forallb] in Ha. b2p.
  rewrite (proj2 (Z.ltb_lt _ _)) by lia. rewrite IH; [done|done|by inversion Hs].
Qed.

(** The UTF-8 decoder reads back what the encoder writes, for every
    scalar value and whatever follows it in the buffer, and it only ever
    yields scalar values (no surrogate, nothing past U+10FFFF). *)
Theorem utf8_roundtrip cp rest s cp' r :
  scalar cp → bytes_ok s → decode_utf8 s = Some (cp', r) →
  decode_utf8 (encode_utf8 cp ++ rest) = Some (cp, rest)
  ∧ scalar cp' ∧ (length r < length s)%nat.
Proof.
  intros Hc Hs Hd. split; [by apply decode_encode_utf8|]. destruct s as [|b s]; [done|].
  inversion Hs as [|? ? Hb _]; subst. apply decode_utf8_inv in Hd as [? Hr]; [|zsolve].
  split; [done|]. pose proof (suffix_length _ _ Hr). simpl. lia.
Qed.

Lemma utf8_roundtrip_witness :
  decode_utf8 (encode_utf8 0x20AC ++ [65]) = Some (0x20AC, [65]).
Proof.
  apply (utf8_roundtrip 0x20AC [65] [0xC3; 0xA9] 0xE9 []).
  - vm_compute; intuition congruence.
  - apply (bool_decide_unpack _); vm_compute; exact I.
  - reflexivity.
Defined.

(** Folding a name never fails and is idempotent, on malformed UTF-8 too:
    a name and its folded form have the same folded form, so the key of the
    case-insensitive index is a function of the folding class.  On an ASCII
    prefix it lower-cases exactly the letters A-Z. *)
Theorem casefold_idempotent s t :
  bytes_ok (s ++ t) →
  casefold (casefold (s ++ t)) = casefold (s ++ t)
  ∧ bytes_ok (casefold (s ++ t))
  ∧ (is_ascii s = true →
     casefold (s ++ t) = ((λ b, if between 65 b 90 then b + 0x20 else b) <$> s) ++ casefold t).
Proof. intros Hs. split_and!; [by apply casefold_idemp|by apply casefold_ok|intros; by apply casefold_ascii]. Qed.

(** "Ab" followed by a lone lead byte, U+0130 and a stray continuation byte. *)
Lemma casefold_idempotent_witness :
  casefold (casefold (str "Ab" ++ [0xC3; 0xC4; 0xB0; 0x80])) = str "ab" ++ [0xC3; 0x69; 0x80].
Proof.
  destruct (casefold_idempotent (str "Ab") [0xC3; 0xC4; 0xB0; 0x80]) as (H & _ & _).
  - apply (bool_decide_unpack _); vm_compute; exact I.
  - rewrite H. reflexivity.
Defined.
