(* ===== verification/WinNames.v ===== *)
(** * Windows-safe names ([core/win_names.cpp])

    The mapping of raw POSIX names to names a Windows volume accepts, through
    the private-use range U+F000..U+F0FF, and back. *)

From S2P Require Import Prelude Unicode.

Definition is_reserved (b : byte) : bool :=
  match b with
  | 60 | 62 | 58 | 34 | 124 | 63 | 42 | 92 => true   (* < > : double-quote | ? * \ *)
  | _ => b <? 0x20
  end.

(** The encoder local to this file: up to three bytes. *)
Definition encode_utf8_3 (cp : Z) : bytes :=
  if cp <? 0x80 then [to_byte cp]
  else if cp <? 0x800 then
    [to_byte (Z.lor 0xC0 (Z.shiftr cp 6)); to_byte (Z.lor 0x80 (Z.land cp 0x3F))]
  else
    [to_byte (Z.lor 0xE0 (Z.shiftr cp 12)); to_byte (Z.lor 0x80 (Z.land (Z.shiftr cp 6) 0x3F));
     to_byte (Z.lor 0x80 (Z.land cp 0x3F))].

Definition dot_or_space (b : byte) : bool := (b =? 46) || (b =? 32).

Definition needs_escaping (raw : bytes) : bool :=
  existsb is_reserved raw || match last raw with Some b => dot_or_space b | None => false end.

(** The loop of [escape_for_windows]; [i + 1 == raw.size()] is "nothing follows". *)
Fixpoint escape_loop (raw : bytes) : bytes :=
  match raw with
  | [] => []
  | b :: r =>
      let trailing_dot_space := bool_decide (r = []) && dot_or_space b in
      (if is_reserved b || trailing_dot_space then encode_utf8_3 (0xF000 + b) else [b]) ++ escape_loop r
  end.

Definition escape_for_windows (raw : bytes) : bytes :=
  if needs_escaping raw then escape_loop raw else raw.

(** The private-use code point at the head of the bytes, if there is one. *)
Definition pua (b0 b1 b2 : byte) : option Z :=
  if (b0 =? 0xEF) && (Z.land b1 0xFC =? 0x80) && (Z.land b2 0xC0 =? 0x80) then
    let cp := Z.lor (Z.lor (Z.shiftl (Z.land b0 0x0F) 12) (Z.shiftl (Z.land b1 0x3F) 6)) (Z.land b2 0x3F) in
    if (cp >=? 0xF000) && (cp <=? 0xF0FF) then Some cp else None
  else None.

Fixpoint unescape_from_windows (shown : bytes) : bytes :=
  match shown with
  | [] => []
  | b0 :: s1 =>
      match s1 with
      | b1 :: b2 :: s3 =>
          match pua b0 b1 b2 with
          | Some cp => to_byte (cp - 0xF000) :: unescape_from_windows s3
          | None => b0 :: unescape_from_windows s1
          end
      | _ => b0 :: unescape_from_windows s1
      end
  end.

(** ** Names free of private-use sequences *)
Definition pua_head (s : bytes) : bool :=
  match s with b0 :: b1 :: b2 :: _ => bool_decide (pua b0 b1 b2 ≠ None) | _ => false end.

Fixpoint has_pua (s : bytes) : bool :=
  match s with [] => false | _ :: r => pua_head s || has_pua r end.

Lemma pua_inv b0 b1 b2 : pua b0 b1 b2 ≠ None →
  b0 = 0xEF ∧ Z.land b1 0xFC = 0x80 ∧ Z.land b2 0xC0 = 0x80.
Proof. unfold pua. intros H. repeat case_match; try done. b2p. done. Qed.

Lemma escape_code b : byte_ok b → ∃ b1 b2,
  encode_utf8_3 (0xF000 + b) = [0xEF; b1; b2] ∧ pua 0xEF b1 b2 = Some (0xF000 + b) ∧ to_byte b = b
  ∧ is_reserved b1 = false ∧ is_reserved b2 = false ∧ dot_or_space b2 = false.
Proof.
  intros Hb.
  pose proof (forall_below_spec 256 (λ b, match encode_utf8_3 (0xF000 + b) with
    | [b0; b1; b2] => (b0 =? 0xEF) && bool_decide (pua 0xEF b1 b2 = Some (0xF000 + b)) && (to_byte b =? b)
                      && negb (is_reserved b1) && negb (is_reserved b2) && negb (dot_or_space b2)
    | _ => false end) eq_refl b Hb) as H. cbv beta in H.
  destruct (encode_utf8_3 (0xF000 + b)) as [|b0 [|b1 [|b2 [|]]]]; try done.
  b2p. subst b0. exists b1, b2. by split_and!.
Qed.

Lemma unescape_escape_code b s : byte_ok b →
  unescape_from_windows (encode_utf8_3 (0xF000 + b) ++ s) = b :: unescape_from_windows s.
Proof.
  intros Hb. destruct (escape_code b Hb) as (b1 & b2 & -> & Hp & Ht & _). cbn [app unescape_from_windows].
  rewrite Hp. f_equal. by replace (0xF000 + b - 0xF000) with b by lia.
Qed.

Lemma unescape_plain b s : pua_head (b :: s) = false →
  unescape_from_windows (b :: s) = b :: unescape_from_windows s.
Proof.
  intros H. destruct s as [|b1 [|b2 s]]; [done..|].
  cbn [unescape_from_windows]. simpl in H. b2p. destruct (pua b b1 b2); [|done]. destruct H. done.
Qed.

Lemma unescape_id s : has_pua s = false → unescape_from_windows s = s.
Proof.
  induction s as [|b s IH]; [done|]. cbn [has_pua]. intros [H1 H2]%orb_false_iff.
  by rewrite unescape_plain, IH.
Qed.

(** A continuation byte of an escaped name was there before escaping. *)
Lemma escape_loop_cont c t r : bytes_ok r → Z.land c 0xC0 = 0x80 → escape_loop r = c :: t →
  ∃ r', r = c :: r' ∧ t = escape_loop r'.
Proof.
  intros Hr Hc. destruct r as [|b r]; [done|]. inversion Hr as [|? ? Hb _]; subst. cbn [escape_loop].
  case_match; [|intros [= <- <-]; eauto].
  destruct (escape_code b Hb) as (b1 & b2 & -> & _). intros [= <- _]. done.
Qed.

Lemma land_fc_c0 b : Z.land b 0xFC = 0x80 → Z.land b 0xC0 = 0x80.
Proof.
  intros H. replace 0xC0 with (Z.land 0xFC 0xC0) by done. by rewrite Z.land_assoc, H.
Qed.

Lemma pua_head_escape b r : bytes_ok r → pua_head (b :: r) = false → pua_head (b :: escape_loop r) = false.
Proof.
  intros Hr Hp. destruct (pua_head (b :: escape_loop r)) eqn:E; [|done].
  destruct (escape_loop r) as [|b1 [|b2 t]] eqn:Er; try done. cbn [pua_head] in E. b2p.
  pose proof (pua_inv _ _ _ E) as (_ & H1 & H2).
  destruct (escape_loop_cont b1 (b2 :: t) r) as (r' & -> & Er'); [done|by apply land_fc_c0|done|].
  inversion Hr; subst.
  destruct (escape_loop_cont b2 t r') as (r'' & -> & _); [done..|].
  cbn [pua_head] in Hp. by b2p.
Qed.

Lemma unescape_escape_loop r : bytes_ok r → has_pua r = false → unescape_from_windows (escape_loop r) = r.
Proof.
  induction r as [|b r IH]; intros Hr Hp; [done|]. cbn [has_pua] in Hp. apply orb_false_iff in Hp as [Hh Hp].
  inversion Hr as [|? ? Hb Hr']; subst. cbn [escape_loop]. case_match.
  - by rewrite unescape_escape_code, IH.
  - cbn [app]. rewrite unescape_plain by by apply pua_head_escape. by rewrite IH.
Qed.

(** ** Escaped names are safe *)

Lemma escape_loop_safe r : bytes_ok r →
  existsb is_reserved (escape_loop r) = false
  ∧ match last (escape_loop r) with Some b => dot_or_space b = false | None => r = [] end.
Proof.
  induction r as [|b r IH]; intros Hr; [done|]. inversion Hr as [|? ? Hb Hr']; subst.
  destruct (IH Hr') as [IH1 IH2]. destruct (escape_code b Hb) as (b1 & b2 & He & _ & _ & H1 & H2 & H3).
  cbn [escape_loop]. rewrite existsb_app, last_app, IH1, orb_false_r.
  destruct (is_reserved b || bool_decide (r = []) && dot_or_space b) eqn:E; [rewrite He|].
  - split; [cbn [existsb]; by rewrite H1, H2|]. destruct (last (escape_loop r)); [done|exact H3].
  - apply orb_false_iff in E as [E1 E2]. split; [cbn [existsb]; by rewrite E1|].
    destruct (last (escape_loop r)); [done|]. subst r. exact E2.
Qed.

Lemma needs_escaping_false r :
  existsb is_reserved r = false →
  match last r with Some b => dot_or_space b = false | None => True end → needs_escaping r = false.
Proof. unfold needs_escaping. intros -> H. by destruct (last r). Qed.

(** Escaping is lossless: a raw name with no private-use sequence
    (EF 80-83 80-BF) of its own is recovered by [unescape_from_windows], whatever
    reserved characters, control codes, trailing dot or space it has; two such
    names never share a presented form; and every presented form is free of
    what Windows rejects. *)
Theorem windows_names_roundtrip raw raw' :
  bytes_ok raw → bytes_ok raw' → has_pua raw = false → has_pua raw' = false →
  unescape_from_windows (escape_for_windows raw) = raw
  ∧ (escape_for_windows raw = escape_for_windows raw' → raw = raw').
Proof.
  assert (∀ r, bytes_ok r → has_pua r = false → unescape_from_windows (escape_for_windows r) = r) as H.
  { intros r Hr Hp. unfold escape_for_windows. case_match; [by apply unescape_escape_loop|by apply unescape_id]. }
  intros H1 H2 H3 H4. split; [by apply H|]. intros He. by rewrite <- (H raw), He, H.
Qed.

Lemma windows_names_roundtrip_witness :
  unescape_from_windows (escape_for_windows (str "a:b?." )) = str "a:b?."
  ∧ escape_for_windows (str "a.") = [97; 0xEF; 0x80; 0xAE].
Proof.
  split; [|reflexivity].
  apply (windows_names_roundtrip (str "a:b?.") (str "x")); try reflexivity;
    apply (bool_decide_unpack _); vm_compute; exact I.
Defined.

(** What is presented on the Windows side never needs escaping again, for
    every raw name. *)
Theorem escape_safe raw :
  bytes_ok raw → needs_escaping (escape_for_windows raw) = false.
Proof.
  intros Hr. unfold escape_for_windows. destruct (needs_escaping raw) eqn:E; [|done].
  destruct (escape_loop_safe raw Hr) as [H1 H2]. apply needs_escaping_false; [done|]. by case_match.
Qed.

Lemma escape_safe_witness : needs_escaping (escape_for_windows (str "con|. ")) = false.
Proof. apply escape_safe. apply (bool_decide_unpack _); vm_compute; exact I. Defined.

(** The inverse is not total, against the header's "for any input": the
    raw name made of the three bytes of U+F03C and the raw name "<" are
    presented identically, and the first comes back as the second. *)
Theorem escape_pua_collision :
  escape_for_windows [0xEF; 0x80; 0xBC] = escape_for_windows (str "<")
  ∧ unescape_from_windows (escape_for_windows [0xEF; 0x80; 0xBC]) = str "<"
  ∧ [0xEF; 0x80; 0xBC] ≠ str "<".
Proof. split_and!; [reflexivity..|discriminate]. Qed.
