(* ===== verification/Ignore.v ===== *)
(** * Ignore rules ([core/ignore.cpp])

    The [.wsldriveignore] matcher: the backtracking glob over one path segment,
    the parser of the rules and the decision on a path.  The glob loop is
    compared with a reference matcher that tries every expansion of a star. *)

From S2P Require Import Prelude.

Definition c_star : byte := 42.     (* '*' *)
Definition c_qmark : byte := 63.    (* '?' *)
Definition c_sep : byte := 47.      (* '/' *)
Definition c_nl : byte := 10.       (* newline *)

Fixpoint skip_stars (pat : bytes) : bytes :=
  match pat with c :: r => if c =? c_star then skip_stars r else pat | [] => [] end.

(** The loop of [glob_segment]; [star = None] is [npos].  [None]: out of fuel. *)
Fixpoint glob_loop (fuel : nat) (pat text : bytes) (p t : nat) (star : option nat) (mark : nat) : option bool :=
  match fuel with
  | O => None
  | S fuel =>
      match text !! t with
      | None => Some (bool_decide (skip_stars (drop p pat) = []))
      | Some x =>
          let backtrack :=
            match star with
            | Some s => glob_loop fuel pat text (S s) (S mark) star (S mark)
            | None => Some false
            end in
          match pat !! p with
          | Some c =>
              if (c =? c_qmark) || (c =? x) then glob_loop fuel pat text (S p) (S t) star mark
              else if c =? c_star then glob_loop fuel pat text (S p) t (Some p) t
              else backtrack
          | None => backtrack
          end
      end
  end.

(** Enough rounds: a star is taken at most once per pattern byte, the mark moves
    at most once per text byte between stars, and [t] in between. *)
Definition glob_fuel (pat text : bytes) : nat :=
  let n := length text in
  (length pat * ((n + 2) * (n + 2)) + n * (n + 2) + n + 1)%nat.

Definition glob_segment (pat text : bytes) : bool :=
  default false (glob_loop (glob_fuel pat text) pat text 0 0 None 0).

(** [while (i < size) { j = find(sep, i) or size; piece = [i, j); i = j + 1; }] *)
Fixpoint pieces (sep : byte) (s : bytes) : list bytes :=
  match s with
  | [] => []
  | b :: s' =>
      if b =? sep then [] :: pieces sep s'
      else match pieces sep s' with [] => [[b]] | p :: ps => (b :: p) :: ps end
  end.

Definition nonempty {A} (l : list A) : bool := match l with [] => false | _ => true end.

Definition split (s : bytes) : list bytes := filter (λ p, nonempty p = true) (pieces c_sep s).

Record Pattern := mkPattern { segs : list bytes; anchored : bool; dir_only : bool }.
Record IgnoreRules := mkRules { patterns_ : list Pattern }.

Definition is_blank (b : byte) : bool := (b =? 32) || (b =? 9).

Fixpoint trim_front (s : bytes) : bytes :=
  match s with b :: r => if is_blank b then trim_front r else s | [] => [] end.

Definition trim_back (s : bytes) : bytes := reverse (trim_front (reverse s)).

(** [if (!line.empty() && line.back() == c) line.remove_suffix(1);] and whether it did. *)
Definition strip_suffix (c : byte) (s : bytes) : bytes * bool :=
  match last s with
  | Some b => if b =? c then (take (length s - 1) s, true) else (s, false)
  | None => (s, false)
  end.

(** One line of the file: the pattern it adds, if any. *)
Definition parse_line (line : bytes) : option Pattern :=
  let line := (strip_suffix 13 line).1 in
  let line := trim_back (trim_front line) in
  match line with
  | [] => None
  | c :: _ =>
      if c =? 35 then None                                   (* '#' *)
      else
        let '(line, dir) := strip_suffix c_sep line in
        let '(line, anch) :=
          match line with
          | c :: r => if c =? c_sep then (r, true) else (line, existsb (Z.eqb c_sep) line)
          | [] => (line, false)
          end in
        let ss := split line in
        if bool_decide (ss = []) then None else Some (mkPattern ss anch dir)
  end.

Definition parse (text : bytes) : IgnoreRules := mkRules (omap parse_line (pieces c_nl text)).

(** [all]: the pattern segments against the path segments, position by position. *)
Fixpoint all_match (ps ss : list bytes) : bool :=
  match ps, ss with
  | [], _ => true
  | p :: ps, s :: ss => glob_segment p s && all_match ps ss
  | _ :: _, [] => false
  end.

(** The loop over the path's segments for an unanchored pattern. *)
Fixpoint any_match (name : bytes) (dir : bool) (ss : list bytes) (is_dir : bool) : bool :=
  match ss with
  | [] => false
  | s :: rest =>
      (glob_segment name s && (negb dir || nonempty rest || is_dir)) || any_match name dir rest is_dir
  end.

Definition pattern_ignores (ss : list bytes) (is_dir : bool) (pat : Pattern) : bool :=
  if anchored pat then
    if (length ss <? length (segs pat))%nat then false
    else if negb (all_match (segs pat) ss) then false
    else
      let prefix_is_dir := (length (segs pat) <? length ss)%nat || is_dir in
      negb (dir_only pat) || prefix_is_dir
  else
    match last (segs pat) with                          (* pat.segs.back() *)
    | Some name => any_match name (dir_only pat) ss is_dir
    | None => false
    end.

Definition ignored (rules : IgnoreRules) (rel : bytes) (is_dir : bool) : bool :=
  if bool_decide (patterns_ rules = []) || bool_decide (rel = []) then false
  else
    let ss := split rel in
    if bool_decide (ss = []) then false
    else existsb (pattern_ignores ss is_dir) (patterns_ rules).

#[global] Instance Pattern_eq_dec : EqDecision Pattern.
Proof. solve_decision. Defined.

(** ** The reference matcher *)

(** A star matches any run, a question mark any byte, any other byte itself. *)
Fixpoint glob_match (pat text : bytes) : bool :=
  match pat with
  | [] => negb (nonempty text)
  | c :: pat' =>
      if c =? c_star then
        (fix star (text : bytes) : bool :=
           glob_match pat' text || match text with [] => false | _ :: text' => star text' end) text
      else match text with
           | [] => false
           | x :: text' => ((c =? c_qmark) || (c =? x)) && glob_match pat' text'
           end
  end.

Lemma glob_match_star pat text :
  glob_match (c_star :: pat) text
  = glob_match pat text || match text with [] => false | _ :: text' => glob_match (c_star :: pat) text' end.
Proof. by destruct text. Qed.

Lemma glob_match_char c pat text : c ≠ c_star →
  glob_match (c :: pat) text
  = match text with [] => false | x :: text' => ((c =? c_qmark) || (c =? x)) && glob_match pat text' end.
Proof. intros Hc. simpl. by rewrite (proj2 (Z.eqb_neq _ _) Hc). Qed.

(** A pattern segment matched byte by byte. *)
Definition seg_match : bytes → bytes → Prop :=
  Forall2 (λ c x, c ≠ c_star ∧ (c =? c_qmark) || (c =? x) = true).

Lemma glob_match_seg seg T1 pat T : seg_match seg T1 → glob_match (seg ++ pat) (T1 ++ T) = glob_match pat T.
Proof.
  induction 1 as [|c x seg T1 [Hc Hx] _ IH]; [done|]. cbn [app]. rewrite glob_match_char by done.
  by rewrite Hx, IH.
Qed.

Lemma glob_match_star_app pat T1 T : glob_match (c_star :: pat) T = true → glob_match (c_star :: pat) (T1 ++ T) = true.
Proof.
  intros H. induction T1 as [|x T1 IH]; [done|]. cbn [app]. rewrite glob_match_star, IH. apply orb_true_r.
Qed.

(** A star followed by a segment that matches here and another star: the
    first occurrence of the segment is as good as any later one. *)
Lemma glob_match_commit seg T1 pat T : seg_match seg T1 →
  glob_match (c_star :: seg ++ c_star :: pat) (T1 ++ T) = glob_match (c_star :: pat) T.
Proof.
  intros Hseg. apply Bool.eq_iff_eq_true. split.
  - intros H. assert (∀ U, glob_match (c_star :: seg ++ c_star :: pat) U = true →
      ∃ A B, U = A ++ B ∧ glob_match (seg ++ c_star :: pat) B = true) as Hex.
    { induction U as [|x U IH]; rewrite glob_match_star; intros [HU|HU]%orb_true_iff; try done.
      - by exists [], [].
      - by exists [], (x :: U).
      - apply IH in HU as (A & B & -> & HB). by exists (x :: A), B. }
    apply Hex in H as (A & B & HAB & HB). clear Hex.
    assert (∀ sg B, Forall (λ c, c ≠ c_star) sg → glob_match (sg ++ c_star :: pat) B = true →
      ∃ C D, B = C ++ D ∧ length C = length sg ∧ glob_match (c_star :: pat) D = true) as Hdrop.
    { clear. induction sg as [|c sg IH]; intros B Hs HB; [by exists [], B|].
      inversion Hs; subst. cbn [app] in HB. rewrite glob_match_char in HB by done.
      destruct B as [|x B]; [done|]. apply andb_true_iff in HB as [_ HB].
      apply IH in HB as (C & D & -> & Hl & HD); [|done]. exists (x :: C), D. simpl. auto. }
    apply Hdrop in HB as (C & D & -> & Hl & HD).
    + assert (∃ E, T = E ++ D) as [E ->]; [|by apply glob_match_star_app].
      pose proof (Forall2_length _ _ _ Hseg) as Hl'. exists (drop (length T1) (A ++ C)).
      rewrite <- drop_app_le by (rewrite length_app; lia). by rewrite <- app_assoc, <- HAB, drop_app_length.
    + eapply Forall2_Forall_l; [done|]. eapply Forall_true. by intros ? ? [].
  - intros H. rewrite glob_match_star, glob_match_seg by done. by rewrite H.
Qed.

(** The bytes a pattern needs at least. *)
Definition min_len (pat : bytes) : nat := length (filter (λ c, c ≠ c_star) pat).

Lemma glob_match_min_len pat text : glob_match pat text = true → (min_len pat <= length text)%nat.
Proof.
  revert text. induction pat as [|c pat IH]; intros text; [unfold min_len; simpl; lia|].
  destruct (decide (c = c_star)) as [->|Hc].
  - replace (min_len (c_star :: pat)) with (min_len pat) by by unfold min_len; rewrite filter_cons_False by congruence.
    induction text as [|x text IHt]; rewrite glob_match_star; intros [H|H]%orb_true_iff; try done; auto.
    apply IHt in H. simpl. lia.
  - rewrite glob_match_char by done. destruct text as [|x text]; [done|]. intros [_ H]%andb_true_iff.
    apply IH in H. unfold min_len in *. rewrite filter_cons_True by done. simpl. lia.
Qed.

Lemma glob_match_nil pat : glob_match pat [] = bool_decide (skip_stars pat = []).
Proof.
  induction pat as [|c pat IH]; [done|]. cbn [skip_stars]. destruct (Z.eqb_spec c c_star) as [->|Hc].
  - rewrite glob_match_star, orb_false_r. done.
  - rewrite glob_match_char by done. done.
Qed.

Lemma skip_stars_min_len pat : skip_stars pat ≠ [] → (1 <= min_len pat)%nat.
Proof.
  induction pat as [|c pat IH]; [done|]. cbn [skip_stars]. unfold min_len in *.
  destruct (Z.eqb_spec c c_star) as [->|Hc]; intros H.
  - rewrite filter_cons_False by congruence. auto.
  - rewrite filter_cons_True by done. simpl. lia.
Qed.

(** ** The backtracking loop computes the reference matcher *)

Section glob.
Context (pat text : bytes) (Hplain : Forall (λ x, x ≠ c_star) text).

(** With a star taken at [s]: the pattern since then matches the text since
    [mark] byte by byte, and what is left to decide is the suffix from [s]. *)
Definition glob_inv (p t : nat) (star : option nat) (mark : nat) : Prop :=
  (p <= length pat)%nat ∧ (t <= length text)%nat ∧
  match star with
  | None => mark = 0%nat ∧ glob_match pat text = glob_match (drop p pat) (drop t text)
  | Some s => ∃ seg T1,
      drop s pat = c_star :: seg ++ drop p pat ∧ drop mark text = T1 ++ drop t text
      ∧ seg_match seg T1 ∧ p = (S s + length seg)%nat ∧ t = (mark + length seg)%nat
      ∧ glob_match pat text = glob_match (drop s pat) (drop mark text)
  end.

Definition glob_measure (t : nat) (star : option nat) (mark : nat) : nat :=
  let n := length text in
  ((length pat - match star with None => 0 | Some s => S s end) * ((n + 2) * (n + 2))
   + (n - mark) * (n + 2) + (n - t))%nat.

Lemma glob_inv_init : glob_inv 0 0 None 0.
Proof. split_and!; [lia..|done|done]. Qed.

(** The text is exhausted. *)
Lemma glob_inv_end p t star mark : glob_inv p t star mark → text !! t = None →
  glob_match pat text = bool_decide (skip_stars (drop p pat) = []).
Proof.
  intros (Hp & Ht & Hst) Hx. apply lookup_ge_None in Hx. rewrite <- glob_match_nil.
  destruct star as [s|].
  - destruct Hst as (seg & T1 & Hd & Hm & Hseg & _ & _ & ->). rewrite Hd, Hm, (drop_ge text t) by lia.
    apply Bool.eq_iff_eq_true. rewrite glob_match_nil, bool_decide_eq_true. split; intros H.
    + destruct (decide (skip_stars (drop p pat) = [])) as [|Hn]; [done|].
      apply skip_stars_min_len in Hn. apply glob_match_min_len in H.
      pose proof (Forall2_length _ _ _ Hseg) as Hl. rewrite app_nil_r in H.
      unfold min_len in *. rewrite filter_cons_False, filter_app, length_app in H by congruence.
      rewrite (filter_all _ seg) in H; [lia|].
      eapply Forall2_Forall_l; [done|]. eapply Forall_true. by intros ? ? [].
    + rewrite glob_match_star, glob_match_seg, glob_match_nil by done. by rewrite H.
  - destruct Hst as [_ ->]. by rewrite (drop_ge text t) by lia.
Qed.

(** A byte matches. *)
Lemma glob_inv_match p t star mark c x : glob_inv p t star mark →
  text !! t = Some x → pat !! p = Some c → (c =? c_qmark) || (c =? x) = true →
  glob_inv (S p) (S t) star mark.
Proof.
  intros (Hp & Ht & Hst) Hx Hc Hm. pose proof (lookup_lt_Some _ _ _ Hx). pose proof (lookup_lt_Some _ _ _ Hc).
  assert (c ≠ c_star) as Hcs.
  { rewrite Forall_lookup in Hplain. pose proof (Hplain _ _ Hx). intros ->. by destruct (Z.eqb_spec c_star x). }
  split_and!; [lia..|]. destruct star as [s|].
  - destruct Hst as (seg & T1 & Hd & Hmk & Hseg & -> & -> & HG). exists (seg ++ [c]), (T1 ++ [x]).
    rewrite Hd, Hmk, (drop_S _ _ _ Hx), (drop_S _ _ _ Hc), <- !app_assoc, length_app. simpl.
    split_and!; try done; try lia; [by apply Forall2_app; [|repeat constructor]|].
    by rewrite HG, Hd, Hmk, (drop_S _ _ _ Hx), (drop_S _ _ _ Hc).
  - destruct Hst as [-> ->]. split; [done|]. rewrite (drop_S _ _ _ Hx), (drop_S _ _ _ Hc).
    rewrite glob_match_char by done. by rewrite Hm.
Qed.

(** A star of the pattern is taken. *)
Lemma glob_inv_star p t star mark : glob_inv p t star mark → pat !! p = Some c_star →
  glob_inv (S p) t (Some p) t.
Proof.
  intros (Hp & Ht & Hst) Hc. pose proof (lookup_lt_Some _ _ _ Hc). split_and!; [lia..|].
  exists [], []. rewrite (drop_S _ _ _ Hc). split_and!; [done|done|constructor|simpl; lia..|].
  destruct star as [s|].
  - destruct Hst as (seg & T1 & Hd & Hmk & Hseg & _ & _ & ->).
    by rewrite Hd, Hmk, (drop_S _ _ _ Hc), glob_match_commit.
  - destruct Hst as [_ ->]. by rewrite (drop_S _ _ _ Hc).
Qed.

(** A mismatch with no star taken, and with one. *)
Lemma glob_mismatch p x T : match pat !! p with Some c => (c =? c_qmark) || (c =? x) = false ∧ c ≠ c_star | None => True end →
  glob_match (drop p pat) (x :: T) = false.
Proof.
  destruct (pat !! p) as [c|] eqn:Hc.
  - intros [Hm Hs]. rewrite (drop_S _ _ _ Hc), glob_match_char by done. by rewrite Hm.
  - intros _. apply lookup_ge_None in Hc. by rewrite drop_ge.
Qed.

Lemma glob_inv_backtrack p t s mark x : glob_inv p t (Some s) mark → text !! t = Some x →
  match pat !! p with Some c => (c =? c_qmark) || (c =? x) = false ∧ c ≠ c_star | None => True end →
  glob_inv (S s) (S mark) (Some s) (S mark).
Proof.
  intros (Hp & Ht & seg & T1 & Hd & Hmk & Hseg & -> & -> & HG) Hx Hmis. pose proof (lookup_lt_Some _ _ _ Hx).
  split_and!; [lia..|]. exists [], []. rewrite Hd, app_nil_l.
  assert (drop (S s) pat = seg ++ drop (S s + length seg) pat) as Hd'.
  { replace (S s) with (s + 1)%nat at 1 by lia. rewrite <- drop_drop, Hd. done. }
  split_and!; [by rewrite Hd'|done|constructor|simpl; lia..|].
  rewrite HG, Hd, glob_match_star, Hmk, glob_match_seg, (drop_S _ _ _ Hx), glob_mismatch by done. simpl.
  replace (S mark) with (mark + 1)%nat by lia. rewrite <- drop_drop, Hmk, (drop_S _ _ _ Hx).
  by destruct T1.
Qed.

Lemma glob_loop_correct fuel p t star mark : glob_inv p t star mark →
  (glob_measure t star mark < fuel)%nat →
  glob_loop fuel pat text p t star mark = Some (glob_match pat text).
Proof.
  revert p t star mark. induction fuel as [|fuel IH]; intros p t star mark Hinv Hf; [lia|]. cbn [glob_loop].
  destruct (text !! t) as [x|] eqn:Hx; [|f_equal; symmetry; by eapply glob_inv_end].
  pose proof (lookup_lt_Some _ _ _ Hx) as Htl. pose proof Hinv as (Hp & _ & Hst).
  assert (mark <= t)%nat as Hmt by (destruct star; [destruct Hst as (?&?&_&_&_&_&->&_); lia|destruct Hst; lia]).
  assert (match star with Some s => S s <= p | None => True end)%nat as Hsp
    by (destruct star; [destruct Hst as (?&?&_&_&_&->&_); lia|done]).
  assert (match pat !! p with Some c => (c =? c_qmark) || (c =? x) = false ∧ c ≠ c_star | None => True end →
    match star with Some s => glob_loop fuel pat text (S s) (S mark) star (S mark) | None => Some false end
    = Some (glob_match pat text)) as Hback.
  { intros Hmis. destruct star as [s|].
    - apply IH; [by eapply glob_inv_backtrack|]. unfold glob_measure in *.
      assert ((length text - mark) = S (length text - S mark))%nat as He by lia. rewrite He in Hf.
      destruct Hinv as (_ & _ & ? & ? & _ & _ & _ & _ & _). nia.
    - destruct Hst as [_ ->]. by rewrite (drop_S _ _ _ Hx), glob_mismatch. }
  destruct (pat !! p) as [c|] eqn:Hc; [|by apply Hback].
  destruct ((c =? c_qmark) || (c =? x)) eqn:Hm.
  - apply IH; [by eapply glob_inv_match|]. unfold glob_measure in *. lia.
  - destruct (Z.eqb_spec c c_star) as [->|Hcs]; [|by apply Hback].
    apply IH; [by eapply glob_inv_star|]. unfold glob_measure in *.
    pose proof (lookup_lt_Some _ _ _ Hc) as Hpl.
    assert (∃ k, length pat - match star with None => 0 | Some s => S s end = S (length pat - S p) + k)%nat
      as [k Hk] by (exists (p - match star with None => 0 | Some s => S s end)%nat; destruct star; lia).
    rewrite Hk in Hf. nia.
Qed.
End glob.

Lemma glob_segment_correct pat text : Forall (λ x, x ≠ c_star) text → glob_segment pat text = glob_match pat text.
Proof.
  intros Hp. unfold glob_segment. rewrite glob_loop_correct; [done|done|apply glob_inv_init|].
  unfold glob_measure, glob_fuel. lia.
Qed.

(** ** Splitting *)

Lemma pieces_app_sep sep d x : pieces sep (d ++ sep :: x) = pieces sep (d ++ [sep]) ++ pieces sep x.
Proof.
  induction d as [|b d IH]; cbn [app pieces]; [by rewrite Z.eqb_refl|].
  rewrite IH. case_match; [done|].
  destruct (pieces sep (d ++ [sep])) as [|p ps] eqn:E; [|done].
  destruct d; cbn [app pieces] in E; [by rewrite Z.eqb_refl in E|]. by repeat case_match.
Qed.

Lemma pieces_nil sep s : pieces sep s = [] → s = [].
Proof. destruct s; [done|]. cbn [pieces]. by repeat case_match. Qed.

Lemma pieces_snoc sep d :
  pieces sep (d ++ [sep]) = pieces sep d ++ match last d with Some b => if b =? sep then [[]] else [] | None => [[]] end.
Proof.
  induction d as [|b d IH]; cbn [app pieces]; [by rewrite Z.eqb_refl|]. rewrite IH.
  destruct d as [|e d].
  - simpl. by destruct (b =? sep).
  - rewrite last_cons_cons. destruct (b =? sep); [done|].
    destruct (pieces sep (e :: d)) eqn:E; [by apply pieces_nil in E|done].
Qed.

Lemma split_app d x : split (d ++ c_sep :: x) = split d ++ split x.
Proof.
  unfold split. rewrite pieces_app_sep, filter_app, pieces_snoc, filter_app. f_equal.
  rewrite <- (app_nil_r (filter _ (pieces c_sep d))) at 2. f_equal. by repeat case_match.
Qed.

Lemma pieces_no_sep sep s : Forall (Forall (λ b, b ≠ sep)) (pieces sep s).
Proof.
  induction s as [|b s IH]; [constructor|]. cbn [pieces]. destruct (Z.eqb_spec b sep); [by constructor|].
  destruct (pieces sep s); [by repeat constructor|]. inversion IH; subst. by repeat constructor.
Qed.

Lemma pieces_single sep s : s ≠ [] → existsb (Z.eqb sep) s = false → pieces sep s = [s].
Proof.
  induction s as [|b s IH]; [done|]. intros _ [Hb Hs]%orb_false_iff. cbn [pieces].
  rewrite Z.eqb_sym, Hb. destruct s as [|c s]; [done|]. by rewrite IH.
Qed.

Definition seg_ok (s : bytes) : Prop := s ≠ [] ∧ Forall (λ b, b ≠ c_sep) s.

Lemma split_ok s : Forall seg_ok (split s).
Proof.
  apply Forall_forall. intros p [Hn Hp]%list_elem_of_filter. split; [by destruct p|].
  pose proof (pieces_no_sep c_sep s) as H. rewrite Forall_forall in H. by apply H.
Qed.

(** What the parser guarantees of a pattern. *)
Definition pattern_ok (pat : Pattern) : Prop :=
  segs pat ≠ [] ∧ Forall seg_ok (segs pat) ∧ (anchored pat = false → length (segs pat) = 1%nat).

Lemma parse_line_ok line pat : parse_line line = Some pat → pattern_ok pat.
Proof.
  unfold parse_line. set (l := trim_back _). destruct l as [|c r]; [done|]. case_match; [done|].
  destruct (strip_suffix c_sep (c :: r)) as [l2 dir].
  set (la := match l2 with [] => (l2, false) | _ :: _ => _ end).
  assert (la.2 = false → split la.1 ≠ [] → length (split la.1) = 1%nat) as Ha.
  { unfold la. destruct l2 as [|d l2]; [done|]. destruct (d =? c_sep); [done|]. simpl fst; simpl snd.
    intros Hx _. unfold split. by rewrite pieces_single. }
  destruct la as [l3 anch]. case_bool_decide; [done|]. intros [= <-].
  split_and!; [done|apply split_ok|]. intros. by apply Ha.
Qed.

(** ** Ignored subtrees *)

Lemma all_match_app ps ss tt : all_match ps ss = true → all_match ps (ss ++ tt) = true.
Proof.
  revert ss. induction ps as [|p ps IH]; intros ss; [done|]. destruct ss as [|s ss]; [done|].
  cbn [all_match app]. intros [H1 H2]%andb_true_iff. rewrite H1. simpl. auto.
Qed.

Lemma any_match_app name dir ss tt is_dir : tt ≠ [] →
  any_match name dir ss true = true → any_match name dir (ss ++ tt) is_dir = true.
Proof.
  intros Ht. induction ss as [|s ss IH]; [done|]. cbn [any_match app].
  intros [H|H]%orb_true_iff; apply orb_true_iff; [left|by right; apply IH].
  apply andb_true_iff in H as [-> _]. destruct ss, tt; simpl; by rewrite ?orb_true_r.
Qed.

Lemma pattern_ignores_app pat ss tt is_dir : tt ≠ [] →
  pattern_ignores ss true pat = true → pattern_ignores (ss ++ tt) is_dir pat = true.
Proof.
  intros Ht. unfold pattern_ignores. destruct (anchored pat).
  - destruct (Nat.ltb_spec (length ss) (length (segs pat))); [done|].
    destruct (all_match (segs pat) ss) eqn:E; [|done]. intros _.
    rewrite (all_match_app _ _ _ E), length_app. destruct tt; [done|]. cbn [length].
    destruct (Nat.ltb_spec (length ss + S (length tt)) (length (segs pat))); [lia|]. simpl.
    destruct (Nat.ltb_spec (length (segs pat)) (length ss + S (length tt))); [|lia]. simpl. apply orb_true_r.
  - destruct (last (segs pat)); [|done]. by apply any_match_app.
Qed.

(** On a name with no '*' in it, the backtracking loop decides the
    reference semantics of a glob (a star is any run, a question mark any byte),
    and it always finishes within its fuel. *)
Theorem glob_segment_reference pat text :
  Forall (λ x, x ≠ c_star) text →
  glob_loop (glob_fuel pat text) pat text 0 0 None 0 = Some (glob_match pat text)
  ∧ glob_segment pat text = glob_match pat text.
Proof.
  intros Hp. split; [|by apply glob_segment_correct].
  apply glob_loop_correct; [done|apply glob_inv_init|]. unfold glob_measure, glob_fuel. lia.
Qed.

Lemma glob_segment_reference_witness :
  glob_segment (str "*a?b*c") (str "xxaabaybzzc") = true.
Proof.
  destruct (glob_segment_reference (str "*a?b*c") (str "xxaabaybzzc")) as [_ H].
  - apply (bool_decide_unpack _); vm_compute; exact I.
  - rewrite H. vm_compute. reflexivity.
Defined.

(** A name that holds a '*' itself (legal on ext4) defeats the matcher:
    the literal comparison is tried before the star, so the pattern "*a" rejects
    "*ba", which ends in 'a'. *)
Theorem glob_segment_literal_star :
  glob_segment (str "*a") (str "*ba") = false ∧ glob_match (str "*a") (str "*ba") = true.
Proof. split; vm_compute; reflexivity. Qed.

(** Ignoring is inherited: when a directory is ignored, so is every path
    below it, file or directory, so pruning the directory during a scan loses
    nothing the rules would have kept. *)
Theorem ignored_subtree rules d x is_dir :
  split x ≠ [] → ignored rules d true = true → ignored rules (d ++ c_sep :: x) is_dir = true.
Proof.
  intros Hx. unfold ignored. rewrite split_app. case_bool_decide; [done|].
  case_bool_decide; [done|]. rewrite (bool_decide_eq_false_2 (d ++ _ = [])) by (by destruct d). simpl.
  case_bool_decide as Hd; [done|]. rewrite (bool_decide_eq_false_2 (_ ++ _ = [])) by (by intros [? ?]%app_nil).
  rewrite !existsb_exists. intros (pat & Hin & Hp). exists pat. split; [done|]. by apply pattern_ignores_app.
Qed.

Lemma ignored_subtree_witness :
  ignored (parse (str "node_modules/")) (str "a/node_modules" ++ c_sep :: str "x/y") false = true.
Proof. apply ignored_subtree; [discriminate|reflexivity]. Defined.

(** Every parsed pattern has at least one segment, its segments are not
    empty and hold no '/', and an unanchored pattern has exactly one, which is
    what [ignored] relies on when it takes the last one. *)
Theorem parse_patterns_ok text : Forall pattern_ok (patterns_ (parse text)).
Proof.
  apply Forall_forall. intros pat (line & _ & Hl)%list_elem_of_omap. by eapply parse_line_ok.
Qed.
