(* ===== verification/Auth.v ===== *)
(** * Digests and the authentication proof ([core/hash.cpp], [core/auth_token.cpp])

    The hexadecimal form of a digest, the transcript [auth_proof] feeds to
    BLAKE3 and the constant-time comparison.  BLAKE3 is a third-party library:
    the digest function is a parameter. *)

From S2P Require Import Prelude.

(** ** Hexadecimal *)
Definition kHexDigits : bytes := str "0123456789abcdef".

Definition hex_digit (v : Z) : byte := kHexDigits !!! Z.to_nat v.

Definition hex_value (c : byte) : Z :=
  if (48 <=? c) && (c <=? 57) then c - 48
  else if (97 <=? c) && (c <=? 102) then c - 97 + 10
  else if (65 <=? c) && (c <=? 70) then c - 65 + 10
  else -1.

(** The loop of [Digest::hex], and of [generate_auth_token] over its random bytes. *)
Fixpoint hex (bs : bytes) : bytes :=
  match bs with
  | [] => []
  | b :: bs => hex_digit (Z.shiftr b 4) :: hex_digit (Z.land b 0x0F) :: hex bs
  end.

Fixpoint from_hex_loop (s : bytes) : option bytes :=
  match s with
  | h :: l :: s =>
      let hi := hex_value h in
      let lo := hex_value l in
      if (hi <? 0) || (lo <? 0) then None
      else match from_hex_loop s with
           | None => None
           | Some bs => Some (wrap 8 (Z.lor (Z.shiftl hi 4) lo) :: bs)
           end
  | _ => Some []
  end.

Definition from_hex (s : bytes) : option bytes :=
  if negb (length s =? 64)%nat then None else from_hex_loop s.

(** [generate_auth_token] on the 16 bytes the system's generator filled in;
    [None] is a failure of the generator. *)
Definition generate_auth_token (random : option bytes) : bytes :=
  match random with None => [] | Some bs => hex bs end.

(** ** The transcript *)

(** [std::to_string] of a [size_t]. *)
Fixpoint to_string_loop (fuel : nat) (n : Z) : bytes :=
  match fuel with
  | O => []
  | S fuel => if n <? 10 then [48 + n] else to_string_loop fuel (n / 10) ++ [48 + n mod 10]
  end.
Definition to_string (n : Z) : bytes := to_string_loop 20 n.

(** What [feed] appends to the hash input. *)
Definition feed (s : bytes) : bytes := to_string (zlen s) ++ 58 :: s.

Definition auth_transcript (token client_nonce server_nonce : bytes) (from_server : bool) : bytes :=
  feed (str "wsldrive-auth-v1") ++ feed (if from_server then str "server" else str "client")
  ++ feed token ++ feed client_nonce ++ feed server_nonce.

Definition auth_proof (blake3 : bytes → bytes) (token client_nonce server_nonce : bytes) (from_server : bool) : bytes :=
  hex (blake3 (auth_transcript token client_nonce server_nonce from_server)).

(** ** Constant-time comparison *)
Fixpoint diff_loop (a b : bytes) (diff : Z) : Z :=
  match a, b with
  | x :: a, y :: b => diff_loop a b (wrap 8 (Z.lor diff (Z.lxor x y)))
  | _, _ => diff
  end.

Definition constant_time_equal (a b : bytes) : bool :=
  if negb (length a =? length b)%nat then false else diff_loop a b 0 =? 0.

(** ** Lemmas *)

Lemma hex_digit_value v : 0 <= v < 16 → hex_value (hex_digit v) = v.
Proof.
  intros Hv. pose proof (forall_below_spec 16 (λ v, hex_value (hex_digit v) =? v) eq_refl v Hv) as H.
  by apply Z.eqb_eq in H.
Qed.

Lemma nibbles b : byte_ok b → 0 <= Z.shiftr b 4 < 16 ∧ 0 <= Z.land b 0x0F < 16
  ∧ wrap 8 (Z.lor (Z.shiftl (Z.shiftr b 4) 4) (Z.land b 0x0F)) = b.
Proof.
  intros Hb. change 0x0F with (Z.ones 4). rewrite bits_split, wrap_id by (done || lia).
  rewrite Z.land_ones, Z.shiftr_div_pow2 by lia. unfold byte_ok in Hb.
  split_and!; [apply Z.div_pos; lia|apply Z.div_lt_upper_bound; lia|apply Z.mod_pos_bound; lia..|done].
Qed.

Lemma from_hex_loop_hex bs : bytes_ok bs → from_hex_loop (hex bs) = Some bs.
Proof.
  induction 1 as [|b bs Hb _ IH]; [done|]. destruct (nibbles b Hb) as (Hh & Hl & Hw).
  cbn [hex from_hex_loop]. rewrite !hex_digit_value by done.
  destruct (Z.ltb_spec (Z.shiftr b 4) 0); [lia|]. destruct (Z.ltb_spec (Z.land b 0x0F) 0); [lia|].
  simpl. by rewrite IH, Hw.
Qed.

Lemma length_hex bs : length (hex bs) = (2 * length bs)%nat.
Proof. induction bs; simpl; lia. Qed.

Lemma hex_inj bs bs' : bytes_ok bs → bytes_ok bs' → hex bs = hex bs' → bs = bs'.
Proof. intros H1%from_hex_loop_hex H2%from_hex_loop_hex He. rewrite He in H1. congruence. Qed.

Definition undec (s : bytes) : Z := foldl (λ a d, a * 10 + (d - 48)) 0 s.

Lemma to_string_loop_spec fuel n : 0 <= n < 10 ^ Z.of_nat fuel →
  undec (to_string_loop fuel n) = n ∧ Forall (λ d, 48 <= d <= 57) (to_string_loop fuel n).
Proof.
  revert n. induction fuel as [|fuel IH]; intros n Hn; [simpl in Hn; split; [cbn; lia|constructor]|].
  rewrite Nat2Z.inj_succ, Z.pow_succ_r in Hn by lia. cbn [to_string_loop].
  destruct (Z.ltb_spec n 10); [split; [cbn; lia|repeat constructor; lia]|].
  destruct (IH (n / 10)) as [IH1 IH2]; [split; [apply Z.div_pos; lia|apply Z.div_lt_upper_bound; lia]|].
  pose proof (Z.div_mod n 10 ltac:(lia)). pose proof (Z.mod_pos_bound n 10 ltac:(lia)). split.
  - unfold undec in *. rewrite foldl_app, IH1. cbn. lia.
  - apply Forall_app. split; [done|]. repeat constructor; lia.
Qed.

Lemma colon_split a b s t : Forall (λ d, 48 <= d <= 57) a → Forall (λ d, 48 <= d <= 57) b →
  a ++ 58 :: s = b ++ 58 :: t → a = b ∧ s = t.
Proof.
  intros Ha. revert b. induction Ha as [|x a Hx _ IH]; intros b Hb He.
  - destruct b as [|y b]; simplify_eq/=; [done|]. inversion Hb; subst. lia.
  - destruct Hb as [|y b Hy Hb]; cbn [app] in He; injection He as He1 He2; [lia|].
    subst y. apply IH in He2 as [-> ->]; done.
Qed.

(** Length prefixes make the fields of a transcript recoverable. *)
Lemma feed_inj s t r r' : u64_ok (zlen s) → u64_ok (zlen t) →
  feed s ++ r = feed t ++ r' → s = t ∧ r = r'.
Proof.
  unfold feed. rewrite <- !app_assoc. cbn [app]. intros Hs Ht He.
  destruct (to_string_loop_spec 20 (zlen s)) as [D1 F1]; [zsolve|].
  destruct (to_string_loop_spec 20 (zlen t)) as [D2 F2]; [zsolve|].
  apply colon_split in He as [Hl Hr]; [|done..]. fold (to_string (zlen s)) in D1. fold (to_string (zlen t)) in D2.
  rewrite Hl, D2 in D1. apply app_inj_1; [unfold zlen in D1; lia|done].
Qed.

Lemma lor_zero a b : 0 <= a → 0 <= b → Z.lor a b = 0 ↔ a = 0 ∧ b = 0.
Proof. intros. apply Z.lor_eq_0_iff. Qed.

Lemma byte_lor_lxor d x y : byte_ok d → byte_ok x → byte_ok y →
  wrap 8 (Z.lor d (Z.lxor x y)) = Z.lor d (Z.lxor x y) ∧ byte_ok (Z.lor d (Z.lxor x y)).
Proof.
  intros Hd Hx Hy. assert (byte_ok (Z.lor d (Z.lxor x y))) as H; [|by rewrite wrap_id].
  unfold byte_ok in *. assert (∀ a b, 0 <= a < 2 ^ 8 → 0 <= b < 2 ^ 8 →
    0 <= Z.lor a b < 2 ^ 8 ∧ 0 <= Z.lxor a b < 2 ^ 8) as Hbit.
  { intros a b Ha Hb. rewrite Z.lor_nonneg, Z.lxor_nonneg. split; (split; [lia|]).
    - apply Z.log2_lt_cancel. rewrite Z.log2_lor by lia.
      destruct (decide (a = 0)) as [->|], (decide (b = 0)) as [->|]; simpl;
        try (apply Z.max_lub_lt); try (apply Z.log2_lt_pow2; lia); lia.
    - apply Z.log2_lt_cancel. eapply Z.le_lt_trans; [apply Z.log2_lxor; lia|].
      destruct (decide (a = 0)) as [->|], (decide (b = 0)) as [->|]; simpl;
        try (apply Z.max_lub_lt); try (apply Z.log2_lt_pow2; lia); lia. }
  apply Hbit; [done|]. by apply Hbit.
Qed.

Lemma diff_loop_spec a b d : bytes_ok a → bytes_ok b → byte_ok d → length a = length b →
  diff_loop a b d = 0 ↔ d = 0 ∧ a = b.
Proof.
  intros Ha. revert b d. induction Ha as [|x a Hx _ IH]; intros b d Hb Hd Hl.
  - destruct b; [|done]. simpl. tauto.
  - destruct Hb as [|y b Hy Hb]; [done|]. cbn [diff_loop].
    destruct (byte_lor_lxor d x y) as [-> Hok]; [done..|]. rewrite IH by (done || simpl in Hl; lia).
    rewrite Z.lor_eq_0_iff, Z.lxor_eq_0_iff. naive_solver.
Qed.

Lemma constant_time_equal_spec a b : bytes_ok a → bytes_ok b → constant_time_equal a b = bool_decide (a = b).
Proof.
  intros Ha Hb. unfold constant_time_equal. destruct (Nat.eqb_spec (length a) (length b)) as [Hl|Hl]; simpl.
  - apply Bool.eq_iff_eq_true. rewrite Z.eqb_eq, bool_decide_eq_true, diff_loop_spec by (done || unfold byte_ok; lia).
    naive_solver.
  - symmetry. apply bool_decide_eq_false. by intros ->.
Qed.

(** A digest survives its hexadecimal form, and anything that is not
    exactly 64 characters is refused. *)
Theorem digest_hex_roundtrip d s :
  bytes_ok d → length d = 32%nat → (length s ≠ 64%nat) →
  from_hex (hex d) = Some d ∧ from_hex s = None.
Proof.
  intros Hd Hl Hs. unfold from_hex. rewrite length_hex, Hl. split; [by apply from_hex_loop_hex|].
  by rewrite (proj2 (Nat.eqb_neq _ _) Hs).
Qed.

Lemma digest_hex_roundtrip_witness : from_hex (hex (replicate 32 0xA7)) = Some (replicate 32 0xA7).
Proof.
  apply (digest_hex_roundtrip (replicate 32 0xA7) []); [|reflexivity|discriminate].
  apply (bool_decide_unpack _); vm_compute; exact I.
Defined.

(** C40: the text hashed into a proof determines the direction, the token and
    both nonces, so the fields cannot be shifted into one another and a proof of
    one direction is not a proof of the other unless the hash itself collides. *)
Theorem auth_transcript_injective t c s d t' c' s' d' :
  Forall (λ f, u64_ok (zlen f)) [t; c; s; t'; c'; s'] →
  auth_transcript t c s d = auth_transcript t' c' s' d' →
  (t, c, s, d) = (t', c', s', d').
Proof.
  intros Hf He. repeat (apply Forall_cons in Hf as [? Hf]).
  unfold auth_transcript in He.
  apply feed_inj in He as [_ He]; [|vm_compute; intuition congruence..].
  apply feed_inj in He as [Hd He]; [|by destruct d; vm_compute; intuition congruence|by destruct d'; vm_compute; intuition congruence].
  apply feed_inj in He as [-> He]; [|done..]. apply feed_inj in He as [-> He]; [|done..].
  rewrite <- (app_nil_r (feed s)), <- (app_nil_r (feed s')) in He. apply feed_inj in He as [-> _]; [|done..].
  destruct d, d'; (done || discriminate Hd).
Qed.

Lemma auth_transcript_injective_witness :
  auth_transcript (str "tok") (str "ab") (str "c") false ≠ auth_transcript (str "tok") (str "a") (str "bc") false.
Proof.
  intros H. apply auth_transcript_injective in H; [discriminate H|].
  apply (bool_decide_unpack _); vm_compute; exact I.
Defined.
