(* ===== verification/StringPool.v ===== *)
(** * String interner ([core/string_pool.hpp], [core/string_pool.cpp])

    Names are copied into chunks that never move and entries point into them.
    A chunk is modelled by the bytes written to it so far (what lies beyond
    [chunk_used_] is never read); a [const char*] is the place it points to. *)

From S2P Require Import Prelude Types.

Definition kChunkSize : Z := Z.shiftl 1 20.

Inductive Ptr := PEmpty | PChunk (k : nat) (off : Z) | PLarge (k : nat).

Record Entry := mkPoolEntry { e_data : Ptr; e_len : Z }.

Record StringPool := mkPool {
  entries_ : list Entry;
  chunks_ : list bytes;
  large_ : list bytes;
  chunk_used_ : Z;
  chunk_cap_ : Z;
  bytes_ : Z;
  index_ : gmap bytes Z
}.

Definition pool_new : StringPool := mkPool [] [] [] 0 0 0 ∅.

(** The [len] bytes at a pointer. *)
Definition deref (p : StringPool) (d : Ptr) (len : Z) : bytes :=
  match d with
  | PEmpty => []
  | PChunk k off => take (Z.to_nat len) (drop (Z.to_nat off) (chunks_ p !!! k))
  | PLarge k => take (Z.to_nat len) (large_ p !!! k)
  end.

Definition store (p : StringPool) (s : bytes) : StringPool * Ptr :=
  if bool_decide (s = []) then (p, PEmpty)
  else if zlen s >? kChunkSize / 4 then
    (mkPool (entries_ p) (chunks_ p) (large_ p ++ [s]) (chunk_used_ p) (chunk_cap_ p) (bytes_ p) (index_ p),
     PLarge (length (large_ p)))
  else
    let p :=
      if chunk_used_ p + zlen s >? chunk_cap_ p then
        mkPool (entries_ p) (chunks_ p ++ [[]]) (large_ p) 0 kChunkSize (bytes_ p) (index_ p)
      else p in
    let k := (length (chunks_ p) - 1)%nat in
    let dst := PChunk k (chunk_used_ p) in
    (mkPool (entries_ p)
       (<[k := take (Z.to_nat (chunk_used_ p)) (chunks_ p !!! k) ++ s]> (chunks_ p))
       (large_ p) (chunk_used_ p + zlen s) (chunk_cap_ p) (bytes_ p) (index_ p), dst).

Definition intern (p : StringPool) (s : bytes) : StringPool * Z :=
  match index_ p !! s with
  | Some id => (p, id)
  | None =>
      let '(p, data) := store p s in
      let id := wrap 32 (zlen (entries_ p)) in
      (mkPool (entries_ p ++ [mkPoolEntry data (wrap 32 (zlen s))]) (chunks_ p) (large_ p)
         (chunk_used_ p) (chunk_cap_ p) (bytes_ p + zlen s) (<[s := id]> (index_ p)), id)
  end.

Definition find (p : StringPool) (s : bytes) : option Z := index_ p !! s.

Definition view (p : StringPool) (id : Z) : bytes :=
  match entries_ p !! Z.to_nat id with
  | Some e => deref p (e_data e) (e_len e)
  | None => []
  end.

Definition pool_clear (p : StringPool) : StringPool := pool_new.

(** ** Invariant *)

(** [names]: the interned strings, by id.  Everything an entry points to lies
    in written storage, and the chunk being filled is the last one. *)
Definition ptr_ok (p : StringPool) (d : Ptr) (s : bytes) : Prop :=
  match d with
  | PEmpty => s = []
  | PChunk k off => ∃ c, chunks_ p !! k = Some c ∧ 0 <= off ∧ off + zlen s <= zlen c
                         ∧ take (length s) (drop (Z.to_nat off) c) = s
  | PLarge k => large_ p !! k = Some s
  end.

Record pool_inv (p : StringPool) (names : list bytes) : Prop := {
  pi_entries : Forall2 (λ e s, ptr_ok p (e_data e) s ∧ e_len e = zlen s ∧ zlen s < 2 ^ 32) (entries_ p) names;
  pi_nodup : NoDup names;
  pi_index : ∀ s id, index_ p !! s = Some id ↔ ∃ i : nat, id = Z.of_nat i ∧ names !! i = Some s;
  pi_chunk : chunk_cap_ p = 0 ∧ chunk_used_ p = 0 ∧ chunks_ p = []
             ∨ chunk_cap_ p = kChunkSize ∧ ∃ c, last (chunks_ p) = Some c ∧ zlen c = chunk_used_ p;
  pi_size : zlen names < 2 ^ 32;
  pi_bytes : bytes_ p = foldr (λ s n, zlen s + n) 0 names
}.

Lemma pool_new_inv : pool_inv pool_new [].
Proof.
  split; try done; [by apply NoDup_nil| |auto].
  intros s id. unfold pool_new; simpl. rewrite lookup_empty. split; [done|]. by intros (i & _ & ?).
Qed.

Lemma deref_ok p d s : ptr_ok p d s → deref p d (zlen s) = s.
Proof.
  unfold ptr_ok, deref, zlen. rewrite Nat2Z.id. destruct d.
  - by intros ->.
  - intros (c & Hc & _ & _ & Ht). by rewrite (list_lookup_total_correct _ _ _ Hc).
  - intros Hl. rewrite (list_lookup_total_correct _ _ _ Hl). by apply take_ge.
Qed.

Lemma view_ok p names (i : nat) s : pool_inv p names → names !! i = Some s → view p (Z.of_nat i) = s.
Proof.
  intros Hp Hi. destruct (Forall2_lookup_r _ _ _ _ _ (pi_entries _ _ Hp) Hi) as (e & He & Hptr & Hlen & _).
  unfold view. rewrite Nat2Z.id, He, Hlen. by apply deref_ok.
Qed.

Lemma find_ok p names s id : pool_inv p names →
  find p s = Some id ↔ ∃ i : nat, id = Z.of_nat i ∧ names !! i = Some s.
Proof. intros Hp. apply (pi_index _ _ Hp). Qed.

Lemma find_none p names s : pool_inv p names → find p s = None ↔ s ∉ names.
Proof.
  intros Hp. rewrite eq_None_not_Some, list_elem_of_lookup. split; intros H1 H2; apply H1.
  - destruct H2 as [i Hi]. exists (Z.of_nat i). apply (find_ok _ _ _ _ Hp). eauto.
  - destruct H2 as [id Hid]. apply (find_ok _ _ _ _ Hp) in Hid as (i & _ & ?). eauto.
Qed.

(** What [store] leaves alone and what it adds. *)
Lemma store_spec p names s : pool_inv p names →
  let '(p', d) := store p s in
  ptr_ok p' d s ∧ (∀ d0 s0, ptr_ok p d0 s0 → ptr_ok p' d0 s0)
  ∧ entries_ p' = entries_ p ∧ index_ p' = index_ p ∧ bytes_ p' = bytes_ p
  ∧ (chunk_cap_ p' = 0 ∧ chunk_used_ p' = 0 ∧ chunks_ p' = []
     ∨ chunk_cap_ p' = kChunkSize ∧ ∃ c, last (chunks_ p') = Some c ∧ zlen c = chunk_used_ p').
Proof.
  intros Hp. unfold store. case_bool_decide as Hs; [split_and!; try done; apply (pi_chunk _ _ Hp)|].
  destruct (Z.gtb_spec (zlen s) (kChunkSize / 4)) as [Hl|Hl].
  { split_and!; try done; [|intros [] s0; try done|apply (pi_chunk _ _ Hp)].
    - simpl. by rewrite lookup_app_r, Nat.sub_diag by lia.
    - simpl. intros Hk. by apply lookup_app_l_Some. }
  set (q := if chunk_used_ p + zlen s >? chunk_cap_ p then _ else p).
  assert (∃ cs c, chunks_ q = cs ++ [c] ∧ zlen c = chunk_used_ q ∧ chunk_cap_ q = kChunkSize
    ∧ (∀ d0 s0, ptr_ok p d0 s0 → ptr_ok q d0 s0)
    ∧ entries_ q = entries_ p ∧ index_ q = index_ p ∧ bytes_ q = bytes_ p ∧ large_ q = large_ p) as
    (cs & c & Hcs & Hc & Hcap & Hold & He & Hi & Hb & Hlg).
  { unfold q. destruct (Z.gtb_spec (chunk_used_ p + zlen s) (chunk_cap_ p)) as [Hg|Hg].
    - exists (chunks_ p), []. split_and!; try done. intros [|k off|k] s0; try done. simpl.
      intros (c0 & Hc0 & ?). exists c0. split; [by apply lookup_app_l_Some|done].
    - destruct (pi_chunk _ _ Hp) as [(H1 & H2 & _)|(H1 & c & H2 & H3)].
      { destruct s; [done|]. rewrite zlen_cons in Hg. pose proof (zlen_nonneg s). lia. }
      apply last_Some in H2 as [cs Hcs]. by exists cs, c. }
  clearbody q. cbn [chunks_ large_ chunk_used_ chunk_cap_ entries_ index_ bytes_].
  assert (length (chunks_ q) - 1 = length cs)%nat as -> by (rewrite Hcs, length_app; simpl; lia).
  assert (chunks_ q !!! length cs = c) as -> by (rewrite Hcs, lookup_total_app_r, Nat.sub_diag by lia; done).
  assert (take (Z.to_nat (chunk_used_ q)) c = c) as -> by (apply take_ge; rewrite <- Hc; unfold zlen; lia).
  rewrite Hcs, insert_app_r_alt, Nat.sub_diag by lia. cbn [insert list_insert].
  split_and!; try done.
  - exists (c ++ s). split_and!; [simpl; by rewrite lookup_app_r, Nat.sub_diag by lia|pose proof (zlen_nonneg c); lia| |].
    + rewrite zlen_app. lia.
    + rewrite <- Hc. unfold zlen. rewrite Nat2Z.id, drop_app_length. by apply take_ge.
  - intros d0 s0 H0%Hold. destruct d0 as [|k off|k]; simpl in *; [done| |done].
    destruct H0 as (c0 & Hk & Ho1 & Ho2 & Ht). rewrite Hcs in Hk.
    destruct (decide (k = length cs)) as [->|Hk'].
    + rewrite lookup_app_r, Nat.sub_diag in Hk by lia. simplify_eq/=. exists (c0 ++ s).
      rewrite lookup_app_r, Nat.sub_diag, zlen_app by lia. pose proof (zlen_nonneg s).
      split_and!; [done|lia..|]. unfold zlen in *.
      rewrite drop_app_le, take_app_le by (rewrite ?length_drop; lia). done.
    + apply lookup_app_Some in Hk as [Hk|[? Hk]].
      * exists c0. split; [by apply lookup_app_l_Some|done].
      * apply lookup_lt_Some in Hk. simpl in Hk. lia.
  - right. split; [done|]. exists (c ++ s). rewrite last_snoc, zlen_app, Hc. auto.
Qed.

(** Interning: the id of an interned name is its position, a new name gets the
    next one, and no other name moves. *)
Lemma intern_ok p names s : pool_inv p names → zlen s < 2 ^ 32 → zlen names + 1 < 2 ^ 32 →
  let '(p', id) := intern p s in
  ∃ names' (i : nat), pool_inv p' names' ∧ names `prefix_of` names' ∧ id = Z.of_nat i ∧ names' !! i = Some s
    ∧ (s ∈ names → p' = p ∧ names' = names) ∧ (s ∉ names → names' = names ++ [s]).
Proof.
  intros Hp Hs Hn. unfold intern. destruct (index_ p !! s) as [id|] eqn:Hid.
  { apply (pi_index _ _ Hp) in Hid as (i & -> & Hi). exists names, i. split_and!; try done.
    intros Hni. exfalso. apply Hni. by eapply list_elem_of_lookup_2. }
  pose proof (proj1 (find_none _ _ _ Hp) Hid) as Hni.
  pose proof (store_spec p names s Hp) as Hst. destruct (store p s) as [p' d].
  destruct Hst as (Hd & Hold & He & Hi & Hb & Hc).
  pose proof (pi_entries _ _ Hp) as HF. pose proof (Forall2_length _ _ _ HF) as Hlen.
  rewrite (wrap_id 32 (zlen s)) by (split; [apply zlen_nonneg|done]). rewrite He.
  rewrite (wrap_id 32) by (unfold zlen in *; lia).
  assert (zlen (entries_ p) = Z.of_nat (length names)) as -> by (unfold zlen; lia).
  exists (names ++ [s]), (length names).
  split_and!; [|by eexists|done|by rewrite lookup_app_r, Nat.sub_diag by lia|done|done].
  split; cbn [entries_ chunks_ large_ chunk_used_ chunk_cap_ bytes_ index_].
  - apply Forall2_app; [|by repeat constructor]. eapply Forall2_impl; [exact HF|]. intros e t (? & ? & ?).
    split; [by apply Hold|done].
  - apply NoDup_app. split_and!; [apply (pi_nodup _ _ Hp)| |by apply NoDup_singleton].
    intros x Hx ->%list_elem_of_singleton. done.
  - intros t id. rewrite Hi. destruct (decide (t = s)) as [->|Hts].
    + rewrite lookup_insert_eq. split.
      * intros [= <-]. exists (length names). by rewrite lookup_app_r, Nat.sub_diag by lia.
      * intros (i & -> & [Hx|[Hge Hx]]%lookup_app_Some); [by apply list_elem_of_lookup_2 in Hx|].
        apply list_lookup_singleton_Some in Hx as [Hx _]. f_equal. lia.
    + rewrite lookup_insert_ne by done. rewrite (pi_index _ _ Hp). split.
      * intros (i & -> & Hx). exists i. by rewrite lookup_app_l by (by eapply lookup_lt_Some).
      * intros (i & -> & [Hx|[Hge Hx]]%lookup_app_Some); [by eauto|].
        apply list_lookup_singleton_Some in Hx as [_ Hx]. done.
  - exact Hc.
  - rewrite zlen_app. unfold zlen in *. simpl. lia.
  - rewrite Hb, (pi_bytes _ _ Hp), foldr_app. simpl. clear.
    induction names as [|t names IH]; simpl; lia.
Qed.

(** Any sequence of interned names. *)
Definition intern_all (p : StringPool) (l : list bytes) : StringPool := foldl (λ p s, (intern p s).1) p l.

Lemma intern_all_ok p names l : pool_inv p names → Forall (λ s, zlen s < 2 ^ 32) l → zlen names + zlen l < 2 ^ 32 →
  ∃ names', pool_inv (intern_all p l) names' ∧ names `prefix_of` names'
    ∧ zlen names' <= zlen names + zlen l ∧ (∀ x, x ∈ names' → x ∈ names ∨ x ∈ l).
Proof.
  revert p names. induction l as [|s l IH]; intros p names Hp Hl Hn.
  { exists names. rewrite zlen_nil. split_and!; [done|done|lia|auto]. }
  inversion Hl; subst. rewrite zlen_cons in *. pose proof (zlen_nonneg l). pose proof (zlen_nonneg names).
  pose proof (intern_ok p names s Hp) as Hi. cbn [intern_all foldl]. destruct (intern p s) as [p' id].
  destruct Hi as (n1 & i & Hp' & Hpre & _ & _ & Hin & Hout); [done|lia|].
  assert (zlen n1 <= zlen names + 1 ∧ ∀ x, x ∈ n1 → x ∈ names ∨ x = s) as [Hn1 Hsub].
  { destruct (decide (s ∈ names)) as [Hx|Hx].
    - rewrite (proj2 (Hin Hx)). split; [lia|auto].
    - rewrite (Hout Hx), zlen_app. split; [unfold zlen; simpl; lia|]. intros x. rewrite elem_of_app. set_solver. }
  destruct (IH p' n1) as (n2 & ? & ? & ? & Hsub'); [done|done|lia|].
  exists n2. split_and!; [done|by etrans|lia|]. intros x [[?| ->]%Hsub|?]%Hsub'; set_solver.
Qed.

Lemma intern_view p names s : pool_inv p names → zlen s < 2 ^ 32 → zlen names + 1 < 2 ^ 32 →
  view (intern p s).1 (intern p s).2 = s.
Proof.
  intros Hp Hs Hn. pose proof (intern_ok p names s Hp Hs Hn) as Hi. destruct (intern p s) as [p' id].
  destruct Hi as (n1 & i & Hp' & _ & -> & Hi & _). by eapply view_ok.
Qed.

(** Interning is stable and injective.  After any sequence of interned
    names, the id of a name reads back as the name, [find] gives it again, it
    still reads back after any further names are interned (chunks are never
    moved or overwritten), and a name that was never interned is not found, so
    a failed [find] is a definitive "no such name". *)
Theorem intern_stable before s after fresh :
  Forall (λ s, zlen s < 2 ^ 32) (before ++ s :: after) → zlen (before ++ s :: after) < 2 ^ 32 →
  fresh ∉ before ++ s :: after →
  let p := (intern (intern_all pool_new before) s).1 in
  let id := (intern (intern_all pool_new before) s).2 in
  let q := intern_all p after in
  view p id = s ∧ view q id = s ∧ find q s = Some id ∧ find q fresh = None.
Proof.
  intros Hf Hn Hfr. apply Forall_app in Hf as [Hf1 Hf2]. inversion Hf2 as [|? ? Hs Hf3]; subst.
  assert (0 <= zlen before ∧ 0 <= zlen after) as [? ?] by (split; apply zlen_nonneg).
  rewrite zlen_app, zlen_cons in Hn.
  destruct (intern_all_ok pool_new [] before) as (n0 & Hp0 & _ & Hn0 & Hsub0);
    [apply pool_new_inv|done|rewrite zlen_nil; lia|]. rewrite zlen_nil in Hn0.
  pose proof (intern_ok _ _ s Hp0 Hs) as Hi. pose proof (intern_view _ _ s Hp0 Hs) as Hv.
  destruct (intern (intern_all pool_new before) s) as [p id]. cbn [fst snd] in *.
  destruct Hi as (n1 & i & Hp1 & _ & -> & Hi & Hin & Hout); [lia|].
  assert (zlen n1 <= zlen before + 1 ∧ ∀ x, x ∈ n1 → x ∈ before ∨ x = s) as [Hn1 Hsub1].
  { destruct (decide (s ∈ n0)) as [Hx|Hx].
    - rewrite (proj2 (Hin Hx)). split; [lia|]. intros x Hx'%Hsub0. set_solver.
    - rewrite (Hout Hx), zlen_app. split; [unfold zlen in *; simpl; lia|]. intros x. rewrite elem_of_app.
      intros [Hx'%Hsub0|?]; set_solver. }
  destruct (intern_all_ok p n1 after) as (n2 & Hq & Hpre & _ & Hsub2); [done|done|lia|].
  assert (n2 !! i = Some s) as Hi2 by by eapply prefix_lookup_Some.
  split_and!; [apply Hv; lia|by eapply view_ok|apply (find_ok _ _ _ _ Hq); eauto|].
  apply (find_none _ _ _ Hq). intros Hx%Hsub2. apply Hfr. destruct Hx as [Hx%Hsub1|?]; set_solver.
Qed.

Lemma intern_stable_witness :
  view (intern_all (intern (intern_all pool_new [str "a"; str "b"]) (str "c")).1 [str "d"; str "a"]) 2 = str "c".
Proof.
  apply (intern_stable [str "a"; str "b"] (str "c") [str "d"; str "a"] (str "z"));
    try (apply (bool_decide_unpack _); vm_compute; exact I); vm_compute; reflexivity.
Defined.
