(* ===== verification/MetadataTree.v ===== *)
(** * The metadata tree ([core/metadata_tree.hpp], [core/metadata_tree.cpp])

    Nodes live in one vector and are addressed by index; children form a doubly
    linked list through the nodes; two key maps index the children of a node by
    (parent, name id) and (parent, folded name id).  The tree is generic in the
    key map ([KeyMapOps]).  An out-of-range access of the source, which is
    undefined there, reads the inhabitant of [Node] and writes nothing; the
    invariant of [TreeInv] excludes it. *)

From S2P Require Import Prelude Types KeyMap Path Unicode StringPool.

Inductive LookupMode := Exact | CaseInsensitive.

Record Node := mkNode {
  n_name : Z;            (* kInvalidName marks a free slot *)
  n_folded : Z;
  n_parent : Z;
  n_first : Z;
  n_last : Z;
  n_next : Z;
  n_prev : Z;
  n_count : Z;
  n_attr : Attributes
}.

Definition fresh_node : Node :=
  mkNode kInvalidName kInvalidName kInvalidNode kInvalidNode kInvalidNode kInvalidNode kInvalidNode 0 default_attr.
#[global] Instance Node_inhabited : Inhabited Node := populate fresh_node.

Definition is_dir_kind (k : NodeKind) : bool := match k with Directory => true | _ => false end.
Definition is_dir (n : Node) : bool := is_dir_kind (a_kind (n_attr n)).

(** Field assignments. *)
Definition set_name v n := mkNode v (n_folded n) (n_parent n) (n_first n) (n_last n) (n_next n) (n_prev n) (n_count n) (n_attr n).
Definition set_folded v n := mkNode (n_name n) v (n_parent n) (n_first n) (n_last n) (n_next n) (n_prev n) (n_count n) (n_attr n).
Definition set_parent v n := mkNode (n_name n) (n_folded n) v (n_first n) (n_last n) (n_next n) (n_prev n) (n_count n) (n_attr n).
Definition set_first v n := mkNode (n_name n) (n_folded n) (n_parent n) v (n_last n) (n_next n) (n_prev n) (n_count n) (n_attr n).
Definition set_last v n := mkNode (n_name n) (n_folded n) (n_parent n) (n_first n) v (n_next n) (n_prev n) (n_count n) (n_attr n).
Definition set_next v n := mkNode (n_name n) (n_folded n) (n_parent n) (n_first n) (n_last n) v (n_prev n) (n_count n) (n_attr n).
Definition set_prev v n := mkNode (n_name n) (n_folded n) (n_parent n) (n_first n) (n_last n) (n_next n) v (n_count n) (n_attr n).
Definition set_count v n := mkNode (n_name n) (n_folded n) (n_parent n) (n_first n) (n_last n) (n_next n) (n_prev n) v (n_attr n).
Definition set_attr v n := mkNode (n_name n) (n_folded n) (n_parent n) (n_first n) (n_last n) (n_next n) (n_prev n) (n_count n) v.

Definition kImplicitDirectory : Attributes := mkAttr 0 0 493 Directory.   (* mode 0755 *)

Definition key (parent name : Z) : Z := Z.lor (Z.shiftl parent 32) name.

(** [std::any_of(name, c >= 'A' && c <= 'Z')]; [char] is signed, so a byte at or
    above 0x80 is negative and never in range. *)
Definition has_upper (name : bytes) : bool := existsb (λ c, (65 <=? c) && (c <=? 90)) name.

Definition valid_name (name : bytes) : bool :=
  if bool_decide (name = []) || bool_decide (name = [c_dot]) || bool_decide (name = [c_dot; c_dot]) then false
  else forallb (λ c, negb (is_path_separator c || (c =? 0))) name.

Section tree.
Context {M : Type} `{KeyMapOps M}.

Record MetadataTree := mkTree {
  names_ : StringPool;
  nodes_ : list Node;
  free_ : list Z;          (* the back of the vector is the head *)
  exact_ : M;
  folded_ : M;
  live_ : Z;
  collisions_ : Z;
  dropped_ : Z
}.

Definition with_names p (t : MetadataTree) := mkTree p (nodes_ t) (free_ t) (exact_ t) (folded_ t) (live_ t) (collisions_ t) (dropped_ t).
Definition with_nodes ns (t : MetadataTree) := mkTree (names_ t) ns (free_ t) (exact_ t) (folded_ t) (live_ t) (collisions_ t) (dropped_ t).
Definition with_free fr (t : MetadataTree) := mkTree (names_ t) (nodes_ t) fr (exact_ t) (folded_ t) (live_ t) (collisions_ t) (dropped_ t).
Definition with_exact e (t : MetadataTree) := mkTree (names_ t) (nodes_ t) (free_ t) e (folded_ t) (live_ t) (collisions_ t) (dropped_ t).
Definition with_folded f (t : MetadataTree) := mkTree (names_ t) (nodes_ t) (free_ t) (exact_ t) f (live_ t) (collisions_ t) (dropped_ t).
Definition with_live l (t : MetadataTree) := mkTree (names_ t) (nodes_ t) (free_ t) (exact_ t) (folded_ t) l (collisions_ t) (dropped_ t).
Definition with_collisions c (t : MetadataTree) := mkTree (names_ t) (nodes_ t) (free_ t) (exact_ t) (folded_ t) (live_ t) c (dropped_ t).
Definition with_dropped d (t : MetadataTree) := mkTree (names_ t) (nodes_ t) (free_ t) (exact_ t) (folded_ t) (live_ t) (collisions_ t) d.

Definition root : Z := 0.
Definition node (t : MetadataTree) (id : Z) : Node := nodes_ t !!! Z.to_nat id.
Definition upd (id : Z) (f : Node → Node) (t : MetadataTree) : MetadataTree :=
  with_nodes (alter f (Z.to_nat id) (nodes_ t)) t.
Definition valid (t : MetadataTree) (id : Z) : bool :=
  (id <? zlen (nodes_ t)) && negb (n_name (node t id) =? kInvalidName).
Definition name (t : MetadataTree) (id : Z) : bytes := view (names_ t) (n_name (node t id)).

(** A tree with the root only, over an empty pool and the given indices. *)
Definition with_root (e f : M) : MetadataTree :=
  let '(p, rn) := intern pool_new [] in
  let r := set_attr kImplicitDirectory (set_folded rn (set_name rn fresh_node)) in
  mkTree p [r] [] e f 1 0 0.

Definition tree_new : MetadataTree := with_root km_new km_new.

Definition alloc_node (t : MetadataTree) : MetadataTree * Z :=
  match free_ t with
  | id :: fr => (upd id (λ _, fresh_node) (with_free fr t), id)
  | [] => (with_nodes (nodes_ t ++ [fresh_node]) t, wrap 32 (zlen (nodes_ t ++ [fresh_node]) - 1))
  end.

Definition link_child (parent child : Z) (t : MetadataTree) : MetadataTree :=
  let t := upd child (set_parent parent) t in
  let t := upd child (set_next kInvalidNode) t in
  let last := n_last (node t parent) in
  let t := upd child (set_prev last) t in
  let t := if negb (last =? kInvalidNode) then upd last (set_next child) t
           else upd parent (set_first child) t in
  let t := upd parent (set_last child) t in
  upd parent (λ n, set_count (wrap 32 (n_count n + 1)) n) t.

Definition unlink_child (child : Z) (t : MetadataTree) : MetadataTree :=
  let c := node t child in
  let parent := n_parent c in
  let t := if negb (n_prev c =? kInvalidNode) then upd (n_prev c) (set_next (n_next c)) t
           else upd parent (set_first (n_next c)) t in
  let t := if negb (n_next c =? kInvalidNode) then upd (n_next c) (set_prev (n_prev c)) t
           else upd parent (set_last (n_prev c)) t in
  let t := upd parent (λ n, set_count (wrap 32 (n_count n - 1)) n) t in
  upd child (λ n, set_next kInvalidNode (set_prev kInvalidNode n)) t.

Definition index_node (id : Z) (t : MetadataTree) : MetadataTree :=
  let n := node t id in
  let t := with_exact (km_insert_or_assign (exact_ t) (key (n_parent n) (n_name n)) id).1 t in
  let '(f, inserted) := km_insert_if_absent (folded_ t) (key (n_parent n) (n_folded n)) id in
  let t := with_folded f t in
  if inserted then t else with_collisions (wrap 64 (collisions_ t + 1)) t.

(** The sibling scan of [unindex_node]: the first [s] in the list from [s] on
    with [s != id && nodes_[s].folded_name == fid]. *)
Fixpoint find_sibling (fuel : nat) (t : MetadataTree) (s id fid : Z) : option Z :=
  match fuel with
  | O => None
  | S fuel =>
      if s =? kInvalidNode then None
      else if negb (s =? id) && (n_folded (node t s) =? fid) then Some s
      else find_sibling fuel t (n_next (node t s)) id fid
  end.

Definition unindex_node (id : Z) (t : MetadataTree) : MetadataTree :=
  let n := node t id in
  let t := with_exact (km_erase (exact_ t) (key (n_parent n) (n_name n))).1 t in
  let fk := key (n_parent n) (n_folded n) in
  match km_find (folded_ t) fk with
  | None => t
  | Some owner =>
      if negb (owner =? id) then with_collisions (wrap 64 (collisions_ t - 1)) t
      else
        let t := with_folded (km_erase (folded_ t) fk).1 t in
        if collisions_ t =? 0 then t
        else
          match find_sibling (S (length (nodes_ t))) t (n_first (node t (n_parent n))) id (n_folded n) with
          | Some s =>
              let t := with_folded (km_insert_if_absent (folded_ t) fk s).1 t in
              with_collisions (wrap 64 (collisions_ t - 1)) t
          | None => t
          end
  end.

(** The id of a name's folding: the name's own id when folding changes nothing. *)
Definition intern_folded (p : StringPool) (name : bytes) (nid : Z) : StringPool * Z :=
  if negb (is_ascii name) || has_upper name then intern p (casefold_append name []) else (p, nid).

Definition insert (t : MetadataTree) (parent : Z) (name : bytes) (attr : Attributes) : MetadataTree * Result Z :=
  if negb (valid t parent) then (t, Err NotFound)
  else if negb (is_dir (node t parent)) then (t, Err NotADirectory)
  else if negb (valid_name name) then (t, Err InvalidPath)
  else
    let '(p, nid) := intern (names_ t) name in
    let t := with_names p t in
    if bool_decide (km_find (exact_ t) (key parent nid) ≠ None) then (t, Err AlreadyExists)
    else
      let '(p, fid) := intern_folded (names_ t) name nid in
      let t := with_names p t in
      let '(t, id) := alloc_node t in
      let t := upd id (λ n, set_attr attr (set_folded fid (set_name nid n))) t in
      let t := link_child parent id t in
      let t := index_node id t in
      (with_live (wrap 64 (live_ t + 1)) t, Ok id).

(** [for (c = first; c != kInvalidNode; c = next) stack.push_back(c);] *)
Fixpoint push_children (fuel : nat) (t : MetadataTree) (c : Z) (stack : list Z) : list Z :=
  match fuel with
  | O => stack
  | S fuel => if c =? kInvalidNode then stack else push_children fuel t (n_next (node t c)) (c :: stack)
  end.

(** The stack loop of [release_subtree]: the tree and the stack when it stops. *)
Fixpoint release_loop (fuel : nat) (t : MetadataTree) (id : Z) (stack : list Z) : MetadataTree * list Z :=
  match fuel, stack with
  | S fuel, cur :: rest =>
      if negb (n_first (node t cur) =? kInvalidNode) then
        release_loop fuel t id (push_children (length (nodes_ t)) t (n_first (node t cur)) stack)
      else
        let t := if negb (cur =? id) then unlink_child cur t else t in
        let t := unindex_node cur t in
        let t := upd cur (set_name kInvalidName) t in
        let t := with_free (cur :: free_ t) t in
        release_loop fuel (with_live (wrap 64 (live_ t - 1)) t) id rest
  | _, _ => (t, stack)
  end.

(** Every node is expanded at most once and popped at most once. *)
Definition release_subtree (id : Z) (t : MetadataTree) : MetadataTree :=
  (release_loop (2 * length (nodes_ t)) t id [id]).1.

(** [while (n.first_child != kInvalidNode) { ... }] *)
Fixpoint drop_children (fuel : nat) (t : MetadataTree) (id : Z) : MetadataTree :=
  match fuel with
  | O => t
  | S fuel =>
      let c := n_first (node t id) in
      if c =? kInvalidNode then t
      else drop_children fuel (release_subtree c (unlink_child c t)) id
  end.

Definition set_attributes (t : MetadataTree) (id : Z) (attr : Attributes) : MetadataTree * Result unit :=
  if negb (valid t id) then (t, Err NotFound)
  else
    let n := node t id in
    let t :=
      if is_dir n && negb (is_dir_kind (a_kind attr)) && negb (n_count n =? 0)
      then drop_children (length (nodes_ t)) t id else t in
    (upd id (set_attr attr) t, Ok ()).

Definition find_child (t : MetadataTree) (parent : Z) (name : bytes) (mode : LookupMode) : option Z :=
  if negb (valid t parent) || negb (is_dir (node t parent)) then None
  else
    match (match find (names_ t) name with Some nid => km_find (exact_ t) (key parent nid) | None => None end) with
    | Some v => Some v
    | None =>
        match mode with
        | Exact => None
        | CaseInsensitive =>
            match find (names_ t) (casefold_append name []) with
            | None => None
            | Some fid => km_find (folded_ t) (key parent fid)
            end
        end
    end.

Definition upsert (t : MetadataTree) (parent : Z) (name : bytes) (attr : Attributes) : MetadataTree * Result Z :=
  if negb (valid t parent) then (t, Err NotFound)
  else
    match find_child t parent name Exact with
    | Some existing =>
        match set_attributes t existing attr with
        | (t, Err e) => (t, Err e)
        | (t, Ok _) => (t, Ok existing)
        end
    | None => insert t parent name attr
    end.

Definition remove (t : MetadataTree) (id : Z) : MetadataTree * Result unit :=
  if negb (valid t id) then (t, Err NotFound)
  else if id =? root then (t, Err InvalidArgument)
  else (release_subtree id (unlink_child id t), Ok ()).

(** [for (a = new_parent; a != kInvalidNode; a = parent) if (a == id) ...] *)
Fixpoint has_ancestor (fuel : nat) (t : MetadataTree) (a id : Z) : bool :=
  match fuel with
  | O => false
  | S fuel =>
      if a =? kInvalidNode then false
      else if a =? id then true
      else has_ancestor fuel t (n_parent (node t a)) id
  end.

Definition rename (t : MetadataTree) (id new_parent : Z) (new_name : bytes) : MetadataTree * Result unit :=
  if negb (valid t id) || negb (valid t new_parent) then (t, Err NotFound)
  else if id =? root then (t, Err InvalidArgument)
  else if negb (is_dir (node t new_parent)) then (t, Err NotADirectory)
  else if negb (valid_name new_name) then (t, Err InvalidPath)
  else if has_ancestor (S (length (nodes_ t))) t new_parent id then (t, Err InvalidArgument)
  else
    let '(p, nid) := intern (names_ t) new_name in
    let t := with_names p t in
    match km_find (exact_ t) (key new_parent nid) with
    | Some existing => if existing =? id then (t, Ok ()) else (t, Err AlreadyExists)
    | None =>
        let '(p, fid) := intern_folded (names_ t) new_name nid in
        let t := with_names p t in
        let t := unindex_node id t in
        let t := unlink_child id t in
        let t := upd id (λ n, set_folded fid (set_name nid n)) t in
        let t := link_child new_parent id t in
        (index_node id t, Ok ())
    end.

(** [comp == ".."] *)
Definition is_dotdot (comp : bytes) : bool := bool_decide (comp = [c_dot; c_dot]).

Definition lookup_step (t : MetadataTree) (mode : LookupMode) (cur : Z) (comp : bytes) : option Z :=
  if skipped comp then Some cur
  else if is_dotdot comp then
    Some (if negb (n_parent (node t cur) =? kInvalidNode) then n_parent (node t cur) else cur)
  else find_child t cur comp mode.

Fixpoint lookup_from (t : MetadataTree) (mode : LookupMode) (cur : Z) (comps : list bytes) : option Z :=
  match comps with
  | [] => Some cur
  | comp :: comps =>
      match lookup_step t mode cur comp with
      | None => None
      | Some next => lookup_from t mode next comps
      end
  end.

Definition lookup (t : MetadataTree) (path : bytes) (mode : LookupMode) : option Z :=
  lookup_from t mode root (scan path).

Fixpoint ensure_from (t : MetadataTree) (cur : Z) (comps : list bytes) : MetadataTree * Result Z :=
  match comps with
  | [] => (t, Ok cur)
  | comp :: comps =>
      if skipped comp then ensure_from t cur comps
      else if is_dotdot comp then (t, Err InvalidPath)
      else
        match find_child t cur comp Exact with
        | Some next =>
            if negb (is_dir (node t next)) then (t, Err NotADirectory) else ensure_from t next comps
        | None =>
            match insert t cur comp kImplicitDirectory with
            | (t, Ok created) => ensure_from t created comps
            | (t, Err e) => (t, Err e)
            end
        end
  end.

Definition ensure_directory_path (t : MetadataTree) (path : bytes) : MetadataTree * Result Z :=
  ensure_from t root (scan path).

Definition upsert_path (t : MetadataTree) (path : bytes) (attr : Attributes) : MetadataTree * Result Z :=
  let norm := normalize_path path in
  if bool_decide (norm = []) then (t, Err InvalidPath)
  else
    let '(parent, leaf) := split_parent norm in
    match ensure_directory_path t parent with
    | (t, Err e) => (t, Err e)
    | (t, Ok dir) => upsert t dir leaf attr
    end.

Definition remove_path (t : MetadataTree) (path : bytes) (mode : LookupMode) : MetadataTree * Result unit :=
  match lookup t path mode with
  | None => (t, Err NotFound)
  | Some id => remove t id
  end.

Definition tree_clear (t : MetadataTree) : MetadataTree :=
  with_root (km_clear (exact_ t)) (km_clear (folded_ t)).

(** The loop of [load_snapshot] at entry [k]; [ids] is indexed from the root. *)
Fixpoint load_loop (t : MetadataTree) (ids : list Z) (k : Z) (es : list SnapshotEntry) : MetadataTree * Result unit :=
  match es with
  | [] => (t, Ok ())
  | e :: es =>
      if se_parent e >? k then (t, Err Corrupt)
      else
        let parent := ids !!! Z.to_nat (se_parent e) in
        if parent =? kInvalidNode then
          load_loop (with_dropped (dropped_ t + 1) t) (ids ++ [kInvalidNode]) (k + 1) es
        else
          match insert t parent (se_name e) (se_attr e) with
          | (t, Err _) => load_loop (with_dropped (dropped_ t + 1) t) (ids ++ [kInvalidNode]) (k + 1) es
          | (t, Ok id) => load_loop t (ids ++ [id]) (k + 1) es
          end
  end.

Definition load_snapshot (t : MetadataTree) (entries : list SnapshotEntry) : MetadataTree * Result unit :=
  let t := tree_clear t in
  let t := with_exact (km_reserve (exact_ t) (zlen entries + 1)) t in
  let t := with_folded (km_reserve (folded_ t) (zlen entries + 1)) t in
  load_loop t [root] 0 entries.

(** The ids [for_each_child] visits, in order. *)
Fixpoint children_from (fuel : nat) (t : MetadataTree) (c : Z) : list Z :=
  match fuel with
  | O => []
  | S fuel => if c =? kInvalidNode then [] else c :: children_from fuel t (n_next (node t c))
  end.
Definition for_each_child (t : MetadataTree) (dir : Z) : list Z :=
  children_from (length (nodes_ t)) t (n_first (node t dir)).

(** [path_of]: the chain up to the root, then the names joined by [sep]. *)
Fixpoint chain_from (fuel : nat) (t : MetadataTree) (cur : Z) (acc : list Z) : list Z :=
  match fuel with
  | O => acc
  | S fuel => if cur =? root then acc else chain_from fuel t (n_parent (node t cur)) (cur :: acc)
  end.

Definition path_of (t : MetadataTree) (id : Z) (sep : byte) : bytes :=
  if negb (valid t id) || (id =? root) then []
  else
    foldl (λ out i, (if bool_decide (out = []) then out else out ++ [sep]) ++ name t i) []
      (chain_from (length (nodes_ t)) t id []).

(** [export_snapshot]: the breadth-first loop; [queue] is what is left of it
    from [qi] on, [next] is [next_index]. *)
Fixpoint export_children (t : MetadataTree) (idx : Z) (cs : list Z) (next : Z)
    : list SnapshotEntry * list (Z * Z) * Z :=
  match cs with
  | [] => ([], [], next)
  | c :: cs =>
      let n := node t c in
      let '(es, q, next') := export_children t idx cs (wrap 32 (next + 1)) in
      (mkSnap idx (view (names_ t) (n_name n)) (n_attr n) :: es,
       (if is_dir n then [(c, next)] else []) ++ q, next')
  end.

Fixpoint export_loop (fuel : nat) (t : MetadataTree) (queue : list (Z * Z)) (next : Z) : list SnapshotEntry :=
  match fuel, queue with
  | S fuel, (id, idx) :: queue =>
      let '(es, q, next) := export_children t idx (for_each_child t id) next in
      es ++ export_loop fuel t (queue ++ q) next
  | _, _ => []
  end.

Definition export_snapshot (t : MetadataTree) : list SnapshotEntry :=
  export_loop (length (nodes_ t)) t [(root, 0)] 1.

(** [stats]: nodes, names, name bytes, case collisions, dropped entries. *)
Definition stats (t : MetadataTree) : Z * Z * Z * Z * Z :=
  (live_ t, zlen (entries_ (names_ t)), bytes_ (names_ t), collisions_ t, dropped_ t).
End tree.
Arguments MetadataTree : clear implicits.
