(* ===== verification/Forest.v ===== *)
(** * The forest behind the node vector

    What [MetadataTree]'s vector, sibling lists and free list stand for: a map
    from node ids to nodes with an explicit list of children.  This file has no
    pointers in it: the shape invariant, the ids reached by a path, and the
    operations on forests that the concrete operations implement
    ([TreeLinks], [TreeInv]). *)

From S2P Require Import Prelude Types KeyMap Path Unicode StringPool MetadataTree.

Record GNode := mkG { g_parent : Z; g_name : bytes; g_kids : list Z; g_attr : Attributes }.
Abbreviation forest := (gmap Z GNode).

Definition g_isdir (g : GNode) : bool := is_dir_kind (a_kind (g_attr g)).

(** The nodes a path of names leads to. *)
Inductive at_path (F : forest) : list bytes → Z → Prop :=
| at_root : at_path F [] 0
| at_child q c h : at_path F q (g_parent h) → F !! c = Some h → c ≠ 0 → at_path F (q ++ [g_name h]) c.

(** A tree under the root 0, but for [d], which its parent has let go of
    already ([d] = 0: nothing is detached). *)
Record forest_ok (d : Z) (F : forest) : Prop := {
  fo_kid : ∀ p g c, F !! p = Some g →
    c ∈ g_kids g ↔ c ≠ 0 ∧ c ≠ d ∧ ∃ h, F !! c = Some h ∧ g_parent h = p;
  fo_nodup : ∀ p g, F !! p = Some g → NoDup (g_kids g);
  fo_root : ∃ g, F !! 0 = Some g ∧ g_parent g = kInvalidNode ∧ g_name g = [];
  fo_range : ∀ id g, F !! id = Some g → 0 <= id < kInvalidNode;
  fo_home : ∀ id h, F !! id = Some h → id ≠ 0 → ∃ g, F !! g_parent h = Some g ∧ g_isdir g = true;
  fo_name : ∀ id h, F !! id = Some h → id ≠ 0 → valid_name (g_name h) = true;
  fo_uniq : ∀ a b g h, F !! a = Some g → F !! b = Some h → a ≠ 0 → b ≠ 0 →
    g_parent g = g_parent h → g_name g = g_name h → a = b;
  fo_reach : ∀ id h, F !! id = Some h → ∃ q, at_path F q id
}.

(** ** Paths *)

Section paths.
Context (F : forest).

Lemma at_path_id_inj q q' id : at_path F q id → at_path F q' id → q = q'.
Proof.
  intros H. revert q'. induction H as [|q c h Hq IH Hc Hn]; intros q' H'; inversion H' as [|q2 c2 h2 Hq2 Hc2 Hn2]; subst; try done.
  assert (h2 = h) as -> by congruence. by rewrite (IH _ Hq2).
Qed.

Lemma at_path_inj d q a b : forest_ok d F → at_path F q a → at_path F q b → a = b.
Proof.
  intros HF H. revert b. induction H as [|q c h Hq IH Hc Hn]; intros b H'.
  - inversion H' as [|q2 c2 h2 ? ? ? E]; [done|]. by destruct q2.
  - inversion H' as [E|q2 c2 h2 Hq2 Hc2 Hn2 E]; [by destruct q|]. subst.
    apply app_inj_tail in E as [-> E]. apply (fo_uniq _ _ HF c b h h2); try done. by apply IH.
Qed.

Lemma at_path_in d q id : forest_ok d F → at_path F q id → is_Some (F !! id).
Proof. intros HF []; [destruct (fo_root _ _ HF) as (g & ? & _)|]; by eauto. Qed.

Lemma at_path_parent q id h : F !! id = Some h → id ≠ 0 → at_path F q id →
  ∃ q', q = q' ++ [g_name h] ∧ at_path F q' (g_parent h).
Proof. intros Hid Hn H. inversion H as [|q' c h' Hq Hc Hn']; subst; [done|]. assert (h' = h) as -> by congruence. eauto. Qed.

Lemma at_path_app d q r id : forest_ok d F → at_path F (q ++ r) id → ∃ a, at_path F q a.
Proof.
  intros HF. revert id. induction r as [|s r IH] using rev_ind; intros id; [rewrite app_nil_r; eauto|].
  rewrite app_assoc. intros H. inversion H as [E|q' c h Hq Hc Hn E]; [by destruct (q ++ r)|].
  apply app_inj_tail in E as [-> _]. eauto.
Qed.

Lemma parent_irrefl d id h : forest_ok d F → F !! id = Some h → g_parent h ≠ id.
Proof.
  intros HF Hid E. destruct (fo_reach _ _ HF id h Hid) as [q Hq]. destruct (decide (id = 0)) as [->|Hn].
  - destruct (fo_root _ _ HF) as (g & Hg & Hp & _). assert (h = g) as -> by congruence. rewrite Hp in E. done.
  - destruct (at_path_parent q id h Hid Hn Hq) as (q' & -> & Hq'). rewrite E in Hq'.
    pose proof (at_path_id_inj _ _ _ Hq Hq') as Hl.
    apply (f_equal length) in Hl. rewrite length_app in Hl. simpl in Hl. lia.
Qed.

(** Paths are bounded. *)
Lemma path_bound d : forest_ok d F → ∃ n, ∀ q id, at_path F q id → (length q <= n)%nat.
Proof.
  intros HF. assert (∃ n, ∀ id, id ∈ (map_to_list F).*1 → ∃ q, at_path F q id ∧ (length q <= n)%nat) as [n Hn].
  { assert (∀ id, id ∈ (map_to_list F).*1 → ∃ q, at_path F q id) as Hall.
    { intros id ([i h] & -> & Hi%elem_of_map_to_list)%list_elem_of_fmap. by eapply fo_reach. }
    induction (map_to_list F).*1 as [|id l IH]; [exists 0%nat; by intros ? ?%elem_of_nil|].
    destruct IH as [n Hn]; [set_solver|]. destruct (Hall id) as [q Hq]; [set_solver|].
    exists (n `max` length q)%nat. intros x [->|Hx]%elem_of_cons; [exists q; split; [done|lia]|].
    destruct (Hn x Hx) as (q' & ? & ?). exists q'. split; [done|lia]. }
  exists n. intros q id Hq. destruct (at_path_in d q id HF Hq) as [h Hh].
  destruct (Hn id) as (q' & Hq' & Hlen).
  - apply list_elem_of_fmap. exists (id, h). by rewrite elem_of_map_to_list.
  - by rewrite (at_path_id_inj _ _ _ Hq Hq').
Qed.
End paths.

(** ** Operations *)

Definition with_kids (f : list Z → list Z) (g : GNode) : GNode := mkG (g_parent g) (g_name g) (f (g_kids g)) (g_attr g).
Definition add_kid (c : Z) : GNode → GNode := with_kids (λ l, l ++ [c]).
Definition del_kid (c : Z) : GNode → GNode := with_kids (filter (λ x, x ≠ c)).
Definition with_home (p : Z) (s : bytes) (g : GNode) : GNode := mkG p s (g_kids g) (g_attr g).
Definition with_attr (a : Attributes) (g : GNode) : GNode := mkG (g_parent g) (g_name g) (g_kids g) a.

Definition parent_of (F : forest) (id : Z) : Z := default kInvalidNode (g_parent <$> F !! id).

Definition f_root : forest := {[ 0 := mkG kInvalidNode [] [] kImplicitDirectory ]}.
Definition f_add (p id : Z) (s : bytes) (a : Attributes) (F : forest) : forest :=
  <[id := mkG p s [] a]> (alter (add_kid id) p F).
Definition f_detach (id : Z) (F : forest) : forest := alter (del_kid id) (parent_of F id) F.
Definition f_attach (p id : Z) (s : bytes) (F : forest) : forest := alter (add_kid id) p (alter (with_home p s) id F).
Definition f_attr (id : Z) (a : Attributes) (F : forest) : forest := alter (with_attr a) id F.

(** [F'] has the nodes of [F], each at the same place. *)
Definition same_place (g h : GNode) : Prop := g_parent g = g_parent h ∧ g_name g = g_name h.

Lemma f_detach_lookup id F x h : f_detach id F !! x = Some h ↔
  ∃ g, F !! x = Some g ∧ h = if decide (parent_of F id = x) then del_kid id g else g.
Proof.
  unfold f_detach. rewrite lookup_alter_Some. split.
  - intros [(-> & g & Hg & ->)|(Hne & Hg)]; [exists g|exists h]; by case_decide.
  - intros (g & Hg & ->). case_decide; [left|right]; eauto.
Qed.

Lemma f_attach_lookup p id s F x h : p ≠ id → f_attach p id s F !! x = Some h ↔
  ∃ g, F !! x = Some g ∧ h = if decide (x = p) then add_kid id g else if decide (x = id) then with_home p s g else g.
Proof.
  intros Hne. unfold f_attach. rewrite !lookup_alter. repeat case_decide; subst; try done;
    destruct (F !! _) eqn:E; cbn; split; intros HH; simplify_eq/=; try done; eauto;
    by destruct HH as (? & ? & ?); simplify_eq/=.
Qed.

Lemma f_add_lookup p id s a F x h : F !! id = None → f_add p id s a F !! x = Some h ↔
  (x = id ∧ h = mkG p s [] a) ∨ ∃ g, F !! x = Some g ∧ h = if decide (x = p) then add_kid id g else g.
Proof.
  intros Hid. unfold f_add. rewrite lookup_insert_Some, lookup_alter_Some. split.
  - intros [(-> & <-)|(Hne & [(-> & g & Hg & ->)|(? & Hg)])]; [by left|right; exists g|right; exists h]; by case_decide.
  - intros [(-> & ->)|(g & Hg & ->)]; [by left|right]. split; [congruence|]. case_decide; [left|right]; eauto.
Qed.

Lemma f_root_ok : forest_ok 0 f_root.
Proof.
  unfold f_root. split; try (intros ? ? [<- <-]%lookup_singleton_Some; cbn); try done.
  - intros p g c [<- <-]%lookup_singleton_Some. cbn. rewrite elem_of_nil. split; [done|].
    by intros (? & _ & h & [<- _]%lookup_singleton_Some & _).
  - by apply NoDup_nil.
  - eexists. rewrite lookup_singleton_eq. done.
  - by intros a b g h [<- <-]%lookup_singleton_Some [<- <-]%lookup_singleton_Some.
  - exists []. constructor.
Qed.

(** ** The shape under the operations *)

Lemma at_path_mono F F' q id :
  (∀ x g, F !! x = Some g → ∃ h, F' !! x = Some h ∧ same_place g h) → at_path F q id → at_path F' q id.
Proof.
  intros Hs. induction 1 as [|q c h Hq IH Hc Hn]; [constructor|].
  destruct (Hs c h Hc) as (h' & Hc' & Hp & ->). constructor; [|done|done]. by rewrite <- Hp.
Qed.

Lemma at_path_add d p id s a F q x : forest_ok d F → is_Some (F !! p) → F !! id = None →
  at_path (f_add p id s a F) q x ↔ at_path F q x ∨ (x = id ∧ ∃ qp, at_path F qp p ∧ q = qp ++ [s]).
Proof.
  intros HF [gp Hp] Hid. split.
  - induction 1 as [|q c h Hq IH Hc Hn]; [left; constructor|].
    apply f_add_lookup in Hc as [(-> & ->)|(g & Hg & Eh)]; [|..|done].
    + cbn in *. right. split; [done|]. destruct IH as [IH|(-> & _)]; [eauto|congruence].
    + left. destruct (fo_home _ _ HF c g Hg Hn) as (gp' & Hgp' & _).
      assert (g_parent h = g_parent g ∧ g_name h = g_name g) as [E1 E2] by (subst; by case_decide).
      rewrite E1 in *. rewrite E2. destruct IH as [IH|(E & _)]; [by constructor|congruence].
  - assert (∀ q x, at_path F q x → at_path (f_add p id s a F) q x) as Hm.
    { intros q' x'. apply at_path_mono. intros y g Hg. eexists. rewrite f_add_lookup by done. split; [eauto|]. by case_decide. }
    intros [?|(-> & qp & Hqp & ->)]; [by apply Hm|].
    apply (at_child _ qp id (mkG p s [] a)); [by apply Hm|apply f_add_lookup; [done|by left]|].
    destruct (fo_root _ _ HF) as (g & ? & _). congruence.
Qed.

(** A node is never the parent of a node when it is not there. *)
Lemma no_parent d F id x h : forest_ok d F → F !! id = None → 0 <= id < kInvalidNode → F !! x = Some h → g_parent h ≠ id.
Proof.
  intros HF Hid Hr Hx E. destruct (decide (x = 0)) as [->|Hx0].
  - destruct (fo_root _ _ HF) as (g0 & ? & ? & _). assert (h = g0) as -> by congruence. lia.
  - destruct (fo_home _ _ HF x h Hx Hx0) as (g' & ? & _). congruence.
Qed.

Lemma f_add_ok p id s a F g : forest_ok 0 F → F !! p = Some g → g_isdir g = true → valid_name s = true →
  F !! id = None → 0 <= id < kInvalidNode →
  (∀ x h, F !! x = Some h → x ≠ 0 → g_parent h = p → g_name h ≠ s) → forest_ok 0 (f_add p id s a F).
Proof.
  intros HF Hp Hdir Hs Hid Hr Huniq.
  assert (∀ x h, F !! x = Some h → g_parent h ≠ id) as Hnp by eauto using no_parent.
  assert (id ≠ 0) as Hid0 by (destruct (fo_root _ _ HF) as (? & ? & _); congruence).
  assert (∀ x h, f_add p id s a F !! x = Some h → x = id ∧ h = mkG p s [] a ∨
     ∃ g, F !! x = Some g ∧ x ≠ id ∧ same_place g h ∧ h = if decide (x = p) then add_kid id g else g) as Hinv.
  { intros x h [?|(g' & Hg' & Eh)]%f_add_lookup; [by left| |done]. right. exists g'.
    split_and!; [done|congruence|subst; by case_decide|done]. }
  assert (∀ x g', F !! x = Some g' → f_add p id s a F !! x = Some (if decide (x = p) then add_kid id g' else g')) as Hfwd.
  { intros x g' Hx. apply f_add_lookup; [done|right; eauto]. }
  assert (f_add p id s a F !! id = Some (mkG p s [] a)) as Hnew by (apply f_add_lookup; [done|by left]).
  split.
  - intros x h c Hx. destruct (Hinv x h Hx) as [(-> & ->)|(g' & Hg' & Hne & _ & ->)].
    + cbn. rewrite elem_of_nil. split; [done|]. intros (_ & _ & hc & [(-> & ->)|(gc & Hc & _ & [<- _] & _)]%Hinv & E); cbn in *; [congruence|by eapply Hnp].
    + transitivity (c ∈ g_kids g' ∨ c = id ∧ x = p); [case_decide; cbn; set_solver|]. rewrite (fo_kid _ _ HF x g' c Hg'). split.
      * intros [(H1 & H2 & hc & Hc & <-)|(-> & ->)]; [|by eauto 10]. split_and!; [done..|]. eexists. split; [by apply Hfwd|]. by repeat case_decide.
      * intros (H1 & H2 & hc & [(-> & ->)|(gc & Hc & _ & [<- _] & _)]%Hinv & E); [by right|left; eauto].
  - intros x h [(-> & ->)|(g' & Hg' & Hne & _ & ->)]%Hinv; [by apply NoDup_nil|].
    pose proof (fo_nodup _ _ HF x g' Hg'). case_decide; [|done]. cbn. apply NoDup_app.
    split_and!; [done| |by apply NoDup_singleton]. intros c Hc ->%list_elem_of_singleton.
    apply (fo_kid _ _ HF x g' id Hg') in Hc as (_ & _ & ? & ? & _). congruence.
  - destruct (fo_root _ _ HF) as (g0 & H0 & H1 & H2). eexists. split; [by apply Hfwd|]. by case_decide.
  - intros x h [(-> & ->)|(g' & Hg' & _)]%Hinv; [done|by eapply fo_range].
  - intros x h [(-> & ->)|(g' & Hg' & Hne & [<- _] & _)]%Hinv Hx0; cbn.
    + eexists. split; [by apply Hfwd|by case_decide].
    + destruct (fo_home _ _ HF x g' Hg' Hx0) as (gp & Hgp & Hd). eexists. split; [by apply Hfwd|by case_decide].
  - intros x h [(-> & ->)|(g' & Hg' & _ & [_ <-] & _)]%Hinv Hx0; [done|by eapply fo_name].
  - intros x y h h' [(-> & ->)|(g1 & Hg1 & _ & [E1 E2] & _)]%Hinv [(-> & ->)|(g2 & Hg2 & _ & [E3 E4] & _)]%Hinv Hx0 Hy0 Ep En; cbn in *; [done|..].
    + exfalso. apply (Huniq y g2); congruence.
    + exfalso. apply (Huniq x g1); congruence.
    + apply (fo_uniq _ _ HF x y g1 g2); congruence.
  - intros x h Hx. setoid_rewrite (at_path_add 0 p id s a F); [|done|eauto|done].
    destruct (Hinv x h Hx) as [(-> & ->)|(g' & Hg' & _)].
    + destruct (fo_reach _ _ HF p g Hp) as [q Hq]. exists (q ++ [s]). right. eauto.
    + destruct (fo_reach _ _ HF x g' Hg') as [q Hq]. eauto.
Qed.

Lemma parent_of_some F id h : F !! id = Some h → parent_of F id = g_parent h.
Proof. unfold parent_of. by intros ->. Qed.

Lemma at_path_same F F' q id : (∀ x g, F !! x = Some g → ∃ h, F' !! x = Some h ∧ same_place g h) →
  (∀ x h, F' !! x = Some h → ∃ g, F !! x = Some g ∧ same_place g h) → at_path F' q id ↔ at_path F q id.
Proof.
  intros H1 H2. split; apply at_path_mono; [|done]. intros x h Hx. destruct (H2 x h Hx) as (g & ? & ? & ?). by exists g.
Qed.

Lemma at_path_detach F id q x : at_path (f_detach id F) q x ↔ at_path F q x.
Proof.
  apply at_path_same; intros y g.
  - intros Hy. eexists. rewrite f_detach_lookup. split; [by exists g|]. by case_decide.
  - intros (g' & Hy & ->)%f_detach_lookup. exists g'. split; [done|]. by case_decide.
Qed.

Lemma elem_del_kid c id g : c ∈ g_kids (del_kid id g) ↔ c ∈ g_kids g ∧ c ≠ id.
Proof. cbn. rewrite list_elem_of_filter. tauto. Qed.

Lemma f_detach_ok id F h : forest_ok 0 F → F !! id = Some h → id ≠ 0 → forest_ok id (f_detach id F).
Proof.
  intros HF Hid H0. pose proof (parent_of_some F id h Hid) as Hpar.
  assert (∀ x h, f_detach id F !! x = Some h → ∃ g, F !! x = Some g ∧ same_place g h ∧ g_isdir h = g_isdir g
     ∧ h = if decide (parent_of F id = x) then del_kid id g else g) as Hinv.
  { intros x h' (g & Hg & ->)%f_detach_lookup. exists g. split_and!; [done|by case_decide|by case_decide|done]. }
  assert (∀ x g, F !! x = Some g → f_detach id F !! x = Some (if decide (parent_of F id = x) then del_kid id g else g)) as Hfwd.
  { intros x g Hx. apply f_detach_lookup. eauto. }
  split.
  - intros x h' c (g & Hg & _ & _ & ->)%Hinv. transitivity (c ∈ g_kids g ∧ c ≠ id).
    + case_decide as E; [by rewrite elem_del_kid|]. split; [|tauto]. intros Hc. split; [done|]. intros ->.
      apply (fo_kid _ _ HF x g id Hg) in Hc as (_ & _ & h2 & ? & ?). congruence.
    + rewrite (fo_kid _ _ HF x g c Hg). split.
      * intros ((? & _ & hc & Hc & <-) & ?). split_and!; [done..|]. eexists. split; [by apply Hfwd|]. by case_decide.
      * intros (? & ? & hc & (gc & Hc & [<- _] & _)%Hinv & E). eauto 10.
  - intros x h' (g & Hg & _ & _ & ->)%Hinv. pose proof (fo_nodup _ _ HF x g Hg). case_decide; [|done]. by apply NoDup_filter.
  - destruct (fo_root _ _ HF) as (g0 & Hg0 & ? & ?). eexists. split; [by apply Hfwd|]. by case_decide.
  - intros x h' (g & Hg & _)%Hinv. by eapply fo_range.
  - intros x h' (g & Hg & [<- _] & _)%Hinv Hx0. destruct (fo_home _ _ HF x g Hg Hx0) as (gp & Hgp & Hd).
    eexists. split; [by apply Hfwd|]. by case_decide.
  - intros x h' (g & Hg & [_ <-] & _)%Hinv Hx0. by eapply fo_name.
  - intros x y h1 h2 (g1 & Hg1 & [E1 E2] & _)%Hinv (g2 & Hg2 & [E3 E4] & _)%Hinv ? ? ? ?.
    apply (fo_uniq _ _ HF x y g1 g2); congruence.
  - intros x h' (g & Hg & _)%Hinv. setoid_rewrite at_path_detach. by eapply fo_reach.
Qed.

Lemma f_detach_id d F : forest_ok d F → is_Some (F !! d) → f_detach d F = F.
Proof.
  intros HF [h Hd]. apply map_eq. intros x. unfold f_detach. rewrite lookup_alter. case_decide as E; [|done]. subst.
  destruct (F !! parent_of F d) as [g|] eqn:Hg; [|done]. cbn. f_equal. unfold del_kid, with_kids. destruct g as [p s l a]. cbn. f_equal.
  apply filter_all, Forall_forall. intros c Hc ->.
  by apply (fo_kid _ _ HF _ _ d Hg) in Hc as (_ & ? & _).
Qed.

(** ** Dropping a leaf *)

Definition f_drop (cur : Z) (F : forest) : forest := delete cur (f_detach cur F).

Lemma f_drop_lookup cur F x h : f_drop cur F !! x = Some h ↔
  x ≠ cur ∧ ∃ g, F !! x = Some g ∧ h = if decide (parent_of F cur = x) then del_kid cur g else g.
Proof. unfold f_drop. rewrite lookup_delete_Some, f_detach_lookup. naive_solver. Qed.

(** Nobody's parent: what a node with no children is, unless the detached node
    still names it. *)
Lemma leaf_no_parent d F cur g : forest_ok d F → F !! cur = Some g → g_kids g = [] → parent_of F d ≠ cur →
  ∀ x h, F !! x = Some h → g_parent h ≠ cur.
Proof.
  intros HF Hcur Hk Hd x h Hx E. destruct (decide (x = 0)) as [->|H0].
  { destruct (fo_root _ _ HF) as (g0 & ? & ? & _). pose proof (fo_range _ _ HF cur g Hcur). assert (h = g0) as -> by congruence. lia. }
  destruct (decide (x = d)) as [->|Hxd]; [by rewrite (parent_of_some _ _ _ Hx) in Hd|].
  assert (x ∈ g_kids g) as Hin by (apply (fo_kid _ _ HF cur g x Hcur); eauto). rewrite Hk in Hin. by apply elem_of_nil in Hin.
Qed.

Lemma at_path_drop F cur q x : cur ≠ 0 → (∀ x h, F !! x = Some h → g_parent h ≠ cur) →
  at_path (f_drop cur F) q x ↔ at_path F q x ∧ x ≠ cur.
Proof.
  intros H0 Hnp. split.
  - induction 1 as [|q c h Hq IH Hc Hn]; [split; [constructor|done]|].
    apply f_drop_lookup in Hc as (Hc & g & Hg & Eh). destruct IH as [IH _].
    assert (same_place g h) as [E1 E2] by (subst; by case_decide). rewrite <- E1 in IH. rewrite <- E2. split; [by constructor|done].
  - intros [Hq Hx]. induction Hq as [|q c h Hq IH Hc Hn]; [constructor|].
    set (h' := if decide (parent_of F cur = c) then del_kid cur h else h).
    replace (g_name h) with (g_name h') by (unfold h'; by case_decide).
    constructor; [|apply f_drop_lookup; eauto|done].
    replace (g_parent h') with (g_parent h) by (unfold h'; by case_decide). eauto.
Qed.

Lemma f_drop_ok d F cur g : forest_ok d F → F !! cur = Some g → cur ≠ 0 → g_kids g = [] → parent_of F d ≠ cur →
  forest_ok (if decide (cur = d) then 0 else d) (f_drop cur F).
Proof.
  intros HF Hcur H0 Hk Hd. pose proof (leaf_no_parent d F cur g HF Hcur Hk Hd) as Hnp.
  assert (∀ x h, f_drop cur F !! x = Some h → x ≠ cur ∧ ∃ g, F !! x = Some g ∧ same_place g h ∧ g_isdir h = g_isdir g
     ∧ h = if decide (parent_of F cur = x) then del_kid cur g else g) as Hinv.
  { intros x h' (? & g' & Hg & ->)%f_drop_lookup. split; [done|]. exists g'. split_and!; [done|by case_decide|by case_decide|done]. }
  assert (∀ x g, F !! x = Some g → x ≠ cur → f_drop cur F !! x = Some (if decide (parent_of F cur = x) then del_kid cur g else g)) as Hfwd.
  { intros x g' Hx Hne. apply f_drop_lookup. eauto. }
  split.
  - intros x h' c (Hx & g' & Hg & _ & _ & ->)%Hinv. transitivity (c ∈ g_kids g' ∧ c ≠ cur).
    + case_decide as E; [by rewrite elem_del_kid|]. split; [|tauto]. intros Hc. split; [done|]. intros ->.
      apply (fo_kid _ _ HF x g' cur Hg) in Hc as (_ & _ & h2 & ? & ?). rewrite (parent_of_some _ _ _ H) in E. congruence.
    + rewrite (fo_kid _ _ HF x g' c Hg). split.
      * intros ((? & ? & hc & Hc & <-) & ?). split_and!; [done|by case_decide|]. eexists. split; [by apply Hfwd|]. by case_decide.
      * intros (? & ? & hc & (? & gc & Hc & [<- _] & _)%Hinv & E). split; [|done]. split_and!; [done| |eauto]. case_decide; congruence.
  - intros x h' (_ & g' & Hg & _ & _ & ->)%Hinv. pose proof (fo_nodup _ _ HF x g' Hg). case_decide; [|done]. by apply NoDup_filter.
  - destruct (fo_root _ _ HF) as (g0 & Hg0 & ? & ?). eexists. split; [apply Hfwd; [done|congruence]|]. by case_decide.
  - intros x h' (_ & g' & Hg & _)%Hinv. by eapply fo_range.
  - intros x h' (_ & g' & Hg & [<- _] & _)%Hinv Hx0. destruct (fo_home _ _ HF x g' Hg Hx0) as (gp & Hgp & Hdir).
    eexists. split; [apply Hfwd; [done|by eapply Hnp]|]. by case_decide.
  - intros x h' (_ & g' & Hg & [_ <-] & _)%Hinv Hx0. by eapply fo_name.
  - intros x y h1 h2 (_ & g1 & Hg1 & [E1 E2] & _)%Hinv (_ & g2 & Hg2 & [E3 E4] & _)%Hinv ? ? ? ?.
    apply (fo_uniq _ _ HF x y g1 g2); congruence.
  - intros x h' (Hx & g' & Hg & _)%Hinv. setoid_rewrite at_path_drop; [|done|done]. destruct (fo_reach _ _ HF x g' Hg) as [q Hq]. eauto.
Qed.

(** ** New attributes *)

Lemma f_attr_lookup id a F x h : f_attr id a F !! x = Some h ↔
  ∃ g, F !! x = Some g ∧ h = if decide (id = x) then with_attr a g else g.
Proof.
  unfold f_attr. rewrite lookup_alter_Some. split.
  - intros [(-> & g & Hg & ->)|(Hne & Hg)]; [exists g|exists h]; by case_decide.
  - intros (g & Hg & ->). case_decide; [left|right]; eauto.
Qed.

Lemma at_path_attr F id a q x : at_path (f_attr id a F) q x ↔ at_path F q x.
Proof.
  apply at_path_same; intros y g.
  - intros Hy. eexists. rewrite f_attr_lookup. split; [by exists g|]. by case_decide.
  - intros (g' & Hy & ->)%f_attr_lookup. exists g'. split; [done|]. by case_decide.
Qed.

Lemma f_attr_ok F id a g : forest_ok 0 F → F !! id = Some g → g_kids g = [] ∨ is_dir_kind (a_kind a) = true →
  forest_ok 0 (f_attr id a F).
Proof.
  intros HF Hid Ha.
  assert (∀ x h, f_attr id a F !! x = Some h → ∃ g, F !! x = Some g ∧ same_place g h ∧ g_kids h = g_kids g
     ∧ h = if decide (id = x) then with_attr a g else g) as Hinv.
  { intros x h (g' & Hg & ->)%f_attr_lookup. exists g'. split_and!; [done|by case_decide|by case_decide|done]. }
  assert (∀ x g, F !! x = Some g → f_attr id a F !! x = Some (if decide (id = x) then with_attr a g else g)) as Hfwd.
  { intros x g' Hx. apply f_attr_lookup. eauto. }
  split.
  - intros x h c (g' & Hg & _ & -> & _)%Hinv. rewrite (fo_kid _ _ HF x g' c Hg). split; intros (? & ? & hc & Hc & E).
    + split_and!; [done..|]. eexists. split; [by apply Hfwd|]. by case_decide.
    + apply Hinv in Hc as (gc & Hc & [Ep _] & _). split_and!; [done..|]. exists gc. split; [done|congruence].
  - intros x h (g' & Hg & _ & -> & _)%Hinv. by eapply fo_nodup.
  - destruct (fo_root _ _ HF) as (g0 & Hg0 & ? & ?). eexists. split; [by apply Hfwd|]. by case_decide.
  - intros x h (g' & Hg & _)%Hinv. by eapply fo_range.
  - intros x h (g' & Hg & [<- _] & _)%Hinv Hx0. destruct (fo_home _ _ HF x g' Hg Hx0) as (gp & Hgp & Hdir).
    eexists. split; [by apply Hfwd|]. case_decide as E; [|done]. destruct Ha as [Hk|Ha]; [|done].
    rewrite <- E in Hgp. assert (gp = g) as -> by congruence. assert (x ∈ g_kids g) as Hin by (apply (fo_kid _ _ HF id g x Hid); eauto).
    rewrite Hk in Hin. by apply elem_of_nil in Hin.
  - intros x h (g' & Hg & [_ <-] & _)%Hinv Hx0. by eapply fo_name.
  - intros x y h1 h2 (g1 & Hg1 & [E1 E2] & _)%Hinv (g2 & Hg2 & [E3 E4] & _)%Hinv ? ? ? ?.
    apply (fo_uniq _ _ HF x y g1 g2); congruence.
  - intros x h (g' & Hg & _)%Hinv. setoid_rewrite at_path_attr. by eapply fo_reach.
Qed.

(** ** Moving a subtree *)

Definition f_move (id p : Z) (s : bytes) (F : forest) : forest := f_attach p id s (f_detach id F).

Section move.
Context (F : forest) (id p : Z) (s : bytes) (h gp : GNode) (pd pp : list bytes).
Context (HF : forest_ok 0 F) (Hid : F !! id = Some h) (H0 : id ≠ 0) (Hp : F !! p = Some gp).
Context (Hpd : at_path F pd id) (Hpp : at_path F pp p) (Hnot : ¬ pd `prefix_of` pp).

Lemma move_ne : p ≠ id.
Proof. intros ->. apply Hnot. by rewrite (at_path_id_inj F pd pp id). Qed.

Definition moved (x : Z) (g : GNode) : GNode :=
  let g := if decide (parent_of F id = x) then del_kid id g else g in
  if decide (x = p) then add_kid id g else if decide (x = id) then with_home p s g else g.

Lemma f_move_lookup x g : f_move id p s F !! x = Some g ↔ ∃ g0, F !! x = Some g0 ∧ g = moved x g0.
Proof.
  unfold f_move. rewrite f_attach_lookup by apply move_ne. split.
  - intros (g1 & (g0 & Hx & ->)%f_detach_lookup & ->). eauto.
  - intros (g0 & Hx & ->). eexists. rewrite f_detach_lookup. eauto.
Qed.

Lemma moved_place x g : x ≠ id → same_place g (moved x g).
Proof. intros Hx. unfold moved. by repeat case_decide. Qed.

Lemma moved_home g : g_parent (moved id g) = p ∧ g_name (moved id g) = s.
Proof. pose proof move_ne. unfold moved. by repeat case_decide. Qed.

Lemma moved_dir x g : g_isdir (moved x g) = g_isdir g.
Proof. unfold moved. by repeat case_decide. Qed.

Lemma moved_kids x g c : F !! x = Some g → c ∈ g_kids (moved x g) ↔ (c ∈ g_kids g ∧ c ≠ id) ∨ (c = id ∧ x = p).
Proof.
  intros Hx. transitivity (c ∈ g_kids (if decide (parent_of F id = x) then del_kid id g else g) ∨ (c = id ∧ x = p)).
  - unfold moved. generalize (if decide (parent_of F id = x) then del_kid id g else g). intros g'. repeat case_decide; cbn; set_solver.
  - case_decide as E; [by rewrite elem_del_kid|]. split; [|tauto]. intros [Hc|?]; [left|by right]. split; [done|]. intros ->.
    apply (fo_kid _ _ HF x g id Hx) in Hc as (_ & _ & h2 & Hh2 & ?). rewrite (parent_of_some _ _ _ Hh2) in E. congruence.
Qed.

Lemma at_path_stays q x : at_path F q x → ¬ pd `prefix_of` q → at_path (f_move id p s F) q x.
Proof.
  intros Hq. induction Hq as [|q c g Hq IH Hc Hn]; intros Hpre; [constructor|].
  assert (c ≠ id) as Hne. { intros ->. apply Hpre. rewrite (at_path_id_inj F pd (q ++ [g_name g]) id); [done|done|by constructor]. }
  destruct (moved_place c g Hne) as [E1 E2]. rewrite E2. constructor; [|apply f_move_lookup; eauto|done].
  rewrite <- E1. apply IH. intros Hq'. apply Hpre. by apply prefix_app_r.
Qed.

Lemma at_path_follows r x : at_path F (pd ++ r) x → at_path (f_move id p s F) (pp ++ s :: r) x.
Proof.
  revert x. induction r as [|n r IH] using rev_ind; intros x.
  - rewrite !app_nil_r. intros Hx. rewrite (at_path_inj F 0 pd x id HF Hx Hpd).
    destruct (moved_home h) as [E1 E2]. pose proof (at_child (f_move id p s F) pp id (moved id h)) as Hch.
    rewrite E1, E2 in Hch. apply Hch; [by apply at_path_stays|apply f_move_lookup; eauto|done].
  - rewrite app_assoc. intros Hx. inversion Hx as [E|q c g Hq Hc Hn E]; [by destruct (pd ++ r)|].
    apply app_inj_tail in E as [-> <-]. subst.
    assert (x ≠ id) as Hne.
    { intros ->. pose proof (at_path_id_inj F _ _ id Hpd Hx) as Hl.
      apply (f_equal length) in Hl. rewrite !length_app in Hl. simpl in Hl. lia. }
    destruct (moved_place x g Hne) as [E1 E2]. rewrite E2, app_comm_cons, app_assoc. constructor; [|apply f_move_lookup; eauto|done].
    rewrite <- E1. by apply IH.
Qed.

Lemma at_path_move q x : at_path (f_move id p s F) q x ↔
  (at_path F q x ∧ ¬ pd `prefix_of` q) ∨ ∃ r, q = pp ++ s :: r ∧ at_path F (pd ++ r) x.
Proof.
  split; [|intros [[? ?]|(r & -> & ?)]; [by apply at_path_stays|by apply at_path_follows]].
  induction 1 as [|q c g Hq IH Hc Hn].
  { left. split; [constructor|]. intros Hpre%prefix_nil_inv. subst. inversion Hpd as [|q ? ? ? ? ? E]; [done|by destruct q]. }
  apply f_move_lookup in Hc as (g0 & Hc & Eg). destruct (decide (c = id)) as [->|Hne].
  - destruct (moved_home g0) as [E1 E2]. subst g. rewrite E1 in IH. rewrite E2. right. exists []. rewrite app_nil_r. split; [|done].
    destruct IH as [[IH _]|(r & -> & IH)]; [by rewrite (at_path_id_inj F q pp p)|].
    exfalso. apply Hnot. rewrite (at_path_id_inj F pp (pd ++ r) p); [by apply prefix_app_r|done|done].
  - destruct (moved_place c g0 Hne) as [E1 E2]. subst g. rewrite <- E1 in IH. rewrite <- E2. destruct IH as [[IH Hpre]|(r & -> & IH)].
    + left. assert (at_path F (q ++ [g_name g0]) c) as Hc' by by constructor. split; [done|].
      intros [k E]. destruct k as [|k n _] using rev_ind.
      * rewrite app_nil_r in E. rewrite E in Hc'. apply Hne. by eapply at_path_inj.
      * rewrite app_assoc in E. apply app_inj_tail in E as [-> _]. apply Hpre. by apply prefix_app_r.
    + right. exists (r ++ [g_name g0]). rewrite app_comm_cons, !app_assoc. split; [done|]. constructor; [done|done|done].
Qed.

Lemma moved_nodup x g : F !! x = Some g → NoDup (g_kids (moved x g)).
Proof.
  intros Hx. pose proof (fo_nodup _ _ HF x g Hx) as Hnd. unfold moved.
  set (g' := if decide (parent_of F id = x) then del_kid id g else g).
  assert (NoDup (g_kids g') ∧ id ∉ g_kids g') as [Hnd' Hin].
  { unfold g'. case_decide as E; [split; [by apply NoDup_filter|by rewrite elem_del_kid; intros []]|]. split; [done|].
    intros Hin. apply (fo_kid _ _ HF x g id Hx) in Hin as (_ & _ & h2 & Hh2 & ?). rewrite (parent_of_some _ _ _ Hh2) in E. congruence. }
  repeat case_decide; try done. cbn. apply NoDup_app. split_and!; [done| |by apply NoDup_singleton].
  by intros c Hc ->%list_elem_of_singleton.
Qed.

Context (Hdir : g_isdir gp = true) (Hs : valid_name s = true).
Context (Huniq : ∀ x g, F !! x = Some g → x ≠ 0 → g_parent g = p → g_name g ≠ s).

Lemma f_move_inv x g : f_move id p s F !! x = Some g → x ≠ id → ∃ g0, F !! x = Some g0 ∧ same_place g0 g.
Proof. intros (g0 & Hx & ->)%f_move_lookup Hxi. eauto using moved_place. Qed.

Lemma f_move_uniq x g g' : f_move id p s F !! id = Some g' → f_move id p s F !! x = Some g → x ≠ 0 →
  g_parent g = g_parent g' → g_name g = g_name g' → x = id.
Proof.
  intros (g1 & _ & ->)%f_move_lookup Hx Hx0. destruct (moved_home g1) as [-> ->]. intros E1 E2.
  destruct (decide (x = id)) as [|Hxi]; [done|].
  destruct (f_move_inv x g Hx Hxi) as (g0 & ? & ? & ?). exfalso. apply (Huniq x g0); congruence.
Qed.

Lemma f_move_ok : forest_ok 0 (f_move id p s F).
Proof.
  split.
  - intros x g c (g0 & Hx & ->)%f_move_lookup. rewrite moved_kids by eauto. rewrite (fo_kid _ _ HF x g0 c Hx).
    destruct (decide (c = id)) as [->|Hc]; split.
    + intros [(_ & ?)|(_ & ->)]; [done|]. split_and!; [done..|]. eexists. rewrite f_move_lookup. split; [eauto|]. apply moved_home.
    + intros (_ & _ & hc & (g1 & _ & ->)%f_move_lookup & E). right. destruct (moved_home g1). split; congruence.
    + intros [((? & ? & hc & Hhc & <-) & _)|(? & _)]; [|done]. split_and!; [done..|]. eexists. rewrite f_move_lookup. split; [eauto|].
      symmetry. by apply moved_place.
    + intros (? & ? & hc & Hhc & E). destruct (f_move_inv c hc Hhc Hc) as (g1 & ? & Ep & _). left. split; [|done].
      split_and!; [done..|]. exists g1. split; congruence.
  - intros x g (g0 & Hx & ->)%f_move_lookup. by apply moved_nodup.
  - destruct (fo_root _ _ HF) as (g0 & Hg0 & E1 & E2). eexists. rewrite f_move_lookup. split; [eauto|].
    destruct (moved_place 0 g0); [done|]. split; congruence.
  - intros x g (g0 & Hx & _)%f_move_lookup. by eapply fo_range.
  - intros x g Hx Hx0. assert (∃ g0, F !! g_parent g = Some g0 ∧ g_isdir g0 = true) as (g0 & Hg0 & Hd).
    { destruct (decide (x = id)) as [->|Hxi]; [|destruct (f_move_inv x g Hx Hxi) as (g0 & ? & <- & _); by eapply fo_home].
      apply f_move_lookup in Hx as (g0 & _ & ->). rewrite (proj1 (moved_home g0)). eauto. }
    eexists. rewrite f_move_lookup. split; [eauto|]. by rewrite moved_dir.
  - intros x g Hx Hx0. destruct (decide (x = id)) as [->|Hxi].
    + apply f_move_lookup in Hx as (g0 & _ & ->). by rewrite (proj2 (moved_home g0)).
    + destruct (f_move_inv x g Hx Hxi) as (g0 & ? & _ & <-). by eapply fo_name.
  - intros x y g1 g2 Hx Hy Hx0 Hy0 E1 E2. destruct (decide (x = id)) as [->|Hxi]; [symmetry; by apply (f_move_uniq y g2 g1)|].
    destruct (decide (y = id)) as [->|Hyi]; [by apply (f_move_uniq x g1 g2)|].
    destruct (f_move_inv x g1 Hx Hxi) as (g3 & ? & ? & ?), (f_move_inv y g2 Hy Hyi) as (g4 & ? & ? & ?).
    apply (fo_uniq _ _ HF x y g3 g4); congruence.
  - intros x g (g0 & Hx & _)%f_move_lookup. setoid_rewrite at_path_move.
    destruct (fo_reach _ _ HF x g0 Hx) as [q Hq]. destruct (decide (pd `prefix_of` q)) as [[r ->]|Hn]; eauto.
Qed.
End move.

(** ** Removing a subtree *)

(** [F'] is [F] without [dead], the nodes at and below [cur]. *)
Record pruned (F F' : forest) (cur : Z) (dead : gset Z) : Prop := {
  pr_cur : cur ∈ dead;
  pr_in : ∀ x, x ∈ dead → is_Some (F !! x);
  pr_closed : ∀ x h, F !! x = Some h → x ≠ cur → x ∈ dead ↔ g_parent h ∈ dead;
  pr_dead : ∀ x, x ∈ dead → F' !! x = None;
  pr_live : ∀ x, x ∉ dead → F' !! x = (if decide (parent_of F cur = x) then del_kid cur else id) <$> F !! x
}.

Lemma pruned_lookup F F' cur dead (Hp : pruned F F' cur dead) x h :
  F' !! x = Some h ↔ (x ∉ dead) ∧ ∃ g, F !! x = Some g ∧ h = if decide (parent_of F cur = x) then del_kid cur g else g.
Proof.
  destruct (decide (x ∈ dead)) as [Hin|Hin].
  - rewrite (pr_dead _ _ _ _ Hp x Hin). naive_solver.
  - rewrite (pr_live _ _ _ _ Hp x Hin), fmap_Some. case_decide; naive_solver.
Qed.

Section prune.
Context (d : Z) (F F' : forest) (cur : Z) (dead : gset Z) (pd : list bytes).
Context (HF : forest_ok d F) (H0 : cur ≠ 0) (Hp : pruned F F' cur dead) (Hpd : at_path F pd cur).

Lemma root_survives : 0 ∉ dead.
Proof.
  intros Hin. destruct (fo_root _ _ HF) as (g & Hg & Hpar & _).
  apply (pr_closed _ _ _ _ Hp 0 g Hg (not_eq_sym H0)) in Hin. rewrite Hpar in Hin.
  destruct (pr_in _ _ _ _ Hp _ Hin) as [g' Hg']. pose proof (fo_range _ _ HF _ _ Hg'). unfold kInvalidNode in *. lia.
Qed.

Lemma dead_prefix q x : at_path F q x → x ∈ dead ↔ pd `prefix_of` q.
Proof.
  induction 1 as [|q c h Hq IH Hc Hn].
  - pose proof root_survives. split; [done|]. intros ->%prefix_nil_inv. inversion Hpd as [|q ? ? ? ? ? E]; [done|by destruct q].
  - assert (at_path F (q ++ [g_name h]) c) as Hc' by by constructor. destruct (decide (c = cur)) as [->|Hne].
    + rewrite (at_path_id_inj F _ _ cur Hc' Hpd). split; [done|]. intros _. apply (pr_cur _ _ _ _ Hp).
    + rewrite (pr_closed _ _ _ _ Hp c h Hc Hne), IH. split; [intros; by apply prefix_app_r|].
      intros [k E]. destruct k as [|k n _] using rev_ind.
      * rewrite app_nil_r in E. rewrite E in Hc'. destruct Hne. by eapply at_path_inj.
      * rewrite app_assoc in E. apply app_inj_tail in E as [-> _]. by apply prefix_app_r.
Qed.

Lemma at_path_pruned q x : at_path F' q x ↔ at_path F q x ∧ ¬ pd `prefix_of` q.
Proof.
  split.
  - intros Hq. assert (at_path F q x ∧ x ∉ dead) as [Hq' Hx].
    { induction Hq as [|q c h Hq IH Hc Hn]; [split; [constructor|apply root_survives]|].
      apply (pruned_lookup _ _ _ _ Hp) in Hc as (Hc & g & Hg & Eh).
      assert (same_place g h) as [E1 E2] by (subst; by case_decide). rewrite <- E1 in IH. rewrite <- E2. split; [by constructor; [apply IH|..]|done]. }
    split; [done|]. by rewrite <- (dead_prefix q x Hq').
  - intros [Hq Hpre]. induction Hq as [|q c h Hq IH Hc Hn]; [constructor|].
    set (h' := if decide (parent_of F cur = c) then del_kid cur h else h).
    assert (same_place h h') as [E1 E2] by (unfold h'; by case_decide). rewrite E2. constructor; [|apply (pruned_lookup _ _ _ _ Hp)|done].
    + rewrite <- E1. apply IH. intros ?. apply Hpre. by apply prefix_app_r.
    + split; [|eauto]. rewrite (dead_prefix (q ++ [g_name h]) c); [done|by constructor].
Qed.
End prune.
