(* ===== verification/TreeIndex.v ===== *)
(** * The two indices of the tree

    [exact_] maps (parent, name id) to the child, [folded_] maps (parent, folded
    name id) to one child with that folding, and [collisions_] counts the
    children the latter leaves out.  Here the indexed nodes are a map from ids
    to those three numbers; [index_ok] says the two key maps and the counter
    describe it, for any key map that satisfies the laws of [KeyMap]. *)

From S2P Require Import Prelude Types KeyMap Path Unicode StringPool MetadataTree.

(** Parent, name id and folded name id. *)
Definition Ids : Type := Z * Z * Z.
Definition exact_key (x : Ids) : Z := key x.1.1 x.1.2.
Definition folded_key (x : Ids) : Z := key x.1.1 x.2.
Definition ids_ok (x : Ids) : Prop := 0 <= x.1.1 < kInvalidNode ∧ u32_ok x.1.2 ∧ u32_ok x.2.

Lemma key_inj p n p' n' : u32_ok n → u32_ok n' → key p n = key p' n' → p = p' ∧ n = n'.
Proof. unfold key, u32_ok. intros Hn Hn'. rewrite !lor_add by lia. intros E. nia. Qed.

Lemma key_range p n : 0 <= p < kInvalidNode → u32_ok n → 0 <= key p n < 2 ^ 64 - 2 ^ 32.
Proof. unfold key, u32_ok, kInvalidNode. intros Hp Hn. rewrite lor_add by lia. nia. Qed.

Section index.
Context {M : Type} `{KeyMap M}.

Record index_ok (e f : M) (coll : Z) (I : gmap Z Ids) : Prop := {
  ix_e_inv : km_inv e;
  ix_f_inv : km_inv f;
  ix_range : ∀ v x, I !! v = Some x → ids_ok x;
  ix_exact : ∀ k v, km_model e !! k = Some v ↔ ∃ x, I !! v = Some x ∧ k = exact_key x;
  ix_sound : ∀ k v, km_model f !! k = Some v → ∃ x, I !! v = Some x ∧ k = folded_key x;
  ix_total : ∀ v x, I !! v = Some x → is_Some (km_model f !! folded_key x);
  ix_coll : coll = Z.of_nat (size I) - Z.of_nat (size (km_model f))
}.

Lemma key_km p n : 0 <= p < kInvalidNode → u32_ok n → km_key (key p n).
Proof. intros Hp Hn. apply km_key_ok. apply key_range; assumption. Qed.

Lemma ids_exact x : ids_ok x → km_key (exact_key x).
Proof. unfold exact_key. intros (? & ? & ?). apply key_km; assumption. Qed.

Lemma ids_folded x : ids_ok x → km_key (folded_key x).
Proof. unfold folded_key. intros (? & ? & ?). apply key_km; assumption. Qed.

(** No node owns two slots, so there are no more slots than nodes that may own one. *)
Lemma folded_size e f coll I (J : gmap Z Ids) : index_ok e f coll I →
  (∀ k v, km_model f !! k = Some v → is_Some (J !! v)) → (size (km_model f) <= size J)%nat.
Proof.
  intros HI HJ. transitivity (length (map_to_list (km_model f)).*2).
  { by rewrite length_fmap, length_map_to_list. }
  transitivity (length (map_to_list J).*1); [|by rewrite length_fmap, length_map_to_list].
  apply submseteq_length, NoDup_submseteq.
  - apply NoDup_alt. intros i j v Hi Hj. rewrite list_lookup_fmap_Some in Hi. rewrite list_lookup_fmap_Some in Hj.
    destruct Hi as ([k1 v1] & -> & Hi), Hj as ([k2 v2] & E & Hj). cbn in *. subst v2.
    assert (k1 = k2) as ->.
    { destruct (ix_sound _ _ _ _ HI k1 v1) as (x & Hx & ->); [apply elem_of_map_to_list; by eapply list_elem_of_lookup_2|].
      destruct (ix_sound _ _ _ _ HI k2 v1) as (y & Hy & ->); [apply elem_of_map_to_list; by eapply list_elem_of_lookup_2|]. congruence. }
    by apply (NoDup_lookup _ _ _ _ (NoDup_map_to_list (km_model f)) Hi Hj).
  - intros v ([k w] & -> & Hk%elem_of_map_to_list)%list_elem_of_fmap. destruct (HJ k w Hk) as [x Hx].
    apply list_elem_of_fmap. exists (w, x). by rewrite elem_of_map_to_list.
Qed.

Lemma coll_nonneg e f coll I : index_ok e f coll I → 0 <= coll.
Proof.
  intros HI. rewrite (ix_coll _ _ _ _ HI). assert (size (km_model f) <= size I)%nat; [|lia].
  eapply folded_size; [done|]. intros k v Hk. destruct (ix_sound _ _ _ _ HI k v Hk) as (x & ? & _). eauto.
Qed.

(** A node that owns no slot is counted. *)
Lemma coll_shadowed e f coll I v x o : index_ok e f coll I → I !! v = Some x →
  km_model f !! folded_key x = Some o → o ≠ v → 1 <= coll.
Proof.
  intros HI Hv Ho Hne. rewrite (ix_coll _ _ _ _ HI). assert (size (km_model f) <= size (delete v I))%nat as Hs.
  { eapply folded_size; [done|]. intros k w Hk. destruct (ix_sound _ _ _ _ HI k w Hk) as (y & Hy & ->). exists y.
    rewrite lookup_delete_ne; [done|]. intros ->. congruence. }
  rewrite map_size_delete, Hv in Hs. assert (size I ≠ 0)%nat; [|lia]. intros E%map_size_empty_inv. subst. by rewrite lookup_empty in Hv.
Qed.

Lemma coll_zero_alone e f I v w x y : index_ok e f 0 I → I !! v = Some x → I !! w = Some y →
  folded_key x = folded_key y → v = w.
Proof.
  intros HI Hv Hw E. destruct (ix_total _ _ _ _ HI v x Hv) as [o Ho].
  destruct (decide (o = v)) as [->|Hn]; [|pose proof (coll_shadowed _ _ _ _ v x o HI Hv Ho Hn); lia].
  destruct (decide (v = w)) as [|Hn]; [done|]. rewrite E in Ho. pose proof (coll_shadowed _ _ _ _ w y v HI Hw Ho Hn). lia.
Qed.

Lemma index_empty e f : km_inv e → km_inv f → km_model e = ∅ → km_model f = ∅ → index_ok e f 0 ∅.
Proof. intros He Hf Ee Ef. split; rewrite ?Ee, ?Ef; try done; intros *; rewrite ?lookup_empty; naive_solver. Qed.

Lemma index_add e f coll I v x : index_ok e f coll I → I !! v = None → ids_ok x →
  (∀ w y, I !! w = Some y → exact_key y ≠ exact_key x) → Z.of_nat (size I) < 2 ^ 32 →
  index_ok (km_insert_or_assign e (exact_key x) v).1 (km_insert_if_absent f (folded_key x) v).1
    (if (km_insert_if_absent f (folded_key x) v).2 then coll else wrap 64 (coll + 1)) (<[v := x]> I).
Proof.
  intros HI Hv Hx Hfree Hsz. pose proof (coll_nonneg _ _ _ _ HI) as Hc0. pose proof (ix_coll _ _ _ _ HI) as Hc.
  destruct (km_assign_spec e (exact_key x) v (ix_e_inv _ _ _ _ HI) (ids_exact x Hx)) as (He1 & He2 & _).
  destruct (km_absent_spec f (folded_key x) v (ix_f_inv _ _ _ _ HI) (ids_folded x Hx)) as (Hf1 & Hf2 & Hf3).
  rewrite Hf3. split; [done|done|..].
  - intros w y [(<- & <-)|(? & ?)]%lookup_insert_Some; [done|by eapply ix_range].
  - intros k w. rewrite He2, lookup_insert_Some, (ix_exact _ _ _ _ HI). setoid_rewrite lookup_insert_Some. split.
    + intros [(<- & <-)|(Hk & y & Hw & ->)]; [by eauto|]. exists y. split; [|done]. right. split; [congruence|done].
    + intros (y & [(<- & <-)|(Hne & Hw)] & ->); [by left|]. right. split; [apply not_eq_sym; by eapply Hfree|eauto].
  - intros k w. rewrite Hf2. destruct (km_model f !! folded_key x) eqn:Ef.
    + intros (y & Hy & ->)%(ix_sound _ _ _ _ HI). exists y. split; [|done]. apply lookup_insert_Some. right. split; [congruence|done].
    + intros [(<- & <-)|(? & (y & Hy & ->)%(ix_sound _ _ _ _ HI))]%lookup_insert_Some; [exists x; by rewrite lookup_insert_eq|].
      exists y. split; [|done]. apply lookup_insert_Some. right. split; [congruence|done].
  - intros w y Hw. rewrite Hf2. apply lookup_insert_Some in Hw as [(<- & <-)|(? & Hw)].
    + destruct (km_model f !! folded_key x) eqn:Ef; [by rewrite Ef|]. by rewrite lookup_insert_eq.
    + destruct (ix_total _ _ _ _ HI w y Hw) as [o Ho]. destruct (km_model f !! folded_key x) eqn:Ef; [by rewrite Ho|].
      rewrite lookup_insert_ne by congruence. by rewrite Ho.
  - rewrite Hf2, map_size_insert, Hv. destruct (km_model f !! folded_key x) eqn:Ef; cbn [bool_decide decide].
    + rewrite bool_decide_eq_false_2 by done. rewrite wrap_id by lia. lia.
    + rewrite bool_decide_eq_true_2 by done. rewrite map_size_insert, Ef. lia.
Qed.

(** [unindex_node] on the indices, given a sibling with the same folding. *)
Definition index_del (e f : M) (coll v : Z) (x : Ids) (heir : option Z) : M * M * Z :=
  let e := (km_erase e (exact_key x)).1 in
  match km_find f (folded_key x) with
  | None => (e, f, coll)
  | Some owner =>
      if negb (owner =? v) then (e, f, wrap 64 (coll - 1))
      else
        let f := (km_erase f (folded_key x)).1 in
        if coll =? 0 then (e, f, coll)
        else match heir with
             | Some s => (e, (km_insert_if_absent f (folded_key x) s).1, wrap 64 (coll - 1))
             | None => (e, f, coll)
             end
  end.

Lemma index_erase_exact e f coll I v x : index_ok e f coll I → I !! v = Some x →
  (∀ w y, I !! w = Some y → exact_key y = exact_key x → w = v) →
  let e' := (km_erase e (exact_key x)).1 in
  km_inv e' ∧ (∀ k w, km_model e' !! k = Some w ↔ ∃ y, delete v I !! w = Some y ∧ k = exact_key y)
  ∧ (∀ w y, delete v I !! w = Some y → ids_ok y) ∧ S (size (delete v I)) = size I.
Proof.
  intros HI Hv Huniq. pose proof (ix_range _ _ _ _ HI v x Hv) as Hx.
  destruct (km_erase_spec e (exact_key x) (ix_e_inv _ _ _ _ HI) (ids_exact x Hx)) as (He1 & He2 & _).
  split_and!; [done|..].
  - intros k w. rewrite He2, lookup_delete_Some, (ix_exact _ _ _ _ HI). setoid_rewrite lookup_delete_Some. split.
    + intros (Hk & y & Hw & ->). exists y. split_and!; [|done|done]. intros ->. congruence.
    + intros (y & (Hne & Hw) & ->). split; [|eauto]. intros E. apply Hne. symmetry. by apply (Huniq w y).
  - intros w y (_ & Hw)%lookup_delete_Some. by eapply ix_range.
  - rewrite map_size_delete, Hv. assert (size I ≠ 0)%nat; [|lia]. intros E%map_size_empty_inv. subst. by rewrite lookup_empty in Hv.
Qed.

Lemma index_remove e f coll I v x heir : index_ok e f coll I → I !! v = Some x → Z.of_nat (size I) < 2 ^ 32 →
  (∀ w y, I !! w = Some y → exact_key y = exact_key x → w = v) →
  match heir with
  | Some s => s ≠ v ∧ ∃ y, I !! s = Some y ∧ folded_key y = folded_key x
  | None => ∀ w y, I !! w = Some y → folded_key y = folded_key x → w = v
  end →
  let r := index_del e f coll v x heir in index_ok r.1.1 r.1.2 r.2 (delete v I).
Proof.
  intros HI Hv Hsz Huniq Hheir. pose proof (ix_range _ _ _ _ HI v x Hv) as Hx.
  destruct (index_erase_exact _ _ _ _ v x HI Hv Huniq) as (He1 & He2 & Hr & Hsize).
  destruct (km_erase_spec f (folded_key x) (ix_f_inv _ _ _ _ HI) (ids_folded x Hx)) as (Hf1 & Hf2 & _).
  pose proof (ix_coll _ _ _ _ HI) as Hc. pose proof (coll_nonneg _ _ _ _ HI) as Hc0.
  unfold index_del. rewrite km_find_spec by (try apply (ix_f_inv _ _ _ _ HI); by apply ids_folded).
  destruct (ix_total _ _ _ _ HI v x Hv) as [o Ho]. rewrite Ho. destruct (Z.eqb_spec o v) as [->|Hne]; cbn [negb].
  - assert (0 < size (km_model f))%nat as Hpos.
    { destruct (size (km_model f)) eqn:E; [|lia]. apply map_size_empty_inv in E. rewrite E, lookup_empty in Ho. done. }
    assert (∀ k w, delete (folded_key x) (km_model f) !! k = Some w → ∃ y, delete v I !! w = Some y ∧ k = folded_key y) as Hsnd.
    { intros k w (Hk & Hw)%lookup_delete_Some. destruct (ix_sound _ _ _ _ HI k w Hw) as (y & Hy & ->). exists y.
      split; [|done]. apply lookup_delete_Some. split; [congruence|done]. }
    destruct (Z.eqb_spec coll 0) as [->|Hcz]; [|destruct heir as [s|]]; cbn zeta; cbn [fst snd].
    + split; try done; [by rewrite Hf2| |rewrite Hf2, (map_size_delete (folded_key x) (km_model f)), Ho; lia]. intros w y (Hne & Hw)%lookup_delete_Some.
      rewrite Hf2. destruct (ix_total _ _ _ _ HI w y Hw) as [o Ho']. exists o. apply lookup_delete_Some. split; [|done].
      intros E. apply Hne. by eapply coll_zero_alone.
    + destruct Hheir as (Hsv & y & Hy & Ey). destruct (km_absent_spec _ (folded_key x) s Hf1 (ids_folded x Hx)) as (Hg1 & Hg2 & _).
      rewrite Hf2, lookup_delete_eq, insert_delete_eq in Hg2. split; try done; rewrite ?Hg2.
      * intros k w [(<- & <-)|(Hk & Hw)]%lookup_insert_Some.
        -- exists y. split; [apply lookup_delete_Some; by split|done].
        -- apply Hsnd. apply lookup_delete_Some. by split.
      * intros w z (_ & Hw)%lookup_delete_Some. destruct (decide (folded_key x = folded_key z)) as [->|Hn].
        -- by rewrite lookup_insert_eq.
        -- rewrite lookup_insert_ne by done. by apply (ix_total _ _ _ _ HI w).
      * rewrite map_size_insert, Ho. cbn. rewrite wrap_id by lia. lia.
    + split; try done; [by rewrite Hf2| |rewrite Hf2, (map_size_delete (folded_key x) (km_model f)), Ho; lia]. intros w y (Hne & Hw)%lookup_delete_Some.
      rewrite Hf2. destruct (ix_total _ _ _ _ HI w y Hw) as [o Ho']. exists o. apply lookup_delete_Some. split; [|done].
      intros E. apply Hne. symmetry. by apply (Hheir w y).
  - pose proof (coll_shadowed _ _ _ _ v x o HI Hv Ho Hne). cbn zeta; cbn [fst snd]. split; try done; [apply (ix_f_inv _ _ _ _ HI)|..].
    + intros k w Hk. destruct (ix_sound _ _ _ _ HI k w Hk) as (y & Hy & ->). exists y. split; [|done].
      apply lookup_delete_Some. split; [|done]. intros <-. congruence.
    + intros w y (_ & Hw)%lookup_delete_Some. by eapply ix_total.
    + cbn. rewrite wrap_id by lia. lia.
Qed.
End index.
