(* ===== verification/TreeLinks.v ===== *)
(** * Sibling lists through the node vector

    [shape] relates the node vector to a forest: every node of the forest has
    its slot, and the children of a node are linked both ways in order.
    [link_child] and [unlink_child] are shown to do to the vector what
    [f_attach] and [f_detach] do to the forest. *)

From S2P Require Import Prelude Types KeyMap Path Unicode StringPool MetadataTree Forest.

Definition hd_id (l : list Z) : Z := default kInvalidNode (head l).
Definition last_id (l : list Z) : Z := default kInvalidNode (last l).

(** [v] is the id of the interned name [s]. *)
Definition named (names : list bytes) (v : Z) (s : bytes) : Prop := ∃ i : nat, v = Z.of_nat i ∧ names !! i = Some s.

Record node_ok (names : list bytes) (n : Node) (g : GNode) : Prop := {
  no_name : named names (n_name n) (g_name g);
  no_folded : named names (n_folded n) (casefold_append (g_name g) []);
  no_parent : n_parent n = g_parent g;
  no_first : n_first n = hd_id (g_kids g);
  no_last : n_last n = last_id (g_kids g);
  no_count : n_count n = zlen (g_kids g);
  no_attr : n_attr n = g_attr g
}.

(** Children know their parent; nobody is listed twice. *)
Record kids_wf (F : forest) : Prop := {
  kw_kid : ∀ p g c, F !! p = Some g → c ∈ g_kids g → ∃ h, F !! c = Some h ∧ g_parent h = p;
  kw_nodup : ∀ p g, F !! p = Some g → NoDup (g_kids g);
  kw_irrefl : ∀ p g, F !! p = Some g → g_parent g ≠ p;
  kw_root : ∀ p g, F !! p = Some g → 0 ∉ g_kids g
}.

Lemma forest_kids_wf d F : forest_ok d F → kids_wf F.
Proof.
  intros HF. split.
  - intros p g c Hp Hc. by apply (fo_kid _ _ HF p g c Hp) in Hc as (_ & _ & ?).
  - apply (fo_nodup _ _ HF).
  - eauto using parent_irrefl.
  - intros p g Hp Hc. by apply (fo_kid _ _ HF p g 0 Hp) in Hc as (? & _).
Qed.

Lemma detach_kids_wf id F : kids_wf F → kids_wf (f_detach id F).
Proof.
  intros [H1 H2 H3 H4]. split.
  - intros p g c (g0 & Hp & ->)%f_detach_lookup Hc. destruct (H1 p g0 c Hp) as (h & Hh & Eh).
    { case_decide; [by apply elem_del_kid in Hc as []|done]. }
    eexists. rewrite f_detach_lookup. split; [eauto|]. by repeat case_decide.
  - intros p g (g0 & Hp & ->)%f_detach_lookup. case_decide; [apply NoDup_filter|]; by eapply H2.
  - intros p g (g0 & Hp & ->)%f_detach_lookup. specialize (H3 p g0 Hp). by case_decide.
  - intros p g (g0 & Hp & ->)%f_detach_lookup. specialize (H4 p g0 Hp). case_decide; [|done]. by intros []%elem_del_kid.
Qed.

Lemma hd_id_cases l : l = [] ∧ hd_id l = kInvalidNode ∨ ∃ x l', l = x :: l' ∧ hd_id l = x.
Proof. destruct l as [|x l]; [by left|right; by exists x, l]. Qed.

Lemma last_id_snoc l x : last_id (l ++ [x]) = x.
Proof. unfold last_id. by rewrite last_snoc. Qed.

Lemma last_id_cases l : l = [] ∧ last_id l = kInvalidNode ∨ ∃ x l', l = l' ++ [x] ∧ last_id l = x.
Proof. destruct l as [|x l _] using rev_ind; [by left|right; exists x, l; by rewrite last_id_snoc]. Qed.

(** Splitting [l1 ++ l2] at [y]. *)
Lemma app_split {A} (l1 l2 k1 k2 : list A) y : l1 ++ l2 = k1 ++ y :: k2 →
  (∃ m, l1 = k1 ++ y :: m ∧ k2 = m ++ l2) ∨ (∃ m, k1 = l1 ++ m ∧ l2 = m ++ y :: k2).
Proof.
  revert k1. induction l1 as [|a l1 IH]; intros k1 E; [right; by exists k1|].
  destruct k1 as [|b k1]; cbn in E; injection E as -> E; [left; by exists l1|].
  destruct (IH k1 E) as [(m & -> & ->)|(m & -> & ->)]; [left|right]; by exists m.
Qed.

Lemma nodup_mid {A} (l1 l2 : list A) c : NoDup (l1 ++ c :: l2) →
  (c ∉ l1) ∧ (c ∉ l2) ∧ NoDup (l1 ++ l2) ∧ (∀ x, x ∈ l1 → x ∉ l2).
Proof.
  rewrite !NoDup_app, NoDup_cons. intros (H1 & H2 & H3 & H4). split_and!; try done; [|set_solver|set_solver].
  intros Hc. apply (H2 c Hc). set_solver.
Qed.

Lemma filter_mid (l1 l2 : list Z) c : NoDup (l1 ++ c :: l2) → filter (λ x, x ≠ c) (l1 ++ c :: l2) = l1 ++ l2.
Proof.
  intros (H1 & H2 & _ & _)%nodup_mid. rewrite filter_app, filter_cons_False by tauto.
  rewrite !filter_all; [done|apply Forall_forall; intros x ? ->; done..].
Qed.

(** Distinct ids below [n] are at most [n]. *)
Lemma ids_bound (l : list Z) n : NoDup l → (∀ x, x ∈ l → 0 <= x < n) → zlen l <= Z.max 0 n.
Proof.
  intros Hnd Hr. assert (length l <= length (seqZ 0 n))%nat as Hl.
  { apply submseteq_length, NoDup_submseteq; [done|]. intros x Hx. apply elem_of_seqZ. specialize (Hr x Hx). lia. }
  rewrite length_seqZ in Hl. unfold zlen. lia.
Qed.

Section links.
Context {M : Type} `{KeyMapOps M}.
Implicit Types t : MetadataTree M.

Record shape t (names : list bytes) (F : forest) : Prop := {
  sh_size : zlen (nodes_ t) <= kInvalidNode;
  sh_range : ∀ id g, F !! id = Some g → 0 <= id < zlen (nodes_ t);
  sh_node : ∀ id g, F !! id = Some g → node_ok names (node t id) g;
  sh_links : ∀ p g l1 c l2, F !! p = Some g → g_kids g = l1 ++ c :: l2 →
    n_prev (node t c) = last_id l1 ∧ n_next (node t c) = hd_id l2
}.

Lemma upd_size i f t : zlen (nodes_ (upd i f t)) = zlen (nodes_ t).
Proof. unfold upd, with_nodes, zlen. cbn. by rewrite length_alter. Qed.

Lemma node_upd i f t j : 0 <= i < zlen (nodes_ t) → 0 <= j →
  node (upd i f t) j = if decide (i = j) then f (node t j) else node t j.
Proof.
  intros Hi Hj. unfold node, upd, with_nodes. cbn. rewrite !list_lookup_total_alt. case_decide as E.
  - subst. rewrite list_lookup_alter_eq. unfold zlen in Hi.
    destruct (lookup_lt_is_Some_2 (nodes_ t) (Z.to_nat j)) as [n Hn]; [lia|]. by rewrite Hn.
  - by rewrite list_lookup_alter_ne by lia.
Qed.

(** Decides the slot comparisons from the context. *)
Ltac slots := repeat first [rewrite decide_True by congruence | rewrite decide_False by congruence]; subst; try done; by destruct (node _ _).

(** What the two pointer operations leave in each slot. *)
Lemma node_unlink t c x : let n := node t c in let p := n_parent n in let a := n_prev n in let b := n_next n in
  zlen (nodes_ t) <= kInvalidNode →
  0 <= c < zlen (nodes_ t) → 0 <= p < zlen (nodes_ t) → a = kInvalidNode ∨ 0 <= a < zlen (nodes_ t) →
  b = kInvalidNode ∨ 0 <= b < zlen (nodes_ t) → p ≠ c → a ≠ c → b ≠ c → p ≠ a → p ≠ b → a ≠ b ∨ a = kInvalidNode →
  0 <= x < kInvalidNode →
  node (unlink_child c t) x =
    if decide (x = c) then set_next kInvalidNode (set_prev kInvalidNode (node t x))
    else if decide (x = p) then
      set_count (wrap 32 (n_count (node t x) - 1))
        (set_last (if decide (b = kInvalidNode) then a else n_last (node t x))
          (set_first (if decide (a = kInvalidNode) then b else n_first (node t x)) (node t x)))
    else if decide (x = a) then set_next b (node t x)
    else if decide (x = b) then set_prev a (node t x) else node t x.
Proof.
  intros n p a b Hs Hc Hp Ha Hb Hpc Hac Hbc Hpa Hpb Hab Hx. unfold unlink_child. fold n a b p. clearbody n p a b.
  assert (a ≠ kInvalidNode → a ≠ b) as Hab' by (intros ?; by destruct Hab). clear Hab.
  destruct (Z.eqb_spec a kInvalidNode) as [Ea|Ea], (Z.eqb_spec b kInvalidNode) as [Eb|Eb]; cbn [negb]; try specialize (Hab' Ea);
    repeat (rewrite node_upd by (rewrite ?upd_size; lia));
    (destruct (decide (x = c)) as [->|]; [by slots|]); (destruct (decide (x = p)) as [->|]; [by slots|]);
    (destruct (decide (x = a)) as [->|]; [try lia; by slots|]); (destruct (decide (x = b)) as [->|]; [try lia; by slots|]); by slots.
Qed.

Lemma node_link t p c x : let a := n_last (node t p) in zlen (nodes_ t) <= kInvalidNode →
  0 <= c < zlen (nodes_ t) → 0 <= p < zlen (nodes_ t) → a = kInvalidNode ∨ 0 <= a < zlen (nodes_ t) →
  p ≠ c → a ≠ c → p ≠ a → 0 <= x < kInvalidNode →
  node (link_child p c t) x =
    if decide (x = c) then set_prev a (set_next kInvalidNode (set_parent p (node t x)))
    else if decide (x = p) then
      set_count (wrap 32 (n_count (node t x) + 1))
        (set_last c (set_first (if decide (a = kInvalidNode) then c else n_first (node t x)) (node t x)))
    else if decide (x = a) then set_next c (node t x) else node t x.
Proof.
  intros a Hs Hc Hp Ha Hpc Hac Hpa Hx. unfold link_child.
  rewrite !(node_upd c _ _ p) by (rewrite ?upd_size; lia). rewrite !decide_False by done. fold a. clearbody a.
  destruct (Z.eqb_spec a kInvalidNode) as [Ea|Ea]; cbn [negb];
    repeat (rewrite node_upd by (rewrite ?upd_size; lia));
    (destruct (decide (x = c)) as [->|]; [by slots|]); (destruct (decide (x = p)) as [->|]; [by slots|]);
    (destruct (decide (x = a)) as [->|]; [try lia; by slots|]); by slots.
Qed.

Lemma kids_count F t names p g : kids_wf F → shape t names F → F !! p = Some g → zlen (g_kids g) <= zlen (nodes_ t).
Proof.
  intros HF Hs Hp. pose proof (zlen_nonneg (nodes_ t)). rewrite <- (Z.max_r 0 (zlen (nodes_ t))) by done.
  apply ids_bound; [by eapply kw_nodup|]. intros x Hx. destruct (kw_kid _ HF p g x Hp Hx) as (h & Hh & _). by eapply sh_range.
Qed.

Lemma unlink_size c t : zlen (nodes_ (unlink_child c t)) = zlen (nodes_ t).
Proof. unfold unlink_child. rewrite !upd_size. by repeat (case_match; rewrite ?upd_size). Qed.

Lemma link_size p c t : zlen (nodes_ (link_child p c t)) = zlen (nodes_ t).
Proof. unfold link_child. rewrite !upd_size. case_match; by rewrite !upd_size. Qed.

Section unlink.
Context (t : MetadataTree M) (names : list bytes) (F : forest) (c : Z) (h g : GNode) (l1 l2 : list Z).
Context (HF : kids_wf F) (Hs : shape t names F) (Hc : F !! c = Some h) (Hp : F !! g_parent h = Some g).
Context (Hk : g_kids g = l1 ++ c :: l2).

Lemma unlink_kid x : x ∈ l1 ++ l2 → (∃ hx, F !! x = Some hx ∧ g_parent hx = g_parent h) ∧ 0 <= x < zlen (nodes_ t) ∧ x ≠ c ∧ x ≠ g_parent h.
Proof.
  intros Hx. assert (x ∈ g_kids g) as Hin by (rewrite Hk; set_solver).
  destruct (kw_kid _ HF _ g x Hp Hin) as (hx & Hhx & Ex). split_and!; [eauto|by eapply sh_range..| |].
  - intros ->. pose proof (kw_nodup _ HF _ g Hp) as Hnd. rewrite Hk in Hnd. apply nodup_mid in Hnd as (? & ? & _). set_solver.
  - intros ->. by apply (kw_irrefl _ HF _ hx Hhx).
Qed.

Lemma node_unlink_at x : 0 <= x < kInvalidNode →
  node (unlink_child c t) x =
    if decide (x = c) then set_next kInvalidNode (set_prev kInvalidNode (node t x))
    else if decide (x = g_parent h) then
      set_count (wrap 32 (n_count (node t x) - 1))
        (set_last (if decide (hd_id l2 = kInvalidNode) then last_id l1 else n_last (node t x))
          (set_first (if decide (last_id l1 = kInvalidNode) then hd_id l2 else n_first (node t x)) (node t x)))
    else if decide (x = last_id l1) then set_next (hd_id l2) (node t x)
    else if decide (x = hd_id l2) then set_prev (last_id l1) (node t x) else node t x.
Proof.
  pose proof (sh_size _ _ _ Hs) as Hsize. pose proof (sh_range _ _ _ Hs c h Hc). pose proof (sh_range _ _ _ Hs _ g Hp).
  destruct (sh_links _ _ _ Hs _ g l1 c l2 Hp Hk) as [Ea Eb]. pose proof (no_parent _ _ _ (sh_node _ _ _ Hs c h Hc)) as Epar.
  pose proof (kw_irrefl _ HF c h Hc) as Hpc. pose proof (kw_nodup _ HF _ g Hp) as Hnd. rewrite Hk in Hnd.
  apply nodup_mid in Hnd as (_ & _ & _ & Hdis).
  assert (last_id l1 = kInvalidNode ∨ last_id l1 ∈ l1) as Hla.
  { destruct (last_id_cases l1) as [(_ & ?)|(y & l' & -> & ->)]; [by left|right; set_solver]. }
  assert (hd_id l2 = kInvalidNode ∨ hd_id l2 ∈ l2) as Hhb.
  { destruct (hd_id_cases l2) as [(_ & ?)|(y & l' & -> & ->)]; [by left|right; set_solver]. }
  pose proof (node_unlink t c x) as Hn. cbv zeta in Hn. rewrite Ea, Eb, Epar in Hn. intros Hx. apply Hn; clear Hn; try done.
  - destruct Hla as [|Hin]; [by left|right]. apply (unlink_kid (last_id l1)). set_solver.
  - destruct Hhb as [|Hin]; [by left|right]. apply (unlink_kid (hd_id l2)). set_solver.
  - destruct Hla as [->|Hin]; [lia|]. apply (unlink_kid (last_id l1)). set_solver.
  - destruct Hhb as [->|Hin]; [lia|]. apply (unlink_kid (hd_id l2)). set_solver.
  - destruct Hla as [->|Hin]; [lia|]. apply not_eq_sym, (unlink_kid (last_id l1)). set_solver.
  - destruct Hhb as [->|Hin]; [lia|]. apply not_eq_sym, (unlink_kid (hd_id l2)). set_solver.
  - destruct Hla as [|Hin]; [by right|left]. destruct Hhb as [->|Hin']; [|intros E; rewrite E in Hin; by apply (Hdis (hd_id l2))].
    destruct (unlink_kid (last_id l1)) as (_ & ? & _); [set_solver|lia].
Qed.

(** The links of a node other than [c]. *)
Lemma unlink_links x : 0 <= x < kInvalidNode → x ≠ c →
  n_prev (node (unlink_child c t) x) = (if decide (x = hd_id l2) then last_id l1 else n_prev (node t x))
  ∧ n_next (node (unlink_child c t) x) = (if decide (x = last_id l1) then hd_id l2 else n_next (node t x)).
Proof.
  intros Hx Hne. rewrite node_unlink_at, decide_False by done. pose proof (sh_size _ _ _ Hs).
  assert (g_parent h ≠ hd_id l2 ∧ g_parent h ≠ last_id l1) as [H1 H2].
  { pose proof (sh_range _ _ _ Hs _ g Hp). split; intros E.
    - destruct (hd_id_cases l2) as [(_ & ?)|(y & l' & El & Ey)]; [lia|]. destruct (unlink_kid y) as (_ & _ & _ & ?); [subst; set_solver|congruence].
    - destruct (last_id_cases l1) as [(_ & ?)|(y & l' & El & Ey)]; [lia|]. destruct (unlink_kid y) as (_ & _ & _ & ?); [subst; set_solver|congruence]. }
  destruct (decide (x = g_parent h)) as [->|].
  { by rewrite (decide_False (P := g_parent h = hd_id l2)), (decide_False (P := g_parent h = last_id l1)). }
  destruct (decide (x = last_id l1)) as [Ea|], (decide (x = hd_id l2)) as [Eb|]; try done.
  exfalso. pose proof (kw_nodup _ HF _ g Hp) as Hnd. rewrite Hk in Hnd. apply nodup_mid in Hnd as (_ & _ & _ & Hdis).
  destruct (hd_id_cases l2) as [(_ & ?)|(y & l' & El & Ey)]; [lia|]. destruct (last_id_cases l1) as [(_ & ?)|(z & l'' & Ez & Ez')]; [lia|].
  apply (Hdis x); subst; set_solver.
Qed.

(** The links of a sibling to the left and to the right of [c]. *)
Lemma unlink_left k1 y m : l1 = k1 ++ y :: m → 0 <= y < kInvalidNode →
  (if decide (y = hd_id l2) then last_id l1 else n_prev (node t y)) = last_id k1
  ∧ (if decide (y = last_id l1) then hd_id l2 else n_next (node t y)) = hd_id (m ++ l2).
Proof.
  intros E1 Hy. pose proof (kw_nodup _ HF _ g Hp) as Hnd. rewrite Hk in Hnd. apply nodup_mid in Hnd as (_ & _ & Hnd & Hdis).
  destruct (sh_links _ _ _ Hs _ g k1 y (m ++ c :: l2) Hp) as [-> ->]; [by rewrite Hk, E1, <- app_assoc|].
  rewrite decide_False. 2: { destruct (hd_id_cases l2) as [(_ & ->)|(z & l' & E & ->)]; [lia|]. intros ->. apply (Hdis z); rewrite ?E, ?E1; set_solver. }
  split; [done|]. destruct m as [|z m]; [by rewrite decide_True by by rewrite E1, last_id_snoc|]. rewrite decide_False; [done|].
  intros E. rewrite E1, <- app_assoc in Hnd. cbn in Hnd. apply nodup_mid in Hnd as (_ & Hnd & _). apply Hnd. rewrite E, E1.
  unfold last_id. rewrite last_app_cons, last_cons_cons. destruct (last (z :: m)) as [w|] eqn:Ew; [|by apply last_None in Ew].
  apply last_Some in Ew as [m' Em]. rewrite app_comm_cons, Em. cbn. set_solver.
Qed.

Lemma unlink_right m y k2 : l2 = m ++ y :: k2 → 0 <= y < kInvalidNode →
  (if decide (y = hd_id l2) then last_id l1 else n_prev (node t y)) = last_id (l1 ++ m)
  ∧ (if decide (y = last_id l1) then hd_id l2 else n_next (node t y)) = hd_id k2.
Proof.
  intros E1 Hy. pose proof (kw_nodup _ HF _ g Hp) as Hnd. rewrite Hk in Hnd. apply nodup_mid in Hnd as (_ & _ & Hnd & Hdis).
  destruct (sh_links _ _ _ Hs _ g (l1 ++ c :: m) y k2 Hp) as [-> ->]; [by rewrite Hk, E1, <- app_assoc|].
  rewrite (decide_False (P := y = last_id l1)).
  2: { destruct (last_id_cases l1) as [(_ & ->)|(z & l' & E & ->)]; [lia|]. intros ->. apply (Hdis z); rewrite ?E, ?E1; set_solver. }
  split; [|done]. rewrite E1. destruct m as [|z m _] using rev_ind; [by rewrite decide_True, app_nil_r|]. rewrite decide_False.
  - rewrite app_comm_cons, !app_assoc. by rewrite !last_id_snoc.
  - rewrite E1, app_assoc in Hnd. apply nodup_mid in Hnd as (Hnd & _ & _). intros E. apply Hnd. rewrite E. destruct m as [|w m]; cbn; set_solver.
Qed.

Lemma shape_unlink : shape (unlink_child c t) names (f_detach c F).
Proof.
  pose proof (sh_size _ _ _ Hs) as Hsize. pose proof (parent_of_some F c h Hc) as Hpar.
  pose proof (kw_nodup _ HF _ g Hp) as Hnd. rewrite Hk in Hnd. pose proof (filter_mid l1 l2 c Hnd) as Hfilter.
  apply nodup_mid in Hnd as (_ & _ & Hnd & Hdis).
  split; [by rewrite unlink_size|..].
  - intros x gx (g0 & Hx & _)%f_detach_lookup. rewrite unlink_size. by eapply sh_range.
  - intros x gx (g0 & Hx & ->)%f_detach_lookup. rewrite Hpar. pose proof (sh_range _ _ _ Hs x g0 Hx). pose proof (sh_node _ _ _ Hs x g0 Hx) as [].
    rewrite node_unlink_at by lia. destruct (decide (x = c)) as [->|Hxc].
    { rewrite decide_False by by apply (kw_irrefl _ HF c h). by split. }
    destruct (decide (x = g_parent h)) as [->|Hxp].
    + rewrite (decide_True (P := g_parent h = g_parent h)) by done. assert (g0 = g) as -> by congruence. split; try done; cbn.
      * rewrite no_first0, Hk, Hfilter. destruct (last_id_cases l1) as [(E & ->)|(y & l' & E & ->)].
        -- by rewrite decide_True, E.
        -- rewrite decide_False; [rewrite E; by destruct l'|]. destruct (unlink_kid y) as (_ & ? & _); [rewrite E; set_solver|lia].
      * rewrite no_last0, Hk, Hfilter. destruct (hd_id_cases l2) as [(E & ->)|(y & l' & E & ->)].
        -- by rewrite decide_True, E, app_nil_r.
        -- rewrite decide_False; [|destruct (unlink_kid y) as (_ & ? & _); [rewrite E; set_solver|lia]].
           rewrite E. unfold last_id. by rewrite !last_app_cons, last_cons_cons.
      * pose proof (kids_count F t names _ g HF Hs Hp) as Hcnt. rewrite no_count0, Hk, Hfilter. rewrite Hk in Hcnt. autorewrite with zlen in *.
        pose proof (zlen_nonneg l1). pose proof (zlen_nonneg l2). unfold kInvalidNode in *. rewrite wrap_id by lia. lia.
    + rewrite (decide_False (P := g_parent h = x)) by congruence. repeat case_decide; by split.
  - intros q gq k1 y k2 (g0 & Hq & ->)%f_detach_lookup Eq. rewrite Hpar in Eq.
    assert (∃ hy, F !! y = Some hy ∧ g_parent hy = q ∧ y ≠ c) as (hy & Hy & Ey & Hyc).
    { destruct (decide (g_parent h = q)) as [<-|Hqp].
      - assert (g0 = g) as -> by congruence. cbn in Eq. rewrite Hk, Hfilter in Eq.
        destruct (unlink_kid y) as ((hy & ? & ?) & _ & ? & _); [rewrite Eq; set_solver|]. eauto.
      - destruct (kw_kid _ HF q g0 y Hq) as (hy & Hhy & Ehy); [rewrite Eq; set_solver|]. exists hy. split_and!; [done|done|]. congruence. }
    pose proof (sh_range _ _ _ Hs y hy Hy). destruct (unlink_links y) as [-> ->]; [lia|done|].
    destruct (decide (g_parent h = q)) as [<-|Hqp].
    + assert (g0 = g) as -> by congruence. cbn in Eq. rewrite Hk, Hfilter in Eq.
      apply app_split in Eq as [(m & E1 & ->)|(m & -> & E1)]; [apply unlink_left; [done|lia]|apply unlink_right; [done|lia]].
    + assert (y ∉ l1 ++ l2) as Hni. { intros Hin. destruct (unlink_kid y Hin) as ((hy' & ? & ?) & _). congruence. }
      rewrite !decide_False; [by apply (sh_links _ _ _ Hs q g0)|..].
      * destruct (last_id_cases l1) as [(_ & ->)|(z & l' & E & ->)]; [lia|]. rewrite E in Hni. set_solver.
      * destruct (hd_id_cases l2) as [(_ & ->)|(z & l' & E & ->)]; [lia|]. rewrite E in Hni. set_solver.
Qed.
End unlink.

Section link.
Context (t : MetadataTree M) (names : list bytes) (F : forest) (p c : Z) (h g : GNode).
Context (HF : kids_wf F) (Hs : shape t names F) (Hc : F !! c = Some h) (Hp : F !! p = Some g) (Hne : p ≠ c).
Context (Hfree : ∀ x gx, F !! x = Some gx → c ∉ g_kids gx).

Lemma link_last : last_id (g_kids g) = kInvalidNode ∧ g_kids g = [] ∨
  last_id (g_kids g) ∈ g_kids g ∧ 0 <= last_id (g_kids g) < zlen (nodes_ t) ∧ last_id (g_kids g) ≠ c ∧ last_id (g_kids g) ≠ p.
Proof.
  destruct (last_id_cases (g_kids g)) as [(? & ?)|(y & l & E & ->)]; [by left|right].
  assert (y ∈ g_kids g) as Hy by (rewrite E; set_solver). destruct (kw_kid _ HF p g y Hp Hy) as (hy & Hhy & Ey).
  split_and!; [done|by eapply sh_range..| |].
  - intros ->. by apply (Hfree p g Hp).
  - intros ->. by apply (kw_irrefl _ HF p hy Hhy).
Qed.

Lemma node_link_at x : 0 <= x < kInvalidNode →
  node (link_child p c t) x =
    if decide (x = c) then set_prev (last_id (g_kids g)) (set_next kInvalidNode (set_parent p (node t x)))
    else if decide (x = p) then
      set_count (wrap 32 (n_count (node t x) + 1))
        (set_last c (set_first (if decide (last_id (g_kids g) = kInvalidNode) then c else n_first (node t x)) (node t x)))
    else if decide (x = last_id (g_kids g)) then set_next c (node t x) else node t x.
Proof.
  pose proof (sh_size _ _ _ Hs). pose proof (sh_range _ _ _ Hs c h Hc). pose proof (sh_range _ _ _ Hs p g Hp).
  pose proof (no_last _ _ _ (sh_node _ _ _ Hs p g Hp)) as El. intros Hx.
  pose proof (node_link t p c x) as Hn. cbv zeta in Hn. rewrite El in Hn. destruct link_last as [(E & _)|(_ & ? & ? & ?)]; apply Hn; try done; try lia.
Qed.

Lemma link_count : wrap 32 (zlen (g_kids g) + 1) = zlen (g_kids g ++ [c]).
Proof.
  pose proof (sh_size _ _ _ Hs). pose proof (zlen_nonneg (nodes_ t)). pose proof (zlen_nonneg (g_kids g)).
  assert (zlen (c :: g_kids g) <= Z.max 0 (zlen (nodes_ t))) as Hb.
  { apply ids_bound; [apply NoDup_cons; split; [by eapply Hfree|by eapply kw_nodup]|].
    intros x [->|Hx]%elem_of_cons; [by eapply sh_range|]. destruct (kw_kid _ HF p g x Hp Hx) as (hx & Hhx & _). by eapply sh_range. }
  autorewrite with zlen in *. unfold kInvalidNode in *. rewrite wrap_id by lia. lia.
Qed.

Lemma shape_link : shape (link_child p c t) names (f_attach p c (g_name h) F).
Proof.
  pose proof (sh_size _ _ _ Hs) as Hsize. split; [by rewrite link_size|..].
  - intros x gx (g0 & Hx & _)%f_attach_lookup; [|done]. rewrite link_size. by eapply sh_range.
  - intros x gx (g0 & Hx & ->)%f_attach_lookup; [|done].
    pose proof (sh_range _ _ _ Hs x g0 Hx). pose proof (sh_node _ _ _ Hs x g0 Hx) as [].
    rewrite node_link_at by lia. destruct (decide (x = c)) as [->|Hxc].
    { rewrite decide_False by done. assert (g0 = h) as -> by congruence. by split. }
    destruct (decide (x = p)) as [->|Hxp].
    + assert (g0 = g) as -> by congruence. split; try done; cbn.
      * rewrite no_first0. destruct link_last as [(-> & ->)|(Hin & ? & _)]; [by rewrite decide_True|].
        rewrite decide_False by lia. revert Hin. destruct (g_kids g); [by intros ?%elem_of_nil|done].
      * symmetry. apply last_id_snoc.
      * by rewrite no_count0, link_count.
    + case_decide; by split.
  - intros q gq k1 y k2 (g0 & Hq & ->)%f_attach_lookup Eq; [|done].
    destruct (decide (q = p)) as [->|Hqp].
    + assert (g0 = g) as -> by congruence. cbn in Eq. apply app_split in Eq as [(m & Ek & ->)|(m & -> & E)].
      * assert (y ∈ g_kids g) as Hy by (rewrite Ek; set_solver). destruct (kw_kid _ HF p g y Hp Hy) as (hy & Hhy & Ey).
        pose proof (sh_range _ _ _ Hs y hy Hhy). rewrite node_link_at by lia.
        rewrite decide_False by (intros ->; by apply (Hfree p g Hp)). rewrite decide_False by (intros ->; by apply (kw_irrefl _ HF p hy Hhy)).
        destruct (sh_links _ _ _ Hs p g k1 y m Hp Ek) as [E1 E2]. destruct m as [|z m].
        -- rewrite decide_True by by rewrite Ek, last_id_snoc. by cbn.
        -- rewrite decide_False; [done|]. intros E. pose proof (kw_nodup _ HF p g Hp) as Hnd. rewrite Ek in Hnd.
           apply nodup_mid in Hnd as (_ & Hnd & _). apply Hnd. rewrite E, Ek. unfold last_id. rewrite last_app_cons, last_cons_cons.
           destruct (last (z :: m)) as [w|] eqn:Ew; [|by apply last_None in Ew]. apply last_Some in Ew as [m' ->]. set_solver.
      * destruct m as [|z m]; [|by destruct m]. cbn in E. injection E as <- <-. rewrite app_nil_r.
        pose proof (sh_range _ _ _ Hs c h Hc). rewrite node_link_at, decide_True by (done || lia). done.
    + assert (g_kids (if decide (q = c) then with_home p (g_name h) g0 else g0) = g_kids g0) as Ek by by case_decide.
      rewrite Ek in Eq. assert (y ∈ g_kids g0) as Hy by (rewrite Eq; set_solver). destruct (kw_kid _ HF q g0 y Hq Hy) as (hy & Hhy & Ey).
      pose proof (sh_range _ _ _ Hs y hy Hhy). rewrite node_link_at by lia.
      rewrite decide_False by (intros ->; by apply (Hfree q g0 Hq)). destruct (sh_links _ _ _ Hs q g0 k1 y k2 Hq Eq) as [E1 E2].
      destruct (decide (y = p)) as [->|]; [done|]. rewrite decide_False; [done|]. intros E.
      destruct link_last as [(? & _)|(Hin & _)]; [lia|]. rewrite <- E in Hin. destruct (kw_kid _ HF p g y Hp Hin) as (? & ? & ?). congruence.
Qed.
End link.
End links.
