(* ===== verification/TreeInv.v ===== *)
(** * The tree's invariant

    [tree_rep t names F]: the tree [t] represents the forest [F].  Nodes and
    sibling lists ([TreeLinks]), the two indices ([TreeIndex]), the name pool,
    the free list and the counters all describe the same forest.  The lemmas
    here say what every operation of [MetadataTree] does to that forest. *)

From S2P Require Import Prelude Types KeyMap Path Unicode StringPool MetadataTree Forest TreeIndex TreeLinks.

(** ** Folding *)

Lemma casefold_plain s : is_ascii s = true → has_upper s = false → casefold_append s [] = s.
Proof.
  unfold casefold_append, is_ascii, has_upper. cbn [app]. induction s as [|b s IH]; [done|]. cbn [forallb existsb length casefold_loop].
  intros Ha Hu. b2p. rewrite (proj2 (Z.ltb_lt _ _)) by lia. unfold between. rewrite IH by done.
  destruct (65 <=? b) eqn:E1, (b <=? 90) eqn:E2; done.
Qed.

Lemma casefold_size s : zlen (casefold_append s []) <= 4 * zlen s.
Proof.
  unfold casefold_append. cbn [app]. assert (∀ fuel s, zlen (casefold_loop fuel s) <= 4 * Z.of_nat fuel) as Hall; [|apply Hall].
  clear s. induction fuel as [|fuel IH]; intros s; [done|]. destruct s as [|b s]; cbn [casefold_loop]; [rewrite zlen_nil; lia|].
  destruct (b <? 0x80); [rewrite zlen_cons; specialize (IH s); lia|]. destruct (decode_utf8 (b :: s)) as [[cp rest]|].
  - rewrite zlen_app. specialize (IH rest). assert (zlen (encode_utf8 (casefold_codepoint cp)) <= 4); [|lia].
    unfold encode_utf8. by repeat case_match.
  - rewrite zlen_cons. specialize (IH s). lia.
Qed.

(** Names are interned once: equal ids, equal names. *)
Lemma named_inj names v s s' : named names v s → named names v s' → s = s'.
Proof. intros (i & -> & Hi) (j & E & Hj). apply Nat2Z.inj in E as ->. congruence. Qed.

Lemma named_inj_name names v v' s : NoDup names → named names v s → named names v' s → v = v'.
Proof. intros Hnd (i & -> & Hi) (j & -> & Hj). f_equal. by eapply NoDup_lookup. Qed.

Lemma named_mono names names' v s : names `prefix_of` names' → named names v s → named names' v s.
Proof. intros Hp (i & -> & Hi). exists i. split; [done|]. by eapply prefix_lookup_Some. Qed.

Lemma node_ok_mono names names' n g : names `prefix_of` names' → node_ok names n g → node_ok names' n g.
Proof. intros Hp []. split; eauto using named_mono. Qed.

Section inv.
Context {M : Type} `{KeyMap M}.
Implicit Types t : MetadataTree M.

Definition ids_of (n : Node) : Ids := (n_parent n, n_name n, n_folded n).
Definition idx t (F : forest) : gmap Z Ids :=
  map_imap (λ x _, if decide (x = 0) then None else Some (ids_of (node t x))) F.

Lemma idx_lookup t F x i : idx t F !! x = Some i ↔ x ≠ 0 ∧ is_Some (F !! x) ∧ i = ids_of (node t x).
Proof.
  unfold idx. rewrite map_lookup_imap. destruct (F !! x) as [g|] eqn:E; cbn.
  - case_decide; naive_solver.
  - split; [done|]. intros (_ & [? ?] & _). done.
Qed.

Lemma idx_ext t t' F F' : (∀ x, is_Some (F !! x) ↔ is_Some (F' !! x)) →
  (∀ x, x ≠ 0 → is_Some (F !! x) → ids_of (node t x) = ids_of (node t' x)) → idx t F = idx t' F'.
Proof.
  intros H1 H2. apply map_eq. intros x. apply option_eq. intros i. rewrite !idx_lookup. split; intros (Hx & Hs & ->).
  - split_and!; [done|by apply H1|by apply H2].
  - apply H1 in Hs as Hs'. split_and!; [done|done|symmetry; by apply H2].
Qed.

Record tree_rep t (names : list bytes) (F : forest) : Prop := {
  tr_pool : pool_inv (names_ t) names;
  tr_shape : shape t names F;
  tr_free : NoDup (free_ t) ∧ ∀ id, id ∈ free_ t ↔ 0 <= id < zlen (nodes_ t) ∧ F !! id = None;
  tr_dead : ∀ id, 0 <= id < zlen (nodes_ t) → F !! id = None → n_name (node t id) = kInvalidName;
  tr_live : live_ t = Z.of_nat (size F);
  tr_index : index_ok (exact_ t) (folded_ t) (collisions_ t) (idx t F)
}.

Lemma forest_size t names F : shape t names F → Z.of_nat (size F) <= zlen (nodes_ t).
Proof.
  intros Hs. pose proof (zlen_nonneg (nodes_ t)). rewrite <- (Z.max_r 0 (zlen (nodes_ t))) by done.
  transitivity (zlen (map_to_list F).*1); [unfold zlen; rewrite length_fmap, length_map_to_list; lia|].
  apply ids_bound; [apply NoDup_fst_map_to_list|].
  intros x ([y g] & -> & Hy%elem_of_map_to_list)%list_elem_of_fmap. by eapply sh_range.
Qed.

Lemma idx_size t names F : shape t names F → Z.of_nat (size (idx t F)) < 2 ^ 32.
Proof.
  intros Hs. pose proof (forest_size t names F Hs). pose proof (sh_size _ _ _ Hs). unfold kInvalidNode in *.
  assert (size (idx t F) <= size F)%nat; [|lia]. rewrite <- !size_dom. apply subseteq_size. intros x. rewrite !elem_of_dom.
  intros [i (_ & ? & _)%idx_lookup]. done.
Qed.

(** A slot is valid when it holds a node of the forest. *)
Lemma valid_spec t names F id : tree_rep t names F → 0 <= id → valid t id = true ↔ is_Some (F !! id).
Proof.
  intros Ht Hid. unfold valid. rewrite andb_true_iff, negb_true_iff, Z.ltb_lt, Z.eqb_neq. split.
  - intros [Hlt Hn]. destruct (F !! id) as [g|] eqn:E; [eauto|]. by destruct Hn; apply (tr_dead _ _ _ Ht).
  - intros [g Hg]. split; [by apply (sh_range _ _ _ (tr_shape _ _ _ Ht) id g Hg)|].
    destruct (no_name _ _ _ (sh_node _ _ _ (tr_shape _ _ _ Ht) id g Hg)) as (i & -> & Hi).
    apply lookup_lt_Some in Hi. pose proof (pi_size _ _ (tr_pool _ _ _ Ht)). unfold kInvalidName, zlen in *. lia.
Qed.

Lemma is_dir_spec t names F id g : tree_rep t names F → F !! id = Some g → is_dir (node t id) = g_isdir g.
Proof. intros Ht Hg. unfold is_dir, g_isdir. by rewrite (no_attr _ _ _ (sh_node _ _ _ (tr_shape _ _ _ Ht) id g Hg)). Qed.

Lemma name_spec t names F id g : tree_rep t names F → F !! id = Some g → name t id = g_name g.
Proof.
  intros Ht Hg. unfold name. destruct (no_name _ _ _ (sh_node _ _ _ (tr_shape _ _ _ Ht) id g Hg)) as (i & -> & Hi).
  by apply (view_ok _ _ _ _ (tr_pool _ _ _ Ht)).
Qed.

(** ** Lookup of children *)

Lemma find_named p names s v : pool_inv p names → find p s = Some v ↔ named names v s.
Proof. intros Hp. apply (find_ok _ _ _ _ Hp). Qed.

Lemma named_u32 names v s : zlen names < 2 ^ 32 → named names v s → u32_ok v.
Proof. intros Hn (i & -> & Hi%lookup_lt_Some). unfold u32_ok, zlen in *. lia. Qed.

(** The child of [p] named [s]. *)
Definition child (F : forest) (p : Z) (s : bytes) (c : Z) : Prop :=
  c ≠ 0 ∧ ∃ h, F !! c = Some h ∧ g_parent h = p ∧ g_name h = s.

Lemma exact_find t names F p nid s c : forest_ok 0 F → tree_rep t names F → is_Some (F !! p) → named names nid s →
  km_find (exact_ t) (key p nid) = Some c ↔ child F p s c.
Proof.
  intros HF Ht [g Hg] Hn. pose proof (tr_index _ _ _ Ht) as HI. pose proof (pi_size _ _ (tr_pool _ _ _ Ht)) as Hsz.
  pose proof (fo_range _ _ HF p g Hg) as Hp. pose proof (named_u32 _ _ _ Hsz Hn) as Hu.
  rewrite km_find_spec; [|apply (ix_e_inv _ _ _ _ HI)|apply key_km; assumption].
  rewrite (ix_exact _ _ _ _ HI). setoid_rewrite idx_lookup. split.
  - intros (i & (Hc & [h Hh] & ->) & E). destruct (sh_node _ _ _ (tr_shape _ _ _ Ht) c h Hh) as [Hnm Hfo Hpa _ _ _ _]. split; [done|]. exists h.
    unfold exact_key, ids_of in E. cbn [fst snd] in E. apply key_inj in E as [E1 E2]; [|assumption|by eapply named_u32]. split_and!; [done|congruence|].
    eapply named_inj; [done|by rewrite <- E2].
  - intros (Hc & h & Hh & <- & Es). eexists. split_and!; [done|eauto|done|]. destruct (sh_node _ _ _ (tr_shape _ _ _ Ht) c h Hh) as [Hnm Hfo Hpa _ _ _ _].
    unfold exact_key, ids_of. cbn [fst snd]. rewrite Hpa. f_equal. eapply named_inj_name; [apply (pi_nodup _ _ (tr_pool _ _ _ Ht))|done|by rewrite <- Es].
Qed.

Lemma exact_lookup t names F p s : forest_ok 0 F → tree_rep t names F → is_Some (F !! p) → ∀ c,
  (match find (names_ t) s with Some nid => km_find (exact_ t) (key p nid) | None => None end) = Some c ↔ child F p s c.
Proof.
  intros HF Ht Hp c. destruct (find (names_ t) s) as [nid|] eqn:E.
  - apply (find_named _ names) in E; [|apply (tr_pool _ _ _ Ht)]. by eapply exact_find.
  - split; [done|]. intros (Hc & h & Hh & _ & Es). apply (find_none _ _ _ (tr_pool _ _ _ Ht)) in E. destruct E.
    destruct (no_name _ _ _ (sh_node _ _ _ (tr_shape _ _ _ Ht) c h Hh)) as (i & _ & Hi). rewrite <- Es. by eapply list_elem_of_lookup_2.
Qed.

Lemma find_child_exact t names F p s c : forest_ok 0 F → tree_rep t names F → 0 <= p →
  find_child t p s Exact = Some c ↔ child F p s c.
Proof.
  intros HF Ht Hp. unfold find_child. destruct (valid t p) eqn:Ev; cbn [negb orb].
  - apply (valid_spec t names F p Ht Hp) in Ev as [g Hg]. rewrite (is_dir_spec t names F p g Ht Hg).
    destruct (g_isdir g) eqn:Ed; cbn [negb]; [|].
    + rewrite <- (exact_lookup t names F p s HF Ht (mk_is_Some _ _ Hg) c). by case_match.
    + split; [done|]. intros (Hc & h & Hh & <- & _). destruct (fo_home _ _ HF c h Hh Hc) as (g' & ? & ?). congruence.
  - split; [done|]. intros (Hc & h & Hh & <- & _). destruct (fo_home _ _ HF c h Hh Hc) as (g' & ? & _).
    rewrite (proj2 (valid_spec t names F _ Ht Hp)) in Ev by eauto. done.
Qed.

(** Case-insensitive lookup prefers the exact name, and otherwise gives a child
    with the same folding when there is one. *)
Lemma find_child_folded t names F p s : forest_ok 0 F → tree_rep t names F → 0 <= p →
  match find_child t p s CaseInsensitive with
  | Some c => child F p s c ∨
      (∀ c', ¬ child F p s c') ∧ ∃ s', child F p s' c ∧ casefold_append s' [] = casefold_append s []
  | None => ∀ c s', child F p s' c → casefold_append s' [] ≠ casefold_append s []
  end.
Proof.
  intros HF Ht Hp. pose proof (find_child_exact t names F p s) as Hex. unfold find_child in *.
  destruct (valid t p) eqn:Ev; cbn [negb orb].
  2: { intros c s' (Hc & h & Hh & <- & _). destruct (fo_home _ _ HF c h Hh Hc) as (g' & ? & _).
       by rewrite (proj2 (valid_spec t names F _ Ht Hp)) in Ev by eauto. }
  apply (valid_spec t names F p Ht Hp) in Ev as [g Hg]. rewrite (is_dir_spec t names F p g Ht Hg) in *.
  destruct (g_isdir g) eqn:Ed; cbn [negb] in *.
  2: { intros c s' (Hc & h & Hh & <- & _). destruct (fo_home _ _ HF c h Hh Hc) as (g' & ? & ?). congruence. }
  pose proof (exact_lookup t names F p s HF Ht (mk_is_Some _ _ Hg)) as Hel. clear Hex.
  destruct (match find (names_ t) s with Some nid => km_find (exact_ t) (key p nid) | None => None end) as [c|]; [left; by apply Hel|].
  assert (∀ c', ¬ child F p s c') as Hno by (intros c' Hc'%Hel; done).
  pose proof (tr_index _ _ _ Ht) as HI. pose proof (pi_size _ _ (tr_pool _ _ _ Ht)) as Hsz. pose proof (fo_range _ _ HF p g Hg) as Hpr.
  destruct (find (names_ t) (casefold_append s [])) as [fid|] eqn:Ef.
  - apply (find_named _ names) in Ef; [|apply (tr_pool _ _ _ Ht)]. pose proof (named_u32 _ _ _ Hsz Ef) as Hu.
    rewrite km_find_spec; [|apply (ix_f_inv _ _ _ _ HI)|apply key_km; assumption].
    destruct (km_model (folded_ t) !! key p fid) as [c|] eqn:Ek.
    + right. split; [done|]. destruct (ix_sound _ _ _ _ HI _ _ Ek) as (i & (Hc & [h Hh] & ->)%idx_lookup & E).
      destruct (sh_node _ _ _ (tr_shape _ _ _ Ht) c h Hh) as [Hnm Hfo Hpa _ _ _ _]. unfold folded_key, ids_of in E. cbn [fst snd] in E.
      apply key_inj in E as [E1 E2]; [|assumption|by eapply named_u32].
      exists (g_name h). split; [split; [done|]; exists h; split_and!; [done|congruence|done]|]. eapply named_inj; [done|by rewrite <- E2].
    + intros c s' (Hc & h & Hh & <- & <-) E. destruct (sh_node _ _ _ (tr_shape _ _ _ Ht) c h Hh) as [Hnm Hfo Hpa _ _ _ _].
      destruct (ix_total _ _ _ _ HI c (ids_of (node t c))) as [o Ho]; [apply idx_lookup; eauto|].
      unfold folded_key, ids_of in Ho. cbn [fst snd] in Ho. rewrite Hpa in Ho. replace (n_folded (node t c)) with fid in Ho; [congruence|].
      eapply named_inj_name; [apply (pi_nodup _ _ (tr_pool _ _ _ Ht))|done|by rewrite <- E].
  - intros c s' (Hc & h & Hh & <- & <-) E. destruct (sh_node _ _ _ (tr_shape _ _ _ Ht) c h Hh) as [Hnm Hfo Hpa _ _ _ _].
    apply (find_none _ _ _ (tr_pool _ _ _ Ht)) in Ef. apply Ef. destruct Hfo as (i & _ & Hi). rewrite E in Hi. by eapply list_elem_of_lookup_2.
Qed.

(** ** Walking a sibling list *)

Definition chained t (l : list Z) : Prop :=
  ∀ l1 c l2, l = l1 ++ c :: l2 → n_next (node t c) = hd_id l2 ∧ c ≠ kInvalidNode.

Lemma chained_tail t c l : chained t (c :: l) → n_next (node t c) = hd_id l ∧ c ≠ kInvalidNode ∧ chained t l.
Proof.
  intros Hl. destruct (Hl [] c l eq_refl). split_and!; [done|done|]. intros l1 y l2 ->. by apply (Hl (c :: l1) y l2).
Qed.

Lemma kids_chained t names F p g : kids_wf F → shape t names F → F !! p = Some g → chained t (g_kids g).
Proof.
  intros HF Hs Hp l1 c l2 E. destruct (sh_links _ _ _ Hs p g l1 c l2 Hp E) as [_ ->]. split; [done|].
  destruct (kw_kid _ HF p g c Hp) as (h & Hh & _); [rewrite E; set_solver|].
  pose proof (sh_range _ _ _ Hs c h Hh). pose proof (sh_size _ _ _ Hs). lia.
Qed.

Lemma find_sibling_spec fuel t l id fid : chained t l → (length l < fuel)%nat →
  match find_sibling fuel t (hd_id l) id fid with
  | Some s => s ∈ l ∧ s ≠ id ∧ n_folded (node t s) = fid
  | None => ∀ s, s ∈ l → s ≠ id → n_folded (node t s) ≠ fid
  end.
Proof.
  revert l. induction fuel as [|fuel IH]; intros l Hl Hlen; [lia|]. cbn [find_sibling]. destruct l as [|c l].
  { change (hd_id []) with kInvalidNode. rewrite Z.eqb_refl. by intros s ?%elem_of_nil. }
  change (hd_id (c :: l)) with c. destruct (chained_tail t c l Hl) as (Hn & Hc & Hl'). rewrite (proj2 (Z.eqb_neq _ _) Hc).
  destruct (Z.eqb_spec c id) as [->|Hne]; cbn [negb andb].
  - rewrite Hn. specialize (IH l Hl'). cbn [length] in Hlen. case_match; [destruct IH as (? & ? & ?); [lia|]; set_solver|].
    intros s [->|Hs]%elem_of_cons Hsi; [done|]. apply IH; [lia|done|done].
  - destruct (Z.eqb_spec (n_folded (node t c)) fid) as [E|E]; [set_solver|].
    rewrite Hn. specialize (IH l Hl'). cbn [length] in Hlen. case_match; [destruct IH as (? & ? & ?); [lia|]; set_solver|].
    intros s [->|Hs]%elem_of_cons Hsi; [done|]. apply IH; [lia|done|done].
Qed.

Lemma find_sibling_nodes fuel t t' s id fid : nodes_ t = nodes_ t' → find_sibling fuel t s id fid = find_sibling fuel t' s id fid.
Proof.
  intros E. revert s. induction fuel as [|fuel IH]; intros s; [done|]. cbn [find_sibling].
  unfold node. rewrite E. by rewrite IH.
Qed.

Lemma push_children_spec fuel t l stack : chained t l → (length l <= fuel)%nat → push_children fuel t (hd_id l) stack = rev l ++ stack.
Proof.
  revert fuel stack. induction l as [|c l IH]; intros fuel stack Hl Hlen.
  { destruct fuel; cbn [push_children]; [done|]. change (hd_id []) with kInvalidNode. by rewrite Z.eqb_refl. }
  destruct fuel as [|fuel]; [cbn in Hlen; lia|]. cbn [push_children]. change (hd_id (c :: l)) with c.
  destruct (chained_tail t c l Hl) as (-> & Hc & Hl'). rewrite (proj2 (Z.eqb_neq _ _) Hc), IH; [|done|cbn in Hlen; lia].
  cbn [rev]. by rewrite <- app_assoc.
Qed.

Lemma children_from_spec fuel t l : chained t l → (length l <= fuel)%nat → children_from fuel t (hd_id l) = l.
Proof.
  revert fuel. induction l as [|c l IH]; intros fuel Hl Hlen.
  { destruct fuel; cbn [children_from]; [done|]. change (hd_id []) with kInvalidNode. by rewrite Z.eqb_refl. }
  destruct fuel as [|fuel]; [cbn in Hlen; lia|]. cbn [children_from]. change (hd_id (c :: l)) with c.
  destruct (chained_tail t c l Hl) as (-> & Hc & Hl'). rewrite (proj2 (Z.eqb_neq _ _) Hc), IH; [done|done|cbn in Hlen; lia].
Qed.

(** ** The indices *)

Lemma unindex_fields id t : let n := node t id in
  let heir := find_sibling (S (length (nodes_ t))) t (n_first (node t (n_parent n))) id (n_folded n) in
  let r := index_del (exact_ t) (folded_ t) (collisions_ t) id (ids_of n) heir in
  unindex_node id t = mkTree (names_ t) (nodes_ t) (free_ t) r.1.1 r.1.2 (live_ t) r.2 (dropped_ t).
Proof.
  intros n heir r. unfold r, index_del, unindex_node. fold n.
  change (key (n_parent n) (n_name n)) with (exact_key (ids_of n)). change (key (n_parent n) (n_folded n)) with (folded_key (ids_of n)).
  cbn [folded_ with_exact]. destruct (km_find (folded_ t) (folded_key (ids_of n))) as [o|]; [|by destruct t].
  destruct (o =? id); cbn [negb]; [|by destruct t]. cbn [collisions_ with_folded with_exact]. destruct (collisions_ t =? 0); [by destruct t|].
  rewrite (find_sibling_nodes _ _ t) by done. change (node (with_folded _ _) _) with (node t (n_parent n)).
  change (nodes_ (with_folded _ _)) with (nodes_ t). fold heir. by destruct heir; destruct t.
Qed.

(** [unindex_node] takes the node out of the indices, provided its parent lists
    every other node that names it as parent. *)
Lemma unindex_index t names F v h g : shape t names F → pool_inv (names_ t) names → kids_wf F →
  index_ok (exact_ t) (folded_ t) (collisions_ t) (idx t F) → F !! v = Some h → v ≠ 0 → F !! g_parent h = Some g →
  (∀ w hw, F !! w = Some hw → w ≠ 0 → w ≠ v → g_parent hw = g_parent h → w ∈ g_kids g) →
  (∀ w hw, F !! w = Some hw → w ≠ 0 → g_parent hw = g_parent h → g_name hw = g_name h → w = v) →
  let t' := unindex_node v t in index_ok (exact_ t') (folded_ t') (collisions_ t') (delete v (idx t F)).
Proof.
  intros Hs Hpool HF HI Hv Hv0 Hg Hlist Huniq. cbv zeta. rewrite unindex_fields. cbn [exact_ folded_ collisions_].
  pose proof (pi_size _ _ Hpool) as Hsz. pose proof (sh_node _ _ _ Hs v h Hv) as [Hnm Hfo Hpa _ _ _ _].
  pose proof (sh_node _ _ _ Hs _ g Hg) as [_ _ _ Hfi _ _ _]. pose proof (kids_count F t names _ g HF Hs Hg) as Hcnt.
  assert (∀ w i, idx t F !! w = Some i → ∃ hw, F !! w = Some hw ∧ w ≠ 0 ∧ i = ids_of (node t w) ∧ node_ok names (node t w) hw) as Hidx.
  { intros w i (Hw & [hw Hhw] & ->)%idx_lookup. exists hw. split_and!; try done. by eapply sh_node. }
  apply index_remove; [done|by apply idx_lookup; eauto|by eapply idx_size| |].
  - intros w y (hw & Hw & Hw0 & -> & [Hnm' _ Hpa' _ _ _ _])%Hidx E. unfold exact_key, ids_of in E. cbn [fst snd] in E.
    apply key_inj in E as [E1 E2]; [|by eapply named_u32..]. apply (Huniq w hw Hw Hw0); [congruence|].
    eapply named_inj; [done|by rewrite E2].
  - pose proof (find_sibling_spec (S (length (nodes_ t))) t (g_kids g) v (n_folded (node t v))) as Hfs.
    rewrite Hpa, Hfi. specialize (Hfs (kids_chained t names F _ g HF Hs Hg)). case_match.
    + destruct Hfs as (Hin & Hne & Ef); [unfold zlen in Hcnt; lia|]. split; [done|]. destruct (kw_kid _ HF _ g _ Hg Hin) as (hs & Hhs & Ep).
      eexists. rewrite idx_lookup. split; [split_and!; [|eauto|done]|].
      * intros ->. by apply (kw_root _ HF _ g Hg).
      * unfold folded_key, ids_of. cbn [fst snd]. rewrite Ef, Hpa. by rewrite (no_parent _ _ _ (sh_node _ _ _ Hs _ hs Hhs)), Ep.
    + intros w y (hw & Hw & Hw0 & -> & [_ Hfo' Hpa' _ _ _ _])%Hidx E. unfold folded_key, ids_of in E. cbn [fst snd] in E.
      apply key_inj in E as [E1 E2]; [|by eapply named_u32..]. destruct (decide (w = v)) as [|Hne]; [done|].
      exfalso. apply (Hfs ltac:(unfold zlen in Hcnt; lia) w); [|done|done]. apply (Hlist w hw Hw Hw0 Hne). congruence.
Qed.

(** ** What the pointer operations leave alone *)

Lemma node_upd_proj {A} (proj : Node → A) i f t x : (∀ n, proj (f n) = proj n) → proj (node (upd i f t) x) = proj (node t x).
Proof.
  intros Hf. unfold node, upd, with_nodes. cbn. rewrite !list_lookup_total_alt. destruct (decide (Z.to_nat i = Z.to_nat x)) as [E|E].
  - rewrite E, list_lookup_alter_eq. destruct (nodes_ t !! Z.to_nat x); cbn; [apply Hf|done].
  - by rewrite list_lookup_alter_ne.
Qed.

Lemma ids_link p c t x : ids_of (node (link_child p c t) x) = ids_of (node (upd c (set_parent p) t) x).
Proof. unfold link_child. rewrite !(node_upd_proj ids_of) by done. case_match; by rewrite !(node_upd_proj ids_of) by done. Qed.

Lemma ids_unlink c t x : ids_of (node (unlink_child c t) x) = ids_of (node t x).
Proof. unfold unlink_child. rewrite !(node_upd_proj ids_of) by done. repeat case_match; by rewrite !(node_upd_proj ids_of) by done. Qed.

Lemma link_with p c t : link_child p c t = with_nodes (nodes_ (link_child p c t)) t.
Proof. unfold link_child. destruct t. by repeat case_match. Qed.

Lemma unlink_with c t : unlink_child c t = with_nodes (nodes_ (unlink_child c t)) t.
Proof. unfold unlink_child. destruct t. by repeat case_match. Qed.

(** ** Interning *)

Lemma rep_names t names names' p F : pool_inv p names' → names `prefix_of` names' → tree_rep t names F → tree_rep (with_names p t) names' F.
Proof.
  intros Hp Hpre []. split; try done. destruct tr_shape0 as [S1 S2 S3 S4]. split; try done. intros id g Hg. eapply node_ok_mono; [done|]. by apply S3.
Qed.

Lemma intern_rep t names F s : tree_rep t names F → zlen s < 2 ^ 32 → zlen names + 1 < 2 ^ 32 →
  ∃ names', tree_rep (with_names (intern (names_ t) s).1 t) names' F ∧ names `prefix_of` names'
    ∧ named names' (intern (names_ t) s).2 s ∧ zlen names' <= zlen names + 1.
Proof.
  intros Ht Hs Hn. pose proof (intern_ok (names_ t) names s (tr_pool _ _ _ Ht) Hs Hn) as Hi. destruct (intern (names_ t) s) as [p v].
  destruct Hi as (names' & i & Hp & Hpre & -> & Hi & Hin & Hout). exists names'. cbn [fst snd]. split_and!; [by eapply rep_names|done|by exists i|].
  destruct (decide (s ∈ names)) as [E|E]; [rewrite (proj2 (Hin E)); lia|]. rewrite (Hout E), zlen_app. unfold zlen. cbn. lia.
Qed.

Lemma intern_folded_rep t names F s nid : tree_rep t names F → named names nid s → zlen s < 2 ^ 30 → zlen names + 1 < 2 ^ 32 →
  ∃ names', tree_rep (with_names (intern_folded (names_ t) s nid).1 t) names' F ∧ names `prefix_of` names'
    ∧ named names' (intern_folded (names_ t) s nid).2 (casefold_append s []) ∧ zlen names' <= zlen names + 1.
Proof.
  intros Ht Hnid Hs Hn. unfold intern_folded. destruct (negb (is_ascii s) || has_upper s) eqn:E.
  - apply intern_rep; [done| |done]. pose proof (casefold_size s). lia.
  - b2p. exists names. cbn [fst snd]. rewrite casefold_plain by done. split_and!; [by destruct t|done|done|lia].
Qed.

(** ** A fresh slot *)

Lemma shape_slots t t1 names F : kids_wf F → shape t names F → zlen (nodes_ t) <= zlen (nodes_ t1) <= kInvalidNode →
  (∀ x, is_Some (F !! x) → node t1 x = node t x) → shape t1 names F.
Proof.
  intros HF [S1 S2 S3 S4] Hlen Hold. split; [lia|..].
  - intros x g Hg. specialize (S2 x g Hg). lia.
  - intros x g Hg. rewrite Hold by eauto. by apply S3.
  - intros p g l1 c l2 Hp E. rewrite Hold; [by eapply S4|]. destruct (kw_kid _ HF p g c Hp) as (h & ? & _); [rewrite E; set_solver|]. eauto.
Qed.

(** What [alloc_node] returns: a tree [t1] with an empty slot [id]. *)
Record fresh_slot t names F t1 (id : Z) : Prop := {
  fs_new : F !! id = None;
  fs_range : 0 <= id < zlen (nodes_ t1);
  fs_node : node t1 id = fresh_node;
  fs_shape : shape t1 names F;
  fs_size : zlen (nodes_ t) <= zlen (nodes_ t1) <= zlen (nodes_ t) + 1;
  fs_old : ∀ x, is_Some (F !! x) → node t1 x = node t x;
  fs_free : NoDup (free_ t1) ∧ ∀ x, x ∈ free_ t1 ↔ 0 <= x < zlen (nodes_ t1) ∧ x ≠ id ∧ F !! x = None;
  fs_dead : ∀ x, 0 <= x < zlen (nodes_ t1) → x ≠ id → F !! x = None → n_name (node t1 x) = kInvalidName;
  fs_rest : t1 = with_free (free_ t1) (with_nodes (nodes_ t1) t)
}.

Lemma alloc_push t names F : kids_wf F → tree_rep t names F → zlen (nodes_ t) < kInvalidNode → free_ t = [] →
  fresh_slot t names F (with_nodes (nodes_ t ++ [fresh_node]) t) (zlen (nodes_ t)).
Proof.
  intros HF Ht Hroom Ef. pose proof (tr_shape _ _ _ Ht) as Hs. destruct (tr_free _ _ _ Ht) as [Hnd Hfree]. rewrite Ef in Hfree.
  set (id := zlen (nodes_ t)). set (t1 := with_nodes (nodes_ t ++ [fresh_node]) t). pose proof (zlen_nonneg (nodes_ t)) as Hpos.
  assert (zlen (nodes_ t1) = id + 1) as Hlen by (unfold t1, id, zlen; cbn; rewrite length_app; cbn; lia).
  assert (∀ x, 0 <= x < id → node t1 x = node t x) as Hold.
  { intros x Hx. unfold node, t1, id, zlen in *. cbn. rewrite lookup_total_app_l; [done|lia]. }
  assert (∀ x, is_Some (F !! x) → node t1 x = node t x) as Hold'. { intros x [g Hg]. apply Hold. by apply (sh_range _ _ _ Hs x g). }
  split; try rewrite Hlen; try (unfold id in *; lia); try done.
  - destruct (F !! id) as [g|] eqn:E; [|done]. pose proof (sh_range _ _ _ Hs id g E). unfold id in *. lia.
  - unfold node, t1, id, zlen. cbn. rewrite lookup_total_app_r; rewrite ?Nat2Z.id, ?Nat.sub_diag; [done|lia].
  - apply (shape_slots t); [done|done|rewrite Hlen; unfold id in *; lia|done].
  - unfold t1. cbn. rewrite Ef. split; [by apply NoDup_nil|]. intros x. split; [by intros ?%elem_of_nil|].
    intros (Hx & Hxi & Hxf). rewrite Hfree. split; [unfold id in *; lia|done].
  - intros x Hx Hxi Hxf. rewrite Hold by lia. apply (tr_dead _ _ _ Ht); [unfold id in *; lia|done].
Qed.

Lemma alloc_reuse t names F id fr : kids_wf F → tree_rep t names F → free_ t = id :: fr →
  fresh_slot t names F (upd id (λ _, fresh_node) (with_free fr t)) id.
Proof.
  intros HF Ht Ef. pose proof (tr_shape _ _ _ Ht) as Hs. destruct (tr_free _ _ _ Ht) as [Hnd Hfree]. rewrite Ef in Hnd, Hfree.
  destruct (proj1 (Hfree id)) as [Hr Hid]; [set_solver|]. set (t1 := upd id (λ _, fresh_node) (with_free fr t)).
  assert (zlen (nodes_ t1) = zlen (nodes_ t)) as Hlen by exact (upd_size id _ (with_free fr t)).
  assert (∀ x, 0 <= x → x ≠ id → node t1 x = node t x) as Hold.
  { intros x Hx Hne. unfold t1. rewrite node_upd by done. by rewrite decide_False. }
  assert (∀ x, is_Some (F !! x) → node t1 x = node t x) as Hold'.
  { intros x [g Hg]. apply Hold; [|congruence]. by apply (sh_range _ _ _ Hs x g). }
  split; try rewrite Hlen; try lia; try done.
  - unfold t1. rewrite node_upd by (done || lia). by rewrite decide_True.
  - apply (shape_slots t); [done|done| |done]. pose proof (sh_size _ _ _ Hs). lia.
  - unfold t1. cbn. apply NoDup_cons in Hnd as [Hni Hnd]. split; [done|]. intros x. transitivity (x ≠ id ∧ x ∈ id :: fr); [set_solver|].
    rewrite Hfree. naive_solver.
  - intros x Hx Hxi Hxf. rewrite Hold by lia. by apply (tr_dead _ _ _ Ht).
Qed.

Lemma alloc_rep t names F : kids_wf F → tree_rep t names F → zlen (nodes_ t) < kInvalidNode →
  fresh_slot t names F (alloc_node t).1 (alloc_node t).2.
Proof.
  intros HF Ht Hroom. unfold alloc_node. destruct (free_ t) as [|id fr] eqn:Ef; cbn [fst snd]; [|by apply alloc_reuse].
  pose proof (zlen_nonneg (nodes_ t)). replace (wrap 32 _) with (zlen (nodes_ t)); [by apply alloc_push|].
  rewrite zlen_app. change (zlen [fresh_node]) with 1. unfold kInvalidNode in *. rewrite wrap_id by lia. lia.
Qed.

(** ** [insert] *)

Lemma f_add_eq p id s a F : p ≠ id → F !! id = None →
  f_attach p id s (<[id := mkG kInvalidNode s [] a]> F) = f_add p id s a F.
Proof.
  intros Hne Hid. apply map_eq. intros x. apply option_eq. intros g. rewrite f_attach_lookup, f_add_lookup by done.
  setoid_rewrite lookup_insert_Some. split.
  - intros (g0 & [(<- & <-)|(Hx & Hg)] & ->); [left; rewrite decide_False, decide_True by done; done|right].
    exists g0. split; [done|]. rewrite (decide_False (P := x = id)) by done. done.
  - intros [(-> & ->)|(g0 & Hg & ->)].
    + eexists. split; [by left|]. by rewrite decide_False, decide_True.
    + exists g0. split; [right; split; [congruence|done]|]. rewrite (decide_False (P := x = id)) by congruence. done.
Qed.

Lemma isolated_wf F id s a : forest_ok 0 F → F !! id = None → id ≠ kInvalidNode →
  kids_wf (<[id := mkG kInvalidNode s [] a]> F) ∧
  (∀ x g, <[id := mkG kInvalidNode s [] a]> F !! x = Some g → id ∉ g_kids g).
Proof.
  intros HF Hid Hinv. pose proof (forest_kids_wf 0 F HF) as [K1 K2 K3 K4].
  assert (∀ x g, F !! x = Some g → id ∉ g_kids g) as Hno. { intros x g Hx Hin. destruct (K1 x g id Hx Hin) as (? & ? & _). congruence. }
  split; [split|].
  - intros p g c [(<- & <-)|(Hne & Hp)]%lookup_insert_Some Hc; [by apply elem_of_nil in Hc|].
    destruct (K1 p g c Hp Hc) as (h & Hh & ?). exists h. rewrite lookup_insert_ne by congruence. done.
  - intros p g [(<- & <-)|(Hne & Hp)]%lookup_insert_Some; [by apply NoDup_nil|by eapply K2].
  - intros p g [(<- & <-)|(Hne & Hp)]%lookup_insert_Some; [done|by eapply K3].
  - intros p g [(<- & <-)|(Hne & Hp)]%lookup_insert_Some; [by intros ?%elem_of_nil|by eapply K4].
  - intros p g [(<- & <-)|(Hne & Hp)]%lookup_insert_Some; [by intros ?%elem_of_nil|by eapply Hno].
Qed.

(** A named node in a fresh slot. *)
Lemma shape_isolated t1 names F id nid fid s a : forest_ok 0 F → shape t1 names F → F !! id = None →
  0 <= id < zlen (nodes_ t1) → node t1 id = fresh_node → named names nid s → named names fid (casefold_append s []) →
  shape (upd id (λ n, set_attr a (set_folded fid (set_name nid n))) t1) names (<[id := mkG kInvalidNode s [] a]> F).
Proof.
  intros HF Hs Hid Hr Hfresh Hn Hf. pose proof (forest_kids_wf 0 F HF) as HK. set (t2 := upd id _ t1).
  assert (∀ x, 0 <= x → node t2 x = if decide (id = x) then mkNode nid fid kInvalidNode kInvalidNode kInvalidNode kInvalidNode kInvalidNode 0 a else node t1 x) as Hnode.
  { intros x Hx. unfold t2. rewrite node_upd by done. case_decide; [|done]. subst. by rewrite Hfresh. }
  assert (shape t2 names F) as Hs2.
  { apply (shape_slots t1); [done|done|unfold t2; rewrite upd_size; pose proof (sh_size _ _ _ Hs); lia|].
    intros x [g Hg]. pose proof (sh_range _ _ _ Hs x g Hg). rewrite Hnode, decide_False; [done|congruence|lia]. }
  split; [apply (sh_size _ _ _ Hs2)|..].
  - intros x g [(<- & <-)|(Hne & Hg)]%lookup_insert_Some; [unfold t2; by rewrite upd_size|by apply (sh_range _ _ _ Hs2 x g)].
  - intros x g [(<- & <-)|(Hne & Hg)]%lookup_insert_Some; [|by apply (sh_node _ _ _ Hs2)].
    rewrite Hnode, decide_True by (done || lia). by split.
  - intros p g l1 c l2 [(<- & <-)|(Hne & Hg)]%lookup_insert_Some E; [by destruct l1|by apply (sh_links _ _ _ Hs2 p g)].
Qed.

(** ** The steps of an operation

    Between the steps the indices lag behind the forest: [pre_rep t names F I]
    has the indices describe [I]. *)
Record pre_rep t (names : list bytes) (F : forest) (I : gmap Z Ids) : Prop := {
  pr_pool : pool_inv (names_ t) names;
  pr_shape : shape t names F;
  pr_free : NoDup (free_ t) ∧ ∀ id, id ∈ free_ t ↔ 0 <= id < zlen (nodes_ t) ∧ F !! id = None;
  pr_named : ∀ id, 0 <= id < zlen (nodes_ t) → F !! id = None → n_name (node t id) = kInvalidName;
  pr_index : index_ok (exact_ t) (folded_ t) (collisions_ t) I
}.

Lemma rep_pre t names F : tree_rep t names F ↔ pre_rep t names F (idx t F) ∧ live_ t = Z.of_nat (size F).
Proof. split; [intros []; split; [split|]; done|intros [[] ?]; split; done]. Qed.

Lemma pre_rep_live t names F I l : pre_rep t names F I → pre_rep (with_live l t) names F I.
Proof. intros []. split; try done. destruct pr_shape0. by split. Qed.

Lemma pre_rep_forest t t' names F F' I : pre_rep t names F I → shape t' names F' → t' = with_nodes (nodes_ t') t →
  zlen (nodes_ t') = zlen (nodes_ t) → (∀ x, F !! x = None ↔ F' !! x = None) → (∀ x, n_name (node t' x) = n_name (node t x)) →
  pre_rep t' names F' I.
Proof.
  intros [P1 P2 [P3 P3'] P4 P5] Hs E Hlen Hdom Hname. split; [rewrite E; exact P1|exact Hs| | |rewrite E; exact P5].
  - rewrite E. cbn [free_ with_nodes nodes_]. split; [done|]. intros id. by rewrite P3', Hlen, Hdom.
  - intros id Hid HF. rewrite Hname. apply P4; [by rewrite <- Hlen|by apply Hdom].
Qed.

Lemma link_rep t names F I p c h g : pre_rep t names F I → kids_wf F → F !! c = Some h → F !! p = Some g → p ≠ c →
  (∀ x gx, F !! x = Some gx → c ∉ g_kids gx) → pre_rep (link_child p c t) names (f_attach p c (g_name h) F) I.
Proof.
  intros Hpre HK Hc Hp Hne Hfree. eapply pre_rep_forest; [done|by apply (shape_link t names F p c h g); [|apply (pr_shape _ _ _ _ Hpre)|..]|apply link_with|apply link_size| |].
  - intros x. unfold f_attach. by rewrite !lookup_alter_None.
  - intros x. unfold link_child. rewrite !(node_upd_proj n_name) by done. case_match; by rewrite !(node_upd_proj n_name) by done.
Qed.

Lemma unlink_rep t names F I c h g : pre_rep t names F I → kids_wf F → F !! c = Some h → F !! g_parent h = Some g → c ∈ g_kids g →
  pre_rep (unlink_child c t) names (f_detach c F) I.
Proof.
  intros Hpre HK Hc Hp Hin. apply list_elem_of_split in Hin as (l1 & l2 & E).
  eapply pre_rep_forest; [done|by apply (shape_unlink t names F c h g l1 l2); [|apply (pr_shape _ _ _ _ Hpre)|..]|apply unlink_with|apply unlink_size| |].
  - intros x. unfold f_detach. by rewrite lookup_alter_None.
  - intros x. unfold unlink_child. rewrite !(node_upd_proj n_name) by done. repeat case_match; by rewrite !(node_upd_proj n_name) by done.
Qed.

Lemma unindex_rep t names F v h g : pre_rep t names F (idx t F) → kids_wf F → F !! v = Some h → v ≠ 0 → F !! g_parent h = Some g →
  (∀ w hw, F !! w = Some hw → w ≠ 0 → w ≠ v → g_parent hw = g_parent h → w ∈ g_kids g) →
  (∀ w hw, F !! w = Some hw → w ≠ 0 → g_parent hw = g_parent h → g_name hw = g_name h → w = v) →
  pre_rep (unindex_node v t) names F (delete v (idx t F)) ∧ nodes_ (unindex_node v t) = nodes_ t.
Proof.
  intros [P1 P2 P3 P4 P5] HK Hv Hv0 Hg Hlist Huniq. pose proof (unindex_index t names F v h g P2 P1 HK P5 Hv Hv0 Hg Hlist Huniq) as HI.
  rewrite unindex_fields in *. split; [|done]. split; try done. destruct P2. by split.
Qed.

Lemma index_rep t names F id h : pre_rep t names F (delete id (idx t F)) → F !! id = Some h → id ≠ 0 → 0 <= g_parent h < kInvalidNode →
  (∀ w hw, F !! w = Some hw → w ≠ 0 → g_parent hw = g_parent h → g_name hw = g_name h → w = id) →
  pre_rep (index_node id t) names F (idx t F) ∧ nodes_ (index_node id t) = nodes_ t ∧ live_ (index_node id t) = live_ t.
Proof.
  intros [P1 P2 P3 P4 P5] Hid H0' Hpr Huniq. pose proof (sh_node _ _ _ P2 id h Hid) as [Hnm Hfo Hpa _ _ _ _]. pose proof (pi_size _ _ P1) as Hsz.
  pose proof (index_add _ _ _ _ id (ids_of (node t id)) P5) as Hadd.
  assert (<[id := ids_of (node t id)]> (delete id (idx t F)) = idx t F) as E.
  { rewrite insert_delete_eq. apply insert_id. apply idx_lookup. eauto. }
  rewrite E in Hadd. unfold index_node. change (key (n_parent (node t id)) (n_name (node t id))) with (exact_key (ids_of (node t id))).
  change (key (n_parent (node t id)) (n_folded (node t id))) with (folded_key (ids_of (node t id))). cbn [folded_ with_exact].
  destruct (km_insert_if_absent (folded_ t) (folded_key (ids_of (node t id))) id) as [f b]. cbn [fst snd] in Hadd.
  split; [|by destruct b]. split; try (by destruct b); [destruct P2; by destruct b|].
  assert (index_ok (km_insert_or_assign (exact_ t) (exact_key (ids_of (node t id))) id).1 f (if b then collisions_ t else wrap 64 (collisions_ t + 1)) (idx t F)) as HI; [|by destruct b].
  apply Hadd.
  - apply lookup_delete_eq.
  - unfold ids_ok, ids_of. cbn [fst snd]. rewrite Hpa. split_and!; [lia..|by eapply named_u32|by eapply named_u32].
  - intros w y (Hne & (Hw0 & [hw Hw] & ->)%idx_lookup)%lookup_delete_Some Ek. pose proof (sh_node _ _ _ P2 w hw Hw) as [Hnm' _ Hpa' _ _ _ _].
    unfold exact_key, ids_of in Ek. cbn [fst snd] in Ek. apply key_inj in Ek as [Ep En]; [|by eapply named_u32..].
    apply Hne. symmetry. apply (Huniq w hw Hw Hw0); [congruence|]. eapply named_inj; [done|by rewrite En].
  - pose proof (idx_size t names F P2). assert (size (delete id (idx t F)) <= size (idx t F))%nat; [|lia]. rewrite map_size_delete. destruct (idx t F !! id); simpl; lia.
Qed.

Lemma slot_rep t t1 names F id nid fid s a : forest_ok 0 F → tree_rep t names F → fresh_slot t names F t1 id →
  named names nid s → named names fid (casefold_append s []) →
  pre_rep (upd id (λ n, set_attr a (set_folded fid (set_name nid n))) t1) names (<[id := mkG kInvalidNode s [] a]> F) (idx t F).
Proof.
  intros HF Ht [Hid Hr Hfresh Hs1 Hsz Hold [Hfnd Hfree] Hdead Hrest] Hn Hf.
  pose proof (shape_isolated t1 names F id nid fid s a HF Hs1 Hid Hr Hfresh Hn Hf) as Hs2. set (t2 := upd id _ t1) in *.
  assert (names_ t2 = names_ t ∧ exact_ t2 = exact_ t ∧ folded_ t2 = folded_ t ∧ collisions_ t2 = collisions_ t ∧ free_ t2 = free_ t1) as (E1 & E2 & E3 & E4 & E5).
  { unfold t2. rewrite Hrest. done. }
  split; rewrite ?E1, ?E2, ?E3, ?E4, ?E5; [apply (tr_pool _ _ _ Ht)|done| | |apply (tr_index _ _ _ Ht)].
  - split; [done|]. intros x. rewrite Hfree. unfold t2. rewrite upd_size, lookup_insert_None. naive_solver.
  - intros x Hx [Hxf Hne]%lookup_insert_None. unfold t2 in Hx. rewrite upd_size in Hx. unfold t2. rewrite node_upd, decide_False by (done || lia). by apply Hdead.
Qed.

Lemma insert_build t names F t1 id p g nid fid s a : forest_ok 0 F → tree_rep t names F → fresh_slot t names F t1 id →
  F !! p = Some g → named names nid s → named names fid (casefold_append s []) → (∀ c, ¬ child F p s c) →
  let t3 := index_node id (link_child p id (upd id (λ n, set_attr a (set_folded fid (set_name nid n))) t1)) in
  tree_rep (with_live (wrap 64 (live_ t3 + 1)) t3) names (f_add p id s a F) ∧ zlen (nodes_ t3) = zlen (nodes_ t1).
Proof.
  intros HF Ht Hfs Hp Hnid Hfid Hno. pose proof (slot_rep t t1 names F id nid fid s a HF Ht Hfs Hnid Hfid) as Hpre.
  destruct Hfs as [Hid Hr Hfresh Hs1 Hsz Hold _ _ Hrest]. pose proof (sh_size _ _ _ Hs1) as Hsize. assert (p ≠ id) as Hpi by congruence.
  assert (id ≠ 0) as Hid0 by (destruct (fo_root _ _ HF) as (? & ? & _); congruence).
  set (t2 := upd id _ t1) in *. destruct (isolated_wf F id s a HF Hid) as [HK Hnokid]; [lia|].
  pose proof (link_rep t2 names _ _ p id _ g Hpre HK (lookup_insert_eq _ _ _)) as Hpre3. rewrite lookup_insert_ne in Hpre3 by done.
  specialize (Hpre3 Hp Hpi Hnokid). cbn [g_name] in Hpre3. rewrite f_add_eq in Hpre3 by done. set (t3 := link_child p id t2) in *.
  assert (∀ x gx, F !! x = Some gx → ids_of (node t3 x) = ids_of (node t x)) as Hids.
  { intros x gx Hx. rewrite <- (Hold x) by eauto. pose proof (sh_range _ _ _ Hs1 x gx Hx). unfold t3. rewrite ids_link.
    unfold t2. rewrite !node_upd by (rewrite ?upd_size; lia). rewrite !decide_False by congruence. done. }
  assert (idx t F = delete id (idx t3 (f_add p id s a F))) as Hidx.
  { apply map_eq. intros x. apply option_eq. intros i. rewrite lookup_delete_Some, !idx_lookup. unfold is_Some. setoid_rewrite f_add_lookup; [|done]. split.
    - intros (Hx0 & [gx Hx] & ->). split_and!; [congruence|done|eauto|]. symmetry. by eapply Hids.
    - intros (Hne & Hx0 & (gx & [(-> & _)|(g0 & Hx & _)]) & ->); [done|]. split_and!; [done|eauto|]. by eapply Hids. }
  rewrite Hidx in Hpre3. pose proof (fo_range _ _ HF p g Hp) as Hpr.
  destruct (index_rep t3 names (f_add p id s a F) id (mkG p s [] a) Hpre3) as (Hpre4 & En & El); [apply f_add_lookup; [done|by left]|done|cbn; lia| |].
  { intros w hw [(-> & ->)|(g0 & Hw & ->)]%f_add_lookup Hw0 E1 E2; [done| |done]. cbn in E1, E2. exfalso. apply (Hno w). split; [done|]. exists g0.
    split_and!; [done|by case_decide|by case_decide]. }
  cbv zeta. split; [|rewrite En; unfold t3; rewrite link_size; unfold t2; by rewrite upd_size].
  apply rep_pre. split.
  - apply pre_rep_live. replace (idx (with_live _ _) _) with (idx t3 (f_add p id s a F)); [done|].
    apply idx_ext; [done|]. intros x _ _. unfold node. cbn. by rewrite En.
  - cbn [live_ with_live]. rewrite El. assert (live_ t3 = live_ t) as -> by (unfold t3; rewrite link_with; unfold t2; by rewrite Hrest).
    rewrite (tr_live _ _ _ Ht). unfold f_add. rewrite map_size_insert, lookup_alter_ne, Hid by done.
    assert (size (alter (add_kid id) p F) = size F) as -> by (rewrite <- !size_dom, dom_alter_L; done).
    pose proof (forest_size t names F (tr_shape _ _ _ Ht)). unfold kInvalidNode in *. rewrite wrap_id by lia. lia.
Qed.

(** Why an insertion is refused, in the order of the checks. *)
Definition insert_error (F : forest) (p : Z) (s : bytes) (e : Errc) : Prop :=
  match e with
  | NotFound => F !! p = None
  | NotADirectory => ∃ g, F !! p = Some g ∧ g_isdir g = false
  | InvalidPath => (∃ g, F !! p = Some g ∧ g_isdir g = true) ∧ valid_name s = false
  | AlreadyExists => ∃ c, child F p s c
  | _ => False
  end.

(** Room for [k] more nodes, with two names each. *)
Definition room t (k : Z) : Prop :=
  zlen (nodes_ t) + k <= kInvalidNode ∧ zlen (entries_ (names_ t)) + 2 * k < 2 ^ 32.

Lemma pool_length p names : pool_inv p names → zlen (entries_ p) = zlen names.
Proof. intros Hp. unfold zlen. by rewrite (Forall2_length _ _ _ (pi_entries _ _ Hp)). Qed.

Lemma insert_rep t names F p s a k : forest_ok 0 F → tree_rep t names F → 0 <= p → 0 <= k → room t (1 + k) → zlen s < 2 ^ 30 →
  let t' := (insert t p s a).1 in room t' k ∧ ∃ names', match (insert t p s a).2 with
  | Ok id => (∃ g, F !! p = Some g ∧ g_isdir g = true) ∧ valid_name s = true ∧ (∀ c, ¬ child F p s c) ∧ F !! id = None
      ∧ 0 <= id < kInvalidNode ∧ tree_rep t' names' (f_add p id s a F)
  | Err e => insert_error F p s e ∧ tree_rep t' names' F
  end.
Proof.
  intros HF Ht Hp Hk [Hr1 Hr2] Hs. rewrite (pool_length _ _ (tr_pool _ _ _ Ht)) in Hr2. unfold insert, room.
  destruct (valid t p) eqn:Ev; cbn [negb].
  2: { cbn. rewrite (pool_length _ _ (tr_pool _ _ _ Ht)). split; [lia|]. exists names. split; [|done]. cbn. destruct (F !! p) eqn:E; [|done].
       by rewrite (proj2 (valid_spec t names F p Ht Hp)) in Ev by eauto. }
  apply (valid_spec t names F p Ht Hp) in Ev as [g Hg]. rewrite (is_dir_spec t names F p g Ht Hg).
  destruct (g_isdir g) eqn:Ed; cbn [negb]; [|cbn; rewrite (pool_length _ _ (tr_pool _ _ _ Ht)); split; [lia|]; exists names; split; [by exists g|done]].
  destruct (valid_name s) eqn:En; cbn [negb]; [|cbn; rewrite (pool_length _ _ (tr_pool _ _ _ Ht)); split; [lia|]; exists names; by split; [split; [exists g|]|]].
  destruct (intern_rep t names F s Ht) as (n1 & Ht1 & Hpre1 & Hn1 & Hl1); [lia|lia|]. destruct (intern (names_ t) s) as [p1 nid]. cbn [fst snd] in *.
  set (t1 := with_names p1 t) in *. pose proof (exact_find t1 n1 F p nid s) as Hex.
  case_bool_decide as Hb.
  - destruct (km_find (exact_ t1) (key p nid)) as [c|] eqn:E; [|done]. cbn [fst snd]. rewrite (pool_length _ _ (tr_pool _ _ _ Ht1)).
    split; [unfold t1; cbn; lia|]. exists n1. split; [|done]. exists c. by apply Hex; eauto.
  - destruct (intern_folded_rep t1 n1 F s nid Ht1) as (n2 & Ht2 & Hpre2 & Hn2 & Hl2); [done|lia|lia|].
    destruct (intern_folded (names_ t1) s nid) as [p2 fid]. cbn [fst snd] in *. set (t2 := with_names p2 t1) in *.
    pose proof (alloc_rep t2 n2 F (forest_kids_wf 0 F HF) Ht2) as Hfs. destruct (alloc_node t2) as [t3 id]. cbn [fst snd] in *.
    specialize (Hfs ltac:(unfold t2, t1; cbn; lia)).
    assert (∀ c, ¬ child F p s c) as Hno. { intros c Hc. apply Hex in Hc; [congruence|eauto..]. }
    destruct (insert_build t2 n2 F t3 id p g nid fid s a HF Ht2 Hfs Hg (named_mono _ _ _ _ Hpre2 Hn1) Hn2 Hno) as [Ht4 Hlen]. cbv zeta in Ht4, Hlen.
    set (t5 := with_live _ _) in *. split.
    + rewrite (pool_length _ _ (tr_pool _ _ _ Ht4)). pose proof (fs_size _ _ _ _ _ Hfs). change (nodes_ t2) with (nodes_ t) in *.
      change (nodes_ t5) with (nodes_ (index_node id (link_child p id (upd id (λ n, set_attr a (set_folded fid (set_name nid n))) t3)))). lia.
    + exists n2. pose proof (fs_range _ _ _ _ _ Hfs). pose proof (sh_size _ _ _ (fs_shape _ _ _ _ _ Hfs)). split_and!; [eauto|done|done|apply (fs_new _ _ _ _ _ Hfs)|lia..|done].
Qed.

Lemma child_free F p s : (∀ c, ¬ child F p s c) → ∀ x h, F !! x = Some h → x ≠ 0 → g_parent h = p → g_name h ≠ s.
Proof. intros Hno x h Hx Hx0 E1 E2. apply (Hno x). split; [done|eauto]. Qed.
End inv.
