(* ===== verification/TreeRelease.v ===== *)
(** * Releasing a subtree

    [release_subtree] empties a subtree bottom-up with an explicit stack.  The
    loop is shown to terminate within its fuel and to leave exactly the forest
    without the subtree ([pruned]); [remove] follows. *)

From S2P Require Import Prelude Types KeyMap Path Unicode StringPool MetadataTree Forest TreeIndex TreeLinks TreeInv.

Section release.
Context {M : Type} `{KeyMap M}.
Implicit Types t : MetadataTree M.

(** ** One round: a leaf is freed *)

Definition free_leaf (d cur : Z) t : MetadataTree M :=
  let t := if negb (cur =? d) then unlink_child cur t else t in
  let t := unindex_node cur t in
  let t := upd cur (set_name kInvalidName) t in
  let t := with_free (cur :: free_ t) t in
  with_live (wrap 64 (live_ t - 1)) t.

Lemma unlink_if d F t names cur g : forest_ok d F → tree_rep t names F → F !! cur = Some g → cur ≠ 0 →
  let t1 := if negb (cur =? d) then unlink_child cur t else t in
  pre_rep t1 names (f_detach cur F) (idx t1 (f_detach cur F)) ∧ live_ t1 = live_ t ∧ zlen (nodes_ t1) = zlen (nodes_ t) ∧ names_ t1 = names_ t.
Proof.
  intros HF [Ht _]%rep_pre Hcur H0'. cbv zeta. destruct (Z.eqb_spec cur d) as [->|Hne]; cbn [negb].
  { by rewrite f_detach_id by eauto. }
  destruct (fo_home _ _ HF cur g Hcur H0') as (gp & Hgp & _). split_and!; [|by rewrite unlink_with|apply unlink_size|by rewrite unlink_with].
  replace (idx (unlink_child cur t) (f_detach cur F)) with (idx t F).
  - eapply unlink_rep; [done|by eapply forest_kids_wf|done|done|]. apply (fo_kid _ _ HF _ gp cur Hgp). eauto.
  - apply idx_ext; [|intros x _ _; by rewrite ids_unlink]. intros x. unfold is_Some. setoid_rewrite f_detach_lookup. naive_solver.
Qed.

(** Erasing a node that no list mentions. *)
Lemma erase_rep t names F cur g : pre_rep t names F (delete cur (idx t F)) → kids_wf F → F !! cur = Some g →
  (∀ x gx, F !! x = Some gx → cur ∉ g_kids gx) →
  let t1 := upd cur (set_name kInvalidName) t in pre_rep (with_free (cur :: free_ t1) t1) names (delete cur F) (idx t1 (delete cur F)).
Proof.
  intros [P1 P2 [P3 P3'] P4 P5] HK Hcur Hno t1. pose proof (sh_range _ _ _ P2 cur g Hcur) as Hr.
  assert (∀ x, 0 <= x → x ≠ cur → node t1 x = node t x) as Hold. { intros x Hx Hne. unfold t1. rewrite node_upd by done. by rewrite decide_False. }
  assert (idx t1 (delete cur F) = delete cur (idx t F)) as ->.
  { apply map_eq. intros x. apply option_eq. intros i. rewrite lookup_delete_Some, !idx_lookup. unfold is_Some. setoid_rewrite lookup_delete_Some. split.
    - intros (Hx0 & (gx & Hne & Hx) & ->). split_and!; [done|done|eauto|]. rewrite Hold; [done|by apply (sh_range _ _ _ P2 x gx)|done].
    - intros (Hne & Hx0 & (gx & Hx) & ->). split_and!; [done|eauto|]. rewrite Hold; [done|by apply (sh_range _ _ _ P2 x gx)|done]. }
  split; [exact P1| | | |exact P5].
  - destruct P2 as [S1 S2 S3 S4]. split; unfold node; cbn [nodes_ with_free]; fold (node t1).
    + unfold t1. by rewrite upd_size.
    + intros x gx (Hne & Hx)%lookup_delete_Some. unfold t1. rewrite upd_size. by apply (S2 x gx).
    + intros x gx (Hne & Hx)%lookup_delete_Some. change (nodes_ t1 !!! Z.to_nat x) with (node t1 x). rewrite Hold; [by apply S3|by apply (S2 x gx)|done].
    + intros p gp l1 c l2 (Hne & Hp)%lookup_delete_Some E. change (nodes_ t1 !!! Z.to_nat c) with (node t1 c).
      assert (c ∈ g_kids gp) as Hc by (rewrite E; set_solver). destruct (kw_kid _ HK p gp c Hp Hc) as (hc & Hhc & _).
      rewrite Hold; [by apply (S4 p gp)|by apply (S2 c hc)|]. intros ->. by apply (Hno p gp Hp).
  - change (free_ (with_free (cur :: free_ t1) t1)) with (cur :: free_ t). change (nodes_ (with_free (cur :: free_ t1) t1)) with (nodes_ t1).
    unfold t1. rewrite upd_size. split.
    + apply NoDup_cons. split; [|done]. rewrite P3'. intros [_ ?]. congruence.
    + intros x. rewrite elem_of_cons, P3', lookup_delete_None. split; [intros [->|[? ?]]; auto|]. intros [Hx [<-|?]]; auto.
  - intros x Hx. change (node (with_free (cur :: free_ t1) t1) x) with (node t1 x).
    change (nodes_ (with_free (cur :: free_ t1) t1)) with (nodes_ t1) in Hx. unfold t1 in Hx. rewrite upd_size in Hx.
    intros [<-|HxF]%lookup_delete_None; [unfold t1; rewrite node_upd by (done || lia); by rewrite decide_True|].
    destruct (decide (x = cur)) as [->|Hne]; [congruence|]. rewrite Hold by (done || lia). by apply P4.
Qed.

Lemma free_leaf_rep d F t names cur g : forest_ok d F → tree_rep t names F → F !! cur = Some g → cur ≠ 0 → g_kids g = [] →
  cur = d ∨ g_parent g ≠ parent_of F d →
  tree_rep (free_leaf d cur t) names (f_drop cur F) ∧ zlen (nodes_ (free_leaf d cur t)) = zlen (nodes_ t) ∧ names_ (free_leaf d cur t) = names_ t.
Proof.
  intros HF Ht Hcur H0' Hk Hd. destruct (fo_home _ _ HF cur g Hcur H0') as (gp & Hgp & _). pose proof (forest_kids_wf d F HF) as HK.
  pose proof (parent_irrefl F d cur g HF Hcur) as Hirr. pose proof (parent_of_some F cur g Hcur) as Hpar.
  pose proof (unlink_if d F t names cur g HF Ht Hcur H0') as (Hp1 & El1 & Ez1 & En1). unfold free_leaf.
  set (t1 := if negb (cur =? d) then unlink_child cur t else t) in *. cbv zeta in Hp1.
  assert (f_detach cur F !! cur = Some g) as Hcur1 by (apply f_detach_lookup; exists g; split; [done|]; rewrite decide_False; [done|congruence]).
  assert (f_detach cur F !! g_parent g = Some (del_kid cur gp)) as Hgp1 by (apply f_detach_lookup; exists gp; split; [done|]; rewrite decide_True; [done|congruence]).
  destruct (unindex_rep t1 names _ cur g _ Hp1 (detach_kids_wf cur F HK) Hcur1 H0' Hgp1) as [Hp2 Enod].
  { intros w hw (gw & Hw & ->)%f_detach_lookup Hw0 Hwc E. apply elem_del_kid. split; [|done]. apply (fo_kid _ _ HF _ gp w Hgp). split_and!; [done| |].
    - intros ->. destruct Hd as [->|Hd]; [done|]. apply Hd. rewrite (parent_of_some F d gw Hw). by case_decide.
    - exists gw. split; [done|]. by case_decide. }
  { intros w hw (gw & Hw & ->)%f_detach_lookup Hw0 E1 E2. apply (fo_uniq _ _ HF w cur gw g Hw Hcur Hw0 H0'); by case_decide. }
  set (t2 := unindex_node cur t1) in *. assert (idx t1 (f_detach cur F) = idx t2 (f_detach cur F)) as Eidx.
  { apply idx_ext; [done|]. intros x _ _. unfold node. by rewrite Enod. }
  rewrite Eidx in Hp2. pose proof (erase_rep t2 names _ cur g Hp2 (detach_kids_wf cur F HK) Hcur1) as Hp3. cbv zeta in Hp3.
  set (t3 := upd cur (set_name kInvalidName) t2) in *.
  assert (live_ t3 = live_ t ∧ zlen (nodes_ t3) = zlen (nodes_ t) ∧ names_ t3 = names_ t) as (El3 & Ez3 & En3).
  { unfold t3. rewrite upd_size. cbn [names_ live_ upd with_nodes]. rewrite Enod, Ez1. unfold t2. rewrite unindex_fields. done. }
  split; [|done]. apply rep_pre. split.
  - apply pre_rep_live. apply Hp3. intros x gx (g0 & Hx & ->)%f_detach_lookup. case_decide as E.
    + rewrite elem_del_kid. by intros [].
    + intros Hin. apply (fo_kid _ _ HF x g0 cur Hx) in Hin as (_ & _ & ? & ? & ?). congruence.
  - cbn [live_ with_live with_free]. rewrite El3, (tr_live _ _ _ Ht). unfold f_drop. rewrite map_size_delete, Hcur1.
    unfold f_detach. assert (size (alter (del_kid cur) (parent_of F cur) F) = size F) as -> by (rewrite <- !size_dom, dom_alter_L; done).
    assert (size F ≠ 0)%nat. { intros E%map_size_empty_inv. subst. by rewrite lookup_empty in Hcur. }
    pose proof (forest_size t names F (tr_shape _ _ _ Ht)). pose proof (sh_size _ _ _ (tr_shape _ _ _ Ht)). unfold kInvalidNode in *.
    rewrite wrap_id by lia. lia.
Qed.

(** ** The loop *)

(** [F'] is [F] without [dead], the nodes strictly below [cur]. *)
Record emptied (F F' : forest) (cur : Z) (g : GNode) (dead : gset Z) : Prop := {
  em_cur : cur ∉ dead;
  em_in : ∀ x, x ∈ dead → is_Some (F !! x);
  em_closed : ∀ x h, F !! x = Some h → x ∈ dead ↔ g_parent h = cur ∨ g_parent h ∈ dead;
  em_dead : ∀ x, x ∈ dead → F' !! x = None;
  em_live : ∀ x, x ∉ dead → x ≠ cur → F' !! x = F !! x;
  em_kids : F' !! cur = Some (with_kids (λ _, []) g)
}.

(** Running the loop for [steps] rounds from one state to another. *)
Definition runs (d : Z) (steps : nat) t (stack : list Z) t' (stack' : list Z) : Prop :=
  ∀ fuel, release_loop (steps + fuel) t d stack = release_loop fuel t' d stack'.

Lemma runs_trans d n m t s t1 s1 t2 s2 : runs d n t s t1 s1 → runs d m t1 s1 t2 s2 → runs d (n + m) t s t2 s2.
Proof. intros H1 H2 fuel. by rewrite <- Nat.add_assoc, H1, H2. Qed.

(** [d] sits strictly above [cur], or is [cur]. *)
Definition above (F : forest) (d cur : Z) (q : list bytes) : Prop :=
  cur = d ∨ ∃ qd, at_path F qd d ∧ (length qd < length q)%nat.

Lemma above_parent d F cur g q : forest_ok d F → F !! cur = Some g → cur ≠ 0 → d ≠ 0 → at_path F q cur → above F d cur q →
  (cur = d ∨ g_parent g ≠ parent_of F d) ∧ parent_of F d ≠ cur.
Proof.
  intros HF Hcur H0' Hd0 Hq [->|(qd & Hqd & Hlt)].
  { split; [by left|]. rewrite (parent_of_some F d g Hcur). by eapply parent_irrefl. }
  destruct (at_path_in F d qd d HF Hqd) as [h Hh]. rewrite (parent_of_some F d h Hh).
  destruct (at_path_parent F qd d h Hh Hd0 Hqd) as (q1 & -> & Hq1). destruct (at_path_parent F q cur g Hcur H0' Hq) as (q2 & -> & Hq2).
  rewrite !length_app in Hlt. cbn in Hlt. split; [right|]; intros E.
  - rewrite E in Hq2. rewrite (at_path_id_inj F _ _ _ Hq1 Hq2) in Hlt. lia.
  - rewrite E in Hq1. rewrite (at_path_id_inj F _ _ _ Hq1 Hq) in Hlt. rewrite length_app in Hlt. cbn in Hlt. lia.
Qed.

(** What is known when [cur] is on top of the stack. *)
Record ready (d : Z) (bound : nat) t names F cur g q : Prop := {
  rd_forest : forest_ok d F;
  rd_rep : tree_rep t names F;
  rd_cur : F !! cur = Some g;
  rd_root : cur ≠ 0;
  rd_path : at_path F q cur;
  rd_above : above F d cur q;
  rd_bound : ∀ q' x, at_path F q' x → (length q' <= bound)%nat
}.

Definition same_room t t' : Prop := zlen (nodes_ t') = zlen (nodes_ t) ∧ names_ t' = names_ t.

(** The last round for [cur], once nothing is below it. *)
Lemma run_pop d bound t names F FQ cur g q dead rest tQ n : d ≠ 0 → ready d bound t names F cur g q →
  emptied F FQ cur g dead → forest_ok d FQ → tree_rep tQ names FQ → at_path FQ q cur → above FQ d cur q →
  runs d n t (cur :: rest) tQ (cur :: rest) → (n <= S (2 * size dead))%nat →
  ∃ t' F' dead' m, runs d m t (cur :: rest) t' rest ∧ (m <= 2 * size dead')%nat ∧ tree_rep t' names F'
    ∧ forest_ok (if decide (cur = d) then 0 else d) F' ∧ pruned F F' cur dead' ∧ same_room tQ t'.
Proof.
  intros Hd [HF Ht Hcur H0' Hq _ _] [E1 E2 E3 E4 E5 E6] HFQ HtQ HqQ HaQ Hrun Hn.
  set (gq := with_kids (λ _, []) g) in *. destruct (above_parent d FQ cur gq q HFQ E6 H0' Hd HqQ HaQ) as [Hpar Hnp].
  destruct (free_leaf_rep d FQ tQ names cur gq HFQ HtQ E6 H0' eq_refl Hpar) as (Ht' & Hz' & Hn').
  exists (free_leaf d cur tQ), (f_drop cur FQ), ({[cur]} ∪ dead), (n + 1)%nat. split_and!; [|..|by eapply f_drop_ok| |done]; try done.
  - eapply runs_trans; [done|]. intros fuel. cbn [release_loop Nat.add].
    rewrite (no_first _ _ _ (sh_node _ _ _ (tr_shape _ _ _ HtQ) cur gq E6)). change (hd_id (g_kids gq)) with kInvalidNode. rewrite Z.eqb_refl. done.
  - rewrite size_union by (apply disjoint_singleton_l; done). rewrite size_singleton. lia.
  - assert (parent_of FQ cur = parent_of F cur) as Ep by (rewrite (parent_of_some F cur g Hcur); by rewrite (parent_of_some FQ cur gq E6)).
    split.
    + apply elem_of_union_l, elem_of_singleton_2. done.
    + intros x [->%elem_of_singleton|Hx]%elem_of_union; eauto.
    + intros x h Hx Hne. rewrite !elem_of_union, !elem_of_singleton, (E3 x h Hx). tauto.
    + intros x [->%elem_of_singleton|Hx]%elem_of_union; unfold f_drop; [by rewrite lookup_delete_eq|].
      destruct (decide (x = cur)) as [->|Hne]; [by rewrite lookup_delete_eq|]. rewrite lookup_delete_ne by done. apply eq_None_not_Some. intros [y (g0 & Hg0 & _)%f_detach_lookup].
      rewrite E4 in Hg0; done.
    + intros x [Hne%not_elem_of_singleton Hx]%not_elem_of_union. unfold f_drop. rewrite lookup_delete_ne by congruence.
      unfold f_detach. rewrite lookup_alter, Ep. case_decide as Ed; [subst x|]; rewrite E5 by done; [done|]. by destruct (F !! x).
Qed.

(** Emptying [cur] of [dead'] after its last child has gone with [dead]. *)
Lemma emptied_snoc d F F1 F' cur g c l dead dead' : forest_ok d F → F !! cur = Some g → g_kids g = l ++ [c] → c ≠ cur → cur ∉ dead →
  pruned F F1 c dead → emptied F1 F' cur (del_kid c g) dead' → parent_of F c = cur →
  emptied F F' cur g (dead ∪ dead') ∧ dead ## dead'.
Proof.
  intros HF Hcur Hk Hne Hnd Hpr [E1 E2 E3 E4 E5 E6] Hpar. pose proof (pruned_lookup F F1 c dead Hpr) as Hl.
  assert (∀ x, x ∈ dead → x ∉ dead') as Hdis. { intros x Hx Hx'. destruct (E2 x Hx') as [h Hh]. by apply Hl in Hh as [? _]. }
  split; [|set_solver]. split.
  - by apply not_elem_of_union.
  - intros x [Hx|Hx]%elem_of_union; [by apply (pr_in _ _ _ _ Hpr)|]. destruct (E2 x Hx) as [h (_ & g0 & ? & _)%Hl]. eauto.
  - intros x h Hx. rewrite !elem_of_union. destruct (decide (x ∈ dead)) as [Hin|Hin].
    + destruct (decide (x = c)) as [->|Hxc]; [rewrite (parent_of_some F c h Hx) in Hpar; tauto|]. rewrite (pr_closed _ _ _ _ Hpr x h Hx Hxc) in Hin. rewrite (pr_closed _ _ _ _ Hpr x h Hx Hxc). tauto.
    + assert (x ≠ c) as Hxc by (intros ->; apply Hin, (pr_cur _ _ _ _ Hpr)). rewrite (pr_closed _ _ _ _ Hpr x h Hx Hxc) in *.
      set (h' := if decide (parent_of F c = x) then del_kid c h else h). assert (g_parent h' = g_parent h) as Ep by (unfold h'; by case_decide).
      assert (F1 !! x = Some h') as Hx1. { apply Hl. split; [by rewrite (pr_closed _ _ _ _ Hpr x h Hx Hxc)|eauto]. }
      rewrite (E3 x h' Hx1), Ep. tauto.
  - intros x [Hx|Hx]%elem_of_union; [|by apply E4]. rewrite E5; [by apply (pr_dead _ _ _ _ Hpr)|by apply Hdis|congruence].
  - intros x [Hx Hx']%not_elem_of_union Hxc. rewrite E5, (pr_live _ _ _ _ Hpr) by done. rewrite decide_False by congruence. by destruct (F !! x).
  - rewrite E6. by destruct g.
Qed.

Section loop.
Context (d : Z) (bound : nat) (Hd : d ≠ 0).

(** The loop frees the node on top of the stack with all that is below it. *)
Definition frees_all (n : nat) : Prop :=
  ∀ t names F cur g q rest, ready d bound t names F cur g q → (bound < n + length q)%nat →
  ∃ t' F' dead m, runs d m t (cur :: rest) t' rest ∧ (m <= 2 * size dead)%nat ∧ tree_rep t' names F'
    ∧ forest_ok (if decide (cur = d) then 0 else d) F' ∧ pruned F F' cur dead ∧ same_room t t'.

Lemma run_kids n l : frees_all n → ∀ t names F cur g q rest, ready d bound t names F cur g q → (bound < S n + length q)%nat → g_kids g = l →
  ∃ t' F' dead m, runs d m t (rev l ++ cur :: rest) t' (cur :: rest) ∧ (m <= 2 * size dead)%nat ∧ emptied F F' cur g dead
    ∧ forest_ok d F' ∧ tree_rep t' names F' ∧ at_path F' q cur ∧ above F' d cur q ∧ same_room t t'.
Proof.
  intros Hn. induction l as [|c l IH] using rev_ind; intros t names F cur g q rest Hrd Hb Hk.
  { destruct Hrd as [HF Ht Hcur H0' Hq Ha Hbd]. pose proof (above_parent d F cur g q HF Hcur H0' Hd Hq Ha) as [_ Hnp].
    exists t, F, ∅, 0%nat. split_and!; try done. split; [set_solver|set_solver| |set_solver|done|].
    - intros x h Hx. pose proof (leaf_no_parent d F cur g HF Hcur Hk Hnp x h Hx). set_solver.
    - rewrite Hcur. f_equal. destruct g. cbn in *. by subst. }
  pose proof Hrd as [HF Ht Hcur H0' Hq Ha Hbd]. assert (c ∈ g_kids g) as Hin by (rewrite Hk; set_solver).
  apply (fo_kid _ _ HF cur g c Hcur) in Hin as (Hc0 & Hcd & h & Hc & Hpar). pose proof (parent_irrefl F d c h HF Hc) as Hirr. rewrite Hpar in Hirr.
  assert (at_path F (q ++ [g_name h]) c) as Hqc by (constructor; [by rewrite Hpar|done|done]).
  assert (above F d c (q ++ [g_name h])) as Hac.
  { right. destruct Ha as [->|(qd & ? & ?)]; [exists q|exists qd]; (split; [done|]); rewrite length_app; cbn; lia. }
  destruct (Hn t names F c h (q ++ [g_name h]) (rev l ++ cur :: rest)) as (t1 & F1 & dead & m & Hrun & Hm & Ht1 & HF1 & Hpr & Hroom).
  { by split. } { rewrite length_app. cbn. lia. }
  rewrite decide_False in HF1 by done.
  assert (∀ q' x, at_path F1 q' x ↔ at_path F q' x ∧ ¬ (q ++ [g_name h]) `prefix_of` q') as Hpath.
  { intros q' x. by eapply at_path_pruned. }
  assert (∀ q' : list bytes, (length q' <= length q)%nat → ¬ (q ++ [g_name h]) `prefix_of` q') as Hshort.
  { intros q' Hlen Hpre%prefix_length. rewrite length_app in Hpre. cbn in Hpre. lia. }
  assert (cur ∉ dead) as Hnd. { rewrite (dead_prefix d F F1 c dead (q ++ [g_name h]) HF Hc0 Hpr Hqc q cur Hq). by apply Hshort. }
  assert (parent_of F c = cur) as Hpc by by rewrite (parent_of_some F c h Hc).
  assert (F1 !! cur = Some (del_kid c g)) as Hcur1. { rewrite (pr_live _ _ _ _ Hpr cur Hnd), Hcur, decide_True; done. }
  assert (g_kids (del_kid c g) = l) as Hk1.
  { cbn. rewrite Hk. pose proof (fo_nodup _ _ HF cur g Hcur) as Hnodup. rewrite Hk in Hnodup. rewrite filter_mid by done. by rewrite app_nil_r. }
  destruct (IH t1 names F1 cur (del_kid c g) q rest) as (t' & F' & dead' & m' & Hrun' & Hm' & Hem & HF' & Ht' & Hq' & Ha' & Hroom'); [|done|done|].
  { split; try done.
    - apply Hpath. split; [done|]. by apply Hshort.
    - destruct Ha as [->|(qd & Hqd & Hlt)]; [by left|right]. exists qd. split; [|done]. apply Hpath. split; [done|]. apply Hshort. lia.
    - intros q' x [? _]%Hpath. by eapply Hbd. }
  destruct (emptied_snoc d F F1 F' cur g c l dead dead' HF Hcur Hk) as [Hem' Hdis]; [congruence|done|done|done|done|].
  exists t', F', (dead ∪ dead'), (m + m')%nat. split_and!; try done.
  - rewrite rev_app_distr. cbn [rev app]. by eapply runs_trans.
  - rewrite size_union by done. lia.
  - destruct Hroom, Hroom'. split; congruence.
Qed.

Lemma run_node n : frees_all n.
Proof.
  induction n as [|n IH]; intros t names F cur g q rest Hrd Hb.
  { pose proof (rd_bound _ _ _ _ _ _ _ _ Hrd q cur (rd_path _ _ _ _ _ _ _ _ Hrd)). lia. }
  destruct (run_kids n (g_kids g) IH t names F cur g q rest Hrd) as (tQ & FQ & dead & m & Hrun & Hm & Hem & HFQ & HtQ & HqQ & HaQ & Hroom); [lia|done|].
  assert (∃ k, runs d k t (cur :: rest) tQ (cur :: rest) ∧ (k <= S (2 * size dead))%nat) as (k & Hk & Hkm).
  { pose proof Hrd as [HF Ht Hcur H0' Hq Ha Hbd]. destruct (g_kids g) as [|c l] eqn:Ek; [exists m; split; [done|lia]|].
    exists (1 + m)%nat. split; [|lia]. eapply runs_trans; [|done]. intros fuel. cbn [Nat.add release_loop].
    pose proof (tr_shape _ _ _ Ht) as Hs. rewrite (no_first _ _ _ (sh_node _ _ _ Hs cur g Hcur)).
    pose proof (forest_kids_wf d F HF) as HK. pose proof (kids_chained t names F cur g HK Hs Hcur) as Hch.
    pose proof (kids_count F t names cur g HK Hs Hcur) as Hcnt. rewrite Ek in Hch, Hcnt. rewrite Ek. change (hd_id (c :: l)) with c.
    destruct (chained_tail t c l Hch) as (_ & Hcne & _). rewrite (proj2 (Z.eqb_neq _ _) Hcne). cbn [negb].
    pose proof (push_children_spec (length (nodes_ t)) t (c :: l) (cur :: rest) Hch) as Hpush. change (hd_id (c :: l)) with c in Hpush.
    rewrite Hpush; [done|]. unfold zlen in Hcnt. lia. }
  destruct (run_pop d bound t names F FQ cur g q dead rest tQ k Hd Hrd Hem HFQ HtQ HqQ HaQ Hk Hkm) as (t' & F' & dead' & m' & ? & ? & ? & ? & ? & Hr').
  exists t', F', dead', m'. split_and!; try done; destruct Hroom, Hr'; split; congruence.
Qed.
End loop.

(** ** The operations *)

Lemma dead_size t names F (dead : gset Z) : shape t names F → (∀ x, x ∈ dead → is_Some (F !! x)) → (size dead <= length (nodes_ t))%nat.
Proof.
  intros Hs Hin. pose proof (forest_size t names F Hs). unfold zlen in *. assert (size dead <= size F)%nat; [|lia].
  rewrite <- size_dom. apply subseteq_size. intros x Hx. by apply elem_of_dom, Hin.
Qed.

(** The fuel of [release_subtree] is enough: the loop stops with an empty stack. *)
Lemma release_subtree_rep t names F d g : forest_ok d F → tree_rep t names F → F !! d = Some g → d ≠ 0 →
  ∃ F' dead, (release_loop (2 * length (nodes_ t)) t d [d]).2 = [] ∧ tree_rep (release_subtree d t) names F' ∧ forest_ok 0 F' ∧ pruned F F' d dead
    ∧ same_room t (release_subtree d t).
Proof.
  intros HF Ht Hg Hd. destruct (path_bound F d HF) as [n Hn]. destruct (fo_reach _ _ HF d g Hg) as [q Hq].
  destruct (run_node d n Hd (S n) t names F d g q []) as (t' & F' & dead & m & Hrun & Hm & Ht' & HF' & Hpr & Hroom); [|lia|].
  { split; try done. by left. }
  rewrite decide_True in HF' by done. pose proof (dead_size t names F dead (tr_shape _ _ _ Ht) (pr_in _ _ _ _ Hpr)) as Hsz.
  specialize (Hrun (2 * length (nodes_ t) - m)%nat). replace (m + (2 * length (nodes_ t) - m))%nat with (2 * length (nodes_ t))%nat in Hrun by lia.
  assert (∀ fuel, release_loop fuel t' d [] = (t', [])) as Hnil by (intros []; done).
  exists F', dead. unfold release_subtree. rewrite Hrun, Hnil. done.
Qed.

(** Unlinking a node and releasing it removes it and all that is below it. *)
Lemma cut_rep t names F id g : forest_ok 0 F → tree_rep t names F → F !! id = Some g → id ≠ 0 →
  let t' := release_subtree id (unlink_child id t) in
  ∃ F' dead, tree_rep t' names F' ∧ forest_ok 0 F' ∧ pruned F F' id dead ∧ same_room t t'.
Proof.
  intros HF Ht Hid H0' t'. pose proof (unlink_if 0 F t names id g HF Ht Hid H0') as Hu. rewrite (proj2 (Z.eqb_neq _ _) H0') in Hu. cbn [negb] in Hu.
  destruct Hu as (Hp & El & Ez & En). pose proof (parent_of_some F id g Hid) as Hpar. pose proof (parent_irrefl F 0 id g HF Hid) as Hirr.
  assert (size (f_detach id F) = size F) as Esz by (unfold f_detach; rewrite <- !size_dom, dom_alter_L; done).
  assert (tree_rep (unlink_child id t) names (f_detach id F)) as Ht1. { apply rep_pre. split; [done|]. by rewrite El, Esz, (tr_live _ _ _ Ht). }
  assert (f_detach id F !! id = Some g) as Hid1 by (apply f_detach_lookup; exists g; split; [done|]; rewrite decide_False; congruence).
  destruct (release_subtree_rep (unlink_child id t) names (f_detach id F) id g) as (F' & dead & _ & Ht' & HF' & [P1 P2 P3 P4 P5] & [Hz Hn]); [by eapply f_detach_ok|done..|].
  exists F', dead. split_and!; [done|done| |split; unfold t'; congruence].
  assert (parent_of (f_detach id F) id = parent_of F id) as Ep by (rewrite Hpar; by apply parent_of_some).
  split; [done| | |done|].
  - intros x Hx. destruct (P2 x Hx) as [h (g0 & ? & _)%f_detach_lookup]. eauto.
  - intros x h Hx Hne. rewrite (P3 x (if decide (parent_of F id = x) then del_kid id h else h)); [by case_decide|apply f_detach_lookup; eauto|done].
  - intros x Hx. rewrite (P5 x Hx), Ep. unfold f_detach. rewrite lookup_alter. case_decide as E.
    + rewrite E. destruct (F !! x) as [h|]; [|done]. cbn. f_equal. unfold del_kid, with_kids. cbn. f_equal.
      apply list_filter_filter_l. done.
    + by destruct (F !! x).
Qed.

Definition remove_error (F : forest) (id : Z) (e : Errc) : Prop :=
  match e with NotFound => F !! id = None | InvalidArgument => id = 0 | _ => False end.

Lemma remove_rep t names F id : forest_ok 0 F → tree_rep t names F → 0 <= id →
  let t' := (remove t id).1 in same_room t t' ∧ match (remove t id).2 with
  | Ok _ => id ≠ 0 ∧ ∃ F' dead, tree_rep t' names F' ∧ forest_ok 0 F' ∧ pruned F F' id dead
  | Err e => remove_error F id e ∧ t' = t
  end.
Proof.
  intros HF Ht Hid. unfold remove. pose proof (valid_spec t names F id Ht Hid) as Hv. destruct (valid t id); cbn [negb].
  2: { cbn. split; [done|]. split; [|done]. apply eq_None_not_Some. intros Hs%Hv. done. }
  destruct (proj1 Hv eq_refl) as [g Hg]. unfold root. destruct (Z.eqb_spec id 0) as [->|Hne]; [done|].
  destruct (cut_rep t names F id g HF Ht Hg Hne) as (F' & dead & ? & ? & ? & ?). cbn. split; [done|]. split; [done|eauto].
Qed.
End release.
