(* ===== verification/TreeOps.v ===== *)
(** * The remaining operations of the tree on forests

    What [set_attributes], [upsert], [rename] and the path walks of
    [MetadataTree] do to the forest a tree represents.  Together with
    [insert_rep] and [remove_rep] every operation that changes the tree is
    covered. *)

From S2P Require Import Prelude Types KeyMap Path Unicode StringPool MetadataTree Forest TreeIndex TreeLinks TreeInv TreeRelease.

(** [F'] keeps the paths of [F] in [P], with their nodes and attributes. *)
Record kept (F F' : forest) (P : list bytes → Prop) : Prop := {
  kp_path : ∀ q x, at_path F' q x ↔ at_path F q x ∧ P q;
  kp_attr : ∀ x h, F' !! x = Some h → ∃ g, F !! x = Some g ∧ g_attr h = g_attr g
}.

Lemma kept_trans F F1 F2 P Q : kept F F1 P → kept F1 F2 Q → kept F F2 (λ q, P q ∧ Q q).
Proof.
  intros [A1 A2] [B1 B2]. split.
  - intros q x. rewrite B1, A1. tauto.
  - intros x h Hx. destruct (B2 x h Hx) as (h1 & Hx1 & ->). by apply A2.
Qed.

Lemma kept_iff F F' P Q : (∀ q x, at_path F q x → P q ↔ Q q) → kept F F' P → kept F F' Q.
Proof. intros HE [A1 A2]. split; [|done]. intros q x. rewrite A1. split; intros [Hq ?]; (split; [done|]); by apply (HE q x Hq). Qed.

Lemma pruned_kept d F F' cur dead pd : forest_ok d F → cur ≠ 0 → pruned F F' cur dead → at_path F pd cur →
  kept F F' (λ q, ¬ pd `prefix_of` q).
Proof.
  intros HF H0 Hp Hpd. split; [intros q x; by eapply at_path_pruned|].
  intros x h (_ & g & Hg & ->)%(pruned_lookup _ _ _ _ Hp). exists g. split; [done|]. by case_decide.
Qed.

(** Only a directory has children. *)
Lemma file_no_kids d F id g : forest_ok d F → F !! id = Some g → g_isdir g = false → g_kids g = [].
Proof.
  intros HF Hid Hd. destruct (g_kids g) as [|c l] eqn:E; [done|]. assert (c ∈ g_kids g) as Hc by (rewrite E; set_solver).
  apply (fo_kid _ _ HF id g c Hid) in Hc as (Hc0 & _ & h & Hh & <-). destruct (fo_home _ _ HF c h Hh Hc0) as (g' & ? & ?). congruence.
Qed.

(** Nothing is strictly below a node without children. *)
Lemma leaf_kept F id g q : forest_ok 0 F → F !! id = Some g → at_path F q id → g_kids g = [] → kept F F (λ q', q' = q ∨ ¬ q `prefix_of` q').
Proof.
  intros HF Hid Hq Hk. split; [|eauto]. intros q' x. split; [|by intros []]. intros Hx. split; [done|].
  destruct (decide (q `prefix_of` q')) as [[r ->]|]; [left|by right]. destruct r as [|s r]; [by rewrite app_nil_r|]. exfalso.
  rewrite cons_middle, app_assoc in Hx. destruct (at_path_app F 0 _ _ _ HF Hx) as [y Hy].
  inversion Hy as [E|q2 c2 h Hq2 Hc2 Hn E]; [by destruct q|]. apply app_inj_tail in E as [-> _].
  assert (y ∈ g_kids g) as Hin. { apply (fo_kid _ _ HF id g y Hid). split_and!; [done|done|]. exists h. split; [done|]. by eapply at_path_inj. }
  rewrite Hk in Hin. by apply elem_of_nil in Hin.
Qed.

(** A path is no longer than the forest has nodes. *)
Lemma path_nodes F q x : at_path F q x → ∃ l : list Z, NoDup l ∧ length l = S (length q) ∧ ∀ y, y ∈ l → ∃ q', at_path F q' y ∧ (length q' <= length q)%nat.
Proof.
  induction 1 as [|q c h Hq (l & Hnd & Hlen & Hl) Hc Hn].
  - exists [0]. split_and!; [apply NoDup_singleton|done|]. intros y ->%list_elem_of_singleton. exists []. split; [constructor|done].
  - exists (c :: l). rewrite length_app. cbn. assert (at_path F (q ++ [g_name h]) c) as Hc' by by constructor. split_and!; [|lia|].
    + apply NoDup_cons. split; [|done]. intros (q' & Hq' & Hle)%Hl. rewrite (at_path_id_inj F _ _ _ Hq' Hc'), length_app in Hle. cbn in Hle. lia.
    + intros y [->|(q' & ? & ?)%Hl]%elem_of_cons; [exists (q ++ [g_name h]); rewrite length_app; cbn; split; [done|lia]|]. exists q'. split; [done|lia].
Qed.

Lemma path_short d F q x : forest_ok d F → at_path F q x → (length q < size F)%nat.
Proof.
  intros HF Hq. destruct (path_nodes F q x Hq) as (l & Hnd & Hlen & Hl). assert (length l <= size F)%nat; [|lia].
  rewrite <- size_dom. transitivity (size (list_to_set l : gset Z)); [by rewrite size_list_to_set|]. apply subseteq_size.
  intros y (q' & Hq' & _)%elem_of_list_to_set%Hl. apply elem_of_dom. by eapply at_path_in.
Qed.

Section ops.
Context {M : Type} `{KeyMap M}.
Implicit Types t : MetadataTree M.

Lemma same_room_trans t1 t2 t3 : same_room t1 t2 → same_room t2 t3 → same_room t1 t3.
Proof. intros [] []. split; congruence. Qed.

Lemma same_room_room t t' k : same_room t t' → room t k → room t' k.
Proof. intros [E1 E2]. unfold room. by rewrite E1, E2. Qed.

(** ** Attributes *)

Lemma attr_rep t names F id g a : tree_rep t names F → F !! id = Some g → tree_rep (upd id (set_attr a) t) names (f_attr id a F).
Proof.
  intros Ht Hid. pose proof (sh_range _ _ _ (tr_shape _ _ _ Ht) id g Hid) as Hr. pose proof Ht as [Hpre Hlive]%rep_pre.
  assert (∀ x, F !! x = None ↔ f_attr id a F !! x = None) as Hdom. { intros x. unfold f_attr. by rewrite lookup_alter_None. }
  assert (size (f_attr id a F) = size F) as Esz by (unfold f_attr; rewrite <- !size_dom, dom_alter_L; done).
  assert (idx (upd id (set_attr a) t) (f_attr id a F) = idx t F) as Eidx.
  { apply idx_ext; [|intros x _ _; by apply node_upd_proj]. intros x. specialize (Hdom x). rewrite <- !not_eq_None_Some. tauto. }
  apply rep_pre. rewrite Eidx, Esz. split; [|exact Hlive]. eapply pre_rep_forest; [done| |done|apply upd_size|done|intros; by apply node_upd_proj].
  destruct (pr_shape _ _ _ _ Hpre) as [S1 S2 S3 S4]. split.
  - by rewrite upd_size.
  - intros x h (g0 & Hx & _)%f_attr_lookup. rewrite upd_size. by eapply S2.
  - intros x h (g0 & Hx & ->)%f_attr_lookup. pose proof (S2 x g0 Hx). rewrite node_upd by lia. destruct (S3 x g0 Hx). case_decide; by split.
  - intros p gp l1 c l2 (g0 & Hx & ->)%f_attr_lookup E. rewrite (node_upd_proj n_prev), (node_upd_proj n_next) by done.
    apply (S4 p g0); [done|]. by case_decide.
Qed.

Lemma drop_children_rep l : ∀ fuel t names F id g q, forest_ok 0 F → tree_rep t names F → F !! id = Some g → at_path F q id →
  g_kids g = l → (length l <= fuel)%nat → let t' := drop_children fuel t id in
  ∃ F' g', tree_rep t' names F' ∧ forest_ok 0 F' ∧ F' !! id = Some g' ∧ g_kids g' = []
    ∧ kept F F' (λ q', q' = q ∨ ¬ q `prefix_of` q') ∧ same_room t t'.
Proof.
  induction l as [|c l IH]; intros fuel t names F id g q HF Ht Hid Hq Hk Hf t'; subst t';
    pose proof (no_first _ _ _ (sh_node _ _ _ (tr_shape _ _ _ Ht) id g Hid)) as Hfirst; rewrite Hk in Hfirst.
  { assert (drop_children fuel t id = t) as ->. { destruct fuel; [done|]. cbn [drop_children]. rewrite Hfirst. done. }
    exists F, g. split_and!; try done. by eapply leaf_kept. }
  destruct fuel as [|fuel]; [cbn in Hf; lia|]. cbn [drop_children]. rewrite Hfirst. change (hd_id (c :: l)) with c.
  assert (c ∈ g_kids g) as Hin by (rewrite Hk; set_solver). apply (fo_kid _ _ HF id g c Hid) in Hin as (Hc0 & _ & h & Hc & Hpar).
  pose proof (fo_range _ _ HF c h Hc) as Hr. rewrite (proj2 (Z.eqb_neq _ _)) by lia.
  destruct (cut_rep t names F c h HF Ht Hc Hc0) as (F1 & dead & Ht1 & HF1 & Hpr & Hroom).
  assert (at_path F (q ++ [g_name h]) c) as Hqc by (constructor; [by rewrite Hpar|done|done]).
  pose proof (pruned_kept 0 F F1 c dead _ HF Hc0 Hpr Hqc) as Hkept.
  assert (¬ (q ++ [g_name h]) `prefix_of` q) as Hnp. { intros Hpre%prefix_length. rewrite length_app in Hpre. cbn in Hpre. lia. }
  assert (F1 !! id = Some (del_kid c g)) as Hid1.
  { apply (pruned_lookup _ _ _ _ Hpr). split; [by rewrite (dead_prefix 0 F F1 c dead _ HF Hc0 Hpr Hqc q id Hq)|].
    exists g. split; [done|]. by rewrite (parent_of_some F c h Hc), decide_True. }
  destruct (IH fuel _ names F1 id (del_kid c g) q HF1 Ht1 Hid1) as (F' & g' & Ht' & HF' & Hid' & Hk' & Hkept' & Hroom').
  - apply (kp_path _ _ _ Hkept). done.
  - cbn. rewrite Hk. pose proof (fo_nodup _ _ HF id g Hid) as Hnd. rewrite Hk in Hnd. apply (filter_mid [] l c Hnd).
  - cbn in Hf. lia.
  - exists F', g'. split_and!; try done; [|by eapply same_room_trans]. eapply kept_iff; [|by eapply kept_trans].
    cbn. intros q' x _. split; [tauto|]. intros [->|Hn]; [tauto|]. split; [|tauto]. intros [k ->]. apply Hn. rewrite <- app_assoc. by apply prefix_app_r.
Qed.

(** [set_attributes] gives the node its attributes; a directory that becomes
    something else loses what was below it. *)
Lemma set_attributes_rep t names F id a : forest_ok 0 F → tree_rep t names F → 0 <= id →
  let t' := (set_attributes t id a).1 in same_room t t' ∧ match (set_attributes t id a).2 with
  | Ok _ => ∃ q F' g', at_path F q id ∧ tree_rep t' names (f_attr id a F') ∧ forest_ok 0 F' ∧ forest_ok 0 (f_attr id a F') ∧ F' !! id = Some g'
      ∧ kept F F' (λ q', q' = q ∨ is_dir_kind (a_kind a) = true ∨ ¬ q `prefix_of` q')
  | Err e => e = NotFound ∧ F !! id = None ∧ t' = t
  end.
Proof.
  intros HF Ht Hid. unfold set_attributes. pose proof (valid_spec t names F id Ht Hid) as Hv. destruct (valid t id); cbn [negb].
  2: { cbn. split_and!; [done|done| |done]. apply eq_None_not_Some. intros Hs%Hv. done. }
  destruct (proj1 Hv eq_refl) as [g Hg]. destruct (fo_reach _ _ HF id g Hg) as [q Hq].
  rewrite (is_dir_spec t names F id g Ht Hg), (no_count _ _ _ (sh_node _ _ _ (tr_shape _ _ _ Ht) id g Hg)).
  pose proof (drop_children_rep (g_kids g) (length (nodes_ t)) t names F id g q HF Ht Hg Hq eq_refl) as Hd.
  pose proof (kids_count F t names id g (forest_kids_wf 0 F HF) (tr_shape _ _ _ Ht) Hg) as Hcnt. unfold zlen in Hcnt. specialize (Hd ltac:(lia)).
  cbv zeta in Hd. set (t1 := drop_children _ t id) in *. cbn [fst snd].
  set (b := g_isdir g && negb (is_dir_kind (a_kind a)) && negb (zlen (g_kids g) =? 0)).
  assert (∃ F' g', tree_rep (if b then t1 else t) names F' ∧ forest_ok 0 F' ∧ F' !! id = Some g' ∧ (g_kids g' = [] ∨ is_dir_kind (a_kind a) = true)
    ∧ kept F F' (λ q', q' = q ∨ is_dir_kind (a_kind a) = true ∨ ¬ q `prefix_of` q') ∧ same_room t (if b then t1 else t)) as (F' & g' & Ht' & HF' & Hg' & Hk' & Hkept & Hroom).
  { destruct b eqn:Eb; unfold b in Eb.
    - destruct Hd as (F' & g' & ? & ? & ? & ? & Hkept & ?). exists F', g'. b2p. destruct (is_dir_kind (a_kind a)); [done|]. split_and!; try done; [by left|].
      eapply kept_iff; [|done]. cbn. intros q' x _. split; [tauto|]. intros [|[|]]; [tauto|done|tauto].
    - assert (is_dir_kind (a_kind a) = true ∨ g_kids g = []) as Hc.
      { destruct (g_isdir g) eqn:Edir; [|right; by eapply file_no_kids]. destruct (is_dir_kind (a_kind a)); [by left|right].
        cbn in Eb. destruct (Z.eqb_spec (zlen (g_kids g)) 0); [|done]. unfold zlen in *; by apply nil_length_inv; lia. }
      exists F, g. split_and!; try done; [tauto|]. destruct Hc as [Hc|Hc].
      + split; [|eauto]. intros q' x. tauto.
      + destruct (leaf_kept F id g q HF Hg Hq Hc) as [Hl _]. split; [|eauto]. intros q' x. specialize (Hl q' x). cbn in Hl. tauto. }
  split; [by eapply same_room_trans; [done|]; split; [apply upd_size|]|].
  exists q, F', g'. split_and!; try done; [by eapply attr_rep|by eapply f_attr_ok].
Qed.

(** ** Renaming *)

(** The fuel covers the longest way up. *)
Lemma way_up t names F q x : forest_ok 0 F → tree_rep t names F → at_path F q x → (length q < length (nodes_ t))%nat.
Proof.
  intros HF Ht Hq. pose proof (path_short 0 F q x HF Hq). pose proof (forest_size t names F (tr_shape _ _ _ Ht)). unfold zlen in *. lia.
Qed.

Lemma has_ancestor_spec t names F id pd : forest_ok 0 F → tree_rep t names F → at_path F pd id → ∀ fuel q a, at_path F q a → (length q < fuel)%nat →
  has_ancestor fuel t a id = bool_decide (pd `prefix_of` q).
Proof.
  intros HF Ht Hpd fuel q a Hq. revert fuel. induction Hq as [|q c h Hq IH Hc Hn]; intros fuel Hf; (destruct fuel as [|fuel]; [lia|]); cbn [has_ancestor].
  - change (0 =? kInvalidNode) with false. cbv iota. destruct (fo_root _ _ HF) as (g & Hg & Hpar & _).
    rewrite (no_parent _ _ _ (sh_node _ _ _ (tr_shape _ _ _ Ht) 0 g Hg)), Hpar. destruct (Z.eqb_spec 0 id) as [<-|Hne].
    + inversion Hpd; [by rewrite bool_decide_eq_true_2|done].
    + rewrite bool_decide_eq_false_2; [by destruct fuel|]. intros ->%prefix_nil_inv. inversion Hpd as [|q ? ? ? ? ? E]; [done|by destruct q].
  - assert (at_path F (q ++ [g_name h]) c) as Hc' by by constructor. pose proof (fo_range _ _ HF c h Hc) as Hr. rewrite (proj2 (Z.eqb_neq _ _)) by lia.
    rewrite (no_parent _ _ _ (sh_node _ _ _ (tr_shape _ _ _ Ht) c h Hc)). rewrite length_app in Hf. cbn in Hf. destruct (Z.eqb_spec c id) as [->|Hne].
    + rewrite (at_path_id_inj F _ _ _ Hpd Hc'). by rewrite bool_decide_eq_true_2.
    + rewrite IH by lia. apply bool_decide_ext. split; [intros; by apply prefix_app_r|]. intros [k E]. destruct k as [|k n _] using rev_ind.
      * rewrite app_nil_r in E. rewrite E in Hc'. destruct Hne. by eapply at_path_inj.
      * rewrite app_assoc in E. apply app_inj_tail in E as [-> _]. by apply prefix_app_r.
Qed.

(** The node gets its new name while it is in no list and in no index. *)
Lemma rename_slot t names F I id h s nid fid : pre_rep t names F I → F !! id = Some h → named names nid s → named names fid (casefold_append s []) →
  pre_rep (upd id (λ n, set_folded fid (set_name nid n)) t) names (alter (with_home (g_parent h) s) id F) I.
Proof.
  intros [P1 [S1 S2 S3 S4] [P3 P3'] P4 P5] Hid Hnid Hfid. set (f := λ n, set_folded fid (set_name nid n)).
  assert (∀ x g, alter (with_home (g_parent h) s) id F !! x = Some g ↔ ∃ g0, F !! x = Some g0 ∧ g = if decide (id = x) then with_home (g_parent h) s g0 else g0) as Hl.
  { intros x g. rewrite lookup_alter. case_decide; [rewrite fmap_Some; naive_solver|naive_solver]. }
  assert (∀ x, alter (with_home (g_parent h) s) id F !! x = None ↔ F !! x = None) as Hdom by (intros x; apply lookup_alter_None).
  split; [exact P1| | | |exact P5].
  - split.
    + by rewrite upd_size.
    + intros x g (g0 & Hx & _)%Hl. rewrite upd_size. by eapply S2.
    + intros x g (g0 & Hx & ->)%Hl. pose proof (S2 x g0 Hx). pose proof (S2 id h Hid). rewrite node_upd by lia. destruct (S3 x g0 Hx) as [N1 N2 N3 N4 N5 N6 N7].
      case_decide as E; [|by split]. subst x. assert (g0 = h) as -> by congruence. by split.
    + intros p gp l1 c l2 (g0 & Hx & ->)%Hl E. rewrite (node_upd_proj n_prev), (node_upd_proj n_next) by done. apply (S4 p g0); [done|]. by case_decide.
  - change (free_ (upd id f t)) with (free_ t). rewrite upd_size. split; [done|]. intros x. by rewrite P3', Hdom.
  - intros x Hx HxF. rewrite upd_size in Hx. apply Hdom in HxF. pose proof (S2 id h Hid). rewrite node_upd by lia. rewrite decide_False by congruence. by apply P4.
Qed.

Lemma attach_home p id s p' s' F : f_attach p id s (alter (with_home p' s') id F) = f_attach p id s F.
Proof. unfold f_attach. f_equal. apply map_eq. intros x. destruct (decide (id = x)) as [<-|]; [rewrite !lookup_alter_eq; by destruct (F !! id)|by rewrite !lookup_alter_ne]. Qed.

(** The forest between [unlink_child] and [link_child]. *)
Lemma homeless_wf F id h s : forest_ok 0 F → F !! id = Some h → let F3 := alter (with_home (g_parent h) s) id (f_detach id F) in
  kids_wf F3 ∧ F3 !! id = Some (with_home (g_parent h) s h) ∧ (∀ x, is_Some (F !! x) → is_Some (F3 !! x)) ∧ (∀ x gx, F3 !! x = Some gx → id ∉ g_kids gx).
Proof.
  intros HF Hid F3. pose proof (forest_kids_wf 0 F HF) as HK. pose proof (parent_of_some F id h Hid) as Hpar. pose proof (parent_irrefl F 0 id h HF Hid) as Hirr.
  assert (f_detach id F !! id = Some h) as Hid2 by (apply f_detach_lookup; exists h; split; [done|]; rewrite decide_False; congruence).
  assert (∀ x g, F3 !! x = Some g → ∃ g0, f_detach id F !! x = Some g0 ∧ g_parent g = g_parent g0 ∧ g_kids g = g_kids g0) as Hinv3.
  { intros x g' [(-> & g0 & Hg0 & ->)|(Hx & Hg')]%lookup_alter_Some; [exists g0|exists g']; split_and!; try done. cbn. congruence. }
  assert (∀ x g, f_detach id F !! x = Some g → ∃ g3, F3 !! x = Some g3 ∧ g_parent g3 = g_parent g) as Hfwd3.
  { intros x g' Hx. unfold F3. rewrite lookup_alter. case_decide as E; [subst x; rewrite Hx|by eauto]. eexists. split; [done|]. cbn. congruence. }
  split_and!; [|unfold F3; by rewrite lookup_alter_eq, Hid2| |].
  - destruct (detach_kids_wf id F HK) as [K1 K2 K3 K4]. split.
    + intros x g' c (g0 & Hx & _ & ->)%Hinv3 Hc. destruct (K1 x g0 c Hx Hc) as (hc & Hhc & <-). by apply Hfwd3.
    + intros x g' (g0 & Hx & _ & ->)%Hinv3. by eapply K2.
    + intros x g' (g0 & Hx & -> & _)%Hinv3. by eapply K3.
    + intros x g' (g0 & Hx & _ & ->)%Hinv3. by eapply K4.
  - intros x [gx Hx]. destruct (Hfwd3 x (if decide (parent_of F id = x) then del_kid id gx else gx)) as (? & ? & _); [apply f_detach_lookup|]; eauto.
  - intros x gx (g0 & (g1 & Hx & ->)%f_detach_lookup & _ & ->)%Hinv3 Hin. case_decide as E; [by apply elem_del_kid in Hin as []|].
    apply (fo_kid _ _ HF x g1 id Hx) in Hin as (_ & _ & ? & ? & ?). congruence.
Qed.

Lemma rename_build t names F id h p gp s nid fid pd pp : forest_ok 0 F → tree_rep t names F → F !! id = Some h → id ≠ 0 → F !! p = Some gp →
  at_path F pd id → at_path F pp p → ¬ pd `prefix_of` pp → named names nid s → named names fid (casefold_append s []) → (∀ c, ¬ child F p s c) →
  let t3 := upd id (λ n, set_folded fid (set_name nid n)) (unlink_child id (unindex_node id t)) in
  tree_rep (index_node id (link_child p id t3)) names (f_move id p s F) ∧ same_room t (index_node id (link_child p id t3)).
Proof.
  intros HF Ht Hid H0' Hp Hpd Hpp Hnot Hnid Hfid Hno t3. pose proof (forest_kids_wf 0 F HF) as HK. pose proof Ht as [Hpre Hlive]%rep_pre.
  destruct (fo_home _ _ HF id h Hid H0') as (g & Hg & _). pose proof (parent_of_some F id h Hid) as Hpar. pose proof (parent_irrefl F 0 id h HF Hid) as Hirr.
  pose proof (move_ne F id p gp pd pp Hp Hpd Hpp Hnot) as Hne.
  destruct (unindex_rep t names F id h g Hpre HK Hid H0' Hg) as [Hpre1 En1].
  { intros w hw Hw Hw0 Hwi E. apply (fo_kid _ _ HF _ g w Hg). eauto. } { intros w hw Hw Hw0 E1 E2. by apply (fo_uniq _ _ HF w id hw h). }
  set (t1 := unindex_node id t) in *.
  pose proof (unlink_rep t1 names F _ id h g Hpre1 HK Hid Hg) as Hpre2. specialize (Hpre2 ltac:(apply (fo_kid _ _ HF _ g id Hg); eauto)). set (t2 := unlink_child id t1) in *.
  assert (f_detach id F !! id = Some h) as Hid2 by (apply f_detach_lookup; exists h; split; [done|]; rewrite decide_False; congruence).
  pose proof (rename_slot t2 names _ _ id h s nid fid Hpre2 Hid2 Hnid Hfid) as Hpre3. fold t3 in Hpre3. set (F3 := alter (with_home (g_parent h) s) id (f_detach id F)) in *.
  destruct (homeless_wf F id h s HF Hid) as (HK3 & Hid3 & Hin3 & Hno3). fold F3 in HK3, Hid3, Hin3, Hno3. destruct (Hin3 p) as [gp3 Hp3]; [eauto|].
  pose proof (link_rep t3 names F3 _ p id _ gp3 Hpre3 HK3 Hid3 Hp3 Hne Hno3) as Hpre4. cbn [g_name with_home] in Hpre4.
  replace (f_attach p id s F3) with (f_move id p s F) in Hpre4 by (unfold F3; by rewrite attach_home).
  set (t4 := link_child p id t3) in *.
  assert (∀ x gx, F !! x = Some gx → x ≠ id → ids_of (node t4 x) = ids_of (node t x)) as Hids.
  { intros x gx Hx Hxi. pose proof (sh_range _ _ _ (tr_shape _ _ _ Ht) x gx Hx) as Hr. pose proof (sh_range _ _ _ (tr_shape _ _ _ Ht) id h Hid) as Hri.
    assert (zlen (nodes_ t2) = zlen (nodes_ t)) as Ez2 by (unfold t2; rewrite unlink_size; by rewrite En1).
    unfold t4. rewrite ids_link. unfold t3. rewrite !node_upd by (rewrite ?upd_size; lia). rewrite !decide_False by done.
    unfold t2. rewrite ids_unlink. unfold node. by rewrite En1. }
  assert (delete id (idx t F) = delete id (idx t4 (f_move id p s F))) as Hidx.
  { apply map_eq. intros x. apply option_eq. intros i. rewrite !lookup_delete_Some, !idx_lookup. unfold is_Some.
    setoid_rewrite (f_move_lookup F id p s gp pd pp Hp Hpd Hpp Hnot). split; intros (Hxi & Hx0 & [g' Hg'] & ->).
    - split_and!; [done|done|eauto|]. symmetry. by eapply Hids.
    - destruct Hg' as (g0 & Hx & _). split_and!; [done|done|eauto|]. by eapply Hids. }
  rewrite Hidx in Hpre4. destruct (moved_home F id p s gp pd pp Hp Hpd Hpp Hnot h) as [E1 E2].
  destruct (index_rep t4 names (f_move id p s F) id (moved F id p s id h) Hpre4) as (Hpre5 & En5 & El5).
  { apply (f_move_lookup F id p s gp pd pp Hp Hpd Hpp Hnot). eauto. } { done. } { rewrite E1. by apply (fo_range _ _ HF p gp). }
  { intros w hw Hw Hw0 Ep Es. apply (f_move_lookup F id p s gp pd pp Hp Hpd Hpp Hnot) in Hw as (g0 & Hw & ->). destruct (decide (w = id)) as [|Hwi]; [done|].
    destruct (moved_place F id p s w g0 Hwi) as [E3 E4]. exfalso. apply (Hno w). split; [done|]. exists g0. split_and!; [done|congruence|congruence]. }
  assert (zlen (nodes_ t4) = zlen (nodes_ t)) as Ez. { unfold t4. rewrite link_size. unfold t3. rewrite upd_size. unfold t2. rewrite unlink_size. by rewrite En1. }
  assert (names_ t4 = names_ t ∧ live_ t4 = live_ t) as [En4 El4].
  { unfold t4. rewrite link_with. cbn [names_ live_ with_nodes]. unfold t3. cbn [names_ live_ upd with_nodes]. unfold t2. rewrite unlink_with. cbn [names_ live_ with_nodes].
    unfold t1. by rewrite unindex_fields. }
  split; [|split; [by rewrite En5|]].
  - apply rep_pre. split.
    + replace (idx (index_node id t4) (f_move id p s F)) with (idx t4 (f_move id p s F)); [done|]. apply idx_ext; [done|]. intros x _ _. unfold node. by rewrite En5.
    + rewrite El5, El4, Hlive. f_equal. unfold f_move, f_attach, f_detach. rewrite <- !size_dom, !dom_alter_L. done.
  - rewrite <- En4. unfold index_node. by destruct (km_insert_if_absent _ _ _) as [? []].
Qed.

(** Why a renaming is refused, in the order of the checks. *)
Definition rename_error (F : forest) (id p : Z) (s : bytes) (e : Errc) : Prop :=
  match e with
  | NotFound => F !! id = None ∨ F !! p = None
  | InvalidArgument => is_Some (F !! p) ∧ (id = 0 ∨ ∃ pd pp g, at_path F pd id ∧ at_path F pp p ∧ pd `prefix_of` pp
      ∧ F !! p = Some g ∧ g_isdir g = true ∧ valid_name s = true)
  | NotADirectory => is_Some (F !! id) ∧ id ≠ 0 ∧ ∃ g, F !! p = Some g ∧ g_isdir g = false
  | InvalidPath => is_Some (F !! id) ∧ id ≠ 0 ∧ (∃ g, F !! p = Some g ∧ g_isdir g = true) ∧ valid_name s = false
  | AlreadyExists => id ≠ 0 ∧ (∃ pd pp, at_path F pd id ∧ at_path F pp p ∧ ¬ pd `prefix_of` pp) ∧ ∃ c, child F p s c ∧ c ≠ id
  | _ => False
  end.

Lemma room_le t k k' : room t k → k' <= k → room t k'.
Proof. unfold room. lia. Qed.

Lemma rename_rep t names F id p s k : forest_ok 0 F → tree_rep t names F → 0 <= id → 0 <= p → 0 <= k → room t (1 + k) → zlen s < 2 ^ 30 →
  let t' := (rename t id p s).1 in room t' k ∧ ∃ names', match (rename t id p s).2 with
  | Ok _ => id ≠ 0 ∧ valid_name s = true ∧ ∃ h gp pd pp, F !! id = Some h ∧ F !! p = Some gp ∧ g_isdir gp = true ∧ at_path F pd id ∧ at_path F pp p
      ∧ ¬ pd `prefix_of` pp ∧ (child F p s id ∧ tree_rep t' names' F ∨ (∀ c, ¬ child F p s c) ∧ tree_rep t' names' (f_move id p s F))
  | Err e => rename_error F id p s e ∧ tree_rep t' names' F
  end.
Proof.
  intros HF Ht Hid Hp Hk Hroom Hs. pose proof (room_le t (1 + k) k Hroom ltac:(lia)) as Hroom'. unfold rename.
  pose proof (valid_spec t names F id Ht Hid) as Hv1. pose proof (valid_spec t names F p Ht Hp) as Hv2.
  destruct (valid t id); cbn [negb orb].
  2: { split; [done|]. exists names. split; [|done]. left. apply eq_None_not_Some. intros Hc%Hv1. done. }
  destruct (valid t p); cbn [negb].
  2: { split; [done|]. exists names. split; [|done]. right. apply eq_None_not_Some. intros Hc%Hv2. done. }
  destruct (proj1 Hv1 eq_refl) as [h Hh], (proj1 Hv2 eq_refl) as [gp Hgp]. unfold root.
  destruct (Z.eqb_spec id 0) as [->|H0']; [split; [done|]; exists names; split; [split; [eauto|by left]|done]|].
  rewrite (is_dir_spec t names F p gp Ht Hgp). destruct (g_isdir gp) eqn:Ed; cbn [negb]; [|split; [done|]; exists names; split; [split_and!; eauto|done]].
  destruct (valid_name s) eqn:En; cbn [negb]; [|split; [done|]; exists names; split; [split_and!; eauto|done]].
  destruct (fo_reach _ _ HF id h Hh) as [pd Hpd], (fo_reach _ _ HF p gp Hgp) as [pp Hpp].
  rewrite (has_ancestor_spec t names F id pd HF Ht Hpd _ pp p Hpp) by (pose proof (way_up t names F pp p HF Ht Hpp); lia).
  case_bool_decide as Hpre; [split; [done|]; exists names; split; [split; [eauto|right; exists pd, pp, gp; done]|done]|].
  destruct Hroom as [Hr1 Hr2]. rewrite (pool_length _ _ (tr_pool _ _ _ Ht)) in Hr2.
  destruct (intern_rep t names F s Ht) as (n1 & Ht1 & Hpre1 & Hn1 & Hl1); [lia|lia|]. destruct (intern (names_ t) s) as [p1 nid]. cbn [fst snd] in *.
  set (t1 := with_names p1 t) in *. pose proof (exact_find t1 n1 F p nid s) as Hex.
  assert (room t1 k) as Hroom1. { split; [unfold t1; cbn; lia|]. rewrite (pool_length _ _ (tr_pool _ _ _ Ht1)). lia. }
  destruct (km_find (exact_ t1) (key p nid)) as [c|] eqn:E.
  - assert (child F p s c) as Hc by (apply Hex; eauto). destruct (Z.eqb_spec c id) as [->|Hci]; cbn [fst snd].
    + split; [done|]. exists n1. split_and!; [done|done|]. exists h, gp, pd, pp. split_and!; auto.
    + split; [done|]. exists n1. split; [|done]. split_and!; [done|by exists pd, pp|by exists c].
  - destruct (intern_folded_rep t1 n1 F s nid Ht1) as (n2 & Ht2 & Hpre2 & Hn2 & Hl2); [done|lia|lia|].
    destruct (intern_folded (names_ t1) s nid) as [p2 fid]. cbn [fst snd] in *. set (t2 := with_names p2 t1) in *.
    assert (∀ c, ¬ child F p s c) as Hno. { intros c Hc. apply Hex in Hc; [congruence|eauto..]. }
    destruct (rename_build t2 n2 F id h p gp s nid fid pd pp HF Ht2 Hh H0' Hgp Hpd Hpp Hpre (named_mono _ _ _ _ Hpre2 Hn1) Hn2 Hno) as [Ht4 Hsame].
    split.
    + eapply same_room_room; [done|]. split; [unfold t2, t1; cbn; lia|]. rewrite (pool_length _ _ (tr_pool _ _ _ Ht2)). lia.
    + exists n2. split_and!; [done|done|]. exists h, gp, pd, pp. split_and!; auto.
Qed.
End ops.
