(* ===== verification/TreeSpec.v ===== *)
(** * The tree as a map from paths to attributes

    The specification of [MetadataTree]: a finite map from paths (lists of
    names) to attributes, with one definition per operation that has neither
    ids, nor sibling lists, nor indices.  The concrete operations are shown to
    implement it: same results, same errors, on every branch. *)

From S2P Require Import Prelude Types KeyMap Path Unicode StringPool MetadataTree Forest TreeIndex TreeLinks TreeInv TreeRelease TreeOps.

Abbreviation pathmap := (gmap (list bytes) Attributes).

Definition s_dir (a : Attributes) : bool := is_dir_kind (a_kind a).

(** ** Specification *)

Definition s_new : pathmap := {[ [] := kImplicitDirectory ]}.

Definition s_insert (m : pathmap) (q : list bytes) (s : bytes) (a : Attributes) : pathmap * Result (list bytes) :=
  match m !! q with
  | None => (m, Err NotFound)
  | Some d =>
      if negb (s_dir d) then (m, Err NotADirectory)
      else if negb (valid_name s) then (m, Err InvalidPath)
      else match m !! (q ++ [s]) with
           | Some _ => (m, Err AlreadyExists)
           | None => (<[q ++ [s] := a]> m, Ok (q ++ [s]))
           end
  end.

(** Without the paths at and below [q]; without those strictly below [q]. *)
Definition s_cut (q : list bytes) (m : pathmap) : pathmap := filter (λ qa, ¬ q `prefix_of` qa.1) m.
Definition s_clear (q : list bytes) (m : pathmap) : pathmap := filter (λ qa, qa.1 = q ∨ ¬ q `prefix_of` qa.1) m.

Definition s_set (m : pathmap) (q : list bytes) (a : Attributes) : pathmap * Result unit :=
  match m !! q with
  | None => (m, Err NotFound)
  | Some _ => (<[q := a]> (if s_dir a then m else s_clear q m), Ok ())
  end.

Definition s_upsert (m : pathmap) (q : list bytes) (s : bytes) (a : Attributes) : pathmap * Result (list bytes) :=
  match m !! (q ++ [s]) with
  | Some _ => ((s_set m (q ++ [s]) a).1, Ok (q ++ [s]))
  | None => s_insert m q s a
  end.

Definition s_remove (m : pathmap) (q : list bytes) : pathmap * Result unit :=
  match m !! q with
  | None => (m, Err NotFound)
  | Some _ => if bool_decide (q = []) then (m, Err InvalidArgument) else (s_cut q m, Ok ())
  end.

(** What is below [q] moves below [p ++ [s]]. *)
Definition moved_key (q p : list bytes) (s : bytes) (x : list bytes) : list bytes :=
  if decide (q `prefix_of` x) then p ++ s :: drop (length q) x else x.
Definition s_move (q p : list bytes) (s : bytes) (m : pathmap) : pathmap :=
  list_to_map (prod_map (moved_key q p s) id <$> map_to_list m).

Definition s_rename (m : pathmap) (q p : list bytes) (s : bytes) : pathmap * Result unit :=
  match m !! q, m !! p with
  | Some _, Some d =>
      if bool_decide (q = []) then (m, Err InvalidArgument)
      else if negb (s_dir d) then (m, Err NotADirectory)
      else if negb (valid_name s) then (m, Err InvalidPath)
      else if bool_decide (q `prefix_of` p) then (m, Err InvalidArgument)
      else if bool_decide (p ++ [s] = q) then (m, Ok ())
      else match m !! (p ++ [s]) with
           | Some _ => (m, Err AlreadyExists)
           | None => (s_move q p s m, Ok ())
           end
  | _, _ => (m, Err NotFound)
  end.

(** Walking components from [q]: "." and empty ones stay, ".." goes up. *)
Fixpoint s_walk (m : pathmap) (q : list bytes) (comps : list bytes) : option (list bytes) :=
  match comps with
  | [] => Some q
  | c :: comps =>
      if skipped c then s_walk m q comps
      else if is_dotdot c then s_walk m (removelast q) comps
      else match m !! (q ++ [c]) with Some _ => s_walk m (q ++ [c]) comps | None => None end
  end.
Definition s_lookup (m : pathmap) (path : bytes) : option (list bytes) := s_walk m [] (scan path).

(** Creating the directories of [comps] below [q]; what was created before a
    failure stays. *)
Fixpoint s_ensure (m : pathmap) (q : list bytes) (comps : list bytes) : pathmap * Result (list bytes) :=
  match comps with
  | [] => (m, Ok q)
  | c :: comps =>
      if skipped c then s_ensure m q comps
      else if is_dotdot c then (m, Err InvalidPath)
      else match m !! (q ++ [c]) with
           | Some d => if s_dir d then s_ensure m (q ++ [c]) comps else (m, Err NotADirectory)
           | None =>
               match s_insert m q c kImplicitDirectory with
               | (m, Ok q) => s_ensure m q comps
               | (m, Err e) => (m, Err e)
               end
           end
  end.

Definition s_upsert_path (m : pathmap) (path : bytes) (a : Attributes) : pathmap * Result (list bytes) :=
  match reverse (components path) with
  | [] => (m, Err InvalidPath)
  | leaf :: dirs =>
      match s_ensure m [] (reverse dirs) with
      | (m, Err e) => (m, Err e)
      | (m, Ok q) => s_upsert m q leaf a
      end
  end.

Definition s_remove_path (m : pathmap) (path : bytes) : pathmap * Result unit :=
  match s_lookup m path with None => (m, Err NotFound) | Some q => s_remove m q end.

(** ** The map a forest shows *)

Definition shows (F : forest) (m : pathmap) : Prop :=
  ∀ q a, m !! q = Some a ↔ ∃ x g, at_path F q x ∧ F !! x = Some g ∧ g_attr g = a.

Lemma shows_at F m q x g : shows F m → at_path F q x → F !! x = Some g → m !! q = Some (g_attr g).
Proof. intros Hm Hq Hx. apply Hm. eauto. Qed.

Lemma shows_none d F m q : forest_ok d F → shows F m → m !! q = None ↔ ∀ x, ¬ at_path F q x.
Proof.
  intros HF Hm. split.
  - intros E x Hq. destruct (at_path_in F d q x HF Hq) as [g Hg]. by rewrite (shows_at F m q x g Hm Hq Hg) in E.
  - intros Hno. apply eq_None_not_Some. intros [a (x & g & Hq & _)%Hm]. by eapply Hno.
Qed.

Lemma shows_some F m q a : shows F m → m !! q = Some a → ∃ x g, at_path F q x ∧ F !! x = Some g ∧ g_attr g = a.
Proof. intros Hm. by apply Hm. Qed.

Lemma child_at d F p q s c : forest_ok d F → at_path F q p → child F p s c ↔ at_path F (q ++ [s]) c.
Proof.
  intros HF Hq. split.
  - intros (Hc & h & Hh & Ep & <-). constructor; [by rewrite Ep|done|done].
  - intros Hc. inversion Hc as [E|q' c' h Hq' Hh Hn E]; [by destruct q|]. apply app_inj_tail in E as [-> <-]. split; [done|].
    exists h. split_and!; [done| |done]. by eapply at_path_inj.
Qed.

Lemma shows_root : shows f_root s_new.
Proof.
  intros q a. unfold s_new, f_root. rewrite lookup_singleton_Some. split.
  - intros [<- <-]. exists 0, (mkG kInvalidNode [] [] kImplicitDirectory). split_and!; [constructor|apply lookup_singleton_eq|done].
  - intros (x & g & Hq & [<- <-]%lookup_singleton_Some & <-). inversion Hq; done.
Qed.

Lemma shows_kept (F F' : forest) (m : pathmap) P `{∀ qa : list bytes * Attributes, Decision (P qa.1)} : kept F F' P → (∀ q x, at_path F' q x → is_Some (F' !! x)) → shows F m → shows F' (filter (λ qa, P qa.1) m).
Proof.
  intros [K1 K2] Hin Hm q a. rewrite map_lookup_filter_Some. cbn [fst]. rewrite (Hm q a). split.
  - intros [(x & g & Hq & Hx & <-) HP]. assert (at_path F' q x) as Hq' by (by apply K1). destruct (Hin q x Hq') as [h Hh].
    destruct (K2 x h Hh) as (g' & ? & E). exists x, h. split_and!; [done|done|congruence].
  - intros (x & h & Hq & Hh & <-). apply K1 in Hq as [Hq HP]. destruct (K2 x h Hh) as (g & Hg & E). split; [|done]. exists x, g. done.
Qed.

Lemma shows_add F m p q id s a : forest_ok 0 F → shows F m → at_path F q p → F !! id = None → (∀ c, ¬ child F p s c) →
  shows (f_add p id s a F) (<[q ++ [s] := a]> m) ∧ at_path (f_add p id s a F) (q ++ [s]) id.
Proof.
  intros HF Hm Hq Hid Hno. pose proof (at_path_in F 0 q p HF Hq) as Hp. assert (f_add p id s a F !! id = Some (mkG p s [] a)) as Hnew by (apply f_add_lookup; [done|by left]).
  assert (at_path (f_add p id s a F) (q ++ [s]) id) as Hqn by (apply (at_path_add 0); [done..|]; eauto). split; [|done].
  intros q' b. rewrite lookup_insert_Some. split.
  - intros [[<- <-]|[Hne Hb]]; [exists id, (mkG p s [] a); done|]. apply Hm in Hb as (x & g & Hx & Hg & <-). eexists x, _. split_and!; [|apply f_add_lookup; [done|right; eauto]|].
    + apply (at_path_add 0); [done..|]. by left.
    + by case_decide.
  - intros (x & h & Hx & Hh & <-). apply (at_path_add 0) in Hx as [Hx|(-> & qp & Hqp & ->)]; [|..|done|done|done].
    + right. destruct (at_path_in F 0 q' x HF Hx) as [g Hg]. split; [intros <-; by apply (child_at 0 F p q s x HF Hq) in Hx; apply (Hno x)|].
      apply Hm. exists x, g. split_and!; [done|done|]. apply f_add_lookup in Hh as [(-> & _)|(g' & Hg' & ->)]; [congruence| |done].
      assert (g' = g) as -> by congruence. by case_decide.
    + left. rewrite (at_path_id_inj F _ _ _ Hqp Hq). split; [done|]. rewrite Hnew in Hh. by injection Hh as <-.
Qed.

Lemma shows_attr F m id q a g : forest_ok 0 F → shows F m → at_path F q id → F !! id = Some g → shows (f_attr id a F) (<[q := a]> m).
Proof.
  intros HF Hm Hq Hid q' b. rewrite lookup_insert_Some. setoid_rewrite at_path_attr. setoid_rewrite f_attr_lookup. split.
  - intros [[<- <-]|[Hne (x & h & Hx & Hh & <-)%Hm]]; [exists id; eexists; split_and!; [done|exists g; split; [done|]; by rewrite decide_True|done]|].
    exists x. eexists. split_and!; [done|eauto|]. rewrite decide_False; [done|]. intros <-. apply Hne. by eapply at_path_id_inj.
  - intros (x & h & Hx & (h0 & Hh & ->) & <-). case_decide as E; [left; subst x; split; [by eapply at_path_id_inj|done]|right].
    split; [|apply Hm; eauto]. intros <-. apply E. by eapply at_path_inj.
Qed.

Lemma moved_key_inj q p s x y : ¬ (p ++ [s]) `prefix_of` x → ¬ (p ++ [s]) `prefix_of` y → moved_key q p s x = moved_key q p s y → x = y.
Proof.
  intros Hx Hy. unfold moved_key. assert (∀ r : list bytes, (p ++ [s]) `prefix_of` (p ++ s :: r)) as Hpre.
  { intros r. exists r. by rewrite <- app_assoc. }
  destruct (decide (q `prefix_of` x)) as [[k ->]|], (decide (q `prefix_of` y)) as [[k' ->]|].
  - rewrite !drop_app_length. intros [= ->]%app_inv_head. done.
  - intros <-. by destruct Hy.
  - intros ->. by destruct Hx.
  - done.
Qed.

Lemma s_move_lookup m q p s y a : (∀ x, is_Some (m !! x) → ¬ (p ++ [s]) `prefix_of` x) →
  s_move q p s m !! y = Some a ↔ ∃ x, m !! x = Some a ∧ y = moved_key q p s x.
Proof.
  intros Hno. unfold s_move. rewrite <- elem_of_list_to_map.
  - rewrite list_elem_of_fmap. split.
    + intros ([x b] & [= -> ->] & Hx%elem_of_map_to_list). eauto.
    + intros (x & Hx & ->). exists (x, a). split; [done|]. by apply elem_of_map_to_list.
  - rewrite <- list_fmap_compose. change (fst ∘ prod_map (moved_key q p s) id) with (moved_key q p s ∘ @fst (list bytes) Attributes).
    rewrite list_fmap_compose. apply NoDup_fmap_2_strong; [|apply NoDup_fst_map_to_list].
    intros x y' Hx Hy. apply moved_key_inj; apply Hno.
    + apply list_elem_of_fmap in Hx as ([x' b] & -> & Hx%elem_of_map_to_list). eauto.
    + apply list_elem_of_fmap in Hy as ([x' b] & -> & Hy%elem_of_map_to_list). eauto.
Qed.

Lemma shows_move F m id h p gp s pd pp : forest_ok 0 F → shows F m → F !! id = Some h → id ≠ 0 → F !! p = Some gp →
  at_path F pd id → at_path F pp p → ¬ pd `prefix_of` pp → (∀ c, ¬ child F p s c) → shows (f_move id p s F) (s_move pd pp s m).
Proof.
  intros HF Hm Hid H0 Hp Hpd Hpp Hnot Hno q a. rewrite s_move_lookup.
  2: { intros x [b (y & g & Hy & _)%Hm] [r ->]. destruct (at_path_app F 0 _ _ _ HF Hy) as [c Hc]. apply (Hno c). by apply (child_at 0 F p pp). }
  assert (∀ x g, g_attr (moved F id p s x g) = g_attr g) as Hattr by (intros x g; unfold moved; by repeat case_decide).
  setoid_rewrite (at_path_move F id p s h gp pd pp HF Hid H0 Hp Hpd Hpp Hnot). setoid_rewrite (f_move_lookup F id p s gp pd pp Hp Hpd Hpp Hnot). split.
  - intros (x & (y & g & Hy & Hg & <-)%Hm & ->). exists y. eexists. split_and!; [|eauto|apply Hattr]. unfold moved_key. case_decide as E; [right|by left].
    destruct E as [r ->]. rewrite drop_app_length. eauto.
  - intros (y & g' & Hy & (g & Hg & ->) & <-). rewrite Hattr. destruct Hy as [[Hy Hn]|(r & -> & Hy)].
    + exists q. split; [apply Hm; eauto|]. unfold moved_key. by rewrite decide_False.
    + exists (pd ++ r). split; [apply Hm; eauto|]. unfold moved_key. rewrite decide_True by by apply prefix_app_r. by rewrite drop_app_length.
Qed.

(** ** Simulation *)

(** [t] stands for [m], with [F] between them. *)
Definition stands {M} `{KeyMap M} (t : MetadataTree M) (F : forest) (m : pathmap) : Prop :=
  forest_ok 0 F ∧ (∃ names, tree_rep t names F) ∧ shows F m.

(** The two results agree: the same error, or related values. *)
Definition agree {A B} (R : A → B → Prop) (r : Result A) (r' : Result B) : Prop :=
  match r, r' with Ok x, Ok y => R x y | Err e, Err e' => e = e' | _, _ => False end.

Section sim.
Context {M : Type} `{KeyMap M}.
Implicit Types t : MetadataTree M.

Lemma insert_sim_mono t F m p q s a k : stands t F m → at_path F q p → 0 <= k → room t (1 + k) → zlen s < 2 ^ 30 →
  ∃ F', stands (insert t p s a).1 F' (s_insert m q s a).1 ∧ room (insert t p s a).1 k
    ∧ agree (λ id q', at_path F' q' id) (insert t p s a).2 (s_insert m q s a).2
    ∧ ∀ q' x, at_path F q' x → at_path F' q' x.
Proof.
  intros (HF & (names & Ht) & Hm) Hq Hk Hroom Hs. destruct (at_path_in F 0 q p HF Hq) as [g Hg]. pose proof (fo_range _ _ HF p g Hg) as Hr.
  destruct (insert_rep t names F p s a k HF Ht ltac:(lia) Hk Hroom Hs) as (Hroom' & names' & Hins). cbv zeta in Hroom', Hins.
  destruct (insert t p s a) as [t' r]. cbn [fst snd] in *. unfold s_insert. rewrite (shows_at F m q p g Hm Hq Hg). change (s_dir (g_attr g)) with (g_isdir g).
  destruct r as [id|e].
  - destruct Hins as ((g' & Hg' & Hdir) & Hval & Hno & Hid & Hr' & Ht'). assert (g' = g) as -> by congruence. rewrite Hdir, Hval. cbn [negb].
    rewrite (proj2 (shows_none 0 F m (q ++ [s]) HF Hm)) by (intros c Hc; by apply (Hno c), (child_at 0 F p q)).
    destruct (shows_add F m p q id s a HF Hm Hq Hid Hno) as [Hm' Hq']. exists (f_add p id s a F). split_and!; [|done|done|].
    2: { intros q' x Hx. apply (at_path_add 0); [done|eauto|done|by left]. }
    split_and!; [|by exists names'|done]. eapply f_add_ok; try done. by apply child_free.
  - destruct Hins as [He Ht']. exists F.
    assert (agree (λ id q', at_path F q' id) (Err e) (s_insert m q s a).2 ∧ (s_insert m q s a).1 = m) as [Ha Em].
    { unfold s_insert. rewrite (shows_at F m q p g Hm Hq Hg). change (s_dir (g_attr g)) with (g_isdir g).
      destruct e; try done; cbn in He.
      - congruence.
      - destruct He as [c Hc]. pose proof Hc as (Hc0 & h & Hh & <- & <-). destruct (fo_home _ _ HF c h Hh Hc0) as (g' & ? & Hd).
        assert (g' = g) as -> by congruence. rewrite Hd, (fo_name _ _ HF c h Hh Hc0). cbn [negb].
        apply (child_at 0 F (g_parent h) q) in Hc; [|done|done]. by rewrite (shows_at F m _ c h Hm Hc Hh).
      - destruct He as (g' & ? & Hd). assert (g' = g) as -> by congruence. by rewrite Hd.
      - destruct He as ((g' & ? & Hd) & ->). assert (g' = g) as -> by congruence. by rewrite Hd. }
    unfold s_insert in Ha, Em. rewrite (shows_at F m q p g Hm Hq Hg) in Ha, Em. change (s_dir (g_attr g)) with (g_isdir g) in Ha, Em.
    rewrite Em. split_and!; [split_and!; [done|by exists names'|done]|done..].
Qed.

Lemma insert_sim t F m p q s a k : stands t F m → at_path F q p → 0 <= k → room t (1 + k) → zlen s < 2 ^ 30 →
  ∃ F', stands (insert t p s a).1 F' (s_insert m q s a).1 ∧ room (insert t p s a).1 k
    ∧ agree (λ id q', at_path F' q' id) (insert t p s a).2 (s_insert m q s a).2.
Proof. intros Hst Hq Hk Hr Hs. destruct (insert_sim_mono t F m p q s a k Hst Hq Hk Hr Hs) as (F' & ? & ? & ? & _). eauto. Qed.

Lemma set_sim t F m id q a : stands t F m → at_path F q id →
  ∃ F', stands (set_attributes t id a).1 F' (s_set m q a).1 ∧ same_room t (set_attributes t id a).1
    ∧ agree (λ _ _, at_path F' q id) (set_attributes t id a).2 (s_set m q a).2.
Proof.
  intros (HF & (names & Ht) & Hm) Hq. destruct (at_path_in F 0 q id HF Hq) as [g Hg]. pose proof (fo_range _ _ HF id g Hg) as Hr.
  destruct (set_attributes_rep t names F id a HF Ht ltac:(lia)) as (Hroom & Hset). cbv zeta in Hroom, Hset. destruct (set_attributes t id a) as [t' [[]|e]]; cbn [fst snd] in *.
  2: { destruct Hset as (_ & ? & _). congruence. }
  destruct Hset as (q' & F' & g' & Hq' & Ht' & HF1 & HF' & Hg' & Hkept). rewrite (at_path_id_inj F _ _ _ Hq' Hq) in Hkept.
  unfold s_set. rewrite (shows_at F m q id g Hm Hq Hg). exists (f_attr id a F').
  assert (at_path F' q id) as HqF'. { apply (kp_path _ _ _ Hkept). tauto. }
  split_and!; [|done|cbn; by rewrite at_path_attr].
  split_and!; [done|by exists names|]. eapply shows_attr; [done| |done|done]. unfold s_clear.
  assert (∀ q' x, at_path F' q' x → is_Some (F' !! x)) as Hin by (intros q0 x; by apply (at_path_in F' 0)). destruct (s_dir a) eqn:Ed.
  - pose proof (shows_kept F F' m (λ _, True)) as Hs. rewrite map_filter_id in Hs by done. apply Hs; [|done|done].
    eapply kept_iff; [|done]. cbn. tauto.
  - apply (shows_kept F F' m (λ q0, q0 = q ∨ ¬ q `prefix_of` q0)); [|done|done]. eapply kept_iff; [|done]. cbn. unfold s_dir in Ed. rewrite Ed. intros q0 x _. naive_solver.
Qed.

(** Entries that are not below the one removed stay where they are. *)
Lemma remove_sim_kept t F m id q : stands t F m → at_path F q id →
  ∃ F', stands (remove t id).1 F' (s_remove m q).1 ∧ same_room t (remove t id).1 ∧ agree (λ _ _, True) (remove t id).2 (s_remove m q).2
    ∧ ∀ q' x, ¬ q `prefix_of` q' → at_path F q' x → at_path F' q' x.
Proof.
  intros (HF & (names & Ht) & Hm) Hq. destruct (at_path_in F 0 q id HF Hq) as [g Hg]. pose proof (fo_range _ _ HF id g Hg) as Hr.
  destruct (remove_rep t names F id HF Ht ltac:(lia)) as (Hroom & Hrem). cbv zeta in Hroom, Hrem. destruct (remove t id) as [t' [[]|e]]; cbn [fst snd] in *.
  - destruct Hrem as (H0' & F' & dead & Ht' & HF' & Hpr). unfold s_remove. rewrite (shows_at F m q id g Hm Hq Hg).
    rewrite bool_decide_eq_false_2 by (intros ->; inversion Hq as [|q' ? ? ? ? ? E]; [done|by destruct q']).
    assert (kept F F' (λ q', ¬ q `prefix_of` q')) as Hkept by (by eapply pruned_kept).
    exists F'. split_and!; [|done|done|intros q' x Hn Hx; by apply (kp_path _ _ _ Hkept)]. split_and!; [done|by exists names|]. apply (shows_kept F F' m (λ q', ¬ q `prefix_of` q')); [done| |done]. intros q' x. by apply (at_path_in F' 0).
  - destruct Hrem as [He ->]. exists F. unfold s_remove. rewrite (shows_at F m q id g Hm Hq Hg). destruct e; try done; cbn in He; [congruence|]. subst id.
    inversion Hq; [|done]. rewrite bool_decide_eq_true_2 by done. split_and!; [|done..]. split_and!; [done|by exists names|done].
Qed.

Lemma remove_sim t F m id q : stands t F m → at_path F q id →
  ∃ F', stands (remove t id).1 F' (s_remove m q).1 ∧ same_room t (remove t id).1 ∧ agree (λ _ _, True) (remove t id).2 (s_remove m q).2.
Proof. intros Hst Hq. destruct (remove_sim_kept t F m id q Hst Hq) as (F' & ? & ? & ? & _). eauto. Qed.

Lemma find_sim t F m p q s : stands t F m → at_path F q p → ∀ c, find_child t p s Exact = Some c ↔ at_path F (q ++ [s]) c.
Proof.
  intros (HF & (names & Ht) & Hm) Hq c. destruct (at_path_in F 0 q p HF Hq) as [g Hg]. pose proof (fo_range _ _ HF p g Hg) as Hr.
  rewrite (find_child_exact t names F p s c HF Ht) by lia. by apply (child_at 0).
Qed.

(** A child that is found is in the map, and one that is not found is not. *)
Lemma find_sim_cases t F m p q s : stands t F m → at_path F q p →
  match find_child t p s Exact with
  | Some c => at_path F (q ++ [s]) c ∧ ∃ g, F !! c = Some g ∧ m !! (q ++ [s]) = Some (g_attr g)
  | None => m !! (q ++ [s]) = None
  end.
Proof.
  intros Hst Hq. pose proof Hst as (HF & _ & Hm). pose proof (find_sim t F m p q s Hst Hq) as Hf. destruct (find_child t p s Exact) as [c|].
  - pose proof (proj1 (Hf c) eq_refl) as Hc. split; [done|]. destruct (at_path_in F 0 _ c HF Hc) as [g Hg]. exists g. split; [done|]. by eapply shows_at.
  - apply (shows_none 0 F m _ HF Hm). intros x Hx%Hf. done.
Qed.

Lemma upsert_sim t F m p q s a k : stands t F m → at_path F q p → 0 <= k → room t (1 + k) → zlen s < 2 ^ 30 →
  ∃ F', stands (upsert t p s a).1 F' (s_upsert m q s a).1 ∧ room (upsert t p s a).1 k
    ∧ agree (λ id q', at_path F' q' id) (upsert t p s a).2 (s_upsert m q s a).2.
Proof.
  intros Hst Hq Hk Hroom Hs. pose proof Hst as (HF & (names & Ht) & Hm). destruct (at_path_in F 0 q p HF Hq) as [g Hg]. pose proof (fo_range _ _ HF p g Hg) as Hr.
  unfold upsert, s_upsert. rewrite (proj2 (valid_spec t names F p Ht ltac:(lia))) by eauto. cbn [negb].
  pose proof (find_sim_cases t F m p q s Hst Hq) as Hf. destruct (find_child t p s Exact) as [c|]; [|rewrite Hf; by eapply insert_sim].
  destruct Hf as (Hc & h & Hh & ->). destruct (set_sim t F m c (q ++ [s]) a Hst Hc) as (F' & Hst' & Hsame & Hag).
  assert ((s_set m (q ++ [s]) a).2 = Ok ()) as Es by (unfold s_set; by rewrite (shows_at F m _ c h Hm Hc Hh)). rewrite Es in Hag.
  destruct (set_attributes t c a) as [t' [[]|e]]; cbn [fst snd agree] in *; [|done]. exists F'. split_and!; [done| |done].
  eapply same_room_room; [done|]. apply (room_le t (1 + k)); [done|lia].
Qed.

Lemma rename_sim t F m id q p qp s k : stands t F m → at_path F q id → at_path F qp p → 0 <= k → room t (1 + k) → zlen s < 2 ^ 30 →
  ∃ F', stands (rename t id p s).1 F' (s_rename m q qp s).1 ∧ room (rename t id p s).1 k
    ∧ agree (λ _ _, True) (rename t id p s).2 (s_rename m q qp s).2.
Proof.
  intros (HF & (names & Ht) & Hm) Hq Hqp Hk Hroom Hs. destruct (at_path_in F 0 q id HF Hq) as [h Hh], (at_path_in F 0 qp p HF Hqp) as [gp Hgp].
  pose proof (fo_range _ _ HF id h Hh) as Hr1. pose proof (fo_range _ _ HF p gp Hgp) as Hr2.
  destruct (rename_rep t names F id p s k HF Ht ltac:(lia) ltac:(lia) Hk Hroom Hs) as (Hroom' & names' & Hren). cbv zeta in Hroom', Hren.
  assert (id = 0 ↔ q = []) as Hroot. { split; [intros ->; by inversion Hq|intros ->; inversion Hq as [|q' ? ? ? ? ? E]; [done|by destruct q']]. }
  destruct (rename t id p s) as [t' [[]|e]]; cbn [fst snd] in *; unfold s_rename;
    rewrite (shows_at F m q id h Hm Hq Hh), (shows_at F m qp p gp Hm Hqp Hgp); change (s_dir (g_attr gp)) with (g_isdir gp).
  - destruct Hren as (H0' & Hval & h' & gp' & pd & pp & ? & ? & Hdir & Hpd & Hpp & Hnot & Hcase). assert (gp' = gp) as -> by congruence.
    rewrite (at_path_id_inj F _ _ _ Hpd Hq), (at_path_id_inj F _ _ _ Hpp Hqp) in Hnot.
    rewrite bool_decide_eq_false_2 by tauto. rewrite Hdir, Hval. cbn [negb]. rewrite bool_decide_eq_false_2 by done. destruct Hcase as [[Hc Ht']|[Hno Ht']].
    + apply (child_at 0 F p qp) in Hc; [|done..]. rewrite bool_decide_eq_true_2 by (by eapply at_path_id_inj). exists F. split_and!; [|done|done]. split_and!; [done|by exists names'|done].
    + assert (m !! (qp ++ [s]) = None) as En. { apply (shows_none 0 F m _ HF Hm). intros c Hc. apply (Hno c). by apply (child_at 0 F p qp). }
      rewrite bool_decide_eq_false_2 by (intros E; rewrite E, (shows_at F m q id h Hm Hq Hh) in En; done). rewrite En.
      exists (f_move id p s F). split_and!; [|done|done]. split_and!; [|by exists names'|by eapply shows_move].
      apply (f_move_ok F id p s h gp q qp); try done. by apply child_free.
  - destruct Hren as [He Ht']. exists F. assert (stands t' F m) as Hst' by (split_and!; [done|by exists names'|done]). destruct e; try done; cbn in He.
    + destruct He; congruence.
    + destruct He as (H0' & (pd & pp & Hpd & Hpp & Hnot) & c & Hc & Hci). rewrite (at_path_id_inj F _ _ _ Hpd Hq), (at_path_id_inj F _ _ _ Hpp Hqp) in Hnot.
      pose proof Hc as (Hc0 & hc & Hhc & Ep & En). destruct (fo_home _ _ HF c hc Hhc Hc0) as (g' & Hg' & Hd). rewrite Ep in Hg'. assert (g' = gp) as -> by congruence.
      pose proof (fo_name _ _ HF c hc Hhc Hc0) as Hval. rewrite En in Hval. apply (child_at 0 F p qp) in Hc; [|done|done].
      rewrite bool_decide_eq_false_2 by tauto. rewrite Hd, Hval. cbn [negb]. rewrite !bool_decide_eq_false_2 by (done || intros E; rewrite E in Hc; apply Hci; by eapply at_path_inj).
      by rewrite (shows_at F m _ c hc Hm Hc Hhc).
    + destruct He as (_ & H0' & g' & ? & Hd). assert (g' = gp) as -> by congruence. rewrite bool_decide_eq_false_2 by tauto. by rewrite Hd.
    + destruct He as [_ [->|(pd & pp & g' & Hpd & Hpp & Hpre & ? & Hd & ->)]]; [by rewrite bool_decide_eq_true_2 by tauto|]. assert (g' = gp) as -> by congruence.
      rewrite (at_path_id_inj F _ _ _ Hpd Hq), (at_path_id_inj F _ _ _ Hpp Hqp) in Hpre. rewrite Hd. cbn [negb]. case_bool_decide; [done|]. by rewrite bool_decide_eq_true_2.
    + destruct He as (_ & H0' & (g' & ? & Hd) & ->). assert (g' = gp) as -> by congruence. rewrite bool_decide_eq_false_2 by tauto. by rewrite Hd.
Qed.

(** The two walks agree: both fail, or both arrive at the same place. *)
Definition agree_at (F : forest) (r : option Z) (r' : option (list bytes)) : Prop :=
  match r, r' with Some x, Some q => at_path F q x | None, None => True | _, _ => False end.

Lemma parent_sim t F m q x : stands t F m → at_path F q x →
  at_path F (removelast q) (if negb (n_parent (node t x) =? kInvalidNode) then n_parent (node t x) else x).
Proof.
  intros (HF & (names & Ht) & Hm) Hq. destruct (at_path_in F 0 q x HF Hq) as [g Hg]. rewrite (no_parent _ _ _ (sh_node _ _ _ (tr_shape _ _ _ Ht) x g Hg)).
  inversion Hq as [|q' c h Hq' Hc Hn]; subst.
  - destruct (fo_root _ _ HF) as (g0 & ? & Ep & _). assert (g0 = g) as -> by congruence. rewrite Ep. constructor.
  - assert (h = g) as -> by congruence. destruct (fo_home _ _ HF x g Hg Hn) as (gp & Hgp & _). pose proof (fo_range _ _ HF _ gp Hgp).
    rewrite (proj2 (Z.eqb_neq _ _)) by lia. cbn [negb]. by rewrite removelast_last.
Qed.

Lemma lookup_from_sim t F m comps : stands t F m → ∀ q x, at_path F q x → agree_at F (lookup_from t Exact x comps) (s_walk m q comps).
Proof.
  intros Hst. induction comps as [|c comps IH]; intros q x Hq; [done|]. cbn [lookup_from s_walk]. unfold lookup_step.
  destruct (skipped c); [by apply IH|]. destruct (is_dotdot c); [apply IH; by eapply parent_sim|].
  pose proof (find_sim_cases t F m x q c Hst Hq) as Hf. destruct (find_child t x c Exact) as [y|]; [|by rewrite Hf].
  destruct Hf as (Hy & g & Hg & ->). by apply IH.
Qed.

Lemma lookup_sim t F m path : stands t F m → agree_at F (lookup t path Exact) (s_lookup m path).
Proof. intros Hst. apply (lookup_from_sim t F m _ Hst [] 0). constructor. Qed.

Definition short_names (comps : list bytes) : Prop := Forall (λ c, zlen c < 2 ^ 30) comps.

Lemma ensure_from_sim comps : ∀ t F m q x k, stands t F m → at_path F q x → 0 <= k → room t (zlen comps + k) → short_names comps →
  ∃ F', stands (ensure_from t x comps).1 F' (s_ensure m q comps).1 ∧ room (ensure_from t x comps).1 k
    ∧ agree (λ id q', at_path F' q' id) (ensure_from t x comps).2 (s_ensure m q comps).2.
Proof.
  induction comps as [|c comps IH]; intros t F m q x k Hst Hq Hk Hroom Hs; [rewrite zlen_nil in Hroom; exists F; split_and!; [done|by eapply room_le|done]|].
  rewrite zlen_cons in Hroom. pose proof (zlen_nonneg comps) as Hn. apply Forall_cons in Hs as [Hc Hs]. cbn [ensure_from s_ensure].
  assert (room t (zlen comps + k)) as Hroom1 by (eapply room_le; [exact Hroom|lia]). assert (room t k) as Hroom0 by (eapply room_le; [exact Hroom|lia]).
  destruct (skipped c); [by eapply IH|]. destruct (is_dotdot c); [exists F; by split_and!|].
  pose proof (find_sim_cases t F m x q c Hst Hq) as Hf. destruct (find_child t x c Exact) as [y|].
  - destruct Hf as (Hy & g & Hg & ->). pose proof Hst as (HF & (names & Ht) & Hm). rewrite (is_dir_spec t names F y g Ht Hg). change (s_dir (g_attr g)) with (g_isdir g).
    destruct (g_isdir g); cbn [negb]; [by eapply IH|]. exists F; by split_and!.
  - rewrite Hf. destruct (insert_sim t F m x q c kImplicitDirectory (zlen comps + k) Hst Hq ltac:(lia)) as (F1 & Hst1 & Hr1 & Hag); [eapply room_le; [exact Hroom|lia]|done|].
    destruct (insert t x c kImplicitDirectory) as [t1 [y|e]], (s_insert m q c kImplicitDirectory) as [m1 [q1|e1]]; cbn [fst snd agree] in *; try done; [by eapply IH|].
    exists F1. split_and!; [done|eapply room_le; [eassumption|lia]|done].
Qed.

Lemma upsert_path_sim t F m path a k : stands t F m → 0 <= k → room t (zlen (components path) + k) → short_names (components path) →
  ∃ F', stands (upsert_path t path a).1 F' (s_upsert_path m path a).1 ∧ room (upsert_path t path a).1 k
    ∧ agree (λ id q', at_path F' q' id) (upsert_path t path a).2 (s_upsert_path m path a).2.
Proof.
  intros Hst Hk Hroom Hs. pose proof (components_ok path) as Hok. unfold upsert_path, s_upsert_path. rewrite normalize_path_eq.
  destruct (components path) as [|leaf dirs _] using rev_ind; [rewrite zlen_nil in Hroom; exists F; split_and!; [done|by eapply room_le|done]|].
  apply Forall_app in Hok as [Hd [Hl _]%Forall_cons], Hs as [Hsd [Hsl _]%Forall_cons]. rewrite zlen_app, zlen_cons, zlen_nil in Hroom. pose proof (zlen_nonneg dirs) as Hn.
  assert (join (dirs ++ [leaf]) ≠ []) as Hj. { pose proof (skipped_nil _ (proj1 Hl)). destruct dirs as [|d dirs]; [done|]. rewrite join_snoc by done. by destruct (join (d :: dirs)). }
  rewrite bool_decide_eq_false_2 by done. rewrite (split_parent_join dirs leaf Hd Hl), reverse_snoc, reverse_involutive. unfold ensure_directory_path. rewrite scan_join by done.
  destruct (ensure_from_sim dirs t F m [] root (1 + k) Hst) as (F1 & Hst1 & Hr1 & Hag); [constructor|lia|eapply room_le; [eassumption|lia]|done|].
  destruct (ensure_from t root dirs) as [t1 [y|e]], (s_ensure m [] dirs) as [m1 [q1|e1]]; cbn [fst snd agree] in *; try done; [by eapply upsert_sim|].
  exists F1. split_and!; [done|eapply room_le; [eassumption|lia]|done].
Qed.

Lemma remove_path_sim t F m path : stands t F m →
  ∃ F', stands (remove_path t path Exact).1 F' (s_remove_path m path).1 ∧ same_room t (remove_path t path Exact).1
    ∧ agree (λ _ _, True) (remove_path t path Exact).2 (s_remove_path m path).2.
Proof.
  intros Hst. unfold remove_path, s_remove_path. pose proof (lookup_sim t F m path Hst) as Hl.
  destruct (lookup t path Exact) as [x|], (s_lookup m path) as [q|]; try done; [by eapply remove_sim|]. exists F. by split_and!.
Qed.
End sim.
