(* ===== verification/TreeRefine.v ===== *)
(** * The tree refines the path map

    Sequences of operations: every result of [MetadataTree] is the one of the
    specification of [TreeSpec], and what a reader then sees (attributes, full
    paths, the names in a directory, the counters) is what the path map holds.
    Snapshots are loaded and exported here as well. *)

From S2P Require Import Prelude Types KeyMap FlatMap Path Unicode StringPool MetadataTree Forest TreeIndex TreeLinks TreeInv TreeRelease TreeOps TreeSpec.

(** ** Snapshots, in the specification *)

(** The loop of [load_snapshot] at entry [k]: [paths] holds, from the root on,
    where each entry went, or [None] when it was dropped. *)
Fixpoint s_load_loop (m : pathmap) (paths : list (option (list bytes))) (k : Z) (es : list SnapshotEntry) : pathmap * Result unit :=
  match es with
  | [] => (m, Ok ())
  | e :: es =>
      if se_parent e >? k then (m, Err Corrupt)
      else match paths !! Z.to_nat (se_parent e) with
           | Some (Some q) =>
               match s_insert m q (se_name e) (se_attr e) with
               | (m, Ok q') => s_load_loop m (paths ++ [Some q']) (k + 1) es
               | (m, Err _) => s_load_loop m (paths ++ [None]) (k + 1) es
               end
           | _ => s_load_loop m (paths ++ [None]) (k + 1) es
           end
  end.
Definition s_load (es : list SnapshotEntry) : pathmap * Result unit := s_load_loop s_new [Some []] 0 es.

(** ** Operations *)

(** One call on the tree; nodes are named by the path that leads to them. *)
Inductive TreeOp :=
| OpUpsertPath (path : bytes) (a : Attributes)
| OpRemovePath (path : bytes)
| OpInsert (dir name : bytes) (a : Attributes)
| OpUpsert (dir name : bytes) (a : Attributes)
| OpSetAttributes (path : bytes) (a : Attributes)
| OpRename (path dir name : bytes)
| OpEnsureDirectory (path : bytes)
| OpClear
| OpLoad (entries : list SnapshotEntry).

Definition forget {A} (r : Result A) : Result unit := match r with Ok _ => Ok () | Err e => Err e end.

Section run.
Context {M : Type} `{KeyMapOps M}.

Definition at_node (t : MetadataTree M) (path : bytes) (f : Z → MetadataTree M * Result unit) : MetadataTree M * Result unit :=
  match lookup t path Exact with None => (t, Err NotFound) | Some x => f x end.

Definition run_op (t : MetadataTree M) (op : TreeOp) : MetadataTree M * Result unit :=
  match op with
  | OpUpsertPath path a => prod_map id forget (upsert_path t path a)
  | OpRemovePath path => remove_path t path Exact
  | OpInsert dir name a => at_node t dir (λ p, prod_map id forget (insert t p name a))
  | OpUpsert dir name a => at_node t dir (λ p, prod_map id forget (upsert t p name a))
  | OpSetAttributes path a => at_node t path (λ x, set_attributes t x a)
  | OpRename path dir name => at_node t path (λ x, at_node t dir (λ p, rename t x p name))
  | OpEnsureDirectory path => prod_map id forget (ensure_directory_path t path)
  | OpClear => (tree_clear t, Ok ())
  | OpLoad entries => load_snapshot t entries
  end.

Fixpoint run (t : MetadataTree M) (ops : list TreeOp) : MetadataTree M * list (Result unit) :=
  match ops with
  | [] => (t, [])
  | op :: ops => let '(t, r) := run_op t op in let '(t, rs) := run t ops in (t, r :: rs)
  end.

(** What a reader sees at a path: the attributes, the full path, the number of
    children and their names. *)
Definition observe (t : MetadataTree M) (path : bytes) : option (Attributes * bytes * Z * gset bytes) :=
  match lookup t path Exact with
  | None => None
  | Some x => Some (n_attr (node t x), path_of t x c_slash, n_count (node t x), list_to_set (name t <$> for_each_child t x))
  end.
End run.

Definition s_at (m : pathmap) (path : bytes) (f : list bytes → pathmap * Result unit) : pathmap * Result unit :=
  match s_lookup m path with None => (m, Err NotFound) | Some q => f q end.

Definition s_op (m : pathmap) (op : TreeOp) : pathmap * Result unit :=
  match op with
  | OpUpsertPath path a => prod_map id forget (s_upsert_path m path a)
  | OpRemovePath path => s_remove_path m path
  | OpInsert dir name a => s_at m dir (λ q, prod_map id forget (s_insert m q name a))
  | OpUpsert dir name a => s_at m dir (λ q, prod_map id forget (s_upsert m q name a))
  | OpSetAttributes path a => s_at m path (λ q, s_set m q a)
  | OpRename path dir name => s_at m path (λ q, s_at m dir (λ p, s_rename m q p name))
  | OpEnsureDirectory path => prod_map id forget (s_ensure m [] (scan path))
  | OpClear => (s_new, Ok ())
  | OpLoad entries => s_load entries
  end.

Fixpoint s_run (m : pathmap) (ops : list TreeOp) : pathmap * list (Result unit) :=
  match ops with
  | [] => (m, [])
  | op :: ops => let '(m, r) := s_op m op in let '(m, rs) := s_run m ops in (m, r :: rs)
  end.

(** The names directly below [q]. *)
Definition below (q x : list bytes) : option bytes :=
  match reverse x with s :: r => if bool_decide (reverse r = q) then Some s else None | [] => None end.
Definition s_names (m : pathmap) (q : list bytes) : gset bytes := list_to_set (omap (below q) (elements (dom m))).
Definition s_observe (m : pathmap) (path : bytes) : option (Attributes * bytes * Z * gset bytes) :=
  match s_lookup m path with
  | None => None
  | Some q => match m !! q with
              | Some a => Some (a, join q, Z.of_nat (size (s_names m q)), s_names m q)
              | None => None
              end
  end.

(** How many nodes an operation may add; names are interned with 32-bit
    lengths, and folding may make a name up to four times as long. *)
Definition cost (op : TreeOp) : Z :=
  match op with
  | OpUpsertPath path _ => zlen (components path)
  | OpEnsureDirectory path => zlen (scan path)
  | OpInsert _ _ _ | OpUpsert _ _ _ | OpRename _ _ _ => 1
  | OpRemovePath _ | OpSetAttributes _ _ | OpClear => 0
  | OpLoad entries => zlen entries
  end.
Definition op_ok (op : TreeOp) : Prop :=
  match op with
  | OpUpsertPath path _ => short_names (components path)
  | OpEnsureDirectory path => short_names (scan path)
  | OpInsert _ name _ | OpUpsert _ name _ | OpRename _ _ name => zlen name < 2 ^ 30
  | OpRemovePath _ | OpSetAttributes _ _ | OpClear => True
  | OpLoad entries => Forall (λ e, zlen (se_name e) < 2 ^ 30 ∧ 0 <= se_parent e) entries
  end.
Definition total_cost (ops : list TreeOp) : Z := foldr (λ op n, cost op + n) 0 ops.

Lemma cost_nonneg op : 0 <= cost op.
Proof. destruct op; cbn; try lia; apply zlen_nonneg. Qed.

Lemma total_cost_nonneg ops : 0 <= total_cost ops.
Proof. unfold total_cost. induction ops as [|op ops IH]; [done|]. cbn [foldr]. pose proof (cost_nonneg op). lia. Qed.

(** Every name on a path is one a tree accepts. *)
Lemma at_path_names F q x : forest_ok 0 F → at_path F q x → Forall (λ s, valid_name s = true) q.
Proof. intros HF. induction 1 as [|q c h Hq IH Hc Hn]; [constructor|]. apply Forall_app. split; [done|]. constructor; [by eapply fo_name|constructor]. Qed.

Section refine.
Context {M : Type} `{KeyMap M}.
Implicit Types t : MetadataTree M.

(** ** The empty tree *)

Lemma with_root_stands e f : km_inv e → km_inv f → km_model e = ∅ → km_model f = ∅ → stands (with_root e f) f_root s_new.
Proof.
  intros He Hf Ee Ef. split_and!; [apply f_root_ok| |apply shows_root]. exists [[]]. unfold with_root.
  pose proof (intern_ok pool_new [] [] pool_new_inv) as Hi. specialize (Hi eq_refl eq_refl).
  destruct (intern pool_new []) as [p rn]. destruct Hi as (names & i & Hp & _ & -> & Hi & _ & Hn). rewrite Hn in * by apply not_elem_of_nil.
  apply list_lookup_singleton_Some in Hi as [-> _]. set (r := set_attr _ _). set (t := mkTree _ _ _ _ _ _ _ _).
  assert (∀ x g, f_root !! x = Some g → x = 0 ∧ g = mkG kInvalidNode [] [] kImplicitDirectory) as Hr by (unfold f_root; by intros x g [<- <-]%lookup_singleton_Some).
  assert (idx t f_root = ∅) as Ei. { apply map_eq. intros x. rewrite lookup_empty. apply eq_None_not_Some. intros [i (H0' & [g [-> _]%Hr] & _)%idx_lookup]. done. }
  split; [exact Hp| | | |unfold f_root; by rewrite map_size_singleton|rewrite Ei; by apply index_empty].
  - split; [done|by intros x g [-> ->]%Hr| |].
    + intros x g [-> ->]%Hr. split; try done; by exists 0%nat.
    + intros x g l1 c l2 [-> ->]%Hr E. by destruct l1.
  - split; [apply NoDup_nil_2|]. intros x. cbn [free_ t nodes_]. rewrite elem_of_nil. split; [done|]. intros [Hx Hn']. unfold zlen in Hx. cbn in Hx. assert (x = 0) as -> by lia. done.
  - intros x Hx Hn'. unfold zlen in Hx. cbn in Hx. assert (x = 0) as -> by lia. done.
Qed.

Lemma new_stands : stands (tree_new (M := M)) f_root s_new.
Proof. apply with_root_stands; (apply km_new_inv || apply km_new_model). Qed.

Lemma clear_stands t F m : stands t F m → stands (tree_clear t) f_root s_new.
Proof.
  intros (_ & (names & Ht) & _). pose proof (tr_index _ _ _ Ht) as HI. apply with_root_stands; apply km_clear_spec; apply HI.
Qed.

Lemma root_room e f k : 0 <= k < 2 ^ 31 → room (with_root e f : MetadataTree M) k.
Proof. intros Hk. unfold with_root, room. destruct (intern pool_new []) as [p rn] eqn:E. vm_compute in E. injection E as <- <-. unfold kInvalidNode, zlen. cbn. lia. Qed.

(** ** Loading a snapshot *)

Lemma dropped_stands t F m d : stands t F m → stands (with_dropped d t) F m.
Proof. intros (HF & (names & [T1 [S1 S2 S3 S4] T3 T4 T5 T6]) & Hm). split_and!; [done| |done]. exists names. split; try done. Qed.

Lemma reserve_stands t F m n : stands t F m → 0 <= n < 2 ^ 61 →
  stands (with_folded (km_reserve (folded_ t) n) (with_exact (km_reserve (exact_ t) n) t)) F m.
Proof.
  intros (HF & (names & [T1 [S1 S2 S3 S4] T3 T4 T5 [X1 X2 X3 X4 X5 X6 X7]]) & Hm) Hn. split_and!; [done| |done]. exists names.
  destruct (km_reserve_spec (exact_ t) n X1 Hn) as [Y1 Y2], (km_reserve_spec (folded_ t) n X2 Hn) as [Y3 Y4]. split; try done. split; cbn; rewrite ?Y2, ?Y4; done.
Qed.

(** Where an entry went: the node it became, or nowhere. *)
Definition landed (F : forest) (x : Z) (p : option (list bytes)) : Prop :=
  match p with Some q => at_path F q x ∧ x ≠ kInvalidNode | None => x = kInvalidNode end.

Lemma landed_mono F F' x p : (∀ q y, at_path F q y → at_path F' q y) → landed F x p → landed F' x p.
Proof. destruct p; cbn; naive_solver. Qed.

Lemma load_loop_sim es : ∀ t F m ids paths k j, stands t F m → Forall2 (landed F) ids paths → zlen ids = k + 1 → 0 <= j → room t (zlen es + j) →
  Forall (λ e, zlen (se_name e) < 2 ^ 30 ∧ 0 <= se_parent e) es →
  ∃ F', stands (load_loop t ids k es).1 F' (s_load_loop m paths k es).1 ∧ room (load_loop t ids k es).1 j
    ∧ (load_loop t ids k es).2 = (s_load_loop m paths k es).2.
Proof.
  induction es as [|e es IH]; intros t F m ids paths k j Hst Hids Hlen Hj Hroom Hes; cbn [load_loop s_load_loop].
  { exists F. split_and!; [done|by eapply room_le|done]. }
  apply Forall_cons in Hes as [[He Hpar] Hes]. rewrite zlen_cons in Hroom. pose proof (zlen_nonneg es) as Hn. unfold zlen in Hlen.
  assert (room t (zlen es + j)) as Hroom1 by (eapply room_le; [exact Hroom|lia]). assert (room t j) as Hroom0 by (eapply room_le; [exact Hroom|lia]).
  destruct (Z.gtb_spec (se_parent e) k) as [|Hle]; [exists F; by split_and!|].
  destruct (lookup_lt_is_Some_2 ids (Z.to_nat (se_parent e))) as [x Hx]; [lia|]. destruct (Forall2_lookup_l _ _ _ _ _ Hids Hx) as (p & Hp & Hl).
  rewrite Hp, (list_lookup_total_correct _ _ _ Hx).
  assert (∀ t' F' m' x' p', stands t' F' m' → room t' (zlen es + j) → (∀ q y, at_path F q y → at_path F' q y) → landed F' x' p' →
    ∃ F2, stands (load_loop t' (ids ++ [x']) (k + 1) es).1 F2 (s_load_loop m' (paths ++ [p']) (k + 1) es).1
      ∧ room (load_loop t' (ids ++ [x']) (k + 1) es).1 j ∧ (load_loop t' (ids ++ [x']) (k + 1) es).2 = (s_load_loop m' (paths ++ [p']) (k + 1) es).2) as Hnext.
  { intros t' F' m' x' p' Hst' Hr' Hmono Hl'. apply (IH t' F'); try done.
    - apply Forall2_app; [|by repeat constructor]. eapply Forall2_impl; [done|]. intros. by eapply landed_mono.
    - unfold zlen. rewrite length_app. cbn. lia. }
  destruct p as [q|]; cbn in Hl.
  - destruct Hl as [Hq Hxi]. rewrite (proj2 (Z.eqb_neq _ _) Hxi).
    destruct (insert_sim_mono t F m x q (se_name e) (se_attr e) (zlen es + j) Hst Hq ltac:(lia)) as (F1 & Hst1 & Hr1 & Hag & Hmono); [eapply room_le; [exact Hroom|lia]|done|].
    destruct (insert t x (se_name e) (se_attr e)) as [t1 [y|er]], (s_insert m q (se_name e) (se_attr e)) as [m1 [q1|er1]]; cbn [fst snd agree] in *; try done.
    + apply (Hnext t1 F1); try done. split; [done|]. destruct Hst1 as (HF1 & _ & _). destruct (at_path_in F1 0 q1 y HF1 Hag) as [g Hg]. pose proof (fo_range _ _ HF1 y g Hg). lia.
    + apply (Hnext _ F1); try done. by apply dropped_stands.
  - subst x. rewrite Z.eqb_refl. apply (Hnext _ F); try done. by apply dropped_stands.
Qed.

Lemma load_sim t F m es k : stands t F m → 0 <= k → zlen es + k < 2 ^ 31 → Forall (λ e, zlen (se_name e) < 2 ^ 30 ∧ 0 <= se_parent e) es →
  ∃ F', stands (load_snapshot t es).1 F' (s_load es).1 ∧ room (load_snapshot t es).1 k ∧ (load_snapshot t es).2 = (s_load es).2.
Proof.
  intros Hst Hk Hes Hok. pose proof (zlen_nonneg es) as Hn. apply (load_loop_sim es _ f_root); [|by repeat constructor|done|done| |done].
  - apply (reserve_stands (tree_clear t)); [by eapply clear_stands|lia].
  - pose proof (root_room (km_clear (exact_ t)) (km_clear (folded_ t)) (zlen es + k) ltac:(lia)) as Hr. exact Hr.
Qed.

(** ** The run *)

Lemma agree_forget {A B} (R : A → B → Prop) r r' : agree R r r' → forget r = forget r'.
Proof. destruct r, r'; cbn; naive_solver. Qed.

Lemma agree_unit (P : Prop) (r r' : Result unit) : agree (λ _ _, P) r r' → r = r'.
Proof. destruct r as [[]|], r' as [[]|]; cbn; naive_solver. Qed.

Lemma op_sim t F m op k : stands t F m → 0 <= k → room t (cost op + k) → cost op + k < 2 ^ 31 → op_ok op →
  ∃ F', stands (run_op t op).1 F' (s_op m op).1 ∧ room (run_op t op).1 k ∧ (run_op t op).2 = (s_op m op).2.
Proof.
  intros Hst Hk Hroom Hmax Hok. assert (room t k) as Hroom0 by (eapply room_le; [exact Hroom|]; pose proof (cost_nonneg op); lia).
  pose proof (λ p, lookup_sim t F m p Hst) as Hl. assert (∀ r : Result unit, ∃ F', stands (t, r).1 F' (m, r).1 ∧ room (t, r).1 k ∧ (t, r).2 = (m, r).2) as Hsame by (intros; by exists F).
  destruct op as [path a|path|dir nm a|dir nm a|path a|path dir nm|path| |es]; cbn [run_op s_op cost op_ok] in *; unfold at_node, s_at.
  - destruct (upsert_path_sim t F m path a k) as (F' & ? & ? & ?%agree_forget); [done..|]. by exists F'.
  - destruct (remove_path_sim t F m path Hst) as (F' & ? & ? & ?%agree_unit). exists F'. split_and!; [done|by eapply same_room_room|done].
  - specialize (Hl dir). destruct (lookup t dir Exact) as [p|], (s_lookup m dir) as [q|]; try done.
    destruct (insert_sim t F m p q nm a k) as (F' & ? & ? & ?%agree_forget); [done..|]. by exists F'.
  - specialize (Hl dir). destruct (lookup t dir Exact) as [p|], (s_lookup m dir) as [q|]; try done.
    destruct (upsert_sim t F m p q nm a k) as (F' & ? & ? & ?%agree_forget); [done..|]. by exists F'.
  - specialize (Hl path). destruct (lookup t path Exact) as [p|], (s_lookup m path) as [q|]; try done.
    destruct (set_sim t F m p q a) as (F' & ? & ? & ?%agree_unit); [done..|]. exists F'. split_and!; [done|by eapply same_room_room|done].
  - pose proof (Hl path) as Hl1. specialize (Hl dir). destruct (lookup t path Exact) as [x|], (s_lookup m path) as [q|]; try done.
    destruct (lookup t dir Exact) as [p|], (s_lookup m dir) as [qp|]; try done.
    destruct (rename_sim t F m x q p qp nm k) as (F' & ? & ? & ?%agree_unit); [done..|]. by exists F'.
  - destruct (ensure_from_sim (scan path) t F m [] root k) as (F' & ? & ? & ?%agree_forget); [done|constructor|done..|]. by exists F'.
  - exists f_root. split_and!; [by eapply clear_stands| |done]. by apply root_room.
  - destruct (load_sim t F m es k) as (F' & ? & ? & ?); [done..|]. by exists F'.
Qed.

Lemma run_sim ops : ∀ t F m k, stands t F m → 0 <= k → room t (total_cost ops + k) → total_cost ops + k < 2 ^ 31 → Forall op_ok ops →
  ∃ F', stands (run t ops).1 F' (s_run m ops).1 ∧ room (run t ops).1 k ∧ (run t ops).2 = (s_run m ops).2.
Proof.
  induction ops as [|op ops IH]; intros t F m k Hst Hk Hroom Hmax Hok; [by exists F|]. apply Forall_cons in Hok as [Hop Hok].
  change (total_cost (op :: ops)) with (cost op + total_cost ops) in *. pose proof (cost_nonneg op). pose proof (total_cost_nonneg ops).
  rewrite <- Z.add_assoc in Hroom. destruct (op_sim t F m op (total_cost ops + k) Hst ltac:(lia) Hroom ltac:(lia) Hop) as (F1 & Hst1 & Hr1 & Er). cbn [run s_run].
  destruct (run_op t op) as [t1 r], (s_op m op) as [m1 r1]. cbn [fst snd] in *. destruct (IH t1 F1 m1 k Hst1 Hk Hr1 ltac:(lia) Hok) as (F2 & Hst2 & Hr2 & Er2).
  destruct (run t1 ops) as [t2 rs], (s_run m1 ops) as [m2 rs1]. cbn [fst snd] in *. exists F2. split_and!; [done|done|congruence].
Qed.

(** What [ops] make of a new tree. *)
Lemma run_new_sim ops : total_cost ops < 2 ^ 31 → Forall op_ok ops →
  ∃ F, stands (run (tree_new (M := M)) ops).1 F (s_run s_new ops).1 ∧ (run (tree_new (M := M)) ops).2 = (s_run s_new ops).2.
Proof.
  intros Hc Hok. pose proof (total_cost_nonneg ops). destruct (run_sim ops tree_new f_root s_new 0 new_stands) as (F & ? & _ & ?); [done|apply root_room; lia|lia|done|]. by exists F.
Qed.

(** ** What a reader sees *)

Lemma chain_spec t names F : forest_ok 0 F → tree_rep t names F → ∀ q x, at_path F q x → ∀ fuel acc, (length q <= fuel)%nat →
  name t <$> chain_from fuel t x acc = q ++ (name t <$> acc).
Proof.
  intros HF Ht q x Hq. induction Hq as [|q c h Hq IH Hc Hn]; intros fuel acc Hf.
  - destruct fuel; [done|]. cbn [chain_from]. by rewrite Z.eqb_refl.
  - rewrite length_app in Hf. cbn in Hf. destruct fuel as [|fuel]; [lia|]. cbn [chain_from]. unfold root. rewrite (proj2 (Z.eqb_neq _ _) Hn).
    rewrite (no_parent _ _ _ (sh_node _ _ _ (tr_shape _ _ _ Ht) c h Hc)), IH by lia. rewrite fmap_cons, (name_spec t names F c h Ht Hc). by rewrite <- app_assoc.
Qed.

Lemma path_of_spec t F m q x : stands t F m → at_path F q x → path_of t x c_slash = join q.
Proof.
  intros (HF & (names & Ht) & Hm) Hq. destruct (at_path_in F 0 q x HF Hq) as [g Hg]. pose proof (fo_range _ _ HF x g Hg) as Hr. unfold path_of.
  rewrite (proj2 (valid_spec t names F x Ht ltac:(lia))) by eauto. unfold root. cbn [negb orb]. destruct (Z.eqb_spec x 0) as [->|Hx]; [by inversion Hq|].
  pose proof (way_up t names F q x HF Ht Hq) as Hway. pose proof (chain_spec t names F HF Ht q x Hq (length (nodes_ t)) [] ltac:(lia)) as Hc. rewrite app_nil_r in Hc.
  pose proof (at_path_names F q x HF Hq) as Hval. rewrite <- Hc in Hval |- *. clear Hc. induction (chain_from (length (nodes_ t)) t x []) as [|i l IH] using rev_ind; [done|].
  rewrite fmap_app in *. apply Forall_app in Hval as [Hl [Hi _]%Forall_cons]. rewrite foldl_app, IH by done. cbn [foldl fmap list_fmap].
  destruct (decide (l = [])) as [->|Hne]; [done|]. rewrite join_snoc by (by intros ?%fmap_nil_inv). case_bool_decide as Ej; [|by rewrite <- app_assoc]. exfalso.
  destruct l as [|i0 l]; [done|]. cbn in Ej, Hl. apply Forall_cons in Hl as [Hi0 _]. destruct (name t i0) eqn:E; [done|]. by destruct (name t <$> l).
Qed.

Lemma s_names_spec m q s : s ∈ s_names m q ↔ is_Some (m !! (q ++ [s])).
Proof.
  unfold s_names. rewrite elem_of_list_to_set, list_elem_of_omap. setoid_rewrite elem_of_elements. setoid_rewrite elem_of_dom. unfold below. split.
  - intros (x & Hx & E). destruct (reverse x) as [|s' r] eqn:Er; [done|]. case_bool_decide as Eq; [|done]. injection E as ->.
    apply (f_equal reverse) in Er. rewrite reverse_involutive, reverse_cons in Er. congruence.
  - intros Hx. exists (q ++ [s]). split; [done|]. rewrite reverse_snoc. by rewrite bool_decide_eq_true_2 by apply reverse_involutive.
Qed.

Lemma children_spec t F m q x : stands t F m → at_path F q x →
  list_to_set (name t <$> for_each_child t x) = s_names m q ∧ n_count (node t x) = Z.of_nat (size (s_names m q)).
Proof.
  intros (HF & (names & Ht) & Hm) Hq. destruct (at_path_in F 0 q x HF Hq) as [g Hg]. pose proof (forest_kids_wf 0 F HF) as HK. pose proof (tr_shape _ _ _ Ht) as Hs.
  assert (for_each_child t x = g_kids g) as ->.
  { unfold for_each_child. rewrite (no_first _ _ _ (sh_node _ _ _ Hs x g Hg)). apply children_from_spec; [by eapply kids_chained|].
    pose proof (kids_count F t names x g HK Hs Hg). unfold zlen in *. lia. }
  assert (list_to_set (name t <$> g_kids g) = s_names m q) as Eset.
  { apply set_eq. intros s. rewrite elem_of_list_to_set, list_elem_of_fmap, s_names_spec. split.
    - intros (c & -> & Hc). apply (fo_kid _ _ HF x g c Hg) in Hc as (Hc0 & _ & h & Hh & Ep). rewrite (name_spec t names F c h Ht Hh).
      rewrite (shows_at F m (q ++ [g_name h]) c h Hm); [done| |done]. constructor; [by rewrite Ep|done|done].
    - intros [a (c & h & Hc & Hh & _)%Hm]. exists c. rewrite (name_spec t names F c h Ht Hh). apply (child_at 0 F x q s c HF Hq) in Hc as (Hc0 & h' & Hh' & Ep & <-).
      assert (h' = h) as -> by congruence. split; [done|]. apply (fo_kid _ _ HF x g c Hg). eauto. }
  split; [done|]. rewrite <- Eset, size_list_to_set.
  - rewrite length_fmap. apply (no_count _ _ _ (sh_node _ _ _ Hs x g Hg)).
  - apply NoDup_fmap_2_strong; [|by eapply fo_nodup]. intros c d Hc Hd E. apply (fo_kid _ _ HF x g c Hg) in Hc as (Hc0 & _ & h & Hh & Ep).
    apply (fo_kid _ _ HF x g d Hg) in Hd as (Hd0 & _ & h' & Hh' & Ep'). rewrite (name_spec t names F c h Ht Hh), (name_spec t names F d h' Ht Hh') in E.
    apply (fo_uniq _ _ HF c d h h'); congruence.
Qed.

Lemma observe_spec t F m path : stands t F m → observe t path = s_observe m path.
Proof.
  intros Hst. pose proof Hst as (HF & (names & Ht) & Hm). unfold observe, s_observe. pose proof (lookup_sim t F m path Hst) as Hl.
  destruct (lookup t path Exact) as [x|], (s_lookup m path) as [q|]; try done. destruct (at_path_in F 0 q x HF Hl) as [g Hg].
  destruct (children_spec t F m q x Hst Hl) as [-> ->]. rewrite (path_of_spec t F m q x Hst Hl), (no_attr _ _ _ (sh_node _ _ _ (tr_shape _ _ _ Ht) x g Hg)).
  by rewrite (shows_at F m q x g Hm Hl Hg).
Qed.

(** One node per path. *)
Lemma live_spec t F m : stands t F m → live_ t = Z.of_nat (size m).
Proof.
  intros (HF & (names & Ht) & Hm). rewrite (tr_live _ _ _ Ht). f_equal. set (way := λ x, name t <$> chain_from (length (nodes_ t)) t x []).
  assert (∀ q x, at_path F q x → way x = q) as Hway. { intros q x Hq. unfold way. pose proof (way_up t names F q x HF Ht Hq). rewrite (chain_spec t names F HF Ht q x Hq) by lia. by rewrite app_nil_r. }
  assert (∀ x, x ∈ (map_to_list F).*1 ↔ is_Some (F !! x)) as Hin.
  { intros x. rewrite list_elem_of_fmap. split; [intros ([y g] & -> & ?%elem_of_map_to_list); eauto|]. intros [g Hg]. exists (x, g). by rewrite elem_of_map_to_list. }
  rewrite <- !length_map_to_list, <- (length_fmap fst (map_to_list F)), <- (length_fmap fst (map_to_list m)), <- (length_fmap way). apply Permutation_length, NoDup_Permutation.
  - apply NoDup_fmap_2_strong; [|apply NoDup_fst_map_to_list]. intros x y [g Hg]%Hin [g' Hg']%Hin E.
    destruct (fo_reach _ _ HF x g Hg) as [q Hq], (fo_reach _ _ HF y g' Hg') as [q' Hq']. rewrite (Hway q x Hq), (Hway q' y Hq') in E. subst q'. by eapply at_path_inj.
  - apply NoDup_fst_map_to_list.
  - intros q. rewrite !list_elem_of_fmap. split.
    + intros (x & -> & [g Hg]%Hin). destruct (fo_reach _ _ HF x g Hg) as [q Hq]. exists (way x, g_attr g). split; [done|]. apply elem_of_map_to_list. rewrite (Hway q x Hq). by eapply shows_at.
    + intros ([q' a] & -> & (x & g & Hq & Hg & _)%elem_of_map_to_list%Hm). exists x. split; [by rewrite (Hway q' x Hq)|]. apply Hin. eauto.
Qed.
End refine.
