(* ===== verification/TreeExport.v ===== *)
(** * Exporting and loading snapshots

    [export_snapshot] walks the tree breadth-first; loading what it emits gives
    the same path map back. *)

From S2P Require Import Prelude Types KeyMap FlatMap Path Unicode StringPool MetadataTree Forest TreeIndex TreeLinks TreeInv TreeRelease TreeOps TreeSpec TreeRefine.

Section export.
Context {M : Type} `{KeyMap M}.
Implicit Types t : MetadataTree M.

(** Loading reaches [m'] and [paths'] after the entries [es]. *)
Definition loads (m : pathmap) (paths : list (option (list bytes))) (next : Z) (es : list SnapshotEntry) (m' : pathmap) (paths' : list (option (list bytes))) (next' : Z) : Prop :=
  zlen paths' = next' ∧ paths `prefix_of` paths' ∧ ∀ rest, s_load_loop m paths (next - 1) (es ++ rest) = s_load_loop m' paths' (next' - 1) rest.

Lemma loads_trans m paths n es m1 paths1 n1 es1 m2 paths2 n2 :
  loads m paths n es m1 paths1 n1 → loads m1 paths1 n1 es1 m2 paths2 n2 → loads m paths n (es ++ es1) m2 paths2 n2.
Proof.
  intros (_ & A2 & A3) (B1 & B2 & B3). split_and!; [done|by etrans|]. intros rest. by rewrite <- app_assoc, A3, B3.
Qed.

(** What the children of one directory add. *)
Record emitted t (q : list bytes) (cs : list Z) (m m' : pathmap) (paths' : list (option (list bytes))) (qs : list (Z * Z)) : Prop := {
  ec_map : ∀ x a, m' !! x = Some a ↔ m !! x = Some a ∨ ∃ c, c ∈ cs ∧ x = q ++ [name t c] ∧ a = n_attr (node t c);
  ec_size : size m' = (size m + length cs)%nat;
  ec_len : (length qs <= length cs)%nat;
  ec_nodup : NoDup qs.*1;
  ec_queue : ∀ c i, (c, i) ∈ qs → c ∈ cs ∧ is_dir (node t c) = true ∧ 0 <= i ∧ paths' !! Z.to_nat i = Some (Some (q ++ [name t c]));
  ec_dirs : ∀ c, c ∈ cs → is_dir (node t c) = true → c ∈ qs.*1
}.

Lemma export_children_spec t q d idx cs : ∀ (m : pathmap) paths next, zlen paths = next → 0 <= idx → paths !! Z.to_nat idx = Some (Some q) →
  m !! q = Some d → s_dir d = true → NoDup cs → NoDup (name t <$> cs) → (∀ c, c ∈ cs → valid_name (name t c) = true ∧ m !! (q ++ [name t c]) = None) →
  next + zlen cs < 2 ^ 32 →
  let '(es, qs, next') := export_children t idx cs next in
  es = (λ c, mkSnap idx (name t c) (n_attr (node t c))) <$> cs
  ∧ ∃ m' paths', next' = next + zlen cs ∧ loads m paths next es m' paths' next' ∧ emitted t q cs m m' paths' qs.
Proof.
  induction cs as [|c cs IH]; intros m paths next Hlen Hidx Hq Hm Hd Hnd Hnn Hcs Hmax; cbn [export_children].
  { split; [done|]. exists m, paths. split_and!; [rewrite zlen_nil; lia|by split_and!|]. split; [|cbn; lia|cbn; lia|constructor|set_solver|set_solver].
    intros x a. split; [by left|]. intros [?|(c & ?%elem_of_nil & _)]; done. }
  rewrite zlen_cons in Hmax. pose proof (zlen_nonneg cs) as Hn. pose proof (zlen_nonneg paths) as Hn'. apply NoDup_cons in Hnd as [Hc Hnd]. apply NoDup_cons in Hnn as [Hnc Hnn].
  destruct (Hcs c) as [Hval Hfree]; [set_solver|]. set (m1 := <[q ++ [name t c] := n_attr (node t c)]> m). set (paths1 := paths ++ [Some (q ++ [name t c])]).
  assert (∀ rest, s_load_loop m paths (next - 1) (mkSnap idx (view (names_ t) (n_name (node t c))) (n_attr (node t c)) :: rest) = s_load_loop m1 paths1 next rest) as Hstep.
  { intros rest. cbn [s_load_loop se_parent se_name se_attr]. apply lookup_lt_Some in Hq as Hlt. unfold zlen in Hlen. destruct (Z.gtb_spec idx (next - 1)); [lia|].
    rewrite Hq. unfold s_insert. rewrite Hm, Hd. fold (name t c). rewrite Hval, Hfree. cbn [negb]. by replace (next - 1 + 1) with next by lia. }
  rewrite wrap_id by lia.
  specialize (IH m1 paths1 (next + 1)). assert (zlen paths1 = next + 1) as Hlen1 by (unfold paths1; rewrite zlen_app, zlen_cons, zlen_nil; lia).
  assert (m1 !! q = Some d) as Hm1. { unfold m1. rewrite lookup_insert_ne; [done|]. intros E. apply (f_equal length) in E. rewrite length_app in E. cbn in E. lia. }
  destruct (export_children t idx cs (next + 1)) as [[es qs] next'].
  destruct IH as (-> & m' & paths' & -> & (L1 & L2 & L3) & [E1 E2 E3 E4 E5 E6]); try done.
  { by apply lookup_app_l_Some. }
  { intros c' Hc'. destruct (Hcs c') as [? ?]; [set_solver|]. split; [done|]. unfold m1. rewrite lookup_insert_ne; [done|]. intros [= E]%app_inv_head. apply Hnc. apply list_elem_of_fmap. by exists c'. }
  { lia. }
  split; [done|]. exists m', paths'. split_and!; [rewrite zlen_cons; lia| |].
  - split_and!; [lia|etrans; [|done]; by eexists|]. intros rest. cbn [app]. rewrite Hstep. specialize (L3 rest). by replace (next + 1 - 1) with next in L3 by lia.
  - assert (paths' !! Z.to_nat next = Some (Some (q ++ [name t c]))) as Hp.
    { eapply prefix_lookup_Some; [|done]. unfold paths1. unfold zlen in Hlen. rewrite lookup_app_r by lia. by replace (Z.to_nat next - length paths)%nat with 0%nat by lia. }
    split.
    + intros x a. rewrite E1. unfold m1. rewrite lookup_insert_Some. split.
      * intros [[[<- <-]|[_ ?]]|(c' & ? & ? & ?)]; [right; exists c|by left|right; exists c']; set_solver.
      * intros [Hx|(c' & [->|Hc']%elem_of_cons & -> & ->)]; [left; right|left; by left|right; eauto]. split; [|done]. intros <-. congruence.
    + rewrite E2. unfold m1. rewrite map_size_insert, Hfree. cbn. lia.
    + rewrite length_app. cbn. destruct (is_dir (node t c)); cbn; lia.
    + destruct (is_dir (node t c)); [|done]. cbn. apply NoDup_cons. split; [|done]. intros ([c' i] & E & Hi)%list_elem_of_fmap. cbn in E. subst c'. apply E5 in Hi as [? _]. done.
    + intros c' i [Hi|Hi]%elem_of_app.
      * destruct (is_dir (node t c)) eqn:Edir; [|by apply elem_of_nil in Hi]. apply list_elem_of_singleton in Hi as [= -> ->]. split_and!; [set_solver|done|lia|done].
      * apply E5 in Hi as (? & ? & ? & ?). split_and!; [set_solver|done..].
    + intros c' [->|Hc']%elem_of_cons Hdir; rewrite fmap_app; apply elem_of_app; [left; rewrite Hdir; cbn; set_solver|right; by apply E6].
Qed.

(** The attributes of the root are not exported. *)
Definition rooted (m : pathmap) : pathmap := <[[] := kImplicitDirectory]> m.

Lemma rooted_snoc m q s : rooted m !! (q ++ [s]) = m !! (q ++ [s]).
Proof. unfold rooted. rewrite lookup_insert_ne; [done|]. by destruct q. Qed.

(** An entry for a node of [m]. *)
Definition entry_of (m : pathmap) (e : SnapshotEntry) : Prop := 0 <= se_parent e ∧ ∃ q, m !! (q ++ [se_name e]) = Some (se_attr e).

(** The state of the breadth-first walk: [m] is what loading the entries
    emitted so far gives, and a directory of it waits in the queue or has all
    its children in [m]. *)
Record walking (F : forest) (mF m : pathmap) (paths : list (option (list bytes))) (next : Z) (queue : list (Z * Z)) : Prop := {
  wk_next : zlen paths = next ∧ next = Z.of_nat (size m);
  wk_sub : m ⊆ mF;
  wk_root : is_Some (m !! []);
  wk_prefix : ∀ q s, is_Some (m !! (q ++ [s])) → is_Some (m !! q);
  wk_nodup : NoDup queue.*1;
  wk_queue : ∀ x i, (x, i) ∈ queue → 0 <= i ∧ ∃ q d, at_path F q x ∧ paths !! Z.to_nat i = Some (Some q) ∧ m !! q = Some d ∧ s_dir d = true
    ∧ ∀ s, m !! (q ++ [s]) = None;
  wk_closed : ∀ q x s, at_path F q x → is_Some (m !! q) → is_Some (mF !! (q ++ [s])) → x ∈ queue.*1 ∨ is_Some (m !! (q ++ [s]))
}.

Lemma walking_done F m0 m paths next : forest_ok 0 F → shows F m0 → walking F (rooted m0) m paths next [] → m = rooted m0.
Proof.
  intros HF Hm [_ Hsub Hroot _ _ _ Hcl]. apply (anti_symm (⊆)); [done|]. apply map_subseteq_spec. intros q a Hq.
  assert (∀ q x, at_path F q x → is_Some (m !! q)) as Hall.
  { induction 1 as [|q' c h Hq' IH Hc Hn]; [done|]. destruct (Hcl q' (g_parent h) (g_name h) Hq' IH) as [?%elem_of_nil|?]; [|done|done].
    rewrite rooted_snoc, (shows_at F m0 _ c h Hm); [done|by constructor|done]. }
  assert (is_Some (m !! q)) as [b Hb]. { destruct q as [|s q _] using rev_ind; [done|]. rewrite rooted_snoc in Hq. apply Hm in Hq as (x & g & Hq & _). by eapply Hall. }
  rewrite Hb. f_equal. apply (map_subseteq_spec m (rooted m0)) in Hb; [|done]. congruence.
Qed.

Lemma kids_of t F m0 q x : stands t F m0 → at_path F q x → ∃ g, F !! x = Some g ∧ for_each_child t x = g_kids g ∧ NoDup (g_kids g) ∧ NoDup (name t <$> g_kids g)
  ∧ ∀ c, c ∈ g_kids g → at_path F (q ++ [name t c]) c ∧ valid_name (name t c) = true ∧ m0 !! (q ++ [name t c]) = Some (n_attr (node t c)).
Proof.
  intros (HF & (names & Ht) & Hm) Hq. destruct (at_path_in F 0 q x HF Hq) as [g Hg]. pose proof (tr_shape _ _ _ Ht) as Hs. exists g. split; [done|].
  assert (∀ c, c ∈ g_kids g → ∃ h, F !! c = Some h ∧ name t c = g_name h ∧ at_path F (q ++ [name t c]) c ∧ c ≠ 0 ∧ g_parent h = x) as Hk.
  { intros c (Hc0 & _ & h & Hh & Ep)%(fo_kid _ _ HF x g c Hg). exists h. rewrite (name_spec t names F c h Ht Hh). split_and!; try done. constructor; [by rewrite Ep|done|done]. }
  split_and!; [|by eapply fo_nodup| |].
  - unfold for_each_child. rewrite (no_first _ _ _ (sh_node _ _ _ Hs x g Hg)). pose proof (forest_kids_wf 0 F HF) as HK. apply children_from_spec; [by eapply kids_chained|].
    pose proof (kids_count F t names x g HK Hs Hg). unfold zlen in *. lia.
  - apply NoDup_fmap_2_strong; [|by eapply fo_nodup]. intros c d (h & _ & _ & Hc & _)%Hk (h' & _ & _ & Hd & _)%Hk E. rewrite E in Hc. by eapply at_path_inj.
  - intros c (h & Hh & E & Hc & Hc0 & _)%Hk. split_and!; [done|rewrite E; by eapply fo_name|]. rewrite (no_attr _ _ _ (sh_node _ _ _ Hs c h Hh)). by eapply shows_at.
Qed.

Lemma new_paths (m mF : pathmap) q (l : list bytes) : m ⊆ mF → NoDup l → (∀ s, s ∈ l → m !! (q ++ [s]) = None ∧ is_Some (mF !! (q ++ [s]))) → (size m + length l <= size mF)%nat.
Proof.
  intros Hsub Hnd Hl. set (X := list_to_set ((λ s, q ++ [s]) <$> l) : gset (list bytes)).
  assert (size X = length l) as <-. { unfold X. rewrite size_list_to_set; [by rewrite length_fmap|]. apply NoDup_fmap_2_strong; [|done]. by intros x y _ _ [= ->]%app_inv_head. }
  assert (∀ x, x ∈ X → m !! x = None ∧ is_Some (mF !! x)) as HX. { intros x. unfold X. rewrite elem_of_list_to_set, list_elem_of_fmap. intros (s & -> & Hs). by apply Hl. }
  rewrite <- !size_dom, <- size_union.
  - apply subseteq_size. intros x [Hx|Hx]%elem_of_union; [|apply elem_of_dom; by apply HX]. by eapply subseteq_dom.
  - intros x [a Ha]%elem_of_dom [Hx _]%HX. congruence.
Qed.

Lemma walking_step t F m0 m paths next x i queue : stands t F m0 → walking F (rooted m0) m paths next ((x, i) :: queue) → Z.of_nat (size (rooted m0)) < 2 ^ 32 →
  let '(es, qs, next') := export_children t i (for_each_child t x) next in
  ∃ m' paths', loads m paths next es m' paths' next' ∧ walking F (rooted m0) m' paths' next' (queue ++ qs)
    ∧ (length qs <= size m' - size m)%nat ∧ (size m + length es = size m')%nat ∧ Forall (entry_of m0) es.
Proof.
  intros Hst [[W1 W2] W3 W4 W8 W5 W6 W7] Hmax. pose proof Hst as (HF & _ & Hm). destruct (W6 x i) as (Hi & q & d & Hq & Hp & Hd & Hdd & Hfree); [set_solver|].
  destruct (kids_of t F m0 q x Hst Hq) as (g & Hg & -> & K1 & K2 & K3). cbn in W5. apply NoDup_cons in W5 as [Hxq W5].
  assert (next + zlen (g_kids g) < 2 ^ 32) as Hb.
  { rewrite W2. pose proof (new_paths m (rooted m0) q (name t <$> g_kids g) W3 K2) as Hnew. rewrite length_fmap in Hnew. unfold zlen.
    enough (size m + length (g_kids g) <= size (rooted m0))%nat by lia. apply Hnew. intros s (c & -> & Hc)%list_elem_of_fmap. split; [done|]. rewrite rooted_snoc. destruct (K3 c Hc) as (_ & _ & ->). done. }
  pose proof (export_children_spec t q d i (g_kids g) m paths next W1 Hi Hp Hd Hdd K1 K2) as Hx.
  destruct (export_children t i (g_kids g) next) as [[es qs] next'].
  destruct Hx as (-> & m' & paths' & -> & Hl & [E1 E2 E3 E4 E5 E6]); [intros c Hc; split; [by apply K3|done]|done|].
  exists m', paths'. rewrite length_fmap. split_and!; [done| |lia|lia|].
  2: { apply Forall_fmap, Forall_forall. intros c Hc. split; [done|]. exists q. by apply K3. }
  split.
  - split; [apply Hl|]. rewrite E2, W2. unfold zlen. lia.
  - apply map_subseteq_spec. intros y a [Hy|(c & Hc & -> & ->)]%E1; [by apply (map_subseteq_spec m (rooted m0))|]. rewrite rooted_snoc. by apply K3.
  - destruct W4 as [a Ha]. exists a. apply E1. by left.
  - intros q' s [a [Ha|(c & _ & E & _)]%E1]; [destruct (W8 q' s) as [b' Hb']; [eauto|]; exists b'; apply E1; by left|].
    apply app_inj_tail in E as [-> _]. exists d. apply E1. by left.
  - rewrite fmap_app. apply NoDup_app. split_and!; [done| |done]. intros y Hy ([c j] & -> & Hc)%list_elem_of_fmap. cbn in Hy.
    apply list_elem_of_fmap in Hy as ([y j'] & -> & Hy). destruct (W6 y j') as (_ & q' & d' & Hq' & _ & Hin & _); [set_solver|].
    apply E5 in Hc as (Hc & _). destruct (K3 _ Hc) as (Hc' & _). by rewrite (at_path_id_inj F _ _ _ Hq' Hc'), Hfree in Hin.
  - intros y j [Hy|Hy]%elem_of_app.
    + destruct (W6 y j) as (Hj & q' & d' & Hq' & Hpj & Hb' & Hd' & Hf'); [set_solver|]. split; [done|]. exists q', d'. split_and!; [done| | |done|].
      * destruct Hl as (_ & Hpre & _). by eapply prefix_lookup_Some.
      * apply E1. by left.
      * intros s. apply eq_None_not_Some. intros [b' [Hs|(c & Hc & E & _)]%E1]; [congruence|]. apply app_inj_tail in E as [-> ->].
        apply Hxq. apply list_elem_of_fmap. exists (y, j). split; [|done]. by eapply at_path_inj.
    + destruct (E5 y j Hy) as (Hc & Hd' & Hj & Hpj). destruct (K3 y Hc) as (Hc' & _ & Hmc). split; [done|]. exists (q ++ [name t y]), (n_attr (node t y)). split_and!; try done.
      * apply E1. right. eauto.
      * intros s. apply eq_None_not_Some. intros [b' [Hs|(c & _ & E & _)]%E1].
        -- destruct (W8 (q ++ [name t y]) s) as [b2 Hb2]; [eauto|]. by rewrite Hfree in Hb2.
        -- apply (f_equal length) in E. rewrite !length_app in E. cbn in E. lia.
  - intros q' y s Hy [b [Hb'|(c & Hc & -> & _)]%E1] Hs; rewrite fmap_app, elem_of_app.
    + destruct (W7 q' y s Hy (mk_is_Some _ _ Hb') Hs) as [[->|Hin]%elem_of_cons|[b2 ?]]; [|by do 2 left|right; exists b2; apply E1; by left].
      right. rewrite (at_path_id_inj F _ _ _ Hy Hq) in *. rewrite rooted_snoc in Hs. destruct Hs as [b2 (z & hz & Hz & Hhz & _)%Hm]. apply (child_at 0 F x q s z HF Hq) in Hz as (Hz0 & h & Hh & Ep & Es).
      exists (n_attr (node t z)). apply E1. right. exists z. assert (z ∈ g_kids g) as Hzk by (apply (fo_kid _ _ HF x g z Hg); eauto).
      split_and!; [done| |done]. destruct Hst as (_ & (names & Ht) & _). by rewrite (name_spec t names F z h Ht Hh), Es.
    + left. right. destruct (K3 c Hc) as (Hc' & _). rewrite (at_path_inj F 0 _ _ _ HF Hy Hc') in *. apply E6; [done|].
      rewrite rooted_snoc in Hs. destruct Hs as [b2 (z & hz & Hz & Hhz & _)%Hm]. apply (child_at 0 F c (q ++ [name t c]) s z HF Hc') in Hz as (Hz0 & h & Hh & <- & Es).
      destruct (fo_home _ _ HF z h Hh Hz0) as (gc & Hgc & Hgd). destruct Hst as (_ & (names & Ht) & _). by rewrite (is_dir_spec t names F _ gc Ht Hgc).
Qed.

Lemma export_loop_spec t F m0 : stands t F m0 → Z.of_nat (size (rooted m0)) < 2 ^ 32 → ∀ fuel queue next m paths, walking F (rooted m0) m paths next queue →
  (length queue + (size (rooted m0) - size m) <= fuel)%nat → ∃ paths' next', loads m paths next (export_loop fuel t queue next) (rooted m0) paths' next'
    ∧ Forall (entry_of m0) (export_loop fuel t queue next) ∧ (size m + length (export_loop fuel t queue next) = size (rooted m0))%nat.
Proof.
  intros Hst Hmax. pose proof Hst as (HF & _ & Hm). assert (∀ m paths next fuel, walking F (rooted m0) m paths next [] → ∃ paths' next', loads m paths next (export_loop fuel t [] next) (rooted m0) paths' next'
    ∧ Forall (entry_of m0) (export_loop fuel t [] next) ∧ (size m + length (export_loop fuel t [] next) = size (rooted m0))%nat) as Hdone.
  { intros m paths next fuel Hw. rewrite <- (walking_done F m0 m paths next HF Hm Hw). exists paths, next. destruct (wk_next _ _ _ _ _ _ Hw) as [? _]. destruct fuel; (split_and!; [by split_and!|constructor|cbn; lia]). }
  induction fuel as [|fuel IH]; intros [|[x i] queue] next m paths Hw Hf; try (by apply Hdone); [cbn in Hf; lia|]. cbn [export_loop].
  pose proof (walking_step t F m0 m paths next x i queue Hst Hw Hmax) as Hs. destruct (export_children t i (for_each_child t x) next) as [[es qs] next'].
  destruct Hs as (m1 & paths1 & Hl & Hw1 & Hlen & Hsz & He). pose proof (map_subseteq_size _ _ (wk_sub _ _ _ _ _ _ Hw1)) as Hsub.
  destruct (IH (queue ++ qs) next' m1 paths1 Hw1) as (paths2 & next2 & Hl2 & He2 & Hn2); [rewrite length_app; cbn in Hf; lia|].
  exists paths2, next2. split_and!; [by eapply loads_trans|by apply Forall_app|rewrite length_app; lia].
Qed.

(** What is exported loads as what was there, under a plain root. *)
Lemma export_spec t F m : stands t F m → s_load (export_snapshot t) = (rooted m, Ok ())
  ∧ Forall (entry_of m) (export_snapshot t) ∧ zlen (export_snapshot t) = Z.of_nat (size m) - 1.
Proof.
  intros Hst. pose proof Hst as (HF & (names & Ht) & Hm). pose proof (live_spec t F m Hst) as Hlive. rewrite (tr_live _ _ _ Ht) in Hlive. apply Nat2Z.inj in Hlive.
  pose proof (forest_size t names F (tr_shape _ _ _ Ht)) as Hsz. pose proof (sh_size _ _ _ (tr_shape _ _ _ Ht)) as Hmax. unfold kInvalidNode, zlen in *.
  destruct (fo_root _ _ HF) as (g & Hg & _). pose proof (shows_at F m [] 0 g Hm (at_root F) Hg) as Hroot.
  assert (size (rooted m) = size m) as Er by (unfold rooted; rewrite map_size_insert, Hroot; done).
  assert (size s_new = 1%nat) as En by apply map_size_singleton.
  assert (size m ≠ 0)%nat as Hne by (intros E%map_size_empty_inv; rewrite E, lookup_empty in Hroot; done).
  destruct (export_loop_spec t F m Hst ltac:(lia) (length (nodes_ t)) [(root, 0)] 1 s_new [Some []]) as (paths' & next' & (_ & _ & Hl) & He & Hn); [|cbn [length]; rewrite Er, En; lia|].
  - unfold s_new in *. split; [done| |by eexists| | | |].
    + apply map_subseteq_spec. intros q a [<- <-]%lookup_singleton_Some. apply lookup_insert_eq.
    + intros q s [a [E _]%lookup_singleton_Some]. by destruct q.
    + apply NoDup_singleton.
    + intros x i [= -> ->]%list_elem_of_singleton. split; [done|]. exists [], kImplicitDirectory. split_and!; [constructor|done..|].
      intros s. apply lookup_singleton_ne. done.
    + intros q x s Hq [a [<- _]%lookup_singleton_Some] _. left. inversion Hq as [|q' ? ? ? ? ? E]; [cbn; set_solver|by destruct q'].
  - specialize (Hl []). rewrite app_nil_r in Hl. change (1 - 1) with 0 in Hl. unfold s_load, export_snapshot. rewrite Hl. split_and!; [done|done|lia].
Qed.
End export.
