(* ===== verification/Coalescer.v ===== *)
(** * The event coalescer ([core/coalescer.hpp], [core/coalescer.cpp])

    Bursts of watcher events collapse to one entry per path; [take] orders the
    entries, drops what a removed directory covers and repairs the move pairs.
    Time points are integers, injected as in the source. *)

From S2P Require Import Prelude Types Path.

Inductive FsEventKind := EvCreated | EvModified | EvRemoved | EvRenamedFrom | EvRenamedTo | EvOverflow.
Record FsEvent := mkEvent { ev_kind : FsEventKind; ev_path : bytes; ev_cookie : Z }.

#[global] Instance FsEventKind_eq_dec : EqDecision FsEventKind.
Proof. solve_decision. Defined.

Record PlannedOp := mkPlanned {
  po_kind : InvalidationKind;
  po_path : bytes;
  po_appeared : bool;
  po_change : ChangeKind;
  po_cookie : Z
}.

Record Entry := mkCoalEntry { en_kind : InvalidationKind; en_seq : Z; en_appeared : bool; en_change : ChangeKind; en_cookie : Z }.

Record Options := mkOptions { max_pending : Z; quiet_period : Z; max_latency : Z }.

Record Coalescer := mkCoal {
  opts_ : Options;
  pending_ : gmap bytes Entry;
  seq_ : Z;
  overflow_ : bool;
  first_ : Z;
  last_ : Z
}.

Definition coal_new (o : Options) : Coalescer := mkCoal o ∅ 0 false 0 0.

(** The [switch] of [push]: kind, appeared, change, cookie. *)
Definition classify (ev : FsEvent) : option (InvalidationKind * bool * ChangeKind * Z) :=
  match ev_kind ev with
  | EvCreated => Some (Upsert, true, Created, 0)
  | EvRenamedTo => Some (Upsert, true, MovedTo, ev_cookie ev)
  | EvModified => Some (Upsert, false, Modified, 0)
  | EvRemoved => Some (Remove, false, Removed, 0)
  | EvRenamedFrom => Some (Remove, false, MovedFrom, ev_cookie ev)
  | EvOverflow => None
  end.

Definition is_upsert (k : InvalidationKind) : bool := match k with Upsert => true | _ => false end.
Definition is_remove (k : InvalidationKind) : bool := match k with Remove => true | _ => false end.

(** What an event makes of the entry its path already has. *)
Definition merge_entry (old : option Entry) (kind : InvalidationKind) (appeared : bool) (change : ChangeKind)
    (cookie seq : Z) : Entry :=
  match old with
  | None => mkCoalEntry kind seq appeared change cookie
  | Some e =>
      let still_new := is_upsert kind && (appeared || en_appeared e) in
      let keep := bool_decide (change = Modified)
                  && (bool_decide (en_change e = Created) || bool_decide (en_change e = MovedTo)) in
      mkCoalEntry kind seq still_new (if keep then en_change e else change) (if keep then en_cookie e else cookie)
  end.

Definition push (c : Coalescer) (ev : FsEvent) (now : Z) : Coalescer :=
  let first := if bool_decide (pending_ c = ∅) && negb (overflow_ c) then now else first_ c in
  if bool_decide (ev_kind ev = EvOverflow) then mkCoal (opts_ c) ∅ (seq_ c) true first now
  else if overflow_ c then mkCoal (opts_ c) (pending_ c) (seq_ c) (overflow_ c) first now
  else
    match classify ev with
    | None => mkCoal (opts_ c) (pending_ c) (seq_ c) (overflow_ c) first now
    | Some (kind, appeared, change, cookie) =>
        let seq := wrap 64 (seq_ c + 1) in
        mkCoal (opts_ c)
          (<[ev_path ev := merge_entry (pending_ c !! ev_path ev) kind appeared change cookie seq]> (pending_ c))
          seq (overflow_ c) first now
    end.

Definition pending_size (c : Coalescer) : Z := Z.of_nat (size (pending_ c)).

Definition ready (c : Coalescer) (now : Z) : bool :=
  if overflow_ c then true
  else if bool_decide (pending_ c = ∅) then false
  else if pending_size c >=? max_pending (opts_ c) then true
  else (now - last_ c >=? quiet_period (opts_ c)) || (now - first_ c >=? max_latency (opts_ c)).

Definition deadline (c : Coalescer) : option Z :=
  if overflow_ c then Some (last_ c)
  else if bool_decide (pending_ c = ∅) then None
  else if pending_size c >=? max_pending (opts_ c) then Some (last_ c)
  else Some (Z.min (last_ c + quiet_period (opts_ c)) (first_ c + max_latency (opts_ c))).

(** ** Repairing move pairs (a template over the op type) *)
Class MoveOp (Op : Type) := {
  mo_change : Op → ChangeKind;
  mo_cookie : Op → Z;
  mo_set : Op → ChangeKind → Z → Op;
  mo_change_set op ch ck : mo_change (mo_set op ch ck) = ch;
  mo_cookie_set op ch ck : mo_cookie (mo_set op ch ck) = ck
}.

#[global] Program Instance planned_move_op : MoveOp PlannedOp :=
  {| mo_change := po_change; mo_cookie := po_cookie;
     mo_set op ch ck := mkPlanned (po_kind op) (po_path op) (po_appeared op) ch ck |}.
Next Obligation. done. Qed.
Next Obligation. done. Qed.

Section repair.
Context {Op : Type} `{MoveOp Op}.

Definition half_bit (ch : ChangeKind) : Z := match ch with MovedFrom => 1 | _ => 2 end.

(** [halves]: cookie -> bitmask of the halves seen. *)
Definition halves_step (h : gmap Z Z) (op : Op) : gmap Z Z :=
  if (mo_cookie op =? 0) || negb (is_move (mo_change op)) then h
  else <[mo_cookie op := Z.lor (default 0 (h !! mo_cookie op)) (half_bit (mo_change op))]> h.

Definition halves (ops : list Op) : gmap Z Z := foldl halves_step ∅ ops.

Definition repair_op (h : gmap Z Z) (op : Op) : Op :=
  if negb (is_move (mo_change op)) then op
  else if negb (mo_cookie op =? 0) && bool_decide (h !! mo_cookie op = Some 3) then op
  else mo_set op (match mo_change op with MovedFrom => Removed | _ => Created end) 0.

Definition repair_move_pairs (ops : list Op) : list Op :=
  if bool_decide (halves ops = ∅) then ops else repair_op (halves ops) <$> ops.
End repair.

(** ** [take] *)
Record Item := mkPend { it_path : bytes; it_entry : Entry }.

(** [std::string_view] order: lexicographic on unsigned bytes. *)
Fixpoint bytes_le (a b : bytes) : bool :=
  match a, b with
  | [], _ => true
  | _ :: _, [] => false
  | x :: a, y :: b => (x <? y) || ((x =? y) && bytes_le a b)
  end.

Definition by_path (a b : Item) : Prop := bytes_le (it_path a) (it_path b) = true.
Definition by_seq (a b : Item) : Prop := en_seq (it_entry a) <= en_seq (it_entry b).

#[global] Instance by_path_dec : RelDecision by_path.
Proof. intros a b. unfold by_path. apply _. Defined.
#[global] Instance by_seq_dec : RelDecision by_seq.
Proof. intros a b. unfold by_seq. apply _. Defined.

(** The two nested loops of [take] over the path-sorted items; [rm] is the
    removal whose inner loop is running. *)
Fixpoint keep_loop (rm : option Item) (items : list Item) : list Item :=
  match items with
  | [] => []
  | x :: items =>
      let outer := x :: keep_loop (if is_remove (en_kind (it_entry x)) then Some x else None) items in
      match rm with
      | Some it =>
          if path_is_under (it_path x) (it_path it) then
            if en_seq (it_entry it) <? en_seq (it_entry x) then x :: keep_loop rm items
            else keep_loop rm items
          else outer
      | None => outer
      end
  end.

Definition planned (i : Item) : PlannedOp :=
  mkPlanned (en_kind (it_entry i)) (it_path i) (en_appeared (it_entry i)) (en_change (it_entry i)) (en_cookie (it_entry i)).

Definition items_of (m : gmap bytes Entry) : list Item := (λ kv, mkPend kv.1 kv.2) <$> map_to_list m.

Definition kept_items (m : gmap bytes Entry) : list Item :=
  merge_sort by_seq (keep_loop None (merge_sort by_path (items_of m))).

Definition take_batch (c : Coalescer) : Coalescer * list PlannedOp :=
  if overflow_ c then
    (mkCoal (opts_ c) ∅ (seq_ c) false (first_ c) (last_ c), [mkPlanned Rescan [] false Unknown 0])
  else if bool_decide (pending_ c = ∅) then (c, [])
  else
    (mkCoal (opts_ c) ∅ (seq_ c) (overflow_ c) (first_ c) (last_ c),
     repair_move_pairs (planned <$> kept_items (pending_ c))).

(** ** Lemmas on [take] *)

#[global] Instance by_seq_total : Total by_seq.
Proof. intros a b. unfold by_seq. lia. Qed.
#[global] Instance by_seq_trans : Transitive by_seq.
Proof. intros a b c. unfold by_seq. lia. Qed.

Lemma keep_loop_sub rm items x : x ∈ keep_loop rm items → x ∈ items.
Proof.
  revert rm. induction items as [|y items IH]; intros rm; [done|]. cbn [keep_loop].
  repeat case_match; rewrite ?elem_of_cons; naive_solver.
Qed.

Lemma keep_loop_sublist rm items : sublist (keep_loop rm items) items.
Proof.
  revert rm. induction items as [|y items IH]; intros rm; [done|]. cbn [keep_loop].
  repeat case_match; (by apply sublist_skip) || (by apply sublist_cons).
Qed.

Definition covers (it x : Item) : Prop :=
  en_kind (it_entry it) = Remove ∧ path_is_under (it_path x) (it_path it) = true
  ∧ en_seq (it_entry x) <= en_seq (it_entry it).

(** An item is kept, or a removal that is kept (or is being applied) covers it. *)
Lemma keep_loop_lost rm items x :
  (∀ it, rm = Some it → en_kind (it_entry it) = Remove) → x ∈ items →
  x ∈ keep_loop rm items ∨ ∃ it, covers it x ∧ (rm = Some it ∨ it ∈ keep_loop rm items).
Proof.
  revert rm. induction items as [|y items IH]; intros rm Hrm Hx; [by apply not_elem_of_nil in Hx|].
  cbn [keep_loop].
  assert (x ∈ y :: keep_loop (if is_remove (en_kind (it_entry y)) then Some y else None) items
    ∨ ∃ it, covers it x ∧ it ∈ y :: keep_loop (if is_remove (en_kind (it_entry y)) then Some y else None) items) as Hout.
  { apply elem_of_cons in Hx as [->|Hx]; [left; set_solver|].
    destruct (IH (if is_remove (en_kind (it_entry y)) then Some y else None)) as [H|(it & Hc & Hor)]; [|done|left; set_solver|].
    - intros it. destruct (en_kind (it_entry y)) eqn:E; simpl; [done| |done]. by intros [= <-].
    - right. exists it. split; [done|]. destruct Hor as [Hor|Hor]; [|set_solver].
      destruct (is_remove _); [|done]. injection Hor as ->. set_solver. }
  destruct rm as [it|]; [|destruct Hout as [?|(it & ? & ?)]; eauto].
  destruct (path_is_under (it_path y) (it_path it)) eqn:Hu; [|destruct Hout as [?|(i & ? & ?)]; eauto].
  destruct (Z.ltb_spec (en_seq (it_entry it)) (en_seq (it_entry y))) as [Hs|Hs].
  - apply elem_of_cons in Hx as [->|Hx]; [left; set_solver|].
    destruct (IH (Some it) Hrm Hx) as [?|(i & ? & [?|?])]; [left; set_solver|eauto|right; exists i; set_solver].
  - apply elem_of_cons in Hx as [->|Hx]; [right; exists it; split; [|by left]|by apply IH].
    split_and!; [by apply Hrm|done|lia].
Qed.

Lemma elem_of_items m x : x ∈ items_of m ↔ m !! it_path x = Some (it_entry x).
Proof.
  unfold items_of. rewrite list_elem_of_fmap. split.
  - intros ([p e] & -> & H). by apply elem_of_map_to_list in H.
  - intros H. exists (it_path x, it_entry x). split; [by destruct x|by apply elem_of_map_to_list].
Qed.

Lemma items_nodup m : NoDup (it_path <$> items_of m).
Proof.
  unfold items_of. rewrite <- list_fmap_compose.
  replace (it_path ∘ λ kv : bytes * Entry, mkPend kv.1 kv.2) with (@fst bytes Entry) by done.
  apply NoDup_fst_map_to_list.
Qed.

Lemma elem_of_kept m x : x ∈ kept_items m → m !! it_path x = Some (it_entry x).
Proof.
  unfold kept_items. rewrite merge_sort_Permutation. intros H%keep_loop_sub.
  rewrite merge_sort_Permutation in H. by apply elem_of_items.
Qed.

Lemma kept_lost m x : m !! it_path x = Some (it_entry x) →
  x ∈ kept_items m ∨ ∃ it, covers it x ∧ it ∈ kept_items m.
Proof.
  intros Hx%elem_of_items. rewrite <- (merge_sort_Permutation by_path) in Hx.
  destruct (keep_loop_lost None _ x ltac:(done) Hx) as [H|(it & Hc & [?|H])]; [|done|].
  - left. unfold kept_items. by rewrite merge_sort_Permutation.
  - right. exists it. split; [done|]. unfold kept_items. by rewrite merge_sort_Permutation.
Qed.

Lemma kept_nodup m : NoDup (it_path <$> kept_items m).
Proof.
  unfold kept_items. rewrite merge_sort_Permutation.
  eapply sublist_NoDup; [|apply fmap_sublist, keep_loop_sublist].
  rewrite merge_sort_Permutation. apply items_nodup.
Qed.

(** ** Lemmas on [repair_move_pairs] *)
Section repair_lemmas.
Context {Op : Type} `{MoveOp Op}.

Definition is_half (b : Z) (ck : Z) (op : Op) : Prop :=
  mo_cookie op = ck ∧ ck ≠ 0 ∧ is_move (mo_change op) = true ∧ half_bit (mo_change op) = b.

Lemma half_bits ch : half_bit ch = 1 ∨ half_bit ch = 2.
Proof. destruct ch; auto. Qed.

(** A recorded mask is the union of the halves seen. *)
Lemma halves_spec ops ck :
  match halves ops !! ck with
  | None => ∀ b, ¬ ∃ op, op ∈ ops ∧ is_half b ck op
  | Some v => 1 <= v <= 3 ∧ (∀ b, b = 1 ∨ b = 2 → Z.land v b = b ↔ ∃ op, op ∈ ops ∧ is_half b ck op)
  end.
Proof.
  unfold halves. induction ops as [|op ops IH] using rev_ind.
  { simpl. rewrite lookup_empty. intros b (op & Hop & _). by apply not_elem_of_nil in Hop. }
  rewrite foldl_app. cbn [foldl]. set (h := foldl halves_step ∅ ops) in *. unfold halves_step.
  assert (∀ b, (∃ o, o ∈ ops ++ [op] ∧ is_half b ck o) ↔ (∃ o, o ∈ ops ∧ is_half b ck o) ∨ is_half b ck op) as Hsplit.
  { intros b. split.
    - intros (o & [Ho|Ho%list_elem_of_singleton]%elem_of_app & Hh); [eauto|subst; by right].
    - intros [(o & Ho & Hh)|Hh]; [exists o|exists op]; rewrite elem_of_app; set_solver. }
  destruct ((mo_cookie op =? 0) || negb (is_move (mo_change op))) eqn:E.
  - assert (∀ b, ¬ is_half b ck op) as Hno.
    { intros b (<- & Hne & Hm & _). apply orb_true_iff in E as [E|E]; b2p; congruence. }
    destruct (h !! ck); [destruct IH as [? IH]; split; [done|]|]; intros b; rewrite Hsplit; [|naive_solver].
    intros Hb. rewrite (IH b Hb). naive_solver.
  - b2p. destruct (decide (mo_cookie op = ck)) as [Hck|Hck].
    + subst ck. rewrite lookup_insert_eq.
      assert (∀ b, is_half b (mo_cookie op) op ↔ half_bit (mo_change op) = b) as Hop by (intros b; unfold is_half; naive_solver).
      assert (match h !! mo_cookie op with None => 0 | Some v => v end = default 0 (h !! mo_cookie op)) as Hd by by destruct (h !! _).
      destruct (h !! mo_cookie op) as [v|] eqn:Ev; simpl.
      * destruct IH as [Hv IH]. assert (v = 1 ∨ v = 2 ∨ v = 3) as Hv' by lia.
        split; [clear -Hv'; destruct Hv' as [->|[->| ->]], (half_bits (mo_change op)) as [->| ->]; vm_compute; split; congruence|].
        intros b Hb. rewrite Hsplit, Hop, <- (IH b Hb).
        destruct Hv' as [->|[->| ->]], (half_bits (mo_change op)) as [->| ->], Hb as [->| ->]; simpl; intuition lia.
      * split; [destruct (half_bits (mo_change op)) as [->| ->]; vm_compute; split; congruence|].
        intros b Hb. rewrite Hsplit, Hop. specialize (IH b).
        destruct (half_bits (mo_change op)) as [->| ->], Hb as [->| ->]; vm_compute Z.land; naive_solver.
    + rewrite lookup_insert_ne by done.
      assert (∀ b, ¬ is_half b ck op) as Hno by (intros b (<- & _); done).
      destruct (h !! ck); [destruct IH as [? IH]; split; [done|]|]; intros b; rewrite Hsplit; [|naive_solver].
      intros Hb. rewrite (IH b Hb). naive_solver.
Qed.

Lemma repair_op_half h op : is_move (mo_change (repair_op h op)) = true →
  repair_op h op = op ∧ mo_cookie op ≠ 0 ∧ h !! mo_cookie op = Some 3 ∧ is_move (mo_change op) = true.
Proof.
  unfold repair_op. destruct (is_move (mo_change op)) eqn:E; simpl; [|congruence].
  destruct (negb (mo_cookie op =? 0) && bool_decide (h !! mo_cookie op = Some 3)) eqn:E2; [b2p; done|].
  rewrite mo_change_set. by destruct (mo_change op).
Qed.

Lemma repair_op_keep h op : mo_cookie op ≠ 0 → h !! mo_cookie op = Some 3 → repair_op h op = op.
Proof.
  intros Hc Hh. unfold repair_op. rewrite (proj2 (Z.eqb_neq _ _) Hc), Hh, bool_decide_eq_true_2 by done.
  by destruct (is_move _).
Qed.

(** Every move half that is left carries a cookie and has its other half. *)
Lemma repair_paired ops op : halves ops ≠ ∅ → op ∈ repair_move_pairs ops → is_move (mo_change op) = true →
  mo_cookie op ≠ 0 ∧ ∃ op', op' ∈ repair_move_pairs ops ∧ mo_cookie op' = mo_cookie op
    ∧ is_move (mo_change op') = true ∧ mo_change op' ≠ mo_change op.
Proof.
  intros Hne. unfold repair_move_pairs. rewrite bool_decide_eq_false_2 by done.
  rewrite list_elem_of_fmap. intros (o & -> & Ho) Hm.
  apply repair_op_half in Hm as (-> & Hc & Hh & Hm). split; [done|].
  pose proof (halves_spec ops (mo_cookie o)) as Hs. rewrite Hh in Hs. destruct Hs as [_ Hs].
  destruct (proj1 (Hs (3 - half_bit (mo_change o)) ltac:(destruct (half_bits (mo_change o)) as [->| ->]; lia)))
    as (o' & Ho' & Hck & _ & Hm' & Hb); [destruct (half_bits (mo_change o)) as [->| ->]; done|].
  exists o'. split_and!; [|done|done|].
  - apply list_elem_of_fmap. exists o'. split; [|done]. rewrite repair_op_keep; congruence.
  - intros He. rewrite He in Hb. destruct (half_bits (mo_change o)) as [E|E]; rewrite E in Hb; lia.
Qed.
End repair_lemmas.

Lemma repair_planned ops op : op ∈ repair_move_pairs ops →
  ∃ o, o ∈ ops ∧ po_kind op = po_kind o ∧ po_path op = po_path o ∧ po_appeared op = po_appeared o.
Proof.
  unfold repair_move_pairs. case_bool_decide; [eauto|]. rewrite list_elem_of_fmap. intros (o & -> & Ho).
  exists o. split; [done|]. unfold repair_op. by repeat case_match.
Qed.

Lemma repair_paths ops : po_path <$> repair_move_pairs ops = po_path <$> ops.
Proof.
  unfold repair_move_pairs. case_bool_decide; [done|]. rewrite <- list_fmap_compose. apply list_fmap_ext.
  intros i o _. simpl. unfold repair_op. by repeat case_match.
Qed.

Lemma repair_kinds ops : (λ o, (po_kind o, po_path o, po_appeared o)) <$> repair_move_pairs ops
  = (λ o, (po_kind o, po_path o, po_appeared o)) <$> ops.
Proof.
  unfold repair_move_pairs. case_bool_decide; [done|]. rewrite <- list_fmap_compose. apply list_fmap_ext.
  intros i o _. simpl. unfold repair_op. by repeat case_match.
Qed.

(** ** Lemmas on [push] *)

Definition on_path (p : bytes) (ev : FsEvent) : Prop := ev_path ev = p.
#[global] Instance on_path_dec p ev : Decision (on_path p ev).
Proof. unfold on_path. apply _. Defined.

(** The last event on a path that is not a plain modification. *)
Definition last_shape (es : list FsEvent) : option FsEvent := last (filter (λ e, ev_kind e ≠ EvModified) es).

Definition appears (k : FsEventKind) : bool := match k with EvCreated | EvRenamedTo => true | _ => false end.

Definition kind_of (k : FsEventKind) : InvalidationKind :=
  match k with EvRemoved | EvRenamedFrom => Remove | EvOverflow => Rescan | _ => Upsert end.

(** The change and cookie an event reports on its own. *)
Definition report (ev : FsEvent) : ChangeKind * Z :=
  match ev_kind ev with
  | EvCreated => (Created, 0) | EvModified => (Modified, 0) | EvRemoved => (Removed, 0)
  | EvRenamedFrom => (MovedFrom, ev_cookie ev) | EvRenamedTo => (MovedTo, ev_cookie ev)
  | EvOverflow => (Unknown, 0)
  end.

(** The event that stands for the burst: the appearance, if the path appeared
    and was only modified since; else the last event. *)
Definition reported (es : list FsEvent) (l : FsEvent) : FsEvent :=
  match last_shape es with Some x => if appears (ev_kind x) then x else l | None => l end.

(** What the events [es] on one path amount to. *)
Definition burst_ok (es : list FsEvent) (e : Entry) : Prop :=
  ∃ l, last es = Some l ∧ en_kind e = kind_of (ev_kind l)
    ∧ en_appeared e = match last_shape es with Some x => appears (ev_kind x) | None => false end
    ∧ (en_change e, en_cookie e) = report (reported es l).

Definition push_all (c : Coalescer) (evs : list (FsEvent * Z)) : Coalescer :=
  foldl (λ c ev, push c ev.1 ev.2) c evs.

(** One based position of the last event on a path. *)
Fixpoint last_pos (evs : list FsEvent) (p : bytes) : Z :=
  match evs with
  | [] => 0
  | e :: evs =>
      if bool_decide (last_pos evs p = 0) then (if bool_decide (ev_path e = p) then 1 else 0)
      else 1 + last_pos evs p
  end.

Lemma last_pos_snoc evs e p :
  last_pos (evs ++ [e]) p = if bool_decide (ev_path e = p) then zlen evs + 1 else last_pos evs p.
Proof.
  induction evs as [|x evs IH]; cbn [app last_pos].
  - rewrite bool_decide_eq_true_2 by done. done.
  - rewrite IH, zlen_cons. pose proof (zlen_nonneg evs). destruct (bool_decide (ev_path e = p)) eqn:E; [|done].
    rewrite bool_decide_eq_false_2 by lia. lia.
Qed.

Lemma last_shape_snoc es ev :
  last_shape (es ++ [ev]) = if bool_decide (ev_kind ev = EvModified) then last_shape es else Some ev.
Proof.
  unfold last_shape. rewrite filter_app. case_bool_decide as Hm.
  - rewrite filter_cons_False, filter_nil, app_nil_r by (by intros Hn; apply Hn). done.
  - rewrite filter_cons_True, filter_nil, last_snoc by done. done.
Qed.

Lemma last_shape_last es l : last es = Some l → ev_kind l ≠ EvModified → last_shape es = Some l.
Proof. intros [es' ->]%last_Some Hk. rewrite last_shape_snoc. by rewrite bool_decide_eq_false_2. Qed.

Lemma burst_step es old ev kind app ch ck seq :
  classify ev = Some (kind, app, ch, ck) →
  match old with None => es = [] | Some e => burst_ok es e end →
  burst_ok (es ++ [ev]) (merge_entry old kind app ch ck seq).
Proof.
  intros Hc Hold. exists ev. split; [apply last_snoc|].
  unfold reported. rewrite last_shape_snoc. unfold classify in Hc.
  destruct (ev_kind ev) eqn:Ek; simplify_eq; rewrite ?Ek;
    ((rewrite bool_decide_eq_false_2 by done) || (rewrite bool_decide_eq_true_2 by done)).
  2:{ destruct old as [e|]; [|subst es; cbn; unfold report; by rewrite Ek].
      destruct Hold as (l & Hl & Hk & Ha & Hr). cbn [merge_entry en_kind en_appeared en_change en_cookie].
      split; [done|]. rewrite Ha. unfold reported in Hr. rewrite bool_decide_eq_true_2 by done.
      destruct (last_shape es) as [x|] eqn:Ex; [destruct (appears (ev_kind x)) eqn:Eap|].
      - split; [done|]. unfold report in *. destruct (ev_kind x); try done; injection Hr as H1 H2; by rewrite H1, H2.
      - split; [done|]. assert (report l = (Modified, 0) ∨ ∃ r, report l = r ∧ r.1 ≠ Created ∧ r.1 ≠ MovedTo) as Hcase.
        { destruct (decide (ev_kind l = EvModified)) as [Hm|Hm]; [left; unfold report; by rewrite Hm|right].
          rewrite (last_shape_last es l Hl Hm) in Ex. injection Ex as ->. eexists. split; [done|].
          rewrite Hr. unfold report. revert Eap. destruct (ev_kind x); intros Hap; (done || by split). }
        assert (en_change e ≠ Created ∧ en_change e ≠ MovedTo) as [? ?].
        { destruct Hcase as [Hc|(r & Hc & ? & ?)]; rewrite Hc in Hr; [|destruct r]; injection Hr as H1 H2; rewrite H1; by split. }
        rewrite !bool_decide_eq_false_2 by done. cbn. unfold report. by rewrite Ek.
      - split; [done|]. assert (ev_kind l = EvModified) as Hm.
        { destruct (decide (ev_kind l = EvModified)); [done|]. by rewrite (last_shape_last es l Hl) in Ex. }
        unfold report in *. rewrite Hm in Hr. rewrite Ek. injection Hr as H1 H2. by rewrite H1. }
  all: unfold report; destruct old; rewrite ?Ek; cbn [appears]; rewrite ?Ek; by split_and!.
Qed.

(** The state after events without an overflow, from one with nothing pending. *)
Lemma push_all_from c0 evs : pending_ c0 = ∅ → overflow_ c0 = false → 0 <= seq_ c0 →
  Forall (λ ev, ev_kind ev.1 ≠ EvOverflow) evs → seq_ c0 + zlen evs < 2 ^ 64 →
  let c := push_all c0 evs in
  overflow_ c = false ∧ seq_ c = seq_ c0 + zlen evs
  ∧ ∀ p, match pending_ c !! p with
         | None => filter (on_path p) evs.*1 = []
         | Some e => burst_ok (filter (on_path p) evs.*1) e ∧ en_seq e = seq_ c0 + last_pos evs.*1 p
         end.
Proof.
  intros Hc0 Ho0 Hs0. induction evs as [|[ev now] evs IH] using rev_ind; intros Hf Hl.
  { cbn. rewrite Ho0, Hc0. split_and!; [done|rewrite zlen_nil; lia|]. intros p. by rewrite lookup_empty. }
  apply Forall_app in Hf as [Hf Hev]. inversion Hev as [|? ? Hk _]; subst. cbn [fst] in Hk.
  rewrite zlen_app in Hl. change (zlen [(ev, now)]) with 1 in Hl. pose proof (zlen_nonneg evs).
  destruct IH as (Hov & Hseq & Hp); [done|lia|]. unfold push_all in *. rewrite foldl_app. cbn [foldl fst snd].
  set (c := foldl _ _ evs) in *. unfold push. rewrite bool_decide_eq_false_2, Hov by done.
  destruct (classify ev) as [[[[kind app] ch] ck]|] eqn:Ec; [|unfold classify in Ec; by destruct (ev_kind ev)].
  cbn [overflow_ seq_ pending_]. rewrite Hseq, wrap_id, zlen_app by lia. change (zlen [(ev, now)]) with 1.
  split_and!; [done|lia|]. intros p. rewrite fmap_app, filter_app. cbn [fmap list_fmap fst].
  rewrite last_pos_snoc. destruct (decide (ev_path ev = p)) as [<-|Hne].
  - rewrite lookup_insert_eq, bool_decide_eq_true_2 by done.
    rewrite filter_cons_True, filter_nil by done. split.
    + eapply burst_step; [done|]. specialize (Hp (ev_path ev)). destruct (pending_ c !! ev_path ev); [apply Hp|done].
    + assert (zlen evs.*1 = zlen evs) as -> by (unfold zlen; by rewrite length_fmap).
      destruct (pending_ c !! ev_path ev); simpl; lia.
  - rewrite lookup_insert_ne, bool_decide_eq_false_2 by done.
    rewrite filter_cons_False, filter_nil, app_nil_r by done. apply Hp.
Qed.

(** Repeated events on one path collapse to the last relevant operation.
    After any run of events without an overflow, a path has a pending entry
    exactly when an event named it; the entry's kind is the last event's, its
    sequence number is the position of that event (so entries are ordered by
    each path's final event), the path counts as new exactly when its last event
    other than a plain modification made it appear, and the reported change and
    cookie are those of that appearance, or else of the last event. *)
Theorem push_collapses o evs p :
  Forall (λ ev, ev_kind ev.1 ≠ EvOverflow) evs → zlen evs < 2 ^ 64 →
  match pending_ (push_all (coal_new o) evs) !! p with
  | None => filter (on_path p) evs.*1 = []
  | Some e => burst_ok (filter (on_path p) evs.*1) e ∧ en_seq e = last_pos evs.*1 p
  end.
Proof. intros Hf Hl. by apply (push_all_from (coal_new o) evs). Qed.

(** A file renamed into place and then written is still a move, with its cookie. *)
Lemma push_collapses_witness :
  (en_change <$> pending_ (push_all (coal_new (mkOptions 8 2 25))
     [(mkEvent EvRenamedTo (str "b") 7, 0); (mkEvent EvModified (str "a") 0, 1); (mkEvent EvModified (str "b") 0, 2)]) !! str "b")
  = Some MovedTo.
Proof.
  set (evs := [(mkEvent EvRenamedTo (str "b") 7, 0); (mkEvent EvModified (str "a") 0, 1); (mkEvent EvModified (str "b") 0, 2)]).
  pose proof (push_collapses (mkOptions 8 2 25) evs (str "b")) as H.
  assert (Forall (λ ev, ev_kind ev.1 ≠ EvOverflow) evs) as Hf by (repeat constructor; discriminate).
  specialize (H Hf eq_refl). destruct (pending_ (push_all _ evs) !! str "b") as [e|]; [|discriminate H].
  destruct H as [(l & Hl & _ & _ & Hr) _]. vm_compute in Hl. injection Hl as <-. destruct e. vm_compute in Hr.
  injection Hr as H1 H2. rewrite H1. reflexivity.
Defined.

Definition seq_at (c : Coalescer) (p : bytes) : Z :=
  match pending_ c !! p with Some e => en_seq e | None => 0 end.

(** [take] loses nothing.  Without an overflow it empties the coalescer and
    returns one operation per path at most, each with its entry's kind, in the
    order of the paths' final events; and a pending path is returned, or the
    batch removes an ancestor of it (or the path itself) no earlier. *)
Theorem take_nothing_lost c :
  overflow_ c = false →
  pending_ (take_batch c).1 = ∅
  ∧ NoDup (po_path <$> (take_batch c).2)
  ∧ StronglySorted (λ a b, seq_at c (po_path a) <= seq_at c (po_path b)) (take_batch c).2
  ∧ (∀ op, op ∈ (take_batch c).2 → ∃ e, pending_ c !! po_path op = Some e
       ∧ po_kind op = en_kind e ∧ po_appeared op = en_appeared e)
  ∧ (∀ p e, pending_ c !! p = Some e →
       p ∈ (po_path <$> (take_batch c).2)
       ∨ ∃ op, op ∈ (take_batch c).2 ∧ po_kind op = Remove ∧ path_is_under p (po_path op) = true
           ∧ en_seq e <= seq_at c (po_path op)).
Proof.
  intros Hov. unfold take_batch. rewrite Hov. case_bool_decide as He.
  { rewrite He. split_and!; [done|apply NoDup_nil_2|constructor|by intros ? ?%not_elem_of_nil|].
    intros p e. by rewrite lookup_empty. }
  cbn [fst snd pending_]. set (ks := kept_items (pending_ c)).
  assert (∀ x, x ∈ ks → seq_at c (it_path x) = en_seq (it_entry x)) as Hseq.
  { intros x Hx%elem_of_kept. unfold seq_at. by rewrite Hx. }
  split_and!; [done| | | |].
  - rewrite repair_paths, <- list_fmap_compose. apply kept_nodup.
  - assert (StronglySorted (λ a b, seq_at c a <= seq_at c b) (po_path <$> repair_move_pairs (planned <$> ks))) as Hs.
    { rewrite repair_paths, <- list_fmap_compose.
      assert (StronglySorted by_seq ks) as Hks by apply (StronglySorted_merge_sort by_seq).
      clear -Hks Hseq. induction Hks as [|x l Hl IH Hx]; [constructor|]. cbn [fmap list_fmap].
      constructor; [apply IH; set_solver|]. apply Forall_fmap, Forall_forall. intros y Hy.
      rewrite Forall_forall in Hx. pose proof (Hx y Hy) as Hxy. unfold by_seq in Hxy. cbn.
      rewrite !Hseq by set_solver. done. }
    clear -Hs. induction (repair_move_pairs (planned <$> ks)) as [|a l IH]; [constructor|].
    cbn [fmap list_fmap] in Hs. inversion Hs as [|? ? Hl Ha]; subst. constructor; [auto|]. exact (proj1 (Forall_fmap _ _ _) Ha).
  - intros op (o & Ho & Hk & Hp & Ha)%repair_planned. apply list_elem_of_fmap in Ho as (x & -> & Hx).
    apply elem_of_kept in Hx. exists (it_entry x). by rewrite Hp.
  - intros p e Hp. rewrite repair_paths. destruct (kept_lost (pending_ c) (mkPend p e) Hp) as [Hk|(it & Hc & Hk)].
    + left. rewrite <- list_fmap_compose. apply list_elem_of_fmap. by exists (mkPend p e).
    + right. destruct Hc as (Hrm & Hu & Hle). assert (planned it ∈ planned <$> ks) as Hin by by apply list_elem_of_fmap_2.
      assert ((Remove, it_path it, en_appeared (it_entry it)) ∈
        (λ o, (po_kind o, po_path o, po_appeared o)) <$> repair_move_pairs (planned <$> ks)) as Hin'.
      { rewrite repair_kinds. apply list_elem_of_fmap. exists (planned it). split; [|done]. cbn. by rewrite Hrm. }
      apply list_elem_of_fmap in Hin' as (op & Heq & Hop). injection Heq as H1 H2 H3. exists op.
      rewrite <- H2, Hseq by done. by rewrite <- H1.
Qed.

Lemma take_nothing_lost_witness :
  pending_ (take_batch (push_all (coal_new (mkOptions 8 2 25)) [(mkEvent EvCreated (str "a") 0, 0)])).1 = ∅.
Proof. apply take_nothing_lost. reflexivity. Defined.

(** An overflow discards the batch: whatever is pushed before [take], it
    returns a single rescan of the root, and the coalescer starts afresh. *)
Theorem overflow_rescans c ev now evs :
  ev_kind ev = EvOverflow →
  let c' := push_all (push c ev now) evs in
  ready c' now = true
  ∧ (take_batch c').2 = [mkPlanned Rescan [] false Unknown 0]
  ∧ overflow_ (take_batch c').1 = false ∧ pending_ (take_batch c').1 = ∅.
Proof.
  intros Hk. assert (overflow_ (push_all (push c ev now) evs) = true) as Hov.
  { assert (overflow_ (push c ev now) = true) as H0 by by unfold push; rewrite bool_decide_eq_true_2.
    revert H0. generalize (push c ev now). induction evs as [|x evs IH]; intros d Hd; [done|].
    apply IH. unfold push. by repeat case_match; simplify_eq/=. }
  cbv zeta. unfold ready, take_batch. by rewrite Hov.
Qed.

Lemma overflow_rescans_witness :
  (take_batch (push_all (push (coal_new (mkOptions 8 2 25)) (mkEvent EvOverflow [] 0) 5) [(mkEvent EvCreated (str "a") 0, 6)])).2
  = [mkPlanned Rescan [] false Unknown 0].
Proof. apply (overflow_rescans (coal_new (mkOptions 8 2 25)) (mkEvent EvOverflow [] 0) 5). reflexivity. Defined.

(** [deadline] is when [ready] flips: with nothing further pushed, the
    batch is ready at a time past the last event exactly when the deadline has
    come, and an idle coalescer has none. *)
Theorem ready_deadline c now :
  last_ c <= now →
  ready c now = match deadline c with Some d => d <=? now | None => false end.
Proof.
  intros Hn. unfold ready, deadline. destruct (overflow_ c); [symmetry; by apply Z.leb_le|].
  case_bool_decide; [done|]. destruct (Z.geb_spec (pending_size c) (max_pending (opts_ c))).
  - symmetry; by apply Z.leb_le.
  - apply Bool.eq_iff_eq_true. rewrite orb_true_iff, !Z.geb_leb, !Z.leb_le. lia.
Qed.

Lemma ready_deadline_witness :
  ready (push_all (coal_new (mkOptions 8 2 25)) [(mkEvent EvCreated (str "a") 0, 10)]) 12 = true.
Proof. rewrite ready_deadline; [reflexivity|vm_compute; congruence]. Defined.

(** After [repair_move_pairs], when some move of the batch carries a
    cookie, every move half left has a non-zero cookie and its other half is in
    the batch with the same cookie. *)
Theorem repair_pairs ops (op : PlannedOp) :
  halves ops ≠ ∅ → op ∈ repair_move_pairs ops → is_move (po_change op) = true →
  po_cookie op ≠ 0 ∧ ∃ op', op' ∈ repair_move_pairs ops ∧ po_cookie op' = po_cookie op
    ∧ is_move (po_change op') = true ∧ po_change op' ≠ po_change op.
Proof. exact (repair_paired ops op). Qed.

Lemma repair_pairs_witness :
  ∃ op', po_cookie op' = 7 ∧ po_change op' ≠ MovedFrom.
Proof.
  set (ops := [mkPlanned Remove (str "a") false MovedFrom 7; mkPlanned Upsert (str "b") true MovedTo 7]).
  destruct (repair_pairs ops (mkPlanned Remove (str "a") false MovedFrom 7)) as (_ & op' & _ & Hc & _ & Hn).
  - vm_compute. discriminate.
  - vm_compute. left.
  - reflexivity.
  - exists op'. split; [exact Hc|exact Hn].
Defined.

(** The repair does nothing when no move of the batch has a cookie, so an
    unpaired move leaves [take] as a move: against the documentation of
    [repair_move_pairs] ("a move that reaches them is always matched"). *)
Theorem repair_skips_zero_cookies :
  (take_batch (push (coal_new (mkOptions 8 2 25)) (mkEvent EvRenamedFrom (str "a") 0) 0)).2
  = [mkPlanned Remove (str "a") false MovedFrom 0]
  ∧ repair_move_pairs [mkPlanned Remove (str "a") false MovedFrom 0; mkPlanned Remove (str "b") false MovedFrom 9]
    = [mkPlanned Remove (str "a") false Removed 0; mkPlanned Remove (str "b") false Removed 0].
Proof. split; vm_compute; reflexivity. Qed.

(** A removed directory does not always drop what is pending below it: in
    path order a sibling such as "a-b" stands between "a" and "a/x", and ends
    the inner loop of [take] before the descendant is reached. *)
Theorem take_sibling_between :
  let run := λ evs, (take_batch (push_all (coal_new (mkOptions 8 2 25)) ((λ ev, (ev, 0)) <$> evs))).2 in
  po_path <$> run [mkEvent EvModified (str "a/x") 0; mkEvent EvRemoved (str "a") 0] = [str "a"]
  ∧ po_path <$> run [mkEvent EvModified (str "a/x") 0; mkEvent EvModified (str "a-b") 0; mkEvent EvRemoved (str "a") 0]
    = [str "a/x"; str "a-b"; str "a"].
Proof. split; vm_compute; reflexivity. Qed.
