(* ===== verification/Channel.v ===== *)
(** * Framed channel over a stream socket ([net/frame_channel.cpp], [net/socket.cpp])

    The receiving side of a socket is the list of fragments the kernel will
    deliver, in order, followed by the end of the stream; the sending side is
    what each [send] call accepts.  Fragmentation is arbitrary. *)

From S2P Require Import Prelude Types Wire Messages.

(** ** Socket *)

(** Outcome of one [::send]: bytes accepted, interrupted, or an error. *)
Inductive SendResult := Sent (n : nat) | Interrupted | SendError (e : Errc).

(** [send_all] against the outcomes the kernel will give: the result, what the
    peer was sent and the outcomes left.  [None]: the outcomes ran out, i.e. the
    call is still blocked. *)
Fixpoint send_all (kernel : list SendResult) (data : bytes) : option (Result unit * bytes * list SendResult) :=
  match data, kernel with
  | [], _ => Some (Ok (), [], kernel)
  | _, [] => None
  | _, Sent n :: kernel =>
      match send_all kernel (drop n data) with
      | Some (r, out, k) => Some (r, take n data ++ out, k)
      | None => None
      end
  | _, Interrupted :: kernel => send_all kernel data
  | _, SendError e :: kernel => Some (Err e, [], kernel)
  end.

(** [recv_some] on a buffer of [n > 0] bytes. *)
Definition recv_some (s : list bytes) (n : nat) : Result (bytes * list bytes) :=
  match s with
  | [] => Err ConnectionClosed
  | c :: s =>
      if (n <? length c)%nat then Ok (take n c, drop n c :: s) else Ok (c, s)
  end.

(** [recv_exact]: every call delivers a byte at least, so [n] rounds suffice. *)
Fixpoint recv_loop (fuel : nat) (s : list bytes) (n : nat) : Result (bytes * list bytes) :=
  match n, fuel with
  | O, _ => Ok ([], s)
  | _, O => Err IoError
  | _, S fuel =>
      match recv_some s n with
      | Err e => Err e
      | Ok (got, s) =>
          match recv_loop fuel s (n - length got) with
          | Err e => Err e
          | Ok (rest, s) => Ok (got ++ rest, s)
          end
      end
  end.
Definition recv_exact (s : list bytes) (n : nat) : Result (bytes * list bytes) := recv_loop n s n.

(** ** Channel *)
Record Stats := mkStats { frames_sent : Z; bytes_sent : Z; frames_received : Z; bytes_received : Z }.

Record FrameChannel := mkChan {
  ch_in : list bytes;      (* fragments still to be delivered *)
  ch_out : bytes;          (* everything handed to the socket so far *)
  ch_stats : Stats;
  max_payload_ : Z
}.

Definition chan_new (inp : list bytes) : FrameChannel := mkChan inp [] (mkStats 0 0 0 0) kMaxPayload.

Definition set_receive_limits (m : Z) (ch : FrameChannel) : FrameChannel :=
  mkChan (ch_in ch) (ch_out ch) (ch_stats ch) m.

(** The critical section of [send_raw] and [send]: [io] is the socket's answer. *)
Definition put_frames (ch : FrameChannel) (io : Result unit) (frames : bytes) : FrameChannel * Result unit :=
  match io with
  | Err e => (ch, Err e)
  | Ok _ =>
      let st := ch_stats ch in
      (mkChan (ch_in ch) (ch_out ch ++ frames)
         (mkStats (frames_sent st + 1) (bytes_sent st + zlen frames) (frames_received st) (bytes_received st))
         (max_payload_ ch), Ok ())
  end.

Definition send_raw (ch : FrameChannel) (io : Result unit) (frames : bytes) : FrameChannel * Result unit :=
  if zlen frames >? Z.of_nat kHeaderSize + kMaxPayload then (ch, Err TooLarge)
  else put_frames ch io frames.

Definition send (ch : FrameChannel) (io : Result unit) (t : MsgType.t) (request_id : Z) (payload : bytes) (flags : Z)
    : FrameChannel * Result unit :=
  if zlen payload >? kMaxPayload then (ch, Err TooLarge)
  else put_frames ch io (encode_header (mkHeader t flags (wrap 32 (zlen payload)) request_id) ++ payload).

(** [send_with]: the payload laid out by [write_frame], sent raw. *)
Definition send_with (ch : FrameChannel) (io : Result unit) (t : MsgType.t) (request_id : Z) (payload : bytes)
    : FrameChannel * Result unit :=
  send_raw ch io (write_frame t request_id payload 0).

Definition receive (ch : FrameChannel) : FrameChannel * Result (FrameHeader * bytes) :=
  match recv_exact (ch_in ch) kHeaderSize with
  | Err e => (ch, Err e)
  | Ok (hdr, s) =>
      let ch := mkChan s (ch_out ch) (ch_stats ch) (max_payload_ ch) in
      match decode_header hdr with
      | Err e => (ch, Err e)
      | Ok h =>
          if h_payload_len h >? max_payload_ ch then (ch, Err TooLarge)
          else
            match recv_exact s (Z.to_nat (h_payload_len h)) with
            | Err e => (ch, Err e)
            | Ok (payload, s) =>
                let st := ch_stats ch in
                (mkChan s (ch_out ch)
                   (mkStats (frames_sent st) (bytes_sent st) (frames_received st + 1)
                      (bytes_received st + Z.of_nat kHeaderSize + h_payload_len h))
                   (max_payload_ ch), Ok (h, payload))
            end
      end
  end.

(** [receive] until it fails, at most [n] frames. *)
Fixpoint receive_all (n : nat) (ch : FrameChannel) : list (FrameHeader * bytes) :=
  match n with
  | O => []
  | S n => match receive ch with (ch, Ok f) => f :: receive_all n ch | (_, Err _) => [] end
  end.

(** ** Lemmas *)

Definition fragments (s : list bytes) : Prop := Forall (λ c, c ≠ []) s.

Lemma recv_some_ok s n b s' : (0 < n)%nat → fragments s → recv_some s n = Ok (b, s') →
  concat s = b ++ concat s' ∧ (0 < length b <= n)%nat ∧ fragments s'.
Proof.
  intros Hn Hs. destruct Hs as [|c s Hc Hs]; [done|]. cbn [recv_some].
  assert (0 < length c)%nat by (destruct c; [done|simpl; lia]).
  destruct (Nat.ltb_spec n (length c)) as [Hl|Hl]; intros [= <- <-]; cbn [concat].
  - rewrite app_assoc, take_drop, length_take. split_and!; [done|lia|lia|].
    constructor; [|done]. intros He. apply (f_equal length) in He. rewrite length_drop in He. simpl in He. lia.
  - split_and!; [done|lia|lia|done].
Qed.

(** [recv_exact] reads the next [n] bytes of the stream however it is cut. *)
Lemma recv_loop_ok fuel s n : (n <= fuel)%nat → fragments s →
  if (length (concat s) <? n)%nat then recv_loop fuel s n = Err ConnectionClosed
  else ∃ s', recv_loop fuel s n = Ok (take n (concat s), s') ∧ concat s' = drop n (concat s) ∧ fragments s'.
Proof.
  revert s n. induction fuel as [|fuel IH]; intros s n Hn Hs.
  { assert (n = 0)%nat as -> by lia. simpl. by exists s. }
  destruct n as [|n]; [by exists s|]. cbn [recv_loop].
  destruct (recv_some s (S n)) as [[b s1]|e] eqn:E.
  - apply recv_some_ok in E as (Hc & Hb & Hs1); [|lia|done]. rewrite Hc.
    specialize (IH s1 (S n - length b)%nat ltac:(lia) Hs1). rewrite length_app.
    destruct (Nat.ltb_spec (length (concat s1)) (S n - length b)), (Nat.ltb_spec (length b + length (concat s1)) (S n)); try lia.
    + by rewrite IH.
    + destruct IH as (s2 & -> & Hs2 & Hf). exists s2. split_and!; [|rewrite Hs2, drop_app_ge by lia; done|done].
      rewrite take_app_ge by lia. done.
  - destruct Hs as [|c s Hc Hs]; cbn [recv_some] in E; [injection E as <-; done|].
    by destruct (_ <? _)%nat.
Qed.

Lemma recv_exact_ok s n : fragments s → (n <= length (concat s))%nat →
  ∃ s', recv_exact s n = Ok (take n (concat s), s') ∧ concat s' = drop n (concat s) ∧ fragments s'.
Proof.
  intros Hs Hn. pose proof (recv_loop_ok n s n ltac:(lia) Hs) as H.
  destruct (Nat.ltb_spec (length (concat s)) n); [lia|done].
Qed.

(** What a frame is on the wire. *)
Definition frame_bytes (f : FrameHeader * bytes) : bytes := encode_header f.1 ++ f.2.
Definition frame_ok (f : FrameHeader * bytes) : Prop := header_ok f.1 ∧ zlen f.2 = h_payload_len f.1.

Lemma receive_frame ch f rest : fragments (ch_in ch) → concat (ch_in ch) = frame_bytes f ++ rest →
  frame_ok f → h_payload_len f.1 <= max_payload_ ch →
  ∃ ch', receive ch = (ch', Ok f) ∧ concat (ch_in ch') = rest ∧ fragments (ch_in ch')
    ∧ max_payload_ ch' = max_payload_ ch ∧ ch_out ch' = ch_out ch.
Proof.
  intros Hs Hc [Hh Hl] Hm. unfold receive. destruct f as [h p]. cbn [fst snd] in *. unfold frame_bytes in Hc. cbn [fst snd] in Hc.
  destruct (recv_exact_ok (ch_in ch) kHeaderSize Hs) as (s1 & -> & H1 & Hs1).
  { rewrite Hc, !length_app, length_encode_header. lia. }
  rewrite Hc, <- app_assoc in H1 |- *.
  rewrite take_app_length' by (by rewrite length_encode_header).
  rewrite drop_app_length' in H1 by (by rewrite length_encode_header).
  rewrite <- (app_nil_r (encode_header h)), header_decodes by done. cbn [max_payload_].
  rewrite Z.gtb_ltb, (proj2 (Z.ltb_ge _ _)) by lia.
  assert (Z.to_nat (h_payload_len h) = length p) as -> by (rewrite <- Hl; unfold zlen; lia).
  destruct (recv_exact_ok s1 (length p) Hs1) as (s2 & -> & H2 & Hs2); [rewrite H1, length_app; lia|].
  rewrite H1, take_app_length in *. eexists. split; [done|]. cbn [ch_in max_payload_ ch_out].
  rewrite H2, drop_app_length. done.
Qed.

(** C30: frames survive the stream whole and in order.  However the kernel
    cuts the bytes of a sequence of valid frames into fragments, [receive]
    returns exactly those frames, then fails; and the fragmentation is invisible
    to it. *)
Theorem channel_stream fs s :
  fragments s → concat s = concat (frame_bytes <$> fs) → Forall frame_ok fs →
  receive_all (S (length fs)) (chan_new s) = fs.
Proof.
  intros Hs Hc Hok.
  assert (∀ ch, fragments (ch_in ch) → concat (ch_in ch) = concat (frame_bytes <$> fs) →
    max_payload_ ch = kMaxPayload → receive_all (S (length fs)) ch = fs) as Hgen; [|by apply Hgen].
  clear Hs Hc. induction Hok as [|f fs Hf _ IH]; intros ch Hs Hc Hm.
  - cbn [receive_all length]. unfold receive. pose proof (recv_loop_ok kHeaderSize (ch_in ch) kHeaderSize ltac:(lia) Hs) as H.
    rewrite Hc in H. change (recv_exact (ch_in ch) kHeaderSize = Err ConnectionClosed) in H. by rewrite H.
  - cbn [fmap list_fmap concat length] in *.
    destruct (receive_frame ch f _ Hs Hc Hf) as (ch' & Hr & Hc' & Hs' & Hm' & _).
    { rewrite Hm. apply Hf. }
    cbn [receive_all] in *. rewrite Hr. f_equal. apply IH; [done|done|congruence].
Qed.

Lemma channel_stream_witness :
  let f := (mkHeader MsgType.Ping 0 2 7, [1; 2]) in
  receive_all 2 (chan_new ((λ b, [b]) <$> frame_bytes f)) = [f].
Proof.
  intros f. apply (channel_stream [f]).
  - apply (bool_decide_unpack _); vm_compute; exact I.
  - reflexivity.
  - repeat constructor; vm_compute; intuition congruence.
Defined.

(** A peer cannot make the receiver reserve memory beyond the limit in
    force: a header that announces more than [max_payload_] is refused with
    TooLarge after the 24 header bytes, and nothing of what follows is read. *)
Theorem receive_limits ch h rest :
  fragments (ch_in ch) → concat (ch_in ch) = encode_header h ++ rest → header_ok h →
  max_payload_ ch < h_payload_len h →
  ∃ ch', receive ch = (ch', Err TooLarge) ∧ concat (ch_in ch') = rest.
Proof.
  intros Hs Hc Hh Hm. unfold receive.
  destruct (recv_exact_ok (ch_in ch) kHeaderSize Hs) as (s1 & -> & H1 & Hs1).
  { rewrite Hc, !length_app, length_encode_header. lia. }
  rewrite Hc in H1 |- *. rewrite take_app_length' by (by rewrite length_encode_header).
  rewrite drop_app_length' in H1 by (by rewrite length_encode_header).
  rewrite <- (app_nil_r (encode_header h)), header_decodes by done. cbn [max_payload_].
  rewrite Z.gtb_ltb, (proj2 (Z.ltb_lt _ _)) by lia. eexists. by split.
Qed.

(** A 64 MiB header before authentication, where the limit is 4096. *)
Lemma receive_limits_witness :
  (receive (set_receive_limits 4096 (chan_new [encode_header (mkHeader MsgType.Hello 0 kMaxPayload 1)]))).2 = Err TooLarge.
Proof.
  destruct (receive_limits (set_receive_limits 4096 (chan_new [encode_header (mkHeader MsgType.Hello 0 kMaxPayload 1)]))
    (mkHeader MsgType.Hello 0 kMaxPayload 1) []) as (ch' & H & _).
  - apply (bool_decide_unpack _); vm_compute; exact I.
  - reflexivity.
  - vm_compute; intuition congruence.
  - vm_compute; reflexivity.
  - rewrite H. reflexivity.
Defined.
