(* ===== verification/Resolve.v ===== *)
(** * Containment of peer-supplied paths ([agent/server.cpp])

    [is_contained_relative], the lexical [path_is_under] and [resolve].  A
    [std::filesystem::path] is a POSIX path string; [lexically_normal] and the
    iteration over its components are the standard's, on the list of components
    (a trailing separator, which [path_is_under] skips, is not represented). *)

From S2P Require Import Prelude Types Path.

(** ** std::filesystem::path on POSIX *)

(** The file names of a path, split at '/'. *)
Fixpoint split_slash (s : bytes) : list bytes :=
  match s with
  | [] => [[]]
  | c :: s =>
      if c =? c_slash then [] :: split_slash s
      else match split_slash s with [] => [[c]] | p :: ps => (c :: p) :: ps end
  end.

Definition filenames (s : bytes) : list bytes := filter (λ c, c ≠ []) (split_slash s).

Definition is_absolute (s : bytes) : bool := match s with c :: _ => c =? c_slash | [] => false end.

(** One step of lexical normalisation; the stack holds the result reversed. *)
Definition lexical_step (abs : bool) (stack : list bytes) (comp : bytes) : list bytes :=
  if bool_decide (comp = [c_dot]) then stack
  else if bool_decide (comp = [c_dot; c_dot]) then
    match stack with
    | top :: rest => if bool_decide (top = [c_dot; c_dot]) then comp :: stack else rest
    | [] => if abs then [] else [comp]
    end
  else comp :: stack.

(** The components [lexically_normal().begin() .. end()] iterates over. *)
Definition lexical_comps (s : bytes) : list bytes :=
  let abs := is_absolute s in
  let cs := reverse (foldl (lexical_step abs) [] (filenames s)) in
  if abs then [c_slash] :: cs
  else if bool_decide (cs = []) then (if bool_decide (s = []) then [] else [[c_dot]]) else cs.

(** [root / rel] ([operator/]): an absolute right side replaces the left. *)
Definition join_relative (root rel : bytes) : bytes :=
  if is_absolute rel then rel
  else
    match last root with
    | None => rel
    | Some c => if c =? c_slash then root ++ rel else root ++ [c_slash] ++ rel
    end.

(** [path_is_under(root, p)] of the server, on filesystem paths. *)
Definition fs_path_is_under (root p : bytes) : bool :=
  let r := lexical_comps root in
  let q := lexical_comps p in
  bool_decide (take (length r) q = r).

(** ** Requests *)
Definition kReserved : list bytes :=
  str <$> ["CON"; "PRN"; "AUX"; "NUL"; "COM1"; "COM2"; "COM3"; "COM4"; "COM5"; "COM6"; "COM7"; "COM8"; "COM9";
           "LPT1"; "LPT2"; "LPT3"; "LPT4"; "LPT5"; "LPT6"; "LPT7"; "LPT8"; "LPT9"]%string.

Definition toupper (c : byte) : byte := if (97 <=? c) && (c <=? 122) then c - 32 else c.

Fixpoint drop_dots_spaces (s : bytes) : bytes :=
  match s with c :: r => if (c =? 32) || (c =? c_dot) then drop_dots_spaces r else s | [] => [] end.

(** [trimmed.substr(0, trimmed.find('.'))] *)
Fixpoint until_dot (s : bytes) : bytes :=
  match s with c :: r => if c =? c_dot then [] else c :: until_dot r | [] => [] end.

Definition device_name (comp : bytes) : bool :=
  let trimmed := reverse (drop_dots_spaces (reverse comp)) in
  bool_decide (toupper <$> until_dot trimmed ∈ kReserved).

Definition comp_contained (windows : bool) (comp : bytes) : bool :=
  negb (bool_decide (comp = [c_dot; c_dot])) && negb (existsb (Z.eqb 58) comp)
  && negb (windows && device_name comp).

(** The loop visits the pieces between '/', the last one included; [windows]
    is the platform conditional. *)
Definition is_contained_relative (windows : bool) (norm : bytes) : bool :=
  if bool_decide (norm = []) then true else forallb (comp_contained windows) (split_slash norm).

Definition resolve (windows : bool) (root rel : bytes) : Result bytes :=
  let norm := normalize_path rel in
  if negb (is_contained_relative windows norm) then Err InvalidPath
  else
    let full := join_relative root norm in
    if negb (fs_path_is_under root full) then Err InvalidPath else Ok full.

(** ** Lemmas *)

Lemma split_slash_app a b : Forall (λ c, c ≠ c_slash) a → split_slash (a ++ c_slash :: b) = a :: split_slash b.
Proof.
  induction 1 as [|c a Hc _ IH]; cbn [app split_slash]; [done|].
  rewrite (proj2 (Z.eqb_neq _ _) Hc), IH. done.
Qed.

Lemma split_slash_one a : Forall (λ c, c ≠ c_slash) a → split_slash a = [a].
Proof. induction 1 as [|c a Hc _ IH]; cbn [split_slash]; [done|]. by rewrite (proj2 (Z.eqb_neq _ _) Hc), IH. Qed.

Lemma comp_no_slash c : comp_ok c → Forall (λ b, b ≠ c_slash) c.
Proof.
  intros [_ H]. eapply Forall_impl; [exact H|]. intros b Hb ->. done.
Qed.

Lemma split_slash_join cs : Forall comp_ok cs → cs ≠ [] → split_slash (join cs) = cs.
Proof.
  induction 1 as [|c cs Hc Hcs IH]; [done|]. intros _. destruct cs as [|d cs].
  - cbn [join]. by apply split_slash_one, comp_no_slash.
  - change (join (c :: d :: cs)) with (c ++ c_slash :: join (d :: cs)).
    rewrite split_slash_app by by apply comp_no_slash. by rewrite IH.
Qed.

Lemma split_slash_nonnil s : split_slash s ≠ [].
Proof. destruct s; cbn [split_slash]; [done|]. case_match; [done|]. by destruct (split_slash s). Qed.

Lemma split_slash_append a b : split_slash (a ++ c_slash :: b) = split_slash a ++ split_slash b.
Proof.
  induction a as [|c a IH]; cbn [app split_slash]; [done|]. rewrite IH. destruct (c =? c_slash); [done|].
  by destruct (split_slash a) eqn:E; [apply split_slash_nonnil in E|].
Qed.

Lemma filenames_join cs : Forall comp_ok cs → filenames (join cs) = cs.
Proof.
  intros H. unfold filenames. destruct (decide (cs = [])) as [->|Hn]; [done|].
  rewrite split_slash_join by done. apply filter_all. eapply Forall_impl; [exact H|].
  intros c [Hs _]. by apply skipped_nil.
Qed.

(** Joining a relative normalised path appends its components. *)
Lemma filenames_join_relative root cs : Forall comp_ok cs →
  filenames (join_relative root (join cs)) = filenames root ++ cs.
Proof.
  intros H. assert (is_absolute (join cs) = false) as Ha.
  { destruct H as [|c cs Hc Hcs]; [done|]. pose proof (skipped_nil _ (proj1 Hc)).
    pose proof (comp_no_slash _ Hc) as Hn. destruct c as [|b c]; [done|].
    inversion Hn; subst. by destruct cs; cbn; apply Z.eqb_neq. }
  unfold join_relative. rewrite Ha. destruct (last root) as [c|] eqn:El.
  - apply last_Some in El as [r ->]. destruct (Z.eqb_spec c c_slash) as [->|Hc].
    + rewrite <- app_assoc. cbn [app]. unfold filenames. rewrite !split_slash_append, !filter_app.
      fold (filenames (join cs)). rewrite filenames_join by done. cbn. by rewrite app_nil_r.
    + cbn [app]. unfold filenames. rewrite split_slash_append, filter_app. fold (filenames (join cs)).
      by rewrite filenames_join.
  - apply last_None in El as ->. by rewrite filenames_join.
Qed.

Lemma is_absolute_join root rel : root ≠ [] → is_absolute rel = false →
  is_absolute (join_relative root rel) = is_absolute root.
Proof.
  intros Hr Ha. unfold join_relative. rewrite Ha. destruct root as [|c root]; [done|].
  destruct (last (c :: root)) as [x|] eqn:E; [|by apply last_None in E]. by destruct (x =? c_slash).
Qed.

Lemma lexical_step_plain abs stack cs : Forall comp_ok cs → Forall (λ c, c ≠ [c_dot; c_dot]) cs →
  foldl (lexical_step abs) stack cs = reverse cs ++ stack.
Proof.
  intros H Hd. revert stack. induction H as [|c cs Hc _ IH]; intros stack; [done|].
  inversion Hd; subst. cbn [foldl]. rewrite IH by done. unfold lexical_step.
  destruct Hc as [Hs _]. unfold skipped in Hs. apply orb_false_iff in Hs as [_ Hs]. rewrite Hs.
  rewrite bool_decide_eq_false_2 by done. by rewrite reverse_cons, <- app_assoc.
Qed.

(** A root the lexical check can compare against: not a spelling of ".". *)
Definition root_ok (root : bytes) : Prop :=
  root ≠ [] ∧ (is_absolute root = true ∨ foldl (lexical_step false) [] (filenames root) ≠ []).

Lemma lexical_comps_join root cs : root_ok root → Forall comp_ok cs → Forall (λ c, c ≠ [c_dot; c_dot]) cs →
  lexical_comps (join_relative root (join cs)) = lexical_comps root ++ cs.
Proof.
  intros [Hr Hroot] H Hd. unfold lexical_comps.
  assert (is_absolute (join cs) = false) as Ha.
  { destruct H as [|c cs Hc Hcs]; [done|]. pose proof (skipped_nil _ (proj1 Hc)).
    pose proof (comp_no_slash _ Hc) as Hn. destruct c as [|b c]; [done|].
    inversion Hn; subst. by destruct cs; cbn; apply Z.eqb_neq. }
  rewrite is_absolute_join, filenames_join_relative, foldl_app, lexical_step_plain by done.
  rewrite reverse_app, reverse_involutive. destruct (is_absolute root) eqn:Eabs; [done|].
  destruct Hroot as [?|Hne]; [done|].
  rewrite bool_decide_eq_false_2; [|intros [He _]%app_nil; by rewrite <- reverse_nil in He; apply (inj reverse) in He].
  rewrite bool_decide_eq_false_2; [done|]. intros He. rewrite <- reverse_nil in He. by apply (inj reverse) in He.
Qed.

Lemma contained_comps windows cs : Forall comp_ok cs →
  is_contained_relative windows (join cs) = forallb (comp_contained windows) cs.
Proof.
  intros H. unfold is_contained_relative. destruct (decide (cs = [])) as [->|Hn]; [done|].
  rewrite bool_decide_eq_false_2.
  - by rewrite split_slash_join.
  - intros He. apply (f_equal components) in He. rewrite components_join in He by done. done.
Qed.

Lemma resolve_spec windows root rel : root_ok root →
  resolve windows root rel =
    if forallb (comp_contained windows) (components rel)
    then Ok (join_relative root (normalize_path rel)) else Err InvalidPath.
Proof.
  intros Hroot. unfold resolve. rewrite normalize_path_eq. pose proof (components_ok rel) as Hok.
  rewrite contained_comps by done. destruct (forallb _ _) eqn:E; [|done]. cbn [negb].
  unfold fs_path_is_under. rewrite lexical_comps_join; [|done|done|].
  - rewrite take_app_length, bool_decide_eq_true_2 by done. done.
  - apply Forall_forall. intros c Hc ->. rewrite forallb_forall in E.
    specialize (E [c_dot; c_dot]). rewrite <- list_elem_of_In in E. by apply E in Hc.
Qed.

(** A path is served only inside the root.  For any root but a spelling of
    ".", [resolve] accepts a request exactly when none of its components is ".."
    or holds a ':' (nor, on Windows, names a device), and then what it returns
    is, after lexical normalisation, the root's components followed by the
    request's. *)
Theorem resolve_contained windows root rel :
  root_ok root →
  match resolve windows root rel with
  | Ok full => forallb (comp_contained windows) (components rel) = true
               ∧ full = join_relative root (normalize_path rel)
               ∧ lexical_comps full = lexical_comps root ++ components rel
  | Err e => e = InvalidPath ∧ forallb (comp_contained windows) (components rel) = false
  end.
Proof.
  intros Hroot. rewrite resolve_spec by done. destruct (forallb _ _) eqn:E; [|done].
  split_and!; [done..|]. rewrite normalize_path_eq. apply lexical_comps_join; [done|apply components_ok|].
  apply Forall_forall. intros c Hc ->. rewrite forallb_forall in E.
  specialize (E [c_dot; c_dot]). rewrite <- list_elem_of_In in E. by apply E in Hc.
Qed.

Lemma resolve_contained_witness :
  resolve false (str "/srv/data") (str "a\\b/./c") = Ok (str "/srv/data/a/b/c")
  ∧ lexical_comps (str "/srv/data/a/b/c") = lexical_comps (str "/srv/data") ++ [str "a"; str "b"; str "c"]
  ∧ resolve false (str "/srv/data") (str "../etc/passwd") = Err InvalidPath.
Proof.
  assert (root_ok (str "/srv/data")) as H by (split; [discriminate|left; reflexivity]).
  split_and!; [vm_compute; reflexivity| |vm_compute; reflexivity].
  exact (proj2 (proj2 (resolve_contained false (str "/srv/data") (str "a\\b/./c") H))).
Defined.

(** A server started with [--root .] refuses every path: "." normalises to
    itself, while "./a" normalises to "a", which the re-check against the root
    rejects. *)
Theorem resolve_dot_root windows name :
  comp_ok name → resolve windows [c_dot] name = Err InvalidPath.
Proof.
  intros Hc. unfold resolve.
  assert (normalize_path name = name) as -> by (apply normalized_id; exists [name]; split; [by constructor|done]).
  destruct (negb (is_contained_relative windows name)) eqn:E; [done|].
  assert (lexical_comps (join_relative [c_dot] name) = [name]) as Hl; [|].
  { assert (name ≠ [c_dot; c_dot]) as Hd.
    { intros ->. b2p. pose proof (contained_comps windows [[c_dot; c_dot]] ltac:(by constructor)) as Hcc.
      cbn [join] in Hcc. by rewrite Hcc in E. }
    pose proof (filenames_join_relative [c_dot] [name] ltac:(by constructor)) as Hf. cbn [join] in Hf.
    unfold lexical_comps. rewrite Hf. pose proof (skipped_nil _ (proj1 Hc)) as Hn.
    pose proof (comp_no_slash _ Hc) as Hs. destruct name as [|b name]; [done|]. inversion Hs; subst.
    assert (is_absolute (join_relative [c_dot] (b :: name)) = false) as ->.
    { rewrite is_absolute_join; [done|done|]. by apply Z.eqb_neq. }
    assert (filenames [c_dot] = [[c_dot]]) as -> by done.
    rewrite foldl_app, (lexical_step_plain false _ [b :: name]); [|by constructor|by constructor].
    done. }
  unfold fs_path_is_under. rewrite Hl. assert (lexical_comps [c_dot] = [[c_dot]]) as -> by done.
  cbn [length take]. rewrite bool_decide_eq_false_2; [done|]. intros [= He].
  destruct Hc as [Hsk _]. by rewrite He in Hsk.
Qed.

Lemma resolve_dot_root_witness : resolve false (str ".") (str "a.txt") = Err InvalidPath.
Proof. apply resolve_dot_root. split; [reflexivity|apply (bool_decide_unpack _); vm_compute; exact I]. Defined.
