(* ===== verification/FileSystem.v ===== *)
(** * The filesystem under the served root

    What the agent calls of [std::filesystem] and [stdio], as a class of
    operations on an abstract state: the operating system is not part of the
    program, so its answers are parameters of every definition that uses them. *)

From S2P Require Import Prelude Types.

(** The [std::errc] conditions [map_fs_error] tells apart. *)
Inductive FsErr :=
| no_such_file_or_directory | file_exists | not_a_directory | is_a_directory
| directory_not_empty | invalid_argument | other_error.

#[global] Instance FsErr_eq_dec : EqDecision FsErr.
Proof. solve_decision. Defined.

Inductive FileType := FtDirectory | FtRegular | FtSymlink | FtOther.

(** What [symlink_status], [file_size], [read_symlink] and [last_write_time]
    say of an entry; [None] where the call fails. *)
Record RawStat := mkStat {
  rs_type : FileType;
  rs_perms : Z;
  rs_size : option Z;
  rs_link : option bytes;
  rs_mtime : option Z
}.

(** [fopen] modes: "rb", "wb", "r+b", "w+b". *)
Inductive Mode := ModeR | ModeW | ModeRP | ModeWP.

Class FileSystem (F : Type) := {
  fs_lstat : F → bytes → option RawStat;
  fs_is_directory : F → bytes → bool;
  fs_list : F → bytes → option (list bytes);
  fs_device : F → bytes → option Z;
  fs_file_size : F → bytes → result FsErr Z;
  fs_read_symlink : F → bytes → result FsErr bytes;
  fs_open : F → bytes → Mode → F * option FsErr;     (* [None]: opened *)
  fs_seek : F → bytes → Z → bool;
  fs_fread : F → bytes → Z → Z → bytes;
  fs_fwrite : F → bytes → Z → bytes → F * Z;
  fs_resize : F → bytes → Z → F * option FsErr;
  fs_create_directory : F → bytes → F * result FsErr bool;
  fs_remove : F → bytes → F * result FsErr bool;
  fs_rename : F → bytes → bytes → F * option FsErr
}.

Definition map_fs_error (e : FsErr) : Errc :=
  match e with
  | no_such_file_or_directory => NotFound
  | file_exists => AlreadyExists
  | not_a_directory => NotADirectory
  | is_a_directory => IsADirectory
  | directory_not_empty => AlreadyExists
  | invalid_argument => InvalidArgument
  | other_error => IoError
  end.

(** ** An in-memory instance

    A filesystem small enough to run the agent on in examples: absolute paths
    to directories, files and links, on one device. *)
Inductive MemNode := MDir | MFile (data : bytes) | MLink (target : bytes).

#[global] Instance MemNode_eq_dec : EqDecision MemNode.
Proof. solve_decision. Defined.

Abbreviation MemFs := (gmap bytes MemNode).

Definition mem_key (p : bytes) : bytes :=
  match last p with Some 47 => take (length p - 1) p | _ => p end.

(** The name of an entry directly inside [dir]. *)
Definition mem_child (dir p : bytes) : option bytes :=
  if bool_decide (take (length dir + 1) p = dir ++ [47]) then
    let n := drop (length dir + 1) p in
    if bool_decide (n = []) || existsb (Z.eqb 47) n then None else Some n
  else None.

Definition mem_stat (n : MemNode) : RawStat :=
  match n with
  | MDir => mkStat FtDirectory 493 None None (Some 0)
  | MFile d => mkStat FtRegular 420 (Some (zlen d)) None (Some 0)
  | MLink t => mkStat FtSymlink 511 None (Some t) (Some 0)
  end.

(** [data] written at [off], the gap filled with zeros. *)
Definition patch (old : bytes) (off : nat) (data : bytes) : bytes :=
  take off (old ++ replicate (off - length old) 0) ++ data ++ drop (off + length data) old.

(** At [p] or below it. *)
Definition mem_inside (p x : bytes) : bool := bool_decide (x = p) || bool_decide (take (length p + 1) x = p ++ [47]).

(** What is at or below [p] goes to [q]; what was there is gone. *)
Definition mem_move (p q : bytes) (m : MemFs) : MemFs :=
  list_to_map ((λ xn, (q ++ drop (length p) xn.1, xn.2)) <$> filter (λ xn, mem_inside p xn.1 = true) (map_to_list m))
  ∪ filter (λ xn, mem_inside p xn.1 = false ∧ mem_inside q xn.1 = false) m.

#[global] Instance mem_fs : FileSystem MemFs := {|
  fs_lstat m p := mem_stat <$> m !! mem_key p;
  fs_is_directory m p := bool_decide (m !! mem_key p = Some MDir);
  fs_list m p :=
    match m !! mem_key p with
    | Some MDir => Some (omap (mem_child (mem_key p)) (map_to_list m).*1)
    | _ => None
    end;
  fs_device m p := Some 1;
  fs_file_size m p :=
    match m !! mem_key p with
    | Some (MFile d) => Ok (zlen d) | Some _ => Err is_a_directory | None => Err no_such_file_or_directory
    end;
  fs_read_symlink m p :=
    match m !! mem_key p with
    | Some (MLink t) => Ok t | Some _ => Err invalid_argument | None => Err no_such_file_or_directory
    end;
  fs_open m p mode :=
    match m !! mem_key p, mode with
    | Some (MFile _), (ModeR | ModeRP) => (m, None)
    | Some (MFile _), _ => (<[mem_key p := MFile []]> m, None)
    | Some _, _ => (m, Some is_a_directory)
    | None, (ModeR | ModeRP) => (m, Some no_such_file_or_directory)
    | None, _ => (<[mem_key p := MFile []]> m, None)
    end;
  fs_seek m p off := true;
  fs_fread m p off len :=
    match m !! mem_key p with Some (MFile d) => take (Z.to_nat len) (drop (Z.to_nat off) d) | _ => [] end;
  fs_fwrite m p off data :=
    match m !! mem_key p with
    | Some (MFile d) => (<[mem_key p := MFile (patch d (Z.to_nat off) data)]> m, zlen data)
    | _ => (m, 0)
    end;
  fs_resize m p n :=
    match m !! mem_key p with
    | Some (MFile d) =>
        (<[mem_key p := MFile (take (Z.to_nat n) (d ++ replicate (Z.to_nat n - length d) 0))]> m, None)
    | Some _ => (m, Some is_a_directory)
    | None => (m, Some no_such_file_or_directory)
    end;
  fs_create_directory m p :=
    match m !! mem_key p with
    | Some MDir => (m, Ok false) | Some _ => (m, Err file_exists) | None => (<[mem_key p := MDir]> m, Ok true)
    end;
  fs_remove m p :=
    match m !! mem_key p with
    | None => (m, Ok false)
    | Some MDir =>
        if bool_decide (omap (mem_child (mem_key p)) (map_to_list m).*1 = []) then (delete (mem_key p) m, Ok true)
        else (m, Err directory_not_empty)
    | Some _ => (delete (mem_key p) m, Ok true)
    end;
  fs_rename m p q :=
    let p := mem_key p in
    let q := mem_key q in
    match m !! p with
    | None => (m, Some no_such_file_or_directory)
    | Some n =>
        if bool_decide (p = q) then (m, None)
        else if mem_inside p q then (m, Some invalid_argument)
        else
          match n, m !! q with
          | MDir, Some MDir => if bool_decide (omap (mem_child q) (map_to_list m).*1 = []) then (mem_move p q m, None) else (m, Some directory_not_empty)
          | MDir, Some _ => (m, Some not_a_directory)
          | _, Some MDir => (m, Some is_a_directory)
          | _, _ => (mem_move p q m, None)
          end
    end
|}.

Definition mem_demo : MemFs :=
  list_to_map [(str "/r", MDir); (str "/r/a.txt", MFile (str "hello")); (str "/r/d", MDir);
               (str "/r/d/b", MFile []); (str "/r/l", MLink (str "a.txt"))].
