(* ===== verification/Scanner.v ===== *)
(** * The scanner ([agent/scanner.cpp])

    Attributes of an entry and the breadth-first walk that produces snapshots. *)

From S2P Require Import Prelude Types FileSystem Resolve.

Definition kind_of_type (t : FileType) : NodeKind :=
  match t with FtDirectory => Directory | FtRegular => File | FtSymlink => Symlink | FtOther => Other end.

(** [attributes_from] (POSIX): a failed size, link or time reads as 0. *)
Definition attributes_from (st : RawStat) : Attributes :=
  let kind := kind_of_type (rs_type st) in
  let size :=
    match kind with
    | File => default 0 (rs_size st)
    | Symlink => match rs_link st with Some t => zlen t | None => 0 end
    | _ => 0
    end in
  mkAttr size (default 0 (rs_mtime st)) (Z.land (rs_perms st) 0xFFF) kind.

Definition is_directory_kind (k : NodeKind) : bool := match k with Directory => true | _ => false end.

Record ScanStats := mkScan { files : Z; directories : Z; symlinks : Z; skipped_ : Z }.

Record Pending := mkPending { p_path : bytes; p_rel : bytes; p_index : Z }.

Section scanner.
Context {F : Type} `{FileSystem F}.

Definition read_attributes (fs : F) (p : bytes) : Result Attributes :=
  match fs_lstat fs p with None => Err NotFound | Some st => Ok (attributes_from st) end.

(** The state of the walk: entries emitted so far (in order), directories
    queued, the next index, the counters. *)
Record Walk := mkWalk { w_out : list SnapshotEntry; w_queue : list Pending; w_next : Z; w_stats : ScanStats }.

Definition count_skip (s : ScanStats) : ScanStats := mkScan (files s) (directories s) (symlinks s) (skipped_ s + 1).

(** One directory entry. *)
Definition scan_entry (fs : F) (skip : bytes → bool → bool) (root_dev : option Z) (dir : Pending) (w : Walk) (name : bytes) : Walk :=
  let path := join_relative (p_path dir) name in
  let skipped := mkWalk (w_out w) (w_queue w) (w_next w) (count_skip (w_stats w)) in
  match fs_lstat fs path with
  | None => skipped
  | Some st =>
      let a := attributes_from st in
      match a_kind a with
      | Other => skipped
      | k =>
          let rel := if bool_decide (p_rel dir = []) then name else p_rel dir ++ Path.c_slash :: name in
          if skip rel (is_directory_kind k) then skipped
          else
            let out := w_out w ++ [mkSnap (p_index dir) name a] in
            let next := wrap 32 (w_next w + 1) in
            let s := w_stats w in
            match k with
            | Directory =>
                let s := mkScan (files s) (directories s + 1) (symlinks s) (skipped_ s) in
                let foreign :=
                  match root_dev, fs_device fs path with
                  | Some r, Some d => negb (d =? r)
                  | _, _ => false
                  end in
                if foreign then mkWalk out (w_queue w) next (count_skip s)
                else mkWalk out (w_queue w ++ [mkPending path rel (w_next w)]) next s
            | File => mkWalk out (w_queue w) next (mkScan (files s + 1) (directories s) (symlinks s) (skipped_ s))
            | _ => mkWalk out (w_queue w) next (mkScan (files s) (directories s) (symlinks s + 1) (skipped_ s))
            end
      end
  end.

(** The queue loop; [fuel] bounds the directories visited, and the walk that
    comes back has an empty queue when it was enough. *)
Fixpoint scan_loop (fuel : nat) (fs : F) (skip : bytes → bool → bool) (root_dev : option Z) (w : Walk) : Walk :=
  match fuel, w_queue w with
  | S fuel, dir :: queue =>
      let w := mkWalk (w_out w) queue (w_next w) (w_stats w) in
      match fs_list fs (p_path dir) with
      | None => scan_loop fuel fs skip root_dev (mkWalk (w_out w) (w_queue w) (w_next w) (count_skip (w_stats w)))
      | Some names => scan_loop fuel fs skip root_dev (foldl (scan_entry fs skip root_dev dir) w names)
      end
  | _, _ => w
  end.

Definition scan_tree (fuel : nat) (fs : F) (root : bytes) (skip : bytes → bool → bool) (one_file_system : bool)
    : Result Walk :=
  if negb (fs_is_directory fs root) then Err NotADirectory
  else
    let root_dev := if one_file_system then fs_device fs root else None in
    Ok (scan_loop fuel fs skip root_dev (mkWalk [] [mkPending root [] 0] 1 (mkScan 0 0 0 0))).

(** ** Invariant of the walk *)

(** Indices: [next_index] counts the entries emitted at its 32 bits, every
    queued directory is one of them (or the root), and every entry's parent
    precedes it, even if the count wraps. *)
Definition walk_inv (w : Walk) : Prop :=
  w_next w = wrap 32 (zlen (w_out w) + 1)
  ∧ Forall (λ d, 0 <= p_index d <= zlen (w_out w)) (w_queue w)
  ∧ (∀ (k : nat) e, w_out w !! k = Some e → 0 <= se_parent e <= Z.of_nat k).

Lemma wrap32_succ v : wrap 32 (wrap 32 v + 1) = wrap 32 (v + 1).
Proof. unfold wrap. apply Zplus_mod_idemp_l. Qed.

Lemma scan_entry_inv fs skip dev dir w name :
  walk_inv w → 0 <= p_index dir <= zlen (w_out w) →
  walk_inv (scan_entry fs skip dev dir w name) ∧ zlen (w_out w) <= zlen (w_out (scan_entry fs skip dev dir w name)).
Proof.
  intros (Hn & Hq & Hp) Hd. unfold scan_entry. case_match; [|by split; [|simpl; lia]].
  set (a := attributes_from _). set (rel := if bool_decide _ then _ else _). pose proof (zlen_nonneg (w_out w)) as Hpos.
  assert (∀ x : SnapshotEntry, zlen (w_out w ++ [x]) = zlen (w_out w) + 1) as Hz by (intros; by rewrite zlen_app).
  assert (∀ s q, Forall (λ d, 0 <= p_index d <= zlen (w_out w) + 1) q →
    walk_inv (mkWalk (w_out w ++ [mkSnap (p_index dir) name a]) q (wrap 32 (w_next w + 1)) s)) as Hadd.
  { intros s q Hq'. unfold walk_inv. cbn [w_next w_out w_queue]. rewrite Hz. split_and!.
    - by rewrite Hn, wrap32_succ.
    - done.
    - intros k e [Hk|[Hk1 Hk2]]%lookup_app_Some; [by eapply Hp|].
      apply list_lookup_singleton_Some in Hk2 as [? <-]. cbn [se_parent]. unfold zlen in Hd. lia. }
  assert (Forall (λ d, 0 <= p_index d <= zlen (w_out w) + 1) (w_queue w)) as Hq1.
  { eapply Forall_impl; [exact Hq|]. simpl. lia. }
  assert (∀ rel path, Forall (λ d, 0 <= p_index d <= zlen (w_out w) + 1) (w_queue w ++ [mkPending path rel (w_next w)])) as Hq2.
  { intros. apply Forall_app. split; [done|]. repeat constructor; cbn [p_index]; rewrite Hn; unfold wrap.
    - apply Z.mod_pos_bound. lia.
    - apply Z.mod_le; lia. }
  repeat case_match; (split; [|cbn [w_out]; rewrite ?Hz; lia]); try (apply Hadd; done); by split_and!.
Qed.

Lemma scan_names_inv fs skip dev dir names w :
  walk_inv w → 0 <= p_index dir <= zlen (w_out w) →
  walk_inv (foldl (scan_entry fs skip dev dir) w names).
Proof.
  revert w. induction names as [|n names IH]; intros w Hw Hd; [done|]. cbn [foldl].
  destruct (scan_entry_inv fs skip dev dir w n Hw Hd). apply IH; [done|lia].
Qed.

Lemma scan_loop_inv fuel fs skip dev w : walk_inv w → walk_inv (scan_loop fuel fs skip dev w).
Proof.
  revert w. induction fuel as [|fuel IH]; intros w Hw; [done|]. cbn [scan_loop].
  destruct (w_queue w) as [|dir q] eqn:Eq; [done|]. pose proof Hw as (Hn & Hq & Hp). rewrite Eq in Hq.
  inversion Hq; subst. assert (walk_inv (mkWalk (w_out w) q (w_next w) (w_stats w))) as Hw' by by split_and!.
  case_match; apply IH; [by apply scan_names_inv|done].
Qed.

Lemma walk_start_inv root : walk_inv (mkWalk [] [mkPending root [] 0] 1 (mkScan 0 0 0 0)).
Proof. split_and!; [reflexivity| |intros k e Hk; apply lookup_lt_Some in Hk; cbn in Hk; lia]. apply Forall_singleton. cbn. unfold zlen. cbn. lia. Qed.

(** The entries of a walk are numbered as [load_snapshot] expects: every
    entry's parent is the root or an entry emitted before it. *)
Theorem scan_parents_precede fuel fs root skip one_fs w (k : nat) e :
  scan_tree fuel fs root skip one_fs = Ok w → w_out w !! k = Some e →
  0 <= se_parent e <= Z.of_nat k.
Proof.
  unfold scan_tree. case_match; [done|]. intros [= <-]. apply scan_loop_inv, walk_start_inv.
Qed.
End scanner.

Lemma scan_parents_precede_witness :
  ∃ w e, scan_tree 10 mem_demo (str "/r") (λ _ _, false) true = Ok w
    ∧ w_out w !! 3%nat = Some e ∧ se_name e = str "b" ∧ 0 <= se_parent e <= 3.
Proof.
  eexists _, _. do 3 (split; [vm_compute; reflexivity|]).
  eapply (scan_parents_precede 10 mem_demo (str "/r") (λ _ _, false) true _ 3); vm_compute; reflexivity.
Defined.
