(* ===== verification/Watcher.v ===== *)
(** * Directory watchers ([platform/linux/dir_watcher.cpp], [platform/win/dir_watcher.cpp])

    Linux: the table of inotify watches and the translation of kernel events to
    [FsEvent]s.  The kernel (watches, directory listings, devices) is a class of
    operations on an abstract state.  Windows: the records of a
    [ReadDirectoryChangesW] buffer and the cookies that pair the two halves of a
    rename.  A callback is an element of the list of events returned. *)

From S2P Require Import Prelude Types Path Wire Coalescer Resolve.

(** ** inotify *)

Definition IN_MODIFY : Z := 0x2.
Definition IN_ATTRIB : Z := 0x4.
Definition IN_CLOSE_WRITE : Z := 0x8.
Definition IN_MOVED_FROM : Z := 0x40.
Definition IN_MOVED_TO : Z := 0x80.
Definition IN_CREATE : Z := 0x100.
Definition IN_DELETE : Z := 0x200.
Definition IN_DELETE_SELF : Z := 0x400.
Definition IN_MOVE_SELF : Z := 0x800.
Definition IN_Q_OVERFLOW : Z := 0x4000.
Definition IN_ISDIR : Z := 0x40000000.

(** [inotify_event]; [in_name] is the name up to its terminating NUL. *)
Record InEvent := mkIn { in_wd : Z; in_mask : Z; in_cookie : Z; in_len : Z; in_name : bytes }.

(** [mask & bits]. *)
Definition has (ev : InEvent) (bits : Z) : bool := negb (Z.land (in_mask ev) bits =? 0).

Record DirEnt := mkEnt { de_name : bytes; de_is_directory : bool; de_is_symlink : bool }.

(** The system calls; [None] and 0 where they fail, [\[\]] for a directory that
    cannot be listed. *)
Class Inotify (K : Type) := {
  inotify_add_watch : K → bytes → K * option Z;
  inotify_rm_watch : K → Z → K;
  directory_entries : K → bytes → list DirEnt;
  device_of : K → bytes → Z
}.

Definition join_rel (dir name : bytes) : bytes := if bool_decide (dir = []) then name else dir ++ c_slash :: name.

(** The test of [drop_watch_subtree] on a directory of the table. *)
Definition watch_under (rel dir : bytes) : bool :=
  bool_decide (dir = rel)
  || ((length rel <? length dir)%nat && bool_decide (take (length rel) dir = rel) && (dir !!! length rel =? c_slash)).

Section linux.
Context {K : Type} `{Inotify K}.

Record Watches := mkWatches { kernel : K; wd_to_dir : gmap Z bytes; dir_to_wd : gmap bytes Z }.

(** [fuel] bounds the depth of the directories. *)
Fixpoint add_watch_recursive (fuel : nat) (root_dev : Z) (abs rel : bytes) (w : Watches) : Watches :=
  match fuel with
  | O => w
  | S fuel =>
      match inotify_add_watch (kernel w) abs with
      | (k, None) => mkWatches k (wd_to_dir w) (dir_to_wd w)
      | (k, Some wd) =>
          let w := mkWatches k (<[wd := rel]> (wd_to_dir w)) (<[rel := wd]> (dir_to_wd w)) in
          foldl (λ w e,
            if negb (de_is_directory e) || de_is_symlink e then w
            else if negb (root_dev =? 0) && negb (device_of (kernel w) (join_relative abs (de_name e)) =? root_dev) then w
            else add_watch_recursive fuel root_dev (join_relative abs (de_name e)) (join_rel rel (de_name e)) w)
            w (directory_entries k abs)
      end
  end.

Definition drop_watch_subtree (rel : bytes) (w : Watches) : Watches :=
  let gone := filter (λ dw, watch_under rel dw.1 = true) (dir_to_wd w) in
  let wds := (map_to_list gone).*2 in
  mkWatches (foldl inotify_rm_watch (kernel w) wds)
    (foldl (λ m wd, delete wd m) (wd_to_dir w) wds)
    (filter (λ dw, watch_under rel dw.1 = false) (dir_to_wd w)).

Definition start (fuel : nat) (root : bytes) (k : K) : Watches * Result unit :=
  let w := add_watch_recursive fuel (device_of k root) root [] (mkWatches k ∅ ∅) in
  (w, if bool_decide (wd_to_dir w = ∅) then Err IoError else Ok ()).

(** [stop]: every watch of the table is removed. *)
Definition stop (w : Watches) : Watches := mkWatches (foldl inotify_rm_watch (kernel w) (map_to_list (wd_to_dir w)).*1) (wd_to_dir w) (dir_to_wd w).

Definition handle_event (fuel : nat) (root : bytes) (root_dev : Z) (w : Watches) (ev : InEvent) : Watches * list FsEvent :=
  if has ev IN_Q_OVERFLOW then (w, [mkEvent EvOverflow [] 0])
  else
    match wd_to_dir w !! in_wd ev with
    | None => (w, [])
    | Some dir =>
        if has ev (Z.lor IN_DELETE_SELF IN_MOVE_SELF)
        then (w, if bool_decide (dir = []) then [] else [mkEvent EvRemoved dir 0])
        else if in_len ev =? 0 then (w, [])
        else
          let rel := join_rel dir (in_name ev) in
          let is_dir := has ev IN_ISDIR in
          if has ev (Z.lor IN_CREATE IN_MOVED_TO) then
            let w := if is_dir then add_watch_recursive fuel root_dev (join_relative root rel) rel w else w in
            let moved := has ev IN_MOVED_TO in
            (w, [mkEvent (if moved then EvRenamedTo else EvCreated) rel (if moved then in_cookie ev else 0)])
          else if has ev (Z.lor IN_DELETE IN_MOVED_FROM) then
            let w := if is_dir then drop_watch_subtree rel w else w in
            let moved := has ev IN_MOVED_FROM in
            (w, [mkEvent (if moved then EvRenamedFrom else EvRemoved) rel (if moved then in_cookie ev else 0)])
          else if has ev (Z.lor IN_MODIFY (Z.lor IN_CLOSE_WRITE IN_ATTRIB)) then (w, [mkEvent EvModified rel 0])
          else (w, [])
    end.

(** The events one [read] returns: 16 bytes of header, then [len] of name. *)
Fixpoint until_nul (s : bytes) : bytes :=
  match s with [] => [] | c :: s => if c =? 0 then [] else c :: until_nul s end.

Fixpoint read_events (fuel : nat) (buf : bytes) : list InEvent :=
  match fuel, buf with
  | S fuel, _ :: _ =>
      let len := get_le (drop 12 buf) 4 in
      let wd := get_le buf 4 in
      mkIn (if wd <? 2 ^ 31 then wd else wd - 2 ^ 32) (get_le (drop 4 buf) 4) (get_le (drop 8 buf) 4) len
        (until_nul (take (Z.to_nat len) (drop 16 buf)))
      :: read_events fuel (drop (16 + Z.to_nat len) buf)
  | _, _ => []
  end.

(** One round of [run] past the system calls. *)
Definition run_read (fuel : nat) (root : bytes) (root_dev : Z) (w : Watches) (buf : bytes) : Watches * list FsEvent :=
  foldl (λ s ev, let '(w, out) := handle_event fuel root root_dev s.1 ev in (w, s.2 ++ out)) (w, []) (read_events (length buf) buf).
End linux.
Arguments Watches : clear implicits.

(** ** ReadDirectoryChangesW *)

Definition FILE_ACTION_ADDED : Z := 1.
Definition FILE_ACTION_REMOVED : Z := 2.
Definition FILE_ACTION_MODIFIED : Z := 3.
Definition FILE_ACTION_RENAMED_OLD_NAME : Z := 4.
Definition FILE_ACTION_RENAMED_NEW_NAME : Z := 5.

Record Cookies := mkCookies { cookie_seq_ : Z; pending_cookie_ : Z }.

(** Never 0: [if (++cookie_seq_ == 0) ++cookie_seq_;] *)
Definition next_cookie (c : Cookies) : Cookies * Z :=
  let s := wrap 32 (cookie_seq_ c + 1) in
  let s := if s =? 0 then wrap 32 (s + 1) else s in
  (mkCookies s (pending_cookie_ c), s).

Definition slashes (path : bytes) : bytes := (λ c, if c =? c_backslash then c_slash else c) <$> path.

(** One record of the buffer. *)
Definition dispatch_one (c : Cookies) (action : Z) (path : bytes) : Cookies * FsEvent :=
  let '(c, kind, cookie) :=
    if action =? FILE_ACTION_ADDED then (c, EvCreated, 0)
    else if action =? FILE_ACTION_REMOVED then (c, EvRemoved, 0)
    else if action =? FILE_ACTION_MODIFIED then (c, EvModified, 0)
    else if action =? FILE_ACTION_RENAMED_OLD_NAME then
      let '(c, k) := next_cookie c in (mkCookies (cookie_seq_ c) k, EvRenamedFrom, k)
    else if action =? FILE_ACTION_RENAMED_NEW_NAME then
      if negb (pending_cookie_ c =? 0) then (c, EvRenamedTo, pending_cookie_ c)
      else let '(c, k) := next_cookie c in (c, EvRenamedTo, k)
    else (c, EvModified, 0) in
  let c := if negb (action =? FILE_ACTION_RENAMED_OLD_NAME) then mkCookies (cookie_seq_ c) 0 else c in
  (c, mkEvent kind (slashes path) cookie).

(** The records of a buffer: offset of the next one, action, length in bytes of
    the name, name; [to_utf8] is the system's conversion of UTF-16. *)
Fixpoint win_records (to_utf8 : bytes → bytes) (fuel : nat) (buf : bytes) : list (Z * bytes) :=
  match fuel with
  | O => []
  | S fuel =>
      let next := get_le buf 4 in
      let rec := (get_le (drop 4 buf) 4, to_utf8 (take (2 * Z.to_nat (get_le (drop 8 buf) 4 / 2)) (drop 12 buf))) in
      rec :: (if next =? 0 then [] else win_records to_utf8 fuel (drop (Z.to_nat next) buf))
  end.

Fixpoint dispatch_all (c : Cookies) (recs : list (Z * bytes)) : Cookies * list FsEvent :=
  match recs with
  | [] => (c, [])
  | (action, path) :: recs =>
      let '(c, e) := dispatch_one c action path in
      let '(c, es) := dispatch_all c recs in (c, e :: es)
  end.

Definition dispatch (to_utf8 : bytes → bytes) (c : Cookies) (buf : bytes) : Cookies * list FsEvent :=
  dispatch_all c (win_records to_utf8 (length buf) buf).

(** What a wait on the completion port gives. *)
Inductive Completion :=
| CompStop                            (* the stop key, or [stopped_] *)
| CompError (aborted enum_dir armed : bool)
| CompBytes (buf : bytes) (armed : bool).

(** One round of [run]: the callbacks, and whether the thread goes on. *)
Definition run_round (to_utf8 : bytes → bytes) (c : Cookies) (x : Completion) : Cookies * list FsEvent * bool :=
  match x with
  | CompStop => (c, [], false)
  | CompError aborted enum_dir armed =>
      if aborted then (c, [], false)
      else if enum_dir then (c, [mkEvent EvOverflow [] 0], armed)
      else (c, [], false)
  | CompBytes buf armed =>
      let '(c, es) := if bool_decide (buf = []) then (c, [mkEvent EvOverflow [] 0]) else dispatch to_utf8 c buf in
      if armed then (c, es, true) else (c, es ++ [mkEvent EvOverflow [] 0], false)
  end.

(** ** The watch table *)

(** Both maps hold the same watches. *)
Definition consistent {K} (w : Watches K) : Prop := ∀ wd d, wd_to_dir w !! wd = Some d ↔ dir_to_wd w !! d = Some wd.

Lemma consistent_check {K} (w : Watches K) :
  map_Forall (λ wd d, dir_to_wd w !! d = Some wd) (wd_to_dir w) ∧ map_Forall (λ d wd, wd_to_dir w !! wd = Some d) (dir_to_wd w) → consistent w.
Proof. intros [H1 H2] wd d. split; [apply H1|apply H2]. Qed.

Lemma delete_all_lookup (l : list Z) (m : gmap Z bytes) wd : foldl (λ m wd, delete wd m) m l !! wd = if decide (wd ∈ l) then None else m !! wd.
Proof.
  revert m. induction l as [|x l IH]; intros m; cbn [foldl]; [by rewrite decide_False by apply not_elem_of_nil|]. rewrite IH, lookup_delete.
  repeat case_decide; set_solver.
Qed.

Lemma drop_lookup {K} `{Inotify K} rel (w : Watches K) : consistent w → ∀ wd d,
  wd_to_dir (drop_watch_subtree rel w) !! wd = Some d ↔ wd_to_dir w !! wd = Some d ∧ watch_under rel d = false.
Proof.
  intros Hc wd d. unfold drop_watch_subtree. cbn [wd_to_dir]. rewrite delete_all_lookup.
  assert (wd ∈ (map_to_list (filter (λ dw, watch_under rel dw.1 = true) (dir_to_wd w))).*2 ↔ ∃ d', wd_to_dir w !! wd = Some d' ∧ watch_under rel d' = true) as Hin.
  { rewrite list_elem_of_fmap. split.
    - intros ([d' wd'] & -> & [Hd Hu]%elem_of_map_to_list%map_lookup_filter_Some). exists d'. split; [by apply Hc|done].
    - intros (d' & Hd & Hu). exists (d', wd). split; [done|]. apply elem_of_map_to_list, map_lookup_filter_Some. split; [by apply Hc|done]. }
  destruct (decide _) as [Hw|Hw]; rewrite Hin in Hw.
  - destruct Hw as (d' & Hd & Hu). split; [done|]. intros [? ?]. congruence.
  - split; [|by intros []]. intros Hd. split; [done|]. destruct (watch_under rel d) eqn:E; [|done]. destruct Hw. eauto.
Qed.

(** Once a directory is reported removed or moved away, the Linux watcher
    knows nothing at or below its path: both halves of the watch table lose
    exactly those entries and stay inverse to each other, so a late event on one
    of their descriptors is reported nowhere. *)
Theorem watch_forgets {K} `{Inotify K} fuel root dev (w : Watches K) ev dir :
  consistent w → wd_to_dir w !! in_wd ev = Some dir →
  has ev IN_Q_OVERFLOW = false → has ev (Z.lor IN_DELETE_SELF IN_MOVE_SELF) = false → in_len ev ≠ 0 →
  has ev (Z.lor IN_CREATE IN_MOVED_TO) = false → has ev (Z.lor IN_DELETE IN_MOVED_FROM) = true → has ev IN_ISDIR = true →
  let rel := join_rel dir (in_name ev) in
  let '(w', out) := handle_event fuel root dev w ev in
  out = [if has ev IN_MOVED_FROM then mkEvent EvRenamedFrom rel (in_cookie ev) else mkEvent EvRemoved rel 0]
  ∧ consistent w' ∧ (∀ wd d, wd_to_dir w' !! wd = Some d ↔ wd_to_dir w !! wd = Some d ∧ watch_under rel d = false)
  ∧ (∀ wd d ev', wd_to_dir w !! wd = Some d → watch_under rel d = true → in_wd ev' = wd → has ev' IN_Q_OVERFLOW = false →
     handle_event fuel root dev w' ev' = (w', [])).
Proof.
  intros Hc Hdir H1 H2 H3 H4 H5 H6 rel. unfold handle_event at 1. rewrite H1, Hdir, H2, (proj2 (Z.eqb_neq _ _) H3), H4, H5, H6. fold rel.
  pose proof (drop_lookup rel w Hc) as Hl. set (w' := drop_watch_subtree rel w) in *. split_and!; [by destruct (has ev IN_MOVED_FROM)| |done|].
  - intros wd d. rewrite Hl, (Hc wd d). unfold w', drop_watch_subtree. cbn [dir_to_wd]. by rewrite map_lookup_filter_Some.
  - intros wd d ev' Hd Hu <- Ho. unfold handle_event. rewrite Ho. destruct (wd_to_dir w' !! in_wd ev') as [d'|] eqn:E; [|done].
    apply Hl in E as [? ?]. congruence.
Qed.

(** A kernel for examples: directories by path, each with its inode; a watch is
    on an inode and a new one takes the next descriptor. *)
Record ToyKernel := mkToy { inode : gmap bytes Z; watched : gmap Z Z; next_wd : Z }.
#[global] Instance toy_inotify : Inotify ToyKernel := {
  inotify_add_watch k path :=
    match inode k !! path with
    | None => (k, None)
    | Some i =>
        match watched k !! i with
        | Some wd => (k, Some wd)
        | None => (mkToy (inode k) (<[i := next_wd k]> (watched k)) (next_wd k + 1), Some (next_wd k))
        end
    end;
  inotify_rm_watch k wd := mkToy (inode k) (filter (λ iw, iw.2 ≠ wd) (watched k)) (next_wd k);
  directory_entries k path :=
    omap (λ p, if path_is_under p path && negb (existsb (Z.eqb c_slash) (drop (S (length path)) p)) && (length path <? length p)%nat
               then Some (mkEnt (drop (S (length path)) p) true false) else None) (map_to_list (inode k)).*1;
  device_of _ _ := 1
}.

Definition toy : ToyKernel := mkToy (list_to_map [(str "/r", 10); (str "/r/a", 11); (str "/r/a/x", 12); (str "/r/b", 13)]) ∅ 1.
Definition toy_start : Watches ToyKernel := (start 10 (str "/r") toy).1.
Definition wd_of (d : string) : Z := default 0 (dir_to_wd toy_start !! str d).
Definition moved_from_a : InEvent := mkIn (wd_of "") (Z.lor IN_MOVED_FROM IN_ISDIR) 7 16 (str "a").

Lemma watch_forgets_witness :
  let '(w', out) := handle_event 10 (str "/r") 1 toy_start moved_from_a in
  out = [mkEvent EvRenamedFrom (str "a") 7]
  ∧ handle_event 10 (str "/r") 1 w' (mkIn (wd_of "a/x") IN_CREATE 0 16 (str "late")) = (w', []).
Proof.
  assert (consistent toy_start) as Hc by (apply consistent_check; apply (bool_decide_unpack _); vm_compute; exact I).
  pose proof (watch_forgets 10 (str "/r") 1 toy_start moved_from_a [] Hc ltac:(vm_compute; reflexivity) eq_refl eq_refl ltac:(done) eq_refl eq_refl eq_refl) as Hw.
  cbv zeta in Hw. destruct (handle_event 10 (str "/r") 1 toy_start moved_from_a) as [w' out] eqn:E. destruct Hw as (-> & _ & _ & Hlate).
  split; [reflexivity|]. apply (Hlate (wd_of "a/x") (str "a/x")); vm_compute; reflexivity.
Defined.

(** ** A directory moved over another one

    [rename] may replace an empty directory.  The kernel then reports the two
    halves of the move and, on the watch of the directory that went away, its
    own deletion; the table still has that watch under the path that now names
    the directory moved there, so the watcher's last word is that the path was
    removed. *)
Definition replaced (w : Watches ToyKernel) : Watches ToyKernel :=
  mkWatches (mkToy (<[str "/r/b" := 11]> (delete (str "/r/a") (inode (kernel w)))) (watched (kernel w)) (next_wd (kernel w)))
    (wd_to_dir w) (dir_to_wd w).
Definition replace_events : list InEvent :=
  [moved_from_a; mkIn (wd_of "") (Z.lor IN_MOVED_TO IN_ISDIR) 7 16 (str "b");
   mkIn (wd_of "a") IN_MOVE_SELF 0 0 []; mkIn (wd_of "b") IN_DELETE_SELF 0 0 []].

Lemma replaced_reported_removed :
  (foldl (λ s ev, let '(w, out) := handle_event 10 (str "/r") 1 s.1 ev in (w, s.2 ++ out)) (replaced toy_start, []) replace_events).2
  = [mkEvent EvRenamedFrom (str "a") 7; mkEvent EvRenamedTo (str "b") 7; mkEvent EvRemoved (str "b") 0].
Proof. vm_compute. reflexivity. Qed.

(** The coalescer keeps that last word: the planned operation on the path has
    lost the note that a directory appeared there, so what it holds is not
    enumerated for the mirrors. *)
Lemma replaced_not_enumerated :
  po_appeared <$> filter (λ op, po_path op = str "b")
    (take_batch (push_all (coal_new (mkOptions 1000 50 250))
      ((λ e, (e, 0)) <$> (foldl (λ s ev, let '(w, out) := handle_event 10 (str "/r") 1 s.1 ev in (w, s.2 ++ out))
        (replaced toy_start, []) replace_events).2))).2
  = [false].
Proof. vm_compute. reflexivity. Qed.

(** ** Rename cookies on Windows *)

Definition cookies_ok (c : Cookies) (n : Z) : Prop := 0 <= pending_cookie_ c <= cookie_seq_ c ∧ cookie_seq_ c + n < 2 ^ 32.

(** Where the cookie of the event of a record comes from. *)
Lemma dispatch_one_spec c action path n : cookies_ok c (1 + n) → 0 <= n →
  let '(c', e) := dispatch_one c action path in
  cookies_ok c' n ∧ cookie_seq_ c <= cookie_seq_ c' <= cookie_seq_ c + 1 ∧
  match ev_kind e with
  | EvRenamedFrom => ev_cookie e = cookie_seq_ c' ∧ cookie_seq_ c' = cookie_seq_ c + 1 ∧ pending_cookie_ c' = ev_cookie e
  | EvRenamedTo => pending_cookie_ c' = 0 ∧ ev_cookie e ≠ 0
      ∧ (ev_cookie e = pending_cookie_ c ∧ cookie_seq_ c' = cookie_seq_ c ∨ pending_cookie_ c = 0 ∧ ev_cookie e = cookie_seq_ c' ∧ cookie_seq_ c' = cookie_seq_ c + 1)
  | _ => ev_cookie e = 0 ∧ pending_cookie_ c' = 0 ∧ cookie_seq_ c' = cookie_seq_ c
  end.
Proof.
  intros [[Hp Hq] Hs] Hn. assert (next_cookie c = (mkCookies (cookie_seq_ c + 1) (pending_cookie_ c), cookie_seq_ c + 1)) as Enext.
  { unfold next_cookie. rewrite (wrap_id 32 (cookie_seq_ c + 1)) by lia. by rewrite (proj2 (Z.eqb_neq _ _)) by lia. }
  unfold dispatch_one, cookies_ok. rewrite Enext.
  destruct (Z.eqb_spec action FILE_ACTION_ADDED) as [->|]; [cbn; lia|]. destruct (Z.eqb_spec action FILE_ACTION_REMOVED) as [->|]; [cbn; lia|].
  destruct (Z.eqb_spec action FILE_ACTION_MODIFIED) as [->|]; [cbn; lia|]. destruct (Z.eqb_spec action FILE_ACTION_RENAMED_OLD_NAME) as [->|]; [cbn; lia|].
  destruct (Z.eqb_spec action FILE_ACTION_RENAMED_NEW_NAME) as [->|]; [|cbn; lia]. destruct (Z.eqb_spec (pending_cookie_ c) 0) as [E|E]; cbn; lia.
Qed.

(** The cookies of later events: none, new ones, or the pending one at once. *)
Lemma dispatch_all_fresh recs : ∀ c i e, cookies_ok c (zlen recs) → (dispatch_all c recs).2 !! i = Some e →
  ev_cookie e = 0 ∨ cookie_seq_ c < ev_cookie e
  ∨ (i = 0%nat ∧ ev_kind e = EvRenamedTo ∧ ev_cookie e = pending_cookie_ c ∧ pending_cookie_ c ≠ 0).
Proof.
  induction recs as [|[action path] recs IH]; intros c i e Hok Hi; [done|]. cbn [dispatch_all] in Hi. rewrite zlen_cons in Hok.
  pose proof (zlen_nonneg recs) as Hn. pose proof (dispatch_one_spec c action path (zlen recs) Hok Hn) as Hs. destruct (dispatch_one c action path) as [c' e0].
  destruct Hs as (Hok' & Hseq & Hkind). specialize (IH c'). destruct (dispatch_all c' recs) as [c2 es]. cbn [snd] in *. destruct i as [|i].
  - injection Hi as <-. destruct Hok as [[? ?] _]. destruct (ev_kind e0) eqn:Ek; try (left; by apply Hkind); [right; left; lia|].
    destruct Hkind as (_ & Hne & [[? ?]|(_ & ? & ?)]); [|right; left; lia]. right. right. split_and!; [done|done|done|congruence].
  - destruct (IH i e Hok' Hi) as [?|[?|(-> & ? & E & Hne)]]; [by left|right; left; lia|]. right. left. rewrite E.
    destruct (ev_kind e0); try (destruct Hkind as (? & Hz & ?); congruence). lia.
Qed.

Lemma dispatch_head recs c e : cookies_ok c (zlen recs) → (dispatch_all c recs).2 !! 0%nat = Some e → ev_kind e = EvRenamedTo → pending_cookie_ c ≠ 0 →
  ev_cookie e = pending_cookie_ c.
Proof.
  destruct recs as [|[action path] recs]; [done|]. rewrite zlen_cons. intros Hok He Ek Hp. pose proof (dispatch_one_spec c action path (zlen recs) Hok (zlen_nonneg _)) as Hs.
  cbn [dispatch_all] in He. destruct (dispatch_one c action path) as [c' e0], (dispatch_all c' recs) as [c2 es]. injection He as ->.
  destruct Hs as (_ & _ & Hk). rewrite Ek in Hk. destruct Hk as (_ & _ & [[? _]|(? & _)]); [done|congruence].
Qed.

(** The Windows watcher pairs the halves of a rename: every rename event has
    a non-zero cookie, no other event has one, and two rename events share it
    exactly when they are an old name immediately followed by a new name. *)
Theorem rename_cookies recs i j ei ej : zlen recs < 2 ^ 32 - 1 → (i < j)%nat →
  (dispatch_all (mkCookies 0 0) recs).2 !! i = Some ei → (dispatch_all (mkCookies 0 0) recs).2 !! j = Some ej →
  (ev_cookie ei ≠ 0 ↔ ev_kind ei = EvRenamedFrom ∨ ev_kind ei = EvRenamedTo)
  ∧ (ev_cookie ei = ev_cookie ej ∧ ev_cookie ei ≠ 0 ↔ j = S i ∧ ev_kind ei = EvRenamedFrom ∧ ev_kind ej = EvRenamedTo).
Proof.
  intros Hlen. assert (cookies_ok (mkCookies 0 0) (zlen recs)) as Hok by (unfold cookies_ok; cbn; lia). clear Hlen. revert Hok. generalize (mkCookies 0 0). revert i j.
  induction recs as [|[action path] recs IH]; intros i j c Hok Hij Hi Hj; [done|]. cbn [dispatch_all] in Hi, Hj. rewrite zlen_cons in Hok.
  pose proof (zlen_nonneg recs) as Hn. pose proof (dispatch_one_spec c action path (zlen recs) Hok Hn) as Hs. destruct (dispatch_one c action path) as [c' e0].
  destruct Hs as (Hok' & Hseq & Hkind). pose proof (dispatch_all_fresh recs c') as Hfresh. specialize (λ i j, IH i j c'). destruct (dispatch_all c' recs) as [c2 es] eqn:Er. cbn [snd] in *.
  destruct j as [|j]; [lia|]. destruct i as [|i]; [|destruct (IH i j Hok' ltac:(lia) Hi Hj) as [Ha Hb]; split; [done|]; rewrite Hb; split; intros (? & ? & ?); (split_and!; [lia|done|done])].
  injection Hi as ->. specialize (Hfresh j ej Hok' Hj). destruct Hok as [[Hp0 Hp1] _].
  assert (ev_kind ei = EvRenamedFrom ∨ ev_kind ei = EvRenamedTo ∨ ev_cookie ei = 0 ∧ ev_kind ei ≠ EvRenamedFrom ∧ ev_kind ei ≠ EvRenamedTo) as Hcases
    by (destruct (ev_kind ei); naive_solver).
  destruct Hcases as [Ek|[Ek|(E0 & ? & ?)]]; [| |split; [tauto|split; [lia|intros (_ & ? & _); done]]]; rewrite Ek in Hkind |- *.
  - destruct Hkind as (Ec & Es & Ep). split; [split; [by left|lia]|]. split.
    + intros [E _]. destruct Hfresh as [?|[?|(-> & ? & _)]]; [lia|lia|]. done.
    + intros ([= ->] & _ & Ek'). split; [|lia]. rewrite <- Ep. symmetry. apply (dispatch_head recs c' ej Hok'); [by rewrite Er|done|lia].
  - destruct Hkind as (Ep & Hne & Hk). split; [split; [by right|done]|]. split; [|intros (_ & ? & _); done]. intros [E _].
    destruct Hfresh as [?|[?|(_ & _ & _ & ?)]]; [lia|lia|done].
Qed.

Lemma rename_cookies_witness :
  let recs := [(4, str "a"); (5, str "b"); (5, str "c"); (1, str "d"); (4, str "e\f")] in
  (dispatch_all (mkCookies 0 0) recs).2
  = [mkEvent EvRenamedFrom (str "a") 1; mkEvent EvRenamedTo (str "b") 1; mkEvent EvRenamedTo (str "c") 2; mkEvent EvCreated (str "d") 0;
     mkEvent EvRenamedFrom (str "e/f") 3]
  ∧ (1 = 1 ∧ 1 ≠ 0 ↔ 1%nat = 1%nat ∧ EvRenamedFrom = EvRenamedFrom ∧ EvRenamedTo = EvRenamedTo).
Proof.
  split; [vm_compute; reflexivity|].
  apply (rename_cookies [(4, str "a"); (5, str "b"); (5, str "c"); (1, str "d"); (4, str "e\f")] 0 1 (mkEvent EvRenamedFrom (str "a") 1) (mkEvent EvRenamedTo (str "b") 1));
    [vm_compute; reflexivity|lia|vm_compute; reflexivity|vm_compute; reflexivity].
Defined.
