(* ===== verification/WatchRun.v ===== *)
(** * The watchers' threads ([platform/linux/dir_watcher.cpp], [platform/win/dir_watcher.cpp])

    What [Watcher] leaves out: the loop around [poll] and [read] and the one around
    the completion port, how a watcher is made, and [RootServer::start], which
    makes one.  What the system calls give is a list, a round at a time. *)

From S2P Require Import Prelude Types Wire Path Coalescer FileSystem Scanner Watcher.

(** ** [InotifyWatcher::run] *)

(** What a [read] gives. *)
Inductive ReadCall := Interrupted | NoBytes | Bytes (buf : bytes).

(** What [poll] gives: an error, the stop pipe, neither, or events with the calls
    of [read] that follow. *)
Inductive Polled := PollFailed (eintr : bool) | PollStop | PollNothing | PollEvents (reads : list ReadCall).
Record LinuxRound := mkLinuxRound { lr_stopped : bool; lr_poll : Polled }.

(** [do { read } while (len < 0 && errno == EINTR)]: the bytes, if any. *)
Fixpoint read_through (reads : list ReadCall) : bytes :=
  match reads with Interrupted :: reads => read_through reads | Bytes buf :: _ => buf | _ => [] end.

Section linux.
Context {K : Type} `{Inotify K} (fuel : nat) (root : bytes) (root_dev : Z).
Implicit Types (w : Watches K).

(** One round: [None] where the loop ends. *)
Definition linux_round w (r : LinuxRound) : option (Watches K * list FsEvent) :=
  if lr_stopped r then None
  else
    match lr_poll r with
    | PollFailed eintr => if eintr then Some (w, []) else None
    | PollStop => None
    | PollNothing => Some (w, [])
    | PollEvents reads =>
        let buf := read_through reads in
        if bool_decide (buf = []) then Some (w, []) else Some (run_read fuel root root_dev w buf)
    end.

(** The table, the callbacks and whether the thread has ended. *)
Fixpoint linux_run w (rounds : list LinuxRound) : Watches K * list FsEvent * bool :=
  match rounds with
  | [] => (w, [], false)
  | r :: rounds =>
      match linux_round w r with
      | None => (w, [], true)
      | Some (w, es) => let '(w, es', ended) := linux_run w rounds in (w, es ++ es', ended)
      end
  end.

(** [make_watcher]: [fd] and [pipes] tell whether [inotify_init1] and [pipe] work. *)
Definition linux_make_watcher (is_directory fd pipes : bool) (k : K) : Result (Watches K) :=
  if negb is_directory then Err NotADirectory
  else if negb fd then Err Unsupported
  else if negb pipes then Err IoError
  else match start fuel root k with (w, Ok _) => Ok w | (_, Err e) => Err e end.
End linux.

(** ** [Win32Watcher::run] *)

Fixpoint win_run (to_utf8 : bytes → bytes) (c : Cookies) (xs : list Completion) : Cookies * list FsEvent * bool :=
  match xs with
  | [] => (c, [], false)
  | x :: xs =>
      match run_round to_utf8 c x with
      | (c, es, false) => (c, es, true)
      | (c, es, true) => let '(c, es', ended) := win_run to_utf8 c xs in (c, es ++ es', ended)
      end
  end.

(** [make_watcher]: whether the directory opens, the port is created and the first
    [ReadDirectoryChangesW] is accepted. *)
Definition win_make_watcher (dir port armed : bool) : Result Cookies :=
  if negb dir then Err NotFound else if negb port then Err IoError else if negb armed then Err IoError else Ok (mkCookies 0 0).

(** ** [RootServer::start] *)

(** [made]: what [make_watcher] returns; the flusher is started unless the call
    fails, and the watcher that was made is kept. *)
Definition server_start {A} (watch : bool) (made : Result A) : Result (option A) :=
  if watch then match made with Ok w => Ok (Some w) | Err Unsupported => Ok None | Err e => Err e end else Ok None.

(** A server that is asked to watch and starts has a watcher, unless the platform
    has none. *)
Lemma server_start_spec {A} watch (made : Result A) : match server_start watch made with
  | Ok (Some w) => watch = true ∧ made = Ok w
  | Ok None => watch = false ∨ made = Err Unsupported
  | Err e => watch = true ∧ made = Err e ∧ e ≠ Unsupported
  end.
Proof. unfold server_start. destruct watch, made as [w|[]]; auto. Qed.

(** ** Records and reads *)

(** An event as the kernel writes it: the header and the name, padded with zeros
    to the length the header gives. *)
Definition in_bytes (e : InEvent) : bytes :=
  put_le (wrap 32 (in_wd e)) 4 ++ put_le (in_mask e) 4 ++ put_le (in_cookie e) 4 ++ put_le (in_len e) 4
  ++ in_name e ++ replicate (Z.to_nat (in_len e) - length (in_name e)) 0.

Record in_ok (e : InEvent) : Prop := {
  io_wd : - 2 ^ 31 <= in_wd e < 2 ^ 31;
  io_mask : u32_ok (in_mask e);
  io_cookie : u32_ok (in_cookie e);
  io_len : u32_ok (in_len e) ∧ zlen (in_name e) <= in_len e;
  io_name : Forall (λ c, c ≠ 0) (in_name e)
}.

Lemma until_nul_pad s n : Forall (λ c, c ≠ 0) s → until_nul (s ++ replicate n 0) = s.
Proof. induction 1 as [|c s Hc _ IH]; [by destruct n|]. cbn. by rewrite (proj2 (Z.eqb_neq _ _) Hc), IH. Qed.

Lemma length_in_bytes e : in_ok e → length (in_bytes e) = (16 + Z.to_nat (in_len e))%nat.
Proof. intros [_ _ _ [_ Hl] _]. unfold in_bytes. rewrite !length_app, !length_put_le, length_replicate. unfold zlen in Hl. lia. Qed.

Lemma get_u32 v rest : u32_ok v → get_le (put_le v 4 ++ rest) 4 = v.
Proof. intros Hv. rewrite get_le_put_le by lia. apply wrap_id. exact Hv. Qed.

Lemma in_bytes_cons e : ∃ c r, in_bytes e = c :: r.
Proof. unfold in_bytes, put_le. cbn. eauto. Qed.

(** Decoding gives back the events, however many the buffer holds. *)
Lemma read_events_records es : Forall in_ok es → ∀ n, (length (concat (in_bytes <$> es)) <= n)%nat → read_events n (concat (in_bytes <$> es)) = es.
Proof.
  induction 1 as [|e es He _ IH]; intros n Hn; [by destruct n|]. cbn [fmap list_fmap concat] in *. rewrite length_app, (length_in_bytes e He) in Hn. destruct n as [|n]; [lia|].
  set (rest := concat _) in *. destruct (in_bytes_cons e) as (c & r & Ec). cbn [read_events]. rewrite Ec. change ((c :: r) ++ rest) with (c :: (r ++ rest)). cbn iota. change (c :: (r ++ rest)) with ((c :: r) ++ rest). rewrite <- Ec. clear c r Ec.
  pose proof He as [Hw Hm Hk [Hl Hnl] Hz].
  assert (in_bytes e ++ rest = put_le (wrap 32 (in_wd e)) 4 ++ put_le (in_mask e) 4 ++ put_le (in_cookie e) 4 ++ put_le (in_len e) 4
    ++ (in_name e ++ replicate (Z.to_nat (in_len e) - length (in_name e)) 0) ++ rest) as E by (unfold in_bytes; by rewrite <- !app_assoc).
  set (name := in_name e ++ _) in E. assert (length name = Z.to_nat (in_len e)) as Hname by (unfold name; rewrite length_app, length_replicate; unfold zlen in Hnl; lia).
  assert (∀ (a b : bytes) k, length a = k → drop k (a ++ b) = b) as Hdrop by (intros a b k <-; apply drop_app_length).
  assert (drop 4 (in_bytes e ++ rest) = put_le (in_mask e) 4 ++ put_le (in_cookie e) 4 ++ put_le (in_len e) 4 ++ name ++ rest) as E4 by (rewrite E; apply Hdrop, length_put_le).
  assert (drop 8 (in_bytes e ++ rest) = put_le (in_cookie e) 4 ++ put_le (in_len e) 4 ++ name ++ rest) as E8 by (rewrite <- (drop_drop _ 4 4), E4; apply Hdrop, length_put_le).
  assert (drop 12 (in_bytes e ++ rest) = put_le (in_len e) 4 ++ name ++ rest) as E12 by (rewrite <- (drop_drop _ 4 8), E8; apply Hdrop, length_put_le).
  assert (drop 16 (in_bytes e ++ rest) = name ++ rest) as E16 by (rewrite <- (drop_drop _ 4 12), E12; apply Hdrop, length_put_le).
  rewrite <- (drop_drop _ (Z.to_nat (get_le (drop 12 (in_bytes e ++ rest)) 4)) 16).
  rewrite E4, E8, E12, E16, !get_u32 by done. rewrite (Hdrop name rest _ Hname), <- Hname, take_app_length. unfold name. rewrite until_nul_pad by done.
  rewrite E, get_u32 by (apply (wrap_ok 32); lia). f_equal; [|apply IH; lia].
  destruct e as [wd mask cookie len nm]. cbn [in_wd in_mask in_cookie in_len in_name] in *. f_equal. unfold wrap. destruct (Z.ltb_spec (wd mod 2 ^ 32) (2 ^ 31)) as [Hlt|Hge].
  - destruct (Z.le_gt_cases 0 wd); [rewrite Z.mod_small by lia; done|]. rewrite <- (Z.mod_add wd 1), Z.mod_small in Hlt by lia. lia.
  - destruct (Z.le_gt_cases 0 wd); [rewrite Z.mod_small in Hge by lia; lia|]. rewrite <- (Z.mod_add wd 1), Z.mod_small by lia. lia.
Qed.

(** ** The Linux loop *)
Section loop.
Context {K : Type} `{Inotify K} (fuel : nat) (root : bytes) (root_dev : Z).
Implicit Types (w : Watches K).

(** The events handled one after another. *)
Definition handle_all w (evs : list InEvent) : Watches K * list FsEvent :=
  foldl (λ s ev, let '(w, out) := handle_event fuel root root_dev s.1 ev in (w, s.2 ++ out)) (w, []) evs.

Lemma handle_all_from evs : ∀ w out, foldl (λ s ev, let '(w, out) := handle_event fuel root root_dev s.1 ev in (w, s.2 ++ out)) (w, out) evs
  = ((handle_all w evs).1, out ++ (handle_all w evs).2).
Proof.
  unfold handle_all. induction evs as [|ev evs IH]; intros w out; cbn [foldl]; [by rewrite app_nil_r|]. cbn [fst snd]. destruct (handle_event _ _ _ w ev) as [w1 o1].
  rewrite IH, (IH w1 ([] ++ o1)). cbn [fst snd app]. by rewrite app_assoc.
Qed.

Lemma handle_all_app w a b : handle_all w (a ++ b) = ((handle_all (handle_all w a).1 b).1, (handle_all w a).2 ++ (handle_all (handle_all w a).1 b).2).
Proof. unfold handle_all at 1. rewrite foldl_app. fold (handle_all w a). destruct (handle_all w a) as [w1 o1]. by rewrite handle_all_from. Qed.

(** What a round hears: the events [es]. *)
Definition hears (r : LinuxRound) (es : list InEvent) : Prop :=
  lr_stopped r = false ∧ Forall in_ok es ∧
  match lr_poll r with
  | PollEvents reads => read_through reads = concat (in_bytes <$> es)
  | PollFailed true | PollNothing => es = []
  | _ => False
  end.

Lemma round_hears w r es : hears r es → linux_round fuel root root_dev w r = Some (handle_all w es).
Proof.
  intros (Hs & Hok & Hr). unfold linux_round. rewrite Hs. destruct (lr_poll r) as [[]| | |reads]; try done; [by subst es|by subst es|]. rewrite Hr. case_bool_decide as E.
  - destruct es as [|e es]; [done|]. exfalso. destruct (in_bytes_cons e) as (c & x & Ec). change (in_bytes e ++ concat (in_bytes <$> es) = []) in E. by rewrite Ec in E.
  - unfold run_read. by rewrite (read_events_records es Hok) by lia.
Qed.

(** C39: however the kernel splits its events over reads, and whatever interruptions
    come in between, the watcher handles each event once and in order; the thread
    ends at the first stop, and only there or when [poll] fails. *)
Theorem linux_run_batching rounds batches : ∀ w, Forall2 hears rounds batches →
  linux_run fuel root root_dev w rounds = (handle_all w (concat batches), false)
  ∧ ∀ r rest, (lr_stopped r = true ∨ lr_poll r = PollStop ∨ lr_poll r = PollFailed false) →
      linux_run fuel root root_dev w (rounds ++ r :: rest) = (handle_all w (concat batches), true).
Proof.
  intros w Hh. revert w. induction Hh as [|r es rounds batches Hr _ IH]; intros w.
  - split; [done|]. intros r rest Hstop. cbn. unfold linux_round. destruct (lr_stopped r); [done|]. destruct Hstop as [?|[-> | ->]]; done.
  - cbn [app linux_run concat]. rewrite (round_hears w r es Hr), handle_all_app. destruct (handle_all w es) as [w1 o1]. cbn [fst snd]. destruct (IH w1) as [-> I2]. split; [by destruct (handle_all w1 _)|].
    intros r' rest Hstop. rewrite I2 by done. by destruct (handle_all w1 _).
Qed.
End loop.

(** The same events in one read and in three, with an interruption. *)
Definition demo_create : InEvent := mkIn (wd_of "b") IN_CREATE 0 16 (str "f").
Definition demo_modify : InEvent := mkIn (wd_of "b") IN_MODIFY 0 16 (str "f").
Definition demo_rounds : list LinuxRound :=
  [mkLinuxRound false (PollEvents [Interrupted; Bytes (in_bytes moved_from_a)]); mkLinuxRound false (PollFailed true);
   mkLinuxRound false (PollEvents [Bytes (in_bytes demo_create ++ in_bytes demo_modify)])].

Lemma linux_run_batching_witness :
  (linux_run 10 (str "/r") 1 toy_start (demo_rounds ++ [mkLinuxRound false PollStop])).1.2 = [mkEvent EvRenamedFrom (str "a") 7; mkEvent EvCreated (str "b/f") 0; mkEvent EvModified (str "b/f") 0]
  ∧ (linux_run 10 (str "/r") 1 toy_start (demo_rounds ++ [mkLinuxRound false PollStop])).2 = true.
Proof.
  destruct (linux_run_batching 10 (str "/r") 1 demo_rounds [[moved_from_a]; []; [demo_create; demo_modify]] toy_start) as [_ Hstop].
  - assert (∀ e, in_ok e → Forall in_ok [e]) as H1 by (intros e He; by constructor). assert (in_ok moved_from_a ∧ in_ok demo_create ∧ in_ok demo_modify) as (? & ? & ?).
    { split_and!; (split; [vm_compute; split; congruence..|vm_compute; intuition congruence|apply (bool_decide_unpack _); vm_compute; exact I]). }
    apply Forall2_cons. split; [|apply Forall2_cons; split; [|apply Forall2_cons; split; [|by apply Forall2_nil]]]; (split; [reflexivity|split; [|vm_compute; reflexivity]]); [by apply H1|by constructor|by constructor; [|apply H1]].
  - rewrite (Hstop (mkLinuxRound false PollStop) []) by (right; by left). split; vm_compute; reflexivity.
Defined.

(** ** The Windows loop *)

(** When the thread ends, it was stopped, its handle was closed, or the last thing
    it reported is an overflow, for which the mirrors are fetched anew. *)
Theorem win_loss_announced to_utf8 xs : ∀ c, let '(_, es, ended) := win_run to_utf8 c xs in ended = true →
  (∃ e, last es = Some e ∧ ev_kind e = EvOverflow)
  ∨ ∃ x, x ∈ xs ∧ (x = CompStop ∨ ∃ aborted enum_dir armed, x = CompError aborted enum_dir armed ∧ (aborted = true ∨ enum_dir = false)).
Proof.
  induction xs as [|x xs IH]; intros c; [done|]. cbn [win_run]. destruct x as [|ab en ar|buf ar]; cbn [run_round].
  - intros _. right. exists CompStop. split; [left|by left].
  - destruct ab; [intros _; right; eexists; split; [left|]; right; by eexists _, _, _; split; [done|left]|].
    destruct en; [|intros _; right; eexists; split; [left|]; right; by eexists _, _, _; split; [done|right]].
    destruct ar; [|intros _; left; by eexists]. specialize (IH c). destruct (win_run to_utf8 c xs) as [[c2 es2] ended]. intros He. destruct (IH He) as [(e & Hl & Hk)|(x & Hx & Hcase)]; [left|right; exists x; split; [by right|done]].
    exists e. split; [|done]. rewrite last_app, Hl. done.
  - destruct (if bool_decide (buf = []) then (c, [mkEvent EvOverflow [] 0]) else dispatch to_utf8 c buf) as [c1 es1]. destruct ar.
    + specialize (IH c1). destruct (win_run to_utf8 c1 xs) as [[c2 es2] ended]. intros He. destruct (IH He) as [(e & Hl & Hk)|(x & Hx & Hcase)]; [left|right; exists x; split; [by right|done]].
      exists e. split; [|done]. rewrite last_app, Hl. done.
    + intros _. left. exists (mkEvent EvOverflow [] 0). by rewrite last_snoc.
Qed.

(** ** After an overflow

    The kernel dropped events and says so; among them may be the creation of a
    directory.  The overflow is passed on, and the mirrors are fetched anew, but the
    watcher does not look at the tree again: the directory gets no watch, while a
    watcher started now would have one. *)
Definition overflowed : Watches ToyKernel :=
  let w := toy_start in mkWatches (mkToy (<[str "/r/new" := 20]> (inode (kernel w))) (watched (kernel w)) (next_wd (kernel w))) (wd_to_dir w) (dir_to_wd w).

Example overflow_leaves_unwatched :
  let '(w, out) := handle_event 10 (str "/r") 1 overflowed (mkIn (-1) IN_Q_OVERFLOW 0 0 []) in
  out = [mkEvent EvOverflow [] 0] ∧ dir_to_wd w !! str "new" = None ∧ is_Some (dir_to_wd (start 10 (str "/r") (kernel w)).1 !! str "new").
Proof. split_and!; [vm_compute; reflexivity..|]. apply (bool_decide_unpack _). vm_compute. exact I. Qed.
