(* ===== verification/TreeProps.v ===== *)
(** * What the metadata tree promises

    The theorems on [MetadataTree] over every sequence of operations: it
    refines the path map, keeps its invariant, finds children with and without
    regard to case, gives paths that lead back to their nodes, and survives an
    export and a reload; a scan of a filesystem always loads. *)

From S2P Require Import Prelude Types KeyMap FlatMap Path Unicode StringPool MetadataTree Forest TreeIndex TreeLinks TreeInv TreeRelease TreeOps TreeSpec TreeRefine TreeExport FileSystem Scanner.

(** ** Names stay short *)

Definition s_short (m : pathmap) : Prop := ∀ q, is_Some (m !! q) → short_names q.

Lemma s_new_short : s_short s_new.
Proof. unfold s_new. intros q [a [<- _]%lookup_singleton_Some]. constructor. Qed.

Lemma short_sub m m' : m' ⊆ m → s_short m → s_short m'.
Proof. intros Hs Hm q [a Ha]. apply Hm. exists a. by eapply lookup_weaken. Qed.

Lemma short_put m q a : s_short m → short_names q → s_short (<[q := a]> m).
Proof. intros Hm Hq x. rewrite lookup_insert_is_Some. intros [<-|[_ ?]]; [done|by apply Hm]. Qed.

Lemma short_snoc q s : short_names q → zlen s < 2 ^ 30 → short_names (q ++ [s]).
Proof. intros Hq Hs. apply Forall_app. split; [done|]. by repeat constructor. Qed.

Lemma s_insert_short m q s a : s_short m → zlen s < 2 ^ 30 → s_short (s_insert m q s a).1.
Proof.
  intros Hm Hs. unfold s_insert. repeat case_match; try done. apply short_put; [done|]. apply short_snoc; [apply Hm; eauto|done].
Qed.

Lemma s_set_short m q a : s_short m → s_short (s_set m q a).1.
Proof.
  intros Hm. unfold s_set. case_match eqn:E; [|done]. apply short_put; [|apply Hm; eauto]. destruct (s_dir a); [done|]. eapply short_sub; [apply map_filter_subseteq|done].
Qed.

Lemma s_upsert_short m q s a : s_short m → zlen s < 2 ^ 30 → s_short (s_upsert m q s a).1.
Proof. intros Hm Hs. unfold s_upsert. case_match; [by apply s_set_short|by apply s_insert_short]. Qed.

Lemma s_remove_short m q : s_short m → s_short (s_remove m q).1.
Proof. intros Hm. unfold s_remove. repeat case_match; try done. eapply short_sub; [apply map_filter_subseteq|done]. Qed.

Lemma s_rename_short m q p s : s_short m → zlen s < 2 ^ 30 → s_short (s_rename m q p s).1.
Proof.
  intros Hm Hs. unfold s_rename. destruct (m !! q) eqn:Eq; [|done]. destruct (m !! p) eqn:Ep; [|done]. repeat case_match; try done.
  intros x [c ([y b] & [= -> ->] & Hy%elem_of_map_to_list)%elem_of_list_to_map_2%list_elem_of_fmap]. unfold moved_key. assert (short_names y) as Hys by (apply Hm; eauto).
  destruct (decide (q `prefix_of` y)); [|exact Hys]. apply Forall_app. split; [apply Hm; eauto|]. constructor; [done|]. by apply Forall_drop.
Qed.

Lemma s_ensure_short comps : ∀ m q, s_short m → short_names comps → s_short (s_ensure m q comps).1.
Proof.
  induction comps as [|c comps IH]; intros m q Hm Hc; [done|]. apply Forall_cons in Hc as [Hc Hcs]. cbn [s_ensure].
  pose proof (s_insert_short m q c kImplicitDirectory Hm Hc) as Hi. destruct (s_insert m q c kImplicitDirectory) as [m1 []]; cbn [fst] in Hi; repeat case_match; try done; by apply IH.
Qed.

Lemma s_load_short es : ∀ m paths k, s_short m → Forall (λ e, zlen (se_name e) < 2 ^ 30 ∧ 0 <= se_parent e) es → s_short (s_load_loop m paths k es).1.
Proof.
  induction es as [|e es IH]; intros m paths k Hm He; [done|]. apply Forall_cons in He as [[He _] Hes]. cbn [s_load_loop]. case_match; [done|].
  destruct (paths !! Z.to_nat (se_parent e)) as [[q|]|]; try by apply IH.
  pose proof (s_insert_short m q (se_name e) (se_attr e) Hm He) as Hi. destruct (s_insert m q (se_name e) (se_attr e)) as [m1 []]; by apply IH.
Qed.

Lemma s_op_short m op : s_short m → op_ok op → s_short (s_op m op).1.
Proof.
  intros Hm Hok. destruct op as [path a|path|dir nm a|dir nm a|path a|path dir nm|path| |es]; cbn [s_op op_ok] in *; unfold s_at; repeat (case_match; try done).
  - unfold s_upsert_path. destruct (components path) as [|leaf dirs _] using rev_ind; [done|]. apply Forall_app in Hok as [Hd [Hl _]%Forall_cons]. rewrite reverse_snoc, reverse_involutive.
    pose proof (s_ensure_short dirs m [] Hm Hd) as He. destruct (s_ensure m [] dirs) as [m1 []]; [|done]. cbn in *. by apply s_upsert_short.
  - unfold s_remove_path. case_match; [by apply s_remove_short|done].
  - by apply s_insert_short.
  - by apply s_upsert_short.
  - by apply s_set_short.
  - by apply s_rename_short.
  - by apply s_ensure_short.
  - apply s_new_short.
  - apply s_load_short; [apply s_new_short|done].
Qed.

Lemma s_run_short ops : ∀ m, s_short m → Forall op_ok ops → s_short (s_run m ops).1.
Proof.
  induction ops as [|op ops IH]; intros m Hm Hok; [done|]. apply Forall_cons in Hok as [Hop Hok]. cbn [s_run]. pose proof (s_op_short m op Hm Hop) as H1.
  destruct (s_op m op) as [m1 r]. specialize (IH m1 H1 Hok). by destruct (s_run m1 ops).
Qed.

(** A walk over the names of a path that is there follows it. *)
Lemma s_walk_path m q r : (∀ k, is_Some (m !! (q ++ take k r))) → Forall (λ s, valid_name s = true) r → s_walk m q r = Some (q ++ r).
Proof.
  revert q. induction r as [|s r IH]; intros q Hm Hr; [by rewrite app_nil_r|]. apply Forall_cons in Hr as [Hs Hr]. cbn [s_walk].
  unfold valid_name in Hs. unfold skipped, is_dotdot. repeat case_bool_decide; try done. cbn [orb].
  destruct (Hm 1%nat) as [a Ha]. cbn in Ha. rewrite take_0 in Ha. rewrite Ha, IH; [by rewrite <- app_assoc| |done].
  intros k. specialize (Hm (S k)). cbn in Hm. by rewrite <- app_assoc.
Qed.

Lemma valid_comp s : valid_name s = true → comp_ok s.
Proof.
  unfold valid_name, comp_ok, skipped. intros Hs. case_match eqn:E; [done|]. apply orb_false_iff in E as [E _]. split; [done|].
  apply Forall_forall. intros b Hb. rewrite forallb_forall in Hs. apply list_elem_of_In, Hs in Hb. by destruct (is_path_separator b).
Qed.

Lemma short_entries m es : s_short m → Forall (entry_of m) es → Forall (λ e, zlen (se_name e) < 2 ^ 30 ∧ 0 <= se_parent e) es.
Proof.
  intros Hm He. eapply Forall_impl; [exact He|]. intros e (Hp & q & Hq). split; [|done]. assert (short_names (q ++ [se_name e])) as [_ Hs]%Forall_app by (apply Hm; eauto). by apply Forall_cons in Hs as [? _].
Qed.

(** Without its root a map is observed the same. *)
Lemma s_walk_ext m m' comps : (∀ q s, m !! (q ++ [s]) = m' !! (q ++ [s])) → ∀ q, s_walk m q comps = s_walk m' q comps.
Proof. intros Hm. induction comps as [|c comps IH]; intros q; [done|]. cbn [s_walk]. rewrite Hm. repeat case_match; done. Qed.

Lemma s_observe_rooted m path : s_lookup m path ≠ Some [] → s_observe (rooted m) path = s_observe m path.
Proof.
  intros Hl. unfold s_observe. assert (s_lookup (rooted m) path = s_lookup m path) as -> by (apply s_walk_ext; intros; apply rooted_snoc).
  destruct (s_lookup m path) as [q|]; [|done]. assert (s_names (rooted m) q = s_names m q) as ->. { apply set_eq. intros s. by rewrite !s_names_spec, rooted_snoc. }
  unfold rooted. rewrite lookup_insert_ne; [done|]. congruence.
Qed.

Section props.
Context {M : Type} `{KeyMap M}.

(** The tree [ops] build. *)
Abbreviation built ops := (run (tree_new (M := M)) ops).1.

(** C10: the metadata tree refines a map from paths to attributes.  Over any
    sequence of insertions, upserts, removals, renames, attribute changes,
    clears and snapshot loads, every result and every error code is the one of
    the map's operations; afterwards, at every path, a reader sees the
    attributes, the full path, the number of children and the set of their
    names that the map has, and the live count is the number of paths. *)
Theorem tree_refines_pathmap ops : total_cost ops < 2 ^ 31 → Forall op_ok ops →
  let t := built ops in let m := (s_run s_new ops).1 in
  (run (tree_new (M := M)) ops).2 = (s_run s_new ops).2
  ∧ (∀ path, observe t path = s_observe m path) ∧ live_ t = Z.of_nat (size m).
Proof.
  intros Hc Hok t m. destruct (run_new_sim ops Hc Hok) as (F & Hst & Hr). split_and!; [done|intros; by eapply observe_spec|by eapply live_spec].
Qed.

(** C11: every tree that operations build keeps the invariant: the nodes, the
    sibling lists, the parent links, the child counts, the free list, the name
    pool and both indices describe one forest; all live nodes hang under the
    root, siblings have distinct names, and the loops' fuel is never short. *)
Theorem tree_invariant ops : total_cost ops < 2 ^ 31 → Forall op_ok ops →
  ∃ names F, forest_ok 0 F ∧ tree_rep (built ops) names F.
Proof. intros Hc Hok. destruct (run_new_sim ops Hc Hok) as (F & (HF & (names & Ht) & _) & _). by exists names, F. Qed.

(** The path of a node leads to the node. *)
Lemma lookup_node_path t F m x q : stands t F m → at_path F q x → lookup t (join q) Exact = Some x.
Proof.
  intros Hst Hq. pose proof Hst as (HF & (names & Ht) & Hm). pose proof (at_path_names F q x HF Hq) as Hval. pose proof (lookup_sim t F m (join q) Hst) as Hl.
  assert (s_lookup m (join q) = Some q) as E.
  { unfold s_lookup. rewrite scan_join by (eapply Forall_impl; [exact Hval|apply valid_comp]). apply s_walk_path; [|done]. intros k. cbn.
    destruct (at_path_app F 0 (take k q) (drop k q) x HF) as [y Hy]; [by rewrite take_drop|]. destruct (at_path_in F 0 _ y HF Hy) as [gy Hgy].
    by rewrite (shows_at F m _ y gy Hm Hy Hgy). }
  rewrite E in Hl. destruct (lookup t (join q) Exact) as [y|]; [|done]. f_equal. by eapply at_path_inj.
Qed.

(** [path_of] and [lookup] are inverse: looking up the path of a live node
    gives the node. *)
Theorem path_of_lookup ops x : total_cost ops < 2 ^ 31 → Forall op_ok ops → 0 <= x → valid (built ops) x = true →
  lookup (built ops) (path_of (built ops) x c_slash) Exact = Some x.
Proof.
  intros Hc Hok Hx Hv. destruct (run_new_sim ops Hc Hok) as (F & Hst & _). pose proof Hst as (HF & (names & Ht) & Hm).
  destruct (proj1 (valid_spec _ names F x Ht Hx) Hv) as [g Hg]. destruct (fo_reach _ _ HF x g Hg) as [q Hq].
  rewrite (path_of_spec _ F _ q x Hst Hq). by eapply lookup_node_path.
Qed.

(** C22: case-insensitive lookup of a child prefers the exact name; otherwise it
    finds a child with the same case folding whenever there is one. *)
Theorem find_child_insensitive ops p s : total_cost ops < 2 ^ 31 → Forall op_ok ops → 0 <= p → valid (built ops) p = true →
  let t := built ops in let fold n := casefold_append n [] in
  match find_child t p s CaseInsensitive with
  | Some c => c ∈ for_each_child t p ∧ fold (name t c) = fold s ∧ (name t c = s ∨ ∀ c', c' ∈ for_each_child t p → name t c' ≠ s)
  | None => ∀ c', c' ∈ for_each_child t p → fold (name t c') ≠ fold s
  end.
Proof.
  intros Hc Hok Hp Hv t fold. destruct (run_new_sim ops Hc Hok) as (F & Hst & _). fold t in Hv, Hst. pose proof Hst as (HF & (names & Ht) & Hm).
  destruct (proj1 (valid_spec t names F p Ht Hp) Hv) as [g Hg]. destruct (fo_reach _ _ HF p g Hg) as [q Hq].
  destruct (kids_of t F _ q p Hst Hq) as (g' & Hg' & -> & _ & _ & _). assert (g' = g) as -> by congruence.
  assert (∀ c, c ∈ g_kids g ↔ child F p (name t c) c) as Hk.
  { intros c. rewrite (fo_kid _ _ HF p g c Hg). unfold child. split; [intros (? & _ & h & Hh & Ep)|intros (? & h & Hh & Ep & _)]; [|by eauto].
    split; [done|]. exists h. by rewrite (name_spec t names F c h Ht Hh). }
  assert (∀ c s', child F p s' c → name t c = s') as Hn by (intros c s' (_ & h & Hh & _ & <-); by eapply name_spec).
  pose proof (find_child_folded t names F p s HF Ht Hp) as Hf. destruct (find_child t p s CaseInsensitive) as [c|].
  - destruct Hf as [Hf|(Hno & s' & Hf & E)]; pose proof (Hn _ _ Hf) as En; rewrite <- En in Hf; apply Hk in Hf; (split; [done|]); unfold fold; rewrite En.
    + split; [done|by left].
    + split; [done|]. right. intros c' Hc' E'. apply Hk in Hc'. rewrite E' in Hc'. by eapply Hno.
  - intros c' Hc'. apply Hk in Hc'. by eapply Hf.
Qed.

(** C21: what [export_snapshot] emits loads without an error and without losing
    an entry, and the tree it loads as shows the same at every path below the
    root (the root's own attributes are not exported). *)
Theorem snapshot_roundtrip ops : total_cost ops < 2 ^ 31 → Forall op_ok ops → live_ (built ops) <= 2 ^ 31 →
  let t := built ops in let t' := (load_snapshot (tree_new (M := M)) (export_snapshot t)).1 in
  (load_snapshot (tree_new (M := M)) (export_snapshot t)).2 = Ok () ∧ live_ t' = live_ t
  ∧ ∀ path, lookup t path Exact ≠ Some root → observe t' path = observe t path.
Proof.
  intros Hc Hok Hlive t t'. destruct (run_new_sim ops Hc Hok) as (F & Hst & _). fold t in Hst, Hlive. set (m := (s_run s_new ops).1) in *.
  destruct (export_spec t F m Hst) as (El & He & Hz). rewrite (live_spec t F m Hst) in Hlive |- *.
  destruct (load_sim (tree_new (M := M)) f_root s_new (export_snapshot t) 0 new_stands) as (F' & Hst' & _ & Hr); [done|lia| |].
  { eapply short_entries; [|done]. apply s_run_short; [apply s_new_short|done]. }
  rewrite El in Hst', Hr. fold t' in Hst'. split_and!; [done| |].
  - rewrite (live_spec t' F' _ Hst'). f_equal. cbn [fst]. unfold rooted. rewrite map_size_insert.
    destruct Hst as (HF & _ & Hm). destruct (fo_root _ _ HF) as (g & Hg & _). by rewrite (shows_at F m [] 0 g Hm (at_root F) Hg).
  - intros path Hp. rewrite (observe_spec t' F' _ path Hst'), (observe_spec t F m path Hst). apply s_observe_rooted. intros E.
    pose proof (lookup_sim t F m path Hst) as Hl. rewrite E in Hl. destruct (lookup t path Exact) as [x|]; [|done]. apply Hp. f_equal.
    inversion Hl as [|q' ? ? ? ? ? Eq]; [done|by destruct q'].
Qed.

(** A load stops only at an entry that names a parent not yet seen. *)
Lemma load_loop_ok es : ∀ (t : MetadataTree M) ids k, (∀ (i : nat) e, es !! i = Some e → se_parent e <= k + Z.of_nat i) → (load_loop t ids k es).2 = Ok ().
Proof.
  induction es as [|e es IH]; intros t ids k He; [done|]. cbn [load_loop]. pose proof (He 0%nat e eq_refl). destruct (Z.gtb_spec (se_parent e) k); [lia|].
  assert (∀ (i : nat) e', es !! i = Some e' → se_parent e' <= k + 1 + Z.of_nat i) as Hn by (intros i e' Hi; specialize (He (S i) e' Hi); lia).
  case_match; [by apply IH|]. destruct (insert _ _ _ _) as [t1 []]; by apply IH.
Qed.

(** A scan of a directory always loads: whatever the filesystem lists, the
    entries of the walk are numbered so that no parent follows its child, and
    [load_snapshot] never reports a corrupt snapshot. *)
Theorem scan_loads `{FileSystem Fs} fuel (fs : Fs) dir skip one_fs w (t : MetadataTree M) :
  scan_tree fuel fs dir skip one_fs = Ok w → (load_snapshot t (w_out w)).2 = Ok ().
Proof.
  unfold scan_tree. case_match; [done|]. intros [= <-]. apply load_loop_ok. intros i e Hi.
  match type of Hi with w_out ?w !! _ = _ => assert (walk_inv w) as (_ & _ & Hw) end; [|specialize (Hw i e Hi); lia].
  apply scan_loop_inv, walk_start_inv.
Qed.
End props.

(** ** A run on the open-addressing map *)

Definition file_attr : Attributes := mkAttr 7 1 420 File.
Definition demo_ops : list TreeOp :=
  [OpUpsertPath (str "a/b/README") file_attr;
   OpUpsertPath (str "a/b/readme") file_attr;
   OpInsert (str "a") (str "c") kImplicitDirectory;
   OpInsert (str "a/b/README") (str "x") file_attr;
   OpRename (str "a/b") (str "a/c") (str "d");
   OpRename (str "a") (str "a/c") (str "e");
   OpUpsertPath (str "tmp/x") file_attr;
   OpSetAttributes (str "tmp") file_attr;
   OpRemovePath (str "nowhere")].

Lemma demo_ok : Forall op_ok demo_ops.
Proof. repeat constructor; vm_compute; (reflexivity || (intros; discriminate)). Qed.

Lemma tree_refines_pathmap_witness :
  observe (run (tree_new (M := U64Map)) demo_ops).1 (str "a/c/./d/../d/README") = s_observe (s_run s_new demo_ops).1 (str "a/c/./d/../d/README")
  ∧ (run (tree_new (M := U64Map)) demo_ops).2
    = [Ok (); Ok (); Ok (); Err NotADirectory; Ok (); Err InvalidArgument; Ok (); Ok (); Err NotFound]
  ∧ s_observe (s_run s_new demo_ops).1 (str "a/c/d") = Some (kImplicitDirectory, str "a/c/d", 2, {[str "README"; str "readme"]}).
Proof.
  destruct (tree_refines_pathmap (M := U64Map) demo_ops) as (Hr & Ho & _); [vm_compute; reflexivity|apply demo_ok|].
  split; [apply Ho|]. split; [rewrite Hr; vm_compute; reflexivity|]. vm_compute. reflexivity.
Defined.

Lemma tree_invariant_witness : total_cost demo_ops = 12 ∧ ∃ names F, forest_ok 0 F ∧ tree_rep (run (tree_new (M := U64Map)) demo_ops).1 names F.
Proof. split; [vm_compute; reflexivity|]. apply (tree_invariant (M := U64Map) demo_ops); [vm_compute; reflexivity|apply demo_ok]. Defined.

Lemma path_of_lookup_witness :
  path_of (run (tree_new (M := U64Map)) demo_ops).1 3 c_slash = str "a/c/d/README"
  ∧ lookup (run (tree_new (M := U64Map)) demo_ops).1 (path_of (run (tree_new (M := U64Map)) demo_ops).1 3 c_slash) Exact = Some 3.
Proof. split; [vm_compute; reflexivity|]. apply (path_of_lookup (M := U64Map) demo_ops 3); [vm_compute; reflexivity|apply demo_ok|lia|vm_compute; reflexivity]. Defined.

Lemma find_child_insensitive_witness :
  find_child (run (tree_new (M := U64Map)) demo_ops).1 2 (str "ReadMe") CaseInsensitive = Some 3
  ∧ (name (run (tree_new (M := U64Map)) demo_ops).1 3 = str "ReadMe"
     ∨ ∀ c', c' ∈ for_each_child (run (tree_new (M := U64Map)) demo_ops).1 2 → name (run (tree_new (M := U64Map)) demo_ops).1 c' ≠ str "ReadMe").
Proof.
  pose proof (find_child_insensitive (M := U64Map) demo_ops 2 (str "ReadMe") ltac:(vm_compute; reflexivity) demo_ok ltac:(lia) ltac:(vm_compute; reflexivity)) as Hf.
  assert (find_child (run (tree_new (M := U64Map)) demo_ops).1 2 (str "ReadMe") CaseInsensitive = Some 3) as E by (vm_compute; reflexivity).
  cbv zeta in Hf. rewrite E in Hf. split; [exact E|apply Hf].
Defined.

Lemma snapshot_roundtrip_witness :
  zlen (export_snapshot (run (tree_new (M := U64Map)) demo_ops).1) = 6
  ∧ (load_snapshot (tree_new (M := U64Map)) (export_snapshot (run (tree_new (M := U64Map)) demo_ops).1)).2 = Ok ().
Proof.
  split; [vm_compute; reflexivity|]. apply (snapshot_roundtrip (M := U64Map) demo_ops); [vm_compute; reflexivity|apply demo_ok|vm_compute; discriminate].
Defined.

Lemma scan_loads_witness :
  ∃ w, scan_tree 10 mem_demo (str "/r") (λ _ _, false) true = Ok w ∧ length (w_out w) = 4%nat
    ∧ (load_snapshot (tree_new (M := U64Map)) (w_out w)).2 = Ok ().
Proof.
  eexists. do 2 (split; [vm_compute; reflexivity|]). eapply (scan_loads (M := U64Map) 10 mem_demo (str "/r") (λ _ _, false) true). vm_compute. reflexivity.
Defined.
