(* ===== verification/ScanProps.v ===== *)
(** * What a scan finds

    The walk of [Scanner] against the disk: [found] says which entries a walk of
    a filesystem should report, with no queue and no indices.  The walk ends,
    reports each of them once and nothing else, and the tree that loads its
    snapshot is a mirror of the disk. *)

From S2P Require Import Prelude Types KeyMap FlatMap Path Unicode StringPool MetadataTree Forest TreeIndex TreeLinks TreeInv TreeRelease TreeOps TreeSpec TreeRefine FileSystem Resolve Scanner.

(** ** The disk *)

Section disk.
Context {F : Type} `{FileSystem F}.
Context (fs : F) (dir : bytes) (skip : bytes → bool → bool) (dev : option Z).

(** The path the walk opens for the names [q] below its root, and the path
    relative to the root it shows to the ignore rules. *)
Definition full (q : list bytes) : bytes := foldl join_relative dir q.
Definition rel_step (rel name : bytes) : bytes := if bool_decide (rel = []) then name else rel ++ c_slash :: name.
Definition rel_of (q : list bytes) : bytes := foldl rel_step [] q.

(** What there is at [q]: its attributes, and whether the walk goes into it.
    Nothing for what cannot be read, is no file, directory or link, or is
    ignored. *)
Definition entry_at (q : list bytes) : option (Attributes * bool) :=
  st ← fs_lstat fs (full q);
  let a := attributes_from st in
  let is_dir := is_directory_kind (a_kind a) in
  let foreign := match dev, fs_device fs (full q) with Some r, Some d => negb (d =? r) | _, _ => false end in
  if bool_decide (a_kind a = Other) || skip (rel_of q) is_dir then None else Some (a, is_dir && negb foreign).

(** The names in a directory, none if it cannot be listed, and its entries. *)
Definition listed (p : list bytes) : list bytes := default [] (fs_list fs (full p)).
Definition found_in (p q : list bytes) (a : Attributes) (d : bool) : Prop :=
  ∃ s, s ∈ listed p ∧ q = p ++ [s] ∧ entry_at q = Some (a, d).

(** The directories a walk opens, and the entries of those. *)
Inductive walked : list bytes → Prop :=
| walked_root : walked []
| walked_sub p q a : walked p → found_in p q a true → walked q.
Definition found (q : list bytes) (a : Attributes) : Prop := ∃ p d, walked p ∧ found_in p q a d.

Lemma full_snoc q s : full (q ++ [s]) = join_relative (full q) s.
Proof. unfold full. by rewrite foldl_snoc. Qed.
Lemma rel_snoc q s : rel_of (q ++ [s]) = rel_step (rel_of q) s.
Proof. unfold rel_of. by rewrite foldl_snoc. Qed.

(** ** One directory *)

(** The entries found among [names], with their attributes. *)
Definition here (q : list bytes) (names : list bytes) : list (bytes * (Attributes * bool)) :=
  omap (λ s, pair s <$> entry_at (q ++ [s])) names.

Definition child_entry (i : Z) (h : bytes * (Attributes * bool)) : SnapshotEntry := mkSnap i h.1 h.2.1.

(** The directories to queue, numbered from [next] on. *)
Fixpoint to_queue (q : list bytes) (next : Z) (hs : list (bytes * (Attributes * bool))) : list Pending :=
  match hs with
  | [] => []
  | (s, (_, d)) :: hs =>
      (if d : bool then [mkPending (full (q ++ [s])) (rel_of (q ++ [s])) next] else []) ++ to_queue q (wrap 32 (next + 1)) hs
  end.

Lemma scan_entry_spec d q w s : p_path d = full q → p_rel d = rel_of q →
  let w' := scan_entry fs skip dev d w s in
  match entry_at (q ++ [s]) with
  | None => w_out w' = w_out w ∧ w_queue w' = w_queue w ∧ w_next w' = w_next w
  | Some (a, b) => w_out w' = w_out w ++ [mkSnap (p_index d) s a] ∧ w_next w' = wrap 32 (w_next w + 1)
      ∧ w_queue w' = w_queue w ++ (if b then [mkPending (full (q ++ [s])) (rel_of (q ++ [s])) (w_next w)] else [])
  end.
Proof.
  intros Hp Hr. unfold scan_entry, entry_at. rewrite Hp, Hr, full_snoc, rel_snoc. unfold rel_step. destruct (fs_lstat fs _) as [st|]; [|done]. cbn [mbind option_bind].
  generalize (attributes_from st) as a. intros a. destruct (a_kind a) eqn:Ek; cbn [is_directory_kind]; [| | |done];
    (rewrite bool_decide_eq_false_2 by done); cbn [orb]; (destruct (skip _ _); [done|]); cbn; rewrite ?app_nil_r; try done.
  destruct dev as [r|]; [|done]. destruct (fs_device fs _) as [d'|]; [|done]. by destruct (negb (d' =? r)); cbn; rewrite ?app_nil_r.
Qed.

Lemma scan_names_spec d q names : ∀ w, p_path d = full q → p_rel d = rel_of q →
  let w' := foldl (scan_entry fs skip dev d) w names in
  w_out w' = w_out w ++ (child_entry (p_index d) <$> here q names)
  ∧ w_queue w' = w_queue w ++ to_queue q (w_next w) (here q names).
Proof.
  induction names as [|s names IH]; intros w Hp Hr; cbn; [by rewrite !app_nil_r|].
  pose proof (scan_entry_spec d q w s Hp Hr) as Hs. cbv zeta in Hs. destruct (IH (scan_entry fs skip dev d w s) Hp Hr) as [-> ->].
  destruct (entry_at (q ++ [s])) as [[a b]|]; cbn.
  - destruct Hs as (-> & -> & ->). by rewrite <- !app_assoc.
  - by destruct Hs as (-> & -> & ->).
Qed.

Lemma here_elem q names s a d : (s, (a, d)) ∈ here q names ↔ s ∈ names ∧ entry_at (q ++ [s]) = Some (a, d).
Proof.
  unfold here. rewrite list_elem_of_omap. split.
  - intros (s' & Hs & E). destruct (entry_at (q ++ [s'])) eqn:E'; [|done]. by injection E as -> ->.
  - intros [Hs E]. exists s. by rewrite E.
Qed.

Lemma here_nodup q names : NoDup names → NoDup (here q names).*1.
Proof.
  unfold here. induction 1 as [|s names Hs _ IH]; [constructor|]. cbn. destruct (entry_at _) as [[a d]|]; cbn; [|done]. apply NoDup_cons. split; [|done].
  intros ([s' [a' d']] & -> & Hin)%list_elem_of_fmap. by apply here_elem in Hin as [? _].
Qed.

(** ** Where the entries of a walk are *)

(** [L] holds the place of every entry so far, from the root on. *)
Fixpoint locate (L : list (list bytes)) (es : list SnapshotEntry) : list (list bytes * Attributes) :=
  match es with
  | [] => []
  | e :: es => let q := (L !!! Z.to_nat (se_parent e)) ++ [se_name e] in (q, se_attr e) :: locate (L ++ [q]) es
  end.
Definition places (es : list SnapshotEntry) : list (list bytes) := [] :: (locate [[]] es).*1.

Lemma locate_app L es es' : locate L (es ++ es') = locate L es ++ locate (L ++ (locate L es).*1) es'.
Proof. revert L. induction es as [|e es IH]; intros L; cbn; [by rewrite app_nil_r|]. by rewrite IH, <- app_assoc. Qed.

Lemma locate_length L es : length (locate L es) = length es.
Proof. revert L. induction es as [|e es IH]; intros L; cbn; [done|]. by rewrite IH. Qed.

Lemma zlen_places es : zlen (places es) = zlen es + 1.
Proof. unfold places. rewrite zlen_cons. unfold zlen. rewrite length_fmap, locate_length. lia. Qed.

Definition child_place (q : list bytes) (h : bytes * (Attributes * bool)) : list bytes * Attributes := (q ++ [h.1], h.2.1).

Lemma locate_children L q i hs : L !! Z.to_nat i = Some q → locate L (child_entry i <$> hs) = child_place q <$> hs.
Proof.
  revert L. induction hs as [|[s [a d]] hs IH]; intros L HL; [done|]. cbn. rewrite (list_lookup_total_correct _ _ _ HL). unfold child_place at 1. cbn. f_equal.
  apply IH. by apply lookup_app_l_Some.
Qed.

Definition queued (L : list (list bytes)) (p : Pending) (q : list bytes) : Prop :=
  p_path p = full q ∧ p_rel p = rel_of q ∧ L !! Z.to_nat (p_index p) = Some q.

Definition subdirs (q : list bytes) (hs : list (bytes * (Attributes * bool))) : list (list bytes) :=
  omap (λ h, if h.2.2 : bool then Some (q ++ [h.1]) else None) hs.

Lemma to_queue_spec q hs : ∀ L next, zlen L = next → next + zlen hs < 2 ^ 32 →
  Forall2 (queued (L ++ (child_place q <$> hs).*1)) (to_queue q next hs) (subdirs q hs).
Proof.
  induction hs as [|[s [a d]] hs IH]; intros L next HL Hb; [constructor|]. rewrite zlen_cons in Hb. pose proof (zlen_nonneg hs). pose proof (zlen_nonneg L).
  cbn. specialize (IH (L ++ [q ++ [s]]) (next + 1)). rewrite <- app_assoc in IH. cbn in IH. rewrite wrap_id by lia.
  assert (Forall2 (queued (L ++ (q ++ [s]) :: (child_place q <$> hs).*1)) (to_queue q (next + 1) hs) (subdirs q hs)) as Ht.
  { apply IH; [rewrite zlen_app, zlen_cons, zlen_nil; lia|lia]. }
  destruct d; cbn; [|done]. constructor; [|done]. split_and!; [done..|]. cbn. unfold zlen in HL. rewrite lookup_app_r by lia. by replace (Z.to_nat next - length L)%nat with 0%nat by lia.
Qed.

Lemma subdirs_elem p x : x ∈ subdirs p (here p (listed p)) ↔ ∃ a, found_in p x a true.
Proof.
  unfold subdirs. rewrite list_elem_of_omap. split.
  - intros ([s [a []]] & Hs & E); [|done]. injection E as <-. apply here_elem in Hs as [Hs Ha]. exists a, s. by split_and!.
  - intros (a & s & Hs & -> & Ha). exists (s, (a, true)). split; [by apply here_elem|done].
Qed.

Lemma subdirs_nodup q hs : NoDup hs.*1 → NoDup (subdirs q hs).
Proof.
  unfold subdirs. induction hs as [|[s [a d]] hs IH]; cbn; [constructor|]. intros [Hs Hn]%NoDup_cons. destruct d; cbn; [|by apply IH]. apply NoDup_cons. split; [|by apply IH].
  intros ([s' [a' []]] & Hin & E)%list_elem_of_omap; [|done]. injection E as E. apply app_inv_head in E. injection E as ->. apply Hs. apply list_elem_of_fmap. by exists (s, (a', true)).
Qed.

Lemma children_elem p q a : (q, a) ∈ child_place p <$> here p (listed p) ↔ ∃ d, found_in p q a d.
Proof.
  rewrite list_elem_of_fmap. split.
  - intros ([s [a' d]] & E & Hs). unfold child_place in E. cbn in E. injection E as -> ->. apply here_elem in Hs as [Hs Ha]. exists d, s. by split_and!.
  - intros (d & s & Hs & -> & Ha). exists (s, (a, d)). split; [done|by apply here_elem].
Qed.

Lemma children_nodup p hs : NoDup hs.*1 → NoDup (child_place p <$> hs).*1.
Proof.
  rewrite <- list_fmap_compose. intros Hn. assert ((fst ∘ child_place p) <$> hs = (λ s, p ++ [s]) <$> hs.*1) as -> by by rewrite <- list_fmap_compose.
  apply NoDup_fmap_2_strong; [|done]. by intros x y _ _ [= ->]%app_inv_head.
Qed.
(** ** The walk *)

(** What the operating system promises: no directory lists a name twice, and
    [E] has room for everything there is to find. *)
Context (E : list (list bytes)).
Hypothesis listed_nodup : ∀ p, walked p → NoDup (listed p).
Hypothesis found_bound : ∀ q a, found q a → q ∈ E.
Hypothesis entries_fit : zlen E < 2 ^ 32 - 1.

(** The state of the walk: the directories [done] have been read, those of
    [qs] are queued. *)
Record progress (w : Walk) (dirs qs : list (list bytes)) : Prop := {
  pg_inv : walk_inv w;
  pg_queue : Forall2 (queued (places (w_out w))) (w_queue w) qs;
  pg_nodup : NoDup (dirs ++ qs);
  pg_walked : Forall walked (dirs ++ qs);
  pg_root : [] ∈ dirs ++ qs;
  pg_locs : NoDup (locate [[]] (w_out w)).*1;
  pg_elem : ∀ q a, (q, a) ∈ locate [[]] (w_out w) ↔ ∃ p d, p ∈ dirs ∧ found_in p q a d;
  pg_subdirs : ∀ p q a, p ∈ dirs → found_in p q a true → q ∈ dirs ++ qs;
  pg_origin : ∀ q, q ∈ dirs ++ qs → q = [] ∨ ∃ p a, p ∈ dirs ∧ found_in p q a true
}.

Lemma found_in_inj p p' q a a' d d' : found_in p q a d → found_in p' q a' d' → p = p' ∧ a = a' ∧ d = d'.
Proof. intros (s & _ & -> & E1) (s' & _ & Eq & E2). apply app_inj_tail in Eq as [-> ->]. rewrite E1 in E2. by injection E2 as -> ->. Qed.

(** The entries so far are among those there are. *)
Lemma located_bound es dirs : Forall walked dirs → NoDup (locate [[]] es).*1 →
  (∀ q a, (q, a) ∈ locate [[]] es → ∃ p d, p ∈ dirs ∧ found_in p q a d) → zlen es <= zlen E.
Proof.
  intros Hw Hnd Hel. unfold zlen. rewrite <- (locate_length [[]] es), <- (length_fmap fst). apply inj_le, submseteq_length, NoDup_submseteq; [done|].
  intros q ([q' a] & -> & Hin)%list_elem_of_fmap. destruct (Hel _ _ Hin) as (p & d & Hp & Hf). rewrite Forall_forall in Hw. eapply found_bound. exists p, d. split; [by apply Hw|done].
Qed.

Lemma progress_bound w dirs qs : progress w dirs qs → zlen (w_out w) <= zlen E ∧ (length dirs <= S (length E))%nat.
Proof.
  intros [P1 P2 P3 P4 P5 P6 P7 P8 P9]. apply Forall_app in P4 as [P4 _]. split.
  - apply (located_bound _ dirs); [done..|]. intros. by apply P7.
  - change (S (length E)) with (length ([] :: E)). apply submseteq_length, NoDup_submseteq; [by apply NoDup_app in P3 as [? _]|].
    intros q Hq. destruct (P9 q) as [->|(p & a & Hp & Hf)]; [apply elem_of_app; by left|by left|]. apply elem_of_cons. right. rewrite Forall_forall in P4.
    eapply found_bound. exists p, true. split; [by apply P4|done].
Qed.

Lemma progress_start : progress (mkWalk [] [mkPending dir [] 0] 1 (mkScan 0 0 0 0)) [] [[]].
Proof.
  split; cbn.
  - apply walk_start_inv.
  - constructor; [by split_and!|constructor].
  - apply NoDup_singleton.
  - apply Forall_singleton, walked_root.
  - set_solver.
  - constructor.
  - intros q a. split; [by intros ?%elem_of_nil|]. by intros (p & d & ?%elem_of_nil & _).
  - by intros p q a ?%elem_of_nil.
  - intros q ->%list_elem_of_singleton. by left.
Qed.

(** Reading one directory. *)
Lemma progress_step w w' d q queue dirs qs :
  progress w dirs (q :: qs) → w_queue w = d :: queue → walk_inv w' →
  w_out w' = w_out w ++ (child_entry (p_index d) <$> here q (listed q)) →
  w_queue w' = queue ++ to_queue q (w_next w) (here q (listed q)) →
  progress w' (dirs ++ [q]) (qs ++ subdirs q (here q (listed q))).
Proof.
  intros [P1 P2 P3 P4 P5 P6 P7 P8 P9] Eq Hinv Eout Equeue. rewrite Eq in P2. apply Forall2_cons in P2 as [(Hpath & Hrel & Hidx) P2].
  set (hs := here q (listed q)) in *. assert (walked q) as Hwq by (rewrite Forall_forall in P4; apply P4, elem_of_app; right; by left).
  assert (q ∉ dirs) as Hq by (apply NoDup_app in P3 as (_ & P3 & _); intros Hin; apply (P3 q Hin); by left).
  assert (NoDup hs.*1) as Hhs by (by apply here_nodup, listed_nodup).
  assert (locate [[]] (w_out w') = locate [[]] (w_out w) ++ (child_place q <$> hs)) as Eloc.
  { rewrite Eout, locate_app. f_equal. by apply locate_children. }
  assert (∀ x a, (x, a) ∈ locate [[]] (w_out w') ↔ ∃ p d, p ∈ dirs ++ [q] ∧ found_in p x a d) as Hel.
  { intros x a. rewrite Eloc, elem_of_app, P7. unfold hs. rewrite children_elem. setoid_rewrite elem_of_app. setoid_rewrite list_elem_of_singleton. naive_solver. }
  assert (NoDup (locate [[]] (w_out w')).*1) as Hnd.
  { rewrite Eloc, fmap_app. apply NoDup_app. split_and!; [done| |by apply children_nodup].
    intros x ([x1 a] & -> & (p & b & Hp & Hf)%P7)%list_elem_of_fmap ([x2 a'] & Ex & (b' & Hf')%children_elem)%list_elem_of_fmap. cbn in Ex. subst x2.
    destruct (found_in_inj _ _ _ _ _ _ _ Hf Hf') as (-> & _). done. }
  assert (Forall walked (dirs ++ [q])) as Hwd. { apply Forall_app. apply Forall_app in P4 as [? _]. split; [done|by apply Forall_singleton]. }
  assert (zlen (w_out w') <= zlen E) as Hb by (apply (located_bound _ (dirs ++ [q])); [done..|]; intros x a; apply Hel).
  assert (zlen (w_out w') = zlen (w_out w) + zlen hs) as Hz. { rewrite Eout, zlen_app. unfold zlen at 2. by rewrite length_fmap. }
  assert (∀ x, x ∈ subdirs q hs → x ∉ dirs ++ q :: qs) as Hfresh.
  { intros x (a & Hf)%subdirs_elem [->|(p & a' & Hp & Hf')]%P9; [by destruct Hf as (s & _ & ?%(f_equal length) & _); rewrite length_app in *; cbn in *; lia|].
    by destruct (found_in_inj _ _ _ _ _ _ _ Hf Hf') as (-> & _). }
  assert (dirs ++ q :: qs ++ subdirs q hs ≡ₚ (dirs ++ q :: qs) ++ subdirs q hs) as Hperm by (by rewrite <- app_assoc).
  assert (∀ x, x ∈ (dirs ++ [q]) ++ qs ++ subdirs q hs ↔ x ∈ dirs ++ q :: qs ∨ x ∈ subdirs q hs) as Hin by (intros x; rewrite <- app_assoc; cbn; rewrite !elem_of_app, !elem_of_cons, elem_of_app; tauto).
  split; try done.
  - rewrite Equeue. pose proof (zlen_nonneg (w_out w)). pose proof (zlen_nonneg hs). destruct P1 as (Hn & _ & _).
    assert (places (w_out w') = places (w_out w) ++ (child_place q <$> hs).*1) as -> by (unfold places; by rewrite Eloc, fmap_app).
    apply Forall2_app.
    + eapply Forall2_impl; [exact P2|]. intros p x (? & ? & ?). split_and!; [done..|]. by apply lookup_app_l_Some.
    + rewrite Hn, wrap_id by lia. apply to_queue_spec; [by rewrite zlen_places|lia].
  - rewrite <- app_assoc. cbn. rewrite Hperm. apply NoDup_app. split_and!; [done| |by apply subdirs_nodup]. intros x Hx Hs. by apply (Hfresh x).
  - apply Forall_forall. intros x [Hx|Hx]%Hin; [by rewrite Forall_forall in P4; apply P4|]. apply subdirs_elem in Hx as [a Hf]. by eapply walked_sub.
  - apply Hin. by left.
  - intros p x a [Hp| ->%list_elem_of_singleton]%elem_of_app Hf; apply Hin; [left; by eapply P8|right]. apply subdirs_elem. by exists a.
  - intros x [Hx|Hx]%Hin.
    + destruct (P9 x Hx) as [->|(p & a & ? & ?)]; [by left|right; exists p, a; split; [apply elem_of_app; by left|done]].
    + apply subdirs_elem in Hx as [a Hf]. right. exists q, a. split; [apply elem_of_app; right; by apply list_elem_of_singleton|done].
Qed.

Lemma scan_loop_progress fuel : ∀ w dirs qs, progress w dirs qs → (S (length E) < fuel + length dirs)%nat →
  ∃ dirs', progress (scan_loop fuel fs skip dev w) dirs' [].
Proof.
  induction fuel as [|fuel IH]; intros w dirs qs Hw Hf.
  { apply progress_bound in Hw as [_ ?]. lia. }
  cbn [scan_loop]. pose proof (pg_queue _ _ _ Hw) as Hq. destruct (w_queue w) as [|d queue] eqn:Eq; [apply Forall2_nil_inv_l in Hq as ->; by eexists|].
  apply Forall2_cons_inv_l in Hq as (q & qs' & (Hp & Hr & _) & _ & ->).
  assert (∀ w', walk_inv w' → w_out w' = w_out w ++ (child_entry (p_index d) <$> here q (listed q)) → w_queue w' = queue ++ to_queue q (w_next w) (here q (listed q)) →
    ∃ dirs', progress (scan_loop fuel fs skip dev w') dirs' []) as Hstep.
  { intros w' Hi Ho Hq'. eapply IH; [by eapply progress_step|]. rewrite length_app. cbn. lia. }
  cbn zeta. rewrite Hp. pose proof (pg_inv _ _ _ Hw) as (Hn & Hq & Hpar). rewrite Eq in Hq. apply Forall_cons in Hq as [Hd Hq].
  assert (∀ s, walk_inv (mkWalk (w_out w) queue (w_next w) s)) as Hi by (intros; by split_and!).
  unfold listed in Hstep. destruct (fs_list fs (full q)) as [names|]; apply Hstep; cbn; rewrite ?app_nil_r; try done.
  - by apply scan_names_inv.
  - by destruct (scan_names_spec d q names (mkWalk (w_out w) queue (w_next w) (w_stats w)) Hp Hr) as [-> _].
  - by destruct (scan_names_spec d q names (mkWalk (w_out w) queue (w_next w) (w_stats w)) Hp Hr) as [_ ->].
Qed.

(** The walk ends and reports every entry once. *)
Lemma scan_complete fuel : (S (length E) < fuel)%nat →
  let w := scan_loop fuel fs skip dev (mkWalk [] [mkPending dir [] 0] 1 (mkScan 0 0 0 0)) in
  w_queue w = [] ∧ NoDup (locate [[]] (w_out w)).*1 ∧ ∀ q a, (q, a) ∈ locate [[]] (w_out w) ↔ found q a.
Proof.
  intros Hf w. destruct (scan_loop_progress fuel _ [] [[]] progress_start) as [dirs [P1 P2 P3 P4 P5 P6 P7 P8 P9]]; [cbn; lia|]. fold w in P1, P2, P6, P7.
  rewrite !app_nil_r in *. split_and!; [by apply Forall2_nil_inv_r in P2|done|].
  assert (∀ p, walked p → p ∈ dirs) as Hall. { induction 1 as [|p q a _ IH Hq]; [done|]. by eapply P8. }
  intros q a. rewrite P7. split; intros (p & d & Hp & Hfd); exists p, d; (split; [|done]); [|by apply Hall]. rewrite Forall_forall in P4. by apply P4.
Qed.
End disk.

(** ** Loading entries by their places *)

(** The places the tree can represent: [valid_name] drops the other names, with
    all that is below them. *)
Definition named (q : list bytes) : bool := forallb valid_name q.
Definition placed (q : list bytes) : option (list bytes) := if named q then Some q else None.

(** [m] holds the entries of [l] that have a valid place, and the root. *)
Definition mirrors (m : pathmap) (l : list (list bytes * Attributes)) : Prop :=
  ∀ q a, m !! q = Some a ↔ (q = [] ∧ a = kImplicitDirectory) ∨ (named q = true ∧ (q, a) ∈ l).

Section load.
Context (es : list SnapshotEntry).
Hypothesis parents_precede : ∀ (k : nat) e, es !! k = Some e → 0 <= se_parent e <= Z.of_nat k.
Hypothesis places_distinct : NoDup (locate [[]] es).*1.
Hypothesis parents_dirs : ∀ p s a d, (p ++ [s], a) ∈ locate [[]] es → (p, d) ∈ locate [[]] es → s_dir d = true.

Lemma named_snoc p s : named (p ++ [s]) = named p && valid_name s.
Proof. unfold named. rewrite forallb_app. cbn. by rewrite andb_true_r. Qed.

(** One more entry of the list. *)
Lemma load_step m es0 e es1 : es = es0 ++ e :: es1 → mirrors m (locate [[]] es0) →
  ∃ p, places es0 !! Z.to_nat (se_parent e) = Some p ∧ places (es0 ++ [e]) = places es0 ++ [p ++ [se_name e]]
    ∧ locate [[]] (es0 ++ [e]) = locate [[]] es0 ++ [(p ++ [se_name e], se_attr e)]
    ∧ (named p = true → ∃ d, m !! p = Some d ∧ s_dir d = true ∧ (valid_name (se_name e) = true → m !! (p ++ [se_name e]) = None)).
Proof.
  intros Ees Hm. assert (0 <= se_parent e <= zlen es0) as Hpar.
  { unfold zlen. apply (parents_precede (length es0) e). rewrite Ees, lookup_app_r by lia. by replace (length es0 - length es0)%nat with 0%nat by lia. }
  destruct (lookup_lt_is_Some_2 (places es0) (Z.to_nat (se_parent e))) as [p Hp]; [pose proof (zlen_places es0); unfold zlen in *; lia|].
  assert (locate [[]] (es0 ++ [e]) = locate [[]] es0 ++ [(p ++ [se_name e], se_attr e)]) as Eloc.
  { rewrite locate_app. f_equal. cbn. unfold places in Hp. by rewrite (list_lookup_total_correct _ _ _ Hp). }
  assert (places (es0 ++ [e]) = places es0 ++ [p ++ [se_name e]]) as Epl by (unfold places; by rewrite Eloc, fmap_app).
  exists p. split_and!; [done..|]. intros Hv.
  assert (locate [[]] es = (locate [[]] es0 ++ [(p ++ [se_name e], se_attr e)]) ++ locate ([[]] ++ (locate [[]] (es0 ++ [e])).*1) es1) as Eall.
  { rewrite <- Eloc, <- locate_app. by rewrite <- app_assoc, Ees. }
  assert (m !! (p ++ [se_name e]) = None) as Hfree.
  { apply eq_None_not_Some. intros [a [[E _]|[_ Hin]]%Hm]; [by destruct p|]. pose proof places_distinct as Hnd. rewrite Eall, !fmap_app in Hnd.
    apply NoDup_app in Hnd as (Hnd & _ & _). apply NoDup_app in Hnd as (_ & Hnd & _). eapply Hnd; [|by apply list_elem_of_singleton]. apply list_elem_of_fmap. by exists (p ++ [se_name e], a). }
  unfold places in Hp. apply list_elem_of_lookup_2, elem_of_cons in Hp as [->|([p' d] & -> & Hd)%list_elem_of_fmap].
  - exists kImplicitDirectory. split_and!; [apply Hm; by left|done|done].
  - exists d. split_and!; [apply Hm; right; done| |done]. eapply parents_dirs; rewrite Eall; [|apply elem_of_app; left; apply elem_of_app; by left].
    apply elem_of_app. left. apply elem_of_app. right. by apply list_elem_of_singleton.
Qed.

Lemma load_located es1 : ∀ es0 m, es = es0 ++ es1 → mirrors m (locate [[]] es0) →
  mirrors (s_load_loop m (placed <$> places es0) (zlen es0) es1).1 (locate [[]] es) ∧ (s_load_loop m (placed <$> places es0) (zlen es0) es1).2 = Ok ().
Proof.
  induction es1 as [|e es1 IH]; intros es0 m Ees Hm; [by rewrite Ees, app_nil_r|].
  destruct (load_step m es0 e es1 Ees Hm) as (p & Hp & Epl & Eloc & Hins). cbn [s_load_loop].
  assert (se_parent e <= zlen es0) as Hle.
  { unfold zlen. apply (parents_precede (length es0) e). rewrite Ees, lookup_app_r by lia. by replace (length es0 - length es0)%nat with 0%nat by lia. }
  destruct (Z.gtb_spec (se_parent e) (zlen es0)); [lia|]. rewrite list_lookup_fmap, Hp. cbn [fmap option_fmap option_map].
  replace (zlen es0 + 1) with (zlen (es0 ++ [e])) by (rewrite zlen_app, zlen_cons, zlen_nil; lia).
  assert (es = (es0 ++ [e]) ++ es1) as Ees' by (by rewrite <- app_assoc).
  assert (placed <$> places (es0 ++ [e]) = (placed <$> places es0) ++ [placed (p ++ [se_name e])]) as Epl' by (by rewrite Epl, fmap_app).
  assert (∀ m', (∀ q a, m' !! q = Some a ↔ m !! q = Some a ∨ named (p ++ [se_name e]) = true ∧ q = p ++ [se_name e] ∧ a = se_attr e) → mirrors m' (locate [[]] (es0 ++ [e]))) as Hext.
  { intros m' Hm' q a. rewrite Hm', (Hm q a), Eloc, elem_of_app, list_elem_of_singleton. naive_solver. }
  assert (∀ x, placed x = if named x then Some x else None) as Epd by done. rewrite (Epd (p ++ _)) in Epl'. rewrite named_snoc in Epl', Hext. rewrite (Epd p). destruct (named p) eqn:Env; cbn [andb] in *.
  - destruct (Hins eq_refl) as (d & Hd & Hdd & Hfree). unfold s_insert. rewrite Hd, Hdd. cbn [negb].
    destruct (valid_name (se_name e)) eqn:Evn; cbn [negb].
    + rewrite (Hfree eq_refl), <- Epl'. apply IH; [done|]. apply Hext. intros x a. rewrite lookup_insert_Some. specialize (Hfree eq_refl). split.
      * intros [[<- <-]|[_ ?]]; [by right|by left].
      * intros [Hx|(_ & -> & ->)]; [right|by left]. split; [intros <-; congruence|done].
    + rewrite <- Epl'. apply IH; [done|]. apply Hext. naive_solver.
  - rewrite <- Epl'. apply IH; [done|]. apply Hext. naive_solver.
Qed.

Lemma s_load_located : mirrors (s_load es).1 (locate [[]] es) ∧ (s_load es).2 = Ok ().
Proof.
  apply (load_located es [] s_new eq_refl). intros q a. unfold s_new. rewrite lookup_singleton_Some. cbn. split; [intros [<- <-]; by left|].
  intros [[-> ->]|[_ ?%elem_of_nil]]; done.
Qed.
End load.

(** ** The mirror of a scan *)

(** What is assumed of the disk while it is read: a directory does not list a
    name twice, [E] enumerates what there is, names are short. *)
Record surveyed `{FileSystem Fs} (fs : Fs) (dir : bytes) (skip : bytes → bool → bool) (dev : option Z) (E : list (list bytes)) : Prop := {
  sv_nodup : ∀ p, walked fs dir skip dev p → NoDup (listed fs dir p);
  sv_found : ∀ q a, found fs dir skip dev q a → q ∈ E;
  sv_short : ∀ q s, q ++ [s] ∈ E → zlen s < 2 ^ 30
}.

(** [m] is the disk below the root, as far as names the tree can hold go. *)
Definition shows_disk `{FileSystem Fs} (fs : Fs) (dir : bytes) (skip : bytes → bool → bool) (dev : option Z) (m : pathmap) : Prop :=
  ∀ q a, m !! q = Some a ↔ (q = [] ∧ a = kImplicitDirectory) ∨ (named q = true ∧ found fs dir skip dev q a).

Definition root_device `{FileSystem Fs} (fs : Fs) (dir : bytes) (one_fs : bool) : option Z := if one_fs then fs_device fs dir else None.

Section mirror.
Context {Fs : Type} `{FileSystem Fs}.
Implicit Types fs : Fs.

Lemma directory_dir a : is_directory_kind (a_kind a) = true → s_dir a = true.
Proof. by destruct a as [? ? ? []]. Qed.

Lemma found_parents fs dir skip dev p s a d : found fs dir skip dev (p ++ [s]) a → found fs dir skip dev p d → s_dir d = true.
Proof.
  intros (p' & b & Hw & s' & _ & [<- <-]%app_inj_tail & _) (p2 & b2 & _ & s2 & _ & Ep & Hd). destruct Hw as [|p1 q a' _ (s1 & _ & _ & Hq)]; [by destruct p2|].
  rewrite Hq in Hd. injection Hd as <- _. unfold entry_at in Hq. destruct (fs_lstat fs _) as [st|]; [|done]. cbn [mbind option_bind] in Hq.
  destruct (bool_decide _ || _); [done|]. injection Hq as <- E. apply andb_true_iff in E as [E _]. by apply directory_dir.
Qed.

(** A list closed under listing enumerates a disk; this can be computed. *)
Definition survey_ok fs dir (E : list (list bytes)) : bool :=
  bool_decide (Forall (λ p, NoDup (listed fs dir p) ∧ Forall (λ s, p ++ [s] ∈ E ∧ zlen s < 2 ^ 30) (listed fs dir p)) ([] :: E))
  && bool_decide (Forall (Forall (λ s, zlen s < 2 ^ 30)) E).

Lemma survey_ok_surveyed fs dir skip dev E : survey_ok fs dir E = true → surveyed fs dir skip dev E.
Proof.
  unfold survey_ok. rewrite andb_true_iff, !bool_decide_eq_true, !Forall_forall. intros [Hc Hs].
  assert (∀ p, walked fs dir skip dev p → p ∈ [] :: E) as Hw.
  { induction 1 as [|p q a _ IH (s & Hin & -> & _)]; [by left|]. apply Hc in IH as [_ IH]. rewrite Forall_forall in IH. right. by apply IH. }
  split.
  - intros p Hp. apply (Hc p), Hw, Hp.
  - intros q a (p & d & Hp & s & Hin & -> & _). apply Hw, Hc in Hp as [_ Hp]. rewrite Forall_forall in Hp. by apply Hp.
  - intros q s Hq. apply Hs, Forall_app in Hq as [_ Hq]. by apply Forall_cons in Hq as [Hq _].
Qed.

(** A scan of a surveyed disk reports each entry there is once, parents first. *)
Lemma scan_finds fuel fs dir skip one_fs E : surveyed fs dir skip (root_device fs dir one_fs) E → zlen E < 2 ^ 31 → (S (length E) < fuel)%nat →
  fs_is_directory fs dir = true →
  ∃ w, scan_tree fuel fs dir skip one_fs = Ok w ∧ w_queue w = [] ∧ walk_inv w ∧ zlen (w_out w) <= zlen E
    ∧ NoDup (locate [[]] (w_out w)).*1 ∧ ∀ q a, (q, a) ∈ locate [[]] (w_out w) ↔ found fs dir skip (root_device fs dir one_fs) q a.
Proof.
  intros [S1 S2 S3] HE Hfuel Hdir. unfold scan_tree. rewrite Hdir. cbn [negb]. fold (root_device fs dir one_fs). set (dev := root_device fs dir one_fs) in *.
  destruct (scan_complete fs dir skip dev E S1 S2 ltac:(lia) fuel Hfuel) as (Hq & Hnd & Hel).
  set (w := scan_loop _ _ _ _ _) in *. exists w. assert (walk_inv w) as Hinv by apply scan_loop_inv, walk_start_inv. split_and!; try done.
  unfold zlen. rewrite <- (locate_length [[]] (w_out w)), <- (length_fmap fst). apply inj_le, submseteq_length, NoDup_submseteq; [done|].
  intros q ([q' a] & -> & Hin%Hel)%list_elem_of_fmap. by eapply S2.
Qed.

(** ... and the path map it loads as. *)
Lemma scan_surveyed fuel fs dir skip one_fs E : surveyed fs dir skip (root_device fs dir one_fs) E → zlen E < 2 ^ 31 → (S (length E) < fuel)%nat →
  fs_is_directory fs dir = true →
  ∃ w, scan_tree fuel fs dir skip one_fs = Ok w ∧ w_queue w = [] ∧ walk_inv w ∧ zlen (w_out w) <= zlen E
    ∧ Forall (λ e, zlen (se_name e) < 2 ^ 30 ∧ 0 <= se_parent e ∧ ∃ q, found fs dir skip (root_device fs dir one_fs) (q ++ [se_name e]) (se_attr e)) (w_out w)
    ∧ (s_load (w_out w)).2 = Ok () ∧ shows_disk fs dir skip (root_device fs dir one_fs) (s_load (w_out w)).1.
Proof.
  intros Hs HE Hfuel Hdir. destruct (scan_finds fuel fs dir skip one_fs E Hs HE Hfuel Hdir) as (w & Ew & Hq & Hinv & Hz & Hnd & Hel).
  pose proof Hinv as (_ & _ & Hpar). exists w. destruct (s_load_located (w_out w) Hpar Hnd) as [Hm Hr]; [intros p s a d Ha%Hel Hd%Hel; by eapply found_parents|].
  split_and!; try done.
  - apply Forall_forall. intros e [k Hk]%list_elem_of_lookup_1. pose proof (Hpar k e Hk) as [Hp _].
    assert (∃ p, (p ++ [se_name e], se_attr e) ∈ locate [[]] (w_out w)) as (p & Hin%Hel).
    { rewrite <- (take_drop_middle _ _ _ Hk), locate_app. eexists. apply elem_of_app. right. left. }
    split_and!; [|done|by exists p]. eapply (sv_short _ _ _ _ _ Hs), (sv_found _ _ _ _ _ Hs), Hin.
  - intros q a. rewrite (Hm q a). by rewrite Hel.
Qed.
End mirror.

Section props.
Context {M : Type} `{KeyMap M}.

(** C23: the mirror that loads a scan is the disk.  On a directory with finitely
    many entries to find, of which no directory lists one twice, the walk ends
    with nothing left to visit, and a tree built by any operations that loads
    its entries then has, at every path, exactly what there is: each file,
    directory and link that can be read, is not ignored and is reached without
    leaving the filesystem, with its attributes, and nothing else; only names
    the tree cannot represent are left out, with what is below them. *)
Theorem scan_mirrors_disk `{FileSystem Fs} fuel (fs : Fs) dir skip one_fs E ops :
  surveyed fs dir skip (root_device fs dir one_fs) E → zlen E < 2 ^ 31 → (S (length E) < fuel)%nat → fs_is_directory fs dir = true →
  total_cost ops < 2 ^ 31 → Forall op_ok ops →
  ∃ w m, scan_tree fuel fs dir skip one_fs = Ok w ∧ w_queue w = [] ∧ shows_disk fs dir skip (root_device fs dir one_fs) m
    ∧ let t := load_snapshot (run (tree_new (M := M)) ops).1 (w_out w) in
      t.2 = Ok () ∧ (∀ path, observe t.1 path = s_observe m path) ∧ live_ t.1 = Z.of_nat (size m).
Proof.
  intros Hs HE Hfuel Hdir Hc Hok. destruct (scan_surveyed fuel fs dir skip one_fs E Hs HE Hfuel Hdir) as (w & Ew & Hq & _ & Hz & He & Hr & Hm).
  destruct (run_new_sim ops Hc Hok) as (F & Hst & _). exists w, (s_load (w_out w)).1. split_and!; [done..|]. intros t.
  destruct (load_sim _ F _ (w_out w) 0 Hst) as (F' & Hst' & _ & Hr'); [done|lia|eapply Forall_impl; [exact He|]; naive_solver|].
  split_and!; [unfold t; by rewrite Hr', Hr|intros; by eapply observe_spec|by eapply live_spec].
Qed.
End props.

Definition demo_places : list (list bytes) := [[str "a.txt"]; [str "d"]; [str "d"; str "b"]; [str "l"]].

Lemma scan_mirrors_disk_witness :
  ∃ w m, scan_tree 10 mem_demo (str "/r") (λ _ _, false) true = Ok w ∧ shows_disk mem_demo (str "/r") (λ _ _, false) (Some 1) m
    ∧ (∀ path, observe (load_snapshot (tree_new (M := U64Map)) (w_out w)).1 path = s_observe m path) ∧ live_ (load_snapshot (tree_new (M := U64Map)) (w_out w)).1 = 5.
Proof.
  destruct (scan_mirrors_disk (M := U64Map) 10 mem_demo (str "/r") (λ _ _, false) true demo_places []) as (w & m & Ew & _ & Hm & Hr & Ho & Hl).
  - apply survey_ok_surveyed. vm_compute. reflexivity.
  - vm_compute. reflexivity.
  - vm_compute. lia.
  - vm_compute. reflexivity.
  - vm_compute. reflexivity.
  - constructor.
  - exists w, m. split; [exact Ew|]. split; [exact Hm|]. split; [exact Ho|].
    match type of Ew with ?s = _ => let r := eval vm_compute in s in change s with r in Ew end. injection Ew as <-. vm_compute. reflexivity.
Defined.
