(* ===== verification/Server.v ===== *)
(** * Sessions of the root server ([agent/server.cpp])

    The handshake gate and the request handlers.  A handler is a function of the
    configuration, the filesystem and the frame; it returns the filesystem after
    it, the frames it sends and its result.  [io] is the socket's answer to a
    send, [transient] the platform's judgement that a failure is a momentary
    sharing violation, [blake3] the third-party hash. *)

From S2P Require Import Prelude Types Wire Messages Path Ignore Auth FileSystem Resolve Scanner.

Record Config := mkConfig {
  cfg_root : bytes;
  cfg_windows : bool;
  cfg_token : bytes;
  cfg_watching : bool;
  cfg_agent : bytes;
  cfg_chunk : Z;              (* snapshot_chunk_bytes *)
  cfg_one_fs : bool;
  cfg_ignore : IgnoreRules;
  cfg_fuel : nat              (* bound on the directories of the served tree *)
}.

Record Handshake := mkHandshake { greeted : bool; client_nonce : bytes; server_nonce : bytes }.
Definition no_handshake : Handshake := mkHandshake false [] [].

(** A frame handed to the channel. *)
Record Out := mkOut { o_type : MsgType.t; o_id : Z; o_payload : bytes; o_flags : Z }.

Definition send_frame (io : Result unit) (o : Out) : list Out * Result unit :=
  if zlen (o_payload o) >? kMaxPayload then ([], Err TooLarge)
  else match io with Ok _ => ([o], Ok ()) | Err e => ([], Err e) end.

Definition send_error (io : Result unit) (id : Z) (code : Errc) (detail : bytes) : list Out * Result unit :=
  send_frame io (mkOut MsgType.Error id (write_error (mkErrorMessage (errc_code code) detail)) 0).

(** [(void)send_error(...); return fail(e);] *)
Definition reject_and_drop (io : Result unit) (id : Z) (code : Errc) (detail : bytes) : list Out * Result unit :=
  ((send_error io id code detail).1, Err code).

(** Frames sent one after another until one fails. *)
Fixpoint send_frames (ios : list (Result unit)) (os : list Out) : list Out * Result unit :=
  match os with
  | [] => ([], Ok ())
  | o :: os =>
      let '(io, ios) := match ios with [] => (Ok (), []) | io :: ios => (io, ios) end in
      match send_frame io o with
      | (out, Err e) => (out, Err e)
      | (out, Ok _) => let '(outs, r) := send_frames ios os in (out ++ outs, r)
      end
  end.

(** ** Snapshots *)

Definition snapshot_frame (id gen : Z) (buf : bytes) (count : Z) (more : bool) : Out :=
  mkOut MsgType.Snapshot id (write_snapshot_header gen count ++ buf) (if more then kFlagMore else 0).

(** [on_entry] and [flush] of [send_snapshot]; [buf] holds the encoded entries
    of the current frame. *)
Fixpoint snapshot_frames (id gen budget : Z) (buf : bytes) (count : Z) (es : list SnapshotEntry) : list Out :=
  match es with
  | [] => [snapshot_frame id gen buf count false]
  | e :: es =>
      let buf := buf ++ write_snapshot_entry e in
      let count := count + 1 in
      if zlen buf >=? budget
      then snapshot_frame id gen buf count true :: snapshot_frames id gen budget [] 0 es
      else snapshot_frames id gen budget buf count es
  end.

(** The offset check of [seek_to] before the platform's seek. *)
Definition seek_in_range (off : Z) : bool := off <=? 2 ^ 63 - 1.

Section server.
Context {F : Type} `{FileSystem F}.
Context (blake3 : bytes → bytes) (transient : F → bytes → FsErr → bool) (cfg : Config).

Definition resolve_path (rel : bytes) : Result bytes := resolve (cfg_windows cfg) (cfg_root cfg) rel.

Definition send_snapshot (fs : F) (io : list (Result unit)) (gen id : Z) : list Out * Result unit :=
  let skip := if bool_decide (patterns_ (cfg_ignore cfg) = []) then λ _ _, false else ignored (cfg_ignore cfg) in
  match scan_tree (cfg_fuel cfg) fs (cfg_root cfg) skip (cfg_one_fs cfg) with
  | Err e => send_error (default (Ok ()) (head io)) id e (str "scan failed")
  | Ok w => send_frames io (snapshot_frames id gen (cfg_chunk cfg) [] 0 (w_out w))
  end.

(** ** Retries *)

(** [with_share_retry]: [n] further attempts (delays 1, 2, .., 128 ms). *)
Fixpoint share_retry (n : nat) (target : bytes) (op : F → F * option FsErr) (fs : F) : F * option FsErr :=
  match op fs, n with
  | (fs, Some e), S n => if transient fs target e then share_retry n target op fs else (fs, Some e)
  | r, _ => r
  end.
Definition with_share_retry := share_retry 8.

Definition fopen_with_retry (fs : F) (p : bytes) (mode : Mode) : F * option FsErr :=
  share_retry 8 p (λ fs, fs_open fs p mode) fs.

(** ** Reads *)

Definition send_read (fs : F) (io : Result unit) (id : Z) (payload : bytes) : F * (list Out * Result unit) :=
  match read_read_request payload with
  | Err e => (fs, ([], Err e))
  | Ok (q, _) =>
      let rel := normalize_path (rq_path q) in
      match resolve_path rel with
      | Err _ => (fs, send_error io id InvalidPath (str "path outside the served root"))
      | Ok full =>
          match fs_file_size fs full with
          | Err _ => (fs, send_error io id NotFound rel)
          | Ok size =>
              let offset := Z.min (rq_offset q) size in
              let want := Z.min (rq_length q) (size - offset) in
              if want >? kMaxPayload - 64 then (fs, send_error io id TooLarge (str "read too large"))
              else
                let respond fs data :=
                  (fs, send_frame io (mkOut MsgType.ReadResponse id (write_read_response (mkReadResponse size data)) 0)) in
                if want =? 0 then respond fs []
                else
                  match fs_open fs full ModeR with
                  | (fs, Some _) => (fs, send_error io id IoError rel)
                  | (fs, None) =>
                      if negb (seek_in_range offset && fs_seek fs full offset) then (fs, send_error io id IoError rel)
                      else respond fs (fs_fread fs full offset want)
                  end
          end
      end
  end.

(** One path of [send_read_many]: the item and the running total. *)
Definition read_one (cap : Z) (st : F * Z * list ReadManyItem) (path : bytes) : F * Z * list ReadManyItem :=
  let '(fs, total, items) := st in
  let skip fs := (fs, total, items ++ [mkItem false []]) in
  let rel := normalize_path path in
  match resolve_path rel with
  | Err _ => skip fs
  | Ok full =>
      match fs_file_size fs full with
      | Err _ => skip fs
      | Ok sz =>
          if (sz >? Z.shiftl 16 20) || (total + sz >? cap) then skip fs
          else
            match fs_open fs full ModeR with
            | (fs, Some _) => skip fs
            | (fs, None) =>
                let buf := if sz =? 0 then [] else fs_fread fs full 0 sz in
                (fs, total + zlen buf, items ++ [mkItem true buf])
            end
      end
  end.

Definition read_many_cap : Z := kMaxPayload - Z.shiftl 64 10.

Definition send_read_many (fs : F) (io : Result unit) (id : Z) (payload : bytes) : F * (list Out * Result unit) :=
  match read_read_many_request payload with
  | Err e => (fs, ([], Err e))
  | Ok (q, _) =>
      let '(fs, _, items) := foldl (read_one read_many_cap) (fs, 0, []) (rmq_paths q) in
      (fs, send_frame io (mkOut MsgType.ReadManyResponse id (write_read_many_response (mkReadManyResponse items)) 0))
  end.

Definition send_readlink (fs : F) (io : Result unit) (id : Z) (payload : bytes) : list Out * Result unit :=
  match read_path_request payload with
  | Err e => ([], Err e)
  | Ok (q, _) =>
      match resolve_path (pq_path q) with
      | Err _ => send_error io id InvalidPath (str "path outside the served root")
      | Ok full =>
          match fs_read_symlink fs full with
          | Err e => send_error io id (match e with invalid_argument => InvalidArgument | e => map_fs_error e end) (pq_path q)
          | Ok target =>
              let text := if cfg_windows cfg then (λ c, if c =? c_backslash then c_slash else c) <$> target else target in
              send_frame io (mkOut MsgType.ReadlinkResponse id (write_readlink_response (mkReadlinkResponse text)) 0)
          end
      end
  end.

(** ** Mutations *)

Definition send_ok (io : Result unit) (gen id : Z) : list Out * Result unit :=
  send_frame io (mkOut MsgType.Ok id (write_mutation_ack (mkAck gen)) 0).

Definition do_create (fs : F) (io : Result unit) (gen id : Z) (path : bytes) : F * (list Out * Result unit) :=
  match resolve_path path with
  | Err e => (fs, send_error io id e path)
  | Ok full =>
      match fopen_with_retry fs full ModeW with
      | (fs, Some _) => (fs, send_error io id IoError path)
      | (fs, None) =>
          match Scanner.read_attributes fs full with
          | Err e => (fs, send_error io id e path)
          | Ok a => (fs, send_frame io (mkOut MsgType.CreateResponse id (write_attributes a ++ write_mutation_ack (mkAck gen)) 0))
          end
      end
  end.

Definition do_write (fs : F) (io : Result unit) (gen id : Z) (q : WriteRequest) : F * (list Out * Result unit) :=
  match resolve_path (wq_path q) with
  | Err e => (fs, send_error io id e (wq_path q))
  | Ok full =>
      if wq_offset q >? kMaxFileOffset then (fs, send_error io id InvalidArgument (wq_path q))
      else
        let '(fs, err) := fopen_with_retry fs full ModeRP in
        let '(fs, err) :=
          match err with
          | Some no_such_file_or_directory => fopen_with_retry fs full ModeWP
          | _ => (fs, err)
          end in
        match err with
        | Some _ => (fs, send_error io id IoError (wq_path q))
        | None =>
            if negb (seek_in_range (wq_offset q) && fs_seek fs full (wq_offset q))
            then (fs, send_error io id IoError (wq_path q))
            else
              let '(fs, n) := if bool_decide (wq_data q = []) then (fs, 0) else fs_fwrite fs full (wq_offset q) (wq_data q) in
              if negb (n =? zlen (wq_data q)) then (fs, send_error io id IoError (wq_path q))
              else (fs, send_frame io (mkOut MsgType.WriteResponse id (write_write_response (mkWriteResponse n gen)) 0))
        end
  end.

Definition do_truncate (fs : F) (io : Result unit) (gen id : Z) (q : TruncateRequest) : F * (list Out * Result unit) :=
  match resolve_path (tq_path q) with
  | Err e => (fs, send_error io id e (tq_path q))
  | Ok full =>
      if tq_size q >? kMaxFileOffset then (fs, send_error io id InvalidArgument (tq_path q))
      else
        match with_share_retry full (λ fs, fs_resize fs full (tq_size q)) fs with
        | (fs, Some e) => (fs, send_error io id (map_fs_error e) (tq_path q))
        | (fs, None) => (fs, send_ok io gen id)
        end
  end.

Definition do_mkdir (fs : F) (io : Result unit) (gen id : Z) (path : bytes) : F * (list Out * Result unit) :=
  match resolve_path path with
  | Err e => (fs, send_error io id e path)
  | Ok full =>
      match fs_create_directory fs full with
      | (fs, Err e) => (fs, send_error io id (map_fs_error e) path)
      | (fs, Ok false) => (fs, send_error io id AlreadyExists path)
      | (fs, Ok true) => (fs, send_ok io gen id)
      end
  end.

(** [fs::remove] under the retry: the error of the last attempt, or its answer. *)
Fixpoint remove_retry (n : nat) (full : bytes) (fs : F) : F * result FsErr bool :=
  match fs_remove fs full, n with
  | (fs, Err e), S n => if transient fs full e then remove_retry n full fs else (fs, Err e)
  | r, _ => r
  end.

Definition do_unlink (fs : F) (io : Result unit) (gen id : Z) (path : bytes) : F * (list Out * Result unit) :=
  match resolve_path path with
  | Err e => (fs, send_error io id e path)
  | Ok full =>
      if fs_is_directory fs full then (fs, send_error io id IsADirectory path)
      else
        match remove_retry 8 full fs with
        | (fs, Err e) => (fs, send_error io id (map_fs_error e) path)
        | (fs, Ok false) => (fs, send_error io id NotFound path)
        | (fs, Ok true) => (fs, send_ok io gen id)
        end
  end.

Definition do_rmdir (fs : F) (io : Result unit) (gen id : Z) (path : bytes) : F * (list Out * Result unit) :=
  match resolve_path path with
  | Err e => (fs, send_error io id e path)
  | Ok full =>
      if negb (fs_is_directory fs full) then (fs, send_error io id NotADirectory path)
      else
        match fs_remove fs full with
        | (fs, Err e) => (fs, send_error io id (map_fs_error e) path)
        | (fs, Ok false) => (fs, send_error io id NotFound path)
        | (fs, Ok true) => (fs, send_ok io gen id)
        end
  end.

Definition do_rename (fs : F) (io : Result unit) (gen id : Z) (q : RenameRequest) : F * (list Out * Result unit) :=
  match resolve_path (nq_from q), resolve_path (nq_to q) with
  | Err e, _ => (fs, send_error io id e (nq_from q))
  | Ok _, Err e => (fs, send_error io id e (nq_to q))
  | Ok from, Ok to =>
      match with_share_retry to (λ fs, fs_rename fs from to) fs with
      | (fs, Some e) => (fs, send_error io id (map_fs_error e) (nq_to q))
      | (fs, None) => (fs, send_ok io gen id)
      end
  end.

(** A payload that does not decode drops the session. *)
Definition decoded {A} (fs : F) (r : Result (A * bytes)) (k : A → F * (list Out * Result unit)) : F * (list Out * Result unit) :=
  match r with Err e => (fs, ([], Err e)) | Ok (a, _) => k a end.

Definition handle_mutation (fs : F) (io : Result unit) (gen : Z) (t : MsgType.t) (id : Z) (payload : bytes)
    : F * (list Out * Result unit) :=
  match t with
  | MsgType.CreateRequest => decoded fs (read_create_request payload) (λ q, do_create fs io gen id (cq_path q))
  | MsgType.WriteRequest => decoded fs (read_write_request payload) (do_write fs io gen id)
  | MsgType.TruncateRequest => decoded fs (read_truncate_request payload) (do_truncate fs io gen id)
  | MsgType.MkdirRequest => decoded fs (read_mkdir_request payload) (λ q, do_mkdir fs io gen id (mq_path q))
  | MsgType.UnlinkRequest => decoded fs (read_path_request payload) (λ q, do_unlink fs io gen id (pq_path q))
  | MsgType.RmdirRequest => decoded fs (read_path_request payload) (λ q, do_rmdir fs io gen id (pq_path q))
  | MsgType.RenameRequest => decoded fs (read_rename_request payload) (do_rename fs io gen id)
  | _ => (fs, send_error io id ProtocolError (str "not a mutation"))
  end.

(** ** The gate *)

Record Session := mkSession { authed : bool; hs : Handshake }.

Definition hello_ack (io : Result unit) (id : Z) (nonce proof : bytes) : list Out * Result unit :=
  send_frame io (mkOut MsgType.HelloAck id
    (write_hello (mkHello kVersion (if cfg_watching cfg then 1 else 0) (cfg_agent cfg) nonce proof)) 0).

(** [random]: what the system's generator gives when a nonce is drawn. *)
Definition handle_hello (s : Session) (io : Result unit) (random : option bytes) (id : Z) (payload : bytes)
    : Session * (list Out * Result unit) :=
  match read_hello payload with
  | Err e => (s, ([], Err e))
  | Ok (hello, _) =>
      if negb (protocol_version hello =? kVersion)
      then (s, reject_and_drop io id UnsupportedVersion (str "protocol version mismatch"))
      else
        let h := mkHandshake (greeted (hs s)) (nonce hello) (server_nonce (hs s)) in
        if bool_decide (cfg_token cfg = []) then (mkSession true h, hello_ack io id [] [])
        else if bool_decide (client_nonce h = [])
        then (mkSession (authed s) h, reject_and_drop io id Unauthorized (str "authentication failed"))
        else
          let sn := generate_auth_token random in
          let h := mkHandshake (greeted h) (client_nonce h) sn in
          if bool_decide (sn = [])
          then (mkSession (authed s) h, reject_and_drop io id IoError (str "no entropy source for the handshake"))
          else
            let server_proof := auth_proof blake3 (cfg_token cfg) (client_nonce h) sn true in
            (mkSession (authed s) (mkHandshake true (client_nonce h) sn), hello_ack io id sn server_proof)
  end.

Definition handle_auth (s : Session) (io : Result unit) (id : Z) (payload : bytes) : Session * (list Out * Result unit) :=
  if negb (greeted (hs s)) then (s, reject_and_drop io id Unauthorized (str "Auth before Hello"))
  else
    match read_hello payload with
    | Err e => (s, ([], Err e))
    | Ok (msg, _) =>
        let expected := auth_proof blake3 (cfg_token cfg) (client_nonce (hs s)) (server_nonce (hs s)) false in
        if negb (constant_time_equal (proof msg) expected)
        then (s, reject_and_drop io id Unauthorized (str "authentication failed"))
        else (mkSession true (hs s), send_frame io (mkOut MsgType.Ok id [] 0))
    end.

Definition handle (s : Session) (fs : F) (io : list (Result unit)) (random : option bytes) (gen : Z)
    (h : FrameHeader) (payload : bytes) : Session * F * (list Out * Result unit) :=
  let id := h_request_id h in
  let io1 := default (Ok ()) (head io) in
  if negb (bool_decide (h_type h = MsgType.Hello)) && negb (bool_decide (h_type h = MsgType.Auth)) && negb (authed s)
  then (s, fs, reject_and_drop io1 id Unauthorized (str "authenticate first"))
  else
    match h_type h with
    | MsgType.Hello => let '(s, r) := handle_hello s io1 random id payload in (s, fs, r)
    | MsgType.Auth => let '(s, r) := handle_auth s io1 id payload in (s, fs, r)
    | MsgType.Ping => (s, fs, send_frame io1 (mkOut MsgType.Pong id [] 0))
    | MsgType.SnapshotRequest => (s, fs, send_snapshot fs io gen id)
    | MsgType.ReadRequest => let '(fs, r) := send_read fs io1 id payload in (s, fs, r)
    | MsgType.ReadManyRequest => let '(fs, r) := send_read_many fs io1 id payload in (s, fs, r)
    | MsgType.ReadlinkRequest => (s, fs, send_readlink fs io1 id payload)
    | MsgType.WriteRequest | MsgType.CreateRequest | MsgType.MkdirRequest | MsgType.UnlinkRequest
    | MsgType.RmdirRequest | MsgType.RenameRequest | MsgType.TruncateRequest =>
        let '(fs, r) := handle_mutation fs io1 gen (h_type h) id payload in (s, fs, r)
    | _ => (s, fs, send_error io1 id ProtocolError (str "unexpected message type"))
    end.

(** ** The session loop *)

(** What one round of [serve] observes.  Leaving the loop deregisters the
    session, so a closed one is not registered. *)
Inductive Input :=
| InFrame (h : FrameHeader) (payload : bytes) (io : list (Result unit)) (random : option bytes) (gen : Z)
| InTimeout (stopping late : bool) (io : Result unit)   (* late: past the handshake deadline *)
| InError (e : Errc).

Record Serving := mkServing {
  sv_session : Session;
  sv_registered : bool;
  sv_limit : Z;            (* the channel's max_payload_ *)
  sv_open : bool;
  sv_fs : F;
  sv_sent : list Out
}.

Definition kPreAuthMaxPayload : Z := 4096.

(** [stopping]: the server is shutting down when [add_peer] runs. *)
Definition serve_start (fs : F) (stopping : bool) : Serving :=
  let a := bool_decide (cfg_token cfg = []) in
  mkServing (mkSession a no_handshake) (a && negb stopping)
    (if a then kMaxPayload else kPreAuthMaxPayload) (negb stopping) fs [].

Definition serve_step (stopping : bool) (v : Serving) (i : Input) : Serving :=
  if negb (sv_open v) then v
  else
    let close out := mkServing (sv_session v) false (sv_limit v) false (sv_fs v) (sv_sent v ++ out) in
    match i with
    | InError e => close []
    | InTimeout stop late io =>
        if stop then close []
        else if negb (authed (sv_session v)) && late then close (send_error io 0 Timeout (str "handshake timeout")).1
        else v
    | InFrame h payload io random gen =>
        if h_payload_len h >? sv_limit v then close []     (* TooLarge from receive *)
        else
          let '(s, fs, (out, r)) := handle (sv_session v) (sv_fs v) io random gen h payload in
          let sent := sv_sent v ++ out in
          match r with
          | Err _ => mkServing s false (sv_limit v) false fs sent
          | Ok _ =>
              let limit := if authed s && negb (authed (sv_session v)) then kMaxPayload else sv_limit v in
              if authed s && negb (sv_registered v)
              then mkServing s (negb stopping) limit (negb stopping) fs sent
              else mkServing s (sv_registered v) limit true fs sent
          end
    end.

Definition serve (fs : F) (stopping : bool) (ins : list Input) : Serving :=
  foldl (serve_step stopping) (serve_start fs stopping) ins.
End server.

(** ** Lemmas *)

Lemma hex_bytes_ok bs : bytes_ok (hex bs).
Proof.
  assert (∀ v, byte_ok (hex_digit v)) as Hd.
  { intros v. unfold hex_digit. destruct (kHexDigits !! Z.to_nat v) as [x|] eqn:E.
    - rewrite (list_lookup_total_correct _ _ _ E).
      assert (bytes_ok kHexDigits) as Hk by (apply (bool_decide_unpack _); vm_compute; exact I).
      eapply Forall_lookup_1; [exact Hk|exact E].
    - rewrite list_lookup_total_alt, E. unfold byte_ok. simpl. lia. }
  induction bs as [|b bs IH]; [constructor|]. cbn [hex]. constructor; [apply Hd|]. constructor; [apply Hd|exact IH].
Qed.

Lemma yields_hello_proof : Yields (λ h, bytes_ok (proof h)) read_hello.
Proof.
  unfold read_hello. repeat (eapply yields_bind; [apply _|]; intros ? ?). apply yields_ret. simpl.
  match goal with H : input_ok ?x |- bytes_ok ?x => apply H | H : _ ∧ input_ok ?x |- _ => apply H end.
Qed.

Lemma send_frame_types io o (P : MsgType.t → Prop) : P (o_type o) → Forall (λ o, P (o_type o)) (send_frame io o).1.
Proof. intros HP. unfold send_frame. destruct (_ >? _); [constructor|]. destruct io; by repeat constructor. Qed.

(** What an unauthenticated peer can make the server send. *)
Definition pre_auth_type (t : MsgType.t) : Prop := t = MsgType.HelloAck ∨ t = MsgType.Error.

Lemma reject_types io id e d : Forall (λ o, pre_auth_type (o_type o)) (reject_and_drop io id e d).1.
Proof. unfold reject_and_drop, send_error. apply send_frame_types. by right. Qed.

Section gate.
Context {F : Type} `{FileSystem F}.
Context (blake3 : bytes → bytes) (transient : F → bytes → FsErr → bool) (cfg : Config).
Context (Htoken : cfg_token cfg ≠ []).

(** The proof a client must present, for the nonces of this session. *)
Definition proves (s : Session) (payload : bytes) : Prop :=
  greeted (hs s) = true ∧ ∃ msg rest, read_hello payload = Ok (msg, rest)
    ∧ proof msg = auth_proof blake3 (cfg_token cfg) (client_nonce (hs s)) (server_nonce (hs s)) false.

Lemma handle_hello_gate s io random id payload :
  authed (handle_hello blake3 cfg s io random id payload).1 = authed s
  ∧ Forall (λ o, pre_auth_type (o_type o)) (handle_hello blake3 cfg s io random id payload).2.1.
Proof.
  unfold handle_hello. destruct (read_hello payload) as [[hello rest]|e]; [|done].
  destruct (negb (protocol_version hello =? kVersion)); [split; [done|apply reject_types]|].
  rewrite bool_decide_eq_false_2 by done.
  case_bool_decide; [split; [done|apply reject_types]|].
  case_bool_decide; [split; [done|apply reject_types]|]. split; [done|].
  unfold hello_ack. apply send_frame_types. by left.
Qed.

Lemma handle_auth_gate s io id payload :
  input_ok payload → ¬ proves s payload →
  authed (handle_auth blake3 cfg s io id payload).1 = authed s
  ∧ Forall (λ o, pre_auth_type (o_type o)) (handle_auth blake3 cfg s io id payload).2.1.
Proof.
  intros Hp Hn. unfold handle_auth. destruct (greeted (hs s)) eqn:Eg; cbn [negb]; [|split; [done|apply reject_types]].
  destruct (read_hello payload) as [[msg rest]|e] eqn:Er; [|done].
  rewrite constant_time_equal_spec; [|by apply (yields_hello_proof _ _ _ Hp Er)|apply hex_bytes_ok].
  case_bool_decide as He; [|split; [done|apply reject_types]].
  exfalso. apply Hn. split; [done|]. eauto.
Qed.

(** A frame from a peer that is not authenticated and does not prove itself
    touches nothing. *)
Lemma handle_gate s fs io random gen h payload :
  authed s = false → input_ok payload → (h_type h = MsgType.Auth → ¬ proves s payload) →
  let r := handle blake3 transient cfg s fs io random gen h payload in
  authed r.1.1 = false ∧ r.1.2 = fs ∧ Forall (λ o, pre_auth_type (o_type o)) r.2.1.
Proof.
  intros Ha Hp Hn. cbv zeta. unfold handle. rewrite Ha. cbn [negb]. rewrite andb_true_r.
  destruct (decide (h_type h = MsgType.Hello)) as [Eh|Eh].
  - rewrite Eh, (bool_decide_eq_true_2 (MsgType.Hello = MsgType.Hello)) by done. cbn [negb andb]. destruct (handle_hello_gate s (default (Ok ()) (head io)) random (h_request_id h) payload) as [H1 H2].
    destruct (handle_hello _ _ _ _ _ _ _) as [s' r]. cbn [fst snd] in *. split_and!; [congruence|done|done].
  - destruct (decide (h_type h = MsgType.Auth)) as [Ea|Ea].
    + rewrite Ea, (bool_decide_eq_true_2 (MsgType.Auth = MsgType.Auth)) by done. cbn [negb]. rewrite andb_false_r.
      destruct (handle_auth_gate s (default (Ok ()) (head io)) (h_request_id h) payload Hp (Hn Ea)) as [H1 H2].
      destruct (handle_auth _ _ _ _ _ _) as [s' r]. cbn [fst snd] in *. split_and!; [congruence|done|done].
    + rewrite !bool_decide_eq_false_2 by done. cbn [negb andb]. split_and!; [done|done|apply reject_types].
Qed.

Definition gated (fs : F) (v : Serving) : Prop :=
  authed (sv_session v) = false ∧ sv_registered v = false ∧ sv_limit v = kPreAuthMaxPayload ∧ sv_fs v = fs
  ∧ Forall (λ o, pre_auth_type (o_type o)) (sv_sent v).

Lemma serve_step_gated stopping fs v i :
  gated fs v →
  match i with
  | InFrame h payload _ _ _ => input_ok payload ∧ (h_type h = MsgType.Auth → ¬ proves (sv_session v) payload)
  | _ => True
  end →
  gated fs (serve_step blake3 transient cfg stopping v i).
Proof.
  intros (Ha & Hr & Hl & Hf & Hs) Hi. unfold serve_step. destruct (sv_open v); cbn [negb]; [|by split_and!].
  destruct i as [h payload io random gen|stop late io|e].
  - destruct (h_payload_len h >? sv_limit v); [split_and!; cbn; try done; by rewrite app_nil_r|].
    destruct Hi as [Hp Hn].
    pose proof (handle_gate (sv_session v) (sv_fs v) io random gen h payload Ha Hp Hn) as Hg.
    destruct (handle _ _ _ _ _ _ _ _ _ _) as [[s fs'] [out r]]. cbn in Hg. destruct Hg as (Ha' & -> & Ho).
    assert (Forall (λ o, pre_auth_type (o_type o)) (sv_sent v ++ out)) by by apply Forall_app.
    rewrite Ha', Hr. destruct r; by split_and!.
  - destruct stop; [split_and!; cbn; try done; by rewrite app_nil_r|].
    destruct (negb (authed (sv_session v)) && late); [|by split_and!].
    split_and!; cbn; try done. apply Forall_app. split; [done|]. unfold send_error. apply send_frame_types. by right.
  - split_and!; cbn; try done; by rewrite app_nil_r.
Qed.
End gate.

(** C1: nothing is served before the peer has authenticated.  With a token
    configured, whatever frames arrive, in whatever order, and however sends
    fail: unless an Auth frame carries the proof for the token and this
    session's nonces, the filesystem is untouched, the session never joins the
    broadcast set, frames stay limited to 4096 bytes, and the peer is sent
    nothing but HelloAck and Error frames. *)
Theorem session_gate {F} `{FileSystem F} blake3 (transient : F → bytes → FsErr → bool) cfg fs stopping ins :
  cfg_token cfg ≠ [] →
  (∀ pre h payload io random gen post,
     ins = pre ++ InFrame h payload io random gen :: post →
     input_ok payload
     ∧ (h_type h = MsgType.Auth →
        ¬ proves blake3 cfg (sv_session (serve blake3 transient cfg fs stopping pre)) payload)) →
  let v := serve blake3 transient cfg fs stopping ins in
  sv_fs v = fs ∧ sv_registered v = false ∧ sv_limit v = kPreAuthMaxPayload ∧ authed (sv_session v) = false
  ∧ Forall (λ o, o_type o = MsgType.HelloAck ∨ o_type o = MsgType.Error) (sv_sent v).
Proof.
  intros Ht Hins. assert (gated fs (serve blake3 transient cfg fs stopping ins)) as (? & ? & ? & ? & ?); [|by split_and!].
  induction ins as [|i ins IH] using rev_ind.
  - unfold serve, serve_start. cbn. rewrite bool_decide_eq_false_2 by done. by split_and!.
  - unfold serve in *. rewrite foldl_app. cbn [foldl]. apply serve_step_gated; [done| |].
    + apply IH. intros pre h payload io random gen post ->. eapply (Hins pre _ _ _ _ _ (post ++ [i])).
      by rewrite <- app_assoc.
    + destruct i as [h payload io random gen| |]; try done. by apply (Hins ins h payload io random gen []).
Qed.

(** A peer that sends a mutation first, on the in-memory filesystem. *)
Definition demo_config : Config :=
  mkConfig (str "/r") false (str "secret") true (str "wsldrived") 4096 true (mkRules []) 16.
Definition demo_unlink : Input :=
  InFrame (mkHeader MsgType.UnlinkRequest 0 6 1) (write_path_request (mkPathRequest (str "a.txt"))) [] None 1.

Lemma session_gate_witness :
  sv_fs (serve (λ _, []) (λ _ _ _, false) demo_config mem_demo false [demo_unlink]) = mem_demo.
Proof.
  apply session_gate; [discriminate|].
  intros pre h payload io random gen post He. destruct pre as [|i pre].
  - injection He as <- <- <- <- <- <-. split.
    + split; [apply (bool_decide_unpack _); vm_compute; exact I|vm_compute; intuition congruence].
    + discriminate.
  - injection He as _ He. destruct pre; discriminate He.
Defined.

(** ** Every path touched is inside the root *)

(** A filesystem that records the paths it is asked to open or to change. *)
#[global] Instance logged_fs {F} `{FileSystem F} : FileSystem (F * list bytes) := {|
  fs_lstat fs p := fs_lstat fs.1 p;
  fs_is_directory fs p := fs_is_directory fs.1 p;
  fs_list fs p := fs_list fs.1 p;
  fs_device fs p := fs_device fs.1 p;
  fs_file_size fs p := fs_file_size fs.1 p;
  fs_read_symlink fs p := fs_read_symlink fs.1 p;
  fs_open fs p m := let '(f, r) := fs_open fs.1 p m in ((f, fs.2 ++ [p]), r);
  fs_seek fs p o := fs_seek fs.1 p o;
  fs_fread fs p o n := fs_fread fs.1 p o n;
  fs_fwrite fs p o d := let '(f, n) := fs_fwrite fs.1 p o d in ((f, fs.2 ++ [p]), n);
  fs_resize fs p n := let '(f, r) := fs_resize fs.1 p n in ((f, fs.2 ++ [p]), r);
  fs_create_directory fs p := let '(f, r) := fs_create_directory fs.1 p in ((f, fs.2 ++ [p]), r);
  fs_remove fs p := let '(f, r) := fs_remove fs.1 p in ((f, fs.2 ++ [p]), r);
  fs_rename fs p q := let '(f, r) := fs_rename fs.1 p q in ((f, fs.2 ++ [p; q]), r)
|}.

Section containment.
Context {F : Type} `{FileSystem F}.
Context (blake3 : bytes → bytes) (transient : F * list bytes → bytes → FsErr → bool) (cfg : Config).
Context (Hroot : root_ok (cfg_root cfg)).

Definition inside (p : bytes) : Prop :=
  ∃ cs, lexical_comps p = lexical_comps (cfg_root cfg) ++ cs ∧ Forall (λ c, c ≠ [c_dot; c_dot]) cs.

Definition touched (fs fs' : F * list bytes) : Prop := ∃ new, fs'.2 = fs.2 ++ new ∧ Forall inside new.

Lemma touched_refl fs : touched fs fs.
Proof. exists []. by rewrite app_nil_r. Qed.
Lemma touched_trans a b c : touched a b → touched b c → touched a c.
Proof. intros (n1 & H1 & F1) (n2 & H2 & F2). exists (n1 ++ n2). rewrite H2, H1, <- app_assoc. split; [done|by apply Forall_app]. Qed.

Lemma resolve_inside rel full : resolve_path cfg rel = Ok full → inside full.
Proof.
  unfold resolve_path. rewrite resolve_spec by done. destruct (forallb _ _) eqn:E; [|done]. intros [= <-].
  assert (Forall (λ c, c ≠ [c_dot; c_dot]) (components rel)) as Hd.
  { apply Forall_forall. intros c Hc ->. rewrite forallb_forall in E.
    specialize (E [c_dot; c_dot]). rewrite <- list_elem_of_In in E. by apply E in Hc. }
  exists (components rel). split; [|done]. rewrite normalize_path_eq. apply lexical_comps_join; [done|apply components_ok|done].
Qed.

Lemma touched_open fs p m : inside p → touched fs (fs_open fs p m).1.
Proof. intros Hp. cbn. destruct (fs_open fs.1 p m) as [f r]. exists [p]. split; [done|by constructor]. Qed.
Lemma touched_fwrite fs p o d : inside p → touched fs (fs_fwrite fs p o d).1.
Proof. intros Hp. cbn. destruct (fs_fwrite fs.1 p o d) as [f r]. exists [p]. split; [done|by constructor]. Qed.
Lemma touched_resize fs p n : inside p → touched fs (fs_resize fs p n).1.
Proof. intros Hp. cbn. destruct (fs_resize fs.1 p n) as [f r]. exists [p]. split; [done|by constructor]. Qed.
Lemma touched_mkdir fs p : inside p → touched fs (fs_create_directory fs p).1.
Proof. intros Hp. cbn. destruct (fs_create_directory fs.1 p) as [f r]. exists [p]. split; [done|by constructor]. Qed.
Lemma touched_remove fs p : inside p → touched fs (fs_remove fs p).1.
Proof. intros Hp. cbn. destruct (fs_remove fs.1 p) as [f r]. exists [p]. split; [done|by constructor]. Qed.
Lemma touched_rename fs p q : inside p → inside q → touched fs (fs_rename fs p q).1.
Proof. intros Hp Hq. cbn. destruct (fs_rename fs.1 p q) as [f r]. exists [p; q]. split; [done|by repeat constructor]. Qed.

Lemma touched_retry n target op fs : (∀ fs, touched fs (op fs).1) → touched fs (share_retry transient n target op fs).1.
Proof.
  intros Hop. revert fs. induction n as [|n IH]; intros fs; cbn [share_retry]; pose proof (Hop fs) as Ht;
    destruct (op fs) as [fs1 [e|]]; try done.
  destruct (transient fs1 target e); [|done]. by eapply touched_trans.
Qed.

Lemma touched_remove_retry n p fs : inside p → touched fs (remove_retry transient n p fs).1.
Proof.
  intros Hp. revert fs. induction n as [|n IH]; intros fs; cbn [remove_retry]; pose proof (touched_remove fs p Hp) as Ht;
    destruct (fs_remove fs p) as [fs1 [r|e]]; try done.
  destruct (transient fs1 p e); [|done]. by eapply touched_trans.
Qed.

Lemma touched_fopen fs p m : inside p → touched fs (fopen_with_retry transient fs p m).1.
Proof. intros Hp. apply touched_retry. intros. by apply touched_open. Qed.

Lemma do_create_touched fs io gen id path : touched fs (do_create transient cfg fs io gen id path).1.
Proof.
  unfold do_create. destruct (resolve_path cfg path) as [full|] eqn:E; [|apply touched_refl].
  pose proof (touched_fopen fs full ModeW (resolve_inside _ _ E)) as Ht.
  destruct (fopen_with_retry transient fs full ModeW) as [fs1 [e|]]; [done|]. by destruct (Scanner.read_attributes fs1 full).
Qed.

Lemma do_write_touched fs io gen id q : touched fs (do_write transient cfg fs io gen id q).1.
Proof.
  unfold do_write. destruct (resolve_path cfg (wq_path q)) as [full|] eqn:E; [|apply touched_refl].
  apply resolve_inside in E. destruct (_ >? _); [apply touched_refl|].
  pose proof (touched_fopen fs full ModeRP E) as Ht. destruct (fopen_with_retry transient fs full ModeRP) as [fs1 err].
  set (opened := match err with Some no_such_file_or_directory => _ | _ => _ end).
  assert (touched fs opened.1) as Ho.
  { unfold opened. destruct err as [[]|]; try done. eapply touched_trans; [exact Ht|by apply touched_fopen]. }
  clearbody opened. destruct opened as [fs2 [e|]]; [done|]. cbn [fst] in Ho.
  destruct (negb (seek_in_range (wq_offset q) && fs_seek fs2 full (wq_offset q))); [done|].
  case_bool_decide.
  - by destruct (negb (0 =? zlen (wq_data q))).
  - pose proof (touched_fwrite fs2 full (wq_offset q) (wq_data q) E) as Hw.
    destruct (fs_fwrite fs2 full (wq_offset q) (wq_data q)) as [fs3 n].
    destruct (negb (n =? zlen (wq_data q))); by eapply touched_trans.
Qed.

Lemma do_truncate_touched fs io gen id q : touched fs (do_truncate transient cfg fs io gen id q).1.
Proof.
  unfold do_truncate. destruct (resolve_path cfg (tq_path q)) as [full|] eqn:E; [|apply touched_refl].
  apply resolve_inside in E. destruct (_ >? _); [apply touched_refl|].
  pose proof (touched_retry 8 full (λ fs, fs_resize fs full (tq_size q)) fs ltac:(intros; by apply touched_resize)) as Ht.
  unfold with_share_retry. destruct (share_retry transient 8 full _ fs) as [fs1 [e|]]; done.
Qed.

Lemma do_mkdir_touched fs io gen id path : touched fs (do_mkdir cfg fs io gen id path).1.
Proof.
  unfold do_mkdir. destruct (resolve_path cfg path) as [full|] eqn:E; [|apply touched_refl].
  pose proof (touched_mkdir fs full (resolve_inside _ _ E)) as Ht.
  destruct (fs_create_directory fs full) as [fs1 [[]|e]]; done.
Qed.

Lemma do_unlink_touched fs io gen id path : touched fs (do_unlink transient cfg fs io gen id path).1.
Proof.
  unfold do_unlink. destruct (resolve_path cfg path) as [full|] eqn:E; [|apply touched_refl].
  destruct (fs_is_directory fs full); [apply touched_refl|].
  pose proof (touched_remove_retry 8 full fs (resolve_inside _ _ E)) as Ht.
  destruct (remove_retry transient 8 full fs) as [fs1 [[]|e]]; done.
Qed.

Lemma do_rmdir_touched fs io gen id path : touched fs (do_rmdir cfg fs io gen id path).1.
Proof.
  unfold do_rmdir. destruct (resolve_path cfg path) as [full|] eqn:E; [|apply touched_refl].
  destruct (negb (fs_is_directory fs full)); [apply touched_refl|].
  pose proof (touched_remove fs full (resolve_inside _ _ E)) as Ht.
  destruct (fs_remove fs full) as [fs1 [[]|e]]; done.
Qed.

Lemma do_rename_touched fs io gen id q : touched fs (do_rename transient cfg fs io gen id q).1.
Proof.
  unfold do_rename. destruct (resolve_path cfg (nq_from q)) as [from|] eqn:E1; [|apply touched_refl].
  destruct (resolve_path cfg (nq_to q)) as [to|] eqn:E2; [|apply touched_refl].
  apply resolve_inside in E1, E2.
  pose proof (touched_retry 8 to (λ fs, fs_rename fs from to) fs ltac:(intros; by apply touched_rename)) as Ht.
  unfold with_share_retry. destruct (share_retry transient 8 to _ fs) as [fs1 [e|]]; done.
Qed.

Lemma handle_mutation_touched fs io gen t id payload :
  touched fs (handle_mutation transient cfg fs io gen t id payload).1.
Proof.
  unfold handle_mutation, decoded. destruct t; try apply touched_refl.
  all: match goal with |- context [match ?r with Ok _ => _ | Err _ => _ end] => destruct r as [[q rest]|e] end;
    try apply touched_refl.
  - apply do_write_touched.
  - apply do_create_touched.
  - apply do_mkdir_touched.
  - apply do_unlink_touched.
  - apply do_rmdir_touched.
  - apply do_rename_touched.
  - apply do_truncate_touched.
Qed.

Lemma send_read_touched fs io id payload : touched fs (send_read cfg fs io id payload).1.
Proof.
  unfold send_read. destruct (read_read_request payload) as [[q rest]|e]; [|apply touched_refl].
  destruct (resolve_path cfg (normalize_path (rq_path q))) as [full|] eqn:E; [|apply touched_refl].
  destruct (fs_file_size fs full) as [size|e]; [|apply touched_refl].
  destruct (_ >? _); [apply touched_refl|]. destruct (_ =? 0); [apply touched_refl|].
  pose proof (touched_open fs full ModeR (resolve_inside _ _ E)) as Ht.
  destruct (fs_open fs full ModeR) as [fs1 [e|]]; [done|].
  by destruct (negb (seek_in_range _ && fs_seek fs1 full _)).
Qed.

Lemma read_one_touched cap st path : touched st.1.1 (read_one cfg cap st path).1.1.
Proof.
  destruct st as [[fs total] items]. unfold read_one.
  destruct (resolve_path cfg (normalize_path path)) as [full|] eqn:E; [|apply touched_refl].
  destruct (fs_file_size fs full) as [size|e]; [|apply touched_refl].
  destruct ((size >? Z.shiftl 16 20) || (total + size >? cap)); [apply touched_refl|].
  pose proof (touched_open fs full ModeR (resolve_inside _ _ E)) as Ht.
  destruct (fs_open fs full ModeR) as [fs1 [e|]]; done.
Qed.

Lemma send_read_many_touched fs io id payload : touched fs (send_read_many cfg fs io id payload).1.
Proof.
  unfold send_read_many. destruct (read_read_many_request payload) as [[q rest]|e]; [|apply touched_refl].
  assert (∀ ps st, touched st.1.1 (foldl (read_one cfg read_many_cap) st ps).1.1) as Hf.
  { induction ps as [|p ps IH]; intros st; [apply touched_refl|]. cbn [foldl].
    eapply touched_trans; [apply read_one_touched|apply IH]. }
  specialize (Hf (rmq_paths q) (fs, 0, [])). by destruct (foldl _ _ _) as [[fs1 n] items].
Qed.
End containment.

(** C2: the agent never leaves the served root.  Whatever frame a session
    handles, every path the filesystem is asked to open, create, write, resize,
    remove or rename lies lexically below the root, with no ".." left in it;
    retries included. *)
Theorem handle_contained {F} `{FileSystem F} blake3 (transient : F * list bytes → bytes → FsErr → bool) cfg
    s fs io random gen h payload :
  root_ok (cfg_root cfg) →
  ∃ new, (handle blake3 transient cfg s (fs, []) io random gen h payload).1.2.2 = new
    ∧ Forall (λ p, ∃ cs, lexical_comps p = lexical_comps (cfg_root cfg) ++ cs
                         ∧ Forall (λ c, c ≠ [c_dot; c_dot]) cs) new.
Proof.
  intros Hroot.
  assert (touched cfg (fs, []) (handle blake3 transient cfg s (fs, []) io random gen h payload).1.2) as (new & Hn & Hf);
    [|by exists new]. unfold handle.
  destruct (negb _ && negb _ && negb _); [apply touched_refl|].
  destruct (h_type h) eqn:Et; try apply touched_refl.
  all: first
    [ pose proof (send_read_touched cfg Hroot (fs, []) (default (Ok ()) (head io)) (h_request_id h) payload) as Ht;
      destruct (send_read _ _ _ _ _); exact Ht
    | pose proof (send_read_many_touched cfg Hroot (fs, []) (default (Ok ()) (head io)) (h_request_id h) payload) as Ht;
      destruct (send_read_many _ _ _ _ _); exact Ht
    | match goal with |- context [handle_mutation _ _ _ _ _ ?t _ _] =>
        pose proof (handle_mutation_touched transient cfg Hroot (fs, []) (default (Ok ()) (head io)) gen t (h_request_id h) payload) as Ht
      end; destruct (handle_mutation _ _ _ _ _ _ _ _); exact Ht
    | destruct (handle_hello _ _ _ _ _ _ _); apply touched_refl
    | destruct (handle_auth _ _ _ _ _ _); apply touched_refl ].
Qed.

Lemma handle_contained_witness :
  ∃ new, (handle (λ _, []) (λ _ _ _, false) demo_config (mkSession true no_handshake) (mem_demo, []) [] None 1
            (mkHeader MsgType.UnlinkRequest 0 6 1) (write_path_request (mkPathRequest (str "d/b")))).1.2.2 = new
    ∧ new = [str "/r/d/b"].
Proof.
  destruct (handle_contained (λ _, []) (λ _ _ _, false) demo_config (mkSession true no_handshake) mem_demo [] None 1
    (mkHeader MsgType.UnlinkRequest 0 6 1) (write_path_request (mkPathRequest (str "d/b")))) as (new & Hn & _).
  - split; [discriminate|left; reflexivity].
  - exists new. split; [exact Hn|]. rewrite <- Hn. vm_compute. reflexivity.
Defined.
