(* ===== verification/Retry.v ===== *)
(** * Waiting out a sharing violation ([agent/server.cpp])

    [with_share_retry] and [fopen_with_retry] as written, with their delays: on
    Windows an operation that fails because somebody else holds the file open is
    tried again after 1, 2, 4, .. 128 ms.  [Server] leaves the delays out; here the
    two are shown to be the same, and the time they may take is bounded. *)

From S2P Require Import Prelude Types FileSystem Server.

(** ** What is worth waiting for *)

Definition ERROR_ACCESS_DENIED : Z := 5.
Definition ERROR_SHARING_VIOLATION : Z := 32.
Definition ERROR_LOCK_VIOLATION : Z := 33.
Definition FILE_ATTRIBUTE_READONLY : Z := 0x1.
Definition FILE_ATTRIBUTE_DIRECTORY : Z := 0x10.
Definition INVALID_FILE_ATTRIBUTES : Z := 2 ^ 32 - 1.
Definition kShareRetryMaxDelayMs : Z := 128.

(** [a]: what [GetFileAttributesW] says of the file. *)
Definition is_readonly_or_dir (a : Z) : bool :=
  negb (a =? INVALID_FILE_ATTRIBUTES) && negb (Z.land a (Z.lor FILE_ATTRIBUTE_READONLY FILE_ATTRIBUTE_DIRECTORY) =? 0).

Definition transient_share_error (err a : Z) : bool :=
  if (err =? ERROR_SHARING_VIOLATION) || (err =? ERROR_LOCK_VIOLATION) then true
  else (err =? ERROR_ACCESS_DENIED) && negb (is_readonly_or_dir a).

(** An [std::error_code]: whether its category is the system's, and its value. *)
Record ErrorCode := mkErrorCode { ec_system : bool; ec_value : Z }.

Definition is_transient_share_error (windows : bool) (ec : ErrorCode) (a : Z) : bool :=
  if windows then ec_system ec && transient_share_error (ec_value ec) a else false.

(** [eacces]: [errno == EACCES]; [doserr]: [_doserrno]. *)
Definition fopen_failed_transiently (windows eacces : bool) (doserr a : Z) : bool :=
  if windows then eacces && transient_share_error doserr a else false.

(** ** The loops *)
Section retry.
Context {W E : Type} (op : W → W * option E) (sleep : Z → W → W) (transient : W → E → bool).

(** The [for] of [with_share_retry] after the first attempt, with its delay. *)
Fixpoint retry_from (fuel : nat) (delay_ms : Z) (ec : option E) (w : W) : W * option E * list Z :=
  match fuel, ec with
  | S fuel, Some e =>
      if transient w e && (delay_ms <=? kShareRetryMaxDelayMs) then
        let '(w, ec) := op (sleep delay_ms w) in
        let '(w, ec, ds) := retry_from fuel (delay_ms * 2) ec w in (w, ec, delay_ms :: ds)
      else (w, ec, [])
  | _, _ => (w, ec, [])
  end.

(** State, last error and the delays slept; the delay passes 128 after eight. *)
Definition with_share_retry (w : W) : W * option E * list Z :=
  let '(w, ec) := op w in retry_from 8 1 ec w.

(** [fopen_with_retry]: the attempt is inside the loop. *)
Fixpoint open_from (fuel : nat) (delay_ms : Z) (w : W) : W * option E * list Z :=
  let '(w, ec) := op w in
  match fuel, ec with
  | S fuel, Some e =>
      if negb (transient w e) || (delay_ms >? kShareRetryMaxDelayMs) then (w, ec, [])
      else let '(w, ec, ds) := open_from fuel (delay_ms * 2) (sleep delay_ms w) in (w, ec, delay_ms :: ds)
  | _, _ => (w, ec, [])
  end.
Definition fopen_with_retry (w : W) : W * option E * list Z := open_from 8 1 w.

(** ** What they do *)

Definition all_delays : list Z := [1; 2; 4; 8; 16; 32; 64; 128].

Definition pow2_from (n : nat) (d : Z) : list Z := (λ i, d * 2 ^ Z.of_nat i) <$> seq 0 n.

Lemma pow2_cons n d : pow2_from (S n) d = d :: pow2_from n (d * 2).
Proof.
  unfold pow2_from. cbn [seq fmap list_fmap]. f_equal; [lia|]. rewrite <- fmap_S_seq, <- list_fmap_compose. apply list_fmap_ext. intros i x _. cbn. rewrite Nat2Z.inj_succ, Z.pow_succ_r by lia. lia.
Qed.

(** The attempts end with a success, with an error that is not worth waiting for,
    or with the ninth; the delays between them are the first of 1, 2, .., 128. *)
Lemma retry_from_spec fuel : ∀ delay ec w, 0 < delay → let '(w', ec', ds) := retry_from fuel delay ec w in
  ds = take (length ds) (pow2_from fuel delay) ∧ (length ds <= fuel)%nat
  ∧ (length ds = fuel ∨ match ec' with None => True | Some e => transient w' e = false ∨ kShareRetryMaxDelayMs < delay * 2 ^ Z.of_nat (length ds) end).
Proof.
  induction fuel as [|fuel IH]; intros delay ec w Hd; [cbn; split_and!; [done|lia|by left]|]. cbn [retry_from].
  destruct ec as [e|]; [|cbn; split_and!; [done|lia|by right]]. destruct (transient w e) eqn:Et; cbn [andb]; [|cbn; split_and!; [done|lia|right; by left]].
  destruct (Z.leb_spec delay kShareRetryMaxDelayMs); [|cbn [length take]; split_and!; [done|lia|right; right; cbn; lia]].
  destruct (op (sleep delay w)) as [w1 ec1]. specialize (IH (delay * 2) ec1 w1 ltac:(lia)). destruct (retry_from fuel (delay * 2) ec1 w1) as [[w2 ec2] ds]. destruct IH as (I1 & I2 & I3). cbn [length].
  rewrite pow2_cons. cbn [take]. rewrite <- I1. split_and!; [done|lia|]. destruct I3 as [I3|I3]; [left; lia|right]. destruct ec2 as [e2|]; [|done].
  rewrite Nat2Z.inj_succ, Z.pow_succ_r by lia. destruct I3; [by left|right; lia].
Qed.

(** The retry sleeps for less than a quarter of a second and a bit: nine attempts
    at most, after delays of 1, 2, .., 128 ms, 255 ms in all; it gives up only on
    success, on an error that waiting does not help, or after the last delay. *)
Theorem share_retry_bounded w : let '(w', ec, ds) := with_share_retry w in
  ds `prefix_of` all_delays ∧ foldr Z.add 0 ds <= 255
  ∧ (ds = all_delays ∨ ec = None ∨ ∃ e, ec = Some e ∧ transient w' e = false).
Proof.
  unfold with_share_retry. destruct (op w) as [w1 ec1]. pose proof (retry_from_spec 8 1 ec1 w1 ltac:(lia)) as Hs. destruct (retry_from 8 1 ec1 w1) as [[w2 ec2] ds]. destruct Hs as (E1 & Hl & Hend).
  change (pow2_from 8 1) with all_delays in E1.
  assert (∀ k, (k <= 8)%nat → foldr Z.add 0 (take k all_delays) <= 255) as Hsum by (intros k Hk; do 9 (destruct k as [|k]; [cbn; lia|]); lia).
  split_and!; [rewrite E1; apply prefix_take|rewrite E1; by apply Hsum|].
  assert (length ds = 8%nat → ds = all_delays) as Hall by (intros El; by rewrite El in E1).
  destruct Hend as [?|Hend]; [auto|]. destruct ec2 as [e|]; [|auto]. destruct Hend as [?|Hk]; [right; right; eauto|]. left. apply Hall.
  unfold kShareRetryMaxDelayMs in Hk. do 8 (destruct ds as [|? ds]; [cbn in Hk; lia|]). cbn in *. lia.
Qed.
End retry.

(** ** The same as the retries of [Server] *)
Section same.
Context {F : Type} `{FileSystem F} (transient : F → bytes → FsErr → bool) (target : bytes).
Context (op : F → F * option FsErr) (sleep : Z → F → F).

(** Nobody changes the files during a delay, as [Server] has it. *)
Hypothesis nothing_happens : ∀ d fs, sleep d fs = fs.

Lemma retry_from_same n : (n <= 8)%nat → ∀ fs, (let '(fs, ec) := op fs in retry_from op sleep (λ fs e, transient fs target e) n (2 ^ (8 - Z.of_nat n)) ec fs).1 = share_retry transient n target op fs.
Proof.
  induction n as [|n IH]; intros Hn fs; cbn [share_retry]; destruct (op fs) as [fs1 [e|]]; cbn [retry_from]; try done.
  assert (2 ^ (8 - Z.of_nat (S n)) <= 128) as Hd. { change 128 with (2 ^ 7). apply Z.pow_le_mono_r; lia. }
  unfold kShareRetryMaxDelayMs. rewrite (proj2 (Z.leb_le _ _) Hd), andb_true_r, nothing_happens. destruct (transient fs1 target e); [|done].
  rewrite <- IH by lia. destruct (op fs1) as [fs2 ec2]. assert (2 ^ (8 - Z.of_nat (S n)) * 2 = 2 ^ (8 - Z.of_nat n)) as ->.
  { rewrite Z.mul_comm, <- Z.pow_succ_r by lia. f_equal. lia. }
  by destruct (retry_from _ _ _ n _ _ _) as [[? ?] ?].
Qed.

Theorem share_retry_same fs : (with_share_retry op sleep (λ fs e, transient fs target e) fs).1 = Server.with_share_retry transient target op fs.
Proof. unfold with_share_retry, Server.with_share_retry. by rewrite <- (retry_from_same 8) by lia. Qed.

Lemma open_from_same n : (n <= 8)%nat → ∀ fs, (open_from op sleep (λ fs e, transient fs target e) n (2 ^ (8 - Z.of_nat n)) fs).1 = share_retry transient n target op fs.
Proof.
  induction n as [|n IH]; intros Hn fs; cbn [share_retry open_from]; destruct (op fs) as [fs1 [e|]]; try done.
  assert (2 ^ (8 - Z.of_nat (S n)) <= 128) as Hd. { change 128 with (2 ^ 7). apply Z.pow_le_mono_r; lia. }
  unfold kShareRetryMaxDelayMs. rewrite Z.gtb_ltb, (proj2 (Z.ltb_ge _ _) Hd), orb_false_r, nothing_happens. destruct (transient fs1 target e); cbn [negb]; [|done].
  rewrite <- IH by lia. assert (2 ^ (8 - Z.of_nat (S n)) * 2 = 2 ^ (8 - Z.of_nat n)) as ->.
  { rewrite Z.mul_comm, <- Z.pow_succ_r by lia. f_equal. lia. }
  by destruct (open_from _ _ _ n _ _) as [[? ?] ?].
Qed.

(** The loop with the attempt inside does what the one with it in front does. *)
Theorem fopen_retry_same fs : (fopen_with_retry op sleep (λ fs e, transient fs target e) fs).1 = share_retry transient 8 target op fs.
Proof. apply (open_from_same 8). lia. Qed.
End same.

(** On Linux nothing is retried, and a read-only file is not waited for. *)
Theorem linux_never_retries {W} (op : W → W * option ErrorCode) sleep (attrs : W → Z) w :
  with_share_retry op sleep (λ w ec, is_transient_share_error false ec (attrs w)) w = (op w, []).
Proof. unfold with_share_retry. destruct (op w) as [w1 [e|]]; done. Qed.

Lemma readonly_not_retried a : negb (a =? INVALID_FILE_ATTRIBUTES) && negb (Z.land a FILE_ATTRIBUTE_READONLY =? 0) = true → transient_share_error ERROR_ACCESS_DENIED a = false.
Proof.
  intros [Hv Hr]%andb_true_iff. unfold transient_share_error, is_readonly_or_dir. rewrite Hv. change ((ERROR_ACCESS_DENIED =? ERROR_SHARING_VIOLATION) || (ERROR_ACCESS_DENIED =? ERROR_LOCK_VIOLATION)) with false.
  change (ERROR_ACCESS_DENIED =? ERROR_ACCESS_DENIED) with true. cbn [andb].
  rewrite Z.land_lor_distr_r. destruct (Z.eqb_spec (Z.lor (Z.land a FILE_ATTRIBUTE_READONLY) (Z.land a FILE_ATTRIBUTE_DIRECTORY)) 0) as [E|E]; [|done].
  apply Z.lor_eq_0_iff in E as [E _]. by rewrite E in Hr.
Qed.

(** Two failures, then the rename goes through: after 1 and 2 ms. *)
Example share_retry_demo :
  with_share_retry (λ n : Z, (n - 1, if n <=? 1 then None else Some (mkErrorCode true ERROR_SHARING_VIOLATION))) (λ _ n, n)
    (λ n ec, is_transient_share_error true ec 0) 3 = (0, None, [1; 2]).
Proof. reflexivity. Qed.
