(* ===== verification/Broadcast.v ===== *)
(** * Invalidations and snapshots on the wire ([agent/server.cpp])

    One round of [flush_loop] past the coalescer: attributes resolved against
    the disk, appeared directories expanded, moves repaired, the batch cut into
    frames; and the client's accumulation of a streamed snapshot. *)

From S2P Require Import Prelude Types Wire Messages Path Ignore Coalescer FileSystem Resolve Scanner Server.

#[global] Program Instance wire_move_op : MoveOp InvalidationOp :=
  {| mo_change := op_change; mo_cookie := op_cookie;
     mo_set op ch ck := mkOp (op_kind op) (op_path op) (op_attr op) ch ck |}.
Next Obligation. done. Qed.
Next Obligation. done. Qed.

Section flush.
Context {F : Type} `{FileSystem F} (cfg : Config).

Definition is_ignored (path : bytes) : bool :=
  negb (bool_decide (patterns_ (cfg_ignore cfg) = []))
  && (ignored (cfg_ignore cfg) path false || ignored (cfg_ignore cfg) path true).

(** One planned operation: what goes into the batch, if anything. *)
Definition resolve_op (fs : F) (op : PlannedOp) : option InvalidationOp :=
  match po_kind op with
  | Rescan => Some (mkOp Rescan (po_path op) default_attr (po_change op) (po_cookie op))
  | _ =>
      if is_ignored (po_path op) then None
      else
        match Scanner.read_attributes fs (join_relative (cfg_root cfg) (po_path op)) with
        | Err _ =>
            Some (match po_change op with
                  | MovedFrom => mkOp Remove (po_path op) default_attr MovedFrom (po_cookie op)
                  | _ => mkOp Remove (po_path op) default_attr Removed 0
                  end)
        | Ok a =>
            match a_kind a with
            | Other => None
            | _ =>
                Some (match po_change op with
                      | Removed | MovedFrom => mkOp Upsert (po_path op) a Modified 0
                      | ch => mkOp Upsert (po_path op) a ch (po_cookie op)
                      end)
            end
        end
  end.

Definition expands (op : PlannedOp) (out : InvalidationOp) : bool :=
  po_appeared op && is_upsert (op_kind out) && is_directory_kind (a_kind (op_attr out)).

Definition resolve_all (fs : F) (planned : list PlannedOp) : list InvalidationOp := omap (resolve_op fs) planned.

Definition expand_dirs (fs : F) (planned : list PlannedOp) : list bytes :=
  omap (λ op, match resolve_op fs op with
              | Some out => if expands op out then Some (op_path out) else None
              | None => None
              end) planned.

(** *** [append_subtrees] *)

Definition path_le (a b : bytes) : Prop := bytes_le a b = true.
#[global] Instance path_le_dec : RelDecision path_le.
Proof. intros a b. unfold path_le. apply _. Defined.

(** The topmost directories of each nest, in order: [last_root] is the last one
    enumerated. *)
Fixpoint scan_roots (last_root : bytes) (dirs : list bytes) : list bytes :=
  match dirs with
  | [] => []
  | rel :: dirs =>
      if negb (bool_decide (last_root = [])) && path_is_under rel last_root then scan_roots last_root dirs
      else rel :: scan_roots rel dirs
  end.

(** The path of every entry of a walk, by index. *)
Fixpoint entry_paths (rels : list bytes) (es : list SnapshotEntry) : list (bytes * Attributes) :=
  match es with
  | [] => []
  | e :: es =>
      let p := (rels !!! Z.to_nat (se_parent e)) ++ c_slash :: se_name e in
      (p, se_attr e) :: entry_paths (rels ++ [p]) es
  end.

Definition subtree_entries (fs : F) (rel : bytes) : list (bytes * Attributes) :=
  let skip sub is_dir :=
    negb (bool_decide (patterns_ (cfg_ignore cfg) = [])) && ignored (cfg_ignore cfg) (rel ++ c_slash :: sub) is_dir in
  match scan_tree (cfg_fuel cfg) fs (join_relative (cfg_root cfg) rel) skip (cfg_one_fs cfg) with
  | Err _ => []
  | Ok w => entry_paths [rel] (w_out w)
  end.

(** Past [max_expanded] entries the expansion is dropped for a rescan. *)
Definition append_subtrees (max_expanded : Z) (fs : F) (dirs : list bytes) (ops : list InvalidationOp) : list InvalidationOp :=
  let found := scan_roots [] (merge_sort path_le dirs) ≫= subtree_entries fs in
  if zlen found >? max_expanded then ops ++ [mkOp Rescan [] default_attr Unknown 0]
  else
    ops ++ omap (λ pa, if bool_decide (pa.1 ∈ (op_path <$> ops)) then None
                       else Some (mkOp Upsert pa.1 pa.2 Created 0)) found.

(** The ops of the batch [flush_loop] broadcasts. *)
Definition flush_ops (max_expanded : Z) (fs : F) (planned : list PlannedOp) : list InvalidationOp :=
  let ops := resolve_all fs planned in
  let dirs := expand_dirs fs planned in
  repair_move_pairs (if bool_decide (dirs = []) then ops else append_subtrees max_expanded fs dirs ops).
End flush.

(** ** Splitting a batch into frames *)

(** The inner [for] of [broadcast_batch]: the chunk and what is left. *)
Fixpoint take_chunk (budget bytes : Z) (started : bool) (ops : list InvalidationOp)
    : list InvalidationOp * list InvalidationOp :=
  match ops with
  | [] => ([], [])
  | op :: rest =>
      let bytes := bytes + zlen (op_path op) + 32 in
      if (bytes >? budget) && started then ([], ops)
      else let '(c, r) := take_chunk budget bytes true rest in (op :: c, r)
  end.

(** The outer loop; every round takes an operation at least. *)
Fixpoint batch_chunks (fuel : nat) (budget : Z) (ops : list InvalidationOp) : list (list InvalidationOp) :=
  match fuel, ops with
  | S fuel, _ :: _ => let '(c, r) := take_chunk budget 0 false ops in c :: batch_chunks fuel budget r
  | _, _ => []
  end.

Definition batch_budget (chunk_bytes : Z) : Z := Z.min chunk_bytes (kMaxPayload / 2).

Definition broadcast_frames (chunk_bytes : Z) (b : InvalidationBatch) : list Out :=
  (λ ops, mkOut MsgType.Invalidation 0 (write_invalidation (mkBatch (b_generation b) ops)) 0)
  <$> batch_chunks (length (b_ops b)) (batch_budget chunk_bytes) (b_ops b).

(** ** The client's side of a streamed snapshot *)

(** ** Lemmas *)

Lemma take_chunk_spec budget b st ops c r : take_chunk budget b st ops = (c, r) →
  ops = c ++ r ∧ (st = false → ops ≠ [] → c ≠ [])
  ∧ (b + foldr (λ op n, zlen (op_path op) + 32 + n) 0 c <= Z.max b budget
     ∨ (st = false ∧ length c = 1%nat)).
Proof.
  revert b st c r. induction ops as [|op ops IH]; intros b st c r; cbn [take_chunk].
  { intros [= <- <-]. split_and!; [done..|left; simpl; lia]. }
  destruct ((b + zlen (op_path op) + 32 >? budget) && st) eqn:E.
  { intros [= <- <-]. b2p. split_and!; [done|by intros ->|left; simpl; lia]. }
  destruct (take_chunk budget (b + zlen (op_path op) + 32) true ops) as [c' r'] eqn:Et.
  intros [= <- <-]. apply IH in Et as (-> & _ & Hb). split_and!; [done|done|].
  destruct Hb as [Hb|[? _]]; [|done]. cbn [foldr]. apply andb_false_iff in E as [E|E].
  - left. b2p. lia.
  - subst st. destruct (Z.leb_spec (b + zlen (op_path op) + 32) budget); [left; lia|right].
    split; [done|]. destruct c' as [|o c']; [done|]. exfalso. cbn [foldr] in Hb.
    pose proof (zlen_nonneg (op_path o)). assert (0 <= foldr (λ op n, zlen (op_path op) + 32 + n) 0 c').
    { clear. induction c' as [|o c IH]; simpl; [lia|]. pose proof (zlen_nonneg (op_path o)). lia. }
    lia.
Qed.

Definition chunk_ok (budget : Z) (c : list InvalidationOp) : Prop :=
  c ≠ [] ∧ (foldr (λ op n, zlen (op_path op) + 32 + n) 0 c <= Z.max 0 budget ∨ length c = 1%nat).

Lemma batch_chunks_spec fuel budget ops : (length ops <= fuel)%nat →
  concat (batch_chunks fuel budget ops) = ops ∧ Forall (chunk_ok budget) (batch_chunks fuel budget ops).
Proof.
  revert ops. induction fuel as [|fuel IH]; intros ops Hl.
  { by destruct ops; [|simpl in Hl; lia]. }
  destruct ops as [|op ops]; [done|]. cbn [batch_chunks].
  destruct (take_chunk budget 0 false (op :: ops)) as [c r] eqn:Et.
  apply take_chunk_spec in Et as (He & Hne & Hb). specialize (Hne eq_refl ltac:(done)).
  assert (length r <= fuel)%nat.
  { apply (f_equal length) in He. rewrite length_app in He. destruct c; [done|]. simpl in *. lia. }
  destruct (IH r) as [IH1 IH2]; [done|]. cbn [concat]. rewrite IH1, He. split; [done|].
  constructor; [|done]. split; [done|]. destruct Hb as [Hb|[_ Hb]]; [left; lia|by right].
Qed.

Lemma write_op_length op : zlen (write_op op) <= zlen (op_path op) + 45.
Proof.
  unfold write_op, w_string, write_attributes, w_i64, w_u64, w_u32. rewrite !zlen_app.
  pose proof (w_varint_length (zlen (op_path op))). pose proof (w_varint_length (a_mode (op_attr op))).
  pose proof (w_varint_length (a_size (op_attr op))).
  assert (∀ v, zlen (w_u8 v) = 1) as H8 by done. rewrite !H8.
  case_bool_decide; destruct (is_move _); rewrite ?zlen_app, ?H8, ?put_le_zlen, ?zlen_nil; lia.
Qed.

Lemma write_ops_length c : 2 * zlen (w_each write_op c) <= 3 * foldr (λ op n, zlen (op_path op) + 32 + n) 0 c.
Proof.
  induction c as [|op c IH]; [done|]. cbn [w_each foldr]. rewrite zlen_app.
  pose proof (write_op_length op). pose proof (zlen_nonneg (op_path op)). lia.
Qed.

Lemma chunk_payload_fits gen chunk_bytes c :
  chunk_ok (batch_budget chunk_bytes) c → Forall (λ op, zlen (op_path op) <= kMaxPayload / 2) c →
  zlen (write_invalidation (mkBatch gen c)) <= kMaxPayload.
Proof.
  intros [_ Hc] Hp. unfold write_invalidation, w_u64. rewrite !zlen_app, put_le_zlen. cbn [b_ops b_generation].
  pose proof (w_varint_length (zlen c)). pose proof (write_ops_length c).
  assert (kMaxPayload = 67108864) as HM by (vm_compute; reflexivity).
  unfold batch_budget in Hc. rewrite HM in *. change (67108864 / 2) with 33554432 in *.
  destruct Hc as [Hc|Hc]; [lia|].
  destruct c as [|op [|]]; try done. inversion Hp; subst. cbn [w_each] in *. rewrite app_nil_r.
  pose proof (write_op_length op). lia.
Qed.

Lemma op_on_wire_again op : op_path (op_on_wire op) = op_path op ∧ op_kind (op_on_wire op) = op_kind op.
Proof. by destruct op as [[] ? ? [] ?]. Qed.

(** What the disk says of a path now. *)
Definition disk_agrees {F} `{FileSystem F} (cfg : Config) (fs : F) (op : InvalidationOp) : Prop :=
  match op_kind op with
  | Upsert => Scanner.read_attributes fs (join_relative (cfg_root cfg) (op_path op)) = Ok (op_attr op)
              ∧ a_kind (op_attr op) ≠ Other
  | Remove => ∃ e, Scanner.read_attributes fs (join_relative (cfg_root cfg) (op_path op)) = Err e
  | Rescan => True
  end.

Lemma resolve_op_agrees {F} `{FileSystem F} cfg fs op out : resolve_op cfg fs op = Some out →
  disk_agrees cfg fs out ∧ op_path out = po_path op.
Proof.
  unfold resolve_op, disk_agrees. destruct (po_kind op); [| |by intros [= <-]].
  all: destruct (is_ignored cfg (po_path op)); [done|].
  all: destruct (Scanner.read_attributes _ _) as [a|e] eqn:E.
  all: try (destruct (a_kind a) eqn:Ek; [..|done]).
  all: intros [= <-]; destruct (po_change op); cbn; rewrite ?E, ?Ek; split; eauto.
Qed.

Lemma resolve_op_none {F} `{FileSystem F} cfg fs op : resolve_op cfg fs op = None →
  is_ignored cfg (po_path op) = true
  ∨ ∃ a, Scanner.read_attributes fs (join_relative (cfg_root cfg) (po_path op)) = Ok a ∧ a_kind a = Other.
Proof.
  unfold resolve_op. intros Hn. destruct (po_kind op); [| |done].
  all: destruct (is_ignored cfg (po_path op)); [by left|right].
  all: destruct (Scanner.read_attributes _ _) as [a|e]; [|by destruct (po_change op)].
  all: exists a; destruct (a_kind a); by destruct (po_change op).
Qed.

Lemma repair_wire ops : (λ o, (op_kind o, op_path o, op_attr o)) <$> repair_move_pairs ops
  = (λ o, (op_kind o, op_path o, op_attr o)) <$> ops.
Proof.
  unfold repair_move_pairs. case_bool_decide; [done|]. rewrite <- list_fmap_compose. apply list_fmap_ext.
  intros i o _. simpl. unfold repair_op. by repeat case_match.
Qed.

Lemma repair_wire_elem ops o : o ∈ repair_move_pairs ops →
  ∃ o', o' ∈ ops ∧ op_kind o = op_kind o' ∧ op_path o = op_path o' ∧ op_attr o = op_attr o'.
Proof.
  unfold repair_move_pairs. case_bool_decide; [eauto 10|]. rewrite list_elem_of_fmap. intros (o' & -> & Ho).
  exists o'. split; [done|]. unfold repair_op. by repeat case_match.
Qed.

(** A batch reports the disk as it is when it is sent, whatever the events
    said.  Every planned path that is not ignored and not a device has an
    operation, an Upsert carrying the current attributes when the path exists
    and a Remove when it does not; and every operation of the batch that names a
    planned path is of this form. *)
Theorem flush_reports_disk {F} `{FileSystem F} cfg max_expanded (fs : F) planned :
  (∀ op, op ∈ planned → po_kind op ≠ Rescan → is_ignored cfg (po_path op) = false →
     (∀ a, Scanner.read_attributes fs (join_relative (cfg_root cfg) (po_path op)) = Ok a → a_kind a ≠ Other) →
     ∃ out, out ∈ flush_ops cfg max_expanded fs planned ∧ op_path out = po_path op ∧ disk_agrees cfg fs out)
  ∧ (∀ out, out ∈ flush_ops cfg max_expanded fs planned → op_path out ∈ (op_path <$> resolve_all cfg fs planned) →
       disk_agrees cfg fs out ∨ op_kind out = Rescan).
Proof.
  set (all := if bool_decide (expand_dirs cfg fs planned = []) then resolve_all cfg fs planned
              else append_subtrees cfg max_expanded fs (expand_dirs cfg fs planned) (resolve_all cfg fs planned)).
  assert (flush_ops cfg max_expanded fs planned = repair_move_pairs all) as -> by done.
  assert (∀ o o', op_kind o = op_kind o' → op_path o = op_path o' → op_attr o = op_attr o' →
    disk_agrees cfg fs o → disk_agrees cfg fs o') as Hext.
  { intros o o' H1 H2 H3. unfold disk_agrees. by rewrite H1, H2, H3. }
  assert (∀ o, o ∈ resolve_all cfg fs planned → o ∈ all) as Hin.
  { intros o Ho. unfold all. case_bool_decide; [done|]. unfold append_subtrees. case_match; apply elem_of_app; by left. }
  split.
  - intros op Hop Hk Hi Ho. destruct (resolve_op cfg fs op) as [out|] eqn:E.
    + destruct (resolve_op_agrees cfg fs op out E) as [Ha Hp].
      assert (out ∈ all) as Hall by (apply Hin, list_elem_of_omap; eauto).
      assert ((op_kind out, op_path out, op_attr out) ∈ (λ o, (op_kind o, op_path o, op_attr o)) <$> repair_move_pairs all) as Hr.
      { rewrite repair_wire. by apply (list_elem_of_fmap_2 (λ o, (op_kind o, op_path o, op_attr o))). }
      apply list_elem_of_fmap in Hr as (o & Heq & Ho'). injection Heq as H1 H2 H3.
      exists o. split_and!; [done|congruence|by eapply Hext].
    + apply resolve_op_none in E as [E|(a & Ha & Hk')]; [congruence|]. by apply Ho in Ha.
  - intros out (o & Ho & H1 & H2 & H3)%repair_wire_elem Hp. rewrite H2 in Hp. rewrite H1.
    assert (disk_agrees cfg fs o ∨ op_kind o = Rescan) as [?|?]; [|left; by eapply Hext|by right].
    assert (∀ o, o ∈ resolve_all cfg fs planned → disk_agrees cfg fs o) as Hres.
    { intros x (op & _ & Hx)%list_elem_of_omap. by eapply resolve_op_agrees. }
    unfold all in Ho. case_bool_decide; [left; by apply Hres|]. unfold append_subtrees in Ho.
    case_match; apply elem_of_app in Ho as [Ho|Ho]; try (left; by apply Hres).
    + apply list_elem_of_singleton in Ho as ->. by right.
    + apply list_elem_of_omap in Ho as ([p a] & _ & Hx). case_bool_decide as Hd; [done|]. injection Hx as <-.
      by destruct Hd.
Qed.

(** Cutting a batch into frames is invisible: the frames carry the batch's
    operations in order, none of them empty, all with the batch's generation,
    and every frame is within the payload limit, so a large batch cannot make
    the peers drop the connection. *)
Theorem broadcast_frames_ok chunk_bytes b :
  Forall (λ op, zlen (op_path op) <= kMaxPayload / 2) (b_ops b) →
  ∃ chunks, broadcast_frames chunk_bytes b
      = (λ ops, mkOut MsgType.Invalidation 0 (write_invalidation (mkBatch (b_generation b) ops)) 0) <$> chunks
    ∧ concat chunks = b_ops b ∧ Forall (λ c, c ≠ []) chunks
    ∧ Forall (λ o, zlen (o_payload o) <= kMaxPayload) (broadcast_frames chunk_bytes b).
Proof.
  intros Hp. destruct (batch_chunks_spec (length (b_ops b)) (batch_budget chunk_bytes) (b_ops b)) as [Hc Hok]; [done|].
  unfold broadcast_frames. set (cs := batch_chunks _ _ _) in *. exists cs. split_and!; [done|done| |].
  - eapply Forall_impl; [exact Hok|]. by intros c [].
  - rewrite <- Hc in Hp. clear Hc. induction cs as [|c cs IH]; [constructor|].
    cbn [concat] in Hp. apply Forall_app in Hp as [Hp1 Hp2]. inversion Hok; subst.
    cbn [fmap list_fmap]. constructor; [by eapply chunk_payload_fits|]. by apply IH.
Qed.

Lemma broadcast_frames_ok_witness :
  length (broadcast_frames 40 (mkBatch 3 [mkOp Remove (str "a") default_attr Removed 0; mkOp Remove (str "b") default_attr Removed 0])) = 2%nat
  ∧ Forall (λ o, zlen (o_payload o) <= kMaxPayload)
      (broadcast_frames 40 (mkBatch 3 [mkOp Remove (str "a") default_attr Removed 0; mkOp Remove (str "b") default_attr Removed 0])).
Proof.
  split; [vm_compute; reflexivity|].
  destruct (broadcast_frames_ok 40 (mkBatch 3 [mkOp Remove (str "a") default_attr Removed 0; mkOp Remove (str "b") default_attr Removed 0]))
    as (cs & _ & _ & _ & H); [repeat constructor; vm_compute; congruence|exact H].
Defined.
