(* ===== verification/Peers.v ===== *)
(** * The agent's threads ([agent/server.cpp])

    What the flusher thread, the session threads and [stop] share: the coalescer,
    the generation counter, the list of peers and the count of broadcasts under
    way.  A step is what one thread does between two points where another may run:
    a section under a lock, or one send outside it.  A run is a list of choices of
    the scheduler; a step says which channels it touches, so that touching one
    that has been destroyed can be ruled out. *)

From S2P Require Import Prelude Types Messages Coalescer Ignore FileSystem Resolve Scanner Server Broadcast.

(** [RootServer::RootServer]: the rules of [.wsldriveignore] in the served root;
    [read] gives what [fread] reads of it, [None] where it cannot be opened. *)
Definition load_ignore (root : bytes) (is_regular_file : bytes → bool) (read : bytes → option bytes) : IgnoreRules :=
  let file := join_relative root (str ".wsldriveignore") in
  if is_regular_file file then match read file with Some text => parse text | None => mkRules [] end else mkRules [].

(** A session thread in [serve], from the creation of its channel to the end of
    the channel: not in the broadcast set, in it, or deregistered and waiting. *)
Inductive SessState := Unregistered | Registered | Waiting.
#[global] Instance SessState_eq_dec : EqDecision SessState.
Proof. solve_decision. Defined.

(** The flusher: parked, with the frames of a batch still to broadcast, or inside
    [broadcast] with the peers still to send the frame to. *)
Inductive Flusher := Parked | Batch (frames : list Out) | Sending (frame : Out) (targets : list nat) (frames : list Out).

Record RootServer := mkRoot {
  coalescer_ : Coalescer;
  generation_ : Z;
  chans : gmap nat SessState;          (* the channels that exist *)
  peers_ : list nat;
  broadcasts_in_flight_ : Z;
  flusher_ : Flusher;
  stopping_ : bool;
  shut : gset nat;                     (* channels that were shut down *)
  begun : list Out;                    (* frames whose broadcast began *)
  sent : list (nat * Out)              (* frames handed to a channel *)
}.

Definition root_new (o : Options) : RootServer := mkRoot (coal_new o) 1 ∅ [] 0 Parked false ∅ [] [].

(** Whether a send succeeds, runs out of time, or fails. *)
Inductive SendResult := Sent | TimedOut | Failed.

Section threads.
Context {F : Type} `{FileSystem F} (cfg : Config) (max_expanded : Z).

(** [serve] begins ([SOpen]), registers before the loop ([SRegisterFirst]) or in it
    ([SRegister]), leaves the loop and deregisters ([SLeave]), returns ([SReturn]);
    an event is pushed; the flusher takes a batch, begins a broadcast, sends to the
    next peer, ends the broadcast, parks; [stop] sets the flag and shuts the peers
    down. *)
Inductive Choice :=
| SOpen (c : nat) | SRegisterFirst (c : nat) | SRegister (c : nat) | SLeave (c : nat) | SReturn (c : nat)
| OnEvent (ev : FsEvent) (now : Z)
| Flush (now : Z) (fs : F) | BroadcastBegin | BroadcastSend (r : SendResult) | BroadcastEnd | Park
| Stop | StopPeers.

(** [peers_.erase(std::remove(...))] and the state of the thread. *)
Definition deregister (c : nat) (s : RootServer) : RootServer :=
  mkRoot (coalescer_ s) (generation_ s) (<[c := Waiting]> (chans s)) (filter (λ p, p ≠ c) (peers_ s)) (broadcasts_in_flight_ s)
    (flusher_ s) (stopping_ s) (shut s) (begun s) (sent s).

Definition with_chans (m : gmap nat SessState) (ps : list nat) (s : RootServer) : RootServer :=
  mkRoot (coalescer_ s) (generation_ s) m ps (broadcasts_in_flight_ s) (flusher_ s) (stopping_ s) (shut s) (begun s) (sent s).
Definition with_coalescer (co : Coalescer) (s : RootServer) : RootServer :=
  mkRoot co (generation_ s) (chans s) (peers_ s) (broadcasts_in_flight_ s) (flusher_ s) (stopping_ s) (shut s) (begun s) (sent s).
Definition with_flusher (f : Flusher) (s : RootServer) : RootServer :=
  mkRoot (coalescer_ s) (generation_ s) (chans s) (peers_ s) (broadcasts_in_flight_ s) f (stopping_ s) (shut s) (begun s) (sent s).

(** One round of [flush_loop] that finds a batch ready: the state after [take] and
    the frames of [broadcast_batch]. *)
Definition flush_round (now : Z) (fs : F) (s : RootServer) : RootServer :=
  let '(co, planned) := take_batch (coalescer_ s) in
  let gen := wrap 64 (generation_ s + 1) in
  let ops := flush_ops cfg max_expanded fs planned in
  let frames := if bool_decide (ops = []) then [] else broadcast_frames (cfg_chunk cfg) (mkBatch gen ops) in
  mkRoot co gen (chans s) (peers_ s) (broadcasts_in_flight_ s) (Batch frames) (stopping_ s) (shut s) (begun s) (sent s).

(** Each operation gives the state after it and the channels it touches; [None]
    where its thread cannot move. *)
Abbreviation Move := (option (RootServer * list nat)).

(** The entry of [serve]: nothing is set up on a server that is stopping. *)
Definition serve_open (c : nat) (s : RootServer) : Move :=
  match chans s !! c with
  | Some _ => None
  | None => Some (if stopping_ s then s else with_chans (<[c := Unregistered]> (chans s)) (peers_ s) s, [])
  end.

Definition add_peer (c : nat) (s : RootServer) : RootServer * bool :=
  if stopping_ s then (s, false) else (with_chans (<[c := Registered]> (chans s)) (peers_ s ++ [c]) s, true).

(** [if (authed && !(registered = add_peer(ch))) return;] *)
Definition register_first (c : nat) (s : RootServer) : Move :=
  match chans s !! c with
  | Some Unregistered =>
      match add_peer c s with
      | (s, true) => Some (s, [c])
      | (s, false) => Some (with_chans (delete c (chans s)) (peers_ s) s, [])
      end
  | _ => None
  end.

(** [if (authed && !registered && !(registered = add_peer(ch))) break;] *)
Definition register_later (c : nat) (s : RootServer) : Move :=
  match chans s !! c with
  | Some Unregistered => match add_peer c s with (s, true) => Some (s, [c]) | (s, false) => Some (deregister c s, []) end
  | _ => None
  end.

Definition serve_leave (c : nat) (s : RootServer) : Move :=
  match chans s !! c with Some Unregistered | Some Registered => Some (deregister c s, []) | _ => None end.

(** The end of the wait for [broadcasts_in_flight_ == 0]; the caller destroys the
    channel. *)
Definition serve_return (c : nat) (s : RootServer) : Move :=
  match chans s !! c with
  | Some Waiting => if broadcasts_in_flight_ s =? 0 then Some (with_chans (delete c (chans s)) (peers_ s) s, []) else None
  | _ => None
  end.

Definition on_event (ev : FsEvent) (now : Z) (s : RootServer) : RootServer := with_coalescer (push (coalescer_ s) ev now) s.

(** [flush_loop] finds the coalescer ready. *)
Definition flush_loop (now : Z) (fs : F) (s : RootServer) : Move :=
  match flusher_ s with
  | Parked => if negb (stopping_ s) && ready (coalescer_ s) now then Some (flush_round now fs s, []) else None
  | _ => None
  end.

(** [broadcast]: the copy of the peers, one send, the end. *)
Definition broadcast_begin (s : RootServer) : Move :=
  match flusher_ s with
  | Batch (f :: fs) =>
      Some (mkRoot (coalescer_ s) (generation_ s) (chans s) (peers_ s) (broadcasts_in_flight_ s + 1) (Sending f (peers_ s) fs)
              (stopping_ s) (shut s) (begun s ++ [f]) (sent s), [])
  | _ => None
  end.
Definition broadcast_send (r : SendResult) (s : RootServer) : Move :=
  match flusher_ s with
  | Sending f (t :: ts) fs =>
      Some (mkRoot (coalescer_ s) (generation_ s) (chans s) (peers_ s) (broadcasts_in_flight_ s) (Sending f ts fs) (stopping_ s)
              (match r with TimedOut => {[t]} ∪ shut s | _ => shut s end) (begun s)
              (match r with Sent => sent s ++ [(t, f)] | _ => sent s end), [t])
  | _ => None
  end.
Definition broadcast_end (s : RootServer) : Move :=
  match flusher_ s with
  | Sending f [] fs =>
      Some (mkRoot (coalescer_ s) (generation_ s) (chans s) (peers_ s) (broadcasts_in_flight_ s - 1) (Batch fs)
              (stopping_ s) (shut s) (begun s) (sent s), [])
  | _ => None
  end.
Definition park (s : RootServer) : Move := match flusher_ s with Batch [] => Some (with_flusher Parked s, []) | _ => None end.

(** [stop]: the flag, then the peers under their lock. *)
Definition stop_flag (s : RootServer) : RootServer :=
  mkRoot (coalescer_ s) (generation_ s) (chans s) (peers_ s) (broadcasts_in_flight_ s) (flusher_ s) true (shut s) (begun s) (sent s).
Definition stop_peers (s : RootServer) : Move :=
  if stopping_ s then
    Some (mkRoot (coalescer_ s) (generation_ s) (chans s) (peers_ s) (broadcasts_in_flight_ s) (flusher_ s) (stopping_ s)
            (list_to_set (peers_ s) ∪ shut s) (begun s) (sent s), peers_ s)
  else None.

Definition step (s : RootServer) (x : Choice) : Move :=
  match x with
  | SOpen c => serve_open c s
  | SRegisterFirst c => register_first c s
  | SRegister c => register_later c s
  | SLeave c => serve_leave c s
  | SReturn c => serve_return c s
  | OnEvent ev now => Some (on_event ev now s, [])
  | Flush now fs => flush_loop now fs s
  | BroadcastBegin => broadcast_begin s
  | BroadcastSend r => broadcast_send r s
  | BroadcastEnd => broadcast_end s
  | Park => park s
  | Stop => Some (stop_flag s, [])
  | StopPeers => stop_peers s
  end.

Fixpoint run (s : RootServer) (xs : list Choice) : option RootServer :=
  match xs with [] => Some s | x :: xs => match step s x with Some (s, _) => run s xs | None => None end end.
End threads.
Arguments Choice : clear implicits.

(** ** No step touches a channel that is gone *)

Definition under_way (s : RootServer) : list nat := match flusher_ s with Sending _ ts _ => ts | _ => [] end.

(** Peers are registered channels, once each; a broadcast under way is counted,
    and the channels it still has to visit exist, their sessions at most waiting. *)
Record threads_ok (s : RootServer) : Prop := {
  ok_peers : ∀ c, c ∈ peers_ s → chans s !! c = Some Registered;
  ok_nodup : NoDup (peers_ s);
  ok_count : broadcasts_in_flight_ s = match flusher_ s with Sending _ _ _ => 1 | _ => 0 end;
  ok_targets : ∀ c, c ∈ under_way s → chans s !! c = Some Registered ∨ chans s !! c = Some Waiting;
  ok_once : NoDup (under_way s)
}.

Lemma root_new_ok o : threads_ok (root_new o).
Proof. split; cbn; [by intros c ?%not_elem_of_nil|apply NoDup_nil_2|done|by intros c ?%not_elem_of_nil|apply NoDup_nil_2]. Qed.

(** A state is fine again when one session moves on from [Unregistered]. *)
Lemma register_ok s c : threads_ok s → chans s !! c = Some Unregistered → threads_ok (with_chans (<[c := Registered]> (chans s)) (peers_ s ++ [c]) s).
Proof.
  intros [Hp Hn Hc Ht Ho] Hu. assert (c ∉ peers_ s) as Hnew by (intros Hin; apply Hp in Hin; congruence).
  split; cbn [with_chans peers_ chans broadcasts_in_flight_ flusher_]; [| |done| |done].
  - intros d Hd. destruct (decide (d = c)) as [->|Hne]; [apply lookup_insert_eq|]. rewrite lookup_insert_ne by done.
    apply Hp. apply elem_of_app in Hd as [?|Hd]; [done|]. by apply list_elem_of_singleton in Hd.
  - apply NoDup_app. split_and!; [done| |apply NoDup_singleton]. intros d Hd ->%list_elem_of_singleton. done.
  - intros d Hd. destruct (decide (d = c)) as [->|Hne]; [left; apply lookup_insert_eq|]. rewrite lookup_insert_ne by done. by apply Ht.
Qed.

Lemma deregister_ok s c : threads_ok s → threads_ok (deregister c s).
Proof.
  intros [Hp Hn Hc Ht Ho]. split; cbn [deregister peers_ chans broadcasts_in_flight_ flusher_]; [| |done| |done].
  - intros d [Hne Hd]%list_elem_of_filter. rewrite lookup_insert_ne by done. by apply Hp.
  - by apply NoDup_filter.
  - intros d Hd. destruct (decide (d = c)) as [->|Hne]; [right; apply lookup_insert_eq|]. rewrite lookup_insert_ne by done. by apply Ht.
Qed.

(** A channel that is neither registered nor needed by a broadcast may go. *)
Lemma destroy_ok s c : threads_ok s → chans s !! c ≠ Some Registered → (c ∉ under_way s) → threads_ok (with_chans (delete c (chans s)) (peers_ s) s).
Proof.
  intros [Hp Hn Hc Ht Ho] Hr Hu. split; cbn [with_chans peers_ chans broadcasts_in_flight_ flusher_]; [|done|done| |done].
  - intros d Hd. rewrite lookup_delete_ne; [by apply Hp|]. intros ->. apply Hr. by apply Hp.
  - intros d Hd. rewrite lookup_delete_ne; [by apply Ht|]. intros ->. done.
Qed.

Lemma open_ok s c : threads_ok s → chans s !! c = None → threads_ok (with_chans (<[c := Unregistered]> (chans s)) (peers_ s) s).
Proof.
  intros [Hp Hn Hc Ht Ho] Hnew. split; cbn [with_chans peers_ chans broadcasts_in_flight_ flusher_]; [|done|done| |done].
  - intros d Hd. rewrite lookup_insert_ne; [by apply Hp|]. intros <-. apply Hp in Hd. congruence.
  - intros d Hd. rewrite lookup_insert_ne; [by apply Ht|]. intros <-. apply Ht in Hd as [?|?]; congruence.
Qed.

Lemma not_under_way s c : threads_ok s → broadcasts_in_flight_ s = 0 → c ∉ under_way s.
Proof. intros [_ _ Hc _ _] H0 Hin. unfold under_way in Hin. destruct (flusher_ s); [by apply not_elem_of_nil in Hin..|lia]. Qed.

Lemma threads_step_ok {F} `{FileSystem F} cfg mx s x s' used : threads_ok s → step (F:=F) cfg mx s x = Some (s', used) →
  threads_ok s' ∧ ∀ c, c ∈ used → is_Some (chans s !! c).
Proof.
  intros Hok. pose proof Hok as [Hp Hn Hc Ht Ho]. destruct x as [c|c|c|c|c|ev now|now fs| |r| | | |]; cbn [step]; unfold serve_open, register_first, register_later, add_peer, serve_leave, serve_return, flush_loop, broadcast_begin, broadcast_send, broadcast_end, park, stop_peers.
  - destruct (chans s !! c) eqn:E; [done|]. intros [= <- <-]. split; [|by intros d ?%not_elem_of_nil]. destruct (stopping_ s); [done|by apply open_ok].
  - destruct (chans s !! c) as [[| |]|] eqn:E; try done. destruct (stopping_ s); intros [= <- <-].
    + split; [apply destroy_ok; [done|congruence|]|by intros d ?%not_elem_of_nil]. intros Hu. apply Ht in Hu as [?|?]; congruence.
    + split; [by apply register_ok|]. intros d ->%list_elem_of_singleton. eauto.
  - destruct (chans s !! c) as [[| |]|] eqn:E; try done. destruct (stopping_ s); intros [= <- <-].
    + split; [by apply deregister_ok|by intros d ?%not_elem_of_nil].
    + split; [by apply register_ok|]. intros d ->%list_elem_of_singleton. eauto.
  - destruct (chans s !! c) as [[| |]|] eqn:E; try done; intros [= <- <-]; (split; [by apply deregister_ok|by intros d ?%not_elem_of_nil]).
  - destruct (chans s !! c) as [[| |]|] eqn:E; try done. destruct (Z.eqb_spec (broadcasts_in_flight_ s) 0); [|done]. intros [= <- <-].
    split; [apply destroy_ok; [done|congruence|by apply not_under_way]|by intros d ?%not_elem_of_nil].
  - intros [= <- <-]. split; [by split|by intros d ?%not_elem_of_nil].
  - destruct (flusher_ s) eqn:Ef; try done. destruct (_ && _); [|done]. intros [= <- <-]. split; [|by intros d ?%not_elem_of_nil].
    unfold flush_round. destruct (take_batch _) as [co planned]. split; cbn; try done; [by intros d ?%not_elem_of_nil|apply NoDup_nil_2].
  - destruct (flusher_ s) as [|[|f fs]|] eqn:Ef; try done. intros [= <- <-]. split; [|by intros d ?%not_elem_of_nil].
    split; cbn; try done; [lia|]. intros d Hd. left. by apply Hp.
  - unfold under_way in Ht, Ho. destruct (flusher_ s) as [| |f [|t ts] fs] eqn:Ef; try done. intros [= <- <-]. split.
    + split; cbn; try done; [|by apply NoDup_cons in Ho as [_ ?]]. intros d Hd. apply Ht. by apply list_elem_of_further.
    + intros d ->%list_elem_of_singleton. destruct (Ht t) as [?|?]; [by apply list_elem_of_here|by eexists..].
  - destruct (flusher_ s) as [| |f [|t ts] fs] eqn:Ef; try done. intros [= <- <-]. split; [|by intros d ?%not_elem_of_nil].
    split; cbn; try done; [lia|by intros d ?%not_elem_of_nil|constructor].
  - destruct (flusher_ s) as [|[|f fs]|] eqn:Ef; try done. intros [= <- <-]. split; [|by intros d ?%not_elem_of_nil].
    split; cbn; try done; [by intros d ?%not_elem_of_nil|apply NoDup_nil_2].
  - intros [= <- <-]. split; [by split|by intros d ?%not_elem_of_nil].
  - destruct (stopping_ s); [|done]. intros [= <- <-]. split; [by split|]. intros d Hd. apply Hp in Hd. eauto.
Qed.

Lemma threads_run_ok {F} `{FileSystem F} cfg mx xs : ∀ s s', threads_ok s → run (F:=F) cfg mx s xs = Some s' → threads_ok s'.
Proof.
  induction xs as [|x xs IH]; intros s s' Hs Hr; cbn [run] in Hr; [by injection Hr as <-|].
  destruct (step cfg mx s x) as [[s1 used]|] eqn:E; [|done]. eapply IH; [|done]. by eapply threads_step_ok.
Qed.

(** C15: no thread of the agent uses a channel after its session has destroyed it:
    however sessions, broadcasts and a shutdown interleave, every channel that a
    step sends on, shuts down or registers still exists. *)
Theorem channels_outlive_use {F} `{FileSystem F} cfg mx o xs s x s' used :
  run (F:=F) cfg mx (root_new o) xs = Some s → step cfg mx s x = Some (s', used) → ∀ c, c ∈ used → is_Some (chans s !! c).
Proof. intros Hr Hs. apply (threads_step_ok cfg mx s x s' used); [|done]. eapply threads_run_ok; [apply root_new_ok|done]. Qed.

(** ** Departing sessions are not stuck *)

Section progress.
Context {F : Type} `{FileSystem F} (cfg : Config) (mx : Z).

(** The steps that end the broadcast under way. *)
Definition drain (s : RootServer) : list (Choice F) :=
  match flusher_ s with Sending _ ts _ => replicate (length ts) (BroadcastSend Failed) ++ [BroadcastEnd] | _ => [] end.

Lemma drain_runs f fs ts : ∀ s rest, flusher_ s = Sending f ts fs →
  run cfg mx s (replicate (length ts) (BroadcastSend Failed) ++ BroadcastEnd :: rest)
  = run cfg mx (mkRoot (coalescer_ s) (generation_ s) (chans s) (peers_ s) (broadcasts_in_flight_ s - 1) (Batch fs) (stopping_ s) (shut s) (begun s) (sent s)) rest.
Proof.
  induction ts as [|t ts IH]; intros s rest Hf.
  - cbn [length replicate app run step]. unfold broadcast_end. by rewrite Hf.
  - cbn [length replicate]. cbn [app run step]. unfold broadcast_send. rewrite Hf. by rewrite IH.
Qed.

(** C36: a session that has left its loop always gets away: in every reachable
    state the broadcast that keeps it waiting can end by the flusher's own steps
    alone (a stuck peer only fails), after which the session returns. *)
Theorem departing_session_returns o xs s c : run cfg mx (root_new o) xs = Some s → chans s !! c = Some Waiting →
  ∃ s', run cfg mx s (drain s ++ [SReturn c]) = Some s' ∧ chans s' = delete c (chans s).
Proof.
  intros Hr Hw. assert (threads_ok s) as [_ _ Hc _ _] by (eapply threads_run_ok; [apply root_new_ok|done]).
  unfold drain. destruct (flusher_ s) as [|fr|f ts fs] eqn:Ef.
  1,2: cbn [app run step]; unfold serve_return; rewrite Hw, Hc; cbn [Z.eqb]; by eexists.
  rewrite <- app_assoc. cbn [app]. rewrite (drain_runs f fs) by done. cbn [run step]. unfold serve_return. cbn [chans broadcasts_in_flight_]. rewrite Hw, Hc. cbn [Z.eqb]. by eexists.
Qed.

(** ** What a peer is sent *)

Definition sent_to (c : nat) (s : RootServer) : list Out := (filter (λ p, p.1 = c) (sent s)).*2.
Definition still_to_send (c : nat) (s : RootServer) : list Out :=
  match flusher_ s with Sending f ts _ => if decide (c ∈ ts) then [f] else [] | _ => [] end.

Lemma step_in_order s x s' used c : threads_ok s → step cfg mx s x = Some (s', used) →
  sent_to c s ++ still_to_send c s `sublist_of` begun s → sent_to c s' ++ still_to_send c s' `sublist_of` begun s'.
Proof.
  intros Hok Hs Hsub. assert (sent_to c s `sublist_of` begun s) as Hpre by (etrans; [|exact Hsub]; apply sublist_inserts_r; done).
  destruct x as [d|d|d|d|d|ev now|now fs| |r| | | |]; cbn [step] in Hs; unfold serve_open, register_first, register_later, add_peer, serve_leave, serve_return, flush_loop, broadcast_begin, broadcast_send, broadcast_end, park, stop_peers in Hs.
  1-5: repeat case_match; simplify_eq; done.
  - by simplify_eq.
  - destruct (flusher_ s) eqn:Ef; try done. destruct (_ && _); [|done]. injection Hs as <- <-. unfold flush_round. destruct (take_batch _).
    unfold still_to_send in *. cbn. by rewrite app_nil_r.
  - destruct (flusher_ s) as [|[|f fs]|] eqn:Ef; try done. injection Hs as <- <-. unfold still_to_send, sent_to in *. cbn [sent flusher_ begun].
    apply sublist_app; [done|]. case_decide; [done|apply sublist_nil_l].
  - destruct Hok as [_ _ _ _ Ho]. unfold under_way in Ho. destruct (flusher_ s) as [| |f [|t ts] fs] eqn:Ef; try done. injection Hs as <- <-.
    apply NoDup_cons in Ho as [Ht _]. unfold still_to_send, sent_to in *. rewrite Ef in Hsub. cbn [sent flusher_ begun] in *.
    destruct (decide (c = t)) as [->|Hne].
    + rewrite decide_True in Hsub by apply list_elem_of_here. rewrite decide_False by done. rewrite app_nil_r.
      destruct r; [|done..]. rewrite filter_app, fmap_app. cbn. by rewrite decide_True by done.
    + assert ((c ∈ t :: ts) ↔ c ∈ ts) as Hiff by (rewrite elem_of_cons; naive_solver).
      assert ((filter (λ p : nat * Out, p.1 = c) (match r with Sent => sent s ++ [(t, f)] | _ => sent s end)) = filter (λ p, p.1 = c) (sent s)) as ->.
      { destruct r; [|done..]. rewrite filter_app. rewrite (filter_cons_False _ (t, f)) by (cbn; congruence). by rewrite filter_nil, app_nil_r. }
      destruct (decide (c ∈ t :: ts)), (decide (c ∈ ts)); try tauto; done.
  - destruct (flusher_ s) as [| |f [|t ts] fs] eqn:Ef; try done. injection Hs as <- <-. unfold still_to_send. cbn. by rewrite app_nil_r.
  - destruct (flusher_ s) as [|[|f fs]|] eqn:Ef; try done. injection Hs as <- <-. unfold still_to_send. cbn. by rewrite app_nil_r.
  - by simplify_eq.
  - destruct (stopping_ s); [|done]. by simplify_eq.
Qed.

(** A peer is handed the frames of the broadcasts in the order they began, none
    twice, whatever happens to the other peers in between. *)
Theorem peer_frames_in_order o xs s c : run cfg mx (root_new o) xs = Some s → sent_to c s `sublist_of` begun s.
Proof.
  assert (∀ xs s0 s, threads_ok s0 → sent_to c s0 ++ still_to_send c s0 `sublist_of` begun s0 → run cfg mx s0 xs = Some s → sent_to c s ++ still_to_send c s `sublist_of` begun s) as Hgen.
  { clear. induction xs as [|x xs IH]; intros s0 s Hok Hsub Hr; cbn [run] in Hr; [by injection Hr as <-|].
    destruct (step cfg mx s0 x) as [[s1 used]|] eqn:E; [|done]. eapply IH; [| |done]; [by eapply threads_step_ok|by eapply step_in_order]. }
  intros Hr. etrans; [|eapply Hgen; [apply root_new_ok| |exact Hr]]; [apply sublist_inserts_r; done|done].
Qed.
End progress.

(** A session leaves while the flusher still has to send to it: it waits, the
    broadcast ends, it returns. *)
Definition demo_cfg : Config := mkConfig (str "/srv") false (str "t") true (str "a") 1024 true (mkRules []) 10.
Definition demo_fs : MemFs := {[str "/srv" := MDir; str "/srv/a" := MFile (str "x")]}.
Definition demo_run : list (Choice MemFs) :=
  [SOpen 1; SRegister 1; SOpen 2; SRegister 2; OnEvent (mkEvent EvCreated (str "a") 0) 0; Flush 100 demo_fs; BroadcastBegin; BroadcastSend Sent; SLeave 2].
Definition demo_end : RootServer := default (root_new (mkOptions 8 2 25)) (run demo_cfg 100 (root_new (mkOptions 8 2 25)) demo_run).

Lemma channels_outlive_use_witness : ∃ s',
  step demo_cfg 100 demo_end (BroadcastSend TimedOut : Choice MemFs) = Some (s', [2%nat]) ∧ is_Some (chans demo_end !! 2%nat).
Proof.
  destruct (step demo_cfg 100 demo_end (BroadcastSend TimedOut : Choice MemFs)) as [[s' used]|] eqn:E; [|vm_compute in E; discriminate E].
  assert (used = [2%nat]) as -> by (vm_compute in E; congruence). exists s'. split; [reflexivity|].
  apply (channels_outlive_use demo_cfg 100 (mkOptions 8 2 25) demo_run demo_end (BroadcastSend TimedOut) s' [2%nat]); [vm_compute; reflexivity|exact E|].
  apply list_elem_of_here.
Defined.

Lemma departing_session_returns_witness :
  step demo_cfg 100 demo_end (SReturn 2 : Choice MemFs) = None
  ∧ ∃ s', run demo_cfg 100 demo_end (drain demo_end ++ [SReturn 2] : list (Choice MemFs)) = Some s' ∧ chans s' = delete 2%nat (chans demo_end).
Proof.
  split; [vm_compute; reflexivity|].
  apply (departing_session_returns demo_cfg 100 (mkOptions 8 2 25) demo_run demo_end 2%nat); vm_compute; reflexivity.
Defined.

Lemma peer_frames_in_order_witness : length (sent_to 1 demo_end) = 1%nat ∧ sent_to 1 demo_end `sublist_of` begun demo_end.
Proof.
  split; [vm_compute; reflexivity|].
  apply (peer_frames_in_order demo_cfg 100 (mkOptions 8 2 25) demo_run demo_end 1%nat). vm_compute. reflexivity.
Defined.
