(* ===== verification/ReadCache.v ===== *)
(** * The client's read cache ([agent/client.cpp])

    Whole files by path, validated by (mtime, size), evicted least recently
    used first to a byte budget; and the link targets kept next to them.  The
    iterator an entry keeps into [lru_] is the position of its key there. *)

From S2P Require Import Prelude Types Path.

Record CacheEntry := mkCached { ce_mtime : Z; ce_size : Z; ce_data : bytes }.

Record ReadCache := mkCache {
  rcache_ : gmap bytes CacheEntry;
  lru_ : list bytes;               (* most recently used first *)
  rcache_bytes_ : Z;
  rcache_cap_ : Z;
  link_cache_ : gmap bytes bytes
}.

Definition cache_new (cap : Z) : ReadCache := mkCache ∅ [] 0 cap ∅.

Definition remove_key (k : bytes) (l : list bytes) : list bytes := filter (λ x, x ≠ k) l.

(** [cache_erase] of an entry that is present. *)
Definition cache_erase (c : ReadCache) (k : bytes) (e : CacheEntry) : ReadCache :=
  mkCache (delete k (rcache_ c)) (remove_key k (lru_ c)) (wrap 64 (rcache_bytes_ c - zlen (ce_data e)))
    (rcache_cap_ c) (link_cache_ c).

Definition erase_if_present (c : ReadCache) (k : bytes) : ReadCache :=
  match rcache_ c !! k with Some e => cache_erase c k e | None => c end.

(** The loop of [evict_locked]; every round shortens [lru_]. *)
Fixpoint evict_loop (fuel : nat) (c : ReadCache) : ReadCache :=
  match fuel with
  | O => c
  | S fuel =>
      if (rcache_bytes_ c >? rcache_cap_ c) && (1 <? size (rcache_ c))%nat then
        match last (lru_ c) with
        | None => c
        | Some k =>
            match rcache_ c !! k with
            | None => evict_loop fuel (mkCache (rcache_ c) (take (length (lru_ c) - 1) (lru_ c)) (rcache_bytes_ c) (rcache_cap_ c) (link_cache_ c))
            | Some e => evict_loop fuel (cache_erase c k e)
            end
        end
      else c
  end.
Definition evict_locked (c : ReadCache) : ReadCache := evict_loop (length (lru_ c)) c.

Definition set_read_cache_limit (c : ReadCache) (cap : Z) : ReadCache :=
  evict_locked (mkCache (rcache_ c) (lru_ c) (rcache_bytes_ c) cap (link_cache_ c)).

Definition cache_put (c : ReadCache) (path : bytes) (mtime size : Z) (data : bytes) : ReadCache :=
  let c := erase_if_present c path in
  evict_locked
    (mkCache (<[path := mkCached mtime size data]> (rcache_ c)) (path :: lru_ c)
       (wrap 64 (rcache_bytes_ c + zlen data)) (rcache_cap_ c) (link_cache_ c)).

(** A validated lookup ([read], [read_into]): a hit moves the key to the front. *)
Definition cache_hit (c : ReadCache) (key : bytes) (mtime size : Z) : ReadCache * option bytes :=
  match rcache_ c !! key with
  | Some e =>
      if (ce_mtime e =? mtime) && (ce_size e =? size) then
        (mkCache (rcache_ c) (key :: remove_key key (lru_ c)) (rcache_bytes_ c) (rcache_cap_ c) (link_cache_ c),
         Some (ce_data e))
      else (c, None)
  | None => (c, None)
  end.

Definition set_links (c : ReadCache) (l : gmap bytes bytes) : ReadCache :=
  mkCache (rcache_ c) (lru_ c) (rcache_bytes_ c) (rcache_cap_ c) l.

Definition drop_cached (c : ReadCache) (path : bytes) : ReadCache :=
  let c := erase_if_present c path in set_links c (delete path (link_cache_ c)).

(** [k == dir || k.starts_with(dir + "/")] *)
Definition under_dir (dir k : bytes) : bool :=
  bool_decide (k = dir) || bool_decide (take (length dir + 1) k = dir ++ [c_slash]).

Definition drop_cached_prefix (c : ReadCache) (dir : bytes) : ReadCache :=
  let doomed := λ k, bool_decide (dir = []) || under_dir dir k in
  let keys := filter (λ k, doomed k = true) (map_to_list (rcache_ c)).*1 in
  let c := foldl erase_if_present c keys in
  set_links c (filter (λ kv, doomed kv.1 = false) (link_cache_ c)).

(** [slice(data, offset, length)] *)
Definition slice (data : bytes) (offset length : Z) : bytes :=
  if offset >=? zlen data then []
  else
    let e := Z.min (wrap 64 (offset + length)) (zlen data) in
    take (Z.to_nat (e - offset)) (drop (Z.to_nat offset) data).

(** The copy of [read_into] from a hit into a buffer of [room] bytes. *)
Definition copy_out (data : bytes) (offset room : Z) : bytes :=
  let n := if offset >=? zlen data then 0 else Z.min room (zlen data - offset) in
  take (Z.to_nat n) (drop (Z.to_nat offset) data).

(** ** Invariant *)

Definition total (m : gmap bytes CacheEntry) : Z := map_fold (λ _ e n, zlen (ce_data e) + n) 0 m.

Record cache_inv (c : ReadCache) : Prop := {
  ci_nodup : NoDup (lru_ c);
  ci_keys : ∀ k, k ∈ lru_ c ↔ is_Some (rcache_ c !! k);
  ci_bytes : rcache_bytes_ c = total (rcache_ c);
  ci_bound : rcache_bytes_ c < 2 ^ 64
}.

Lemma total_insert m k e : m !! k = None → total (<[k := e]> m) = zlen (ce_data e) + total m.
Proof.
  intros Hk. unfold total. rewrite map_fold_insert_L; [done| |done]. intros. lia.
Qed.

Lemma total_delete m k e : m !! k = Some e → total m = zlen (ce_data e) + total (delete k m).
Proof. intros Hk. rewrite <- (insert_delete_id m k e) at 1 by done. apply total_insert, lookup_delete_eq. Qed.

Lemma total_nonneg m : 0 <= total m.
Proof.
  unfold total. apply (map_fold_weak_ind (λ r _, 0 <= r)); [done|]. intros i x _ r _ Hr.
  pose proof (zlen_nonneg (ce_data x)). lia.
Qed.

Lemma elem_remove_key x k l : x ∈ remove_key k l ↔ x ≠ k ∧ x ∈ l.
Proof. unfold remove_key. by rewrite list_elem_of_filter. Qed.

Lemma cache_new_inv cap : cache_inv (cache_new cap).
Proof.
  split; [apply NoDup_nil_2| |done|done]. intros k. simpl. rewrite lookup_empty. split; [by intros ?%not_elem_of_nil|by intros [? ?]].
Qed.

Lemma cache_erase_inv c k e : cache_inv c → rcache_ c !! k = Some e →
  cache_inv (cache_erase c k e) ∧ (length (lru_ (cache_erase c k e)) < length (lru_ c))%nat
  ∧ rcache_ (cache_erase c k e) = delete k (rcache_ c).
Proof.
  intros Hc Hk. pose proof (total_delete _ _ _ Hk) as Ht. pose proof (total_nonneg (delete k (rcache_ c))).
  pose proof (zlen_nonneg (ce_data e)). pose proof (ci_bytes c Hc). pose proof (ci_bound c Hc).
  split_and!; [split; cbn [lru_ rcache_ rcache_bytes_ cache_erase]| |done].
  - apply NoDup_filter, (ci_nodup c Hc).
  - intros x. rewrite elem_remove_key, (ci_keys c Hc). destruct (decide (x = k)) as [->|Hn].
    + rewrite lookup_delete_eq. split; [naive_solver|by intros [? ?]].
    + rewrite lookup_delete_ne by done. naive_solver.
  - rewrite wrap_id by lia. lia.
  - rewrite wrap_id by lia. lia.
  - cbn. apply length_filter_lt with k; [|naive_solver]. apply (ci_keys c Hc). eauto.
Qed.

Lemma erase_if_present_inv c k : cache_inv c → cache_inv (erase_if_present c k)
  ∧ rcache_ (erase_if_present c k) = delete k (rcache_ c) ∧ rcache_cap_ (erase_if_present c k) = rcache_cap_ c.
Proof.
  intros Hc. unfold erase_if_present. destruct (rcache_ c !! k) as [e|] eqn:E.
  - by destruct (cache_erase_inv c k e Hc E) as (? & _ & ?).
  - split_and!; [done| |done]. by rewrite delete_id.
Qed.

(** Eviction: the invariant, the budget, and who survives: whatever is dropped
    is less recently used than whatever is kept. *)
Lemma evict_loop_spec fuel c : cache_inv c → (length (lru_ c) <= fuel)%nat →
  let c' := evict_loop fuel c in
  cache_inv c' ∧ (rcache_bytes_ c' <= rcache_cap_ c' ∨ (size (rcache_ c') <= 1)%nat)
  ∧ lru_ c' `prefix_of` lru_ c ∧ rcache_ c' ⊆ rcache_ c ∧ rcache_cap_ c' = rcache_cap_ c
  ∧ link_cache_ c' = link_cache_ c ∧ (lru_ c ≠ [] → lru_ c' ≠ []).
Proof.
  revert c. induction fuel as [|fuel IH]; intros c Hc Hf; cbv zeta; cbn [evict_loop].
  - assert (rcache_ c = ∅) as He.
    { apply map_empty. intros k. destruct (rcache_ c !! k) eqn:E; [|done].
      assert (k ∈ lru_ c) as Hk by (apply (ci_keys c Hc); eauto).
      destruct (lru_ c); [by apply elem_of_nil in Hk|simpl in Hf; lia]. }
    split_and!; try done. right. rewrite He, map_size_empty. lia.
  - destruct ((rcache_bytes_ c >? rcache_cap_ c) && (1 <? size (rcache_ c))%nat) eqn:Eb.
    2:{ split_and!; try done. apply andb_false_iff in Eb as [Eb|Eb]; [left; b2p; lia|right].
        apply Nat.ltb_ge in Eb. lia. }
    apply andb_true_iff in Eb as [_ Hsz]. apply Nat.ltb_lt in Hsz.
    destruct (last (lru_ c)) as [k|] eqn:El.
    2:{ apply last_None in El. exfalso. assert (rcache_ c = ∅) as He; [|rewrite He, map_size_empty in Hsz; lia].
        apply map_empty. intros k. destruct (rcache_ c !! k) eqn:E; [|done].
        assert (k ∈ lru_ c) as Hk by (apply (ci_keys c Hc); eauto). rewrite El in Hk. by apply elem_of_nil in Hk. }
    apply last_Some in El as [l El].
    assert (is_Some (rcache_ c !! k)) as [e He] by (apply (ci_keys c Hc); rewrite El; set_solver).
    rewrite He. destruct (cache_erase_inv c k e Hc He) as (Hi & Hlen & Hmap).
    assert (lru_ (cache_erase c k e) = l) as Hl.
    { cbn. pose proof (ci_nodup c Hc) as Hnd. rewrite El in *. unfold remove_key. rewrite filter_app.
      apply NoDup_app in Hnd as (_ & Hd & _). rewrite filter_all.
      - rewrite filter_cons_False, filter_nil, app_nil_r; [done|naive_solver].
      - apply Forall_forall. intros x Hx ->. apply (Hd k Hx). set_solver. }
    destruct (IH (cache_erase c k e) Hi) as (I1 & I2 & I3 & I4 & I5 & I6 & I7); [lia|].
    split_and!; [done|done| | |done|done|].
    + rewrite El. etrans; [exact I3|]. rewrite Hl. by exists [k].
    + etrans; [exact I4|]. rewrite Hmap. apply delete_subseteq.
    + intros _. apply I7. rewrite Hl. intros ->. assert (size (rcache_ c) <= 1)%nat; [|lia].
      assert (rcache_ c = {[k := e]}) as ->; [|rewrite map_size_singleton; lia].
      apply map_eq. intros x. destruct (decide (x = k)) as [->|Hx]; [by rewrite lookup_singleton_eq|].
      rewrite lookup_singleton_ne by done. destruct (rcache_ c !! x) eqn:E; [|done].
      assert (x ∈ lru_ c) as Hin by (apply (ci_keys c Hc); eauto). rewrite El in Hin. set_solver.
Qed.

Lemma cache_put_inv c path mtime sz data : cache_inv c → total (rcache_ c) + zlen data < 2 ^ 64 →
  let c' := cache_put c path mtime sz data in
  cache_inv c' ∧ (rcache_bytes_ c' <= rcache_cap_ c' ∨ (size (rcache_ c') <= 1)%nat)
  ∧ rcache_ c' !! path = Some (mkCached mtime sz data) ∧ rcache_ c' ⊆ <[path := mkCached mtime sz data]> (rcache_ c)
  ∧ rcache_cap_ c' = rcache_cap_ c.
Proof.
  intros Hc Hb. cbv zeta. unfold cache_put. destruct (erase_if_present_inv c path Hc) as (He & Hm & Hcap).
  set (d := erase_if_present c path) in *. pose proof (ci_bytes d He) as Hbd. rewrite Hm in Hbd.
  assert (total (delete path (rcache_ c)) <= total (rcache_ c)) as Hle.
  { destruct (rcache_ c !! path) eqn:E; [rewrite (total_delete _ _ _ E); pose proof (zlen_nonneg (ce_data c0)); lia|].
    by rewrite delete_id. }
  pose proof (total_nonneg (delete path (rcache_ c))). pose proof (zlen_nonneg data).
  set (c1 := mkCache _ _ _ _ _).
  assert (cache_inv c1) as H1.
  { split; cbn [lru_ rcache_ rcache_bytes_ c1].
    - constructor; [|apply (ci_nodup d He)]. rewrite (ci_keys d He), Hm, lookup_delete_eq. by intros [? ?].
    - intros k. rewrite elem_of_cons, (ci_keys d He), Hm. destruct (decide (k = path)) as [->|Hn].
      + rewrite lookup_insert_eq. naive_solver.
      + rewrite lookup_insert_ne, lookup_delete_ne by done. naive_solver.
    - rewrite wrap_id, Hm by lia. rewrite total_insert by apply lookup_delete_eq. cbn. lia.
    - rewrite wrap_id by lia. lia. }
  destruct (evict_loop_spec (length (lru_ c1)) c1 H1) as (I1 & I2 & I3 & I4 & I5 & _ & I7); [done|].
  fold (evict_locked c1) in *. split_and!; [done|done| | |by rewrite I5].
  - specialize (I7 ltac:(done)). destruct (lru_ (evict_locked c1)) as [|k l] eqn:El; [done|].
    destruct I3 as [r Hr]. cbn [c1 lru_] in Hr. injection Hr as <- _.
    assert (is_Some (rcache_ (evict_locked c1) !! path)) as [e Hx] by (apply (ci_keys _ I1); rewrite El; set_solver).
    rewrite Hx. f_equal. pose proof (lookup_weaken _ _ _ _ Hx I4) as Hw. cbn [c1 rcache_] in Hw.
    rewrite lookup_insert_eq in Hw. congruence.
  - etrans; [exact I4|]. cbn [c1 rcache_]. by rewrite Hm, insert_delete_eq.
Qed.

Lemma cache_hit_inv c key mtime sz : cache_inv c → cache_inv (cache_hit c key mtime sz).1.
Proof.
  intros Hc. unfold cache_hit. destruct (rcache_ c !! key) as [e|] eqn:E; [|done].
  destruct (_ && _); [|done]. split; cbn [fst lru_ rcache_ rcache_bytes_].
  - constructor; [rewrite elem_remove_key; naive_solver|apply NoDup_filter, (ci_nodup c Hc)].
  - intros k. rewrite elem_of_cons, elem_remove_key, (ci_keys c Hc). destruct (decide (k = key)) as [->|]; naive_solver.
  - apply (ci_bytes c Hc).
  - apply (ci_bound c Hc).
Qed.

Lemma set_links_inv c l : cache_inv c → cache_inv (set_links c l).
Proof. by intros []. Qed.

Lemma erase_all_spec keys c : cache_inv c →
  cache_inv (foldl erase_if_present c keys)
  ∧ ∀ k, rcache_ (foldl erase_if_present c keys) !! k = if bool_decide (k ∈ keys) then None else rcache_ c !! k.
Proof.
  revert c. induction keys as [|x keys IH]; intros c Hc; cbn [foldl].
  { split; [done|]. intros k. by rewrite bool_decide_eq_false_2 by apply not_elem_of_nil. }
  destruct (erase_if_present_inv c x Hc) as (H1 & H2 & _). destruct (IH _ H1) as [I1 I2]. split; [done|].
  intros k. rewrite I2, H2. destruct (decide (k = x)) as [->|Hn].
  - rewrite lookup_delete_eq, (bool_decide_eq_true_2 (x ∈ x :: keys)) by set_solver. by case_bool_decide.
  - rewrite lookup_delete_ne by done. repeat case_bool_decide; set_solver.
Qed.

Lemma drop_cached_prefix_spec c dir : cache_inv c →
  cache_inv (drop_cached_prefix c dir)
  ∧ ∀ k, rcache_ (drop_cached_prefix c dir) !! k
         = if bool_decide (dir = []) || under_dir dir k then None else rcache_ c !! k.
Proof.
  intros Hc. unfold drop_cached_prefix.
  set (doomed := λ k, bool_decide (dir = []) || under_dir dir k).
  destruct (erase_all_spec (filter (λ k, doomed k = true) (map_to_list (rcache_ c)).*1) c Hc) as [H1 H2].
  split; [by apply set_links_inv|]. intros k. cbn [set_links rcache_]. rewrite H2. fold (doomed k).
  case_bool_decide as Hin.
  - apply list_elem_of_filter in Hin as [-> _]. done.
  - destruct (doomed k) eqn:Ed; [|done]. destruct (rcache_ c !! k) as [e|] eqn:E; [|done].
    exfalso. apply Hin, list_elem_of_filter. split; [done|]. apply list_elem_of_fmap. exists (k, e). split; [done|].
    by apply elem_of_map_to_list.
Qed.

(** ** Histories *)

Inductive CacheOp :=
| OpPut (path : bytes) (mtime size : Z) (data : bytes)
| OpHit (path : bytes) (mtime size : Z)
| OpDrop (path : bytes)
| OpDropPrefix (dir : bytes)
| OpLimit (cap : Z).

Definition cache_step (c : ReadCache) (op : CacheOp) : ReadCache :=
  match op with
  | OpPut p m s d => cache_put c p m s d
  | OpHit p m s => (cache_hit c p m s).1
  | OpDrop p => drop_cached c p
  | OpDropPrefix d => drop_cached_prefix c d
  | OpLimit cap => set_read_cache_limit c cap
  end.
Definition cache_run : ReadCache → list CacheOp → ReadCache := foldl cache_step.

Definition put_bytes (op : CacheOp) : Z := match op with OpPut _ _ _ d => zlen d | _ => 0 end.
Definition history_bytes (ops : list CacheOp) : Z := foldr (λ op n, put_bytes op + n) 0 ops.

(** The contents a history allows under [k]: those of the last fetch of [k] that
    nothing dropped since. *)
Definition fetched_step (k : bytes) (acc : option CacheEntry) (op : CacheOp) : option CacheEntry :=
  match op with
  | OpPut p m s d => if bool_decide (p = k) then Some (mkCached m s d) else acc
  | OpDrop p => if bool_decide (p = k) then None else acc
  | OpDropPrefix d => if bool_decide (d = []) || under_dir d k then None else acc
  | _ => acc
  end.
Definition fetched (k : bytes) (ops : list CacheOp) : option CacheEntry := foldl (fetched_step k) None ops.

Definition in_budget (c : ReadCache) : Prop :=
  rcache_bytes_ c <= rcache_cap_ c ∨ (size (rcache_ c) <= 1)%nat.

(** The invariant of a cache whose contents agree with [allowed]. *)
Record cache_good (c : ReadCache) (allowed : bytes → option CacheEntry) : Prop := {
  cg_inv : cache_inv c;
  cg_budget : in_budget c;
  cg_fresh : ∀ k e, rcache_ c !! k = Some e → allowed k = Some e
}.

Lemma total_mono m m' : m ⊆ m' → total m <= total m'.
Proof.
  revert m'. induction m as [|k e m Hk IH] using map_ind; intros m' Hs; [apply total_nonneg|].
  assert (m' !! k = Some e) as He by (eapply lookup_weaken; [apply lookup_insert_eq|done]).
  rewrite total_insert, (total_delete m' k e) by done. assert (m ⊆ delete k m') as Hd; [|specialize (IH _ Hd); lia].
  apply map_subseteq_spec. intros i x Hi. rewrite lookup_delete_ne by congruence.
  eapply lookup_weaken; [|done]. rewrite lookup_insert_ne by congruence. done.
Qed.

(** A cache that only lost entries stays good. *)
Lemma good_shrink c c' al al' : cache_good c al → cache_inv c' → rcache_ c' ⊆ rcache_ c → rcache_cap_ c' = rcache_cap_ c →
  (∀ k e, rcache_ c' !! k = Some e → al k = Some e → al' k = Some e) → cache_good c' al'.
Proof.
  intros [Hi Hb Hf] Hi' Hs Hc Ha. split; [done| |].
  - pose proof (total_mono _ _ Hs). pose proof (map_subseteq_size _ _ Hs). pose proof (ci_bytes c Hi).
    pose proof (ci_bytes c' Hi'). unfold in_budget in *. lia.
  - intros k e Hk. apply Ha; [done|]. eapply Hf, lookup_weaken; eauto.
Qed.

Lemma drop_cached_spec c p : cache_inv c →
  cache_inv (drop_cached c p) ∧ rcache_ (drop_cached c p) = delete p (rcache_ c) ∧ rcache_cap_ (drop_cached c p) = rcache_cap_ c.
Proof.
  intros Hc. destruct (erase_if_present_inv c p Hc) as (H1 & H2 & H3). unfold drop_cached.
  by split_and!; [apply set_links_inv| |].
Qed.

Lemma erase_all_cap keys c : rcache_cap_ (foldl erase_if_present c keys) = rcache_cap_ c.
Proof.
  revert c. induction keys as [|k keys IH]; intros c; cbn [foldl]; [done|]. rewrite IH. unfold erase_if_present. by case_match.
Qed.

Lemma cache_step_good c al op : cache_good c al → total (rcache_ c) + put_bytes op < 2 ^ 64 →
  cache_good (cache_step c op) (λ k, fetched_step k (al k) op)
  ∧ total (rcache_ (cache_step c op)) <= total (rcache_ c) + put_bytes op.
Proof.
  intros Hg Ht. pose proof (cg_inv c al Hg) as Hi. destruct op as [p m s d|p m s|p|d|cap]; cbn [cache_step put_bytes] in *.
  - destruct (cache_put_inv c p m s d Hi Ht) as (H1 & H2 & H3 & H4 & H5). split.
    + split; [done|done|]. intros k e Hk. cbn [fetched_step]. pose proof (lookup_weaken _ _ _ _ Hk H4) as Hw.
      case_bool_decide as Hp; [subst; congruence|]. rewrite lookup_insert_ne in Hw by done. eapply cg_fresh; eauto.
    + pose proof (total_mono _ _ H4). rewrite <- insert_delete_eq, total_insert in H by apply lookup_delete_eq.
      pose proof (total_mono _ _ (delete_subseteq (rcache_ c) p)). cbn [ce_data] in H. lia.
  - pose proof (cache_hit_inv c p m s Hi) as H1.
    assert (rcache_ (cache_hit c p m s).1 = rcache_ c ∧ rcache_cap_ (cache_hit c p m s).1 = rcache_cap_ c) as [H2 H3].
    { unfold cache_hit. by repeat case_match. }
    split; [|rewrite H2; lia]. eapply good_shrink; eauto. by rewrite H2.
  - destruct (drop_cached_spec c p Hi) as (H1 & H2 & H3). split.
    + eapply good_shrink; [done|done|rewrite H2; apply delete_subseteq|done|]. intros k e Hk Ha. cbn [fetched_step].
      case_bool_decide; [|done]. subst. rewrite H2, lookup_delete_eq in Hk. done.
    + rewrite H2. pose proof (total_mono _ _ (delete_subseteq (rcache_ c) p)). lia.
  - destruct (drop_cached_prefix_spec c d Hi) as [H1 H2].
    assert (rcache_ (drop_cached_prefix c d) ⊆ rcache_ c) as Hs.
    { apply map_subseteq_spec. intros k e. rewrite H2. by case_match. }
    split; [|pose proof (total_mono _ _ Hs); lia]. eapply good_shrink; [done|done|done|apply erase_all_cap|].
    intros k e Hk Ha. cbn [fetched_step]. rewrite H2 in Hk. by destruct (_ || _).
  - unfold set_read_cache_limit, evict_locked. set (c1 := mkCache _ _ _ _ _).
    assert (cache_inv c1) as Hc1 by (by destruct Hi).
    destruct (evict_loop_spec (length (lru_ c1)) c1 Hc1) as (I1 & I2 & _ & I4 & _); [done|].
    split; [|pose proof (total_mono _ _ I4); cbn [c1 rcache_] in *; lia].
    split; [done|done|]. intros k e Hk. eapply cg_fresh, lookup_weaken; eauto.
Qed.

Lemma cache_run_good ops c al : cache_good c al → total (rcache_ c) + history_bytes ops < 2 ^ 64 →
  cache_good (cache_run c ops) (λ k, foldl (fetched_step k) (al k) ops).
Proof.
  revert c al. induction ops as [|op ops IH]; intros c al Hg Ht; cbn [history_bytes foldr] in Ht; [done|].
  fold (history_bytes ops) in Ht.
  assert (0 <= history_bytes ops).
  { clear. unfold history_bytes. induction ops as [|op ops IH]; cbn; [done|]. destruct op; cbn; pose proof (zlen_nonneg (A:=Z)); try lia.
    specialize (H data). lia. }
  destruct (cache_step_good c al op Hg) as [H1 H2]; [lia|]. apply (IH _ _ H1). lia.
Qed.

Lemma cache_new_good cap : cache_good (cache_new cap) (λ _, None).
Proof.
  split; [apply cache_new_inv|right; cbn; rewrite map_size_empty; lia|]. intros k e. cbn. by rewrite lookup_empty.
Qed.

(** ** Theorems *)

(** C32: over any history of fetches, hits, drops, prefix drops and limit changes,
    the byte counter equals the bytes held, the LRU list names each cached file
    once, and the cache is within its byte budget unless a single file is left. *)
Theorem cache_within_budget cap ops :
  history_bytes ops < 2 ^ 64 →
  let c := cache_run (cache_new cap) ops in
  rcache_bytes_ c = total (rcache_ c)
  ∧ NoDup (lru_ c) ∧ (∀ k, k ∈ lru_ c ↔ is_Some (rcache_ c !! k))
  ∧ (rcache_bytes_ c <= rcache_cap_ c ∨ (size (rcache_ c) <= 1)%nat).
Proof.
  intros Hb. destruct (cache_run_good ops _ _ (cache_new_good cap)) as [[? ? ? ?] Hbud _]; [done|]. by split_and!.
Qed.

(** A validated hit returns the bytes of the last fetch of that very path,
    provided that fetch was recorded under the (mtime, size) asked for and no
    invalidation dropped the path, or a directory above it, since. *)
Theorem cache_hit_fresh cap ops k mtime sz d :
  history_bytes ops < 2 ^ 64 →
  (cache_hit (cache_run (cache_new cap) ops) k mtime sz).2 = Some d →
  fetched k ops = Some (mkCached mtime sz d).
Proof.
  intros Hb. destruct (cache_run_good ops _ _ (cache_new_good cap)) as [_ _ Hf]; [done|]. unfold cache_hit.
  destruct (rcache_ _ !! k) as [e|] eqn:E; [|done]. destruct (_ && _) eqn:Ev; [|done].
  intros [= <-]. apply andb_true_iff in Ev as [E1 E2]. b2p. subst. unfold fetched. rewrite (Hf _ _ E). by destruct e.
Qed.

Lemma slice_spec data offset length : 0 <= offset → 0 <= length → zlen data < 2 ^ 63 → length < 2 ^ 63 →
  slice data offset length = take (Z.to_nat length) (drop (Z.to_nat offset) data).
Proof.
  intros Ho Hl Hd Hl'. pose proof (zlen_nonneg data). unfold slice. destruct (Z.geb_spec offset (zlen data)) as [Hg|Hg].
  - rewrite drop_ge by (unfold zlen in *; lia). by rewrite take_nil.
  - rewrite wrap_id by lia. destruct (Z.min_spec (offset + length) (zlen data)) as [[Hm ->]|[Hm ->]].
    + f_equal. lia.
    + rewrite !(take_ge _ (Z.to_nat _)); [done| |]; rewrite length_drop; unfold zlen in *; lia.
Qed.

(** Reading a cached file through [read] and through [read_into] gives the
    same bytes, the [length] bytes at [offset] that the file has, with no
    overflow of [offset + length] for a file the cache may hold. *)
Theorem read_paths_agree data offset length :
  u64_ok offset → u32_ok length → zlen data < 2 ^ 63 →
  slice data offset length = take (Z.to_nat length) (drop (Z.to_nat offset) data)
  ∧ copy_out data offset length = slice data offset length.
Proof.
  intros [Ho _] [Hl Hl'] Hd. rewrite slice_spec by lia. split; [done|]. unfold copy_out.
  destruct (Z.geb_spec offset (zlen data)) as [Hg|Hg].
  - rewrite (drop_ge data) by (unfold zlen in *; lia). by rewrite !take_nil.
  - destruct (Z.min_spec length (zlen data - offset)) as [[Hm ->]|[Hm ->]]; [done|].
    rewrite !(take_ge _ (Z.to_nat _)); [done| |]; rewrite length_drop; unfold zlen in *; lia.
Qed.

Definition demo_history : list CacheOp :=
  [OpPut (str "a/x") 5 4 (str "abcd"); OpPut (str "b") 7 3 (str "xyz"); OpHit (str "a/x") 5 4;
   OpLimit 4; OpPut (str "a/y") 9 2 (str "hi"); OpDropPrefix (str "a/y")].

Lemma cache_within_budget_witness :
  history_bytes demo_history < 2 ^ 64 ∧ lru_ (cache_run (cache_new 100) demo_history) = [] ∧
  NoDup (lru_ (cache_run (cache_new 100) demo_history)).
Proof.
  assert (history_bytes demo_history < 2 ^ 64) as H by (vm_compute; done).
  split_and!; [done|vm_compute; reflexivity|]. apply (cache_within_budget 100 demo_history H).
Defined.

Lemma cache_hit_fresh_witness :
  let ops := take 3 demo_history in
  (cache_hit (cache_run (cache_new 100) ops) (str "a/x") 5 4).2 = Some (str "abcd")
  ∧ fetched (str "a/x") ops = Some (mkCached 5 4 (str "abcd")).
Proof.
  assert ((cache_hit (cache_run (cache_new 100) (take 3 demo_history)) (str "a/x") 5 4).2 = Some (str "abcd")) as H
    by (vm_compute; reflexivity).
  split; [exact H|]. apply (cache_hit_fresh 100); [vm_compute; done|exact H].
Defined.

Lemma read_paths_agree_witness : copy_out (str "hello world") 6 20 = str "world".
Proof.
  assert (u64_ok 6 ∧ u32_ok 20 ∧ zlen (str "hello world") < 2 ^ 63) as (H1 & H2 & H3) by (vm_compute; intuition congruence).
  destruct (read_paths_agree (str "hello world") 6 20 H1 H2 H3) as [E1 E2]. rewrite E2, E1. reflexivity.
Defined.
