(* ===== verification/Requests.v ===== *)
(** * Requests and replies of the client ([agent/client.cpp])

    The table of outstanding requests and the thread that receives.  A [Pending]
    is shared between the caller that waits on it and the table, so the objects
    live in a store of their own and [pending_] holds the ids registered.  The
    threads interleave at the granularity of their critical sections: a caller
    checks [closed_] and takes an id, registers, sends, then waits; [begun] holds
    the callers between the first two.  Invalidation frames do not touch this
    state and are the subject of [Client]. *)

From S2P Require Import Prelude Types Wire Messages FileSystem Server.

Definition kMaxSnapshotEntries : Z := Z.shiftl 1 20.
Definition kMaxSnapshotBytes : Z := Z.shiftl 1 30.

Record Pending := mkPending {
  p_done : bool;
  p_type : MsgType.t;
  p_payload : bytes;
  p_streaming : bool;
  p_stream_ok : bool;
  p_snap_generation : Z;
  p_snap_bytes : Z;
  p_snap_names : list bytes;
  p_snap_entries : list SnapshotEntry     (* names filled in at the end *)
}.

Definition pending_new (streaming : bool) : Pending :=
  mkPending false (MsgType.Unlisted 0) [] streaming true 0 0 [] [].

Record Conn := mkConn {
  closed_ : bool;
  next_request_ : Z;
  begun : gset Z;
  pending_ : gset Z;
  objs : gmap Z Pending
}.

Definition conn_new : Conn := mkConn false 1 ∅ ∅ ∅.

Definition finish (p : Pending) (t : MsgType.t) (payload : bytes) : Pending :=
  mkPending true t payload (p_streaming p) (p_stream_ok p) (p_snap_generation p) (p_snap_bytes p)
    (p_snap_names p) (p_snap_entries p).

Definition stream_bad (p : Pending) : Pending :=
  mkPending (p_done p) (p_type p) (p_payload p) (p_streaming p) false (p_snap_generation p) (p_snap_bytes p)
    (p_snap_names p) (p_snap_entries p).

Definition snap_push (p : Pending) (e : SnapshotEntry) : Pending :=
  mkPending (p_done p) (p_type p) (p_payload p) (p_streaming p) (p_stream_ok p) (p_snap_generation p) (p_snap_bytes p)
    (p_snap_names p ++ [se_name e]) (p_snap_entries p ++ [mkSnap (se_parent e) [] (se_attr e)]).

(** The entry loop of one streamed frame. *)
Fixpoint snap_loop (n : nat) (p : Pending) (r : bytes) : Pending :=
  match n with
  | O => p
  | S n =>
      if zlen (p_snap_entries p) >=? kMaxSnapshotEntries then stream_bad p
      else
        match read_snapshot_entry r with
        | Err _ => stream_bad p
        | Ok (e, r) => snap_loop n (snap_push p e) r
        end
  end.

(** One streamed frame; the flag tells whether it completes the reply. *)
Definition stream_chunk (p : Pending) (h : FrameHeader) (payload : bytes) : Pending * bool :=
  let p := mkPending (p_done p) (p_type p) (p_payload p) (p_streaming p) (p_stream_ok p) (p_snap_generation p)
             (wrap 64 (p_snap_bytes p + zlen payload)) (p_snap_names p) (p_snap_entries p) in
  let p :=
    if p_snap_bytes p >? kMaxSnapshotBytes then stream_bad p
    else
      match read_snapshot_header payload with
      | Err _ => stream_bad p
      | Ok (hdr, r) =>
          snap_loop (Z.to_nat (sh_count hdr))
            (mkPending (p_done p) (p_type p) (p_payload p) (p_streaming p) (p_stream_ok p) (sh_generation hdr)
               (p_snap_bytes p) (p_snap_names p) (p_snap_entries p)) r
      end in
  let more := negb (Z.land (h_flags h) kFlagMore =? 0) in
  if negb more || negb (p_stream_ok p)
  then (mkPending true MsgType.Snapshot (p_payload p) (p_streaming p) (p_stream_ok p) (p_snap_generation p)
          (p_snap_bytes p) (p_snap_names p) (p_snap_entries p), true)
  else (p, false).

(** ** Steps *)

Definition forget (c : Conn) (id : Z) : Conn :=
  mkConn (closed_ c) (next_request_ c) (begun c) (pending_ c ∖ {[id]}) (objs c).

(** [request] up to the id and the fresh [Pending]. *)
Definition request_begin (c : Conn) (streaming : bool) : Conn * Result Z :=
  if closed_ c then (c, Err ConnectionClosed)
  else
    let id := next_request_ c in
    (mkConn (closed_ c) (wrap 64 (id + 1)) (begun c ∪ {[id]}) (pending_ c) (<[id := pending_new streaming]> (objs c)), Ok id).

Definition request_register (c : Conn) (id : Z) : Conn :=
  if bool_decide (id ∈ begun c)
  then mkConn (closed_ c) (next_request_ c) (begun c ∖ {[id]}) (pending_ c ∪ {[id]}) (objs c)
  else c.

(** The send of [request]: a failure takes the request out of the table. *)
Definition request_send (c : Conn) (id : Z) (io : Result unit) : Conn :=
  match io with Ok _ => c | Err _ => forget c id end.

(** What [request] makes of a completed reply. *)
Definition request_result (p : Pending) : Result Pending :=
  if bool_decide (p_type p = MsgType.Error) then
    match read_error (p_payload p) with
    | Ok (e, _) =>
        if negb (em_code e =? 0) && (em_code e <=? errc_code kLastErrc)
        then match errc_of_code (em_code e) with Some c => Err c | None => Err ProtocolError end
        else Err ProtocolError
    | Err _ => Err ProtocolError
    end
  else if bool_decide (p_payload p = []) && bool_decide (p_type p = MsgType.Ping) then Err ConnectionClosed
  else Ok p.

(** One frame of [reader_loop], invalidations aside. *)
Definition reader_frame (c : Conn) (h : FrameHeader) (payload : bytes) : Conn :=
  let id := h_request_id h in
  if negb (bool_decide (id ∈ pending_ c)) then c       (* late reply to a timed-out request *)
  else
    match objs c !! id with
    | None => c
    | Some p =>
        let put c p := mkConn (closed_ c) (next_request_ c) (begun c) (pending_ c) (<[id := p]> (objs c)) in
        if p_streaming p && bool_decide (h_type h = MsgType.Snapshot) then
          let '(p, complete) := stream_chunk p h payload in
          if complete then forget (put c p) id else put c p
        else put (forget c id) (finish p (h_type h) payload)
    end.

(** The end of [reader_loop]: [closed_] and [fail_all_pending]. *)
Definition fail_all_pending (c : Conn) : Conn :=
  mkConn (closed_ c) (next_request_ c) (begun c) ∅
    (map_imap (λ id p, Some (if bool_decide (id ∈ pending_ c) then finish p MsgType.Ping [] else p)) (objs c)).

Definition reader_end (c : Conn) : Conn :=
  fail_all_pending (mkConn true (next_request_ c) (begun c) (pending_ c) (objs c)).

Inductive ConnEvent :=
| EvBegin (streaming : bool)
| EvRegister (id : Z)
| EvSend (id : Z) (io : Result unit)
| EvFrame (h : FrameHeader) (payload : bytes)
| EvTimeout (id : Z)                         (* the wait of the caller ran out *)
| EvLost.                                    (* the peer is gone, or [close] *)

Definition conn_step (c : Conn) (e : ConnEvent) : Conn :=
  match e with
  | EvBegin streaming => (request_begin c streaming).1
  | EvRegister id => request_register c id
  | EvSend id io => request_send c id io
  | EvFrame h payload => reader_frame c h payload
  | EvTimeout id => forget c id
  | EvLost => reader_end c
  end.
Definition conn_run : Conn → list ConnEvent → Conn := foldl conn_step.

(** ** Invariant *)

(** Where a completed reply comes from. *)
Definition origin (tr : list ConnEvent) (id : Z) (p : Pending) : Prop :=
  (∃ h payload, EvFrame h payload ∈ tr ∧ h_request_id h = id ∧ p_type p = h_type h
     ∧ (p_payload p = payload ∨ p_streaming p = true ∧ h_type h = MsgType.Snapshot))
  ∨ (EvLost ∈ tr ∧ p_type p = MsgType.Ping ∧ p_payload p = []).

Record obj_ok (tr : list ConnEvent) (c : Conn) (id : Z) (p : Pending) : Prop := {
  oo_id : 1 <= id < next_request_ c;
  oo_done : p_done p = true → (id ∉ pending_ c) ∧ (id ∉ begun c) ∧ origin tr id p;
  oo_cap : zlen (p_snap_entries p) <= kMaxSnapshotEntries
}.

Record conn_inv (tr : list ConnEvent) (c : Conn) : Prop := {
  ki_next : 1 <= next_request_ c <= 1 + zlen tr;
  ki_known : ∀ id, id ∈ pending_ c ∪ begun c → is_Some (objs c !! id);
  ki_split : begun c ## pending_ c;
  ki_objs : ∀ id p, objs c !! id = Some p → obj_ok tr c id p
}.

Lemma origin_mono tr tr' id p : tr ⊆ tr' → origin tr id p → origin tr' id p.
Proof. intros Hs [(h & pl & ? & ?)|(? & ?)]; [left; exists h, pl; split; [by apply Hs|done]|right; split; [by apply Hs|done]]. Qed.

(** An object that a step leaves alone stays as good as it was. *)
Lemma obj_ok_mono tr tr' c c' id p : obj_ok tr c id p → tr ⊆ tr' → next_request_ c <= next_request_ c' →
  (id ∈ pending_ c' ∪ begun c' → id ∈ pending_ c ∪ begun c) → obj_ok tr' c' id p.
Proof.
  intros [H1 H2 H3] Hs Hn Hp. split; [lia| |done]. intros Hd. destruct (H2 Hd) as (? & ? & ?).
  split_and!; [set_solver..|by eapply origin_mono].
Qed.

Lemma snap_loop_spec n p r :
  zlen (p_snap_entries p) <= kMaxSnapshotEntries →
  let q := snap_loop n p r in
  p_done q = p_done p ∧ p_payload q = p_payload p ∧ p_streaming q = p_streaming p
  ∧ zlen (p_snap_entries q) <= kMaxSnapshotEntries.
Proof.
  revert p r. induction n as [|n IH]; intros p r Hc; cbn [snap_loop]; [done|].
  destruct (_ >=? _) eqn:E; [done|]. destruct (read_snapshot_entry r) as [[e r']|]; [|done].
  apply (IH (snap_push p e) r'). cbn [snap_push p_snap_entries]. rewrite zlen_app. b2p. unfold zlen at 2. simpl. lia.
Qed.

Lemma stream_chunk_spec p h payload q b : zlen (p_snap_entries p) <= kMaxSnapshotEntries → p_done p = false →
  stream_chunk p h payload = (q, b) →
  p_done q = b ∧ p_streaming q = p_streaming p ∧ zlen (p_snap_entries q) <= kMaxSnapshotEntries
  ∧ (b = true → p_type q = MsgType.Snapshot).
Proof.
  intros Hc Hd. unfold stream_chunk. set (p1 := mkPending _ _ _ _ _ _ (wrap 64 _) _ _).
  set (p2 := if p_snap_bytes p1 >? kMaxSnapshotBytes then _ else _).
  assert (p_done p2 = false ∧ p_streaming p2 = p_streaming p ∧ zlen (p_snap_entries p2) <= kMaxSnapshotEntries) as (H1 & H2 & H3).
  { unfold p2. destruct (_ >? _); [done|]. destruct (read_snapshot_header payload) as [[hdr r]|]; [|done].
    match goal with |- context [snap_loop ?n ?p ?r] => destruct (snap_loop_spec n p r) as (E1 & _ & E3 & E4); [done|] end.
    rewrite E1, E3. done. }
  destruct (_ || _); intros [= <- <-]; cbn; by split_and!.
Qed.

Lemma forget_inv tr c id : conn_inv tr c → conn_inv tr (forget c id).
Proof.
  intros [H1 H2 H3 H4]. split; cbn [forget next_request_ begun pending_ objs]; [done| |set_solver|].
  - intros i Hi. apply H2. set_solver.
  - intros i p Hp. eapply obj_ok_mono; [by apply H4|done|done|]. cbn. set_solver.
Qed.

Lemma conn_inv_mono tr tr' c : tr ⊆ tr' → zlen tr <= zlen tr' → conn_inv tr c → conn_inv tr' c.
Proof.
  intros Hs Hl [H1 H2 H3 H4]. split; [lia|done|done|].
  intros i p Hp. eapply obj_ok_mono; [by apply H4|done|done|done].
Qed.

Lemma request_begin_inv tr c streaming : zlen tr < 2 ^ 63 → conn_inv tr c →
  conn_inv (tr ++ [EvBegin streaming]) (request_begin c streaming).1.
Proof.
  intros Hlen Hi. assert (tr ⊆ tr ++ [EvBegin streaming]) as Hs by set_solver.
  unfold request_begin. destruct (closed_ c).
  { eapply conn_inv_mono; [done| |done]. rewrite zlen_app. pose proof (zlen_nonneg [EvBegin streaming]). lia. }
  destruct Hi as [H1 H2 H3 H4]. cbn [fst].
  set (n := next_request_ c) in *. assert (wrap 64 (n + 1) = n + 1) as Hw by (apply wrap_id; lia).
  assert (objs c !! n = None) as Hn.
  { destruct (objs c !! n) eqn:E; [|done]. apply H4 in E as [E _ _]. lia. }
  split; cbn [next_request_ begun pending_ objs]; rewrite ?Hw.
  - rewrite zlen_app. unfold zlen at 2. simpl. lia.
  - intros i Hx. destruct (decide (i = n)) as [->|]; [rewrite lookup_insert_eq; eauto|].
    rewrite lookup_insert_ne by done. apply H2. set_solver.
  - assert (n ∉ pending_ c); [|set_solver]. intros Hp. destruct (H2 n) as [? ?]; [set_solver|congruence].
  - intros i p Hp. destruct (decide (i = n)) as [->|Hne].
    + rewrite lookup_insert_eq in Hp. injection Hp as <-. split; cbn; [lia|done|vm_compute; congruence].
    + rewrite lookup_insert_ne in Hp by done. eapply obj_ok_mono; [by apply H4|done|cbn; lia|]. cbn. set_solver.
Qed.

(** Writing one object back. *)
Lemma put_inv tr c id p q (pend : gset Z) : conn_inv tr c → objs c !! id = Some p → id ∈ pending_ c → pend ⊆ pending_ c →
  (p_done q = true → (id ∉ pend) ∧ origin tr id q) → zlen (p_snap_entries q) <= kMaxSnapshotEntries →
  conn_inv tr (mkConn (closed_ c) (next_request_ c) (begun c) pend (<[id := q]> (objs c))).
Proof.
  intros [H1 H2 H3 H4] E Hp Hsub Hq Hcap. split; cbn [next_request_ begun pending_ objs]; [done| |set_solver|].
  - intros i Hx. destruct (decide (i = id)) as [->|]; [rewrite lookup_insert_eq; eauto|].
    rewrite lookup_insert_ne by done. apply H2. set_solver.
  - intros i q' Hq'. destruct (decide (i = id)) as [->|Hne].
    + rewrite lookup_insert_eq in Hq'. injection Hq' as <-. split; cbn; [by apply (H4 _ _ E)| |done].
      intros Hd. destruct (Hq Hd). split_and!; [done|set_solver|done].
    + rewrite lookup_insert_ne in Hq' by done. eapply obj_ok_mono; [by apply H4|done|done|]. cbn. set_solver.
Qed.

Lemma reader_frame_inv tr c h payload : EvFrame h payload ∈ tr → conn_inv tr c → conn_inv tr (reader_frame c h payload).
Proof.
  intros Hin Hi. unfold reader_frame. set (id := h_request_id h). case_bool_decide as Hp; cbn [negb]; [|done].
  destruct (objs c !! id) as [p|] eqn:E; [|done]. destruct (ki_objs tr c Hi id p E) as [Ho1 Ho2 Ho3].
  assert (p_done p = false) as Hnd by (destruct (p_done p) eqn:Ed; [by destruct (Ho2 eq_refl)|done]).
  destruct (p_streaming p && bool_decide (h_type h = MsgType.Snapshot)) eqn:Est.
  - apply andb_true_iff in Est as [Est Ety]. apply bool_decide_eq_true in Ety.
    destruct (stream_chunk p h payload) as [q b] eqn:Ec.
    destruct (stream_chunk_spec p h payload q b Ho3 Hnd Ec) as (C1 & C2 & C3 & C4).
    destruct b; (apply (put_inv tr c id p); [done|done|done|cbn; set_solver| |done]); [|congruence].
    intros _. split; [cbn; set_solver|]. left. exists h, payload. split; [done|]. rewrite C4 by done.
    split_and!; [done..|right]. split; [congruence|done].
  - apply (put_inv tr c id p); [done|done|done|cbn; set_solver| |done]. intros _. split; [cbn; set_solver|]. left. exists h, payload.
    split_and!; [done..|by left].
Qed.

Lemma reader_end_inv tr c : EvLost ∈ tr → conn_inv tr c → conn_inv tr (reader_end c).
Proof.
  intros Hin [H1 H2 H3 H4]. unfold reader_end, fail_all_pending.
  split; cbn [next_request_ begun pending_ objs]; [done| |set_solver|].
  - intros i Hx. rewrite map_lookup_imap. destruct (H2 i) as [p ->]; [set_solver|]. eauto.
  - intros i q Hq. rewrite map_lookup_imap in Hq. destruct (objs c !! i) as [p|] eqn:E; [|done].
    cbn in Hq. injection Hq as <-. pose proof (H4 i p E) as Hok. case_bool_decide as Hp.
    + destruct Hok as [O1 O2 O3]. split; cbn; [done| |done]. intros _. split_and!; [set_solver|set_solver|by right].
    + eapply obj_ok_mono; [exact Hok|done|done|]. cbn. set_solver.
Qed.

Lemma conn_step_inv tr c e : zlen tr < 2 ^ 63 → conn_inv tr c → conn_inv (tr ++ [e]) (conn_step c e).
Proof.
  intros Hlen Hi. assert (e ∈ tr ++ [e]) as He by set_solver.
  assert (conn_inv (tr ++ [e]) c) as Hi'.
  { apply (conn_inv_mono tr); [set_solver| |done]. rewrite zlen_app. pose proof (zlen_nonneg [e]). lia. }
  destruct e as [streaming|id|id io|h payload|id|]; cbn [conn_step].
  - by apply request_begin_inv.
  - unfold request_register. case_bool_decide as Hb; [|done]. destruct Hi' as [H1 H2 H3 H4].
    split; cbn [next_request_ begun pending_ objs]; [done| |set_solver|].
    + intros i Hx. apply H2. set_solver.
    + intros i p Hp. eapply obj_ok_mono; [by apply H4|done|done|]. cbn. set_solver.
  - unfold request_send. destruct io; [done|]. by apply forget_inv.
  - by apply reader_frame_inv.
  - by apply forget_inv.
  - by apply reader_end_inv.
Qed.

Lemma conn_run_inv tr : zlen tr < 2 ^ 63 → conn_inv tr (conn_run conn_new tr).
Proof.
  induction tr as [|e tr IH] using rev_ind; intros Hl.
  - split; cbn; [vm_compute; intuition congruence|set_solver|set_solver|]. intros id p. by rewrite lookup_empty.
  - unfold conn_run. rewrite foldl_app. rewrite zlen_app in Hl. pose proof (zlen_nonneg [e]).
    apply conn_step_inv; [lia|]. apply IH. lia.
Qed.

(** ** Theorems *)

(** Once complete, an object is out of every thread's reach. *)
Lemma done_final tr c id p e : conn_inv tr c → objs c !! id = Some p → p_done p = true → zlen tr < 2 ^ 63 →
  objs (conn_step c e) !! id = Some p.
Proof.
  intros Hi E Hd Hl. destruct (ki_objs tr c Hi id p E) as [Ho1 Ho2 _]. destruct (Ho2 Hd) as (Hp & Hb & _).
  pose proof (ki_next tr c Hi).
  destruct e as [streaming|i|i io|h payload|i|]; cbn [conn_step].
  - unfold request_begin. destruct (closed_ c); [done|]. cbn. by rewrite lookup_insert_ne by lia.
  - unfold request_register. by case_bool_decide.
  - by destruct io.
  - unfold reader_frame. case_bool_decide as Hx; cbn [negb]; [|done].
    destruct (objs c !! h_request_id h) as [q|]; [|done].
    assert (h_request_id h ≠ id) by congruence.
    destruct (_ && _); [destruct (stream_chunk q h payload) as [? []]|]; cbn; by rewrite lookup_insert_ne.
  - done.
  - cbn. rewrite map_lookup_imap, E. cbn. by rewrite bool_decide_eq_false_2.
Qed.

(** C26: replies reach the request they answer, and no other.  In any
    interleaving of callers, frames, timeouts and the loss of the connection, a
    completed request carries the type and payload of a frame received with its
    own id, or the connection-lost marker after the connection was lost; and
    nothing that happens later changes it. *)
Theorem reply_matches_request tr tr' id p :
  zlen (tr ++ tr') < 2 ^ 63 →
  objs (conn_run conn_new tr) !! id = Some p → p_done p = true →
  origin tr id p ∧ objs (conn_run conn_new (tr ++ tr')) !! id = Some p.
Proof.
  intros Hl E Hd. rewrite zlen_app in Hl. pose proof (zlen_nonneg tr'). pose proof (zlen_nonneg tr).
  pose proof (conn_run_inv tr ltac:(lia)) as Hi. split; [by apply (ki_objs tr _ Hi id p E)|].
  induction tr' as [|e tr' IH] using rev_ind; [by rewrite app_nil_r|].
  rewrite zlen_app in Hl. pose proof (zlen_nonneg tr'). pose proof (zlen_nonneg [e]).
  unfold conn_run. rewrite app_assoc, foldl_app. cbn [foldl].
  eapply done_final; [apply (conn_run_inv (tr ++ tr')); rewrite zlen_app; lia|apply IH; lia|done|rewrite zlen_app; lia].
Qed.

(** C27: losing the connection leaves no registered caller waiting.  After any
    history, every request in the table completes when the reader ends and is
    reported as [ConnectionClosed], the table is empty, and later requests are
    refused. *)
Theorem disconnect_completes tr id streaming :
  zlen tr < 2 ^ 63 → id ∈ pending_ (conn_run conn_new tr) →
  let c := conn_run conn_new (tr ++ [EvLost]) in
  (∃ q, objs c !! id = Some q ∧ p_done q = true ∧ request_result q = Err ConnectionClosed)
  ∧ pending_ c = ∅ ∧ request_begin c streaming = (c, Err ConnectionClosed).
Proof.
  intros Hl Hp. unfold conn_run. rewrite foldl_app. fold (conn_run conn_new tr). cbn [foldl conn_step].
  destruct (ki_known tr _ (conn_run_inv tr Hl) id) as [p E]; [set_solver|]. split; [|done].
  exists (finish p MsgType.Ping []). cbn. rewrite map_lookup_imap, E. cbn. by rewrite bool_decide_eq_true_2.
Qed.

(** A caller that took its id before the connection was lost and registers after
    it is not failed: it waits for its timeout. *)
Theorem late_registration_waits :
  let c := conn_run conn_new [EvBegin false; EvLost; EvRegister 1] in
  closed_ c = true ∧ 1 ∈ pending_ c ∧ (p_done <$> objs c !! 1) = Some false.
Proof. vm_compute. split_and!; [done|by apply (bool_decide_unpack _)|done]. Qed.

(** ** Streamed snapshots *)

(** [entries[i].name = names[i]] of [fetch_snapshot]. *)
Definition fill_names (names : list bytes) (es : list SnapshotEntry) : list SnapshotEntry :=
  zip_with (λ n e, mkSnap (se_parent e) n (se_attr e)) names es.
Definition snapshot_of (p : Pending) : list SnapshotEntry := fill_names (p_snap_names p) (p_snap_entries p).

(** A frame of the server as the client receives it. *)
Definition frame_event (o : Out) : ConnEvent :=
  EvFrame (mkHeader (o_type o) (o_flags o) (wrap 32 (zlen (o_payload o))) (o_id o)) (o_payload o).
Definition frames_bytes (os : list Out) : Z := foldr (λ o n, zlen (o_payload o) + n) 0 os.

Definition entry_ok (e : SnapshotEntry) : Prop :=
  u32_ok (se_parent e) ∧ attr_ok (se_attr e) ∧ str_ok (se_name e).

(** A streaming reply that has received [sent] so far. *)
Record receiving (p : Pending) (sent : list SnapshotEntry) (n : Z) : Prop := {
  rv_done : p_done p = false;
  rv_streaming : p_streaming p = true;
  rv_ok : p_stream_ok p = true;
  rv_bytes : p_snap_bytes p = n;
  rv_lens : length (p_snap_names p) = length (p_snap_entries p);
  rv_sent : snapshot_of p = sent
}.

Lemma snapshot_of_length p sent n : receiving p sent n → zlen (p_snap_entries p) = zlen sent.
Proof.
  intros [_ _ _ _ Hl <-]. unfold snapshot_of, fill_names, zlen. rewrite length_zip_with. lia.
Qed.

Lemma snap_push_receiving p sent n e : receiving p sent n → receiving (snap_push p e) (sent ++ [e]) n.
Proof.
  intros [H1 H2 H3 H4 H5 H6]. split; try done; cbn [snap_push p_snap_names p_snap_entries].
  - rewrite !length_app. simpl. lia.
  - unfold snapshot_of, fill_names in *. cbn [snap_push p_snap_names p_snap_entries].
    rewrite zip_with_app by done. rewrite H6. by destruct e.
Qed.

Lemma snap_loop_receiving es p sent n rest : receiving p sent n → Forall entry_ok es →
  zlen sent + zlen es <= kMaxSnapshotEntries →
  receiving (snap_loop (length es) p (w_each write_snapshot_entry es ++ rest)) (sent ++ es) n
  ∧ p_snap_generation (snap_loop (length es) p (w_each write_snapshot_entry es ++ rest)) = p_snap_generation p.
Proof.
  revert p sent. induction es as [|e es IH]; intros p sent Hr Hok Hn; cbn [snap_loop length].
  { by rewrite app_nil_r. }
  inversion Hok as [|? ? He Hes]; subst. rewrite (snapshot_of_length _ _ _ Hr). rewrite zlen_cons in Hn.
  pose proof (zlen_nonneg es). rewrite Z.geb_leb, (proj2 (Z.leb_gt _ _)) by lia.
  cbn [w_each]. rewrite <- app_assoc.
  pose proof (codec_rt (Codec:=entry_codec) e (w_each write_snapshot_entry es ++ rest) He) as Hd.
  unfold dec, enc, con_wire, entry_codec in Hd. cbn [id] in Hd. rewrite Hd.
  replace (sent ++ e :: es) with ((sent ++ [e]) ++ es) by (by rewrite <- app_assoc).
  apply (IH (snap_push p e)); [by apply snap_push_receiving|done|]. autorewrite with zlen. lia.
Qed.

Lemma stream_chunk_receiving p sent n gen es id more :
  receiving p sent n → Forall entry_ok es → u64_ok gen → zlen sent + zlen es <= kMaxSnapshotEntries ->
  0 <= n → n + zlen (o_payload (snapshot_frame id gen (w_each write_snapshot_entry es) (zlen es) more)) <= kMaxSnapshotBytes →
  let o := snapshot_frame id gen (w_each write_snapshot_entry es) (zlen es) more in
  ∃ q, stream_chunk p (mkHeader (o_type o) (o_flags o) (wrap 32 (zlen (o_payload o))) (o_id o)) (o_payload o) = (q, negb more)
    ∧ p_snap_generation q = gen
    ∧ (more = true → receiving q (sent ++ es) (n + zlen (o_payload o)))
    ∧ (more = false → p_done q = true ∧ p_stream_ok q = true ∧ p_type q = MsgType.Snapshot ∧ snapshot_of q = sent ++ es).
Proof.
  intros Hr Hok Hg Hn Hn0 Hb o. fold o in Hb. pose proof (zlen_nonneg (o_payload o)). pose proof (zlen_nonneg sent).
  assert (zlen es < 2 ^ 32) as Hes.
  { assert (kMaxSnapshotEntries = 1048576) as HM by reflexivity. lia. }
  assert (kMaxSnapshotBytes < 2 ^ 64) by (vm_compute; done).
  unfold stream_chunk. rewrite (rv_bytes _ _ _ Hr). rewrite (wrap_id 64) by lia. cbn [p_snap_bytes].
  rewrite Z.gtb_ltb, (proj2 (Z.ltb_ge _ _)) by lia.
  assert (read_snapshot_header (o_payload o) = Ok (mkSnapshotHeader gen (zlen es), w_each write_snapshot_entry es)) as ->.
  { pose proof (read_snapshot_header_w gen es [] Hg) as Hw. rewrite app_nil_r in Hw. apply Hw; [|done].
    pose proof (zlen_nonneg es). zsolve. }
  cbn [sh_count sh_generation p_done p_type p_payload p_streaming p_stream_ok p_snap_bytes p_snap_names p_snap_entries].
  replace (Z.to_nat (zlen es)) with (length es) by (unfold zlen; lia). set (p1 := mkPending _ _ _ _ _ gen _ _ _).
  assert (receiving p1 sent (n + zlen (o_payload o))) as Hr1 by (destruct Hr; by split).
  destruct (snap_loop_receiving es p1 sent _ [] Hr1 Hok Hn) as [Hl Hgen]. rewrite app_nil_r in Hl, Hgen.
  rewrite (rv_ok _ _ _ Hl), orb_false_r. destruct more; cbn [o snapshot_frame o_flags h_flags].
  - change (Z.land kFlagMore kFlagMore =? 0) with false. cbn [negb]. eexists. split; [reflexivity|].
    split_and!; [exact Hgen|intros _; exact Hl|done].
  - rewrite Z.land_0_l. cbn [negb Z.eqb]. eexists. split; [reflexivity|]. split_and!; [exact Hgen|done|]. intros _.
    split_and!; [done|reflexivity|done|]. apply (rv_sent _ _ _ Hl).
Qed.

Lemma w_each_snoc acc e : w_each write_snapshot_entry acc ++ write_snapshot_entry e = w_each write_snapshot_entry (acc ++ [e]).
Proof. induction acc as [|a acc IH]; cbn [w_each app]; [by rewrite app_nil_r|]. by rewrite <- app_assoc, IH. Qed.

Lemma frames_bytes_nonneg os : 0 <= frames_bytes os.
Proof. induction os as [|o os IH]; cbn; [done|]. fold (frames_bytes os). pose proof (zlen_nonneg (o_payload o)). lia. Qed.

(** One frame of the stream at the connection. *)
Lemma stream_frame c id p o q b : id ∈ pending_ c → objs c !! id = Some p → p_streaming p = true →
  o_type o = MsgType.Snapshot → o_id o = id →
  stream_chunk p (mkHeader (o_type o) (o_flags o) (wrap 32 (zlen (o_payload o))) (o_id o)) (o_payload o) = (q, b) →
  objs (conn_step c (frame_event o)) !! id = Some q
  ∧ (id ∈ pending_ (conn_step c (frame_event o)) ↔ b = false).
Proof.
  intros Hp E Hs Ht Hid Hc. cbn [conn_step frame_event]. unfold reader_frame. cbn [h_request_id h_type].
  rewrite Hid, bool_decide_eq_true_2 by done. cbn [negb]. rewrite E, Hs, Ht. cbn [andb]. rewrite bool_decide_eq_true_2 by done.
  rewrite Ht, Hid in Hc. rewrite Hc. destruct b; cbn; rewrite lookup_insert_eq; (split; [done|]); set_solver.
Qed.

Lemma snapshot_frames_received gen budget id es acc sent n p c :
  id ∈ pending_ c → objs c !! id = Some p → receiving p sent n → 0 <= n → u64_ok gen →
  Forall entry_ok (acc ++ es) → zlen sent + zlen acc + zlen es <= kMaxSnapshotEntries →
  let os := snapshot_frames id gen budget (w_each write_snapshot_entry acc) (zlen acc) es in
  n + frames_bytes os <= kMaxSnapshotBytes →
  ∃ q, objs (conn_run c (frame_event <$> os)) !! id = Some q
    ∧ (id ∉ pending_ (conn_run c (frame_event <$> os)))
    ∧ p_done q = true ∧ p_stream_ok q = true ∧ p_type q = MsgType.Snapshot ∧ p_snap_generation q = gen
    ∧ snapshot_of q = sent ++ acc ++ es.
Proof.
  intros Hp E Hr Hn Hg. revert acc sent n p c Hp E Hr Hn. induction es as [|e es IH]; intros acc sent n p c Hp E Hr Hn Hok Hcap;
    cbn [snapshot_frames].
  - intros Hb. cbn [frames_bytes foldr] in Hb. rewrite app_nil_r in *. rewrite zlen_nil in Hcap.
    destruct (stream_chunk_receiving p sent n gen acc id false Hr Hok Hg) as (q & Hq & Hgen & _ & Hdone); [lia|done|lia|].
    destruct (Hdone eq_refl) as (? & ? & ? & ?). destruct (stream_frame c id p (snapshot_frame id gen (w_each write_snapshot_entry acc) (zlen acc) false) q _
      Hp E (rv_streaming _ _ _ Hr) eq_refl eq_refl Hq) as [E' Hp'].
    exists q. cbn [fmap list_fmap conn_run foldl]. split_and!; try done. by rewrite Hp'.
  - rewrite w_each_snoc. assert (zlen acc + 1 = zlen (acc ++ [e])) as -> by (autorewrite with zlen; lia).
    replace (acc ++ e :: es) with ((acc ++ [e]) ++ es) in * by (by rewrite <- app_assoc).
    assert (zlen sent + zlen (acc ++ [e]) + zlen es <= kMaxSnapshotEntries) as Hcap'.
    { autorewrite with zlen in *. lia. }
    destruct (_ >=? budget); [|by eapply IH]. cbv zeta. intros Hb. cbn [frames_bytes foldr] in Hb.
    fold (frames_bytes (snapshot_frames id gen budget [] 0 es)) in Hb.
    pose proof (frames_bytes_nonneg (snapshot_frames id gen budget [] 0 es)). pose proof (zlen_nonneg es).
    apply Forall_app in Hok as [Hok1 Hok2].
    destruct (stream_chunk_receiving p sent n gen (acc ++ [e]) id true Hr Hok1 Hg) as (q & Hq & Hgen & Hmore & _); [lia|done|lia|].
    set (o := snapshot_frame id gen _ _ true) in *.
    destruct (stream_frame c id p o q _ Hp E (rv_streaming _ _ _ Hr) eq_refl eq_refl Hq) as [E' Hp']. cbn [fmap list_fmap conn_run foldl].
    pose proof (zlen_nonneg (o_payload o)).
    destruct (IH [] (sent ++ acc ++ [e]) (n + zlen (o_payload o)) q (conn_step c (frame_event o))) as (q' & Hq'); [by apply Hp'|done|by apply Hmore|lia|done| | |].
    + autorewrite with zlen in *. lia.
    + cbn [w_each]. rewrite zlen_nil. lia.
    + exists q'. cbn [w_each app] in Hq'. rewrite zlen_nil in Hq'. rewrite <- !app_assoc in *. exact Hq'.
Qed.

(** A streamed snapshot arrives whole.  The frames the server cuts a
    snapshot into, received under the id of the request, complete it exactly at
    the last one, with the scanned entries in order, names included, and the
    server's generation, whatever the chunk size; as long as the tree is within
    the client's limits on entries and bytes. *)
Theorem snapshot_transfer c id gen budget es :
  id ∈ pending_ c → objs c !! id = Some (pending_new true) →
  u64_ok gen → Forall entry_ok es → zlen es <= kMaxSnapshotEntries →
  frames_bytes (snapshot_frames id gen budget [] 0 es) <= kMaxSnapshotBytes →
  let c' := conn_run c (frame_event <$> snapshot_frames id gen budget [] 0 es) in
  ∃ q, objs c' !! id = Some q ∧ (id ∉ pending_ c') ∧ p_done q = true ∧ p_stream_ok q = true
    ∧ p_type q = MsgType.Snapshot ∧ p_snap_generation q = gen ∧ snapshot_of q = es.
Proof.
  intros Hp E Hg Hok Hn Hb.
  apply (snapshot_frames_received gen budget id es [] [] 0 (pending_new true) c); done.
Qed.

(** No peer can make the client accumulate without bound: in any history,
    no reply holds more than [kMaxSnapshotEntries] entries. *)
Theorem snapshot_entries_bounded tr id p :
  zlen tr < 2 ^ 63 → objs (conn_run conn_new tr) !! id = Some p → zlen (p_snap_entries p) <= kMaxSnapshotEntries.
Proof. intros Hl E. apply (ki_objs tr _ (conn_run_inv tr Hl) id p E). Qed.

(** ** Witnesses *)

(** A ping answered late by a frame for another request, then by its own. *)
Definition demo_trace : list ConnEvent :=
  [EvBegin false; EvRegister 1; EvSend 1 (Ok ()); EvFrame (mkHeader MsgType.Ok 0 0 7) [];
   EvFrame (mkHeader MsgType.Pong 0 0 1) []].

Lemma reply_matches_request_witness :
  ∃ p, objs (conn_run conn_new demo_trace) !! 1 = Some p ∧ p_type p = MsgType.Pong
    ∧ objs (conn_run conn_new (demo_trace ++ [EvLost])) !! 1 = Some p.
Proof.
  exists (finish (pending_new false) MsgType.Pong []). split_and!; [vm_compute; reflexivity|reflexivity|].
  apply (reply_matches_request demo_trace [EvLost]); vm_compute; reflexivity.
Defined.

Lemma disconnect_completes_witness :
  pending_ (conn_run conn_new ([EvBegin false; EvRegister 1] ++ [EvLost])) = ∅.
Proof.
  apply (disconnect_completes [EvBegin false; EvRegister 1] 1 false); [vm_compute; reflexivity|].
  apply (bool_decide_unpack _). vm_compute. exact I.
Defined.

Definition demo_entries : list SnapshotEntry :=
  [mkSnap 0 (str "src") (mkAttr 0 0 493 Directory); mkSnap 1 (str "main.cpp") (mkAttr 12 7 420 File)].

Lemma snapshot_transfer_witness :
  let c := conn_run conn_new [EvBegin true; EvRegister 1] in
  length (snapshot_frames 1 9 20 [] 0 demo_entries) = 3%nat
  ∧ ∃ q, objs (conn_run c (frame_event <$> snapshot_frames 1 9 20 [] 0 demo_entries)) !! 1 = Some q
      ∧ snapshot_of q = demo_entries.
Proof.
  cbv zeta. split; [vm_compute; reflexivity|].
  destruct (snapshot_transfer (conn_run conn_new [EvBegin true; EvRegister 1]) 1 9 20 demo_entries)
    as (q & Hq & _ & _ & _ & _ & _ & Hs).
  - apply (bool_decide_unpack _). vm_compute. exact I.
  - vm_compute. reflexivity.
  - vm_compute. intuition congruence.
  - repeat constructor; vm_compute; intuition congruence.
  - vm_compute. congruence.
  - vm_compute. congruence.
  - exists q. split; [exact Hq|exact Hs].
Defined.

Lemma snapshot_entries_bounded_witness :
  ∃ p, objs (conn_run conn_new demo_trace) !! 1 = Some p ∧ zlen (p_snap_entries p) <= kMaxSnapshotEntries.
Proof.
  exists (finish (pending_new false) MsgType.Pong []). split; [vm_compute; reflexivity|].
  apply (snapshot_entries_bounded demo_trace 1); vm_compute; reflexivity.
Defined.
