(* ===== verification/Connect.v ===== *)
(** * The client's side of the handshake ([RemoteRoot::connect])

    [random] is what the system's generator gives for the nonce, [r1] and [r2]
    the outcomes of the two requests.  The result lists the frames sent. *)

From S2P Require Import Prelude Types Wire Messages Auth FileSystem Server Requests.

Definition connect (blake3 : bytes → bytes) (agent token : bytes) (random : option bytes) (r1 r2 : Result Pending)
    : list (MsgType.t * bytes) * Result Hello :=
  let client_nonce := if bool_decide (token = []) then [] else generate_auth_token random in
  if negb (bool_decide (token = [])) && bool_decide (client_nonce = []) then ([], Err IoError)
  else
    let sent := [(MsgType.Hello, write_hello (mkHello kVersion 0 agent client_nonce []))] in
    match r1 with
    | Err e => (sent, Err e)
    | Ok p =>
        if negb (bool_decide (p_type p = MsgType.HelloAck)) then (sent, Err ProtocolError)
        else
          match read_hello (p_payload p) with
          | Err e => (sent, Err e)
          | Ok (ack, _) =>
              let out := mkHello (protocol_version ack) (capabilities ack) [] [] [] in
              if bool_decide (token = []) then (sent, Ok out)
              else if negb (constant_time_equal (proof ack) (auth_proof blake3 token client_nonce (nonce ack) true))
              then (sent, Err Unauthorized)
              else
                let sent := sent ++ [(MsgType.Auth,
                  write_hello (mkHello kVersion 0 [] [] (auth_proof blake3 token client_nonce (nonce ack) false)))] in
                match r2 with
                | Err e => (sent, Err e)
                | Ok a => if negb (bool_decide (p_type a = MsgType.Ok)) then (sent, Err Unauthorized) else (sent, Ok out)
                end
          end
    end.

(** A reply as [request] returns it. *)
Definition reply (t : MsgType.t) (payload : bytes) : Result Pending :=
  request_result (finish (pending_new false) t payload).

(** A frame of the client as the server receives it. *)
Definition arrives (t : MsgType.t) (id : Z) (payload : bytes) (random : option bytes) (gen : Z) : Input :=
  InFrame (mkHeader t 0 (zlen payload) id) payload [] random gen.

Lemma w_string_zlen s : zlen (w_string s) <= 10 + zlen s.
Proof. unfold w_string. rewrite zlen_app. pose proof (w_varint_length (zlen s)). lia. Qed.

Lemma write_hello_length h : zlen (write_hello h) <= 42 + zlen (agent h) + zlen (nonce h) + zlen (proof h).
Proof.
  unfold write_hello, w_u32, w_u64. rewrite !zlen_app, !put_le_zlen.
  pose proof (w_string_zlen (agent h)). pose proof (w_string_zlen (nonce h)). pose proof (w_string_zlen (proof h)). lia.
Qed.

Lemma read_write_hello h : u32_ok (protocol_version h) → u64_ok (capabilities h) → zlen (agent h) < 2 ^ 64 →
  zlen (nonce h) < 2 ^ 64 → zlen (proof h) < 2 ^ 64 → read_hello (write_hello h) = Ok (h, []).
Proof.
  intros H1 H2 H3 H4 H5. pose proof (codec_rt (Codec:=hello_codec) h []) as Hr. rewrite app_nil_r in Hr.
  apply Hr. pose proof (zlen_nonneg (agent h)). pose proof (zlen_nonneg (nonce h)). pose proof (zlen_nonneg (proof h)).
  unfold cwf, hello_codec, str_ok. split_and!; unfold u32_ok, u64_ok in *; lia.
Qed.

Lemma hex_zlen bs n : length bs = n → zlen (hex bs) = 2 * Z.of_nat n.
Proof. intros <-. unfold zlen. rewrite length_hex. lia. Qed.

Lemma hex_not_nil bs n : length bs = S n → hex bs ≠ [].
Proof. intros Hl He. apply (f_equal length) in He. rewrite length_hex, Hl in He. simpl in He. lia. Qed.

(** ** Both sides together *)

Section handshake.
Context {F : Type} `{FileSystem F}.
Context (blake3 : bytes → bytes) (transient : F → bytes → FsErr → bool) (cfg : Config).
Context (Hdigest : ∀ x, length (blake3 x) = 32%nat).
Context (Htoken : cfg_token cfg ≠ []) (Hagent : zlen (cfg_agent cfg) <= 1024).
Context (agent : bytes) (Hag : zlen agent <= 1024).
Context (cr sr : bytes) (Hcr : length cr = 16%nat) (Hsr : length sr = 16%nat).

Let proof_of (from_server : bool) : bytes := auth_proof blake3 (cfg_token cfg) (hex cr) (hex sr) from_server.
Let hello : bytes := write_hello (mkHello kVersion 0 agent (hex cr) []).
Let caps : Z := if cfg_watching cfg then 1 else 0.
Let ack : bytes := write_hello (mkHello kVersion caps (cfg_agent cfg) (hex sr) (proof_of true)).
Let auth : bytes := write_hello (mkHello kVersion 0 [] [] (proof_of false)).

Lemma proof_zlen b : zlen (proof_of b) = 64.
Proof. unfold proof_of, auth_proof. by rewrite (hex_zlen _ 32). Qed.

Lemma proof_equal b : constant_time_equal (proof_of b) (proof_of b) = true.
Proof. rewrite constant_time_equal_spec by apply hex_bytes_ok. by apply bool_decide_eq_true_2. Qed.

Lemma caps_ok : u64_ok caps.
Proof. unfold caps. destruct (cfg_watching cfg); vm_compute; intuition congruence. Qed.

Lemma client_side : connect blake3 agent (cfg_token cfg) (Some cr) (reply MsgType.HelloAck ack) (reply MsgType.Ok [])
  = ([(MsgType.Hello, hello); (MsgType.Auth, auth)], Ok (mkHello kVersion caps [] [] [])).
Proof.
  unfold connect. rewrite !(bool_decide_eq_false_2 (cfg_token cfg = [])) by done. cbn [negb andb generate_auth_token].
  rewrite bool_decide_eq_false_2 by (by eapply hex_not_nil). unfold reply, request_result. cbn [p_type p_payload finish].
  rewrite !(bool_decide_eq_false_2 (MsgType.HelloAck = _)), andb_false_r by done. cbn [p_type p_payload finish].
  rewrite bool_decide_eq_true_2 by done. cbn [negb]. unfold ack.
  rewrite read_write_hello; cbn [protocol_version capabilities Messages.agent nonce proof];
    [|done|apply caps_ok|lia|rewrite (hex_zlen _ 16) by done; lia|rewrite proof_zlen; lia].
  fold (proof_of true). fold (proof_of false). rewrite proof_equal. cbn [negb].
  rewrite (bool_decide_eq_false_2 (MsgType.Ok = MsgType.Error)), (bool_decide_eq_false_2 (MsgType.Ok = MsgType.Ping)) by done.
  rewrite andb_false_r. cbn [p_type]. by rewrite bool_decide_eq_true_2.
Qed.

Lemma kPre : kPreAuthMaxPayload = 4096 ∧ kMaxPayload = 67108864.
Proof. vm_compute. done. Qed.

Lemma hello_size : zlen hello <= kPreAuthMaxPayload ∧ zlen ack <= kMaxPayload ∧ zlen auth <= kPreAuthMaxPayload.
Proof.
  destruct kPre as [-> ->]. unfold hello, ack, auth.
  pose proof (write_hello_length (mkHello kVersion 0 agent (hex cr) [])).
  pose proof (write_hello_length (mkHello kVersion caps (cfg_agent cfg) (hex sr) (proof_of true))).
  pose proof (write_hello_length (mkHello kVersion 0 [] [] (proof_of false))).
  cbn [Messages.agent nonce proof] in *. pose proof (hex_zlen sr 16 Hsr). pose proof (hex_zlen cr 16 Hcr).
  pose proof (proof_zlen true). pose proof (proof_zlen false). pose proof (@zlen_nil Z).
  lia.
Qed.

Definition greeted_session : Session := mkSession false (mkHandshake true (hex cr) (hex sr)).

Lemma server_hello fs io gen : default (Ok ()) (head io) = Ok () →
  handle blake3 transient cfg (mkSession false no_handshake) fs io (Some sr) gen (mkHeader MsgType.Hello 0 (zlen hello) 1) hello
  = (greeted_session, fs, ([mkOut MsgType.HelloAck 1 ack 0], Ok ())).
Proof.
  intros Hio. unfold handle. cbn [h_type h_request_id]. rewrite (bool_decide_eq_true_2 (MsgType.Hello = MsgType.Hello)) by done.
  cbn [negb andb]. rewrite Hio. unfold handle_hello, hello.
  rewrite read_write_hello; cbn [protocol_version capabilities Messages.agent nonce proof];
    [|done|done|lia|rewrite (hex_zlen _ 16) by done; lia|done].
  rewrite Z.eqb_refl. cbn [negb]. rewrite bool_decide_eq_false_2 by done. cbn [client_nonce generate_auth_token].
  rewrite !bool_decide_eq_false_2 by (by eapply hex_not_nil). unfold hello_ack, send_frame. cbn [o_payload].
  fold caps. fold (proof_of true). fold ack.
  rewrite Z.gtb_ltb, (proj2 (Z.ltb_ge _ _)) by apply hello_size. done.
Qed.

Lemma server_auth fs io random gen : default (Ok ()) (head io) = Ok () →
  handle blake3 transient cfg greeted_session fs io random gen (mkHeader MsgType.Auth 0 (zlen auth) 2) auth
  = (mkSession true (hs greeted_session), fs, ([mkOut MsgType.Ok 2 [] 0], Ok ())).
Proof.
  intros Hio. unfold handle. cbn [h_type h_request_id]. rewrite (bool_decide_eq_true_2 (MsgType.Auth = MsgType.Auth)) by done.
  cbn [negb]. rewrite andb_false_r. rewrite Hio. cbn [andb]. unfold handle_auth, auth. cbn [greeted_session hs greeted negb].
  rewrite read_write_hello; cbn [protocol_version capabilities Messages.agent nonce proof client_nonce server_nonce];
    [|done|done|done|done|rewrite proof_zlen; lia].
  fold (proof_of false). rewrite proof_equal. cbn [negb]. done.
Qed.

Lemma server_side fs g1 g2 random :
  serve blake3 transient cfg fs false [arrives MsgType.Hello 1 hello (Some sr) g1; arrives MsgType.Auth 2 auth random g2]
  = mkServing (mkSession true (hs greeted_session)) true kMaxPayload true fs
      [mkOut MsgType.HelloAck 1 ack 0; mkOut MsgType.Ok 2 [] 0].
Proof.
  unfold serve, serve_start. rewrite (bool_decide_eq_false_2 (cfg_token cfg = [])) by done. cbn [foldl andb negb].
  unfold serve_step at 2. cbn [sv_open negb arrives h_payload_len sv_limit sv_session sv_fs sv_sent].
  rewrite Z.gtb_ltb, (proj2 (Z.ltb_ge _ _)) by apply hello_size. rewrite server_hello by done.
  cbn [authed greeted_session andb negb sv_registered]. unfold serve_step.
  cbn [sv_open negb arrives h_payload_len sv_limit sv_session sv_fs sv_sent].
  rewrite Z.gtb_ltb, (proj2 (Z.ltb_ge _ _)) by apply hello_size. fold greeted_session. rewrite server_auth by done.
  reflexivity.
Qed.
End handshake.

(** ** Theorems *)

(** C28: a client and an agent that share a token authenticate each other.  With
    32-byte digests and 16-byte nonces, the client's two frames fit the agent's
    pre-authentication limit, the agent's replies satisfy the client, and the
    session ends up authenticated, registered for broadcasts and with the full
    payload limit, the filesystem untouched. *)
Theorem handshake_completes {F} `{FileSystem F} blake3 (transient : F → bytes → FsErr → bool) cfg agent cr sr random fs g1 g2 :
  (∀ x, length (blake3 x) = 32%nat) → cfg_token cfg ≠ [] →
  zlen (cfg_agent cfg) <= 1024 → zlen agent <= 1024 → length cr = 16%nat → length sr = 16%nat →
  ∃ hello auth ack out,
    connect blake3 agent (cfg_token cfg) (Some cr) (reply MsgType.HelloAck ack) (reply MsgType.Ok [])
      = ([(MsgType.Hello, hello); (MsgType.Auth, auth)], Ok out)
    ∧ let v := serve blake3 transient cfg fs false
                 [arrives MsgType.Hello 1 hello (Some sr) g1; arrives MsgType.Auth 2 auth random g2] in
      sv_sent v = [mkOut MsgType.HelloAck 1 ack 0; mkOut MsgType.Ok 2 [] 0]
      ∧ authed (sv_session v) = true ∧ sv_registered v = true ∧ sv_open v = true
      ∧ sv_limit v = kMaxPayload ∧ sv_fs v = fs.
Proof.
  intros Hd Ht Ha1 Ha2 Hc Hs. do 4 eexists. split; [by eapply client_side|].
  rewrite (server_side blake3 transient cfg Hd Ht Ha1 agent Ha2 cr sr Hc Hs). by split_and!.
Qed.

(** C29: the client proves itself to nobody who has not proved itself first.  If
    it sends an Auth frame, the reply it had received was a HelloAck whose proof
    is the agent's proof for the shared token and this connection's nonces. *)
Theorem connect_checks_agent_first blake3 agent token random r1 r2 auth :
  token ≠ [] → (∀ p, r1 = Ok p → input_ok (p_payload p)) →
  (MsgType.Auth, auth) ∈ (connect blake3 agent token random r1 r2).1 →
  ∃ p ack rest, r1 = Ok p ∧ p_type p = MsgType.HelloAck ∧ read_hello (p_payload p) = Ok (ack, rest)
    ∧ proof ack = auth_proof blake3 token (generate_auth_token random) (nonce ack) true.
Proof.
  intros Ht Hp. unfold connect. rewrite !(bool_decide_eq_false_2 (token = [])) by done. cbn [negb andb].
  assert (∀ b, (MsgType.Auth, auth) ∉ [(MsgType.Hello, b)]) as Hno by (intros b ?%list_elem_of_singleton; congruence).
  case_bool_decide; [by intros ?%elem_of_nil|].
  destruct r1 as [p|e]; [|by intros ?%Hno]. case_bool_decide as Hty; cbn [negb]; [|by intros ?%Hno].
  destruct (read_hello (p_payload p)) as [[ack rest]|e] eqn:Er; [|by intros ?%Hno].
  rewrite constant_time_equal_spec; [|by apply (yields_hello_proof _ _ _ (Hp _ eq_refl) Er)|apply hex_bytes_ok].
  case_bool_decide as He; cbn [negb]; [|by intros ?%Hno]. intros _. by exists p, ack, rest.
Qed.

(** ** Witnesses *)

Definition demo_digest (x : bytes) : bytes := replicate 32 (zlen x mod 256).

Lemma handshake_completes_witness :
  ∃ auth, (serve demo_digest (λ _ _ _, false) demo_config mem_demo false
     [arrives MsgType.Hello 1 (write_hello (mkHello kVersion 0 (str "wsldrive") (hex (replicate 16 7)) [])) (Some (replicate 16 9)) 1;
      arrives MsgType.Auth 2 auth None 1]).(sv_registered) = true.
Proof.
  destruct (handshake_completes demo_digest (λ _ _ _, false) demo_config (str "wsldrive") (replicate 16 7) (replicate 16 9)
    None mem_demo 1 1) as (hello & auth & ack & out & Hc & _ & _ & Hr & _).
  - intros x. reflexivity.
  - discriminate.
  - vm_compute. congruence.
  - vm_compute. congruence.
  - reflexivity.
  - reflexivity.
  - exists auth. assert (hello = write_hello (mkHello kVersion 0 (str "wsldrive") (hex (replicate 16 7)) [])) as <-; [|exact Hr].
    assert (snd <$> head (connect demo_digest (str "wsldrive") (cfg_token demo_config) (Some (replicate 16 7))
      (reply MsgType.HelloAck ack) (reply MsgType.Ok [])).1 = Some hello) as Hh by (rewrite Hc; reflexivity).
    unfold connect in Hh. cbn [bool_decide] in Hh.
    destruct (reply MsgType.HelloAck ack) as [p|]; [|injection Hh as Hh; done].
    destruct (negb (bool_decide (p_type p = MsgType.HelloAck))); [injection Hh as Hh; done|].
    destruct (read_hello (p_payload p)) as [[a r]|]; [|injection Hh as Hh; done].
    destruct (negb (constant_time_equal _ _)); injection Hh as Hh; done.
Defined.

Definition demo_ack : bytes :=
  write_hello (mkHello kVersion 1 (str "wsldrived") (hex (replicate 16 9))
    (auth_proof demo_digest (str "secret") (hex (replicate 16 7)) (hex (replicate 16 9)) true)).

Lemma connect_checks_agent_first_witness :
  ∃ ack rest, read_hello demo_ack = Ok (ack, rest)
    ∧ proof ack = auth_proof demo_digest (str "secret") (hex (replicate 16 7)) (nonce ack) true.
Proof.
  destruct (connect_checks_agent_first demo_digest (str "wsldrive") (str "secret") (Some (replicate 16 7))
    (reply MsgType.HelloAck demo_ack) (Err Timeout)
    (write_hello (mkHello kVersion 0 [] [] (auth_proof demo_digest (str "secret") (hex (replicate 16 7)) (hex (replicate 16 9)) false))))
    as (p & ack & rest & Hp & _ & Hr & He).
  - discriminate.
  - intros p [= <-]. split; [apply (bool_decide_unpack _); vm_compute; exact I|vm_compute; intuition congruence].
  - apply (bool_decide_unpack _). vm_compute. exact I.
  - injection Hp as <-. exists ack, rest. split; [exact Hr|exact He].
Defined.
