(* ===== verification/Client.v ===== *)
(** * The client's mirror of a served root ([agent/client.cpp])

    State: the mirrored tree, the local mutations acknowledged by the agent, the
    recording of invalidations while a snapshot is in flight, the read cache and
    the read-ahead queue.  An operation that asks the agent takes the outcome of
    its [request] as an argument; what it sends is the corresponding
    [.._request].  Each operation runs under the locks the source takes, so it
    is one step on the state. *)

From S2P Require Import Prelude Types KeyMap Wire Messages Path Unicode StringPool MetadataTree.
From S2P Require Import Coalescer ReadCache FileSystem Server Requests.

Definition kMaxCacheableFile : Z := Z.shiftl 8 20.
Definition kMaxSnapshotReplay : Z := 4096.
Definition kPrefetchBatchBytes : Z := Z.shiftl 4 20.
Definition kPrefetchBatchCount : Z := 512.

(** One change applied to the mirror, as reported to the notification hook. *)
Record AppliedChange := mkApplied {
  ac_change : ChangeKind;
  ac_path : bytes;
  ac_cookie : Z;
  ac_kind : NodeKind;
  ac_rescan : bool
}.

#[global] Program Instance applied_move_op : MoveOp AppliedChange :=
  {| mo_change := ac_change; mo_cookie := ac_cookie;
     mo_set op ch ck := mkApplied ch (ac_path op) ck (ac_kind op) (ac_rescan op) |}.
Next Obligation. done. Qed.
Next Obligation. done. Qed.

Record ReadTarget := mkTarget { t_is_file : bool; t_mtime_ns : Z; t_size : Z; t_canonical : bytes }.

Record ClientStats := mkCStats {
  st_batches : Z; st_ops : Z; st_generation : Z; st_snapshot_bytes : Z;
  st_hits : Z; st_misses : Z; st_prefetch_files : Z; st_prefetch_bytes : Z
}.

(** [bump_mtime] at the clock reading [now]. *)
Definition bump_mtime (now previous : Z) : Z := Z.max now (previous + 1).

(** ** Replies *)

(** A reply of the type the caller expects. *)
Definition expect (t : MsgType.t) (r : Result Pending) : Result Pending :=
  match r with
  | Err e => Err e
  | Ok p => if bool_decide (p_type p = t) then Ok p else Err ProtocolError
  end.

(** The payload of such a reply, read by [rd]. *)
Definition decode_reply {A} (t : MsgType.t) (rd : Reader A) (r : Result Pending) : Result A :=
  match expect t r with
  | Err e => Err e
  | Ok p => match rd (p_payload p) with Err e => Err e | Ok (a, _) => Ok a end
  end.

Definition take_ack : Reader Z := a ← read_mutation_ack; mret (ack_generation a).

Definition read_remote (r : Result Pending) : Result bytes :=
  match decode_reply MsgType.ReadResponse read_read_response r with
  | Err e => Err e
  | Ok resp => Ok (rp_data resp)
  end.

(** [out[i]] for the [n] paths asked for. *)
Definition read_many (n : nat) (r : Result Pending) : Result (list (option bytes)) :=
  match decode_reply MsgType.ReadManyResponse read_read_many_response r with
  | Err e => Err e
  | Ok resp =>
      Ok ((λ i, match rmp_items resp !! i with
                | Some it => if it_ok it then Some (it_data it) else None
                | None => None end) <$> seq 0 n)
  end.

(** [ping], between the clock readings [t0] and [t1]. *)
Definition ping (t0 t1 : Z) (r : Result Pending) : Result Z :=
  match r with
  | Err e => Err e
  | Ok p => if bool_decide (p_type p = MsgType.Pong) then Ok (t1 - t0) else Err ProtocolError
  end.

Section client.
Context {M : Type} `{KeyMapOps M}.

Record Client := mkClient {
  tree_ : MetadataTree M;
  lookup_mode_ : LookupMode;
  snapshot_in_flight_ : bool;
  snapshot_replay_ : list InvalidationBatch;
  snapshot_replay_overflow_ : bool;
  local_mutations_ : gmap bytes Z;
  cache_ : ReadCache;
  rs_requested_ : bool;
  pf_queue_ : list bytes;
  pf_seen_ : gset bytes;
  pf_stop_ : bool;
  pf_pending_ : Z;
  stats_ : ClientStats
}.

Definition with_tree t cl := mkClient t (lookup_mode_ cl) (snapshot_in_flight_ cl) (snapshot_replay_ cl) (snapshot_replay_overflow_ cl) (local_mutations_ cl) (cache_ cl) (rs_requested_ cl) (pf_queue_ cl) (pf_seen_ cl) (pf_stop_ cl) (pf_pending_ cl) (stats_ cl).
Definition with_recording b r o cl := mkClient (tree_ cl) (lookup_mode_ cl) b r o (local_mutations_ cl) (cache_ cl) (rs_requested_ cl) (pf_queue_ cl) (pf_seen_ cl) (pf_stop_ cl) (pf_pending_ cl) (stats_ cl).
Definition with_local l cl := mkClient (tree_ cl) (lookup_mode_ cl) (snapshot_in_flight_ cl) (snapshot_replay_ cl) (snapshot_replay_overflow_ cl) l (cache_ cl) (rs_requested_ cl) (pf_queue_ cl) (pf_seen_ cl) (pf_stop_ cl) (pf_pending_ cl) (stats_ cl).
Definition with_cache c cl := mkClient (tree_ cl) (lookup_mode_ cl) (snapshot_in_flight_ cl) (snapshot_replay_ cl) (snapshot_replay_overflow_ cl) (local_mutations_ cl) c (rs_requested_ cl) (pf_queue_ cl) (pf_seen_ cl) (pf_stop_ cl) (pf_pending_ cl) (stats_ cl).
Definition with_rescan b cl := mkClient (tree_ cl) (lookup_mode_ cl) (snapshot_in_flight_ cl) (snapshot_replay_ cl) (snapshot_replay_overflow_ cl) (local_mutations_ cl) (cache_ cl) b (pf_queue_ cl) (pf_seen_ cl) (pf_stop_ cl) (pf_pending_ cl) (stats_ cl).
Definition with_prefetch q s n cl := mkClient (tree_ cl) (lookup_mode_ cl) (snapshot_in_flight_ cl) (snapshot_replay_ cl) (snapshot_replay_overflow_ cl) (local_mutations_ cl) (cache_ cl) (rs_requested_ cl) q s (pf_stop_ cl) n (stats_ cl).
Definition with_stats s cl := mkClient (tree_ cl) (lookup_mode_ cl) (snapshot_in_flight_ cl) (snapshot_replay_ cl) (snapshot_replay_overflow_ cl) (local_mutations_ cl) (cache_ cl) (rs_requested_ cl) (pf_queue_ cl) (pf_seen_ cl) (pf_stop_ cl) (pf_pending_ cl) s.

Definition client_new (mode : LookupMode) : Client :=
  mkClient tree_new mode false [] false ∅ (cache_new (Z.shiftl 256 20)) false [] ∅ false 0 (mkCStats 0 0 0 0 0 0 0 0).

(** ** Mutations *)

Definition note_mutation (path : bytes) (generation : Z) (cl : Client) : Client :=
  let l := if 65536 <? Z.of_nat (size (local_mutations_ cl)) then ∅ else local_mutations_ cl in
  with_local (<[normalize_path path := generation]> l) cl.

Definition create_file_request (path : bytes) (mode : Z) : MsgType.t * bytes :=
  (MsgType.CreateRequest, write_create_request (mkCreateRequest path mode)).
Definition create_file (cl : Client) (path : bytes) (r : Result Pending) : Client * Result unit :=
  match decode_reply MsgType.CreateResponse (attr ← read_attributes; gen ← take_ack; mret (attr, gen)) r with
  | Err e => (cl, Err e)
  | Ok (attr, gen) => (note_mutation path gen (with_tree (upsert_path (tree_ cl) path attr).1 cl), Ok ())
  end.

Definition write_request (path : bytes) (offset : Z) (data : bytes) : MsgType.t * bytes :=
  (MsgType.WriteRequest, write_write_request (mkWriteRequest path offset data)).
Definition write (cl : Client) (now : Z) (path : bytes) (offset : Z) (r : Result Pending) : Client * Result Z :=
  match decode_reply MsgType.WriteResponse read_write_response r with
  | Err e => (cl, Err e)
  | Ok resp =>
      let e := wrap 64 (offset + wr_written resp) in
      let cl := with_cache (drop_cached (cache_ cl) path) cl in
      let t := tree_ cl in
      let t :=
        match lookup t path (lookup_mode_ cl) with
        | Some id =>
            let a := n_attr (node t id) in
            (set_attributes t id (mkAttr (Z.max (a_size a) e) (bump_mtime now (a_mtime_ns a)) (a_mode a) (a_kind a))).1
        | None => (upsert_path t path (mkAttr e (bump_mtime now 0) 420 File)).1
        end in
      (note_mutation path (wr_generation resp) (with_tree t cl), Ok (wr_written resp))
  end.

Definition truncate_request (path : bytes) (size : Z) : MsgType.t * bytes :=
  (MsgType.TruncateRequest, write_truncate_request (mkTruncateRequest path size)).
Definition truncate (cl : Client) (now : Z) (path : bytes) (size : Z) (r : Result Pending) : Client * Result unit :=
  match decode_reply MsgType.Ok take_ack r with
  | Err e => (cl, Err e)
  | Ok gen =>
      let cl := with_cache (drop_cached (cache_ cl) path) cl in
      let t := tree_ cl in
      let t :=
        match lookup t path (lookup_mode_ cl) with
        | Some id =>
            let a := n_attr (node t id) in
            (set_attributes t id (mkAttr size (bump_mtime now (a_mtime_ns a)) (a_mode a) (a_kind a))).1
        | None => t
        end in
      (note_mutation path gen (with_tree t cl), Ok ())
  end.

Definition mkdir_request (path : bytes) (mode : Z) : MsgType.t * bytes :=
  (MsgType.MkdirRequest, write_mkdir_request (mkMkdirRequest path mode)).
Definition mkdir (cl : Client) (path : bytes) (mode : Z) (r : Result Pending) : Client * Result unit :=
  match decode_reply MsgType.Ok take_ack r with
  | Err e => (cl, Err e)
  | Ok gen => (note_mutation path gen (with_tree (upsert_path (tree_ cl) path (mkAttr 0 0 mode Directory)).1 cl), Ok ())
  end.

Definition unlink_request (path : bytes) : MsgType.t * bytes :=
  (MsgType.UnlinkRequest, write_path_request (mkPathRequest path)).
Definition unlink (cl : Client) (path : bytes) (r : Result Pending) : Client * Result unit :=
  match decode_reply MsgType.Ok take_ack r with
  | Err e => (cl, Err e)
  | Ok gen =>
      let cl := with_cache (drop_cached (cache_ cl) path) cl in
      (note_mutation path gen (with_tree (remove_path (tree_ cl) path (lookup_mode_ cl)).1 cl), Ok ())
  end.

Definition rmdir_request (path : bytes) : MsgType.t * bytes :=
  (MsgType.RmdirRequest, write_path_request (mkPathRequest path)).
Definition rmdir (cl : Client) (path : bytes) (r : Result Pending) : Client * Result unit :=
  match decode_reply MsgType.Ok take_ack r with
  | Err e => (cl, Err e)
  | Ok gen =>
      let cl := with_cache (drop_cached_prefix (cache_ cl) path) cl in
      (note_mutation path gen (with_tree (remove_path (tree_ cl) path (lookup_mode_ cl)).1 cl), Ok ())
  end.

Definition rename_request (from to : bytes) : MsgType.t * bytes :=
  (MsgType.RenameRequest, write_rename_request (mkRenameRequest from to)).

(** Removes what [path] resolves to, unless that is [id]. *)
Definition remove_other (t : MetadataTree M) (mode : LookupMode) (path : bytes) (id : option Z) : MetadataTree M :=
  match lookup t path mode with
  | Some v => if bool_decide (Some v = id) then t else (MetadataTree.remove t v).1
  | None => t
  end.

(** The move of the node itself, once the agent has renamed. *)
Definition rename_node (t : MetadataTree M) (mode : LookupMode) (nfrom nto : bytes) : MetadataTree M :=
  let id := lookup t nfrom mode in
  let t := remove_other t mode nto id in
  match id with
  | None => t
  | Some id =>
      let '(parent, leaf) := split_parent nto in
      let '(t, new_parent) := if bool_decide (parent = []) then (t, Ok root) else ensure_directory_path t parent in
      match new_parent with
      | Err _ => t
      | Ok np =>
          match MetadataTree.rename t id np leaf with
          | (t, Ok _) => t
          | (t, Err _) => (MetadataTree.rename (remove_other t mode nto (Some id)) id np leaf).1
          end
      end
  end.

Definition rename (cl : Client) (from to : bytes) (r : Result Pending) : Client * Result unit :=
  match decode_reply MsgType.Ok take_ack r with
  | Err e => (cl, Err e)
  | Ok gen =>
      let cl := with_cache (drop_cached (drop_cached (cache_ cl) from) to) cl in
      let nfrom := normalize_path from in
      let nto := normalize_path to in
      if bool_decide (nfrom = nto) then (cl, Ok ())
      else
        let cl :=
          match lookup (tree_ cl) nfrom (lookup_mode_ cl) with
          | Some src =>
              if is_dir (node (tree_ cl) src)
              then with_cache (drop_cached_prefix (drop_cached_prefix (cache_ cl) nfrom) nto) cl else cl
          | None => cl
          end in
        let cl := note_mutation nto gen (note_mutation nfrom gen cl) in
        (with_tree (rename_node (tree_ cl) (lookup_mode_ cl) nfrom nto) cl, Ok ())
  end.

(** ** Reads *)

Definition resolve_for_read (cl : Client) (path : bytes) : ReadTarget :=
  let t := tree_ cl in
  let '(id, canonical) :=
    match lookup t path Exact with
    | Some id => (Some id, [])
    | None =>
        match lookup_mode_ cl with
        | Exact => (None, [])
        | m => match lookup t path m with Some id => (Some id, path_of t id c_slash) | None => (None, []) end
        end
    end in
  match id with
  | None => mkTarget false 0 0 canonical
  | Some id =>
      let a := n_attr (node t id) in
      mkTarget (bool_decide (a_kind a = File)) (a_mtime_ns a) (a_size a) canonical
  end.

Definition read_key (t : ReadTarget) (path : bytes) : bytes :=
  if bool_decide (t_canonical t = []) then path else t_canonical t.

Definition child_path (dir name : bytes) : bytes := if bool_decide (dir = []) then name else dir ++ c_slash :: name.

(** A file the cache may hold whole and read-ahead may fetch. *)
Definition fetchable (a : Attributes) : bool :=
  bool_decide (a_kind a = File) && negb (a_size a =? 0) && (a_size a <=? kMaxCacheableFile).

(** The read-ahead batch of a miss: the target and its siblings, within 256
    files and 2 MiB; each path with the version it will be cached under. *)
Definition read_ahead_step (t : MetadataTree M) (dir target : bytes) (st : list (bytes * (Z * Z)) * Z) (c : Z)
    : list (bytes * (Z * Z)) * Z :=
  let '(batch, bytes) := st in
  if (zlen batch >=? 256) || (bytes >=? Z.shiftl 2 20) then st
  else
    let a := n_attr (node t c) in
    if negb (fetchable a) then st
    else
      let p := child_path dir (name t c) in
      if bool_decide (p = target) then st
      else (batch ++ [(p, (a_mtime_ns a, a_size a))], bytes + a_size a).

Definition read_ahead (t : MetadataTree M) (target : bytes) (mtime size : Z) : list (bytes * (Z * Z)) :=
  let dir := (split_parent target).1 in
  let start := ([(target, (mtime, size))], size) in
  match lookup t dir Exact with
  | Some did => if is_dir (node t did) then (foldl (read_ahead_step t dir target) start (for_each_child t did)).1 else start.1
  | None => start.1
  end.

(** Caches what came back for a batch. *)
Definition cache_fetched (c : ReadCache) (batch : list (bytes * (Z * Z))) (res : list (option bytes)) : ReadCache :=
  foldl (λ c '((p, (m, s)), d), match d with Some d => cache_put c p m s d | None => c end) c (zip batch res).

Definition read_many_request (batch : list (bytes * (Z * Z))) : MsgType.t * bytes :=
  (MsgType.ReadManyRequest, write_read_many_request (mkReadManyRequest batch.*1)).
Definition read_remote_request (path : bytes) (offset length : Z) : MsgType.t * bytes :=
  (MsgType.ReadRequest, write_read_request (mkReadRequest path offset length)).

Definition count_hit (cl : Client) : Client :=
  let s := stats_ cl in
  with_stats (mkCStats (st_batches s) (st_ops s) (st_generation s) (st_snapshot_bytes s) (st_hits s + 1) (st_misses s)
                (st_prefetch_files s) (st_prefetch_bytes s)) cl.
Definition count_miss (cl : Client) : Client :=
  let s := stats_ cl in
  with_stats (mkCStats (st_batches s) (st_ops s) (st_generation s) (st_snapshot_bytes s) (st_hits s) (st_misses s + 1)
                (st_prefetch_files s) (st_prefetch_bytes s)) cl.

Definition enqueue_prefetch (dir : bytes) (cl : Client) : Client :=
  if pf_stop_ cl then cl
  else if bool_decide (dir ∈ pf_seen_ cl) then cl
  else with_prefetch (pf_queue_ cl ++ [dir]) ({[dir]} ∪ pf_seen_ cl) (pf_pending_ cl + 1) cl.

(** [many] and [one] are the outcomes of the bulk and of the single request. *)
Definition read (cl : Client) (path : bytes) (offset length : Z) (many one : Result Pending) : Client * Result bytes :=
  let t := resolve_for_read cl path in
  let key := read_key t path in
  if negb (t_is_file t) || (t_size t >? kMaxCacheableFile) then (cl, read_remote one)
  else
    match cache_hit (cache_ cl) key (t_mtime_ns t) (t_size t) with
    | (c, Some d) => (count_hit (with_cache c cl), Ok (slice d offset length))
    | (c, None) =>
        let cl := with_cache c cl in
        let batch := read_ahead (tree_ cl) key (t_mtime_ns t) (t_size t) in
        let done cl d :=
          let cl := count_miss cl in
          let cl := if zlen batch >=? 256 then enqueue_prefetch (split_parent key).1 cl else cl in
          (cl, Ok (slice d offset length)) in
        match read_many (List.length batch) many with
        | Ok (Some d :: res) => done (with_cache (cache_fetched (cache_ cl) batch (Some d :: res)) cl) d
        | _ =>
            match read_remote one with
            | Err e => (cl, Err e)
            | Ok d => done (with_cache (cache_put (cache_ cl) key (t_mtime_ns t) (t_size t) d) cl) d
            end
        end
    end.

(** [read_into] with a buffer of [room] bytes: what it stores there. *)
Definition read_into (cl : Client) (path : bytes) (offset room : Z) (many one : Result Pending) : Client * Result bytes :=
  let t := resolve_for_read cl path in
  let key := read_key t path in
  let miss cl :=
    match read cl key offset (Z.min room 0xFFFFFFFF) many one with
    | (cl, Err e) => (cl, Err e)
    | (cl, Ok d) => (cl, Ok (take (Z.to_nat (Z.min room (zlen d))) d))
    end in
  if t_is_file t && (t_size t <=? kMaxCacheableFile) then
    match cache_hit (cache_ cl) key (t_mtime_ns t) (t_size t) with
    | (c, Some d) => (count_hit (with_cache c cl), Ok (copy_out d offset room))
    | (c, None) => miss (with_cache c cl)
    end
  else miss cl.

Definition readlink_request (path : bytes) : MsgType.t * bytes :=
  (MsgType.ReadlinkRequest, write_path_request (mkPathRequest path)).
Definition readlink (cl : Client) (path : bytes) (r : Result Pending) : Client * Result bytes :=
  match link_cache_ (cache_ cl) !! path with
  | Some target => (cl, Ok target)
  | None =>
      match decode_reply MsgType.ReadlinkResponse read_readlink_response r with
      | Err e => (cl, Err e)
      | Ok resp => (with_cache (set_links (cache_ cl) (<[path := rl_target resp]> (link_cache_ (cache_ cl)))) cl, Ok (rl_target resp))
      end
  end.

(** ** Read-ahead *)

(** Files of a directory the prefetcher would fetch. *)
Definition prefetch_files (t : MetadataTree M) (dir : bytes) : list (bytes * (Z * Z)) :=
  match lookup t dir Exact with
  | Some id =>
      if is_dir (node t id) then
        omap (λ c, let a := n_attr (node t c) in
                   if fetchable a then Some (child_path dir (name t c), (a_mtime_ns a, a_size a)) else None)
          (for_each_child t id)
      else []
  | None => []
  end.

(** [flush]: [ask] answers the bulk request for a batch. *)
Definition prefetch_flush (ask : list (bytes * (Z * Z)) → Result Pending) (batch : list (bytes * (Z * Z))) (cl : Client) : Client :=
  if bool_decide (batch = []) || pf_stop_ cl then cl
  else
    match read_many (List.length batch) (ask batch) with
    | Err _ => cl
    | Ok res =>
        let got := omap id res in
        let s := stats_ cl in
        with_stats (mkCStats (st_batches s) (st_ops s) (st_generation s) (st_snapshot_bytes s) (st_hits s) (st_misses s)
                      (st_prefetch_files s + zlen got) (st_prefetch_bytes s + foldr (λ d n, zlen d + n) 0 got))
          (with_cache (cache_fetched (cache_ cl) batch res) cl)
    end.

(** Cached already at this version. *)
Definition cached_at (c : ReadCache) (p : bytes) (m s : Z) : bool :=
  match rcache_ c !! p with Some e => (ce_mtime e =? m) && (ce_size e =? s) | None => false end.

(** The loop over the files: skips what is cached, flushes a batch that is full. *)
Fixpoint prefetch_batches (ask : list (bytes * (Z * Z)) → Result Pending) (batch : list (bytes * (Z * Z))) (total : Z)
    (files : list (bytes * (Z * Z))) (cl : Client) : Client :=
  match files with
  | [] => prefetch_flush ask batch cl
  | (p, (m, s)) :: files =>
      if pf_stop_ cl then prefetch_flush ask batch cl
      else if cached_at (cache_ cl) p m s then prefetch_batches ask batch total files cl
      else
        let batch := batch ++ [(p, (m, s))] in
        let total := total + s in
        if (zlen batch >=? kPrefetchBatchCount) || (total >=? kPrefetchBatchBytes)
        then prefetch_batches ask [] 0 files (prefetch_flush ask batch cl)
        else prefetch_batches ask batch total files cl
  end.

(** One round of [prefetch_loop]: the directory at the head of the queue. *)
Definition prefetch_round (ask : list (bytes * (Z * Z)) → Result Pending) (cl : Client) : Client :=
  match pf_queue_ cl with
  | [] => cl
  | dir :: queue =>
      if pf_stop_ cl then cl
      else
        let cl := with_prefetch queue (pf_seen_ cl) (pf_pending_ cl) cl in
        let cl := prefetch_batches ask [] 0 (prefetch_files (tree_ cl) dir) cl in
        with_prefetch (pf_queue_ cl) (pf_seen_ cl) (pf_pending_ cl - 1) cl
  end.

(** What [wait_prefetch_idle] waits for. *)
Definition prefetch_idle (cl : Client) : bool := pf_stop_ cl || ((pf_pending_ cl =? 0) && bool_decide (pf_queue_ cl = [])).

(** The bytes of a directory's own fetchable files. *)
Definition dir_bytes (t : MetadataTree M) (dir : Z) : Z :=
  foldr (λ c n, (if fetchable (n_attr (node t c)) then a_size (n_attr (node t c)) else 0) + n) 0 (for_each_child t dir).

(** The walk of [warm_cache]: the directories that fit the budget, in order, and
    the budget used.  A node is pushed once, so the nodes bound the rounds. *)
Fixpoint warm_loop (fuel : nat) (t : MetadataTree M) (cap budget : Z) (stack : list Z) : list Z * Z :=
  match fuel, stack with
  | S fuel, id :: stack =>
      if negb (is_dir (node t id)) then warm_loop fuel t cap budget stack
      else
        let cs := for_each_child t id in
        let stack := foldl (λ st c, if is_dir (node t c) then c :: st else st) stack cs in
        let n := dir_bytes t id in
        if (n =? 0) || (budget + n >? cap) then warm_loop fuel t cap budget stack
        else let '(ds, b) := warm_loop fuel t cap (budget + n) stack in (id :: ds, b)
  | _, _ => ([], budget)
  end.

Definition warm_cache (cl : Client) : Client * Z :=
  let t := tree_ cl in
  let dirs := (warm_loop (length (nodes_ t)) t (rcache_cap_ (cache_ cl)) 0 [root]).1 in
  (foldl (λ cl d, enqueue_prefetch d cl) cl ((λ d, path_of t d c_slash) <$> dirs), zlen dirs).

(** ** Invalidations *)

(** What one operation does to the tree. *)
Definition apply_op (mode : LookupMode) (t : MetadataTree M) (op : InvalidationOp) : MetadataTree M :=
  match op_kind op with
  | Upsert => (upsert_path t (op_path op) (op_attr op)).1
  | Remove => (remove_path t (op_path op) mode).1
  | Rescan => t
  end.

(** What it reports, and whether it removes a directory. *)
Definition report_op (mode : LookupMode) (t : MetadataTree M) (op : InvalidationOp) : list AppliedChange * list bytes :=
  match op_kind op with
  | Upsert =>
      let existed := bool_decide (lookup t (op_path op) mode ≠ None) in
      let change := if is_move (op_change op) then op_change op else if existed then Modified else Created in
      ([mkApplied change (op_path op) (op_cookie op) (a_kind (op_attr op)) false], [])
  | Remove =>
      let id := lookup t (op_path op) mode in
      let dirs := match id with Some i => if is_dir (node t i) then [op_path op] else [] | None => [] end in
      let moved := bool_decide (op_change op = MovedFrom) in
      let kind := match id with Some i => a_kind (n_attr (node t i)) | None => File end in
      (if bool_decide (id ≠ None) || moved
       then [mkApplied (if moved then MovedFrom else Removed) (op_path op) (op_cookie op) kind false] else [], dirs)
  | Rescan => ([], [])
  end.

(** The state threaded through the operations of a batch. *)
Record Applying := mkApplying {
  ap_tree : MetadataTree M;
  ap_local : gmap bytes Z;
  ap_applied : list AppliedChange;
  ap_dirs : list bytes;
  ap_rescan : bool
}.

Definition apply_step (mode : LookupMode) (gen : Z) (s : Applying) (op : InvalidationOp) : Applying :=
  let go local :=
    let '(rep, dirs) := report_op mode (ap_tree s) op in
    mkApplying (apply_op mode (ap_tree s) op) local (ap_applied s ++ rep) (ap_dirs s ++ dirs)
      (ap_rescan s || bool_decide (op_kind op = Rescan)) in
  if bool_decide (op_kind op = Rescan) then go (ap_local s)
  else
    match ap_local s !! op_path op with
    | Some g => if gen <=? g then s else go (delete (op_path op) (ap_local s))
    | None => go (ap_local s)
    end.

Definition apply_ops (mode : LookupMode) (gen : Z) (t : MetadataTree M) (local : gmap bytes Z) (ops : list InvalidationOp) : Applying :=
  foldl (apply_step mode gen) (mkApplying t local [] [] false) ops.

Definition record_batch (b : InvalidationBatch) (cl : Client) : Client :=
  if negb (snapshot_in_flight_ cl) then cl
  else if zlen (snapshot_replay_ cl) <? kMaxSnapshotReplay
  then with_recording true (snapshot_replay_ cl ++ [b]) (snapshot_replay_overflow_ cl) cl
  else with_recording true (snapshot_replay_ cl) true cl.

(** The client after the frame and what the hook is given (nothing when the list
    is empty, or when the payload does not decode). *)
Definition apply_invalidation (cl : Client) (payload : bytes) : Client * list AppliedChange :=
  match read_invalidation payload with
  | Err _ => (cl, [])
  | Ok (b, _) =>
      let s := apply_ops (lookup_mode_ cl) (b_generation b) (tree_ cl) (local_mutations_ cl) (b_ops b) in
      let cl := record_batch b (with_local (ap_local s) (with_tree (ap_tree s) cl)) in
      let applied := repair_move_pairs (ap_applied s) in
      let c := foldl drop_cached_prefix (cache_ cl) (ap_dirs s) in
      let cl := if ap_rescan s then with_rescan true cl else cl in
      let c := foldl (λ c op, drop_cached c (op_path op)) c (b_ops b) in
      let c := if ap_rescan s then set_links c ∅ else c in
      let cl := with_cache c cl in
      let seen := foldl (λ sn op, sn ∖ {[(split_parent (op_path op)).1]}) (pf_seen_ cl) (b_ops b) in
      let cl := with_prefetch (pf_queue_ cl) seen (pf_pending_ cl) cl in
      let st := stats_ cl in
      (with_stats (mkCStats (st_batches st + 1) (st_ops st + zlen (b_ops b)) (b_generation b) (st_snapshot_bytes st)
                     (st_hits st) (st_misses st) (st_prefetch_files st) (st_prefetch_bytes st)) cl, applied)
  end.

(** ** Snapshots *)

Definition fetch_begin (cl : Client) : Client := with_recording true [] (snapshot_replay_overflow_ cl) cl.

(** The replay on top of a loaded snapshot: removals resolve exactly. *)
Definition replay_op (t : MetadataTree M) (op : InvalidationOp) : MetadataTree M :=
  match op_kind op with
  | Upsert => (upsert_path t (op_path op) (op_attr op)).1
  | Remove => (remove_path t (op_path op) Exact).1
  | Rescan => t
  end.
Definition replay (snap_gen : Z) (t : MetadataTree M) (batches : list InvalidationBatch) : MetadataTree M :=
  foldl (λ t b, if b_generation b <=? snap_gen then t else foldl replay_op t (b_ops b)) t batches.

(** [fetch_snapshot] from the reply on. *)
Definition fetch_finish (cl : Client) (r : Result Pending) : Client * Result unit :=
  let stop cl := with_recording false [] false cl in
  match expect MsgType.Snapshot r with
  | Err e => (stop cl, Err e)
  | Ok p =>
      if negb (p_stream_ok p) then (stop cl, Err Corrupt)
      else
        match load_snapshot (tree_ cl) (snapshot_of p) with
        | (t, Err e) => (stop (with_tree t cl), Err e)
        | (t, Ok _) =>
            let t := replay (p_snap_generation p) t (snapshot_replay_ cl) in
            let incomplete := snapshot_replay_overflow_ cl in
            let cl := stop (with_tree t cl) in
            let st := stats_ cl in
            let cl := with_stats (mkCStats (st_batches st) (st_ops st) (p_snap_generation p) (p_snap_bytes p)
                                    (st_hits st) (st_misses st) (st_prefetch_files st) (st_prefetch_bytes st)) cl in
            (if incomplete then with_rescan true cl else cl, Ok ())
        end
  end.
End client.
Arguments Client : clear implicits.

(** ** Back-off between snapshots *)

Definition kRescanMinInterval : Z := 500.
Definition kRescanMaxInterval : Z := 30000.

(** One pass of [rescan_loop] requested at [now], in milliseconds: when the
    fetch may start, and the state after it.  [None]: no rescan yet. *)
Record Backoff := mkBackoff { rs_last_ : option Z; rs_backoff_ : Z }.
Definition backoff_new : Backoff := mkBackoff None kRescanMinInterval.

(** [late] is how much later than the earliest time the thread wakes. *)
Definition rescan_pass (b : Backoff) (now late : Z) : Backoff * Z :=
  match rs_last_ b with
  | None => (mkBackoff (Some (now + late)) (rs_backoff_ b), now + late)
  | Some last =>
      let bo := if now - last >? kRescanMaxInterval then kRescanMinInterval else rs_backoff_ b in
      let start := Z.max now (last + bo) + late in
      (mkBackoff (Some start) (Z.min (bo * 2) kRescanMaxInterval), start)
  end.
