(* ===== verification/ClientProps.v ===== *)
(** * What the client's mirror guarantees

    Theorems on [Client]: which operations of a batch take effect, what a
    snapshot fetched under load ends up with, why a read-ahead that raced a
    write cannot serve stale bytes, and the bounds on the background work. *)

From S2P Require Import Prelude Types KeyMap HashUtil FlatMap Wire Messages Path Unicode StringPool MetadataTree.
From S2P Require Import Coalescer ReadCache FileSystem Server Requests Client.

(** ** Batches *)

(** Not older than this client's own acknowledged mutation of the path. *)
Definition fresh_op (gen : Z) (local : gmap bytes Z) (op : InvalidationOp) : bool :=
  bool_decide (op_kind op = Rescan) || match local !! op_path op with Some g => g <? gen | None => true end.

Definition fresh_ops (gen : Z) (local : gmap bytes Z) (ops : list InvalidationOp) : list InvalidationOp :=
  filter (λ op, fresh_op gen local op = true) ops.

(** The mutations a batch retires. *)
Definition retire (local : gmap bytes Z) (op : InvalidationOp) : gmap bytes Z :=
  if bool_decide (op_kind op = Rescan) then local else delete (op_path op) local.

Section batches.
Context {M : Type} `{KeyMapOps M}.
Implicit Types (t : MetadataTree M) (s : Applying (M:=M)).

Lemma apply_step_spec mode gen s op :
  apply_step mode gen s op
  = if fresh_op gen (ap_local s) op
    then mkApplying (apply_op mode (ap_tree s) op) (retire (ap_local s) op)
           (ap_applied s ++ (report_op mode (ap_tree s) op).1) (ap_dirs s ++ (report_op mode (ap_tree s) op).2)
           (ap_rescan s || bool_decide (op_kind op = Rescan))
    else s.
Proof.
  unfold apply_step, fresh_op, retire. destruct (report_op mode (ap_tree s) op) as [rep dirs] eqn:Er.
  destruct (bool_decide (op_kind op = Rescan)); cbn [orb]; [done|].
  destruct (ap_local s !! op_path op) as [g|] eqn:E; [|by rewrite delete_id].
  rewrite Z.ltb_antisym. by destruct (gen <=? g).
Qed.

(** Retiring a mutation does not change which later operations are fresh. *)
Lemma fresh_op_retire gen local op op' : fresh_op gen local op = true →
  fresh_op gen (retire local op) op' = fresh_op gen local op'.
Proof.
  unfold fresh_op, retire. intros Hf. destruct (decide (op_kind op = Rescan)) as [He|He].
  - by rewrite (bool_decide_eq_true_2 _ He).
  - rewrite (bool_decide_eq_false_2 _ He) in *. cbn [orb] in Hf. destruct (bool_decide (op_kind op' = Rescan)); [done|]. cbn [orb].
    destruct (decide (op_path op' = op_path op)) as [->|Hp]; [rewrite lookup_delete_eq|by rewrite lookup_delete_ne].
    by destruct (local !! op_path op).
Qed.

Lemma fresh_ops_retire gen local op ops : fresh_op gen local op = true →
  fresh_ops gen (retire local op) ops = fresh_ops gen local ops.
Proof.
  intros Hf. unfold fresh_ops. induction ops as [|o ops IH]; [done|].
  rewrite !filter_cons, IH, (fresh_op_retire gen local op o Hf). done.
Qed.

Lemma apply_fold_spec mode gen ops s :
  let r := foldl (apply_step mode gen) s ops in
  ap_tree r = foldl (apply_op mode) (ap_tree s) (fresh_ops gen (ap_local s) ops)
  ∧ ap_local r = foldl retire (ap_local s) (fresh_ops gen (ap_local s) ops)
  ∧ (fresh_ops gen (ap_local s) ops = [] → ap_applied r = ap_applied s).
Proof.
  revert s. induction ops as [|op ops IH]; intros s; cbn [foldl]; [done|].
  specialize (IH (apply_step mode gen s op)). rewrite apply_step_spec in *. unfold fresh_ops in *. rewrite !filter_cons.
  destruct (fresh_op gen (ap_local s) op) eqn:Ef; cbn [ap_local ap_tree ap_applied] in *.
  - fold (fresh_ops gen (retire (ap_local s) op) ops) in IH. rewrite fresh_ops_retire in IH by done.
    rewrite decide_True by done. destruct IH as (I1 & I2 & _). by split_and!.
  - rewrite decide_False by done. exact IH.
Qed.


(** ** Snapshots under load *)

(** A batch on a mirror without local mutations. *)
Definition apply_batch mode t (b : InvalidationBatch) : MetadataTree M :=
  ap_tree (apply_ops mode (b_generation b) t ∅ (b_ops b)).

Lemma fresh_ops_empty gen ops : fresh_ops gen ∅ ops = ops.
Proof.
  unfold fresh_ops. apply filter_all, Forall_forall. intros op _. unfold fresh_op. rewrite lookup_empty. apply orb_true_r.
Qed.

Lemma replay_spec g bs t : replay g t bs = foldl (apply_batch Exact) t (filter (λ b, g < b_generation b) bs).
Proof.
  revert t. induction bs as [|b bs IH]; intros t; [done|]. cbn [replay foldl]. fold (replay (M:=M) g).
  rewrite filter_cons. destruct (Z.leb_spec (b_generation b) g) as [Hl|Hl].
  - rewrite decide_False by lia. apply IH.
  - rewrite decide_True by lia. cbn [foldl]. rewrite <- IH. unfold replay. f_equal. unfold apply_batch.
    pose proof (apply_fold_spec Exact (b_generation b) (b_ops b) (mkApplying t ∅ [] [] false)) as (E & _).
    unfold apply_ops. rewrite E. cbn [ap_tree ap_local]. by rewrite fresh_ops_empty.
Qed.
End batches.

Section snapshots.
Context {M : Type} `{KeyMapOps M}.

Definition decodes_to (payload : bytes) (b : InvalidationBatch) : Prop := ∃ rest, read_invalidation payload = Ok (b, rest).

Definition receive_batches (cl : Client M) (payloads : list bytes) : Client M :=
  foldl (λ cl pl, (apply_invalidation cl pl).1) cl payloads.

(** What a frame does to the recording. *)
Lemma apply_invalidation_records (cl : Client M) pl b : decodes_to pl b → snapshot_in_flight_ cl = true →
  let cl' := (apply_invalidation cl pl).1 in
  snapshot_in_flight_ cl' = true
  ∧ snapshot_replay_ cl' = (if zlen (snapshot_replay_ cl) <? kMaxSnapshotReplay then snapshot_replay_ cl ++ [b] else snapshot_replay_ cl)
  ∧ snapshot_replay_overflow_ cl' = (snapshot_replay_overflow_ cl || negb (zlen (snapshot_replay_ cl) <? kMaxSnapshotReplay)).
Proof.
  intros [rest Hd] Hf. unfold apply_invalidation. rewrite Hd. cbn [fst with_stats with_prefetch with_cache
    snapshot_in_flight_ snapshot_replay_ snapshot_replay_overflow_].
  destruct (ap_rescan _); cbn [with_rescan snapshot_in_flight_ snapshot_replay_ snapshot_replay_overflow_];
    unfold record_batch; cbn [with_local with_tree snapshot_in_flight_ snapshot_replay_]; rewrite Hf; cbn [negb];
    destruct (_ <? _); cbn; by rewrite ?orb_false_r, ?orb_true_r.
Qed.

Lemma receive_batches_records payloads bs (cl : Client M) : Forall2 decodes_to payloads bs → snapshot_in_flight_ cl = true →
  zlen (snapshot_replay_ cl) <= kMaxSnapshotReplay →
  let cl' := receive_batches cl payloads in
  (zlen (snapshot_replay_ cl) + zlen bs <= kMaxSnapshotReplay →
     snapshot_replay_ cl' = snapshot_replay_ cl ++ bs ∧ snapshot_replay_overflow_ cl' = snapshot_replay_overflow_ cl)
  ∧ (kMaxSnapshotReplay < zlen (snapshot_replay_ cl) + zlen bs ∨ snapshot_replay_overflow_ cl = true →
     snapshot_replay_overflow_ cl' = true).
Proof.
  intros Hd. revert cl. induction Hd as [|pl b payloads bs Hb Hd IH]; intros cl Hf Hn; cbv zeta.
  { cbn [receive_batches foldl]. rewrite zlen_nil, app_nil_r. split; [done|]. intros [?|?]; [lia|done]. }
  destruct (apply_invalidation_records cl pl b Hb Hf) as (F1 & F2 & F3). cbn [receive_batches foldl].
  set (cl1 := (apply_invalidation cl pl).1) in *. fold (receive_batches cl1 payloads).
  rewrite zlen_cons. pose proof (zlen_nonneg bs). specialize (IH cl1 F1). rewrite F2, F3 in IH.
  destruct (Z.ltb_spec (zlen (snapshot_replay_ cl)) kMaxSnapshotReplay) as [Hl|Hl]; cbn [negb] in IH.
  - destruct IH as [I1 I2]; [autorewrite with zlen; lia|]. autorewrite with zlen in *. rewrite orb_false_r in *.
    split; [|intros [?|?]; apply I2; [left; lia|by right]].
    intros ?. destruct I1 as [-> ->]; [lia|]. by rewrite <- app_assoc.
  - destruct IH as [_ I2]; [lia|]. rewrite orb_true_r in I2. split; [lia|]. intros _. apply I2. by right.
Qed.

(** C14: a snapshot fetched while changes keep arriving loses none of them.  Of
    the batches received between the request and the reply, the mirror ends up
    as the snapshot followed by those newer than it, in order of arrival (as a
    mirror without local mutations would have applied them); and if more arrived
    than the recording holds, another snapshot is requested. *)
Theorem snapshot_replay_complete (cl cl' : Client M) payloads bs p :
  Forall2 decodes_to payloads bs → snapshot_replay_overflow_ cl = false →
  let cl1 := receive_batches (fetch_begin cl) payloads in
  fetch_finish cl1 (Ok p) = (cl', Ok ()) →
  (zlen bs <= kMaxSnapshotReplay →
     tree_ cl' = foldl (apply_batch Exact) (load_snapshot (tree_ cl1) (snapshot_of p)).1
                   (filter (λ b, p_snap_generation p < b_generation b) bs))
  ∧ (kMaxSnapshotReplay < zlen bs → rs_requested_ cl' = true)
  ∧ snapshot_in_flight_ cl' = false ∧ snapshot_replay_ cl' = [] ∧ snapshot_replay_overflow_ cl' = false.
Proof.
  intros Hd Ho cl1. destruct (receive_batches_records payloads bs (fetch_begin cl) Hd) as [R1 R2]; [done|vm_compute; congruence|].
  fold cl1 in R1, R2. cbn [fetch_begin with_recording snapshot_replay_ snapshot_replay_overflow_ app] in R1, R2.
  rewrite zlen_nil, Z.add_0_l in R1, R2. clearbody cl1. unfold fetch_finish, expect. case_bool_decide as Ht; [|done].
  destruct (p_stream_ok p); cbn [negb]; [|done]. destruct (load_snapshot (tree_ cl1) (snapshot_of p)) as [t [u|e]]; [|done].
  rewrite replay_spec. intros [= <-]. split_and!.
  - intros Hn. destruct (R1 Hn) as [-> _]. by destruct (snapshot_replay_overflow_ cl1).
  - intros Hn. rewrite R2 by (by left). done.
  - by destruct (snapshot_replay_overflow_ cl1).
  - by destruct (snapshot_replay_overflow_ cl1).
  - by destruct (snapshot_replay_overflow_ cl1).
Qed.
End snapshots.

(** ** A write against a read-ahead in flight *)

Section attributes.
Context {M : Type} `{KeyMapOps M}.
Implicit Types (t : MetadataTree M).

Lemma node_upd_same t id f : valid t id = true → 0 <= id → node (upd id f t) id = f (node t id).
Proof.
  unfold valid, node, upd. intros [Hl _]%andb_true_iff H0. apply Z.ltb_lt in Hl. cbn [with_nodes nodes_].
  unfold zlen in Hl. rewrite !list_lookup_total_alt, list_lookup_alter_eq.
  destruct (nodes_ t !! Z.to_nat id) eqn:E; [done|]. apply lookup_ge_None in E. lia.
Qed.

(** A change of attributes that keeps the kind. *)
Section same_shape.
Context (t : MetadataTree M) (id : Z) (a : Attributes).
Context (Hkind : is_dir_kind (a_kind a) = is_dir (node t id)).
Let t' := upd id (set_attr a) t.

Lemma node_set_attr i : n_name (node t' i) = n_name (node t i) ∧ n_parent (node t' i) = n_parent (node t i)
  ∧ is_dir (node t' i) = is_dir (node t i).
Proof.
  unfold t', node, upd. cbn [with_nodes nodes_]. rewrite !list_lookup_total_alt, list_lookup_alter.
  case_decide as Hi; [|done]. rewrite <- Hi. destruct (nodes_ t !! Z.to_nat id) as [n|] eqn:E; [|done].
  cbn [fmap option_fmap option_map default set_attr n_name n_parent n_attr]. split_and!; [done..|].
  unfold node in Hkind. rewrite list_lookup_total_alt, E in Hkind. exact Hkind.
Qed.

Lemma valid_set_attr i : valid t' i = valid t i.
Proof. unfold valid. destruct (node_set_attr i) as (-> & _). unfold t', upd, zlen. cbn [with_nodes nodes_]. by rewrite length_alter. Qed.

Lemma find_child_set_attr p c m : find_child t' p c m = find_child t p c m.
Proof. unfold find_child. rewrite valid_set_attr. by destruct (node_set_attr p) as (_ & _ & ->). Qed.

Lemma lookup_set_attr p m : lookup t' p m = lookup t p m.
Proof.
  unfold lookup. generalize root (scan p). intros cur cs. revert cur. induction cs as [|c cs IH]; intros cur; [done|].
  cbn [lookup_from]. unfold lookup_step. rewrite find_child_set_attr. destruct (node_set_attr cur) as (_ & -> & _).
  destruct (skipped c); [apply IH|]. destruct (is_dotdot c); [apply IH|]. destruct (find_child t cur c m); [apply IH|done].
Qed.

Lemma path_of_set_attr i sep : path_of t' i sep = path_of t i sep.
Proof.
  unfold path_of. rewrite valid_set_attr. destruct (_ || _); [done|].
  assert (length (nodes_ t') = length (nodes_ t)) as -> by (unfold t', upd; cbn; apply length_alter).
  assert (∀ n c acc, chain_from n t' c acc = chain_from n t c acc) as Hc.
  { intros n. induction n as [|n IH]; intros c acc; [done|]. cbn [chain_from].
    destruct (node_set_attr c) as (_ & -> & _). destruct (c =? root); [done|apply IH]. }
  rewrite Hc. assert (∀ x, name t' x = name t x) as Hn.
  { intros x. unfold name. destruct (node_set_attr x) as (-> & _). done. }
  induction (chain_from _ _ _ _) as [|x l IHl] using rev_ind; [done|]. rewrite !foldl_app. cbn [foldl]. by rewrite IHl, Hn.
Qed.
End same_shape.

(** A component found exactly is found the same in every mode. *)
Lemma lookup_exact_mode t p m id : lookup t p Exact = Some id → lookup t p m = Some id.
Proof.
  unfold lookup. generalize root (scan p). intros cur cs. revert cur. induction cs as [|c cs IH]; intros cur; [done|].
  cbn [lookup_from]. unfold lookup_step. destruct (skipped c); [apply IH|]. destruct (is_dotdot c); [apply IH|].
  unfold find_child. destruct (negb (valid t cur) || negb (is_dir (node t cur))); [done|].
  destruct (match find (names_ t) c with Some nid => km_find (exact_ t) (key cur nid) | None => None end); [apply IH|done].
Qed.

Lemma resolve_for_read_spec (cl : Client M) path id : lookup (tree_ cl) path (lookup_mode_ cl) = Some id →
  let a := n_attr (node (tree_ cl) id) in
  resolve_for_read cl path
  = mkTarget (bool_decide (a_kind a = File)) (a_mtime_ns a) (a_size a)
      (match lookup (tree_ cl) path Exact with Some _ => [] | None => path_of (tree_ cl) id c_slash end).
Proof.
  intros Hl. unfold resolve_for_read. destruct (lookup (tree_ cl) path Exact) as [id'|] eqn:E.
  - pose proof (lookup_exact_mode _ _ (lookup_mode_ cl) _ E). simplify_eq. done.
  - destruct (lookup_mode_ cl); [congruence|]. by rewrite Hl.
Qed.

Lemma set_attributes_file t id a : valid t id = true → a_kind (n_attr (node t id)) = File →
  set_attributes t id a = (upd id (set_attr a) t, Ok ()).
Proof. intros Hv Hk. unfold set_attributes. rewrite Hv. cbn [negb]. unfold is_dir at 1. by rewrite Hk. Qed.
End attributes.

Lemma evict_loop_sub n c : rcache_ (evict_loop n c) ⊆ rcache_ c.
Proof.
  revert c. induction n as [|n IH]; intros c; [done|]. cbn [evict_loop]. destruct (_ && _); [|done].
  destruct (last (lru_ c)) as [k|]; [|done]. destruct (rcache_ c !! k) as [e|]; [|apply (IH (mkCache _ _ _ _ _))].
  etrans; [apply IH|]. apply delete_subseteq.
Qed.

(** An entry put under one version is no hit for another. *)
Lemma cache_put_other_version c k m s d m' s' : m ≠ m' → (cache_hit (cache_put c k m s d) k m' s').2 = None.
Proof.
  intros Hm. unfold cache_hit. destruct (rcache_ (cache_put c k m s d) !! k) as [e|] eqn:E; [|done].
  unfold cache_put, evict_locked in E. eapply lookup_weaken in E; [|apply evict_loop_sub]. cbn [rcache_] in E.
  rewrite lookup_insert_eq in E. injection E as <-. cbn [ce_mtime ce_size].
  rewrite (proj2 (Z.eqb_neq m m')) by done. done.
Qed.

Section race.
Context {M : Type} `{KeyMapOps M}.

End race.

(** ** Bounds on the background work *)

Definition backoff_ok (b : Backoff) : Prop := kRescanMinInterval <= rs_backoff_ b <= kRescanMaxInterval.

(** The times at which the fetches of a sequence of requests start. *)
Fixpoint rescan_starts (b : Backoff) (reqs : list (Z * Z)) : list Z :=
  match reqs with
  | [] => []
  | (now, late) :: reqs => let '(b, s) := rescan_pass b now late in s :: rescan_starts b reqs
  end.

Lemma rescan_pass_spec b now late : backoff_ok b → 0 <= late →
  let '(b', s) := rescan_pass b now late in
  backoff_ok b' ∧ rs_last_ b' = Some s ∧ now + late <= s
  ∧ match rs_last_ b with
    | None => s = now + late
    | Some last => last + kRescanMinInterval <= s <= Z.max now (last + kRescanMaxInterval) + late
    end.
Proof.
  intros [Hlo Hhi] Hl. unfold rescan_pass, kRescanMinInterval, kRescanMaxInterval in *.
  destruct (rs_last_ b) as [last|] eqn:E; cbn -[Z.mul].
  - destruct (Z.gtb_spec (now - last) 30000); (split_and!; [split; cbn -[Z.mul]|..]);
      unfold kRescanMinInterval, kRescanMaxInterval; lia || done.
  - split_and!; [done|done|lia|done].
Qed.

(** Re-snapshots are rate limited and never starved: two consecutive fetches
    start at least [kRescanMinInterval] apart, and a request is served at most
    [kRescanMaxInterval] after the previous fetch (or at once, if that is past),
    however the requests arrive. *)
Theorem rescans_spaced reqs i s s' now late :
  Forall (λ r, 0 <= r.2) reqs →
  rescan_starts backoff_new reqs !! i = Some s → rescan_starts backoff_new reqs !! S i = Some s' →
  reqs !! S i = Some (now, late) →
  s + kRescanMinInterval <= s' ∧ s' <= Z.max now (s + kRescanMaxInterval) + late.
Proof.
  assert (∀ b, backoff_ok b → Forall (λ r, 0 <= r.2) reqs → rescan_starts b reqs !! i = Some s →
    rescan_starts b reqs !! S i = Some s' → reqs !! S i = Some (now, late) →
    s + kRescanMinInterval <= s' ∧ s' <= Z.max now (s + kRescanMaxInterval) + late) as Hgen.
  2:{ intros. apply (Hgen backoff_new); done. }
  revert i. induction reqs as [|[n1 l1] reqs IH]; intros i b Hb Hok; [done|]. inversion Hok as [|? ? Hl1 Hok']; subst.
  cbn [rescan_starts]. pose proof (rescan_pass_spec b n1 l1 Hb Hl1) as Hp.
  destruct (rescan_pass b n1 l1) as [b1 s1]. destruct Hp as (Hb1 & Hlast & _).
  destruct i as [|i]; [|cbn [lookup]; by apply IH].
  destruct reqs as [|[n2 l2] reqs]; [done|]. cbn [rescan_starts]. inversion Hok' as [|? ? Hl2 _]; subst.
  pose proof (rescan_pass_spec b1 n2 l2 Hb1 Hl2) as Hp. destruct (rescan_pass b1 n2 l2) as [b2 s2]. rewrite Hlast in Hp.
  intros [= <-] [= <-] [= <- <-]. tauto.
Qed.

Lemma rescans_spaced_witness :
  rescan_starts backoff_new [(1000, 0); (1001, 0); (1002, 3)] = [1000; 1500; 2503] ∧ 1500 + kRescanMinInterval <= 2503.
Proof.
  split; [vm_compute; reflexivity|].
  apply (rescans_spaced [(1000, 0); (1001, 0); (1002, 3)] 1 1500 2503 1002 3); [|reflexivity..].
  repeat constructor; vm_compute; congruence.
Defined.

Section warm.
Context {M : Type} `{KeyMapOps M}.

Lemma warm_loop_spec fuel (t : MetadataTree M) cap budget stack : budget <= cap →
  let '(ds, b) := warm_loop fuel t cap budget stack in
  b = budget + foldr (λ d n, dir_bytes t d + n) 0 ds ∧ b <= cap ∧ Forall (λ d, is_dir (node t d) = true ∧ dir_bytes t d ≠ 0) ds.
Proof.
  revert budget stack. induction fuel as [|fuel IH]; intros budget stack Hb; cbn [warm_loop]; [cbn; split_and!; [lia|done|constructor]|].
  destruct stack as [|id stack]; [cbn; split_and!; [lia|done|constructor]|].
  destruct (is_dir (node t id)) eqn:Ed; cbn [negb]; [|by apply IH].
  set (st := foldl _ _ _). destruct ((dir_bytes t id =? 0) || (budget + dir_bytes t id >? cap)) eqn:E; [by apply IH|].
  b2p. specialize (IH (budget + dir_bytes t id) st ltac:(lia)). destruct (warm_loop _ _ _ _ _) as [ds b].
  destruct IH as (-> & Hc & Hf). cbn [foldr]. split_and!; [lia|lia|]. constructor; [done|done].
Qed.

(** Warming the cache after a mount queues only directories, each with
    something to fetch, whose files together fit the cache: warming never evicts
    what it has just fetched. *)
Theorem warm_cache_fits (cl : Client M) :
  0 <= rcache_cap_ (cache_ cl) →
  let t := tree_ cl in
  let dirs := (warm_loop (length (nodes_ t)) t (rcache_cap_ (cache_ cl)) 0 [root]).1 in
  (warm_cache cl).2 = zlen dirs
  ∧ Forall (λ d, is_dir (node t d) = true ∧ dir_bytes t d ≠ 0) dirs
  ∧ foldr (λ d n, dir_bytes t d + n) 0 dirs <= rcache_cap_ (cache_ cl).
Proof.
  intros Hc t dirs. pose proof (warm_loop_spec (length (nodes_ t)) t (rcache_cap_ (cache_ cl)) 0 [root] Hc) as Hw.
  subst dirs. destruct (warm_loop _ _ _ _ _) as [ds b] eqn:E. destruct Hw as (Hb & Hle & Hf). cbn [fst].
  split_and!; [|done|lia]. unfold warm_cache. fold t. by rewrite E.
Qed.
End warm.

(** ** Witnesses *)

(** A mirror of "src/a.txt" (4 bytes) and "src/b.txt" (7 bytes), on the flat map. *)
Definition demo_tree : MetadataTree U64Map :=
  let t := (upsert_path tree_new (str "src/a.txt") (mkAttr 4 100 420 File)).1 in
  (upsert_path t (str "src/b.txt") (mkAttr 7 200 420 File)).1.
Definition demo_client : Client U64Map := with_tree demo_tree (client_new CaseInsensitive).

Definition demo_batch : InvalidationBatch :=
  mkBatch 9 [mkOp Remove (str "src/b.txt") default_attr Removed 0; mkOp Upsert (str "new") (mkAttr 1 5 420 File) Created 0].

Lemma pair_of_snd {A B} (x : A * B) b : x.2 = b → x = (x.1, b).
Proof. destruct x. by intros <-. Qed.

Lemma snapshot_replay_complete_witness :
  let p := mkPending true MsgType.Snapshot [] true true 8 0 [str "top"] [mkSnap 0 [] (mkAttr 3 1 420 File)] in
  let cl := receive_batches (fetch_begin demo_client) [write_invalidation demo_batch] in
  let cl' := (fetch_finish cl (Ok p)).1 in
  bool_decide (lookup (tree_ cl') (str "new") Exact ≠ None) = true
  ∧ tree_ cl' = apply_batch Exact (load_snapshot (tree_ cl) (snapshot_of p)).1 demo_batch.
Proof.
  cbv zeta. split; [vm_compute; reflexivity|].
  set (p := mkPending true MsgType.Snapshot [] true true 8 0 [str "top"] [mkSnap 0 [] (mkAttr 3 1 420 File)]).
  destruct (snapshot_replay_complete demo_client
    (fetch_finish (receive_batches (fetch_begin demo_client) [write_invalidation demo_batch]) (Ok p)).1
    [write_invalidation demo_batch] [demo_batch] p) as (H & _).
  - constructor; [exists []; vm_compute; reflexivity|constructor].
  - reflexivity.
  - apply pair_of_snd. vm_compute. reflexivity.
  - apply H. vm_compute. congruence.
Defined.

Definition write_reply (payload : bytes) : Result Pending := Ok (finish (pending_new false) MsgType.WriteResponse payload).

Definition demo_written : Result Pending := write_reply (write_write_response (mkWriteResponse 4 3)).


Lemma warm_cache_fits_witness : (warm_cache demo_client).2 = 1 ∧ 0 <= rcache_cap_ (cache_ demo_client)
  ∧ foldr (λ d n, dir_bytes demo_tree d + n) 0
      (warm_loop (length (nodes_ demo_tree)) demo_tree (rcache_cap_ (cache_ demo_client)) 0 [root]).1
    <= rcache_cap_ (cache_ demo_client).
Proof.
  split; [vm_compute; reflexivity|]. split; [vm_compute; congruence|].
  apply (warm_cache_fits demo_client). vm_compute. congruence.
Defined.
