(* ===== verification/Walk.v ===== *)
(** * Depth-first walks of the client's tree

    Two parts of the program walk the mirror with an explicit stack: the warm-up
    of the cache ([RemoteRoot::warm_cache], [Client.warm_loop]) and the probe of
    [wsldrive fetch --lookups] ([lookup_paths]).  Both visit the directories in
    one order, [dirs_from]; here is that the order holds every directory of the
    tree exactly once and that the number of nodes bounds the rounds. *)

From S2P Require Import Prelude Types KeyMap HashUtil FlatMap Path Unicode StringPool MetadataTree Forest TreeIndex TreeLinks TreeInv TreeOps TreeSpec TreeRefine TreeExport TreeProps ReadCache Client ClientProps.

(** Sums over lists. *)
Definition sumZ {A} (f : A → Z) (l : list A) : Z := foldr (λ x n, f x + n) 0 l.

Lemma sumZ_app {A} (f : A → Z) l k : sumZ f (l ++ k) = sumZ f l + sumZ f k.
Proof. unfold sumZ. induction l as [|x l IH]; cbn; [done|]. rewrite IH. lia. Qed.

Lemma sumZ_bind {A B} (f : B → Z) (g : A → list B) l : sumZ f (l ≫= g) = sumZ (λ x, sumZ f (g x)) l.
Proof. induction l as [|x l IH]; [done|]. rewrite bind_cons, sumZ_app, IH. done. Qed.

Lemma sumZ_fmap {A B} (f : B → Z) (g : A → B) l : sumZ f (g <$> l) = sumZ (λ x, f (g x)) l.
Proof. unfold sumZ. induction l; cbn; lia. Qed.

Lemma sumZ_ext {A} (f g : A → Z) l : (∀ x, x ∈ l → f x = g x) → sumZ f l = sumZ g l.
Proof. unfold sumZ. induction l as [|x l IH]; cbn; [done|]. intros E. rewrite IH, (E x); [done|set_solver..]. Qed.

Lemma sumZ_nonneg {A} (f : A → Z) l : (∀ x, x ∈ l → 0 <= f x) → 0 <= sumZ f l.
Proof. unfold sumZ. induction l as [|x l IH]; cbn; [done|]. intros E. pose proof (E x ltac:(set_solver)). specialize (IH ltac:(set_solver)). lia. Qed.

#[global] Instance sumZ_proper {A} (f : A → Z) : Proper (Permutation ==> eq) (sumZ f).
Proof. unfold sumZ. induction 1; cbn; lia. Qed.

Lemma sumZ_filter {A} (f : A → Z) (P : A → Prop) `{∀ x, Decision (P x)} l : (∀ x, x ∈ l → ¬ P x → f x = 0) → sumZ f (filter P l) = sumZ f l.
Proof.
  induction l as [|x l IH]; [done|]. intros E. rewrite filter_cons. specialize (IH ltac:(set_solver)). unfold sumZ in *. cbn.
  case_decide as Hx; cbn; rewrite IH; [done|]. rewrite (E x) by (set_solver || done). done.
Qed.

Section walk.
Context {M : Type} `{KeyMap M}.
Implicit Types t : MetadataTree M.

Definition subdirs t (id : Z) : list Z := filter (λ c, is_dir (node t c) = true) (for_each_child t id).
Definition push_dirs t (id : Z) (stack : list Z) : list Z :=
  foldl (λ st c, if is_dir (node t c) then c :: st else st) stack (for_each_child t id).

Lemma push_dirs_eq t id stack : push_dirs t id stack = reverse (subdirs t id) ++ stack.
Proof.
  unfold push_dirs, subdirs. generalize (for_each_child t id). intros cs. revert stack. induction cs as [|c cs IH]; intros stack; [done|].
  cbn [foldl]. rewrite IH, filter_cons. case_decide as E; [rewrite E, reverse_cons, <- app_assoc; done|]. by destruct (is_dir (node t c)).
Qed.

(** The directories in the order the walks take them off the stack. *)
Fixpoint dirs_from (fuel : nat) t (stack : list Z) : list Z :=
  match fuel, stack with
  | S fuel, id :: stack => if is_dir (node t id) then id :: dirs_from fuel t (push_dirs t id stack) else dirs_from fuel t stack
  | _, _ => []
  end.

(** ** The directories of a forest *)

Definition f_dir (F : forest) (x : Z) : Prop := ∃ g, F !! x = Some g ∧ g_isdir g = true.

Lemma f_dir_kids t F m x : stands t F m → f_dir F x → ∀ c, c ∈ subdirs t x ↔ f_dir F c ∧ c ≠ 0 ∧ ∃ h, F !! c = Some h ∧ g_parent h = x.
Proof.
  intros Hst (g & Hg & Hd) c. pose proof Hst as (HF & (names & Ht) & _). destruct (fo_reach _ _ HF x g Hg) as [q Hq].
  destruct (kids_of t F m q x Hst Hq) as (g' & Hg' & Ek & _). simplify_eq. unfold subdirs. rewrite list_elem_of_filter, Ek, (fo_kid _ _ HF x g c Hg). unfold f_dir. split.
  - intros (Hc & Hn & _ & h & Hh & Hp). rewrite (is_dir_spec t names F c h Ht Hh) in Hc. split_and!; eauto.
  - intros ((h & Hh & Hc) & Hn & h' & Hh' & Hp). simplify_eq. rewrite (is_dir_spec t names F c h Ht Hh). split_and!; eauto.
Qed.

Lemma walk_subdirs_nodup t F m x : stands t F m → f_dir F x → NoDup (subdirs t x).
Proof.
  intros Hst (g & Hg & Hd). pose proof Hst as (HF & _). destruct (fo_reach _ _ HF x g Hg) as [q Hq].
  destruct (kids_of t F m q x Hst Hq) as (g' & Hg' & Ek & Hnd & _). unfold subdirs. rewrite Ek. by apply NoDup_filter.
Qed.

(** ** The search *)

(** [seen] was visited and [stack] waits: nothing twice, both hold directories,
    a directory waits or was seen as soon as its parent was seen, and no sooner. *)
Record searching (F : forest) (seen stack : list Z) : Prop := {
  se_once : NoDup (seen ++ stack);
  se_dirs : ∀ x, x ∈ seen ++ stack → f_dir F x;
  se_start : 0 ∈ seen ++ stack;
  se_up : ∀ x h, x ∈ seen ++ stack → x ≠ 0 → F !! x = Some h → g_parent h ∈ seen;
  se_down : ∀ x c h, x ∈ seen → f_dir F c → c ≠ 0 → F !! c = Some h → g_parent h = x → c ∈ seen ++ stack
}.

Lemma search_start F : f_dir F 0 → searching F [] [0].
Proof.
  intros Hd. split; cbn [app].
  - apply NoDup_singleton.
  - by intros x ->%list_elem_of_singleton.
  - by apply list_elem_of_singleton.
  - by intros x h ->%list_elem_of_singleton.
  - by intros x c h ?%elem_of_nil.
Qed.

Lemma search_step t F m seen x stack : stands t F m → searching F seen (x :: stack) → searching F (seen ++ [x]) (push_dirs t x stack).
Proof.
  intros Hst [S1 S2 S3 S4 S5]. rewrite push_dirs_eq. pose proof (S2 x ltac:(set_solver)) as Hx. pose proof (f_dir_kids t F m x Hst Hx) as Hk.
  assert (∀ c, c ∈ subdirs t x → c ∉ seen ++ x :: stack) as Hnew.
  { intros c (_ & Hn & h & Hh & Hp)%Hk Hin. pose proof (S4 c h Hin Hn Hh) as Hs. rewrite Hp in Hs.
    apply NoDup_app in S1 as (_ & Hd & _). by eapply Hd, list_elem_of_here. }
  assert ((seen ++ [x]) ++ reverse (subdirs t x) ++ stack ≡ₚ subdirs t x ++ seen ++ x :: stack) as HP.
  { rewrite reverse_Permutation. solve_Permutation. }
  assert (∀ y, y ∈ (seen ++ [x]) ++ reverse (subdirs t x) ++ stack ↔ y ∈ subdirs t x ∨ y ∈ seen ++ x :: stack) as Hin by (intros y; rewrite HP; apply elem_of_app).
  split.
  - rewrite HP. apply NoDup_app. split_and!; [by eapply walk_subdirs_nodup|done|done].
  - intros y [(Hy & _)%Hk|Hy]%Hin; [done|by apply S2].
  - apply Hin. by right.
  - intros y h [(_ & Hn & h' & Hh' & Hp)%Hk|Hy]%Hin Hn' Hh; apply elem_of_app; [right; simplify_eq; by apply list_elem_of_singleton|left; by eapply S4].
  - intros y c h [Hy| ->%list_elem_of_singleton]%elem_of_app Hc Hn Hh Hp; apply Hin; [right; by eapply S5|left]. apply Hk. eauto.
Qed.

(** When nothing waits any more, every directory was seen. *)
Lemma search_done F seen : forest_ok 0 F → searching F seen [] → ∀ x, x ∈ seen ↔ f_dir F x.
Proof.
  intros HF [S1 S2 S3 S4 S5] x. rewrite app_nil_r in *. split; [by apply S2|]. intros (g & Hg & Hd). destruct (fo_reach _ _ HF x g Hg) as [q Hq].
  revert g Hg Hd. induction Hq as [|q c h Hq IH Hc Hn]; intros g Hg Hd; [done|]. simplify_eq. destruct (fo_home _ _ HF c h Hc Hn) as (gp & Hgp & Hdp).
  eapply (S5 _ c h); [by eapply IH|by exists h|done..].
Qed.

Lemma search_bound F seen stack : searching F seen stack → (length seen + length stack <= size F)%nat.
Proof.
  intros [S1 S2 _ _ _]. rewrite <- length_app, <- (length_map_to_list F), <- (length_fmap fst). apply submseteq_length, NoDup_submseteq; [done|].
  intros x (g & Hg & _)%S2. apply list_elem_of_fmap. exists (x, g). by rewrite elem_of_map_to_list.
Qed.

Lemma dirs_from_spec t F m : stands t F m → ∀ fuel seen stack, searching F seen stack → (size F <= fuel + length seen)%nat →
  searching F (seen ++ dirs_from fuel t stack) [].
Proof.
  intros Hst. pose proof Hst as (HF & (names & Ht) & _). induction fuel as [|fuel IH]; intros seen stack Hs Hf; pose proof (search_bound F seen stack Hs).
  - destruct stack; [by rewrite app_nil_r|cbn in *; lia].
  - destruct stack as [|x stack]; cbn [dirs_from]; [by rewrite app_nil_r|]. destruct (se_dirs _ _ _ Hs x ltac:(set_solver)) as (g & Hg & Hd).
    rewrite (is_dir_spec t names F x g Ht Hg), Hd. rewrite (cons_middle x seen), app_assoc. apply IH; [by eapply search_step|]. rewrite length_app. cbn. lia.
Qed.

(** Every directory once, within as many rounds as there are nodes. *)
Lemma dirs_spec t F m fuel : stands t F m → (size F <= fuel)%nat →
  let l := dirs_from fuel t [root] in NoDup l ∧ (∀ x, x ∈ l ↔ f_dir F x) ∧ (length l <= size F)%nat.
Proof.
  intros Hst Hf l. pose proof Hst as (HF & (names & Ht) & _). destruct (fo_root _ _ HF) as (g & Hg & _). destruct (g_isdir g) eqn:Hd.
  - pose proof (dirs_from_spec t F m Hst fuel [] [root] (search_start F ltac:(by exists g)) ltac:(cbn; lia)) as Hs. cbn [app] in Hs. fold l in Hs.
    split_and!; [pose proof (se_once _ _ _ Hs) as Hn; by rewrite app_nil_r in Hn|by apply search_done|]. pose proof (search_bound F l [] Hs). cbn in *. lia.
  - assert (∀ x, ¬ f_dir F x) as Hno.
    { assert (∀ q x, at_path F q x → x = 0) as Hroot. { induction 1 as [|q c h Hq IH Hc Hn]; [done|]. destruct (fo_home _ _ HF c h Hc Hn) as (gp & Hgp & Hdp). rewrite IH in Hgp. simplify_eq. congruence. }
      intros x (gx & Hgx & Hdx). destruct (fo_reach _ _ HF x gx Hgx) as [q Hq]. rewrite (Hroot q x Hq) in Hgx. simplify_eq. congruence. }
    assert (l = []) as ->. { unfold l. destruct fuel as [|[|fuel]]; [done|..]; cbn [dirs_from]; unfold root; by rewrite (is_dir_spec t names F 0 g Ht Hg), Hd. }
    split_and!; [apply NoDup_nil_2| |cbn; lia]. intros x. split; [by intros ?%elem_of_nil|by intros ?%Hno].
Qed.

(** ** What hangs below the directories *)

(** Children picked by their node. *)
Definition picked (P : Node → bool) t (x : Z) : list Z := filter (λ c, P (node t c) = true) (for_each_child t x).

Lemma picks_spec t F m P fuel : stands t F m → (size F <= fuel)%nat →
  let l := dirs_from fuel t [root] ≫= picked P t in
  NoDup l ∧ ∀ c, c ∈ l ↔ c ≠ 0 ∧ P (node t c) = true ∧ is_Some (F !! c).
Proof.
  intros Hst Hf l. pose proof Hst as (HF & _). destruct (dirs_spec t F m fuel Hst Hf) as (D1 & D2 & _).
  assert (∀ x, x ∈ dirs_from fuel t [root] → NoDup (picked P t x) ∧ ∀ c, c ∈ picked P t x ↔ P (node t c) = true ∧ c ≠ 0 ∧ ∃ h, F !! c = Some h ∧ g_parent h = x) as Hp.
  { intros x (g & Hg & _)%D2. destruct (fo_reach _ _ HF x g Hg) as [q Hq]. destruct (kids_of t F m q x Hst Hq) as (g' & Hg' & Ek & Hnd & _). simplify_eq.
    unfold picked. rewrite Ek. split; [by apply NoDup_filter|]. intros c. rewrite list_elem_of_filter, (fo_kid _ _ HF x g c Hg). naive_solver. }
  split.
  - apply NoDup_bind; [|by intros x Hx; apply Hp|done].
    intros x y c Hx Hy (_ & _ & h & Hh & <-)%Hp (_ & _ & h' & Hh' & <-)%Hp; [by simplify_eq|done..].
  - intros c. unfold l. rewrite list_elem_of_bind. split.
    + intros (x & Hc & Hx). apply Hp in Hc as (? & ? & h & Hh & _); [eauto|done].
    + intros (Hn & HP & h & Hh). destruct (fo_home _ _ HF c h Hh Hn) as (g & Hg & Hd). exists (g_parent h).
      assert (g_parent h ∈ dirs_from fuel t [root]) as Hx by (apply D2; by exists g). split; [|done]. apply Hp; eauto.
Qed.

(** The nodes of a tree and the paths of its map correspond. *)
Lemma join_inj q r : Forall (λ s, valid_name s = true) q → Forall (λ s, valid_name s = true) r → join q = join r → q = r.
Proof.
  intros Hq Hr E. rewrite <- (scan_join q), <- (scan_join r), E; [done|..]; (eapply Forall_impl; [eassumption|apply valid_comp]).
Qed.

Lemma node_path t F m x : stands t F m → is_Some (F !! x) →
  ∃ q, at_path F q x ∧ path_of t x c_slash = join q ∧ m !! q = Some (n_attr (node t x)) ∧ Forall (λ s, valid_name s = true) q ∧ (x = 0 ↔ q = []).
Proof.
  intros Hst (g & Hg). pose proof Hst as (HF & (names & Ht) & Hm). destruct (fo_reach _ _ HF x g Hg) as [q Hq]. exists q.
  split_and!; [done|by eapply path_of_spec| |by eapply at_path_names|].
  - rewrite (no_attr _ _ _ (sh_node _ _ _ (tr_shape _ _ _ Ht) x g Hg)). by eapply shows_at.
  - split; [intros ->; eapply (at_path_id_inj F); [done|constructor]|]. intros ->. eapply (at_path_inj F); [done|done|constructor].
Qed.

Lemma path_of_inj t F m x y : stands t F m → is_Some (F !! x) → is_Some (F !! y) → path_of t x c_slash = path_of t y c_slash → x = y.
Proof.
  intros Hst Hx Hy E. destruct (node_path t F m x Hst Hx) as (q & Hq & Eq & _ & Vq & _), (node_path t F m y Hst Hy) as (r & Hr & Er & _ & Vr & _).
  rewrite (join_inj q r) in Hq by (done || congruence). destruct Hst as (HF & _). by eapply at_path_inj.
Qed.

Lemma path_node t F m q a : stands t F m → m !! q = Some a → ∃ x, at_path F q x ∧ is_Some (F !! x) ∧ n_attr (node t x) = a ∧ path_of t x c_slash = join q ∧ (x = 0 ↔ q = []).
Proof.
  intros Hst Ha. pose proof Hst as (HF & _ & Hm). destruct (shows_some F m q a Hm Ha) as (x & g & Hq & Hg & <-). exists x.
  destruct (node_path t F m x Hst (mk_is_Some _ _ Hg)) as (r & Hr & Er & Hmr & _ & Hz). rewrite (at_path_id_inj F _ _ _ Hr Hq) in *.
  split_and!; [done|by eexists|congruence|done|exact Hz].
Qed.

(** The paths of the nodes picked below the directories: the paths of the map,
    without its root, whose attributes were asked for. *)
Lemma picked_paths t F m (P : Attributes → bool) fuel : stands t F m → (size F <= fuel)%nat →
  let l := (λ c, path_of t c c_slash) <$> (dirs_from fuel t [root] ≫= picked (λ n, P (n_attr n)) t) in
  NoDup l ∧ ∀ p, p ∈ l ↔ ∃ q a, q ≠ [] ∧ m !! q = Some a ∧ P a = true ∧ p = join q.
Proof.
  intros Hst Hf l. destruct (picks_spec t F m (λ n, P (n_attr n)) fuel Hst Hf) as (L1 & L2). split.
  - apply NoDup_fmap_2_strong; [|done]. intros x y (_ & _ & Hx)%L2 (_ & _ & Hy)%L2. by eapply path_of_inj.
  - intros p. unfold l. rewrite list_elem_of_fmap. split.
    + intros (c & -> & (Hn & HP & Hc)%L2). destruct (node_path t F m c Hst Hc) as (q & _ & E & Ha & _ & Hz). exists q, (n_attr (node t c)). naive_solver.
    + intros (q & a & Hn & Ha & HP & ->). destruct (path_node t F m q a Hst Ha) as (c & _ & Hc & <- & E & Hz). exists c. split; [done|]. apply L2. naive_solver.
Qed.

(** ** Warming the cache *)

(** What the budget lets in, of the directories in their order. *)
Fixpoint affordable t (cap budget : Z) (ds : list Z) : list Z * Z :=
  match ds with
  | [] => ([], budget)
  | d :: ds =>
      let n := dir_bytes t d in
      if (n =? 0) || (budget + n >? cap) then affordable t cap budget ds
      else let '(l, b) := affordable t cap (budget + n) ds in (d :: l, b)
  end.

Lemma warm_loop_dirs fuel t cap : ∀ budget stack, warm_loop fuel t cap budget stack = affordable t cap budget (dirs_from fuel t stack).
Proof.
  induction fuel as [|fuel IH]; intros budget stack; [done|]. destruct stack as [|id stack]; [done|]. cbn [warm_loop dirs_from].
  destruct (is_dir (node t id)); cbn [negb]; [|apply IH]. cbn [affordable]. fold (push_dirs t id stack). by rewrite !IH.
Qed.

Lemma affordable_all t cap ds : ∀ budget, (∀ d, d ∈ ds → 0 <= dir_bytes t d) → budget + sumZ (dir_bytes t) ds <= cap →
  (affordable t cap budget ds).1 = filter (λ d, dir_bytes t d ≠ 0) ds.
Proof.
  induction ds as [|d ds IH]; intros budget Hn Hb; [done|]. cbn [affordable]. rewrite filter_cons. unfold sumZ in Hb. cbn in Hb. fold (sumZ (dir_bytes t) ds) in Hb.
  assert (∀ d, d ∈ ds → 0 <= dir_bytes t d) as Hn' by set_solver. pose proof (Hn d ltac:(set_solver)). pose proof (sumZ_nonneg (dir_bytes t) ds Hn').
  destruct (Z.eqb_spec (dir_bytes t d) 0) as [E|E]; cbn [orb].
  - rewrite decide_False by (by intros ?). apply IH; [done|lia].
  - rewrite decide_True by done. destruct (Z.gtb_spec (budget + dir_bytes t d) cap); [lia|].
    specialize (IH (budget + dir_bytes t d) Hn' ltac:(lia)). destruct (affordable t cap (budget + dir_bytes t d) ds). cbn in *. by rewrite IH.
Qed.

Lemma dir_bytes_sum t d : dir_bytes t d = sumZ (λ c, a_size (n_attr (node t c))) (picked (λ n, fetchable (n_attr n)) t d).
Proof.
  unfold dir_bytes, picked. generalize (for_each_child t d). intros cs. induction cs as [|c cs IH]; [done|]. rewrite filter_cons. cbn [foldr]. rewrite IH. unfold sumZ.
  destruct (fetchable (n_attr (node t c))); [by rewrite decide_True|]. rewrite decide_False by done. lia.
Qed.

(** ** The paths [fetch --lookups] probes *)

(** [paths.size() < 200000] *)
Definition kMaxPaths : nat := Z.to_nat 200000.

Definition collect t (st : list Z * list bytes) (c : Z) : list Z * list bytes :=
  if is_dir (node t c) then (c :: st.1, st.2) else (st.1, st.2 ++ [path_of t c c_slash]).

Fixpoint lookup_paths (fuel : nat) t (stack : list Z) (paths : list bytes) : list bytes :=
  match fuel, stack with
  | S fuel, n :: stack =>
      if (length paths <? kMaxPaths)%nat then
        let '(stack, paths) := foldl (collect t) (stack, paths) (for_each_child t n) in lookup_paths fuel t stack paths
      else paths
  | _, _ => paths
  end.

Definition leaf (a : Attributes) : bool := negb (is_dir_kind (a_kind a)).

Lemma collect_all t n stack paths : foldl (collect t) (stack, paths) (for_each_child t n)
  = (push_dirs t n stack, paths ++ ((λ c, path_of t c c_slash) <$> picked (λ n, leaf (n_attr n)) t n)).
Proof.
  unfold push_dirs, picked. generalize (for_each_child t n). intros cs. revert stack paths. induction cs as [|c cs IH]; intros stack paths; cbn [foldl]; [by rewrite app_nil_r|].
  unfold collect at 2. cbn [fst snd]. rewrite filter_cons. unfold is_dir at 1 3. destruct (is_dir_kind (a_kind (n_attr (node t c)))) eqn:E; rewrite IH.
  - rewrite decide_False; [done|]. unfold leaf. by rewrite E.
  - rewrite decide_True by (unfold leaf; by rewrite E). by rewrite fmap_cons, <- app_assoc.
Qed.

(** The paths are those of the directories' leaves, all of them unless the limit is met. *)
Lemma lookup_paths_dirs fuel t : ∀ stack paths, Forall (λ x, is_dir (node t x) = true) stack →
  ∃ rest, paths ++ ((λ c, path_of t c c_slash) <$> (dirs_from fuel t stack ≫= picked (λ n, leaf (n_attr n)) t)) = lookup_paths fuel t stack paths ++ rest
    ∧ ((length (lookup_paths fuel t stack paths) < kMaxPaths)%nat → rest = []).
Proof.
  induction fuel as [|fuel IH]; intros stack paths Hd; [by exists []|]. destruct stack as [|n stack]; [by exists []|]. apply Forall_cons in Hd as [Hn Hd].
  cbn [lookup_paths dirs_from]. rewrite Hn. destruct (Nat.ltb_spec (length paths) kMaxPaths); [|eexists; split; [done|lia]].
  rewrite collect_all. rewrite bind_cons, fmap_app, app_assoc. apply IH. rewrite push_dirs_eq. apply Forall_app. split; [|done].
  apply Forall_forall. intros x Hx. rewrite elem_of_reverse in Hx. by apply list_elem_of_filter in Hx as [? _].
Qed.

(** [wsldrive fetch --lookups] probes paths that are there: its list holds no
    path twice, every path of it is the path of a file, a link or another leaf
    of the tree, and a look-up of it hits in every mode, so the hits reported are
    the look-ups made; below the limit of 200000 no leaf is missing. *)
Theorem probed_paths t F m : stands t F m →
  let l := lookup_paths (length (nodes_ t)) t [root] [] in
  NoDup l
  ∧ (∀ p, p ∈ l → (∃ q a, q ≠ [] ∧ m !! q = Some a ∧ leaf a = true ∧ p = join q) ∧ ∀ mode, is_Some (lookup t p mode))
  ∧ ((length l < kMaxPaths)%nat → ∀ q a, q ≠ [] → m !! q = Some a → leaf a = true → join q ∈ l).
Proof.
  intros Hst l. pose proof Hst as (HF & (names & Ht) & _). pose proof (forest_size t names F (tr_shape _ _ _ Ht)) as Hsz.
  destruct (picked_paths t F m leaf (length (nodes_ t)) Hst ltac:(unfold zlen in *; lia)) as (P1 & P2).
  set (ps := _ <$> _) in *. assert (∃ rest, ps = l ++ rest ∧ ((length l < kMaxPaths)%nat → rest = [])) as (rest & E & Hrest).
  { destruct (is_dir (node t root)) eqn:Hr; [by apply (lookup_paths_dirs (length (nodes_ t)) t [root] []), Forall_singleton|].
    destruct (fo_root _ _ HF) as (g & Hg & _). destruct (kids_of t F m [] 0 Hst ltac:(constructor)) as (g' & Hg' & Ek & _). simplify_eq.
    assert (for_each_child t root = []) as Er.
    { unfold root in *. rewrite Ek. apply elem_of_nil_inv. intros c (_ & _ & h & Hh & Hp)%(fo_kid _ _ HF 0 g c Hg). rewrite (is_dir_spec t names F 0 g Ht Hg) in Hr.
      destruct (decide (c = 0)) as [->|Hn]; [simplify_eq; by eapply (parent_irrefl F 0 0)|]. destruct (fo_home _ _ HF c h Hh Hn) as (gp & Hgp & Hd). rewrite Hp in Hgp. simplify_eq. congruence. }
    exists []. unfold ps, l. destruct (length (nodes_ t)) as [|[|n]]; [done|..]; cbn [lookup_paths dirs_from]; rewrite Hr, Er; done. }
  split_and!.
  - rewrite E in P1. by apply NoDup_app in P1 as (? & _).
  - intros p Hp. assert (p ∈ ps) as Hps by (rewrite E; apply elem_of_app; by left). apply P2 in Hps as (q & a & Hn & Ha & Hl & ->). split; [eauto 6|].
    intros mode. destruct (path_node t F m q a Hst Ha) as (x & Hq & _). exists x. apply lookup_exact_mode. by eapply lookup_node_path.
  - intros Hlt q a Hn Ha Hl. rewrite (Hrest Hlt), app_nil_r in E. rewrite <- E. apply P2. eauto 6.
Qed.
End walk.
