(* ===== verification/Mirror.v ===== *)
(** * The mirror, from one disk to the other side

    The components composed: the agent's snapshot of its disk, cut into frames,
    received by the client's reader and loaded by [fetch_snapshot], makes the
    client's tree a mirror of that disk. *)

From S2P Require Import Prelude Types KeyMap HashUtil FlatMap Wire Messages Path Unicode StringPool MetadataTree Forest TreeSpec TreeRefine.
From S2P Require Import Ignore Coalescer ReadCache FileSystem Resolve Scanner ScanProps Server Requests Client.

(** What the ignore rules of an agent skip. *)
Definition cfg_skip (cfg : Config) : bytes → bool → bool :=
  if bool_decide (patterns_ (cfg_ignore cfg) = []) then λ _ _, false else ignored (cfg_ignore cfg).
Definition cfg_device `{FileSystem F} (cfg : Config) (fs : F) : option Z := root_device fs (cfg_root cfg) (cfg_one_fs cfg).

(** The disk an agent serves, as the map its mirrors should show. *)
Definition serves `{FileSystem F} (cfg : Config) (fs : F) (m : pathmap) : Prop :=
  shows_disk fs (cfg_root cfg) (cfg_skip cfg) (cfg_device cfg fs) m.

(** The root is a directory with a finite number of entries, small enough for
    the client's limits, with attributes in the ranges of their types. *)
Record servable `{FileSystem F} (cfg : Config) (fs : F) (E : list (list bytes)) : Prop := {
  sb_disk : surveyed fs (cfg_root cfg) (cfg_skip cfg) (cfg_device cfg fs) E;
  sb_root : fs_is_directory fs (cfg_root cfg) = true;
  sb_fuel : (S (length E) < cfg_fuel cfg)%nat;
  sb_count : zlen E <= kMaxSnapshotEntries;
  sb_attrs : ∀ q a, found fs (cfg_root cfg) (cfg_skip cfg) (cfg_device cfg fs) q a → attr_ok a
}.

(** Sends that all succeeded left nothing out. *)
Lemma send_frames_ok os : ∀ ios outs, send_frames ios os = (outs, Ok ()) → outs = os.
Proof.
  induction os as [|o os IH]; intros ios outs; cbn [send_frames]; [by intros [= <-]|].
  destruct ios as [|io ios]; unfold send_frame; (destruct (_ >? _); [done|]).
  - specialize (IH []). destruct (send_frames [] os) as [outs' r]. intros [= <- ->]. by rewrite (IH outs' eq_refl).
  - destruct io as [u|e]; [|done]. specialize (IH ios). destruct (send_frames ios os) as [outs' r]. intros [= <- ->]. by rewrite (IH outs' eq_refl).
Qed.

Section mirror.
Context {F : Type} `{FileSystem F} {M : Type} `{KeyMap M}.

(** What the agent sends for a snapshot request. *)
Lemma send_snapshot_spec cfg (fs : F) E io gen id outs : servable cfg fs E → send_snapshot cfg fs io gen id = (outs, Ok ()) →
  ∃ es, outs = snapshot_frames id gen (cfg_chunk cfg) [] 0 es ∧ Forall entry_ok es ∧ zlen es <= zlen E
    ∧ Forall (λ e, zlen (se_name e) < 2 ^ 30 ∧ 0 <= se_parent e) es ∧ (s_load es).2 = Ok () ∧ serves cfg fs (s_load es).1.
Proof.
  intros [S1 S2 S3 S4 S5]. assert (kMaxSnapshotEntries < 2 ^ 30) as Hcap by done.
  destruct (scan_surveyed (cfg_fuel cfg) fs (cfg_root cfg) (cfg_skip cfg) (cfg_one_fs cfg) E S1) as (w & Ew & _ & (_ & _ & Hpar) & Hz & He & Hr & Hm); [lia|done..|].
  unfold send_snapshot. fold (cfg_skip cfg). rewrite Ew. intros ->%send_frames_ok. exists (w_out w). rewrite Forall_forall in He. split_and!; try done.
  - apply Forall_forall. intros e Hin. destruct (He e Hin) as (Hn & _ & q & Hq). apply list_elem_of_lookup_1 in Hin as [k Hk]. pose proof (Hpar k e Hk). apply lookup_lt_Some in Hk.
    unfold entry_ok, u32_ok, str_ok, u64_ok. split_and!; [lia|unfold zlen in *; lia|by eapply S5|apply zlen_nonneg|lia].
  - apply Forall_forall. intros e Hin. by destruct (He e Hin) as (? & ? & _).
Qed.

(** C4: a snapshot makes the client's tree a mirror of the agent's disk.  The
    frames the agent sends for a snapshot request, when their sends succeed and
    they are within the client's limit on bytes, complete the client's request;
    loading the reply succeeds, whatever the tree held before, and then every
    path shows exactly what is on the disk: nothing is missing, nothing is left
    over from before, and what the agent ignores stays away. *)
Theorem fetch_mirrors_disk cfg (fs : F) E io gen id outs c (cl : Client M) F0 m0 :
  servable cfg fs E → u64_ok gen → send_snapshot cfg fs io gen id = (outs, Ok ()) → frames_bytes outs <= kMaxSnapshotBytes →
  id ∈ pending_ c → objs c !! id = Some (pending_new true) → stands (tree_ cl) F0 m0 →
  ∃ p m, objs (conn_run c (frame_event <$> outs)) !! id = Some p ∧ p_done p = true ∧ serves cfg fs m
    ∧ let '(cl', r) := fetch_finish (fetch_begin cl) (Ok p) in
      r = Ok () ∧ (∀ path, observe (tree_ cl') path = s_observe m path) ∧ live_ (tree_ cl') = Z.of_nat (size m).
Proof.
  intros Hs Hgen Hsend Hbytes Hp Ho Hst. destruct (send_snapshot_spec cfg fs E io gen id outs Hs Hsend) as (es & -> & Hok & Hz & Hshort & Hr & Hm).
  assert (kMaxSnapshotEntries < 2 ^ 30) as Hcap by done. pose proof (sb_count _ _ _ Hs).
  destruct (snapshot_frames_received gen (cfg_chunk cfg) id es [] [] 0 (pending_new true) c) as (p & Hobj & _ & Hd & Hsok & Hty & Hg & Hes); try done.
  { change (0 + 0 + zlen es <= kMaxSnapshotEntries). lia. }
  exists p, (s_load es).1. split_and!; [done..|]. unfold fetch_finish, expect. rewrite bool_decide_eq_true_2 by done. rewrite Hsok. cbn [negb fetch_begin with_recording tree_ snapshot_replay_ snapshot_replay_overflow_].
  cbn [app] in Hes. rewrite Hes. destruct (load_sim (tree_ cl) F0 m0 es 0 Hst) as (F' & Hst' & _ & Hr'); [done|lia|done|].
  destruct (load_snapshot (tree_ cl) es) as [t r]. cbn [fst snd] in *. rewrite Hr in Hr'. subst r. cbn [replay foldl].
  destruct (snapshot_replay_overflow_ cl); (split_and!; [done|intros; by eapply observe_spec|by eapply live_spec]).
Qed.
End mirror.

(** ** An agent that ignores a directory *)

Definition demo_agent : Config := mkConfig (str "/r") false (str "t") true (str "a") 10 true (parse (str "d/")) 10.

Lemma demo_found_attrs : ∀ q a, found mem_demo (cfg_root demo_agent) (cfg_skip demo_agent) (cfg_device demo_agent mem_demo) q a → attr_ok a.
Proof.
  intros q a (p & d & Hp & s & Hin & -> & He). assert (surveyed mem_demo (str "/r") (cfg_skip demo_agent) (cfg_device demo_agent mem_demo) demo_places) as [_ Hf _] by (apply survey_ok_surveyed; vm_compute; reflexivity).
  assert (p ++ [s] ∈ demo_places) as Hq by (eapply Hf; exists p, d; split; [exact Hp|]; exists s; by split_and!).
  assert (Forall (λ q, match entry_at mem_demo (str "/r") (cfg_skip demo_agent) (cfg_device demo_agent mem_demo) q with Some (a, _) => attr_ok a | None => True end) demo_places) as Hall.
  { repeat constructor; vm_compute; repeat split; intros; discriminate. }
  rewrite Forall_forall in Hall. specialize (Hall _ Hq). cbv beta in Hall. change (cfg_root demo_agent) with (str "/r") in He. rewrite He in Hall. exact Hall.
Qed.

Lemma demo_servable : servable demo_agent mem_demo demo_places.
Proof.
  split.
  - apply survey_ok_surveyed. vm_compute. reflexivity.
  - vm_compute. reflexivity.
  - vm_compute. lia.
  - vm_compute. congruence.
  - exact demo_found_attrs.
Qed.

Lemma fetch_mirrors_disk_witness :
  let outs := (send_snapshot demo_agent mem_demo [] 5 1).1 in
  length outs = 3%nat ∧ ∃ p m, objs (conn_run (conn_run conn_new [EvBegin true; EvRegister 1]) (frame_event <$> outs)) !! 1 = Some p
    ∧ serves demo_agent mem_demo m
    ∧ ∀ path, observe (tree_ (fetch_finish (fetch_begin (client_new (M := U64Map) Exact)) (Ok p)).1) path = s_observe m path.
Proof.
  cbv zeta. split; [vm_compute; reflexivity|].
  destruct (fetch_mirrors_disk demo_agent mem_demo demo_places [] 5 1 (send_snapshot demo_agent mem_demo [] 5 1).1
    (conn_run conn_new [EvBegin true; EvRegister 1]) (client_new (M := U64Map) Exact) f_root s_new) as (p & m & Hp & _ & Hm & Hr).
  - exact demo_servable.
  - vm_compute. intuition congruence.
  - vm_compute. reflexivity.
  - vm_compute. congruence.
  - apply (bool_decide_unpack _). vm_compute. exact I.
  - vm_compute. reflexivity.
  - apply new_stands.
  - exists p, m. split; [exact Hp|]. split; [exact Hm|]. destruct (fetch_finish _ _) as [cl' r]. apply Hr.
Defined.
