(* ===== verification/Warm.v ===== *)
(** * Warming a mount: what was fetched ahead is read without the agent

    [RemoteRoot::warm_cache], [prefetch_loop], the agent's [send_read_many] and
    [RemoteRoot::read] composed: after the warm-up has drained, every small file
    of the mirror is in the client's cache, under the version the mirror shows,
    and reading it makes no request. *)

From S2P Require Import Prelude Types KeyMap HashUtil FlatMap Wire Messages Path Unicode StringPool MetadataTree Forest TreeIndex TreeLinks TreeInv TreeOps TreeSpec TreeRefine TreeExport TreeProps.
From S2P Require Import Ignore ReadCache FileSystem Resolve Server Requests Client ClientProps Walk.

(** A file to fetch: its path, and the version (mtime and size) it is cached as. *)
Abbreviation target := (bytes * (Z * Z))%type.
Definition target_size (f : target) : Z := f.2.2.

Lemma omap_filter {A B} (P : A → bool) (f : A → B) (l : list A) : omap (λ c, if P c then Some (f c) else None) l = f <$> filter (λ c, P c = true) l.
Proof.
  induction l as [|c l IH]; [done|]. rewrite filter_cons. cbn. destruct (P c) eqn:E; [rewrite decide_True by done|rewrite decide_False by done]; cbn; by rewrite IH.
Qed.

(** ** The cache fills without losing anything *)

Lemma cache_put_fits c p m s d : cache_inv c → rcache_ c !! p = None → total (rcache_ c) + zlen d <= rcache_cap_ c → rcache_cap_ c < 2 ^ 64 →
  let c' := cache_put c p m s d in
  cache_inv c' ∧ rcache_ c' = <[p := mkCached m s d]> (rcache_ c) ∧ rcache_cap_ c' = rcache_cap_ c.
Proof.
  intros Hc Hp Hb Hcap. destruct (cache_put_inv c p m s d Hc ltac:(lia)) as (Hi & _ & _ & _ & Hk). split_and!; [done| |done].
  pose proof (total_nonneg (rcache_ c)). pose proof (zlen_nonneg d). unfold cache_put, erase_if_present. rewrite Hp. unfold evict_locked. cbn [lru_ length evict_loop rcache_bytes_ rcache_cap_].
  rewrite (ci_bytes c Hc), wrap_id by lia. rewrite Z.gtb_ltb. by rewrite (proj2 (Z.ltb_ge _ _)) by lia.
Qed.

Section fill.
Context (content : bytes → bytes).
Implicit Types fs : list target.

Definition fits_version (f : target) : Prop := zlen (content f.1) = target_size f.

(** The cache holds exactly the targets [fs]. *)
Record holding (cap : Z) (c : ReadCache) fs : Prop := {
  hd_inv : cache_inv c;
  hd_cap : rcache_cap_ c = cap;
  hd_map : ∀ f, f ∈ fs → rcache_ c !! f.1 = Some (mkCached f.2.1 f.2.2 (content f.1));
  hd_only : ∀ k, is_Some (rcache_ c !! k) → k ∈ fs.*1;
  hd_total : total (rcache_ c) = sumZ target_size fs
}.

Lemma holding_new cap : holding cap (cache_new cap) [].
Proof. split; [apply cache_new_inv|done|by intros f ?%elem_of_nil| |done]. intros k. cbn. rewrite lookup_empty. by intros []. Qed.

Lemma holding_put cap c fs f : holding cap c fs → f.1 ∉ fs.*1 → fits_version f → sumZ target_size fs + target_size f <= cap → cap < 2 ^ 64 →
  holding cap (cache_put c f.1 f.2.1 f.2.2 (content f.1)) (fs ++ [f]).
Proof.
  intros [H1 H2 H3 H4 H5] Hf Hs Hb Hcap. unfold fits_version in Hs. assert (rcache_ c !! f.1 = None) as Hn by (apply eq_None_not_Some; by intros ?%H4).
  destruct (cache_put_fits c f.1 f.2.1 f.2.2 (content f.1) H1 Hn ltac:(lia) ltac:(lia)) as (I1 & I2 & I3). split; [done|congruence|..].
  - intros g [Hg| ->%list_elem_of_singleton]%elem_of_app; rewrite I2; [|apply lookup_insert_eq]. rewrite lookup_insert_ne; [by apply H3|].
    intros E. apply Hf. apply list_elem_of_fmap. by exists g.
  - intros k. rewrite I2, fmap_app, elem_of_app, lookup_insert_is_Some. intros [<-|[_ ?%H4]]; [right; by apply list_elem_of_singleton|by left].
  - rewrite I2, total_insert, H5, sumZ_app by done. change (sumZ target_size [f]) with (target_size f + 0). cbn [ce_data]. lia.
Qed.

Lemma holding_fetched cap batch : ∀ c fs, holding cap c fs → NoDup (fs ++ batch).*1 → Forall fits_version batch → sumZ target_size (fs ++ batch) <= cap → cap < 2 ^ 64 →
  holding cap (cache_fetched c batch ((λ f, Some (content f.1)) <$> batch)) (fs ++ batch).
Proof.
  induction batch as [|f batch IH]; intros c fs Hh Hnd Hs Hb Hcap; [by rewrite app_nil_r|]. apply Forall_cons in Hs as [Hf Hs].
  assert (0 <= sumZ target_size batch). { apply sumZ_nonneg. intros x Hx. rewrite Forall_forall in Hs. rewrite <- (Hs x Hx). apply zlen_nonneg. }
  rewrite sumZ_app in Hb. change (sumZ target_size (f :: batch)) with (target_size f + sumZ target_size batch) in Hb.
  rewrite fmap_app in Hnd. apply NoDup_app in Hnd as (Hn1 & Hn2 & Hn3). apply NoDup_cons in Hn3 as [Hn3 Hn4].
  unfold cache_fetched. cbn [fmap list_fmap zip_with foldl]. destruct f as [p [m s]]. rewrite (cons_middle (p, (m, s)) fs), app_assoc. apply IH; [|..].
  - apply (holding_put cap c fs (p, (m, s))); [done| |done|lia|done]. intros Hin. apply (Hn2 _ Hin). by apply list_elem_of_here.
  - rewrite <- app_assoc, fmap_app. apply NoDup_app. split_and!; [done| |by apply NoDup_cons]. done.
  - done.
  - rewrite !sumZ_app. change (sumZ target_size [(p, (m, s))]) with (target_size (p, (m, s)) + 0). lia.
  - done.
Qed.
End fill.

(** ** The prefetcher drains *)

(** [prefetch_loop] over a queue nobody else adds to: [n] rounds of it. *)
Fixpoint prefetch_loop {M} `{KeyMapOps M} (n : nat) (ask : list target → Result Pending) (cl : Client M) : Client M :=
  match n with O => cl | S n => prefetch_loop n ask (prefetch_round ask cl) end.

Section rounds.
Context {M : Type} `{KeyMap M}.
Context (content : bytes → bytes) (cap : Z) (W : target → Prop) (ask : list target → Result Pending).

(** Files small enough to keep, whole batches of which the agent answers. *)
Hypothesis cap_64 : cap < 2 ^ 64.
Hypothesis small : ∀ f, W f → fits_version content f ∧ target_size f <= kMaxCacheableFile.
Hypothesis answers : ∀ batch, Forall W batch → zlen batch <= kPrefetchBatchCount → sumZ target_size batch < kPrefetchBatchBytes + kMaxCacheableFile →
  read_many (length batch) (ask batch) = Ok ((λ f, Some (content f.1)) <$> batch).

(** A client with another cache and other counters, and nothing else changed. *)
Definition refilled (cl : Client M) (fs : list target) (cl' : Client M) : Prop :=
  ∃ c s, cl' = with_stats s (with_cache c cl) ∧ holding content cap c fs.

Lemma refilled_same (cl : Client M) fs : holding content cap (cache_ cl) fs → refilled cl fs cl.
Proof. intros Hh. exists (cache_ cl), (stats_ cl). split; [by destruct cl|done]. Qed.

Lemma refilled_trans (cl cl1 cl2 : Client M) fs fs' : refilled cl fs cl1 → refilled cl1 fs' cl2 → refilled cl fs' cl2.
Proof. intros (c1 & s1 & -> & _) (c2 & s2 & -> & Hh). by exists c2, s2. Qed.

(** What is left to fetch: new files, which fit with what is there. *)
Record fetching (cl : Client M) (fs files : list target) : Prop := {
  ft_holding : holding content cap (cache_ cl) fs;
  ft_stop : pf_stop_ cl = false;
  ft_wanted : Forall W files;
  ft_new : NoDup (fs ++ files).*1;
  ft_fits : sumZ target_size (fs ++ files) <= cap
}.

Lemma wanted_nonneg files : Forall W files → 0 <= sumZ target_size files.
Proof.
  intros HW. apply sumZ_nonneg. intros f Hf. rewrite Forall_forall in HW. destruct (small f (HW f Hf)) as [<- _]. apply zlen_nonneg.
Qed.

Lemma flush_spec_holding (cl : Client M) fs batch files : fetching cl fs (batch ++ files) → zlen batch <= kPrefetchBatchCount →
  sumZ target_size batch < kPrefetchBatchBytes + kMaxCacheableFile →
  refilled cl (fs ++ batch) (prefetch_flush ask batch cl) ∧ fetching (prefetch_flush ask batch cl) (fs ++ batch) files.
Proof.
  intros [F1 F2 F3 F4 F5] Hn Hs. apply Forall_app in F3 as [F3 F3'].
  assert (refilled cl (fs ++ batch) (prefetch_flush ask batch cl)) as Hr.
  { unfold prefetch_flush. rewrite F2, orb_false_r. case_bool_decide as Hb; [subst batch; rewrite app_nil_r; by apply refilled_same|].
    rewrite answers by done. eexists _, _. split; [reflexivity|]. apply holding_fetched; [done|..|done].
    - rewrite app_assoc, fmap_app in F4. by apply NoDup_app in F4 as (? & _).
    - eapply Forall_impl; [exact F3|]. intros f Hf. by apply small.
    - rewrite app_assoc, sumZ_app in F5. pose proof (wanted_nonneg files F3'). lia. }
  split; [done|]. destruct Hr as (c & s & -> & Hh). split; [done|done|done|by rewrite <- app_assoc|by rewrite <- app_assoc].
Qed.

Lemma batches_spec files : ∀ batch (cl : Client M) fs, fetching cl fs (batch ++ files) → zlen batch < kPrefetchBatchCount → sumZ target_size batch < kPrefetchBatchBytes →
  refilled cl (fs ++ batch ++ files) (prefetch_batches ask batch (sumZ target_size batch) files cl).
Proof.
  assert (0 < kMaxCacheableFile) by done. induction files as [|[p [m s]] files IH]; intros batch cl fs Hf Hn Hs; cbn [prefetch_batches].
  - rewrite app_nil_r. apply (flush_spec_holding cl fs batch []); [done|lia|lia].
  - pose proof Hf as [F1 F2 F3 F4 F5]. rewrite F2. assert (cached_at (cache_ cl) p m s = false) as ->.
    { unfold cached_at. destruct (rcache_ (cache_ cl) !! p) as [e|] eqn:E; [|done]. exfalso. rewrite fmap_app in F4. apply NoDup_app in F4 as (_ & F4 & _).
      apply (F4 p); [apply (hd_only _ _ _ _ F1); by eexists|]. rewrite fmap_app. apply elem_of_app. right. by apply list_elem_of_here. }
    apply Forall_app in F3 as [_ F3]. apply Forall_cons in F3 as [F3 _]. destruct (small _ F3) as [_ Hsz]. unfold target_size in Hsz at 1. cbn in Hsz.
    assert (zlen (batch ++ [(p, (m, s))]) = zlen batch + 1) as Hlen by (rewrite zlen_app, zlen_cons, zlen_nil; lia).
    assert (sumZ target_size (batch ++ [(p, (m, s))]) = sumZ target_size batch + s) as Hsum by (rewrite sumZ_app; change (sumZ target_size [(p, (m, s))]) with (s + 0); lia).
    rewrite <- Hsum. rewrite (cons_middle (p, (m, s)) batch), (app_assoc batch) in Hf |- *.
    destruct ((_ >=? _) || (_ >=? _)) eqn:E.
    + destruct (flush_spec_holding cl fs _ files Hf ltac:(lia) ltac:(lia)) as [Hr Hf']. rewrite (app_assoc fs).
      eapply refilled_trans; [exact Hr|]. apply (IH []); [done|by vm_compute|by vm_compute].
    + apply orb_false_iff in E as [E1 E2]. rewrite Z.geb_leb in E1, E2. apply Z.leb_gt in E1, E2. by apply IH.
Qed.

(** The files of a directory, as the prefetcher lists them. *)
Definition target_of (t : MetadataTree M) (c : Z) : target := (path_of t c c_slash, (a_mtime_ns (n_attr (node t c)), a_size (n_attr (node t c)))).
Definition dir_targets (t : MetadataTree M) (d : Z) : list target := target_of t <$> picked (λ n, fetchable (n_attr n)) t d.

Lemma child_path_join q s : Forall (λ s, valid_name s = true) q → child_path (join q) s = join (q ++ [s]).
Proof.
  intros Hq. unfold child_path. destruct (decide (q = [])) as [->|Hn]; [done|]. rewrite join_snoc by done. rewrite bool_decide_eq_false_2; [done|].
  destruct Hq as [|s' q Hs _]; [done|]. destruct s' as [|b s']; [done|]. by destruct q.
Qed.

Lemma prefetch_files_spec (t : MetadataTree M) F m d : stands t F m → f_dir F d → prefetch_files t (path_of t d c_slash) = dir_targets t d.
Proof.
  intros Hst (g & Hg & Hd). pose proof Hst as (HF & (names & Ht) & _). destruct (node_path t F m d Hst (mk_is_Some _ _ Hg)) as (q & Hq & E & _ & Hval & _).
  unfold prefetch_files, dir_targets, picked. rewrite E, (lookup_node_path t F m d q Hst Hq), (is_dir_spec t names F d g Ht Hg), Hd, omap_filter.
  apply list_fmap_ext. intros i c Hc%list_elem_of_lookup_2. apply list_elem_of_filter in Hc as [_ Hc].
  destruct (kids_of t F m q d Hst Hq) as (g' & _ & Ek & _ & _ & Hk). rewrite Ek in Hc. destruct (Hk c Hc) as (Hc' & _).
  unfold target_of. by rewrite (path_of_spec t F m _ c Hst Hc'), child_path_join.
Qed.

(** A round takes the directory at the head of the queue and caches its files. *)
Lemma round_spec (cl : Client M) F m d rest fs files : stands (tree_ cl) F m → f_dir F d → pf_queue_ cl = path_of (tree_ cl) d c_slash :: rest →
  fetching cl fs (dir_targets (tree_ cl) d ++ files) →
  let cl' := prefetch_round ask cl in
  fetching cl' (fs ++ dir_targets (tree_ cl) d) files ∧ pf_queue_ cl' = rest ∧ pf_pending_ cl' = pf_pending_ cl - 1 ∧ tree_ cl' = tree_ cl ∧ lookup_mode_ cl' = lookup_mode_ cl.
Proof.
  intros Hst Hd Hq Hf cl'. unfold cl', prefetch_round. rewrite Hq. pose proof Hf as [F1 F2 F3 F4 F5]. rewrite F2. cbn [tree_ with_prefetch].
  rewrite (prefetch_files_spec _ F m d Hst Hd). set (cl0 := with_prefetch rest (pf_seen_ cl) (pf_pending_ cl) cl). set (new := dir_targets (tree_ cl) d) in *.
  assert (fetching cl0 fs ([] ++ new)) as Hf0.
  { apply Forall_app in F3 as [F3 F3']. split; [done|done|done|..]; cbn [app].
    - rewrite app_assoc, fmap_app in F4. by apply NoDup_app in F4 as (? & _).
    - rewrite app_assoc, sumZ_app in F5. pose proof (wanted_nonneg files F3'). lia. }
  destruct (batches_spec new [] cl0 fs Hf0) as (c & s & E & Hh); [done..|]. change (sumZ target_size []) with 0 in E. rewrite E. cbn. split_and!; try done.
  apply Forall_app in F3 as [_ F3]. split; [done|done|done|by rewrite <- app_assoc|by rewrite <- app_assoc].
Qed.

(** The queue drains, and then every file of every directory in it is cached. *)
Lemma prefetch_loop_spec F m ds : ∀ (cl : Client M) fs, stands (tree_ cl) F m → Forall (f_dir F) ds →
  pf_queue_ cl = (λ d, path_of (tree_ cl) d c_slash) <$> ds → fetching cl fs (ds ≫= dir_targets (tree_ cl)) →
  let cl' := prefetch_loop (length ds) ask cl in
  holding content cap (cache_ cl') (fs ++ (ds ≫= dir_targets (tree_ cl))) ∧ pf_queue_ cl' = [] ∧ pf_pending_ cl' = pf_pending_ cl - zlen ds
  ∧ tree_ cl' = tree_ cl ∧ lookup_mode_ cl' = lookup_mode_ cl.
Proof.
  induction ds as [|d ds IH]; intros cl fs Hst Hd Hq Hf; cbn [length prefetch_loop].
  - split_and!; [apply (ft_holding _ _ _ _ Hf) || (rewrite app_nil_r; apply (ft_holding _ _ _ Hf))|done|rewrite zlen_nil; lia|done|done].
  - apply Forall_cons in Hd as [Hd Hds]. rewrite fmap_cons in Hq. rewrite bind_cons in Hf.
    destruct (round_spec cl F m d _ fs (ds ≫= dir_targets (tree_ cl)) Hst Hd Hq Hf) as (R1 & R2 & R3 & R4 & R5).
    destruct (IH (prefetch_round ask cl) (fs ++ dir_targets (tree_ cl) d)) as (I1 & I2 & I3 & I4 & I5); [by rewrite R4|done|by rewrite R4|by rewrite R4|].
    rewrite R4 in I1. rewrite zlen_cons. split_and!; [by rewrite bind_cons, app_assoc|done|lia|congruence|congruence].
Qed.
End rounds.

(** ** The agent's side: a batch is answered in full *)

Section agent.
Context {F : Type} `{FileSystem F}.
Context (cfg : Config) (fs : F).

(** The file under a served path, which reading leaves alone. *)
Definition on_disk (p data : bytes) : Prop :=
  ∃ full, resolve_path cfg (normalize_path p) = Ok full ∧ fs_file_size fs full = Ok (zlen data) ∧ fs_open fs full ModeR = (fs, None)
    ∧ (zlen data ≠ 0 → fs_fread fs full 0 (zlen data) = data).

(** What the client's request gets: the agent's reply, received whole. *)
Definition agent_reads (id : Z) (batch : list target) : Result Pending :=
  match send_read_many cfg fs (Ok ()) id (read_many_request batch).2 with
  | (_, ([o], Ok _)) => Ok (finish (pending_new false) (o_type o) (o_payload o))
  | _ => Err ConnectionClosed
  end.

Context (content : bytes → bytes).

Lemma read_one_disk limit tot items p : on_disk p (content p) → zlen (content p) <= Z.shiftl 16 20 → tot + zlen (content p) <= limit →
  read_one cfg limit (fs, tot, items) p = (fs, tot + zlen (content p), items ++ [mkItem true (content p)]).
Proof.
  intros (full & H1 & H2 & H3 & H4) Hs Hb. unfold read_one. rewrite H1, H2. destruct (Z.gtb_spec (zlen (content p)) (Z.shiftl 16 20)); [lia|].
  destruct (Z.gtb_spec (tot + zlen (content p)) limit); [lia|]. cbn [orb]. rewrite H3. destruct (Z.eqb_spec (zlen (content p)) 0) as [E|E]; [|by rewrite H4].
  assert (content p = []) as -> by (unfold zlen in E; apply nil_length_inv; lia). done.
Qed.

Lemma read_all_disk limit ps : ∀ tot items, Forall (λ p, on_disk p (content p) ∧ zlen (content p) <= Z.shiftl 16 20) ps → tot + sumZ (λ p, zlen (content p)) ps <= limit →
  foldl (read_one cfg limit) (fs, tot, items) ps = (fs, tot + sumZ (λ p, zlen (content p)) ps, items ++ ((λ p, mkItem true (content p)) <$> ps)).
Proof.
  induction ps as [|p ps IH]; intros tot items Hps Hb; cbn [foldl].
  - rewrite app_nil_r. unfold sumZ. cbn. by rewrite Z.add_0_r.
  - apply Forall_cons in Hps as [[Hp Hs] Hps]. change (sumZ (λ p, zlen (content p)) (p :: ps)) with (zlen (content p) + sumZ (λ p, zlen (content p)) ps) in Hb |- *.
    assert (0 <= sumZ (λ p, zlen (content p)) ps) by (apply sumZ_nonneg; intros; apply zlen_nonneg).
    rewrite read_one_disk by (done || lia). rewrite IH by (done || lia). rewrite fmap_cons, <- app_assoc, Z.add_assoc. done.
Qed.

Lemma items_length (its : list ReadManyItem) : zlen (w_each enc its) <= sumZ (λ it, 11 + zlen (it_data it)) its.
Proof.
  induction its as [|it its IH]; [done|]. change (sumZ _ (it :: its)) with ((11 + zlen (it_data it)) + sumZ (λ it, 11 + zlen (it_data it)) its).
  change (w_each enc (it :: its)) with (enc it ++ w_each enc its). rewrite zlen_app. enough (zlen (enc it) <= 11 + zlen (it_data it)) by lia.
  change (enc it) with (write_item it). unfold write_item, w_blob, w_raw, w_u8. pose proof (w_varint_length (zlen (it_data it))). pose proof (zlen_nonneg (it_data it)).
  destruct (it_ok it); rewrite ?zlen_app, ?zlen_cons, ?zlen_nil; lia.
Qed.

(** A batch of at most 512 small files fits the agent's limits and the frame. *)
Lemma agent_answers id batch : Forall (λ f, on_disk f.1 (content f.1) ∧ fits_version content f ∧ target_size f <= kMaxCacheableFile ∧ str_ok f.1) batch →
  zlen batch <= kPrefetchBatchCount → sumZ target_size batch < kPrefetchBatchBytes + kMaxCacheableFile →
  read_many (length batch) (agent_reads id batch) = Ok ((λ f, Some (content f.1)) <$> batch).
Proof.
  intros Hb Hn Hs. set (ps := batch.*1). set (items := (λ p, mkItem true (content p)) <$> ps).
  assert (sumZ (λ p, zlen (content p)) ps = sumZ target_size batch) as Hsum.
  { unfold ps. rewrite sumZ_fmap. apply sumZ_ext. intros f Hf. rewrite Forall_forall in Hb. by apply (Hb f Hf). }
  assert (Forall (λ p, on_disk p (content p) ∧ zlen (content p) <= Z.shiftl 16 20) ps) as Hps.
  { apply Forall_fmap. eapply Forall_impl; [exact Hb|]. intros f (H1 & H2 & H3 & _). split; [done|]. unfold fits_version in H2. cbn. rewrite H2. unfold kMaxCacheableFile in H3. change (Z.shiftl 8 20) with 8388608 in H3. change (Z.shiftl 16 20) with 16777216. lia. }
  assert (zlen ps = zlen batch) as Hl by (unfold ps, zlen; by rewrite length_fmap).
  pose proof (zlen_nonneg batch). unfold kPrefetchBatchCount, kPrefetchBatchBytes, kMaxCacheableFile in *. change (Z.shiftl 4 20) with 4194304 in *. change (Z.shiftl 8 20) with 8388608 in *.
  assert (read_many_cap = 67043328) as Hcap by reflexivity.
  assert (cwf (mkReadManyResponse items)) as Hwf.
  { split; cbn [rmp_items]; unfold items; [unfold u64_ok; unfold zlen in *; rewrite length_fmap; lia|]. apply Forall_fmap. eapply Forall_impl; [exact Hps|]. intros p (_ & Hp). cbn. unfold str_ok, u64_ok. pose proof (zlen_nonneg (content p)). change (Z.shiftl 16 20) with 16777216 in Hp. lia. }
  assert (zlen (write_read_many_response (mkReadManyResponse items)) <= kMaxPayload) as Hlen.
  { unfold write_read_many_response. cbn [rmp_items]. rewrite zlen_app. pose proof (w_varint_length (zlen items)). pose proof (items_length items) as Hi. cbn in Hi.
    assert (sumZ (λ it, 11 + zlen (it_data it)) items = 11 * zlen ps + sumZ (λ p, zlen (content p)) ps) as E.
    { unfold items. rewrite sumZ_fmap. cbn. generalize ps. intros l. induction l as [|p l IH]; [done|]. unfold sumZ in *. cbn [foldr]. rewrite IH, zlen_cons. lia. }
    unfold kMaxPayload. change (Z.shiftl 64 20) with 67108864. lia. }
  unfold read_many, agent_reads, decode_reply, expect, send_read_many, read_many_request. cbn [snd]. fold ps.
  assert (read_read_many_request (write_read_many_request (mkReadManyRequest ps)) = Ok (mkReadManyRequest ps, [])) as ->.
  { assert (cwf (mkReadManyRequest ps)) as Hq.
    { split; cbn [rmq_paths]; [unfold kMaxReadManyPaths; lia|]. apply Forall_fmap. eapply Forall_impl; [exact Hb|]. intros f (_ & _ & _ & Hf). exact Hf. }
    pose proof (codec_rt (A:=ReadManyRequest) (mkReadManyRequest ps) [] Hq) as Hc. rewrite app_nil_r in Hc. exact Hc. }
  cbn [rmq_paths]. rewrite (read_all_disk read_many_cap ps 0 [] Hps) by lia. cbn [app]. unfold send_frame. cbn [o_payload]. fold items.
  rewrite Z.gtb_ltb, (proj2 (Z.ltb_ge _ _)) by done. cbn [o_type o_payload]. rewrite bool_decide_eq_true_2 by done. cbn [finish p_payload].
  pose proof (codec_rt (A:=ReadManyResponse) (mkReadManyResponse items) [] Hwf) as Hc. rewrite app_nil_r in Hc. cbn [enc dec read_many_response_codec con_wire rmp_items] in Hc. rewrite Hc. cbn [rmp_items].
  f_equal. apply list_eq. intros i. rewrite list_lookup_fmap. unfold items, ps. rewrite !list_lookup_fmap.
  destruct (batch !! i) as [f|] eqn:Ef; cbn.
  - rewrite lookup_seq_lt by (by eapply lookup_lt_Some). cbn. rewrite !list_lookup_fmap, Ef. done.
  - rewrite lookup_seq_ge by (by apply lookup_ge_None_1). done.
Qed.
End agent.

(** ** The warm-up *)

(** The files of a map worth keeping in the cache. *)
Definition small_files (m : pathmap) : list (list bytes * Attributes) := filter (λ qa, qa.1 ≠ [] ∧ fetchable qa.2 = true) (map_to_list m).

Section warm.
Context {M : Type} `{KeyMap M}.

(** A client that has just mounted: nothing cached, nothing queued. *)
Record just_mounted (cl : Client M) : Prop := {
  jm_stop : pf_stop_ cl = false;
  jm_queue : pf_queue_ cl = [];
  jm_seen : pf_seen_ cl = ∅;
  jm_pending : pf_pending_ cl = 0;
  jm_cache : cache_ cl = cache_new (rcache_cap_ (cache_ cl))
}.

Lemma enqueue_all ds : ∀ cl : Client M, pf_stop_ cl = false → NoDup ds → (∀ d, d ∈ ds → d ∉ pf_seen_ cl) →
  ∃ seen, foldl (λ cl d, enqueue_prefetch d cl) cl ds = with_prefetch (pf_queue_ cl ++ ds) seen (pf_pending_ cl + zlen ds) cl.
Proof.
  induction ds as [|d ds IH]; intros cl Hs Hnd Hn; cbn [foldl].
  - exists (pf_seen_ cl). rewrite app_nil_r, zlen_nil, Z.add_0_r. by destruct cl.
  - apply NoDup_cons in Hnd as [Hd Hnd]. unfold enqueue_prefetch at 2. rewrite Hs, bool_decide_eq_false_2 by set_solver.
    destruct (IH (with_prefetch (pf_queue_ cl ++ [d]) ({[d]} ∪ pf_seen_ cl) (pf_pending_ cl + 1) cl)) as (seen & ->); [done|done| |].
    + intros x Hx Hin. cbn [pf_seen_ with_prefetch] in Hin. apply elem_of_union in Hin as [->%elem_of_singleton|Hin]; [done|]. apply (Hn x); [by right|done].
    + exists seen. rewrite zlen_cons. cbn [pf_queue_ pf_pending_ with_prefetch]. rewrite <- app_assoc, <- Z.add_assoc. done.
Qed.

Lemma small_files_perm (t : MetadataTree M) F m fuel : stands t F m → (size F <= fuel)%nat →
  (λ c, (scan (path_of t c c_slash), n_attr (node t c))) <$> (dirs_from fuel t [root] ≫= picked (λ n, fetchable (n_attr n)) t) ≡ₚ small_files m.
Proof.
  intros Hst Hf. destruct (picks_spec t F m (λ n, fetchable (n_attr n)) fuel Hst Hf) as (L1 & L2).
  assert (∀ q, Forall (λ s, valid_name s = true) q → scan (join q) = q) as Hscan by (intros q Hq; apply scan_join; eapply Forall_impl; [exact Hq|apply valid_comp]).
  apply NoDup_Permutation.
  - apply NoDup_fmap_2_strong; [|done]. intros x y (_ & _ & Hx)%L2 (_ & _ & Hy)%L2 [= E _].
    destruct (node_path t F m x Hst Hx) as (q & Hq & Eq & _ & Vq & _), (node_path t F m y Hst Hy) as (r & Hr & Er & _ & Vr & _).
    rewrite Eq, Er, !Hscan in E by done. subst r. destruct Hst as (HF & _). by eapply at_path_inj.
  - apply NoDup_filter, NoDup_map_to_list.
  - intros [q a]. unfold small_files. rewrite list_elem_of_fmap, list_elem_of_filter, elem_of_map_to_list. cbn [fst snd]. split.
    + intros (c & [= -> ->] & (Hn & HP & Hc)%L2). destruct (node_path t F m c Hst Hc) as (q & _ & E & Ha & Hv & Hz). rewrite E, Hscan by done. naive_solver.
    + intros ((Hn & HP) & Ha). destruct (path_node t F m q a Hst Ha) as (c & Hq & Hc & <- & E & Hz). exists c. destruct (node_path t F m c Hst Hc) as (q' & Hq' & _ & _ & Hv & _).
      rewrite (at_path_id_inj F _ _ _ Hq' Hq) in Hv. rewrite E, Hscan by done. split; [done|]. apply L2. naive_solver.
Qed.

Lemma bind_skip {A B} (P : A → Prop) `{∀ x, Decision (P x)} (g : A → list B) l : (∀ x, x ∈ l → ¬ P x → g x = []) → filter P l ≫= g = l ≫= g.
Proof.
  induction l as [|x l IH]; [done|]. intros E. rewrite filter_cons. case_decide as Hx; rewrite !bind_cons, ?IH by set_solver; [done|]. by rewrite (E x) by (set_solver || done).
Qed.

Lemma fmap_bind {A B C} (f : B → C) (g : A → list B) l : f <$> (l ≫= g) = l ≫= λ x, f <$> g x.
Proof. induction l as [|x l IH]; [done|]. by rewrite !bind_cons, fmap_app, IH. Qed.

Context {F : Type} `{FileSystem F}.

(** The agent's disk holds every small file of the mirror as the mirror shows it. *)
Definition disk_matches (cfg : Config) (fs : F) (m : pathmap) (content : bytes → bytes) : Prop :=
  ∀ q a, (q, a) ∈ small_files m → on_disk cfg fs (join q) (content (join q)) ∧ zlen (content (join q)) = a_size a ∧ str_ok (join q).

(** Everything about the directories the warm-up queues. *)
Lemma warm_queue (cl : Client M) Fr m content cfg (fs : F) : stands (tree_ cl) Fr m → just_mounted cl → disk_matches cfg fs m content →
  sumZ (λ qa, a_size qa.2) (small_files m) <= rcache_cap_ (cache_ cl) →
  ∃ ds seen, (warm_cache cl) = (with_prefetch ((λ d, path_of (tree_ cl) d c_slash) <$> ds) seen (zlen ds) cl, zlen ds) ∧ Forall (f_dir Fr) ds
    ∧ ds ≫= dir_targets (tree_ cl) = target_of (tree_ cl) <$> (dirs_from (length (nodes_ (tree_ cl))) (tree_ cl) [root] ≫= picked (λ n, fetchable (n_attr n)) (tree_ cl))
    ∧ sumZ target_size (ds ≫= dir_targets (tree_ cl)) = sumZ (λ qa, a_size qa.2) (small_files m).
Proof.
  intros Hst [J1 J2 J3 J4 J5] Hdisk Hfit. set (t := tree_ cl) in *. set (n := length (nodes_ t)). pose proof Hst as (HF & (names & Ht) & _).
  pose proof (forest_size t names Fr (tr_shape _ _ _ Ht)) as Hsz. assert (size Fr <= n)%nat as Hn by (unfold n, zlen in *; lia).
  set (all := dirs_from n t [root]). set (ids := all ≫= picked (λ n, fetchable (n_attr n)) t).
  pose proof (small_files_perm t Fr m n Hst Hn) as HP. fold all ids in HP. destruct (dirs_spec t Fr m n Hst Hn) as (D1 & D2 & _). fold all in D1, D2.
  assert (sumZ (λ c, a_size (n_attr (node t c))) ids = sumZ (λ qa, a_size qa.2) (small_files m)) as Hsum by (rewrite <- HP, sumZ_fmap; done).
  assert (∀ c, c ∈ ids → 0 <= a_size (n_attr (node t c))) as Hnn.
  { intros c Hc. destruct (Hdisk (scan (path_of t c c_slash)) (n_attr (node t c))) as (_ & <- & _); [|apply zlen_nonneg]. rewrite <- HP. apply list_elem_of_fmap. by exists c. }
  assert (∀ d c, d ∈ all → c ∈ picked (λ n, fetchable (n_attr n)) t d → c ∈ ids) as Hids by (intros d c Hd Hc; apply list_elem_of_bind; eauto).
  assert (∀ d, d ∈ all → 0 <= dir_bytes t d) as Hdb by (intros d Hd; rewrite dir_bytes_sum; apply sumZ_nonneg; eauto).
  assert (sumZ (dir_bytes t) all = sumZ (λ c, a_size (n_attr (node t c))) ids) as Hall.
  { unfold ids. rewrite sumZ_bind. apply sumZ_ext. intros d _. apply dir_bytes_sum. }
  set (ds := filter (λ d, dir_bytes t d ≠ 0) all).
  assert ((warm_loop n t (rcache_cap_ (cache_ cl)) 0 [root]).1 = ds) as Hds by (rewrite warm_loop_dirs; apply affordable_all; [done|fold all; lia]).
  assert (∀ d, d ∈ ds → f_dir Fr d) as Hfd by (intros d [_ Hd]%list_elem_of_filter; by apply D2).
  assert (NoDup ((λ d, path_of t d c_slash) <$> ds)) as Hnd.
  { apply NoDup_fmap_2_strong; [|by apply NoDup_filter]. intros x y (gx & Hx & _)%Hfd (gy & Hy & _)%Hfd. eapply path_of_inj; [done|by eexists..]. }
  destruct (enqueue_all ((λ d, path_of t d c_slash) <$> ds) cl J1 Hnd) as [seen E]; [intros d _; rewrite J3; by apply not_elem_of_empty|].
  assert (ds ≫= dir_targets t = target_of t <$> ids) as Htg.
  { unfold ids. rewrite fmap_bind.
    apply (bind_skip (λ d, dir_bytes t d ≠ 0) (dir_targets t)). intros d Hd Hz. destruct (decide (dir_bytes t d = 0)) as [E0|]; [|by destruct Hz]. unfold dir_targets.
    destruct (picked (λ n, fetchable (n_attr n)) t d) as [|c l] eqn:Ep; [done|]. exfalso. rewrite dir_bytes_sum, Ep in E0.
    assert (c ∈ picked (λ n, fetchable (n_attr n)) t d) as Hc by (rewrite Ep; by left). pose proof (Hnn c (Hids d c Hd Hc)) as Hc0.
    assert (0 <= sumZ (λ c, a_size (n_attr (node t c))) l) by (apply sumZ_nonneg; intros y Hy; apply Hnn, (Hids d); [done|]; rewrite Ep; by right).
    apply list_elem_of_filter in Hc as [Hc _]. unfold fetchable in Hc. apply andb_true_iff in Hc as [Hc _]. apply andb_true_iff in Hc as [_ Hc]. apply negb_true_iff, Z.eqb_neq in Hc.
    unfold sumZ in *. cbn in E0. lia. }
  exists ds, seen. split_and!.
  - unfold warm_cache. fold t n. rewrite Hds, E, J2, J4. unfold zlen. by rewrite length_fmap.
  - by apply Forall_forall.
  - done.
  - rewrite Htg, sumZ_fmap. exact Hsum.
Qed.

Lemma join_scan_path (t : MetadataTree M) Fr m c : stands t Fr m → is_Some (Fr !! c) → join (scan (path_of t c c_slash)) = path_of t c c_slash.
Proof.
  intros Hst Hc. destruct (node_path t Fr m c Hst Hc) as (q & _ & -> & _ & Hv & _). f_equal. apply scan_join. eapply Forall_impl; [exact Hv|apply valid_comp].
Qed.

(** The targets of the warm-up and the small files of the map are the same. *)
Lemma small_targets (t : MetadataTree M) Fr m fuel : stands t Fr m → (size Fr <= fuel)%nat → ∀ f,
  f ∈ target_of t <$> (dirs_from fuel t [root] ≫= picked (λ n, fetchable (n_attr n)) t)
  ↔ ∃ q a, (q, a) ∈ small_files m ∧ f = (join q, (a_mtime_ns a, a_size a)).
Proof.
  intros Hst Hf f. rewrite list_elem_of_fmap. setoid_rewrite <- (small_files_perm t Fr m fuel Hst Hf). setoid_rewrite list_elem_of_fmap.
  destruct (picks_spec t Fr m (λ n, fetchable (n_attr n)) fuel Hst Hf) as (_ & L2). split.
  - intros (c & -> & Hc). eexists _, _. split; [by eauto|]. apply L2 in Hc as (_ & _ & Hc). by rewrite (join_scan_path t Fr m c Hst Hc).
  - intros (q & a & (c & [= -> ->] & Hc) & ->). exists c. split; [|done]. apply L2 in Hc as (_ & _ & Hc). by rewrite (join_scan_path t Fr m c Hst Hc).
Qed.

Lemma small_fetchable m q a : (q, a) ∈ small_files m → m !! q = Some a ∧ fetchable a = true ∧ a_size a <= kMaxCacheableFile.
Proof.
  intros [[_ Hf] Ha%elem_of_map_to_list]%list_elem_of_filter. split_and!; [done|done|]. unfold fetchable in Hf. by apply andb_true_iff in Hf as [_ ?%Z.leb_le].
Qed.

(** A cached file is read without the agent. *)
Lemma read_held (cl : Client M) content cap Fr m fs q a off len many one : stands (tree_ cl) Fr m → m !! q = Some a → fetchable a = true →
  holding content cap (cache_ cl) fs → (join q, (a_mtime_ns a, a_size a)) ∈ fs →
  ∃ c, read cl (join q) off len many one = (count_hit (with_cache c cl), Ok (slice (content (join q)) off len)).
Proof.
  intros Hst Ha Hf Hh Hin. destruct (path_node (tree_ cl) Fr m q a Hst Ha) as (x & Hq & _ & E & _). pose proof (lookup_node_path _ _ _ _ _ Hst Hq) as Hl.
  unfold fetchable in Hf. apply andb_true_iff in Hf as [Hf Hsz]. apply andb_true_iff in Hf as [Hk Hz]. apply bool_decide_eq_true in Hk. apply Z.leb_le in Hsz.
  unfold read, resolve_for_read. rewrite Hl, E. cbn [t_is_file t_size t_mtime_ns t_canonical read_key]. rewrite (bool_decide_eq_true_2 (a_kind a = File)) by done.
  destruct (Z.gtb_spec (a_size a) kMaxCacheableFile); [lia|]. cbn [negb orb]. unfold read_key. cbn [t_canonical]. rewrite bool_decide_eq_true_2 by done.
  pose proof (hd_map _ _ _ _ Hh _ Hin) as Hm. cbn [fst snd] in Hm. unfold cache_hit. rewrite Hm. cbn [ce_mtime ce_size ce_data]. rewrite !Z.eqb_refl. by eexists.
Qed.

(** C8: warming makes a mount local.  When the mirror's small files fit the cache
    together and the agent's disk holds them as the mirror shows them, the
    prefetcher works off every directory the warm-up queued, each batch it asks for
    is answered in full, nothing is evicted, and from then on each of those files
    is read, at any offset and length, from the cache: the bytes are the disk's and
    no request is made.  Who waits for the prefetcher to be idle waits no longer. *)
Theorem warm_reads_stay_local (cl : Client M) Fr m content cfg (fs : F) id :
  stands (tree_ cl) Fr m → just_mounted cl → disk_matches cfg fs m content →
  sumZ (λ qa, a_size qa.2) (small_files m) <= rcache_cap_ (cache_ cl) < 2 ^ 64 →
  let '(warming, n) := warm_cache cl in
  let cl' := prefetch_loop (Z.to_nat n) (agent_reads cfg fs id) warming in
  prefetch_idle cl' = true ∧ tree_ cl' = tree_ cl
  ∧ ∀ q a, (q, a) ∈ small_files m → ∀ off len many one,
      ∃ c, read cl' (join q) off len many one = (count_hit (with_cache c cl'), Ok (slice (content (join q)) off len)).
Proof.
  intros Hst Hjm Hdisk [Hfit Hcap]. pose proof Hst as (HF & (names & Ht) & _). pose proof (forest_size _ names Fr (tr_shape _ _ _ Ht)) as Hsz.
  destruct (warm_queue cl Fr m content cfg fs Hst Hjm Hdisk Hfit) as (ds & seen & -> & Hds & Htg & Hsum).
  assert (size Fr <= length (nodes_ (tree_ cl)))%nat as Hn by (unfold zlen in *; lia). pose proof (small_targets (tree_ cl) Fr m _ Hst Hn) as HS.
  set (t := tree_ cl) in *. set (n := length (nodes_ t)) in *. set (ids := dirs_from n t [root] ≫= picked (λ n, fetchable (n_attr n)) t) in Htg, HS. set (cl1 := with_prefetch _ seen _ cl). set (W := λ f : target, f ∈ target_of t <$> ids).
  assert (∀ f, W f → on_disk cfg fs f.1 (content f.1) ∧ fits_version content f ∧ target_size f <= kMaxCacheableFile ∧ str_ok f.1) as HW.
  { intros f (q & a & Hin & ->)%HS. destruct (Hdisk q a Hin) as (? & ? & ?), (small_fetchable m q a Hin) as (_ & _ & ?). done. }
  assert (fetching content (rcache_cap_ (cache_ cl)) W cl1 [] (ds ≫= dir_targets t)) as Hf.
  { destruct Hjm as [J1 _ _ _ J5]. split; cbn [app].
    - change (cache_ cl1) with (cache_ cl). rewrite J5. apply holding_new.
    - done.
    - rewrite Htg. by apply Forall_forall.
    - rewrite Htg, <- list_fmap_compose. by apply (picked_paths t Fr m fetchable n Hst Hn).
    - by rewrite Hsum. }
  destruct (prefetch_loop_spec content (rcache_cap_ (cache_ cl)) W (agent_reads cfg fs id) Hcap) with (F := Fr) (m := m) (ds := ds) (cl := cl1) (fs := @nil target)
    as (R1 & R2 & R3 & R4 & R5); [| |exact Hst|exact Hds|done|exact Hf|].
  - intros f Hw. destruct (HW f Hw) as (_ & ? & ? & _). done.
  - intros batch Hb. apply agent_answers. eapply Forall_impl; [exact Hb|exact HW].
  - unfold zlen; rewrite Nat2Z.id. split_and!; [unfold prefetch_idle; rewrite R2, R3; cbn [pf_pending_ cl1 with_prefetch]; rewrite orb_true_iff, andb_true_iff, Z.eqb_eq; right; split; [unfold zlen; lia|done]|done|]. intros q a Hin off len many one. destruct (small_fetchable m q a Hin) as (Ha & Hfe & _).
    eapply read_held; [by rewrite R4|exact Ha|exact Hfe|exact R1|]. change (tree_ cl1) with t. cbn [app]. rewrite Htg. apply HS. by exists q, a.
Qed.
End warm.

(** ** An agent with two files and one directory too many *)

Definition warm_ops : list TreeOp := [OpUpsertPath (str "src/a.txt") (mkAttr 4 100 420 File); OpUpsertPath (str "src/b.txt") (mkAttr 7 200 420 File); OpEnsureDirectory (str "empty")].
Definition warm_client : Client U64Map := with_tree (run tree_new warm_ops).1 (client_new CaseInsensitive).
Definition warm_agent : Config := mkConfig (str "/r") false (str "t") true (str "a") 10 true (parse []) 10.
Definition warm_disk : MemFs := {[ str "/r" := MDir; str "/r/src" := MDir; str "/r/src/a.txt" := MFile (str "abcd"); str "/r/src/b.txt" := MFile (str "gfedcba") ]}.
Definition warm_content (p : bytes) : bytes := if bool_decide (p = str "src/a.txt") then str "abcd" else str "gfedcba".
Definition warm_map : pathmap := (s_run s_new warm_ops).1.

Lemma warm_small_files : small_files warm_map = [([str "src"; str "a.txt"], mkAttr 4 100 420 File); ([str "src"; str "b.txt"], mkAttr 7 200 420 File)]
  ∨ small_files warm_map = [([str "src"; str "b.txt"], mkAttr 7 200 420 File); ([str "src"; str "a.txt"], mkAttr 4 100 420 File)].
Proof. vm_compute. (left; reflexivity) || (right; reflexivity). Qed.

Lemma warm_disk_matches : disk_matches warm_agent warm_disk warm_map warm_content.
Proof.
  assert (∀ p d, resolve_path warm_agent (normalize_path p) = Ok (str "/r/" ++ p) → warm_disk !! (str "/r/" ++ p) = Some (MFile d) → mem_key (str "/r/" ++ p) = str "/r/" ++ p → on_disk warm_agent warm_disk p d) as Hon.
  { intros p d Hr Hd Hk. exists (str "/r/" ++ p). cbn [fs_file_size fs_open fs_fread mem_fs]. rewrite Hk, Hd. split_and!; [done|done|done|]. intros _. cbn [Z.to_nat]. rewrite drop_0. unfold zlen. by rewrite Nat2Z.id, firstn_all. }
  intros q a Hin. assert ((q, a) = ([str "src"; str "a.txt"], mkAttr 4 100 420 File) ∨ (q, a) = ([str "src"; str "b.txt"], mkAttr 7 200 420 File)) as Hqa.
  { destruct warm_small_files as [E|E]; rewrite E in Hin; apply elem_of_cons in Hin as [Hin|Hin%list_elem_of_singleton]; tauto. }
  destruct Hqa as [[= -> ->]|[= -> ->]]; (split; [apply Hon; vm_compute; reflexivity|split; [vm_compute; reflexivity|vm_compute; split; [discriminate|reflexivity]]]).
Qed.

Lemma warm_reads_stay_local_witness :
  (warm_cache warm_client).2 = 1
  ∧ ∃ c, let cl' := prefetch_loop 1 (agent_reads warm_agent warm_disk 9) (warm_cache warm_client).1 in
         read cl' (str "src/b.txt") 2 3 (Err Timeout) (Err Timeout) = (count_hit (with_cache c cl'), Ok (str "edc")).
Proof.
  assert (Forall op_ok warm_ops) as Hok by (repeat constructor; vm_compute; reflexivity).
  destruct (run_new_sim (M := U64Map) warm_ops ltac:(vm_compute; reflexivity) Hok) as (Fr & Hst & _).
  assert (([str "src"; str "b.txt"], mkAttr 7 200 420 File) ∈ small_files warm_map) as Hin by (destruct warm_small_files as [-> | ->]; [apply list_elem_of_further|]; apply list_elem_of_here).
  pose proof (warm_reads_stay_local warm_client Fr warm_map warm_content warm_agent warm_disk 9 Hst ltac:(by split) warm_disk_matches ltac:(vm_compute; split; [discriminate|reflexivity])) as Hw.
  assert ((warm_cache warm_client).2 = 1) as E by (vm_compute; reflexivity). split; [exact E|]. destruct (warm_cache warm_client) as [cl1 n]. cbn [fst snd] in *. subst n.
  destruct Hw as (_ & _ & Hr). destruct (Hr _ _ Hin 2 3 (Err Timeout) (Err Timeout)) as [c Hc]. exists c.
  assert (slice (warm_content (join [str "src"; str "b.txt"])) 2 3 = str "edc") as E2 by (vm_compute; reflexivity). rewrite <- E2. exact Hc.
Defined.
