(* ===== verification/Converge.v ===== *)
(** * How a mirror catches up

    The effect of one invalidation batch on a mirror, as a path map: when every
    operation states what the disk has, and every path that differs is covered
    by one, the mirror equals the disk afterwards, whatever it was before. *)

From S2P Require Import Prelude Types KeyMap HashUtil FlatMap Wire Messages Path Unicode StringPool MetadataTree Forest TreeIndex TreeLinks TreeInv TreeSpec TreeRefine TreeProps.
From S2P Require Import Ignore Coalescer ReadCache FileSystem Resolve Scanner ScanProps Server Broadcast Requests Client ClientProps Mirror.

(** ** Paths *)

Definition op_names (op : InvalidationOp) : list bytes := components (op_path op).

(** [p] is a proper ancestor of [q]. *)
Definition above (p q : list bytes) : Prop := p `prefix_of` q ∧ p ≠ q.

Lemma named_app p q : named (p ++ q) = named p && named q.
Proof. unfold named. apply forallb_app. Qed.

Lemma named_parent q s : named (q ++ [s]) = true → named q = true.
Proof. rewrite named_app. by intros [? _]%andb_true_iff. Qed.

Lemma named_child q s : named q = true → valid_name s = true → named (q ++ [s]) = true.
Proof. intros Hq Hs. rewrite named_app, Hq. unfold named. cbn. by rewrite Hs. Qed.

Lemma named_ok q : named q = true → Forall comp_ok q.
Proof. unfold named. rewrite forallb_forall. intros Hq. apply Forall_forall. intros s Hs. by apply valid_comp, Hq, list_elem_of_In. Qed.

Lemma named_comp c r : named (c :: r) = true → skipped c = false ∧ is_dotdot c = false ∧ named r = true.
Proof.
  unfold named. cbn [forallb]. intros [Hc Hr]%andb_true_iff. split_and!; [by apply valid_comp| |done].
  unfold valid_name in Hc. unfold is_dotdot. repeat case_bool_decide; done.
Qed.

Lemma components_named q : named q = true → components (join q) = q.
Proof. intros Hq. by apply components_join, named_ok. Qed.

(** A path starts and ends inside a name. *)
Lemma join_ends q : q ≠ [] → named q = true → (∃ c s, join q = c :: s ∧ c ≠ c_slash) ∧ (∃ c s, join q = s ++ [c] ∧ c ≠ c_slash).
Proof.
  intros Hq Hn%named_ok. assert (∀ s, comp_ok s → s ≠ [] ∧ Forall (λ c, c ≠ c_slash) s) as Hok.
  { intros s [Hs Hc]. split; [by apply skipped_nil|]. eapply Forall_impl; [exact Hc|]. by intros c Hb ->. }
  split.
  - destruct q as [|s q]; [done|]. apply Forall_cons in Hn as [[Hs Hc]%Hok _]. destruct s as [|c s]; [done|]. apply Forall_cons in Hc as [Hc _]. exists c. destruct q; eauto.
  - destruct q as [|s q _] using rev_ind; [done|]. apply Forall_app in Hn as [_ [[Hs Hc]%Hok _]%Forall_cons]. destruct s as [|c s _] using rev_ind; [done|]. apply Forall_app in Hc as [_ [Hc _]%Forall_cons]. exists c.
    destruct (decide (q = [])) as [->|Hq']; [by exists s|]. rewrite join_snoc by done. exists (join q ++ c_slash :: s). by rewrite <- app_assoc.
Qed.

Lemma above_snoc p q s : above p (q ++ [s]) ↔ p `prefix_of` q.
Proof.
  split.
  - intros [[r Hr] Hne]. destruct r as [|x r _] using rev_ind; [by rewrite app_nil_r in Hr|]. rewrite app_assoc in Hr. apply app_inj_tail in Hr as [-> ->]. by eexists.
  - intros [r ->]. split; [exists (r ++ [s]); by rewrite app_assoc|]. intros E. apply (f_equal length) in E. rewrite !length_app in E. cbn in E. lia.
Qed.

(** ** Creating what is missing above a path *)

Definition dir_at (m : pathmap) (q : list bytes) : Prop := ∃ d, m !! q = Some d ∧ s_dir d = true.
Definition no_file_at (m : pathmap) (q : list bytes) : Prop := ∀ d, m !! q = Some d → s_dir d = true.

Lemma ensure_spec comps : ∀ m q, named comps = true → dir_at m q → (∀ r, r `prefix_of` comps → no_file_at m (q ++ r)) →
  ∃ m1, s_ensure m q comps = (m1, Ok (q ++ comps)) ∧ dir_at m1 (q ++ comps)
    ∧ ∀ x a, m1 !! x = Some a ↔ m !! x = Some a ∨ (m !! x = None ∧ a = kImplicitDirectory ∧ ∃ r, r `prefix_of` comps ∧ x = q ++ r).
Proof.
  induction comps as [|c comps IH]; intros m q Hn Hq Hpre; cbn [s_ensure].
  { exists m. rewrite app_nil_r. split_and!; [done..|]. intros x a. split; [by left|]. intros [?|(Hx & _ & r & ->%prefix_nil_inv & ->)]; [done|].
    rewrite app_nil_r in Hx. destruct Hq as (d & Hd & _). congruence. }
  pose proof (named_comp c comps Hn) as (Hsk & Hdd & _). unfold named in Hn. cbn [forallb] in Hn. apply andb_true_iff in Hn as [Hc Hn].
  assert (∀ r, q ++ c :: r = (q ++ [c]) ++ r) as Happ by (intros; by rewrite <- app_assoc).
  assert (no_file_at m (q ++ [c])) as Hcd by (apply Hpre; apply prefix_cons, prefix_nil).
  rewrite Hsk, Hdd, (Happ comps). destruct (m !! (q ++ [c])) as [d|] eqn:Ed.
  - rewrite (Hcd d Ed). destruct (IH m (q ++ [c])) as (m1 & E & Hm1 & Hx); [done|by exists d; split; [|apply Hcd]|intros r Hr; rewrite <- (Happ r); by apply Hpre, prefix_cons|].
    exists m1. split_and!; [done..|]. intros x a. rewrite Hx. split; (intros [?|(Hx0 & -> & r & Hr & ->)]; [by left|]); right; (split_and!; [done..|]).
    + exists (c :: r). by rewrite (Happ r); split; [apply prefix_cons|].
    + destruct r as [|c' r]; [rewrite app_nil_r in Hx0; destruct Hq as (? & ? & _); congruence|]. apply prefix_cons_inv_1 in Hr as Ec. subst c'. apply prefix_cons_inv_2 in Hr. exists r. by rewrite (Happ r).
  - destruct Hq as (dq & Hdq & Hdir). unfold s_insert. rewrite Hdq, Hdir, Hc, Ed. cbn [negb].
    destruct (IH (<[q ++ [c] := kImplicitDirectory]> m) (q ++ [c])) as (m1 & E & Hm1 & Hx); [done|exists kImplicitDirectory; split; [apply lookup_insert_eq|done]| |].
    { intros r Hr d. rewrite <- (Happ r), lookup_insert_Some. intros [[_ <-]|[_ Hd]]; [done|]. eapply Hpre; [by apply prefix_cons|done]. }
    exists m1. split_and!; [done..|]. intros x a. rewrite Hx, lookup_insert_Some, lookup_insert_None. split.
    + intros [[[<- <-]|[_ ?]]|((Hx0 & Hne) & -> & r & Hr & ->)]; [|by left|].
      * right. split_and!; [done..|]. exists [c]. split; [apply prefix_cons, prefix_nil|done].
      * right. split_and!; [done..|]. exists (c :: r). rewrite (Happ r). split; [by apply prefix_cons|done].
    + intros [Hx0|(Hx0 & -> & r & Hr & ->)]; [left; right; split; [intros <-; congruence|done]|].
      destruct r as [|c' r]; [rewrite app_nil_r in Hx0; congruence|]. apply prefix_cons_inv_1 in Hr as Ec. subst c'. apply prefix_cons_inv_2 in Hr.
      destruct r as [|c' r]; [left; left; done|]. right. split_and!; [done| |done|].
      * intros E'. apply (f_equal length) in E'. rewrite !length_app in E'. cbn in E'. lia.
      * exists (c' :: r). by rewrite (Happ (c' :: r)).
Qed.

Lemma s_upsert_path_join m q s a : named (q ++ [s]) = true →
  s_upsert_path m (join (q ++ [s])) a = match s_ensure m [] q with (m1, Ok p) => s_upsert m1 p s a | (m1, Err e) => (m1, Err e) end.
Proof. intros Hn. unfold s_upsert_path. rewrite components_named, reverse_snoc, reverse_involutive by done. by destruct (s_ensure m [] q) as [m1 []]. Qed.

(** Nothing hangs in the air. *)
Definition closed (m : pathmap) : Prop := ∀ q s, is_Some (m !! (q ++ [s])) → is_Some (m !! q).

Lemma closed_above m p q : closed m → p `prefix_of` q → is_Some (m !! q) → is_Some (m !! p).
Proof. intros Hm [r ->]. induction r as [|s r IH] using rev_ind; [by rewrite app_nil_r|]. rewrite app_assoc. intros Hq. by apply IH, (Hm _ s). Qed.

Lemma stands_closed {M} `{KeyMap M} (t : MetadataTree M) F m : stands t F m → closed m.
Proof.
  intros (HF & _ & Hm) q s [a Ha]. apply Hm in Ha as (x & g & Hx & _). inversion Hx as [E|q' c h Hq Hh Hn E]; [by destruct q|]. apply app_inj_tail in E as [-> _].
  destruct (at_path_in F 0 q _ HF Hq) as [gp Hgp]. exists (g_attr gp). by eapply shows_at.
Qed.

(** Writing an entry where no file is in the way. *)
Lemma upsert_spec m q s a : named (q ++ [s]) = true → closed m → dir_at m [] → (∀ r, r `prefix_of` q → no_file_at m r) →
  ∃ m', (s_upsert_path m (join (q ++ [s])) a).1 = m' ∧ m' !! (q ++ [s]) = Some a
    ∧ ∀ x b, x ≠ q ++ [s] →
        m' !! x = Some b ↔ (s_dir a = true ∨ ¬ q ++ [s] `prefix_of` x) ∧ (m !! x = Some b ∨ (m !! x = None ∧ b = kImplicitDirectory ∧ x `prefix_of` q)).
Proof.
  intros Hn Hcl Hroot Hpre. rewrite s_upsert_path_join by done. pose proof Hn as Hn'. rewrite named_app in Hn'. apply andb_true_iff in Hn' as [Hq Hs].
  destruct (ensure_spec q m []) as (m1 & -> & (d & Hd & Hdir) & Hx); [done..|]. cbn [app] in *. eexists. split; [done|].
  assert (∀ x b, x ≠ q ++ [s] → m1 !! x = Some b ↔ m !! x = Some b ∨ (m !! x = None ∧ b = kImplicitDirectory ∧ x `prefix_of` q)) as Hm1.
  { intros x b _. rewrite Hx. split; (intros [?|(? & ? & Hr)]; [by left|right; split_and!; [done..|]]); [by destruct Hr as (r & ? & ->)|by exists x]. }
  unfold s_upsert. destruct (m1 !! (q ++ [s])) as [o|] eqn:Eo.
  - unfold s_set. rewrite Eo. cbn [fst]. split; [apply lookup_insert_eq|]. intros x b Hne. rewrite lookup_insert_ne by done. destruct (s_dir a).
    + rewrite Hm1 by done. naive_solver.
    + unfold s_clear. rewrite map_lookup_filter_Some, Hm1 by done. cbn [fst]. naive_solver.
  - unfold s_insert. rewrite Hd, Hdir. assert (valid_name s = true) as -> by (unfold named in Hs; cbn in Hs; by rewrite andb_true_r in Hs). cbn [negb]. rewrite Eo. cbn [fst].
    split; [apply lookup_insert_eq|]. intros x b Hne. rewrite lookup_insert_ne, Hm1 by done. split; [|naive_solver].
    intros Hb. split; [|done]. right. intros Hp. destruct Hb as [Hb|(_ & _ & Hb)].
    + destruct (closed_above m (q ++ [s]) x Hcl Hp) as [o Ho]; [eauto|]. rewrite (proj2 (Hx (q ++ [s]) o)) in Eo; [done|by left].
    + assert (q ++ [s] `prefix_of` q) as Hb' by (by etrans). apply prefix_length in Hb'. rewrite length_app in Hb'. cbn in Hb'. lia.
Qed.

Lemma s_walk_named m r : ∀ q p, named r = true → s_walk m q r = Some p → p = q ++ r ∧ (r ≠ [] → is_Some (m !! p)).
Proof.
  induction r as [|c r IH]; intros q p Hn; cbn [s_walk]; [intros [= <-]; by rewrite app_nil_r|]. destruct (named_comp c r Hn) as (-> & -> & Hr).
  destruct (m !! (q ++ [c])) as [d|] eqn:Ed; [|done]. intros (-> & Hp)%IH; [|done]. rewrite <- app_assoc in *. split; [done|]. intros _.
  destruct r as [|c' r]; [cbn; eauto|by apply Hp].
Qed.

(** Removing an entry and what is below it. *)
Lemma remove_spec m q : named q = true → q ≠ [] → closed m → ∀ x b, (s_remove_path m (join q)).1 !! x = Some b ↔ m !! x = Some b ∧ ¬ q `prefix_of` x.
Proof.
  intros Hn Hne Hcl x b. unfold s_remove_path, s_lookup. rewrite scan_join by by apply named_ok.
  assert (is_Some (m !! q) → s_walk m [] q = Some q) as Hw.
  { intros Hq. rewrite (s_walk_path m [] q); [done| |]. { intros k. eapply closed_above; [done| |done]. exists (drop k q). by rewrite app_nil_l, take_drop. }
    unfold named in Hn. rewrite forallb_forall in Hn. apply Forall_forall. intros c Hc. by apply Hn, list_elem_of_In. }
  destruct (m !! q) as [a|] eqn:Eq.
  - rewrite Hw by eauto. unfold s_remove. rewrite Eq, bool_decide_eq_false_2 by done. cbn [fst]. unfold s_cut. by rewrite map_lookup_filter_Some.
  - assert ((match s_walk m [] q with Some p => s_remove m p | None => (m, Err NotFound) end).1 = m) as ->.
    { destruct (s_walk m [] q) as [p|] eqn:Ew; [|done]. apply s_walk_named in Ew as [-> Hp]; [|done]. destruct (Hp Hne) as [o Ho]. cbn in Ho. congruence. }
    split; [|by intros [? _]]. intros Hx. split; [done|]. intros Hp. destruct (closed_above m q x Hcl Hp) as [o Ho]; [eauto|]. congruence.
Qed.

(** Where there is an entry after [upsert_path], and that nothing hangs in the air. *)
Lemma upsert_some m q s a : named (q ++ [s]) = true → closed m → dir_at m [] → (∀ r, r `prefix_of` q → no_file_at m r) →
  let m' := (s_upsert_path m (join (q ++ [s])) a).1 in
  closed m' ∧ ∀ x, x ≠ q ++ [s] → is_Some (m' !! x) ↔ (s_dir a = true ∨ ¬ q ++ [s] `prefix_of` x) ∧ (is_Some (m !! x) ∨ x `prefix_of` q).
Proof.
  intros Hn Hcl Hroot Hpre. destruct (upsert_spec m q s a Hn Hcl Hroot Hpre) as (m' & -> & Hq & Hx). cbv zeta.
  assert (∀ x, x ≠ q ++ [s] → is_Some (m' !! x) ↔ (s_dir a = true ∨ ¬ q ++ [s] `prefix_of` x) ∧ (is_Some (m !! x) ∨ x `prefix_of` q)) as Hsome.
  { intros x Hne. split.
    - intros [b [? Hb]%Hx]; [|done]. split; [done|]. destruct Hb as [?|(_ & _ & ?)]; [left; eauto|by right].
    - intros [Hc Hb]. destruct (m !! x) as [b|] eqn:Em; [exists b; apply Hx; [done|split; [done|by left]]|]. destruct Hb as [[? ?]|?]; [done|].
      exists kImplicitDirectory. apply Hx; [done|]. split; [done|right; by split_and!]. }
  split; [|done]. intros x t Hxt. destruct (decide (x = q ++ [s])) as [->|Hne]; [eauto|]. apply Hsome; [done|]. destruct (decide (x ++ [t] = q ++ [s])) as [[-> _]%app_inj_tail|Hne'].
  - split; [right|by right]. intros Hpr%prefix_length. rewrite length_app in Hpr. cbn in Hpr. lia.
  - apply Hsome in Hxt as [Hc Hb]; [|done]. split.
    + destruct Hc as [?|Hc]; [by left|right]. intros Hpr. apply Hc. etrans; [done|]. by eexists.
    + destruct Hb as [Hb|Hb]; [left; by eapply Hcl|right]. etrans; [|done]. by eexists.
Qed.

(** ** One batch *)

(** What an operation does to the map; a rescan is asked for elsewhere. *)
Definition s_apply_op (m : pathmap) (op : InvalidationOp) : pathmap :=
  match op_kind op with
  | Upsert => (s_upsert_path m (op_path op) (op_attr op)).1
  | Remove => (s_remove_path m (op_path op)).1
  | Rescan => m
  end.

Section batch.
(** The disk. *)
Context (D : pathmap).
Hypothesis disk_root : dir_at D [].
Hypothesis disk_parent : ∀ p s, is_Some (D !! (p ++ [s])) → dir_at D p.

(** The operation states what the disk has at its path. *)
Definition op_states (op : InvalidationOp) : Prop :=
  op_kind op = Rescan
  ∨ ∃ q, q ≠ [] ∧ named q = true ∧ op_path op = join q ∧ match op_kind op with Upsert => D !! q = Some (op_attr op) | _ => D !! q = None end.

(** A path that an operation of [ops] names, or takes away with its parent. *)
Definition covered (ops : list InvalidationOp) (q : list bytes) : Prop :=
  ∃ op, op ∈ ops ∧ op_kind op ≠ Rescan ∧ (op_names op = q ∨ above (op_names op) q ∧ D !! q = None ∧ ¬ dir_at D (op_names op)).

(** Where a file became a directory, the directory has its own operation before
    any entry is written below it. *)
Definition in_order (m0 : pathmap) (done ops : list InvalidationOp) : Prop :=
  ∀ pre op post p, ops = pre ++ op :: post → op_kind op = Upsert → above p (op_names op) → dir_at D p →
    no_file_at m0 p ∨ ∃ o, o ∈ done ++ pre ∧ op_kind o ≠ Rescan ∧ op_names o = p.

(** What holds of the mirror [m] after the operations [done] and before [ops]. *)
Record catching_up (m0 m : pathmap) (done ops : list InvalidationOp) : Prop := {
  cu_closed : closed m;
  cu_root : m !! [] = D !! [];
  cu_wrong : ∀ q, m !! q ≠ D !! q → covered ops q;
  cu_right : ∀ o, o ∈ done → op_kind o ≠ Rescan → m !! op_names o = D !! op_names o;
  cu_files : ∀ q a, m !! q = Some a → s_dir a = false → m0 !! q = Some a ∨ D !! q = Some a
}.

(** A step that keeps what is right, and rights what its operation names. *)
Lemma catching_up_step m0 m m' done op ops : catching_up m0 m done (op :: ops) → closed m' →
  (∀ x, m !! x = D !! x → m' !! x = D !! x) →
  (op_kind op ≠ Rescan → m' !! op_names op = D !! op_names op ∧ ∀ x, above (op_names op) x → D !! x = None → ¬ dir_at D (op_names op) → m' !! x = D !! x) →
  (∀ x a, m' !! x = Some a → s_dir a = false → m !! x = Some a ∨ D !! x = Some a) →
  catching_up m0 m' (done ++ [op]) ops.
Proof.
  intros [C1 C2 C3 C4 C5] Hcl Hkeep Hop Hf. split; [done|by apply Hkeep| | |].
  - intros q Hq. destruct (C3 q) as (o & [->|Ho]%elem_of_cons & Hk & Hor); [intros E; by apply Hq, Hkeep| |by exists o].
    destruct (Hop Hk) as [H1 H2]. destruct Hor as [<-|(? & ? & ?)]; destruct Hq; [done|by apply H2].
  - intros o [Ho| ->%list_elem_of_singleton]%elem_of_app Hk; [by apply Hkeep, C4|by destruct (Hop Hk)].
  - intros q a Ha Hd. destruct (Hf q a Ha Hd) as [?|?]; [by apply C5|by right].
Qed.

Lemma disk_closed : closed D.
Proof. intros q s Hq. destruct (disk_parent q s Hq) as (d & Hd & _). eauto. Qed.

Lemma disk_above p q : above p q → is_Some (D !! q) → dir_at D p.
Proof.
  intros [[r ->] Hne] Hq. destruct r as [|s r]; [by rewrite app_nil_r in Hne|]. apply (disk_parent p s), (closed_above D _ (p ++ s :: r)); [apply disk_closed| |done].
  exists r. by rewrite <- app_assoc.
Qed.

Lemma upsert_catches_up m0 m done op ops q s : catching_up m0 m done (op :: ops) → in_order m0 done (op :: ops) → op_kind op = Upsert →
  op_path op = join (q ++ [s]) → named (q ++ [s]) = true → D !! (q ++ [s]) = Some (op_attr op) → catching_up m0 (s_apply_op m op) (done ++ [op]) ops.
Proof.
  intros Hm Hord Hk Hp Hn Hd. pose proof Hm as [C1 C2 C3 C4 C5]. assert (op_names op = q ++ [s]) as Hnm by (unfold op_names; rewrite Hp; by apply components_named).
  assert (∀ r, r `prefix_of` q → dir_at D r) as Habove by (intros r Hr; eapply disk_above; [by apply above_snoc, Hr|eauto]).
  assert (∀ r, r `prefix_of` q → no_file_at m r) as Hpre.
  { intros r Hr d Hmr. destruct (s_dir d) eqn:Ed; [done|]. destruct (Habove r Hr) as (d' & Hd' & Hdir).
    destruct (Hord [] op ops r eq_refl Hk) as [Hno|(o & Ho & Hko & <-)]; [rewrite Hnm; by apply above_snoc|by exists d'| |].
    - destruct (C5 r d Hmr Ed) as [Hm0|?]; [|congruence]. rewrite <- Ed. by apply Hno.
    - rewrite app_nil_r in Ho. rewrite (C4 o Ho Hko) in Hmr. congruence. }
  assert (dir_at m []) as Hroot by (unfold dir_at; by rewrite C2). unfold s_apply_op. rewrite Hk, Hp.
  destruct (upsert_some m q s (op_attr op) Hn C1 Hroot Hpre) as [Hcl Hsome]. destruct (upsert_spec m q s (op_attr op) Hn C1 Hroot Hpre) as (m' & Em' & Hq & Hx). rewrite Em' in *.
  assert (∀ x, x ≠ q ++ [s] → s_dir (op_attr op) = false → q ++ [s] `prefix_of` x → m' !! x = None ∧ D !! x = None) as Hcut.
  { intros x Hne Hf Hpr. split; apply eq_None_not_Some.
    - intros [[?|?] _]%Hsome; [congruence|done|done].
    - intros Hs. destruct (disk_above (q ++ [s]) x) as (d & Hd' & Hdir); [by split|done|congruence]. }
  eapply catching_up_step; [done|done| | |].
  - intros x E. destruct (decide (x = q ++ [s])) as [->|Hne]; [congruence|].
    assert ((s_dir (op_attr op) = false ∧ q ++ [s] `prefix_of` x) ∨ (s_dir (op_attr op) = true ∨ ¬ q ++ [s] `prefix_of` x)) as [[Hf Hpr]|Hc].
    { destruct (s_dir (op_attr op)), (decide (q ++ [s] `prefix_of` x)); auto. }
    { by destruct (Hcut x Hne Hf Hpr) as [-> ->]. }
    rewrite <- E. destruct (m !! x) as [b|] eqn:Em; [apply Hx; auto|]. apply eq_None_not_Some. intros [_ [[? ?]|Hpr]]%Hsome; [congruence| |done].
    destruct (Habove x Hpr) as (? & ? & _); congruence.
  - intros _. rewrite Hnm. split; [congruence|]. intros x [Hpr Hne] Hx0 Hnd. rewrite Hx0. apply Hcut; [done| |done]. destruct (s_dir (op_attr op)) eqn:Ea; [|done]. destruct Hnd. by exists (op_attr op).
  - intros x a Ha Hf. destruct (decide (x = q ++ [s])) as [->|Hne]; [right; congruence|]. by apply Hx in Ha as [_ [Ha|(_ & -> & _)]]; [left| |].
Qed.

Lemma remove_catches_up m0 m done op ops q : catching_up m0 m done (op :: ops) → op_kind op = Remove →
  op_path op = join q → q ≠ [] → named q = true → D !! q = None → catching_up m0 (s_apply_op m op) (done ++ [op]) ops.
Proof.
  intros Hm Hk Hp Hne Hn Hd. pose proof Hm as [C1 C2 C3 C4 C5]. assert (op_names op = q) as Hnm by (unfold op_names; rewrite Hp; by apply components_named).
  pose proof (remove_spec m q Hn Hne C1) as Hx. unfold s_apply_op. rewrite Hk, Hp. set (m' := (s_remove_path m (join q)).1) in *.
  assert (∀ x, q `prefix_of` x → m' !! x = None ∧ D !! x = None) as Hcut.
  { intros x Hpr. split; apply eq_None_not_Some; [by intros [b [_ ?]%Hx]|]. intros Hs. destruct (closed_above D q x disk_closed Hpr Hs). congruence. }
  eapply catching_up_step; [done|..].
  - intros x t [b [Hb Hpr]%Hx]. destruct (C1 x t) as [c Hc]; [eauto|]. exists c. apply Hx. split; [done|]. intros Hpr'. apply Hpr. etrans; [done|]. by eexists.
  - intros x E. destruct (decide (q `prefix_of` x)) as [Hpr|Hpr]; [by destruct (Hcut x Hpr) as [-> ->]|]. rewrite <- E. apply option_eq. intros b. rewrite Hx. naive_solver.
  - intros _. rewrite Hnm. split; [by destruct (Hcut q) as [-> ->]|]. intros x [Hpr _] _ _. by destruct (Hcut x Hpr) as [-> ->].
  - intros x a [Ha _]%Hx _. by left.
Qed.

(** Every operation brings the mirror closer, and none is left at the end. *)
Lemma batch_catches_up m0 ops : ∀ done m, catching_up m0 m done ops → Forall op_states ops → in_order m0 done ops → foldl s_apply_op m ops = D.
Proof.
  induction ops as [|op ops IH]; intros done m Hm Hst Hord; cbn [foldl].
  { apply map_eq. intros q. destruct (decide (m !! q = D !! q)) as [?|Hq]; [done|]. by destruct (cu_wrong _ _ _ _ Hm q Hq) as (o & ?%elem_of_nil & _). }
  apply Forall_cons in Hst as [Hop Hst].
  assert (op_kind op = Rescan → catching_up m0 (s_apply_op m op) (done ++ [op]) ops) as Hres.
  { intros Hk. unfold s_apply_op. rewrite Hk. eapply catching_up_step; [done|apply Hm|done|done|]. intros x a Ha _. by left. }
  apply (IH (done ++ [op])); [|done|].
  - destruct Hop as [Hk|(q & Hne & Hn & Hp & Hd)]; [by apply Hres|]. destruct (op_kind op) eqn:Hk; [|by eapply remove_catches_up|by apply Hres].
    destruct q as [|s q _] using rev_ind; [done|]. by eapply upsert_catches_up.
  - intros pre o post p -> Ho Hab Hdir. destruct (Hord (op :: pre) o post p eq_refl Ho Hab Hdir) as [?|?]; [by left|right]. by rewrite <- app_assoc.
Qed.

(** The whole batch. *)
Lemma batch_reaches m0 ops : closed m0 → m0 !! [] = D !! [] → (∀ q, m0 !! q ≠ D !! q → covered ops q) → Forall op_states ops → in_order m0 [] ops →
  foldl s_apply_op m0 ops = D.
Proof. intros Hcl Hr Hc Hst Hord. eapply batch_catches_up; [|done|done]. split; [done..| |by left]. by intros o ?%elem_of_nil. Qed.
End batch.

(** ** The client applies it *)

(** The calls on the tree an operation makes, in exact mode. *)
Definition as_op (op : InvalidationOp) : option TreeOp :=
  match op_kind op with
  | Upsert => Some (OpUpsertPath (op_path op) (op_attr op))
  | Remove => Some (OpRemovePath (op_path op))
  | Rescan => None
  end.
Definition as_ops (ops : list InvalidationOp) : list TreeOp := omap as_op ops.

Lemma s_run_app ops ops' : ∀ m, (s_run m (ops ++ ops')).1 = (s_run (s_run m ops).1 ops').1.
Proof. induction ops as [|op ops IH]; intros m; [done|]. cbn. destruct (s_op m op) as [m1 r]. specialize (IH m1). destruct (s_run m1 (ops ++ ops')), (s_run m1 ops). exact IH. Qed.

Lemma as_ops_cons op ops : as_ops (op :: ops) = match as_op op with Some o => o :: as_ops ops | None => as_ops ops end.
Proof. done. Qed.

Lemma s_apply_run ops : ∀ m, foldl s_apply_op m ops = (s_run m (as_ops ops)).1.
Proof.
  induction ops as [|op ops IH]; intros m; [done|]. cbn [foldl]. rewrite IH, as_ops_cons. unfold as_op, s_apply_op. destruct (op_kind op); cbn; [| |done].
  - destruct (s_upsert_path m _ _) as [m1 r]. cbn. by destruct (s_run m1 (as_ops ops)).
  - destruct (s_remove_path m _) as [m1 r]. cbn. by destruct (s_run m1 (as_ops ops)).
Qed.

Lemma as_ops_app a b : as_ops (a ++ b) = as_ops a ++ as_ops b.
Proof. apply omap_app. Qed.

Section client.
Context {M : Type} `{KeyMap M}.
Implicit Types (t : MetadataTree M) (cl : Client M).

Lemma run_app ops ops' : ∀ t, (run t (ops ++ ops')).1 = (run (run t ops).1 ops').1.
Proof. induction ops as [|op ops IH]; intros t; [done|]. cbn. destruct (run_op t op) as [t1 r]. specialize (IH t1). destruct (run t1 (ops ++ ops')), (run t1 ops). exact IH. Qed.

Lemma apply_run ops : ∀ t, foldl (apply_op Exact) t ops = (run t (as_ops ops)).1.
Proof.
  induction ops as [|op ops IH]; intros t; [done|]. cbn [foldl]. rewrite IH, as_ops_cons. unfold as_op, apply_op. destruct (op_kind op); cbn; [| |done].
  - destruct (upsert_path t _ _) as [t1 r]. cbn. by destruct (run t1 (as_ops ops)).
  - destruct (remove_path t _ _) as [t1 r]. cbn. by destruct (run t1 (as_ops ops)).
Qed.

(** A client that resolves names exactly and has no mutation of its own in
    flight. *)
Definition quiet cl : Prop := lookup_mode_ cl = Exact ∧ local_mutations_ cl = ∅.

Lemma retire_empty ops : foldl retire ∅ ops = ∅.
Proof. induction ops as [|op ops IH]; [done|]. cbn [foldl]. unfold retire at 2. rewrite delete_empty. by case_bool_decide. Qed.

Lemma apply_invalidation_quiet cl payload b : quiet cl → decodes_to payload b →
  quiet (apply_invalidation cl payload).1 ∧ tree_ (apply_invalidation cl payload).1 = foldl (apply_op Exact) (tree_ cl) (b_ops b).
Proof.
  intros [Hmode Hl] [rest Hd]. unfold apply_invalidation. rewrite Hd, Hmode, Hl.
  destruct (apply_fold_spec Exact (b_generation b) (b_ops b) (mkApplying (tree_ cl) ∅ [] [] false)) as (Et & El & _). cbn [ap_tree ap_local] in Et, El. rewrite fresh_ops_empty in Et, El.
  unfold apply_ops. rewrite retire_empty in El. set (s := foldl _ _ _) in *. unfold quiet, record_batch.
  cbn [fst with_local with_tree snapshot_in_flight_ snapshot_replay_]. repeat case_match; cbn; rewrite ?Et, ?El; by split_and!.
Qed.

Lemma receive_batches_quiet payloads bs cl : quiet cl → Forall2 decodes_to payloads bs →
  quiet (receive_batches cl payloads) ∧ tree_ (receive_batches cl payloads) = foldl (apply_op Exact) (tree_ cl) (concat (b_ops <$> bs)).
Proof.
  intros Hq Hd. revert cl Hq. induction Hd as [|pl b payloads bs Hb _ IH]; intros cl Hq; [done|]. cbn [receive_batches foldl fmap list_fmap concat].
  destruct (apply_invalidation_quiet cl pl b Hq Hb) as [Hq' Et]. destruct (IH _ Hq') as [Hq'' Et']. split; [done|]. by rewrite foldl_app, <- Et.
Qed.
End client.

(** ** The frames of a batch *)

Lemma op_on_wire_apply m op : s_apply_op m (op_on_wire op) = s_apply_op m op.
Proof. unfold s_apply_op, op_on_wire. cbn. by destruct (op_kind op). Qed.

(** What an operation needs to travel. *)
Definition sendable (op : InvalidationOp) : Prop := str_ok (op_path op) ∧ attr_ok (op_attr op) ∧ u32_ok (op_cookie op).

(** The frames of a batch carry its operations, in order. *)
Lemma broadcast_decodes chunk_bytes gen ops : u64_ok gen → zlen ops < 2 ^ 64 → Forall sendable ops →
  ∃ bs, Forall2 decodes_to (o_payload <$> broadcast_frames chunk_bytes (mkBatch gen ops)) bs ∧ concat (b_ops <$> bs) = op_on_wire <$> ops.
Proof.
  intros Hg Hz Hs. destruct (batch_chunks_spec (length ops) (batch_budget chunk_bytes) ops ltac:(done)) as [Hc _]. unfold broadcast_frames. cbn [b_ops b_generation].
  set (cs := batch_chunks _ _ _) in *. exists ((λ c, mkBatch gen (op_on_wire <$> c)) <$> cs). clearbody cs. subst ops. induction cs as [|c cs IH]; [by split|].
  cbn [concat] in Hz, Hs. rewrite zlen_app in Hz. pose proof (zlen_nonneg c). pose proof (zlen_nonneg (concat cs)). apply Forall_app in Hs as [Hs1 Hs2].
  destruct IH as [IH1 IH2]; [solve [done|lia]..|]. cbn [fmap list_fmap concat] in *. rewrite fmap_app, <- IH2. split; [|done]. constructor; [|done]. exists [].
  cbn [o_payload]. rewrite <- (app_nil_r (write_invalidation _)). apply invalidation_roundtrip; [done|unfold u64_ok; cbn [b_ops]; lia|done].
Qed.
