(* ===== verification/Catchup.v ===== *)
(** * The agent's batches bring mirrors up to date

    What [flush_loop] sends for the events it planned, against the disk: each
    operation states what the disk has, and the expansion of directories that
    appeared finds all there is below them.  With [Converge] a mirror that
    applies the frames of the batch shows the disk. *)

From S2P Require Import Prelude Types KeyMap HashUtil FlatMap Wire Messages Path Unicode StringPool MetadataTree Forest TreeIndex TreeLinks TreeInv TreeSpec TreeRefine TreeProps.
From S2P Require Import Ignore Coalescer ReadCache FileSystem Resolve Scanner ScanProps Server Broadcast Requests Client ClientProps Mirror Converge.

(** ** Paths of names on the disk *)

Lemma comp_last s : comp_ok s → ∃ c, last s = Some c ∧ (c =? c_slash) = false.
Proof.
  intros [Hs Hc]. destruct s as [|c s _] using rev_ind; [done|]. exists c. rewrite last_snoc. split; [done|].
  apply Forall_app in Hc as [_ [Hc _]%Forall_cons]. unfold is_path_separator in Hc. by apply orb_false_iff in Hc as [? _].
Qed.

Lemma comp_relative s : comp_ok s → is_absolute s = false.
Proof.
  intros [Hs Hc]. destruct s as [|c s]; [done|]. apply Forall_cons in Hc as [Hc _]. unfold is_path_separator in Hc. by apply orb_false_iff in Hc as [? _].
Qed.

Lemma join_last q : q ≠ [] → Forall comp_ok q → ∃ c, last (join q) = Some c ∧ (c =? c_slash) = false.
Proof.
  intros Hne Hq. destruct q as [|s q _] using rev_ind; [done|]. apply Forall_app in Hq as [_ [Hs _]%Forall_cons]. destruct (comp_last s Hs) as (c & Hc & Hsl). exists c. split; [|done].
  destruct (decide (q = [])) as [->|Hq]; [done|]. rewrite join_snoc by done. rewrite last_app, last_cons, Hc. done.
Qed.

Lemma join_relative_last root rel : is_absolute rel = false → rel ≠ [] → last (join_relative root rel) = last rel.
Proof.
  intros Ha Hne. unfold join_relative. rewrite Ha. destruct (last root); [|done]. assert (is_Some (last rel)) as [c Hc] by (by apply last_is_Some).
  destruct (_ =? _); by rewrite !last_app, Hc.
Qed.

Lemma join_absolute q : q ≠ [] → Forall comp_ok q → is_absolute (join q) = false.
Proof.
  destruct q as [|s q]; [done|]. intros _ [Hs _]%Forall_cons. pose proof (comp_relative s Hs) as Ha. destruct Hs as [Hs _]. destruct s as [|c s]; [done|]. destruct q; exact Ha.
Qed.

Lemma join_nonempty q : q ≠ [] → Forall comp_ok q → join q ≠ [].
Proof. intros Hne Hq E. destruct (join_last q Hne Hq) as (c & Hc & _). by rewrite E in Hc. Qed.

(** The path of [q] below the root is one string join. *)
Lemma full_join dir q : q ≠ [] → named q = true → full dir q = join_relative dir (join q).
Proof.
  induction q as [|s q IH] using rev_ind; [done|]. intros _ Hn. rewrite named_app in Hn. apply andb_true_iff in Hn as [Hq Hs]. rewrite full_snoc.
  destruct (decide (q = [])) as [->|Hne]; [done|]. rewrite IH by done. pose proof (named_ok q Hq) as Hok. apply named_ok, Forall_cons in Hs as [Hs _].
  pose proof (join_absolute q Hne Hok) as Ha. rewrite join_snoc by done. unfold join_relative at 1. rewrite (comp_relative s Hs), join_relative_last by (done || by apply join_nonempty).
  destruct (join_last q Hne Hok) as (c & -> & ->). unfold join_relative. rewrite Ha. assert (is_absolute (join q ++ c_slash :: s) = false) as -> by (pose proof (join_nonempty q Hne Hok); by destruct (join q)).
  destruct (last dir); [destruct (_ =? _)|]; by rewrite <- ?app_assoc.
Qed.

(** What the ignore rules see. *)
Lemma rel_join q : named q = true → rel_of q = join q.
Proof.
  induction q as [|s q IH] using rev_ind; [done|]. intros Hn. rewrite named_app in Hn. apply andb_true_iff in Hn as [Hq Hs]. rewrite rel_snoc, IH by done. unfold rel_step.
  destruct (decide (q = [])) as [->|Hne]; [done|]. rewrite bool_decide_eq_false_2, join_snoc by (done || by apply join_nonempty, named_ok). done.
Qed.

(** ** The paths [append_subtrees] makes *)

Lemma entry_paths_locate r es : r ≠ [] → ∀ L, (∀ (k : nat) e, es !! k = Some e → (Z.to_nat (se_parent e) < length L + k)%nat) →
  entry_paths ((λ q, join (r ++ q)) <$> L) es = (λ qa, (join (r ++ qa.1), qa.2)) <$> locate L es.
Proof.
  intros Hr. induction es as [|e es IH]; intros L Hp; [done|]. cbn [entry_paths locate fmap list_fmap fst snd]. cbv zeta.
  destruct (lookup_lt_is_Some_2 L (Z.to_nat (se_parent e))) as [q Hq]; [specialize (Hp 0%nat e eq_refl); lia|].
  rewrite (list_lookup_total_correct L _ _ Hq), (list_lookup_total_correct (_ <$> L) _ (join (r ++ q))) by (by rewrite list_lookup_fmap, Hq).
  rewrite app_assoc, join_snoc by (by destruct r). f_equal. rewrite <- IH.
  - rewrite fmap_app. cbn. by rewrite app_assoc, join_snoc by (by destruct r).
  - intros k e' Hk. specialize (Hp (S k) e' Hk). rewrite length_app. cbn. lia.
Qed.

(** What is above an entry of a walk precedes it. *)
Definition parents_first (l : list (list bytes)) : Prop :=
  ∀ pre q post p, l = pre ++ q :: post → above p q → p = [] ∨ p ∈ pre.

Lemma locate_parents es : (∀ (k : nat) e, es !! k = Some e → 0 <= se_parent e <= Z.of_nat k) → parents_first (locate [[]] es).*1.
Proof.
  intros Hpar. assert (∀ n pre q post p, (length pre < n)%nat → (locate [[]] es).*1 = pre ++ q :: post → above p q → p = [] ∨ p ∈ pre) as Hn; [|intros pre q post p; apply (Hn (S (length pre))); lia].
  induction n as [|n IH]; intros pre q post p Hlen El Hp; [lia|].
  destruct (lookup_lt_is_Some_2 es (length pre)) as [e He]. { rewrite <- (locate_length [[]] es), <- (length_fmap fst), El, length_app. cbn. lia. }
  pose proof (Hpar _ _ He) as Hpe. pose proof (take_drop_middle _ _ _ He) as Ees. set (es0 := take (length pre) es) in *. assert (length es0 = length pre) as Hl0 by (apply lookup_lt_Some in He; unfold es0; rewrite length_take; lia).
  assert ((locate [[]] es0).*1 = pre ∧ q = (places es0 !!! Z.to_nat (se_parent e)) ++ [se_name e]) as [Epre Eq].
  { rewrite <- Ees, locate_app, fmap_app in El. apply app_inj_1 in El as [E1 E2]; [|by rewrite length_fmap, locate_length]. cbn in E2. injection E2 as E2 _. split; [done|]. by rewrite <- E2. }
  destruct (lookup_lt_is_Some_2 (places es0) (Z.to_nat (se_parent e))) as [x Hx]; [pose proof (zlen_places es0); unfold zlen in *; lia|].
  rewrite (list_lookup_total_correct _ _ _ Hx) in Eq. subst q. apply above_snoc in Hp. unfold places in Hx. apply list_elem_of_lookup_2 in Hx. rewrite Epre in Hx.
  apply elem_of_cons in Hx as [->|Hx]; [left; by apply prefix_nil_inv|]. destruct (decide (p = x)) as [->|Hne]; [by right|].
  apply list_elem_of_split in Hx as (pre1 & pre2 & ->). destruct (IH pre1 x (pre2 ++ (x ++ [se_name e]) :: post) p) as [?|?]; [rewrite length_app in Hlen; cbn in Hlen; lia|by rewrite El, <- app_assoc|done|by left|].
  right. apply elem_of_app. by left.
Qed.

(** ** Splitting lists *)

Lemma omap_middle {A B} (f : A → option B) l : ∀ a y b, omap f l = a ++ y :: b → ∃ l1 x l2, l = l1 ++ x :: l2 ∧ omap f l1 = a ∧ f x = Some y.
Proof.
  induction l as [|x l IH]; intros a y b; cbn; [by destruct a|]. destruct (f x) as [z|] eqn:Ef.
  - destruct a as [|z' a]; cbn; [intros [= -> _]; by exists [], x, l|]. intros [= -> (l1 & x1 & l2 & -> & Ha & Hf)%IH]. exists (x :: l1), x1, l2. cbn. by rewrite Ef, Ha.
  - intros (l1 & x1 & l2 & -> & Ha & Hf)%IH. exists (x :: l1), x1, l2. cbn. by rewrite Ef, Ha.
Qed.

Lemma bind_middle {A B} (f : A → list B) l : ∀ a y b, l ≫= f = a ++ y :: b →
  ∃ l1 x l2 a' b', l = l1 ++ x :: l2 ∧ a = (l1 ≫= f) ++ a' ∧ f x = a' ++ y :: b'.
Proof.
  induction l as [|x l IH]; intros a y b; cbn; [by destruct a|]. intros Hl. apply app_eq_app in Hl as (c & [[Hx Hr]|[-> Hr]]).
  - destruct c as [|z c].
    + rewrite app_nil_r in Hx. cbn in Hr. symmetry in Hr. apply (IH []) in Hr as (l1 & x1 & l2 & a' & b' & -> & E & Hf). exists (x :: l1), x1, l2, a', b'. cbn. rewrite Hx, <- app_assoc, <- E, app_nil_r. by split_and!.
    + injection Hr as <- _. exists [], x, l, a, c. by split_and!.
  - apply IH in Hr as (l1 & x1 & l2 & a' & b' & -> & -> & Hf). exists (x :: l1), x1, l2, a', b'. cbn. by rewrite <- app_assoc.
Qed.

(** Only kind, path and attributes matter to a mirror. *)
Lemma apply_same ops ops' : (λ o, (op_kind o, op_path o, op_attr o)) <$> ops = (λ o, (op_kind o, op_path o, op_attr o)) <$> ops' → ∀ m, foldl s_apply_op m ops = foldl s_apply_op m ops'.
Proof.
  revert ops'. induction ops as [|o ops IH]; intros [|o' ops']; try done. cbn. intros [= E1 E2 E3 E4] m. rewrite (IH _ E4). f_equal. unfold s_apply_op. by rewrite E1, E2, E3.
Qed.

(** Every directory is below a root that is scanned. *)
Lemma scan_roots_cover dirs : ∀ last rel, rel ∈ dirs → (∃ top, top ∈ scan_roots last dirs ∧ path_is_under rel top = true) ∨ (last ≠ [] ∧ path_is_under rel last = true).
Proof.
  induction dirs as [|d dirs IH]; intros last rel; [by intros ?%elem_of_nil|]. cbn [scan_roots]. destruct (negb (bool_decide (last = [])) && path_is_under d last) eqn:Eu.
  - intros [->|Hrel]%elem_of_cons; [right|by apply IH]. apply andb_true_iff in Eu as [En Eu]. split; [|done]. by apply negb_true_iff, bool_decide_eq_false in En.
  - intros [->|Hrel]%elem_of_cons; [left; exists d; split; [left|]; apply path_is_under_app; right; exists []; rewrite app_nil_r; auto|].
    destruct (IH d rel Hrel) as [(top & Ht & Hu)|[_ Hu]]; [left; exists top; split; [by right|done]|left; exists d; split; [left|done]].
Qed.

Lemma scan_roots_sub dirs : ∀ last top, top ∈ scan_roots last dirs → top ∈ dirs.
Proof.
  induction dirs as [|d dirs IH]; intros last top; [done|]. cbn [scan_roots]. case_match; [intros ?; right; by eapply IH|]. intros [->|?]%elem_of_cons; [left|right; by eapply IH].
Qed.

(** ** The disk while a batch is made *)
Section disk.
Context {F : Type} `{FileSystem F} (cfg : Config) (fs : F).

Abbreviation on_disk := (found fs (cfg_root cfg) (cfg_skip cfg) (cfg_device cfg fs)).
Abbreviation opened := (walked fs (cfg_root cfg) (cfg_skip cfg) (cfg_device cfg fs)).
Abbreviation names_in := (listed fs (cfg_root cfg)).
Abbreviation path_to := (full (cfg_root cfg)).

(** [D] is the disk: it can be scanned and represented, a directory the walk
    enters is one for the operating system too and is on the served
    filesystem. *)
Record steady (E : list (list bytes)) (D : pathmap) : Prop := {
  sd_servable : servable cfg fs E;
  sd_map : serves cfg fs D;
  sd_named : ∀ q a, on_disk q a → named q = true;
  sd_dirs : ∀ p, opened p → fs_is_directory fs (path_to p) = true;
  sd_device : ∀ p, opened p → root_device fs (path_to p) (cfg_one_fs cfg) = cfg_device cfg fs
}.

Lemma opened_found p : opened p → p = [] ∨ ∃ a, on_disk p a ∧ s_dir a = true.
Proof.
  intros Hp. destruct Hp as [|p q a Hp Hq]; [by left|right]. exists a. split; [by exists p, true|].
  destruct Hq as (s & _ & _ & He). unfold entry_at in He. destruct (fs_lstat fs _) as [st|]; [|done]. cbn [mbind option_bind] in He.
  destruct (bool_decide _ || _); [done|]. injection He as <- [E _]%andb_true_iff. by apply directory_dir.
Qed.

Section steady.
Context (E : list (list bytes)) (D : pathmap) (Hsd : steady E D).

Lemma disk_at q a : q ≠ [] → D !! q = Some a ↔ on_disk q a.
Proof.
  intros Hne. rewrite (sd_map _ _ Hsd q a). split; [intros [[? _]|[_ ?]]; done|]. intros Ha. right. split; [by eapply sd_named|done].
Qed.

Lemma disk_root : D !! [] = Some kImplicitDirectory.
Proof. apply (sd_map _ _ Hsd). by left. Qed.

Lemma disk_parent p s : is_Some (D !! (p ++ [s])) → dir_at D p.
Proof.
  intros [a Ha]. apply disk_at in Ha as (p' & b & Hp & s' & _ & [<- <-]%app_inj_tail & _); [|by destruct p].
  destruct (decide (p = [])) as [->|Hne]; [exists kImplicitDirectory; split; [apply disk_root|done]|].
  destruct (opened_found p Hp) as [?|(d & Hd & Hdir)]; [done|]. exists d. split; [by apply disk_at|done].
Qed.

(** ** What a planned path resolves to *)

(** The watcher reports paths of names, in directories the walk enters. *)
Definition watched (q : list bytes) : Prop :=
  named q = true ∧ ∃ p s, q = p ++ [s] ∧ ∀ st, fs_lstat fs (path_to q) = Some st → opened p ∧ s ∈ names_in p.

Lemma ignored_skip q b : named q = true → is_ignored cfg (join q) = false → cfg_skip cfg (rel_of q) b = false.
Proof.
  intros Hn. rewrite rel_join by done. unfold is_ignored, cfg_skip. case_bool_decide; [done|]. cbn [negb andb]. intros [? ?]%orb_false_iff. by destruct b.
Qed.

Lemma read_at q : q ≠ [] → named q = true →
  Scanner.read_attributes fs (join_relative (cfg_root cfg) (join q)) = match fs_lstat fs (path_to q) with None => Err NotFound | Some st => Ok (attributes_from st) end.
Proof. intros Hne Hn. unfold Scanner.read_attributes. by rewrite full_join. Qed.

(** A planned operation that goes into the batch states what the disk has. *)
Lemma resolve_states op q out : watched q → po_path op = join q → po_kind op ≠ Rescan → resolve_op cfg fs op = Some out →
  op_path out = join q ∧ match op_kind out with Upsert => D !! q = Some (op_attr out) | Remove => D !! q = None | Rescan => False end.
Proof.
  intros (Hn & p & s & -> & Hw) Hp Hk. unfold resolve_op. rewrite Hp, read_at by (done || by destruct p). set (q := p ++ [s]) in *. assert (q ≠ []) as Hne by (unfold q; by destruct p).
  assert (fs_lstat fs (path_to q) = None → D !! q = None) as Hgone.
  { intros El. apply eq_None_not_Some. intros [a (p' & b & _ & s' & _ & _ & He)%disk_at]; [|done]. unfold entry_at in He. by rewrite El in He. }
  assert (∀ st, fs_lstat fs (path_to q) = Some st → is_ignored cfg (join q) = false → a_kind (attributes_from st) ≠ Other → D !! q = Some (attributes_from st)) as Hthere.
  { intros st El Hi Ho. apply disk_at; [done|]. destruct (Hw st El) as [Hop Hin]. eexists p, _. split; [done|]. exists s. split_and!; [done..|]. unfold entry_at. rewrite El. cbn [mbind option_bind].
    rewrite bool_decide_eq_false_2, ignored_skip by done. done. }
  destruct (po_kind op) eqn:Ek; [| |done].
  all: destruct (is_ignored cfg (join q)) eqn:Hi; [done|].
  all: destruct (fs_lstat fs (path_to q)) as [st|] eqn:El; [specialize (Hthere st eq_refl eq_refl)|specialize (Hgone eq_refl)].
  all: try (destruct (a_kind (attributes_from st)) eqn:Eo; [..|done]).
  all: intros [= <-]; destruct (po_change op); cbn; rewrite ?Hp; (split; [done|]); first [done|by apply Hthere].
Qed.

(** ** The subtree of a directory that appeared *)

Lemma opened_named p : opened p → named p = true.
Proof. intros [->|(a & Ha & _)]%opened_found; [done|by eapply sd_named]. Qed.

Lemma rel_of_below r p s : r ≠ [] → named (r ++ p) = true → rel_of ((r ++ p) ++ [s]) = join r ++ c_slash :: rel_of (p ++ [s]).
Proof.
  intros Hr Hn. rewrite rel_snoc, rel_join by done. unfold rel_step. pose proof (named_ok _ Hn) as Hok. pose proof Hn as Hn'. rewrite named_app in Hn'. apply andb_true_iff in Hn' as [Hnr Hnp].
  rewrite bool_decide_eq_false_2 by (apply join_nonempty; [by destruct r|done]). rewrite rel_snoc, rel_join by done. unfold rel_step.
  destruct (decide (p = [])) as [->|Hp].
  - rewrite app_nil_r. by rewrite bool_decide_eq_true_2.
  - rewrite bool_decide_eq_false_2 by (apply join_nonempty; [done|by apply named_ok]). by rewrite join_app, <- app_assoc.
Qed.

Section below.
Context (r : list bytes) (r_opened : opened r) (r_below : r ≠ []).

(** The walk [append_subtrees] starts at [r]. *)
Definition sub_skip (sub : bytes) (is_dir : bool) : bool :=
  negb (bool_decide (patterns_ (cfg_ignore cfg) = [])) && ignored (cfg_ignore cfg) (join r ++ c_slash :: sub) is_dir.
Abbreviation sub_dev := (root_device fs (path_to r) (cfg_one_fs cfg)).
Abbreviation sub_found := (found fs (path_to r) sub_skip sub_dev).

Lemma full_below p : full (path_to r) p = path_to (r ++ p).
Proof. unfold full. by rewrite foldl_app. Qed.

Lemma listed_below p : listed fs (path_to r) p = names_in (r ++ p).
Proof. unfold listed. by rewrite full_below. Qed.

Lemma entry_below p s : opened (r ++ p) →
  entry_at fs (path_to r) sub_skip sub_dev (p ++ [s]) = entry_at fs (cfg_root cfg) (cfg_skip cfg) (cfg_device cfg fs) ((r ++ p) ++ [s]).
Proof.
  intros Hp. unfold entry_at. rewrite full_below, app_assoc, (sd_device _ _ Hsd r r_opened). destruct (fs_lstat fs _) as [st|]; [|done]. cbn [mbind option_bind].
  assert (∀ b, sub_skip (rel_of (p ++ [s])) b = cfg_skip cfg (rel_of ((r ++ p) ++ [s])) b) as E'; [|by rewrite E'].
  intros b. rewrite rel_of_below by (done || by apply opened_named). unfold sub_skip, cfg_skip. by case_bool_decide.
Qed.

Lemma walked_below p : walked fs (path_to r) sub_skip sub_dev p ↔ opened (r ++ p).
Proof.
  split.
  - induction 1 as [|p q a _ IH (s & Hs & -> & He)]; [by rewrite app_nil_r|]. rewrite app_assoc. eapply walked_sub; [exact IH|]. exists s.
    rewrite listed_below in Hs. rewrite entry_below in He by done. by split_and!.
  - induction p as [|s p IH] using rev_ind; [constructor|]. rewrite app_assoc. intros Hp. inversion Hp as [E0|p1 q a Hp1 (s1 & Hs & E1 & He)]; [by destruct r, p|subst q].
    apply app_inj_tail in E1 as [<- <-]. eapply walked_sub; [by apply IH|]. exists s. rewrite listed_below, entry_below by done. by split_and!.
Qed.

Lemma found_below q a : sub_found q a ↔ q ≠ [] ∧ on_disk (r ++ q) a.
Proof.
  split.
  - intros (p & d & Hp & s & Hs & -> & He). split; [by destruct p|]. rewrite walked_below in Hp. rewrite listed_below in Hs. rewrite entry_below in He by done.
    exists (r ++ p), d. split; [done|]. exists s. by rewrite app_assoc.
  - intros [Hq (p1 & d & Hp1 & s & Hs & E1 & He)]. destruct q as [|s1 q _] using rev_ind; [done|]. rewrite app_assoc in E1, He. apply app_inj_tail in E1 as [<- <-].
    exists q, d. split; [by apply walked_below|]. exists s1. rewrite listed_below, entry_below by done. by split_and!.
Qed.

Lemma surveyed_below : surveyed fs (path_to r) sub_skip sub_dev (drop (length r) <$> E).
Proof.
  destruct (sb_disk _ _ _ (sd_servable _ _ Hsd)) as [S1 S2 S3]. split.
  - intros p Hp%walked_below. rewrite listed_below. by apply S1.
  - intros q a [_ Hq]%found_below. apply list_elem_of_fmap. exists (r ++ q). by rewrite drop_app_length; split; [|eapply S2].
  - intros q s (x & E1 & Hx)%list_elem_of_fmap. apply (S3 (take (length r) x ++ q)). by rewrite <- app_assoc, E1, take_drop.
Qed.

(** [append_subtrees] finds all there is below [r], parents first. *)
Lemma subtree_spec : ∃ L : list (list bytes * Attributes),
  subtree_entries cfg fs (join r) = (λ qa, (join (r ++ qa.1), qa.2)) <$> L ∧ parents_first L.*1 ∧ ∀ q a, (q, a) ∈ L ↔ q ≠ [] ∧ on_disk (r ++ q) a.
Proof.
  pose proof (sd_servable _ _ Hsd) as Hsv. pose proof (sb_fuel _ _ _ Hsv). pose proof (sb_count _ _ _ Hsv). assert (kMaxSnapshotEntries < 2 ^ 30) as Hcap by done.
  destruct (scan_finds (cfg_fuel cfg) fs (path_to r) sub_skip (cfg_one_fs cfg) (drop (length r) <$> E) surveyed_below) as (w & Ew & _ & (_ & _ & Hpar) & _ & _ & Hel).
  { unfold zlen in *. rewrite length_fmap. lia. }
  { by rewrite length_fmap. }
  { by apply (sd_dirs _ _ Hsd). }
  exists (locate [[]] (w_out w)). split_and!; [|by apply locate_parents|intros q a; by rewrite Hel, found_below].
  unfold subtree_entries. fold sub_skip. rewrite <- full_join by (done || by apply opened_named). rewrite Ew. rewrite <- entry_paths_locate; [cbn; by rewrite app_nil_r|done|].
  intros k e He. apply Hpar in He. cbn. lia.
Qed.
End below.

(** ** The batch *)
Section batch.
Context (max_expanded : Z) (planned : list PlannedOp) (m0 : pathmap).

Definition po_names (op : PlannedOp) : list bytes := components (po_path op).

(** [op] gets an operation in the batch (it is neither ignored nor a device). *)
Definition resolved (op : PlannedOp) : Prop := is_Some (resolve_op cfg fs op).

(** What the events are assumed to have told of the changes since [m0]: they
    name paths the watcher can see; a directory that appeared is no mount point;
    a path that changed is named by an event that is not filtered out, or has
    disappeared with a directory that is, or has appeared in one; and where a
    file became a directory, the directory comes before what is in it. *)
Record reported : Prop := {
  rp_paths : ∀ op, op ∈ planned → ∃ q, watched q ∧ po_path op = join q;
  rp_appeared : ∀ op a, op ∈ planned → po_appeared op = true → D !! po_names op = Some a → s_dir a = true → opened (po_names op);
  rp_covers : ∀ q, m0 !! q ≠ D !! q → ∃ op, op ∈ planned ∧ resolved op
    ∧ (po_names op = q ∨ above (po_names op) q ∧ D !! q = None ∧ ¬ dir_at D (po_names op)
       ∨ above (po_names op) q ∧ is_Some (D !! q) ∧ po_appeared op = true);
  rp_order : ∀ pre op post p, planned = pre ++ op :: post → above p (po_names op) → dir_at D p →
    no_file_at m0 p ∨ ∃ o, o ∈ pre ∧ resolved o ∧ po_names o = p
}.
Hypothesis Hrp : reported.
Hypothesis no_rescan : ∀ op, op ∈ flush_ops cfg max_expanded fs planned → op_kind op ≠ Rescan.

Abbreviation own := (resolve_all cfg fs planned).
Abbreviation dirs := (expand_dirs cfg fs planned).
Abbreviation tops := (scan_roots [] (merge_sort path_le dirs)).
Definition expanded (pa : bytes * Attributes) : option InvalidationOp :=
  if bool_decide (pa.1 ∈ (op_path <$> own)) then None else Some (mkOp Upsert pa.1 pa.2 Created 0).
Definition extra : list InvalidationOp := omap expanded (tops ≫= subtree_entries cfg fs).

(** A mirror sees the batch as the planned operations, then the expansion. *)
Lemma flush_shape : (λ o, (op_kind o, op_path o, op_attr o)) <$> flush_ops cfg max_expanded fs planned = (λ o, (op_kind o, op_path o, op_attr o)) <$> own ++ extra.
Proof.
  unfold flush_ops. cbv zeta. rewrite repair_wire. unfold extra. case_bool_decide as Ed; [rewrite Ed; cbn; by rewrite app_nil_r|]. unfold append_subtrees. case_match eqn:Eo; [|done].
  assert (∃ o, o ∈ flush_ops cfg max_expanded fs planned ∧ op_kind o = Rescan) as (o & Ho & Hk); [|by apply no_rescan in Ho].
  assert ((Rescan, [], default_attr) ∈ (λ o, (op_kind o, op_path o, op_attr o)) <$> flush_ops cfg max_expanded fs planned) as Hin.
  { unfold flush_ops. rewrite bool_decide_eq_false_2 by done. rewrite repair_wire. unfold append_subtrees. rewrite Eo, fmap_app. apply elem_of_app. right. by left. }
  apply list_elem_of_fmap in Hin as (o & E1 & Ho). exists o. split; [done|congruence].
Qed.

Lemma flush_kind o : o ∈ own ++ extra → op_kind o ≠ Rescan.
Proof.
  intros Ho Hk. assert ((op_kind o, op_path o, op_attr o) ∈ (λ o, (op_kind o, op_path o, op_attr o)) <$> own ++ extra) as Hin by (apply list_elem_of_fmap; eauto).
  rewrite <- flush_shape in Hin. apply list_elem_of_fmap in Hin as (o' & [= E1 _ _] & Ho'). apply (no_rescan o' Ho'). congruence.
Qed.

(** A planned operation and what it became. *)
Lemma own_op op out : op ∈ planned → resolve_op cfg fs op = Some out →
  out ∈ own ∧ ∃ q, q ≠ [] ∧ named q = true ∧ po_names op = q ∧ op_names out = q ∧ op_path out = join q
    ∧ match op_kind out with Upsert => D !! q = Some (op_attr out) | Remove => D !! q = None | Rescan => False end.
Proof.
  intros Hop Hr. assert (out ∈ own) as Hown by (apply list_elem_of_omap; by exists op). split; [done|]. destruct (rp_paths Hrp op Hop) as (q & Hw & Hp).
  pose proof Hw as (Hn & p & s & Eq & _). assert (po_kind op ≠ Rescan) as Hk.
  { intros Hk. apply (flush_kind out); [apply elem_of_app; by left|]. unfold resolve_op in Hr. rewrite Hk in Hr. by injection Hr as <-. }
  destruct (resolve_states op q out Hw Hp Hk Hr) as [Ep Hd]. exists q. unfold po_names, op_names. rewrite Hp, Ep, components_named by done. split_and!; try done. subst q. by destruct p.
Qed.

Lemma own_inv out : out ∈ own → ∃ op, op ∈ planned ∧ resolve_op cfg fs op = Some out.
Proof. intros (op & Hop & Hr)%list_elem_of_omap. eauto. Qed.

(** The roots of the expansion are directories that appeared. *)
Lemma top_spec rel : rel ∈ dirs → ∃ r op, rel = join r ∧ r ≠ [] ∧ named r = true ∧ opened r ∧ op ∈ planned ∧ resolved op ∧ po_names op = r.
Proof.
  intros (op & Hop & Hr)%list_elem_of_omap. destruct (resolve_op cfg fs op) as [out|] eqn:Er; [|done]. destruct (expands op out) eqn:Ex; [|done]. injection Hr as <-.
  destruct (own_op op out Hop Er) as (_ & r & Hne & Hn & Hpn & _ & Hp & Hd). exists r, op. unfold expands in Ex. apply andb_true_iff in Ex as [[Ha Hu]%andb_true_iff Hdir].
  split_and!; try done; [|by exists out]. destruct (op_kind out) eqn:Hk; try done. rewrite <- Hpn. eapply (rp_appeared Hrp); [done|done|by rewrite Hpn|by apply directory_dir].
Qed.

Lemma tops_dirs rel : rel ∈ tops → rel ∈ dirs.
Proof. intros Hr%scan_roots_sub. by rewrite merge_sort_Permutation in Hr. Qed.

(** An entry of the expansion is on the disk. *)
Lemma expanded_spec rel path a : rel ∈ tops → (path, a) ∈ subtree_entries cfg fs rel → ∃ q, q ≠ [] ∧ named q = true ∧ path = join q ∧ D !! q = Some a.
Proof.
  intros (r & op & -> & Hne & Hn & Hr & _)%tops_dirs%top_spec Hin. destruct (subtree_spec r Hr Hne) as (L & EL & _ & Hel). rewrite EL in Hin.
  apply list_elem_of_fmap in Hin as ([q' b] & [= -> ->] & [Hq' Hd]%Hel). cbn. exists (r ++ q'). split_and!; [by destruct r|by eapply sd_named|done|]. apply disk_at; [by destruct r|done].
Qed.

Lemma batch_states : Forall (op_states D) (own ++ extra).
Proof.
  apply Forall_app. split; apply Forall_forall; intros out Hout; right.
  - destruct (own_inv out Hout) as (op & Hop & Hr). destruct (own_op op out Hop Hr) as (_ & q & Hne & Hn & _ & _ & Hp & Hd). exists q. split_and!; [done..|]. by destruct (op_kind out).
  - apply list_elem_of_omap in Hout as ([path a] & (rel & Hin & Hrel)%list_elem_of_bind & Ho). unfold expanded in Ho. case_bool_decide; [done|]. injection Ho as <-.
    destruct (expanded_spec rel path a Hrel Hin) as (q & ? & ? & ? & ?). by exists q.
Qed.

Lemma op_names_named out q : named q = true → op_path out = join q → op_names out = q.
Proof. intros Hn Hp. unfold op_names. by rewrite Hp, components_named. Qed.

(** An entry of the expansion has an operation, its own or the expansion's. *)
Lemma expanded_op q a : named q = true →
  (∃ o, o ∈ own ∧ op_names o = q) ∨ ∃ o, expanded (join q, a) = Some o ∧ op_names o = q.
Proof.
  intros Hn. unfold expanded. cbn. case_bool_decide as Hin; [left|right; eexists; split; [done|by apply op_names_named]].
  apply list_elem_of_fmap in Hin as (o & Ep & Ho). exists o. split; [done|by apply op_names_named].
Qed.

Lemma batch_covers q : m0 !! q ≠ D !! q → covered D (own ++ extra) q.
Proof.
  intros Hq. destruct (rp_covers Hrp q Hq) as (op & Hop & [out Hr] & Hcase). destruct (own_op op out Hop Hr) as (Hown & r & Hne & Hn & Hpn & Hon & Hpath & Hd). rewrite Hpn in Hcase.
  assert (∀ o, o ∈ own ++ extra → op_names o = q → covered D (own ++ extra) q) as Hat. { intros o Ho Eo. exists o. split_and!; [done|by apply flush_kind|by left]. }
  assert (out ∈ own ++ extra) as Hout by (apply elem_of_app; by left).
  destruct Hcase as [->|[Hcut|(Hab & [a Ha] & Happ)]]; [by apply (Hat out)| |].
  { exists out. split_and!; [done|by apply flush_kind|right]. by rewrite Hon. }
  pose proof (disk_above D disk_parent r q Hab ltac:(by exists a)) as (d & Hdr & Hdir). destruct (op_kind out) eqn:Hk; [|congruence|done]. rewrite Hd in Hdr. injection Hdr as <-.
  assert (join r ∈ dirs) as Hin.
  { apply list_elem_of_omap. exists op. split; [done|]. rewrite Hr. assert (expands op out = true) as ->; [|by rewrite Hpath]. unfold expands. rewrite Happ, Hk. revert Hdir. unfold s_dir. by destruct (a_kind (op_attr out)). }
  destruct (scan_roots_cover (merge_sort path_le dirs) [] (join r)) as [(rel & Htop & Hu)|[? _]]; [by rewrite merge_sort_Permutation| |done].
  destruct (top_spec rel (tops_dirs rel Htop)) as (t & opt & -> & Htne & Htn & Htop' & _). destruct (path_is_under_prefix t r [97]) as [[Hpre _] _]; [by apply named_ok..|by repeat constructor|].
  destruct (Hpre Hu) as [x ->]. destruct Hab as [[y ->] Hab]. destruct (subtree_spec t Htop' Htne) as (L & EL & _ & Hel).
  assert (on_disk ((t ++ x) ++ y) a) as Hf by (apply disk_at; [by destruct t|done]). assert (named ((t ++ x) ++ y) = true) as Hnq by by eapply sd_named.
  assert ((join ((t ++ x) ++ y), a) ∈ subtree_entries cfg fs (join t)) as Hsub.
  { rewrite EL. apply list_elem_of_fmap. exists (x ++ y, a). cbn. rewrite app_assoc. split; [done|]. apply Hel. rewrite app_assoc. split; [|done]. intros [-> ->]%app_nil. by rewrite !app_nil_r in Hab. }
  destruct (expanded_op _ a Hnq) as [(o & Ho & Eo)|(o & Ex & Eo)]; (apply (Hat o); [|done]); apply elem_of_app; [by left|right].
  apply list_elem_of_omap. eexists. split; [|exact Ex]. apply list_elem_of_bind. by eexists.
Qed.

(** A file above a planned path has been dealt with before it. *)
Lemma own_ordered pre op post p out : planned = pre ++ op :: post → resolve_op cfg fs op = Some out → above p (op_names out) → dir_at D p →
  no_file_at m0 p ∨ ∃ o, o ∈ omap (resolve_op cfg fs) pre ∧ op_names o = p.
Proof.
  intros Epl Hr Hab Hdir. destruct (own_op op out) as (_ & q & _ & _ & Hpn & Hon & _); [rewrite Epl; apply elem_of_app; right; left|done|].
  destruct (rp_order Hrp pre op post p Epl) as [?|(o & Ho & [out' Hr'] & Hn)]; [by rewrite Hpn, <- Hon|done|by left|right].
  exists out'. split; [apply list_elem_of_omap; by exists o|]. destruct (own_op o out') as (_ & x & _ & _ & <- & -> & _); [rewrite Epl; apply elem_of_app; by left|done|done].
Qed.

Lemma extra_ordered pre op post p : extra = pre ++ op :: post → above p (op_names op) → dir_at D p →
  no_file_at m0 p ∨ ∃ o, o ∈ own ++ pre ∧ op_names o = p.
Proof.
  unfold extra. intros (f1 & [path a] & f2 & Ef & <- & Hop)%omap_middle Hab Hdir. apply bind_middle in Ef as (ta & rel & tb & s1 & s2 & Et & -> & Es).
  assert (rel ∈ tops) as Hrel by (rewrite Et; apply elem_of_app; right; left). destruct (top_spec rel (tops_dirs rel Hrel)) as (r & opr & -> & Hne & Hn & Hr & Hopr & [outr Hroutr] & Hpr).
  destruct (own_op opr outr Hopr Hroutr) as (Hown & r' & _ & _ & Er & Eon & _). assert (r' = r) as -> by congruence.
  destruct (subtree_spec r Hr Hne) as (L & EL & Hpf & Hel). rewrite EL in Es. apply fmap_app_inv in Es as (l1 & lr & -> & Er2 & EL').
  destruct lr as [|[q' b] l2]; [done|]. cbn in Er2. injection Er2 as -> -> ->. cbn in *.
  assert ((q', b) ∈ L) as [Hq' Hd]%Hel by (rewrite EL'; apply elem_of_app; right; left). assert (named (r ++ q') = true) as Hnq by by eapply sd_named.
  assert (op_names op = r ++ q') as Eo. { unfold expanded in Hop. case_bool_decide; [done|]. injection Hop as <-. by apply op_names_named. }
  rewrite Eo in Hab. destruct Hab as [[y Hy] Hneq]. apply app_eq_app in Hy as (c & [[-> ->]|[-> ->]]).
  - destruct (decide (c = [])) as [->|Hc]; [right; rewrite app_nil_r in *; exists outr; split; [apply elem_of_app; by left|congruence]|].
    apply list_elem_of_split in Hopr as (pl1 & pl2 & Epl). destruct (own_ordered pl1 opr pl2 p outr Epl Hroutr) as [?|(o & Ho & ?)]; [|done|by left|right; exists o; split; [|done]].
    + rewrite Eon. split; [by eexists|]. intros E1. apply (f_equal length) in E1. rewrite length_app in E1. destruct c; [done|cbn in E1; lia].
    + apply elem_of_app. left. unfold resolve_all. rewrite Epl, omap_app. apply elem_of_app. by left.
  - destruct (decide (c = [])) as [->|Hc]; [right; rewrite app_nil_r; exists outr; split; [apply elem_of_app; by left|congruence]|].
    right. destruct (Hpf l1.*1 (c ++ y) l2.*1 c) as [?|([c' d] & -> & Hin)%list_elem_of_fmap]; [by rewrite EL', fmap_app|split; [by eexists|by intros E1; apply Hneq; rewrite <- E1]|done|]. cbn in *.
    rewrite app_assoc, named_app in Hnq. apply andb_true_iff in Hnq as [Hnp _].
    destruct (expanded_op (r ++ c') d Hnp) as [(o & Ho & ?)|(o & Ho & ?)]; exists o; (split; [|done]); apply elem_of_app; [by left|right].
    apply list_elem_of_omap. eexists. split; [|exact Ho]. apply elem_of_app. right. apply list_elem_of_fmap. by exists (c', d).
Qed.

Lemma batch_ordered : in_order D m0 [] (own ++ extra).
Proof.
  intros pre op post p El _ Hab Hdir. cbn [app]. enough (no_file_at m0 p ∨ ∃ o, o ∈ pre ∧ op_names o = p) as [?|(o & Ho & ?)].
  { by left. }
  { right. exists o. split_and!; [done| |done]. apply flush_kind. rewrite El. apply elem_of_app. by left. }
  apply app_eq_app in El as (c & [[Eown Erest]|[-> Eex]]).
  - destruct c as [|op' c].
    + rewrite app_nil_r in Eown. cbn in Erest. destruct (extra_ordered [] op post p (eq_sym Erest) Hab Hdir) as [?|(o & Ho & ?)]; [by left|right]. exists o. rewrite app_nil_r in Ho. by rewrite <- Eown.
    + injection Erest as <- _. apply omap_middle in Eown as (pl1 & opl & pl2 & Epl & <- & Hr). by eapply own_ordered.
  - by apply (extra_ordered c op post p).
Qed.

(** The mirror is the disk after the batch. *)
Lemma flush_catches_up : closed m0 → m0 !! [] = Some kImplicitDirectory → foldl s_apply_op m0 (flush_ops cfg max_expanded fs planned) = D.
Proof.
  intros Hcl Hroot. rewrite (apply_same _ _ flush_shape). apply batch_reaches; [|apply disk_parent|done| |apply batch_covers|apply batch_states|apply batch_ordered].
  - exists kImplicitDirectory. split; [apply disk_root|done].
  - by rewrite disk_root.
Qed.
End batch.
End steady.
End disk.

(** ** A mirror converges *)

Section converge.
Context {F : Type} `{FileSystem F} {M : Type} `{KeyMap M}.

Lemma disk_short cfg (fs : F) E D : steady cfg fs E D → ∀ q, is_Some (D !! q) → short_names q.
Proof.
  intros Hsd. induction q as [|s q IH] using rev_ind; [constructor|]. intros Hq. destruct (disk_parent cfg fs E D Hsd q s Hq) as (d & Hd & _). destruct Hq as [a Ha].
  apply short_snoc; [apply IH; eauto|]. apply (disk_at cfg fs E D Hsd) in Ha; [|by destruct q]. destruct (sb_disk _ _ _ (sd_servable _ _ _ _ Hsd)) as [_ S2 S3]. by eapply S3, S2.
Qed.

Lemma same_ok ops ops' : (λ o, (op_kind o, op_path o, op_attr o)) <$> ops = (λ o, (op_kind o, op_path o, op_attr o)) <$> ops' → as_ops ops = as_ops ops'.
Proof.
  revert ops'. induction ops as [|o ops IH]; intros [|o' ops']; try done. cbn [fmap list_fmap]. intros [= E1 E2 E3 E4]. rewrite !as_ops_cons, (IH _ E4). unfold as_op. by rewrite E1, E2, E3.
Qed.

Lemma states_ok D ops : (∀ q, is_Some (D !! q) → short_names q) → Forall (op_states D) ops → Forall op_ok (as_ops ops).
Proof.
  intros Hs. induction 1 as [|op ops [Hk|(q & _ & Hn & Hp & Hd)] _ IH]; [constructor|rewrite as_ops_cons; unfold as_op; by rewrite Hk|].
  rewrite as_ops_cons. unfold as_op. destruct (op_kind op); [constructor; [|done]..|done]; cbn; [|done]. rewrite Hp, components_named by done. eauto.
Qed.

Lemma total_cost_app a b : total_cost (a ++ b) = total_cost a + total_cost b.
Proof. unfold total_cost. induction a as [|op a IH]; [done|]. cbn [app foldr]. lia. Qed.

(** What a client has applied, and the map its tree stands for. *)
Record in_step (cl : Client M) (ops0 : list TreeOp) (m0 : pathmap) : Prop := {
  is_quiet : quiet cl;
  is_tree : tree_ cl = (run (tree_new (M := M)) ops0).1;
  is_map : (s_run s_new ops0).1 = m0;
  is_root : m0 !! [] = Some kImplicitDirectory;
  is_ok : Forall op_ok ops0
}.

Lemma in_step_shows cl ops0 m0 : in_step cl ops0 m0 → total_cost ops0 < 2 ^ 31 →
  (∀ path, observe (tree_ cl) path = s_observe m0 path) ∧ live_ (tree_ cl) = Z.of_nat (size m0).
Proof.
  intros [_ -> <- _ Hok] Hcost. destruct (run_new_sim (M := M) ops0 ltac:(lia) Hok) as (F' & Hst & _). split; [intros; by eapply observe_spec|by eapply live_spec].
Qed.

(** The frames of a batch take the mirror from one map to the next. *)
Lemma flush_in_step cfg (fs : F) E D max_expanded planned ops0 m0 (cl : Client M) chunk_bytes gen :
  let batch := flush_ops cfg max_expanded fs planned in
  steady cfg fs E D → reported cfg fs D planned m0 → (∀ op, op ∈ batch → op_kind op ≠ Rescan) →
  in_step cl ops0 m0 → total_cost (ops0 ++ as_ops batch) < 2 ^ 31 → u64_ok gen → zlen batch < 2 ^ 64 → Forall sendable batch →
  in_step (receive_batches cl (o_payload <$> broadcast_frames chunk_bytes (mkBatch gen batch))) (ops0 ++ as_ops batch) D.
Proof.
  intros batch Hsd Hrp Hno [Hq Ht Hm Hroot Hok] Hcost Hgen Hz Hs. destruct (broadcast_decodes chunk_bytes gen batch Hgen Hz Hs) as (bs & Hd & Ebs).
  destruct (receive_batches_quiet _ bs cl Hq Hd) as [Hq' Et]. rewrite Ebs in Et.
  assert (as_ops (op_on_wire <$> batch) = as_ops batch) as Ew. { clear. induction batch as [|o l IH]; [done|]. cbn [fmap list_fmap]. rewrite !as_ops_cons, IH. unfold as_op, op_on_wire. cbn. by destruct (op_kind o). }
  rewrite apply_run, Ew, Ht, <- run_app in Et. pose proof (flush_shape cfg fs max_expanded planned Hno) as Hshape.
  pose proof (total_cost_nonneg (as_ops batch)) as Hnn. rewrite total_cost_app in Hcost. destruct (run_new_sim (M := M) ops0 ltac:(lia) Hok) as (F0 & Hst0 & _).
  split; [done|done| |apply (disk_root cfg fs E D Hsd)|].
  - rewrite s_run_app, <- s_apply_run, Hm. eapply flush_catches_up; [done..| |done]. rewrite <- Hm. by eapply stands_closed.
  - apply Forall_app. split; [done|]. unfold batch. rewrite (same_ok _ _ Hshape). eapply states_ok; [by eapply disk_short|]. by eapply batch_states.
Qed.

(** A mirror converges to the disk.  Whatever the client's tree showed before,
    once the events of the changes since then are flushed and the frames of the
    batch applied, every path shows what the disk has and nothing else is left,
    if the planned operations tell of the changes as [reported] says and the batch
    does not ask for a rescan (after which the mirror is fetched anew). *)
Theorem mirror_converges cfg (fs : F) E D max_expanded planned ops0 (cl : Client M) chunk_bytes gen :
  let m0 := (s_run s_new ops0).1 in let batch := flush_ops cfg max_expanded fs planned in
  steady cfg fs E D → reported cfg fs D planned m0 → (∀ op, op ∈ batch → op_kind op ≠ Rescan) →
  quiet cl → tree_ cl = (run (tree_new (M := M)) ops0).1 → m0 !! [] = Some kImplicitDirectory →
  Forall op_ok ops0 → total_cost (ops0 ++ as_ops batch) < 2 ^ 31 → u64_ok gen → zlen batch < 2 ^ 64 → Forall sendable batch →
  let cl' := receive_batches cl (o_payload <$> broadcast_frames chunk_bytes (mkBatch gen batch)) in
  (∀ path, observe (tree_ cl') path = s_observe D path) ∧ live_ (tree_ cl') = Z.of_nat (size D).
Proof.
  intros m0 batch Hsd Hrp Hno Hq Ht Hroot Hok Hcost Hgen Hz Hs. eapply in_step_shows; [|exact Hcost]. by eapply (flush_in_step cfg fs E D).
Qed.
End converge.

(** ** A file that became a directory, and a directory that went away *)

Definition demo_cfg : Config := mkConfig (str "/r") false (str "t") true (str "a") 10 true (mkRules []) 10.
Definition demo_after : MemFs :=
  list_to_map [(str "/r", MDir); (str "/r/a.txt", MDir); (str "/r/a.txt/x", MFile (str "new")); (str "/r/l", MLink (str "a.txt"))].
Definition demo_after_places : list (list bytes) := [[str "a.txt"]; [str "a.txt"; str "x"]; [str "l"]].
Definition demo_planned : list PlannedOp := [mkPlanned Remove (str "d") false Removed 0; mkPlanned Upsert (str "a.txt") true Created 0].
Definition scanned (fs : MemFs) : list SnapshotEntry :=
  match scan_tree 10 fs (str "/r") (λ _ _, false) true with Ok w => w_out w | Err _ => [] end.
Definition demo_before_ops : list TreeOp := [OpLoad (scanned mem_demo)].
Definition demo_disk : pathmap := (s_load (scanned demo_after)).1.
Definition demo_mirror : Client U64Map := with_tree (run tree_new demo_before_ops).1 (client_new Exact).

(** What a survey enumerates satisfies what can be computed of it. *)
Lemma found_check fs dir skip dev E (P : list bytes → Attributes → bool → Prop) : survey_ok fs dir E = true →
  Forall (λ q, match entry_at (F := MemFs) fs dir skip dev q with Some (a, d) => P q a d | None => True end) E →
  ∀ p q a d, walked fs dir skip dev p → found_in fs dir skip dev p q a d → P q a d.
Proof.
  intros Hs Hall p q a d Hp Hf. destruct (survey_ok_surveyed fs dir skip dev E Hs) as [_ S2 _]. assert (q ∈ E) as Hq by (eapply S2; exists p, d; by split).
  rewrite Forall_forall in Hall. specialize (Hall q Hq). destruct Hf as (s & _ & _ & He). by rewrite He in Hall.
Qed.

Lemma after_entries p q a d : walked demo_after (str "/r") (cfg_skip demo_cfg) (cfg_device demo_cfg demo_after) p →
  found_in demo_after (str "/r") (cfg_skip demo_cfg) (cfg_device demo_cfg demo_after) p q a d → named q = true ∧ attr_ok a ∧ (d = true → q = [str "a.txt"]).
Proof.
  apply (found_check _ _ _ _ demo_after_places (λ q a d, named q = true ∧ attr_ok a ∧ (d = true → q = [str "a.txt"]))); [vm_compute; reflexivity|].
  repeat constructor; vm_compute; repeat split; try reflexivity; intros; discriminate.
Qed.

Lemma after_opened p : walked demo_after (str "/r") (cfg_skip demo_cfg) (cfg_device demo_cfg demo_after) p → p = [] ∨ p = [str "a.txt"].
Proof. intros Hp. destruct Hp as [|p q a Hp Hq]; [by left|right]. by apply (after_entries p q a true Hp Hq). Qed.

Lemma after_servable : servable demo_cfg demo_after demo_after_places.
Proof.
  split.
  - apply survey_ok_surveyed. vm_compute. reflexivity.
  - vm_compute. reflexivity.
  - vm_compute. lia.
  - vm_compute. congruence.
  - intros q a (p & d & Hp & Hf). by apply (after_entries p q a d Hp Hf).
Qed.

Lemma after_steady : steady demo_cfg demo_after demo_after_places demo_disk.
Proof.
  split.
  - exact after_servable.
  - destruct (scan_surveyed 10 demo_after (str "/r") (λ _ _, false) true demo_after_places) as (w & Ew & _ & _ & _ & _ & _ & Hm); [apply survey_ok_surveyed; vm_compute; reflexivity|vm_compute; reflexivity|vm_compute; lia|vm_compute; reflexivity|].
    unfold demo_disk, scanned. rewrite Ew. exact Hm.
  - intros q a (p & d & Hp & Hf). by apply (after_entries p q a d Hp Hf).
  - intros p [->| ->]%after_opened; vm_compute; reflexivity.
  - intros p [->| ->]%after_opened; vm_compute; reflexivity.
Qed.

Definition demo_before : pathmap := (s_run s_new demo_before_ops).1.

Lemma demo_wrong q : demo_before !! q ≠ demo_disk !! q → q ∈ [[str "a.txt"]; [str "a.txt"; str "x"]; [str "d"]; [str "d"; str "b"]].
Proof.
  intros Hq. destruct (decide (q ∈ (map_to_list demo_before).*1 ++ (map_to_list demo_disk).*1)) as [Hin|Hin].
  - assert (Forall (λ x, demo_before !! x = demo_disk !! x ∨ x ∈ [[str "a.txt"]; [str "a.txt"; str "x"]; [str "d"]; [str "d"; str "b"]]) ((map_to_list demo_before).*1 ++ (map_to_list demo_disk).*1)) as Hall.
    { apply (bool_decide_unpack _). vm_compute. exact I. }
    rewrite Forall_forall in Hall. destruct (Hall q Hin) as [E1|E1]; [destruct (Hq E1)|exact E1].
  - destruct Hq. assert (∀ m : pathmap, q ∉ (map_to_list m).*1 → m !! q = None) as Hn.
    { intros m Hm. apply eq_None_not_Some. intros [a Ha]. apply Hm, list_elem_of_fmap. exists (q, a). by rewrite elem_of_map_to_list. }
    rewrite !Hn; [done|intros ?; apply Hin, elem_of_app; by right|intros ?; apply Hin, elem_of_app; by left].
Qed.

Lemma demo_reported : reported demo_cfg demo_after demo_disk demo_planned demo_before.
Proof.
  assert (∀ op, op ∈ demo_planned → resolved demo_cfg demo_after op) as Hres.
  { intros op Hop. assert (Forall (λ op, is_Some (resolve_op demo_cfg demo_after op)) demo_planned) as Hall by (repeat constructor; vm_compute; eexists; reflexivity). rewrite Forall_forall in Hall. by apply Hall. }
  assert (walked demo_after (str "/r") (cfg_skip demo_cfg) (cfg_device demo_cfg demo_after) [str "a.txt"]) as Hw.
  { eapply (walked_sub _ _ _ _ []); [constructor|]. exists (str "a.txt"). split; [apply (bool_decide_unpack _); vm_compute; exact I|]. split; [reflexivity|]. vm_compute. reflexivity. }
  split.
  - intros op [->|[->|[]%elem_of_nil]%elem_of_cons]%elem_of_cons.
    + exists [str "d"]. split; [|reflexivity]. split; [vm_compute; reflexivity|]. exists [], (str "d"). split; [reflexivity|]. intros st Hst. vm_compute in Hst. discriminate.
    + exists [str "a.txt"]. split; [|reflexivity]. split; [vm_compute; reflexivity|]. exists [], (str "a.txt"). split; [reflexivity|]. intros st _. split; [constructor|]. apply (bool_decide_unpack _). vm_compute. exact I.
  - intros op a [->|[->|[]%elem_of_nil]%elem_of_cons]%elem_of_cons Happ _ _; [discriminate Happ|]. exact Hw.
  - intros q Hq%demo_wrong.
    assert (mkPlanned Remove (str "d") false Removed 0 ∈ demo_planned ∧ mkPlanned Upsert (str "a.txt") true Created 0 ∈ demo_planned) as [H1 H2] by (split; [left|right; left]).
    apply elem_of_cons in Hq as [->|[->|[->|[->|[]%elem_of_nil]%elem_of_cons]%elem_of_cons]%elem_of_cons].
    + eexists. split; [exact H2|]. split; [by apply Hres|]. left. vm_compute. reflexivity.
    + eexists. split; [exact H2|]. split; [by apply Hres|]. right. right. split; [split; [by exists [str "x"]|done]|]. split; [|reflexivity]. apply (bool_decide_unpack _). vm_compute. exact I.
    + eexists. split; [exact H1|]. split; [by apply Hres|]. left. vm_compute. reflexivity.
    + eexists. split; [exact H1|]. split; [by apply Hres|]. right. left. split; [split; [by exists [str "b"]|done]|]. split; [vm_compute; reflexivity|]. intros (d & Hd & _). vm_compute in Hd. discriminate.
  - intros pre op post p Epl Hab _. left. assert (p = []) as ->; [|intros d Hd; vm_compute in Hd; by injection Hd as <-].
    assert (op ∈ demo_planned) as Hop by (rewrite Epl; apply elem_of_app; right; left).
    assert (length (po_names op) = 1%nat) as Hl by (apply elem_of_cons in Hop as [->|[->|[]%elem_of_nil]%elem_of_cons]; vm_compute; reflexivity).
    destruct Hab as [[y E1] Hne]. rewrite E1 in Hl. rewrite length_app in Hl. destruct y; [by rewrite app_nil_r in E1|]. cbn in Hl. destruct p; [done|cbn in Hl; lia].
Qed.

Lemma mirror_converges_witness :
  let batch := flush_ops demo_cfg 100 demo_after demo_planned in
  let cl' := receive_batches demo_mirror (o_payload <$> broadcast_frames 40 (mkBatch 3 batch)) in
  length (broadcast_frames 40 (mkBatch 3 batch)) = 3%nat ∧ (∀ path, observe (tree_ cl') path = s_observe demo_disk path) ∧ live_ (tree_ cl') = 4.
Proof.
  cbv zeta. split; [vm_compute; reflexivity|].
  apply (mirror_converges demo_cfg demo_after demo_after_places demo_disk 100 demo_planned demo_before_ops demo_mirror 40 3).
  - exact after_steady.
  - exact demo_reported.
  - intros op Hop. assert (Forall (λ op, op_kind op ≠ Rescan) (flush_ops demo_cfg 100 demo_after demo_planned)) as Hall by (apply (bool_decide_unpack _); vm_compute; exact I). rewrite Forall_forall in Hall. by apply Hall.
  - split; reflexivity.
  - reflexivity.
  - vm_compute. reflexivity.
  - repeat constructor; vm_compute; repeat split; try reflexivity; intros; discriminate.
  - vm_compute. reflexivity.
  - vm_compute. intuition congruence.
  - vm_compute. reflexivity.
  - assert (flush_ops demo_cfg 100 demo_after demo_planned = ltac:(let r := eval vm_compute in (flush_ops demo_cfg 100 demo_after demo_planned) in exact r)) as -> by (vm_compute; reflexivity).
    repeat constructor; vm_compute; repeat split; try reflexivity; intros; discriminate.
Defined.
