(* ===== verification/Through.v ===== *)
(** * A file through the client and the agent

    The client's [write], [truncate] and [read] ([agent/client.cpp]) composed with
    the agent's session ([serve] in [agent/server.cpp]): requests and replies as
    the bytes of their frames, the agent's file operations, the client's mirror and
    its cache.  The specification is the content of one file, a list of bytes: what
    every call returns is what that list gives. *)

From S2P Require Import Prelude Types KeyMap HashUtil FlatMap Wire Messages Path Unicode StringPool MetadataTree Forest TreeIndex TreeLinks TreeInv TreeSpec TreeRefine TreeProps.
From S2P Require Import TreeExport Ignore ReadCache FileSystem Resolve Scanner ScanProps Server Requests Client ClientProps Walk Mirror Warm Converge.

(** ** Regular files

    What the agent relies on for a file that can be read and written and a disk
    with room: opening to read changes no content, [fread] and [fwrite] act at the
    offset, [resize_file] cuts or fills with zeros. *)

Definition resized (d : bytes) (n : Z) : bytes := take (Z.to_nat n) (d ++ replicate (Z.to_nat n - length d) 0).

Class RegularFiles (F : Type) `{FileSystem F} := {
  content : F → bytes → option bytes;
  content_size fs p d : content fs p = Some d → fs_file_size fs p = Ok (zlen d);
  content_open_read fs p q : content (fs_open fs p ModeR).1 q = content fs q;
  content_opens fs p d : content fs p = Some d → (fs_open fs p ModeR).2 = None;
  content_update fs p d : content fs p = Some d → (fs_open fs p ModeRP).2 = None ∧ content (fs_open fs p ModeRP).1 p = Some d;
  content_seek fs p d off : content fs p = Some d → fs_seek fs p off = true;
  content_read fs p d off len : content fs p = Some d → 0 <= off → 0 <= len → fs_fread fs p off len = take (Z.to_nat len) (drop (Z.to_nat off) d);
  content_write fs p d off data : content fs p = Some d → 0 <= off → (fs_fwrite fs p off data).2 = zlen data ∧ content (fs_fwrite fs p off data).1 p = Some (patch d (Z.to_nat off) data);
  content_resize fs p d n : content fs p = Some d → 0 <= n → (fs_resize fs p n).2 = None ∧ content (fs_resize fs p n).1 p = Some (resized d n);
  size_nonneg fs p n : fs_file_size fs p = Ok n → 0 <= n;
  fread_bound fs p off len : 0 <= len → zlen (fs_fread fs p off len) <= len
}.

Definition mem_content (m : MemFs) (p : bytes) : option bytes := match m !! mem_key p with Some (MFile d) => Some d | _ => None end.

Lemma mem_content_some m p d : mem_content m p = Some d → m !! mem_key p = Some (MFile d).
Proof. unfold mem_content. destruct (m !! mem_key p) as [[]|]; congruence. Qed.

#[global] Program Instance mem_files : RegularFiles MemFs := {| content := mem_content |}.
Next Obligation. intros m p d E%mem_content_some. cbn. by rewrite E. Qed.
Next Obligation. intros m p q. cbn. by destruct (m !! mem_key p) as [[]|]. Qed.
Next Obligation. intros m p d E%mem_content_some. cbn. by rewrite E. Qed.
Next Obligation. intros m p d E. pose proof (mem_content_some _ _ _ E) as E'. cbn. by rewrite E'. Qed.
Next Obligation. done. Qed.
Next Obligation. intros m p d off len E%mem_content_some _ _. cbn. by rewrite E. Qed.
Next Obligation. intros m p d off data E%mem_content_some _. cbn. rewrite E. cbn. unfold mem_content. split; [done|]. by rewrite lookup_insert_eq. Qed.
Next Obligation. intros m p d n E%mem_content_some _. cbn. rewrite E. cbn. unfold mem_content. split; [done|]. by rewrite lookup_insert_eq. Qed.
Next Obligation. intros m p n. cbn. destruct (m !! mem_key p) as [[]|]; try done. intros [= <-]. apply zlen_nonneg. Qed.
Next Obligation. intros m p off len Hl. cbn. destruct (m !! mem_key p) as [[]|]; try done. unfold zlen. rewrite length_take. lia. Qed.

(** ** Calls *)

Inductive FileOp := FWrite (off : Z) (data : bytes) | FTruncate (n : Z) | FRead (off len : Z).
Inductive FileResult := Wrote (n : Z) | Truncated | Data (d : bytes).

(** The specification: what a call makes of the file's bytes, and its result. *)
Definition ref_step (d : bytes) (op : FileOp) : bytes * FileResult :=
  match op with
  | FWrite off data => (patch d (Z.to_nat off) data, Wrote (zlen data))
  | FTruncate n => (resized d n, Truncated)
  | FRead off len => (d, Data (take (Z.to_nat len) (drop (Z.to_nat off) d)))
  end.

Fixpoint ref_run (d : bytes) (ops : list FileOp) : bytes * list FileResult :=
  match ops with
  | [] => (d, [])
  | op :: ops => let '(d, r) := ref_step d op in let '(d, rs) := ref_run d ops in (d, r :: rs)
  end.

Section through.
Context {F : Type} `{FileSystem F} {M : Type} `{KeyMap M}.
Context (blake3 : bytes → bytes) (transient : F → bytes → FsErr → bool) (cfg : Config) (rid : Z).
Abbreviation serving := (@Serving F).
Implicit Types (v : serving) (cl : Client M).

(** One request over the session: the agent takes its frame and the client its
    reply.  [gen] is the agent's generation at that moment. *)
Definition ask v (gen : Z) (q : MsgType.t * bytes) : serving * Result Pending :=
  let v' := serve_step blake3 transient cfg false v (InFrame (mkHeader q.1 0 (zlen q.2) rid) q.2 [] None gen) in
  (v', match drop (length (sv_sent v)) (sv_sent v') with
       | [o] => if sv_open v' then request_result (finish (pending_new false) (o_type o) (o_payload o)) else Err ConnectionClosed
       | _ => Err ConnectionClosed
       end).

(** [read] with the requests it makes: none on a hit, the bulk request on a miss,
    the single one where that gave nothing, or where the cache is out of bounds. *)
Definition ask_read v cl (gen : Z) (path : bytes) (off len : Z) : serving * (Client M * Result bytes) :=
  let t := resolve_for_read cl path in
  let key := read_key t path in
  if negb (t_is_file t) || (t_size t >? kMaxCacheableFile) then
    let '(v, one) := ask v gen (read_remote_request key off len) in (v, read cl path off len (Err ConnectionClosed) one)
  else
    match (cache_hit (cache_ cl) key (t_mtime_ns t) (t_size t)).2 with
    | Some _ => (v, read cl path off len (Err ConnectionClosed) (Err ConnectionClosed))
    | None =>
        let batch := read_ahead (tree_ cl) key (t_mtime_ns t) (t_size t) in
        let '(v, many) := ask v gen (read_many_request batch) in
        match read_many (length batch) many with
        | Ok (Some _ :: _) => (v, read cl path off len many (Err ConnectionClosed))
        | _ => let '(v, one) := ask v gen (read_remote_request key 0 (wrap 32 (t_size t))) in (v, read cl path off len many one)
        end
    end.

(** A call on [path] at the client's clock reading [now]. *)
Definition file_step v cl (now gen : Z) (path : bytes) (op : FileOp) : serving * (Client M * Result FileResult) :=
  match op with
  | FWrite off data =>
      let '(v, r) := ask v gen (write_request path off data) in
      let '(cl, r) := write cl now path off r in (v, (cl, match r with Ok n => Ok (Wrote n) | Err e => Err e end))
  | FTruncate n =>
      let '(v, r) := ask v gen (truncate_request path n) in
      let '(cl, r) := truncate cl now path n r in (v, (cl, match r with Ok _ => Ok Truncated | Err e => Err e end))
  | FRead off len =>
      let '(v, (cl, r)) := ask_read v cl gen path off len in (v, (cl, match r with Ok d => Ok (Data d) | Err e => Err e end))
  end.

Record Call := mkCall { ca_now : Z; ca_gen : Z; ca_op : FileOp }.

Fixpoint run_calls v cl (path : bytes) (calls : list Call) : serving * (Client M * list (Result FileResult)) :=
  match calls with
  | [] => (v, (cl, []))
  | c :: calls =>
      let '(v, (cl, r)) := file_step v cl (ca_now c) (ca_gen c) path (ca_op c) in
      let '(v, (cl, rs)) := run_calls v cl path calls in (v, (cl, r :: rs))
  end.
End through.

(** ** Lengths *)

Lemma zlen_patch d off data : zlen (patch d off data) = Z.max (zlen d) (Z.of_nat off + zlen data).
Proof. unfold patch, zlen. rewrite !length_app, length_take, length_app, length_replicate, length_drop. lia. Qed.

Lemma zlen_resized d n : 0 <= n → zlen (resized d n) = n.
Proof. intros Hn. unfold resized, zlen. rewrite length_take, length_app, length_replicate. lia. Qed.

Lemma zlen_w_u64 v : zlen (w_u64 v) = 8.
Proof. unfold w_u64, zlen. by rewrite length_put_le. Qed.
Lemma zlen_w_u32 v : zlen (w_u32 v) = 4.
Proof. unfold w_u32, zlen. by rewrite length_put_le. Qed.
Lemma zlen_w_blob s : zlen s <= zlen (w_blob s) <= zlen s + 10.
Proof. unfold w_blob. rewrite zlen_app. unfold w_raw. pose proof (w_varint_length (zlen s)). pose proof (zlen_nonneg (w_varint (zlen s))). lia. Qed.

(** ** A session that serves *)

Section session.
Context {F : Type} `{FileSystem F} {M : Type} `{KeyMap M}.
Context (blake3 : bytes → bytes) (transient : F → bytes → FsErr → bool) (cfg : Config) (rid : Z).
Implicit Types (v : @Serving F) (cl : Client M).

Record serving_ok v : Prop := {
  so_open : sv_open v = true;
  so_authed : authed (sv_session v) = true;
  so_registered : sv_registered v = true;
  so_limit : sv_limit v = kMaxPayload
}.

(** A request that the handler of its type answers with one frame. *)
Lemma ask_replied v gen (q : MsgType.t * bytes) fs' o : serving_ok v → zlen q.2 <= kMaxPayload →
  handle blake3 transient cfg (sv_session v) (sv_fs v) [] None gen (mkHeader q.1 0 (zlen q.2) rid) q.2 = (sv_session v, fs', ([o], Ok ())) →
  ∃ v', ask blake3 transient cfg rid v gen q = (v', request_result (finish (pending_new false) (o_type o) (o_payload o))) ∧ serving_ok v' ∧ sv_fs v' = fs'.
Proof.
  intros [S1 S2 S3 S4] Hlen Hh. unfold ask, serve_step. rewrite S1, S4. cbn [negb h_payload_len]. rewrite Z.gtb_ltb, (proj2 (Z.ltb_ge _ _) Hlen), Hh, S2, S3. cbn [negb andb].
  eexists. cbn [sv_sent sv_open]. rewrite drop_app_length. split_and!; [reflexivity| |done]. by split.
Qed.

Lemma ask_answered v gen (q : MsgType.t * bytes) fs' o : serving_ok v → zlen q.2 <= kMaxPayload →
  handle blake3 transient cfg (sv_session v) (sv_fs v) [] None gen (mkHeader q.1 0 (zlen q.2) rid) q.2 = (sv_session v, fs', ([o], Ok ())) →
  o_type o ≠ MsgType.Error → o_type o ≠ MsgType.Ping →
  ∃ v', ask blake3 transient cfg rid v gen q = (v', Ok (finish (pending_new false) (o_type o) (o_payload o))) ∧ serving_ok v' ∧ sv_fs v' = fs'.
Proof.
  intros Hok Hlen Hh Ht1 Ht2. destruct (ask_replied v gen q fs' o Hok Hlen Hh) as (v' & E & Hv). exists v'. split; [|done]. rewrite E. unfold request_result. cbn [finish p_type p_payload].
  by rewrite (bool_decide_eq_false_2 (o_type o = MsgType.Error)), (bool_decide_eq_false_2 (o_type o = MsgType.Ping)), andb_false_r.
Qed.

(** A session that serves answers a ping. *)
Lemma ping_answered v gen t0 t1 : serving_ok v → ∃ v', ask blake3 transient cfg rid v gen (MsgType.Ping, []) = (v', Ok (finish (pending_new false) MsgType.Pong []))
  ∧ ping t0 t1 (ask blake3 transient cfg rid v gen (MsgType.Ping, [])).2 = Ok (t1 - t0) ∧ serving_ok v' ∧ sv_fs v' = sv_fs v.
Proof.
  intros Hok. destruct (ask_answered v gen (MsgType.Ping, []) (sv_fs v) (mkOut MsgType.Pong rid [] 0) Hok) as (v' & E & Hv & Hfs); [done| |done..|].
  - unfold handle. cbn [h_type h_request_id fst snd head default from_option]. by rewrite (so_authed _ Hok), andb_false_r.
  - exists v'. rewrite E. by split_and!.
Qed.

Lemma reply_decodes {A} `{Codec A} (t : MsgType.t) (a : A) : cwf a →
  decode_reply t dec (Ok (finish (pending_new false) t (enc a))) = Ok (con_wire a).
Proof.
  intros Ha. unfold decode_reply, expect. cbn [finish p_type p_payload]. rewrite bool_decide_eq_true_2 by done. pose proof (codec_rt a [] Ha) as Hc. rewrite app_nil_r in Hc. cbn [finish p_payload]. by rewrite Hc.
Qed.

Lemma decode_ack gen : u64_ok gen → decode_reply MsgType.Ok take_ack (Ok (finish (pending_new false) MsgType.Ok (write_mutation_ack (mkAck gen)))) = Ok gen.
Proof.
  intros Hg. unfold decode_reply, expect. cbn [finish p_type p_payload]. rewrite bool_decide_eq_true_2 by done. cbn [finish p_payload]. unfold take_ack.
  pose proof (codec_rt (A:=MutationAck) (mkAck gen) [] Hg) as Hc. rewrite app_nil_r in Hc. cbn [enc dec con_wire mutation_ack_codec id] in Hc. unfold mbind, reader_bind. by rewrite Hc.
Qed.

Lemma sends o : zlen (o_payload o) <= kMaxPayload → send_frame (Ok ()) o = ([o], Ok ()).
Proof. intros Hl. unfold send_frame. by rewrite Z.gtb_ltb, (proj2 (Z.ltb_ge _ _) Hl). Qed.

(** ** The agent's side of a call *)

Context `{!RegularFiles F}.
Context (path full : bytes) (Hpath : str_ok path) (Hres : resolve_path cfg path = Ok full) (Hnorm : normalize_path path = path).

Lemma opens_update (fs : F) d : content fs full = Some d → ∃ fs', fopen_with_retry transient fs full ModeRP = (fs', None) ∧ content fs' full = Some d.
Proof. intros Hd. destruct (content_update fs full d Hd) as [U1 U2]. unfold fopen_with_retry. cbn [share_retry]. destruct (fs_open fs full ModeRP) as [fs' r]. cbn in *. subst r. by eexists. Qed.

Lemma agent_writes (s : Session) (fs : F) d gen off data : authed s = true → content fs full = Some d →
  0 <= off <= kMaxFileOffset → data ≠ [] → u64_ok gen → zlen (write_request path off data).2 <= kMaxPayload →
  ∃ fs', content fs' full = Some (patch d (Z.to_nat off) data)
    ∧ handle blake3 transient cfg s fs [] None gen (mkHeader MsgType.WriteRequest 0 (zlen (write_request path off data).2) rid) (write_request path off data).2
      = (s, fs', ([mkOut MsgType.WriteResponse rid (write_write_response (mkWriteResponse (zlen data) gen)) 0], Ok ())).
Proof.
  intros Ha Hd [Ho Ho'] Hne Hg Hl. assert (kMaxFileOffset = 17592186044416) as Hmax by reflexivity.
  assert (zlen data <= kMaxPayload) as Hdl.
  { cbn [write_request snd] in Hl. unfold write_write_request in Hl. cbn [wq_offset wq_path wq_data] in Hl. rewrite !zlen_app in Hl. pose proof (zlen_w_blob data). pose proof (zlen_nonneg (w_u64 off)). pose proof (zlen_nonneg (w_string path)). lia. }
  assert (kMaxPayload = 67108864) as Hmp by reflexivity. pose proof (zlen_nonneg data).
  unfold handle. cbn [h_type h_request_id head default from_option]. rewrite Ha. cbn [negb andb]. rewrite andb_false_r. cbn [handle_mutation write_request snd].
  assert (cwf (mkWriteRequest path off data)) as Hwf by (split_and!; cbn; [unfold u64_ok; lia|done|unfold str_ok, u64_ok; lia]).
  pose proof (codec_rt (A:=WriteRequest) (mkWriteRequest path off data) [] Hwf) as Hc. rewrite app_nil_r in Hc. cbn [enc dec con_wire write_request_codec] in Hc. rewrite Hc. cbn [decoded id].
  unfold do_write. cbn [wq_path wq_offset wq_data]. rewrite Hres, Z.gtb_ltb, (proj2 (Z.ltb_ge _ _)) by lia.
  destruct (opens_update fs d Hd) as (fs1 & -> & Hd1). rewrite (content_seek fs1 full d off Hd1). unfold seek_in_range. rewrite (proj2 (Z.leb_le _ _)) by lia. cbn [negb andb].
  rewrite bool_decide_eq_false_2 by done. destruct (content_write fs1 full d off data Hd1 Ho) as [W1 W2]. destruct (fs_fwrite fs1 full off data) as [fs2 n]. cbn [fst snd] in *. subst n. rewrite Z.eqb_refl. cbn [negb].
  exists fs2. split; [done|]. rewrite sends; [done|]. cbn [o_payload]. unfold write_write_response. rewrite zlen_app, !zlen_w_u64. lia.
Qed.

Lemma agent_truncates (s : Session) (fs : F) d gen n : authed s = true → content fs full = Some d → 0 <= n <= kMaxFileOffset → u64_ok gen →
  ∃ fs', content fs' full = Some (resized d n)
    ∧ handle blake3 transient cfg s fs [] None gen (mkHeader MsgType.TruncateRequest 0 (zlen (truncate_request path n).2) rid) (truncate_request path n).2
      = (s, fs', ([mkOut MsgType.Ok rid (write_mutation_ack (mkAck gen)) 0], Ok ())).
Proof.
  intros Ha Hd [Hn Hn'] Hg. assert (kMaxFileOffset = 17592186044416) as Hmax by reflexivity.
  unfold handle. cbn [h_type h_request_id head default from_option]. rewrite Ha. cbn [negb andb]. rewrite andb_false_r. cbn [handle_mutation truncate_request snd].
  assert (cwf (mkTruncateRequest path n)) as Hwf by (split; cbn; [unfold u64_ok; lia|done]).
  pose proof (codec_rt (A:=TruncateRequest) (mkTruncateRequest path n) [] Hwf) as Hc. rewrite app_nil_r in Hc. cbn [enc dec con_wire truncate_request_codec] in Hc. rewrite Hc. cbn [decoded id].
  unfold do_truncate. cbn [tq_path tq_size]. rewrite Hres, Z.gtb_ltb, (proj2 (Z.ltb_ge _ _)) by lia.
  destruct (content_resize fs full d n Hd Hn) as [W1 W2]. unfold with_share_retry. cbn [share_retry]. destruct (fs_resize fs full n) as [fs1 r]. cbn [fst snd] in *. subst r.
  exists fs1. split; [done|]. unfold send_ok. rewrite sends; [done|]. cbn [o_payload]. unfold write_mutation_ack. rewrite zlen_w_u64. by assert (kMaxPayload = 67108864) as -> by reflexivity.
Qed.
Lemma agent_reads_range (s : Session) (fs : F) d gen off len : authed s = true → content fs full = Some d → zlen d < 2 ^ 63 →
  u64_ok off → 0 <= len <= kMaxPayload - 64 → ∃ fs' resp, (∀ p, content fs' p = content fs p)
    ∧ handle blake3 transient cfg s fs [] None gen (mkHeader MsgType.ReadRequest 0 (zlen (read_remote_request path off len).2) rid) (read_remote_request path off len).2
      = (s, fs', ([mkOut MsgType.ReadResponse rid (write_read_response resp) 0], Ok ()))
    ∧ cwf resp ∧ rp_data resp = take (Z.to_nat len) (drop (Z.to_nat off) d).
Proof.
  intros Ha Hd Hsz [Ho Ho'] [Hl Hl']. assert (kMaxPayload = 67108864) as Hmp by reflexivity. pose proof (zlen_nonneg d) as Hd0.
  unfold handle. cbn [h_type h_request_id head default from_option]. rewrite Ha. cbn [negb andb]. rewrite andb_false_r. cbn [read_remote_request snd].
  assert (cwf (mkReadRequest path off len)) as Hwf by (split_and!; cbn; [unfold u64_ok; lia|unfold u32_ok; lia|done]).
  pose proof (codec_rt (A:=ReadRequest) (mkReadRequest path off len) [] Hwf) as Hc. rewrite app_nil_r in Hc. cbn [enc dec con_wire read_request_codec] in Hc.
  unfold send_read. rewrite Hc. cbn [id rq_path rq_offset rq_length]. rewrite Hnorm, Hres, (content_size fs full d Hd).
  set (o := Z.min off (zlen d)). set (want := Z.min len (zlen d - o)). assert (0 <= want <= len /\ 0 <= o <= zlen d) as [Hw Hob] by lia. rewrite Z.gtb_ltb, (proj2 (Z.ltb_ge _ _)) by lia.
  assert (take (Z.to_nat want) (drop (Z.to_nat o) d) = take (Z.to_nat len) (drop (Z.to_nat off) d)) as Edata.
  { destruct (Z.le_gt_cases (zlen d) off) as [Hge|Hlt].
    - rewrite (drop_ge d (Z.to_nat off)) by (unfold zlen in *; lia). rewrite (drop_ge d (Z.to_nat o)) by (unfold zlen in *; lia). by rewrite !take_nil.
    - assert (o = off) as -> by lia. destruct (Z.le_gt_cases len (zlen d - off)); [by assert (want = len) as -> by lia|].
      rewrite !(take_ge (drop _ _)); [done|rewrite length_drop; unfold zlen in *; lia..]. }
  assert (∀ data, zlen data <= want → cwf (mkReadResponse (zlen d) data) ∧ send_frame (Ok ()) (mkOut MsgType.ReadResponse rid (write_read_response (mkReadResponse (zlen d) data)) 0)
    = ([mkOut MsgType.ReadResponse rid (write_read_response (mkReadResponse (zlen d) data)) 0], Ok ())) as Hfit.
  { intros data Hdl. pose proof (zlen_nonneg data). split; [split; cbn; unfold str_ok, u64_ok; lia|]. apply sends. cbn [o_payload]. unfold write_read_response. cbn [rp_file_size rp_data]. rewrite zlen_app, zlen_w_u64. pose proof (zlen_w_blob data). lia. }
  destruct (Z.eqb_spec want 0) as [Ez|Ez].
  - destruct (Hfit [] ltac:(rewrite zlen_nil; lia)) as [H1' H2']. rewrite H2'. exists fs, (mkReadResponse (zlen d) []). split_and!; [done|done|done|]. cbn [rp_data]. rewrite <- Edata, Ez. done.
  - pose proof (content_opens fs full d Hd) as Hop. pose proof (content_open_read fs full) as Hor. destruct (fs_open fs full ModeR) as [fs1 r]. cbn [fst snd] in *. subst r.
    assert (content fs1 full = Some d) as Hd1 by by rewrite Hor. rewrite (content_seek fs1 full d o Hd1). unfold seek_in_range. rewrite (proj2 (Z.leb_le _ _)) by lia. cbn [negb andb].
    rewrite (content_read fs1 full d o want Hd1) by lia. destruct (Hfit (take (Z.to_nat want) (drop (Z.to_nat o) d))) as [H1' H2']; [unfold zlen; rewrite length_take; lia|].
    rewrite H2'. eexists fs1, _. by split_and!.
Qed.

(** Reading many files changes no content and keeps to the agent's limit. *)
Lemma read_one_keeps limit (fs : F) tot items p : 0 <= tot <= limit → sumZ (λ it, zlen (it_data it)) items = tot →
  let '(fs', tot', items') := read_one cfg limit (fs, tot, items) p in
  (∀ q, content fs' q = content fs q) ∧ 0 <= tot' <= limit ∧ sumZ (λ it, zlen (it_data it)) items' = tot' ∧ ∃ it, items' = items ++ [it].
Proof.
  intros Ht Hsum. assert (∀ it, sumZ (λ it, zlen (it_data it)) (items ++ [it]) = tot + zlen (it_data it)) as Hadd by (intros it; rewrite sumZ_app, Hsum; unfold sumZ; cbn; lia).
  assert (∀ fs1 : F, (∀ q, content fs1 q = content fs q) → (∀ q, content fs1 q = content fs q) ∧ 0 <= tot <= limit ∧ sumZ (λ it, zlen (it_data it)) (items ++ [mkItem false []]) = tot
    ∧ ∃ it, items ++ [mkItem false []] = items ++ [it]) as Hskip.
  { intros fs1 Hc. split_and!; [done|lia|lia| |by eexists]. rewrite Hadd. cbn [it_data]. rewrite (zlen_nil (A:=Z)). lia. }
  unfold read_one. destruct (resolve_path cfg (normalize_path p)) as [f|e]; [|by apply Hskip].
  destruct (fs_file_size fs f) as [sz|e] eqn:Es; [|by apply Hskip]. pose proof (size_nonneg fs f sz Es) as Hs0.
  destruct (Z.gtb_spec sz (Z.shiftl 16 20)); [cbn [orb]; by apply Hskip|].
  destruct (Z.gtb_spec (tot + sz) limit); [cbn [orb]; by apply Hskip|]. cbn [orb].
  pose proof (content_open_read fs f) as Hor. destruct (fs_open fs f ModeR) as [fs1 [e|]]; cbn [fst] in Hor; [by apply Hskip|].
  set (buf := if sz =? 0 then [] else fs_fread fs1 f 0 sz). assert (0 <= zlen buf <= sz) as Hb.
  { split; [apply zlen_nonneg|]. unfold buf. destruct (sz =? 0); [by rewrite zlen_nil|by apply fread_bound]. }
  split_and!; [done|lia|lia|by rewrite Hadd|by eexists].
Qed.

Lemma read_all_keeps limit ps : ∀ (fs : F) tot items, 0 <= tot <= limit → sumZ (λ it, zlen (it_data it)) items = tot →
  let '(fs', tot', items') := foldl (read_one cfg limit) (fs, tot, items) ps in
  (∀ q, content fs' q = content fs q) ∧ tot' <= limit ∧ sumZ (λ it, zlen (it_data it)) items' = tot' ∧ ∃ its, items' = items ++ its ∧ length its = length ps.
Proof.
  induction ps as [|p ps IH]; intros fs tot items Ht Hs; cbn [foldl]; [split_and!; [done|lia|done|exists []; by rewrite app_nil_r]|].
  pose proof (read_one_keeps limit fs tot items p Ht Hs) as Hone. destruct (read_one cfg limit (fs, tot, items) p) as [[fs1 tot1] items1]. destruct Hone as (C1 & T1 & S1 & it & ->).
  specialize (IH fs1 tot1 _ T1 S1). destruct (foldl _ _ ps) as [[fs2 tot2] items2]. destruct IH as (C2 & T2 & S2 & its & -> & Hl). split_and!; [|done|done|].
  - intros q. by rewrite C2.
  - exists (it :: its). rewrite <- app_assoc. cbn. by rewrite Hl.
Qed.
Lemma response_length items : zlen (write_read_many_response (mkReadManyResponse items)) <= 10 + 11 * zlen items + sumZ (λ it, zlen (it_data it)) items.
Proof.
  unfold write_read_many_response. cbn [rmp_items]. rewrite zlen_app. pose proof (w_varint_length (zlen items)). pose proof (items_length items) as Hi. cbn in Hi.
  assert (sumZ (λ it, 11 + zlen (it_data it)) items = 11 * zlen items + sumZ (λ it, zlen (it_data it)) items) as E; [|lia].
  clear. induction items as [|p l IH]; [done|]. unfold sumZ in *. cbn [foldr]. rewrite IH, zlen_cons. lia.
Qed.

Lemma read_first (fs : F) d : content fs full = Some d → zlen d <= kMaxCacheableFile →
  ∃ fs', read_one cfg read_many_cap (fs, 0, []) path = (fs', zlen d, [mkItem true d]) ∧ (∀ q, content fs' q = content fs q).
Proof.
  intros Hd Hl. assert (read_many_cap = 67043328) as Hcap by reflexivity. assert (kMaxCacheableFile = 8388608) as Hmc by reflexivity. assert (Z.shiftl 16 20 = 16777216) as Hs by reflexivity.
  unfold read_one. rewrite Hnorm, Hres, (content_size fs full d Hd). destruct (Z.gtb_spec (zlen d) (Z.shiftl 16 20)); [lia|]. destruct (Z.gtb_spec (0 + zlen d) read_many_cap); [lia|]. cbn [orb].
  pose proof (content_opens fs full d Hd) as Hop. pose proof (content_open_read fs full) as Hor. destruct (fs_open fs full ModeR) as [fs1 r]. cbn [fst snd] in *. subst r.
  assert (content fs1 full = Some d) as Hd1 by by rewrite Hor. exists fs1. split; [|done]. pose proof (zlen_nonneg d). rewrite (content_read fs1 full d 0 (zlen d) Hd1) by lia. cbn [app].
  assert ((if zlen d =? 0 then [] else take (Z.to_nat (zlen d)) (drop (Z.to_nat 0) d)) = d) as ->; [|by rewrite Z.add_0_l].
  unfold zlen. rewrite Nat2Z.id. destruct (Z.eqb_spec (Z.of_nat (length d)) 0); [symmetry; apply nil_length_inv; lia|]. by rewrite drop_0, take_ge.
Qed.

Lemma agent_reads_batch (s : Session) (fs : F) d gen batch : authed s = true → content fs full = Some d → zlen d <= kMaxCacheableFile →
  head (batch.*1) = Some path → zlen batch <= kMaxReadManyPaths → Forall str_ok batch.*1 →
  ∃ fs' items, (∀ q, content fs' q = content fs q)
    ∧ handle blake3 transient cfg s fs [] None gen (mkHeader MsgType.ReadManyRequest 0 (zlen (read_many_request batch).2) rid) (read_many_request batch).2
      = (s, fs', ([mkOut MsgType.ReadManyResponse rid (write_read_many_response (mkReadManyResponse items)) 0], Ok ()))
    ∧ cwf (mkReadManyResponse items) ∧ head items = Some (mkItem true d).
Proof.
  intros Ha Hd Hl Hhd Hn Hps. assert (read_many_cap = 67043328) as Hcap by reflexivity. assert (kMaxCacheableFile = 8388608) as Hmc by reflexivity. assert (kMaxReadManyPaths = 4096) as Hmr by reflexivity. assert (kMaxPayload = 67108864) as Hmp by reflexivity.
  set (ps := batch.*1) in *. assert (zlen ps = zlen batch) as Hlen by (unfold ps, zlen; by rewrite length_fmap).
  unfold handle. cbn [h_type h_request_id head default from_option]. rewrite Ha. cbn [negb andb]. rewrite andb_false_r. cbn [read_many_request snd]. fold ps.
  assert (cwf (mkReadManyRequest ps)) as Hwf by (split; cbn; [lia|done]).
  pose proof (codec_rt (A:=ReadManyRequest) (mkReadManyRequest ps) [] Hwf) as Hc. rewrite app_nil_r in Hc. cbn [enc dec con_wire read_many_request_codec] in Hc.
  unfold send_read_many. rewrite Hc. cbn [id rmq_paths]. destruct ps as [|p0 ps0] eqn:Eps; [done|]. injection Hhd as ->. cbn [foldl].
  destruct (read_first fs d Hd Hl) as (fs1 & -> & C1). pose proof (zlen_nonneg d).
  pose proof (read_all_keeps read_many_cap ps0 fs1 (zlen d) [mkItem true d] ltac:(lia) ltac:(unfold sumZ; cbn; lia)) as Hrest.
  destruct (foldl _ _ ps0) as [[fs2 tot] items]. destruct Hrest as (C2 & Ht & Hsum & its & -> & Hits). cbn [app] in *. set (items := mkItem true d :: its) in *.
  assert (zlen items = zlen batch) as Hil by (rewrite <- Hlen; unfold items; rewrite !zlen_cons; unfold zlen; lia).
  assert (Forall (cwf (A:=ReadManyItem)) items) as Hcw.
  { apply Forall_forall. intros it Hit. cbn. unfold str_ok, u64_ok. pose proof (zlen_nonneg (it_data it)). apply list_elem_of_split in Hit as (l1 & l2 & E). rewrite E, sumZ_app in Hsum.
    change (sumZ (λ it, zlen (it_data it)) (it :: l2)) with (zlen (it_data it) + sumZ (λ it, zlen (it_data it)) l2) in Hsum.
    assert (∀ l : list ReadManyItem, 0 <= sumZ (λ it, zlen (it_data it)) l) as Hnn by (intros l; apply sumZ_nonneg; intros; apply zlen_nonneg). pose proof (Hnn l1). pose proof (Hnn l2). lia. }
  exists fs2, items. split_and!; [intros q; by rewrite C2|..|split; cbn; [unfold u64_ok; pose proof (zlen_nonneg items); lia|done]|done].
  rewrite sends; [done|]. cbn [o_payload]. pose proof (response_length items). lia.
Qed.
End session.

(** ** The client's side *)

Lemma erase_cached c k : rcache_ (erase_if_present c k) = delete k (rcache_ c).
Proof. unfold erase_if_present. destruct (rcache_ c !! k) eqn:E; [done|]. by rewrite delete_id. Qed.

Lemma put_cached c p m s d k e : rcache_ (cache_put c p m s d) !! k = Some e → (k = p ∧ e = mkCached m s d) ∨ (k ≠ p ∧ rcache_ c !! k = Some e).
Proof.
  intros Hk. unfold cache_put, evict_locked in Hk. eapply lookup_weaken in Hk; [|apply evict_loop_sub]. cbn [rcache_] in Hk. rewrite erase_cached in Hk.
  apply lookup_insert_Some in Hk as [[<- <-]|[Hn Hk]]; [by left|right]. rewrite lookup_delete_ne in Hk by done. done.
Qed.

Lemma fetched_other k batch : k ∉ batch.*1 → ∀ c res e, rcache_ (cache_fetched c batch res) !! k = Some e → rcache_ c !! k = Some e.
Proof.
  unfold cache_fetched. induction batch as [|[p [m s]] batch IH]; intros Hk c res e; [done|]. destruct res as [|r res]; [done|]. cbn [zip_with foldl].
  apply not_elem_of_cons in Hk as [Hk Hr]. intros He%IH; [|done]. destruct r; [|done]. by apply put_cached in He as [[? _]|[_ ?]].
Qed.

Section mirror.
Context {M : Type} `{KeyMap M}.
Implicit Types (t : MetadataTree M) (cl : Client M).
Context (q : list bytes) (s : bytes) (Hq : named (q ++ [s]) = true).
Abbreviation path := (join (q ++ [s])).

(** A file's attributes change, and nothing else that is in the tree. *)
Lemma set_file t Fr m a a' : stands t Fr m → m !! (q ++ [s]) = Some a → a_kind a' = File →
  ∃ id, (∀ mode, lookup t path mode = Some id) ∧ n_attr (node t id) = a
    ∧ ∃ Fr' m', stands (set_attributes t id a').1 Fr' m' ∧ m' !! (q ++ [s]) = Some a' ∧ ∀ x, is_Some (m' !! x) → is_Some (m !! x).
Proof.
  intros Hst Ha Hk. destruct (path_node t Fr m _ a Hst Ha) as (id & Hid & _ & Hat & _). exists id. split_and!; [intros mode; by eapply lookup_exact_mode, lookup_node_path|done|].
  destruct (set_sim t Fr m id _ a' Hst Hid) as (Fr' & Hst' & _ & _). exists Fr', (s_set m (q ++ [s]) a').1. split; [done|]. unfold s_set. rewrite Ha. cbn [fst]. unfold s_dir. rewrite Hk. cbn [is_dir_kind]. split; [apply lookup_insert_eq|].
  intros x [y Hy]. apply lookup_insert_Some in Hy as [[<- _]|[_ Hy]]; [by eexists|]. unfold s_clear in Hy. apply map_lookup_filter_Some in Hy as [Hy _]. by eexists.
Qed.

Lemma resolve_file cl Fr m a : stands (tree_ cl) Fr m → m !! (q ++ [s]) = Some a → a_kind a = File →
  resolve_for_read cl path = mkTarget true (a_mtime_ns a) (a_size a) [].
Proof.
  intros Hst Ha Hk. destruct (set_file (tree_ cl) Fr m a a Hst Ha Hk) as (id & Hl & Hat & _). rewrite (resolve_for_read_spec cl path id (Hl _)), Hl, Hat. by rewrite bool_decide_eq_true_2.
Qed.

(** The batch of a miss starts with the file; the rest is other paths of the
    mirror. *)
Definition good_batch (m : pathmap) (b : list target) : Prop :=
  head b.*1 = Some path ∧ zlen b <= 256 ∧ Forall (λ p, p ≠ path ∧ ∃ x, is_Some (m !! x) ∧ p = join x) (tail b).*1.

Lemma read_ahead_good t Fr m mtime size : stands t Fr m → good_batch m (read_ahead t path mtime size) ∧ head (read_ahead t path mtime size) = Some (path, (mtime, size)).
Proof.
  intros Hst. unfold read_ahead. pose proof (named_ok _ Hq) as Hok. apply Forall_app in Hok as [Hok [Hs _]%Forall_cons]. rewrite (split_parent_join q s Hok Hs). cbn [fst].
  assert (good_batch m [(path, (mtime, size))]) as Hstart by (split_and!; [done|unfold zlen; cbn [length]; lia|constructor]).
  destruct (lookup t (join q) Exact) as [did|] eqn:El; [|by split]. destruct (is_dir (node t did)); [|by split].
  assert (at_path Fr q did) as Hdid.
  { pose proof (lookup_sim t Fr m (join q) Hst) as Hl. rewrite El in Hl. unfold s_lookup in Hl. rewrite scan_join in Hl by done.
    destruct (s_walk m [] q) as [r|] eqn:Ew; [|done]. rewrite named_app in Hq. apply andb_true_iff in Hq as [Hnq _]. by apply (s_walk_named m q [] r Hnq) in Ew as [-> _]. }
  destruct (kids_of t Fr m q did Hst Hdid) as (g & _ & -> & _ & _ & Hk).
  assert (Forall (λ x, valid_name x = true) q) as Hval by (rewrite named_app in Hq; apply andb_true_iff in Hq as [Hnq _]; apply Forall_forall; unfold named in Hnq; rewrite forallb_forall in Hnq; intros x Hx%list_elem_of_In; auto).
  assert (∀ kids st, (∀ c, c ∈ kids → c ∈ g_kids g) → good_batch m st.1 ∧ head st.1 = Some (path, (mtime, size)) →
    good_batch m (foldl (read_ahead_step t (join q) path) st kids).1 ∧ head (foldl (read_ahead_step t (join q) path) st kids).1 = Some (path, (mtime, size))) as Hfold.
  { induction kids as [|c kids IH]; intros [b n] Hin Hb; [done|]. cbn [foldl]. apply IH; [intros x Hx; apply Hin; by right|]. unfold read_ahead_step. destruct ((zlen b >=? 256) || _) eqn:Eg; [done|]. apply orb_false_iff in Eg as [Eg _].
    destruct (negb (fetchable _)); [done|]. case_bool_decide as Ep; [done|]. cbn [fst] in *. rewrite Z.geb_leb in Eg. apply Z.leb_gt in Eg. destruct Hb as [(B1 & B2 & B3) B4]. destruct b as [|f b]; [done|]. split; [|done].
    split_and!; [done|rewrite zlen_app; change (zlen [_]) with 1; lia|]. cbn [app tail fmap list_fmap]. rewrite fmap_app. apply Forall_app. split; [done|]. constructor; [|constructor]. cbn [fst]. split; [done|].
    destruct (Hk c (Hin c ltac:(left))) as (_ & _ & Hc). rewrite child_path_join by done. eexists. split; [by eexists|done]. }
  apply Hfold; [done|by split].
Qed.
End mirror.

(** ** In step *)

Section calls.
Context {F : Type} `{FileSystem F} `{!RegularFiles F} {M : Type} `{KeyMap M}.
Context (blake3 : bytes → bytes) (transient : F → bytes → FsErr → bool) (cfg : Config) (rid : Z).
Context (q : list bytes) (s : bytes) (full : bytes).
Implicit Types (v : @Serving F) (cl : Client M).
Abbreviation path := (join (q ++ [s])).

(** The file as the two sides have it: the agent's session serves, the disk has
    the bytes [d], the mirror shows a file of that size, and what the cache holds
    under the version the mirror shows is [d]. *)
Record synced v cl (d : bytes) (Fr : forest) (m : pathmap) (a : Attributes) : Prop := {
  sy_ok : serving_ok v;
  sy_disk : content (sv_fs v) full = Some d;
  sy_len : zlen d < 2 ^ 45;
  sy_tree : stands (tree_ cl) Fr m;
  sy_at : m !! (q ++ [s]) = Some a;
  sy_file : a_kind a = File;
  sy_size : a_size a = zlen d;
  sy_short : ∀ x, is_Some (m !! x) → zlen (join x) < 2 ^ 13;
  sy_cache : ∀ e, rcache_ (cache_ cl) !! path = Some e → ce_mtime e = a_mtime_ns a → ce_size e = a_size a → ce_data e = d
}.
Definition in_sync v cl d : Prop := ∃ Fr m a, synced v cl d Fr m a.

(** Calls within the limits of the protocol. *)
Definition call_ok (c : Call) : Prop :=
  u64_ok (ca_gen c) ∧
  match ca_op c with
  | FWrite off data => 0 <= off <= kMaxFileOffset ∧ data ≠ [] ∧ zlen (write_request path off data).2 <= kMaxPayload
  | FTruncate n => 0 <= n <= kMaxFileOffset
  | FRead off len => u64_ok off ∧ 0 <= len <= kMaxPayload - 64
  end.

Hypothesis Hq : named (q ++ [s]) = true.
Hypothesis Hres : resolve_path cfg path = Ok full.

Lemma path_normal : normalize_path path = path.
Proof. by rewrite normalize_path_eq, components_named. Qed.

Lemma short_ok p : zlen p < 2 ^ 13 → str_ok p.
Proof. intros Hp. unfold str_ok, u64_ok. pose proof (zlen_nonneg p). lia. Qed.

Lemma drop_none c : rcache_ (drop_cached c path) !! path = None.
Proof. unfold drop_cached. cbn [set_links rcache_]. rewrite erase_cached. apply lookup_delete_eq. Qed.

(** What a mutation leaves: another size and version, and nothing cached. *)
Lemma mutated v v' cl d d' Fr m a a' id : synced v cl d Fr m a → serving_ok v' → content (sv_fs v') full = Some d' → zlen d' < 2 ^ 45 →
  lookup (tree_ cl) path Exact = Some id → a_kind a' = File → a_size a' = zlen d' →
  ∀ gen p, in_sync v' (note_mutation p gen (with_tree (set_attributes (tree_ cl) id a').1 (with_cache (drop_cached (cache_ cl) path) cl))) d'.
Proof.
  intros [S1 S2 S3 S4 S5 S6 S7 S8 S9] Hok Hd Hl Hid Hk Hsz gen p. destruct (set_file q s (tree_ cl) Fr m a a' S4 S5 Hk) as (id' & Hid' & _ & Fr' & m' & Hst & Hat & Hsub).
  rewrite (Hid' Exact) in Hid. injection Hid as ->. exists Fr', m', a'. split; [done..| |]; cbn [note_mutation with_local with_tree with_cache cache_ tree_].
  - intros x Hx. by apply S8, Hsub.
  - intros e He. by rewrite drop_none in He.
Qed.

Lemma write_step v cl d now gen off data : in_sync v cl d → call_ok (mkCall now gen (FWrite off data)) →
  let '(v', (cl', r)) := file_step blake3 transient cfg rid v cl now gen path (FWrite off data) in
  r = Ok (Wrote (zlen data)) ∧ in_sync v' cl' (patch d (Z.to_nat off) data).
Proof.
  intros (Fr & m & a & Hsy) (Hg & Ho & Hne & Hl). pose proof Hsy as [S1 S2 S3 S4 S5 S6 S7 S8 S9]. cbn [ca_gen ca_op] in *.
  assert (kMaxFileOffset = 17592186044416) as Hmax by reflexivity. assert (kMaxPayload = 67108864) as Hmp by reflexivity. pose proof (zlen_nonneg data). pose proof (zlen_nonneg d).
  assert (zlen data <= kMaxPayload) as Hdl.
  { unfold write_request, write_write_request in Hl. cbn [snd wq_offset wq_path wq_data] in Hl. rewrite !zlen_app in Hl. pose proof (zlen_w_blob data). pose proof (zlen_nonneg (w_u64 off)). pose proof (zlen_nonneg (w_string path)). lia. }
  destruct (agent_writes blake3 transient cfg rid path full ltac:(by apply short_ok, S8) Hres (sv_session v) (sv_fs v) d gen off data (so_authed _ S1) S2 Ho Hne Hg Hl) as (fs' & Hd' & Hh).
  destruct (ask_answered blake3 transient cfg rid v gen (write_request path off data) fs' _ S1 Hl Hh) as (v' & Hask & Hok' & <-); [done..|]. cbn [o_type o_payload] in Hask.
  destruct (set_file q s (tree_ cl) Fr m a a S4 S5 S6) as (nid & Hid & Hat & _). unfold file_step. rewrite Hask. unfold write.
  pose proof (reply_decodes (A:=WriteResponse) MsgType.WriteResponse (mkWriteResponse (zlen data) gen)) as Hr. cbn [dec enc con_wire write_response_codec] in Hr. rewrite Hr by (split; cbn; [unfold u64_ok; lia|done]). cbn [id wr_written wr_generation].
  cbn [with_cache tree_ lookup_mode_]. rewrite Hid, Hat. split; [done|]. eapply (mutated v); [exact Hsy|done|done| |apply Hid|done|cbn [a_size]].
  - rewrite zlen_patch. lia.
  - rewrite S7, wrap_id, zlen_patch, Z2Nat.id by lia. done.
Qed.

Lemma truncate_step v cl d now gen n : in_sync v cl d → call_ok (mkCall now gen (FTruncate n)) →
  let '(v', (cl', r)) := file_step blake3 transient cfg rid v cl now gen path (FTruncate n) in
  r = Ok Truncated ∧ in_sync v' cl' (resized d n).
Proof.
  intros (Fr & m & a & Hsy) (Hg & Hn). pose proof Hsy as [S1 S2 S3 S4 S5 S6 S7 S8 S9]. cbn [ca_gen ca_op] in *.
  assert (kMaxFileOffset = 17592186044416) as Hmax by reflexivity.
  destruct (agent_truncates blake3 transient cfg rid path full ltac:(by apply short_ok, S8) Hres (sv_session v) (sv_fs v) d gen n (so_authed _ S1) S2 Hn Hg) as (fs' & Hd' & Hh).
  assert (zlen (truncate_request path n).2 <= kMaxPayload) as Hlen.
  { assert (kMaxPayload = 67108864) as Hmp by reflexivity. unfold truncate_request, write_truncate_request. cbn [snd tq_size tq_path]. rewrite zlen_app, zlen_w_u64. pose proof (zlen_w_blob path). change (w_string path) with (w_blob path). specialize (S8 _ (mk_is_Some _ _ S5)). lia. }
  destruct (ask_answered blake3 transient cfg rid v gen (truncate_request path n) fs' _ S1 Hlen Hh) as (v' & Hask & Hok' & <-); [done..|]. cbn [o_type o_payload] in Hask.
  destruct (set_file q s (tree_ cl) Fr m a a S4 S5 S6) as (nid & Hid & Hat & _). unfold file_step. rewrite Hask. unfold truncate.
  rewrite decode_ack by done.
  cbn [with_cache tree_ lookup_mode_]. rewrite Hid, Hat. split; [done|]. eapply (mutated v); [exact Hsy|done|done| |apply Hid|done|cbn [a_size]].
  - rewrite zlen_resized by lia. lia.
  - by rewrite zlen_resized by lia.
Qed.

Lemma each_length ps : Forall (λ p, zlen p < 2 ^ 13) ps → zlen (w_each w_string ps) <= 9000 * zlen ps.
Proof.
  induction 1 as [|p ps Hp _ IH]; [done|]. change (w_each w_string (p :: ps)) with (w_blob p ++ w_each w_string ps). rewrite zlen_app, zlen_cons. pose proof (zlen_w_blob p). lia.
Qed.

Lemma request_length ps : Forall (λ p, zlen p < 2 ^ 13) ps → zlen ps <= 256 → zlen (write_read_many_request (mkReadManyRequest ps)) <= kMaxPayload.
Proof.
  intros Hps Hn. assert (kMaxPayload = 67108864) as Hmp by reflexivity. unfold write_read_many_request. cbn [rmq_paths]. rewrite zlen_app. pose proof (w_varint_length (zlen ps)). pose proof (each_length ps Hps). lia.
Qed.

(** Reading changes the session and the cache at most. *)
Lemma still_synced v v' cl cl' d Fr m a : synced v cl d Fr m a → serving_ok v' → content (sv_fs v') full = Some d → tree_ cl' = tree_ cl →
  (∀ e, rcache_ (cache_ cl') !! path = Some e → rcache_ (cache_ cl) !! path = Some e ∨ ce_data e = d) → in_sync v' cl' d.
Proof.
  intros [S1 S2 S3 S4 S5 S6 S7 S8 S9] Hok Hd Ht Hc. exists Fr, m, a. split; try done; [by rewrite Ht|]. intros e He Hm Hs. destruct (Hc e He) as [He'|?]; [|done]. by apply S9.
Qed.

(** A miss: the batch is fetched and kept. *)
Lemma read_misses v cl d gen off len Fr m a : synced v cl d Fr m a → u64_ok gen → u64_ok off → 0 <= len <= kMaxPayload - 64 → zlen d <= kMaxCacheableFile →
  cache_hit (cache_ cl) path (a_mtime_ns a) (zlen d) = (cache_ cl, None) →
  let batch := read_ahead (tree_ cl) path (a_mtime_ns a) (zlen d) in
  ∃ v' many ds cl', ask blake3 transient cfg rid v gen (read_many_request batch) = (v', many) ∧ read_many (length batch) many = Ok (Some d :: ds)
    ∧ read cl path off len many (Err ConnectionClosed) = (cl', Ok (take (Z.to_nat len) (drop (Z.to_nat off) d))) ∧ in_sync v' cl' d.
Proof.
  intros Hsy Hg Ho Hl Hsmall Hmiss batch. pose proof Hsy as [S1 S2 S3 S4 S5 S6 S7 S8 S9].
  assert (kMaxPayload = 67108864) as Hmp by reflexivity. pose proof (zlen_nonneg d). pose proof (S8 _ (mk_is_Some _ _ S5)) as Hsp.
  destruct (read_ahead_good q s Hq (tree_ cl) Fr m (a_mtime_ns a) (zlen d) S4) as [(B1 & B2 & B3) B4]. fold batch in B1, B2, B3, B4.
  assert (Forall (λ p, zlen p < 2 ^ 13) batch.*1) as Hps.
  { destruct batch as [|f b]; [done|]. injection B4 as ->. cbn [fmap list_fmap tail] in *. constructor; [done|]. eapply Forall_impl; [exact B3|]. intros p (_ & x & Hx & ->). by apply S8. }
  destruct (agent_reads_batch blake3 transient cfg rid path full Hres path_normal (sv_session v) (sv_fs v) d gen batch (so_authed _ S1) S2 Hsmall B1 ltac:(unfold kMaxReadManyPaths; lia) ltac:(eapply Forall_impl; [exact Hps|]; intros p Hp; by apply short_ok)) as (fs' & items & Hc & Hh & Hwf & Hd).
  destruct (ask_answered blake3 transient cfg rid v gen (read_many_request batch) fs' _ S1 ltac:(apply request_length; [done|unfold zlen in *; by rewrite length_fmap]) Hh) as (v' & Hask & Hok' & Efs); [done..|]. cbn [o_type o_payload] in Hask.
  set (many := Ok (finish _ MsgType.ReadManyResponse _)) in Hask.
  assert (∃ ds, read_many (length batch) many = Ok (Some d :: ds)) as [ds Hmany].
  { unfold read_many, many. pose proof (reply_decodes (A:=ReadManyResponse) MsgType.ReadManyResponse (mkReadManyResponse items) Hwf) as Hr. cbn [dec enc con_wire read_many_response_codec] in Hr. rewrite Hr. cbn [rmp_items].
    destruct items as [|it items]; [done|]. injection Hd as ->. destruct batch as [|f b]; [done|]. cbn. by eexists. }
  assert (∀ e cl1, rcache_ (cache_fetched (cache_ cl1) batch (Some d :: ds)) !! path = Some e → ce_data e = d) as Hput.
  { intros e cl1 He. destruct batch as [|f b]; [done|]. injection B4 as ->. cbn [tail] in B3. unfold cache_fetched in He. cbn [zip_with foldl] in He. change (foldl _ ?c _) with (cache_fetched c b ds) in He.
    apply fetched_other in He; [|intros Hin; rewrite Forall_forall in B3; by destruct (B3 _ Hin)]. apply put_cached in He as [[_ ->]|[? _]]; done. }
  exists v', many, ds. unfold read. rewrite (resolve_file q s cl Fr m a S4 S5 S6). cbn [t_is_file t_size t_mtime_ns negb orb]. rewrite S7, Z.gtb_ltb, (proj2 (Z.ltb_ge _ _) Hsmall). change (read_key (mkTarget true (a_mtime_ns a) (zlen d) []) path) with path.
  rewrite Hmiss. cbn [with_cache tree_ cache_]. fold batch. rewrite Hmany. eexists. split; [done|]. split; [done|]. rewrite (slice_spec d off len (proj1 Ho)) by lia. split; [reflexivity|].
  eapply still_synced; [exact Hsy|done|by rewrite Efs, Hc| |].
  - destruct (zlen batch >=? 256); [unfold enqueue_prefetch; destruct (pf_stop_ _); [done|]; by case_bool_decide|done].
  - intros e He. right. apply (Hput e cl). destruct (zlen batch >=? 256); [|exact He]. unfold enqueue_prefetch in He. destruct (pf_stop_ _); [exact He|]. destruct (bool_decide _); exact He.
Qed.

Lemma read_step v cl d now gen off len : in_sync v cl d → call_ok (mkCall now gen (FRead off len)) →
  let '(v', (cl', r)) := file_step blake3 transient cfg rid v cl now gen path (FRead off len) in
  r = Ok (Data (take (Z.to_nat len) (drop (Z.to_nat off) d))) ∧ in_sync v' cl' d.
Proof.
  intros (Fr & m & a & Hsy) (Hg & Ho & Hl). pose proof Hsy as [S1 S2 S3 S4 S5 S6 S7 S8 S9]. cbn [ca_gen ca_op] in *.
  assert (kMaxPayload = 67108864) as Hmp by reflexivity. pose proof (zlen_nonneg d). pose proof (S8 _ (mk_is_Some _ _ S5)) as Hsp. pose proof (short_ok _ Hsp) as Hso. pose proof (slice_spec d off len ltac:(apply Ho) ltac:(lia) ltac:(lia) ltac:(lia)) as Hsl.
  unfold file_step, ask_read. rewrite (resolve_file q s cl Fr m a S4 S5 S6). cbn [t_is_file t_size t_mtime_ns negb orb]. change (read_key (mkTarget true (a_mtime_ns a) (a_size a) []) path) with path. rewrite S7.
  destruct (Z.gtb_spec (zlen d) kMaxCacheableFile) as [Hbig|Hsmall].
  - destruct (agent_reads_range blake3 transient cfg rid path full Hso Hres path_normal (sv_session v) (sv_fs v) d gen off len (so_authed _ S1) S2 ltac:(lia) Ho Hl) as (fs' & resp & Hc & Hh & Hwf & Hd).
    assert (zlen (read_remote_request path off len).2 <= kMaxPayload) as Hlen.
    { unfold read_remote_request, write_read_request. cbn [snd rq_offset rq_length rq_path]. rewrite !zlen_app, zlen_w_u64, zlen_w_u32. pose proof (zlen_w_blob path). change (w_string path) with (w_blob path). lia. }
    destruct (ask_answered blake3 transient cfg rid v gen (read_remote_request path off len) fs' _ S1 Hlen Hh) as (v' & -> & Hok' & <-); [done..|]. cbn [o_type o_payload].
    unfold read. rewrite (resolve_file q s cl Fr m a S4 S5 S6). cbn [t_is_file t_size negb orb]. rewrite S7, Z.gtb_ltb, (proj2 (Z.ltb_lt _ _) Hbig). cbn iota. unfold read_remote.
    pose proof (reply_decodes (A:=ReadResponse) MsgType.ReadResponse resp Hwf) as Hr. cbn [dec enc con_wire read_response_codec] in Hr. rewrite Hr. cbn [id]. rewrite Hd. split; [done|].
    eapply still_synced; [exact Hsy|done|by rewrite Hc|done|auto].
  - unfold cache_hit. destruct (rcache_ (cache_ cl) !! path) as [e|] eqn:Ee; [destruct ((ce_mtime e =? a_mtime_ns a) && (ce_size e =? zlen d)) eqn:Ev|].
    + apply andb_true_iff in Ev as [E1 E2]. apply Z.eqb_eq in E1, E2. assert (ce_data e = d) as Hde by (apply (S9 e eq_refl); congruence). cbn [snd].
      unfold read. rewrite (resolve_file q s cl Fr m a S4 S5 S6). cbn [t_is_file t_size t_mtime_ns negb orb]. rewrite S7, Z.gtb_ltb, (proj2 (Z.ltb_ge _ _) Hsmall). change (read_key (mkTarget true (a_mtime_ns a) (zlen d) []) path) with path.
      unfold cache_hit. rewrite Ee, E1, E2, !Z.eqb_refl. cbn [andb fst snd]. rewrite Hde, Hsl. split; [done|]. eapply still_synced; [exact Hsy|done..|auto].
    + cbn [snd]. destruct (read_misses v cl d gen off len Fr m a Hsy Hg Ho Hl Hsmall) as (v' & many & ds & cl' & -> & Hm & Hr & Hs); [unfold cache_hit; by rewrite Ee, Ev|]. rewrite Hm, Hr. by split.
    + cbn [snd]. destruct (read_misses v cl d gen off len Fr m a Hsy Hg Ho Hl Hsmall) as (v' & many & ds & cl' & -> & Hm & Hr & Hs); [unfold cache_hit; by rewrite Ee|]. rewrite Hm, Hr. by split.
Qed.

End calls.

(** ** A file read, patched, cut and extended *)

Definition demo_serving : @Serving MemFs := mkServing (mkSession true no_handshake) true kMaxPayload true warm_disk [].
Definition demo_calls : list Call :=
  [mkCall 5 1 (FRead 0 100); mkCall 6 1 (FWrite 2 (str "XYZ")); mkCall 7 2 (FRead 1 3); mkCall 8 2 (FTruncate 3); mkCall 9 2 (FRead 0 100);
   mkCall 10 3 (FWrite 5 (str "q")); mkCall 11 3 (FRead 0 100)].

Lemma demo_in_sync : in_sync [str "src"] (str "a.txt") (str "/r/src/a.txt") demo_serving warm_client (str "abcd").
Proof.
  destruct (run_new_sim (M := U64Map) warm_ops) as (Fr & Hst & _); [vm_compute; reflexivity|repeat constructor; vm_compute; repeat split; try reflexivity; intros; discriminate|].
  exists Fr, warm_map, (mkAttr 4 100 420 File). split; [by split|reflexivity|vm_compute; reflexivity|exact Hst|vm_compute; reflexivity|reflexivity|reflexivity| |].
  - assert (Forall (λ qa, zlen (join qa.1) < 2 ^ 13) (map_to_list warm_map)) as Hall by (apply (bool_decide_unpack _); vm_compute; exact I).
    intros x [a Ha]. rewrite Forall_forall in Hall. apply (Hall (x, a)). by apply elem_of_map_to_list.
  - intros e He. vm_compute in He. discriminate.
Qed.


(** The premise that a write has bytes is needed: a write of no bytes past the end
    leaves the file as it is and grows its mirror. *)
Example empty_write_grows_mirror :
  let '(v', (cl', rs)) := run_calls (λ _, []) (λ _ _ _, false) warm_agent 9 demo_serving warm_client (str "src/a.txt") [mkCall 5 1 (FWrite 10 [])] in
  rs = [Ok (Wrote 0)] ∧ content (sv_fs v') (str "/r/src/a.txt") = Some (str "abcd") ∧ t_size (resolve_for_read cl' (str "src/a.txt")) = 10.
Proof. vm_compute. split_and!; reflexivity. Qed.
