(* ===== verification/Names.v ===== *)
(** * Names on a disk

    What names a filesystem has below a root: a map from paths to kinds, the
    operations on it, what the agent relies on of the calls that change it, and the
    in-memory filesystem as one that does so. *)

From S2P Require Import Prelude Types Path MetadataTree FileSystem Resolve Scanner ScanProps Converge.

(** ** Names *)

Definition names : Type := list bytes → option NodeKind.

#[global] Instance names_equiv : Equiv names := λ T T', ∀ x, T x = T' x.
#[global] Instance names_equivalence : Equivalence (≡@{names}).
Proof. split; [by intros T x|intros T T' E x; by rewrite E|intros T1 T2 T3 E E' x; by rewrite E, E']. Qed.

Definition n_set (q : list bytes) (k : option NodeKind) (T : names) : names := λ x, if decide (x = q) then k else T x.

(** What is at or below [p] goes to [q]. *)
Definition n_move (p q : list bytes) (T : names) : names :=
  λ x, if decide (q `prefix_of` x) then T (p ++ drop (length q) x) else if decide (p `prefix_of` x) then None else T x.

#[global] Instance n_set_proper q k : Proper ((≡) ==> (≡)) (n_set q k).
Proof. intros T T' E x. unfold n_set. by rewrite (E x). Qed.
#[global] Instance n_move_proper p q : Proper ((≡) ==> (≡)) (n_move p q).
Proof. intros T T' E x. unfold n_move. by rewrite (E x), (E (p ++ _)). Qed.

(** The root is a directory, and only directories have entries. *)
Definition sound (T : names) : Prop := T [] = Some Directory ∧ ∀ q s, T (q ++ [s]) ≠ None → T q = Some Directory.

(** The parent of [q] is a directory. *)
Definition home (T : names) (q : list bytes) : Prop := q ≠ [] ∧ T (removelast q) = Some Directory.
Definition childless (T : names) (q : list bytes) : Prop := ∀ s, T (q ++ [s]) = None.

#[global] Instance sound_proper : Proper ((≡) ==> iff) sound.
Proof. intros T T' E. unfold sound. setoid_rewrite (E : ∀ x, T x = T' x). done. Qed.
#[global] Instance home_proper : Proper ((≡) ==> (=) ==> iff) home.
Proof. intros T T' E q _ <-. unfold home. by rewrite (E _). Qed.
#[global] Instance childless_proper : Proper ((≡) ==> (=) ==> iff) childless.
Proof. intros T T' E q _ <-. unfold childless. by setoid_rewrite (E : ∀ x, T x = T' x). Qed.

Lemma home_snoc T q s : home T (q ++ [s]) ↔ T q = Some Directory.
Proof. unfold home. rewrite removelast_last. split; [by intros [_ ?]|]. by split; [destruct q|]. Qed.

Lemma home_split T q : home T q → ∃ p s, q = p ++ [s] ∧ T p = Some Directory.
Proof. intros [Hq Hp]. destruct q as [|s p _] using rev_ind; [done|]. exists p, s. by rewrite removelast_last in Hp. Qed.

(** Nothing is below what is not a directory, or has no children. *)
Lemma sound_above T p r : sound T → T (p ++ r) ≠ None → r ≠ [] → T p = Some Directory ∧ ¬ childless T p.
Proof.
  intros [_ HT]. induction r as [|s r IH] using rev_ind; [done|]. rewrite app_assoc. intros Hx _. destruct (decide (r = [])) as [->|Hr].
  - rewrite app_nil_r in Hx. split; [by eapply HT|]. intros Hc. by apply Hx, Hc.
  - apply IH; [|done]. by rewrite (HT _ _ Hx).
Qed.

Lemma sound_set T q k : sound T → home T q → (k = Some Directory ∨ childless T q) → sound (n_set q k T).
Proof.
  intros [H0 HT] (p & t & -> & Hp)%home_split Hc. unfold n_set. split; [by rewrite decide_False by by destruct p|]. intros q s. case_decide as E.
  - apply app_inj_tail in E as [-> _]. intros _. rewrite decide_False; [done|]. intros E. apply (f_equal length) in E. rewrite length_app in E. cbn in E. lia.
  - intros Hx. case_decide as E'; [subst q|by eapply HT]. destruct Hc as [?|Hc]; [done|]. by rewrite Hc in Hx.
Qed.

Lemma sound_move T p q : sound T → home T p → home T q → ¬ p `prefix_of` q → ¬ q `prefix_of` p → sound (n_move p q T).
Proof.
  intros [H0 HT] _ (b & t & -> & Hb)%home_split Hpq Hqp. unfold n_move. split.
  - rewrite decide_False by (intros E%prefix_nil_inv; by destruct b). case_decide as E; [|done]. apply prefix_nil_inv in E as ->. destruct Hpq. apply prefix_nil.
  - intros x s. destruct (decide (b ++ [t] `prefix_of` x)) as [[r ->]|Hn].
    + rewrite decide_True by (exists (r ++ [s]); by rewrite !app_assoc). rewrite <- app_assoc, !drop_app_length, app_assoc. apply HT.
    + case_decide as E.
      * destruct E as [r E]. assert (r = []) as ->. { destruct r as [|y r _] using rev_ind; [done|]. rewrite app_assoc in E. apply app_inj_tail in E as [E _]. destruct Hn. by exists r. }
        rewrite app_nil_r in E. apply app_inj_tail in E as [-> ->]. intros _. rewrite decide_False; [done|]. intros E. apply Hpq. by apply prefix_app_r.
      * case_decide as E1; [done|]. intros Hx. rewrite decide_False; [by eapply HT|]. intros E2. apply E1. by apply prefix_app_r.
Qed.

(** ** Filesystems with names

    What the agent relies on below a root, for names whose parents are directories:
    a call that fails changes no name; [fopen] for writing makes a file; a
    directory is made where there was nothing; [remove] takes what has no
    entries; [rename] moves, over something without entries if need be, except that
    two names of one file are left as they are. *)
Definition at_ (root : bytes) (q : list bytes) : bytes := join_relative root (join q).

Class Directories (F : Type) `{FileSystem F} (root : bytes) := {
  entries : F → names;
  same_file : F → list bytes → list bytes → bool;
  same_file_refl fs p : same_file fs p p = true;
  entries_open fs q : sound (entries fs) → named q = true → home (entries fs) q → entries fs q = None →
    match fs_open fs (at_ root q) ModeW with
    | (fs', None) => entries fs' ≡ n_set q (Some File) (entries fs) ∧ ∃ st, fs_lstat fs' (at_ root q) = Some st ∧ rs_type st = FtRegular ∧ attr_ok (attributes_from st)
    | (fs', Some _) => entries fs' ≡ entries fs
    end;
  entries_mkdir fs q : sound (entries fs) → named q = true → home (entries fs) q →
    match fs_create_directory fs (at_ root q) with
    | (fs', Ok true) => entries fs q = None ∧ entries fs' ≡ n_set q (Some Directory) (entries fs)
    | (fs', _) => entries fs' ≡ entries fs
    end;
  entries_remove fs q : sound (entries fs) → named q = true → home (entries fs) q →
    match fs_remove fs (at_ root q) with
    | (fs', Ok true) => childless (entries fs) q ∧ entries fs' ≡ n_set q None (entries fs)
    | (fs', _) => entries fs' ≡ entries fs
    end;
  entries_rename fs p q : sound (entries fs) → named p = true → named q = true → home (entries fs) p → home (entries fs) q →
    match fs_rename fs (at_ root p) (at_ root q) with
    | (fs', None) =>
        if same_file fs p q then entries fs' ≡ entries fs
        else ¬ p `prefix_of` q ∧ childless (entries fs) q ∧ entries fs' ≡ n_move p q (entries fs)
    | (fs', Some _) => entries fs' ≡ entries fs
    end
}.
#[global] Hint Mode Directories ! - - : typeclass_instances.

(** The in-memory filesystem, below a root that does not end in a slash. *)
Definition mem_kind (n : MemNode) : NodeKind := match n with MDir => Directory | MFile _ => File | MLink _ => Symlink end.

Section mem.
Context (root : bytes) (Hroot : root ≠ [] ∧ last root ≠ Some c_slash).

Definition key (q : list bytes) : bytes := root ++ match q with [] => [] | _ => c_slash :: join q end.

Lemma mem_key_at q : named q = true → mem_key (at_ root q) = key q.
Proof.
  destruct Hroot as [Hr Hl]. intros Hq. unfold at_, join_relative.
  assert (is_absolute (join q) = false) as ->.
  { destruct (decide (q = [])) as [->|Hne]; [done|]. destruct (join_ends q Hne Hq) as [(c & r & -> & Hc) _]. by apply Z.eqb_neq. }
  destruct (last root) as [c|] eqn:El; [|by apply last_None in El]. assert (c ≠ c_slash) as Hc by congruence. rewrite (proj2 (Z.eqb_neq _ _) Hc).
  destruct (decide (q = [])) as [->|Hne].
  - unfold mem_key, key. cbn [join app]. rewrite last_snoc. cbn iota. rewrite length_app. cbn [length]. replace (length root + 1 - 1)%nat with (length root) by lia. by rewrite take_app_length, app_nil_r.
  - destruct (join_ends q Hne Hq) as [_ (c' & r & E & Hc')]. assert (key q = root ++ [c_slash] ++ join q) as -> by (by destruct q).
    unfold mem_key. rewrite E, !app_assoc, last_snoc. unfold c_slash in Hc'. by repeat case_match.
Qed.

Lemma key_app p r : p ++ r ≠ p → key (p ++ r) = key p ++ c_slash :: join r.
Proof.
  intros Hr. assert (r ≠ []) as Hr' by (intros ->; by rewrite app_nil_r in Hr). unfold key. destruct p as [|s p]; [destruct r; [done|]; by rewrite app_nil_r|].
  cbn [app]. change (s :: p ++ r) with ((s :: p) ++ r). rewrite join_app by done. rewrite <- app_assoc. done.
Qed.

Lemma inside_spec p x : mem_inside p x = true ↔ ∃ r, x = p ++ r ∧ (r = [] ∨ ∃ t, r = c_slash :: t).
Proof.
  unfold mem_inside. rewrite orb_true_iff, !bool_decide_eq_true. split.
  - intros [-> | Ht]; [exists []; rewrite app_nil_r; auto|]. exists (c_slash :: drop (length p + 1) x). split; [|eauto].
    rewrite <- (take_drop (length p + 1) x) at 1. rewrite Ht. by rewrite <- app_assoc.
  - intros (r & -> & [-> | (t & ->)]); [left; by rewrite app_nil_r|right]. change (p ++ c_slash :: t) with (p ++ [c_slash] ++ t). rewrite app_assoc. apply take_app_length'. by rewrite length_app.
Qed.

Lemma key_inside p q : named p = true → named q = true → mem_inside (key p) (key q) = true ↔ p `prefix_of` q.
Proof.
  intros Hp Hq. rewrite inside_spec. split.
  - intros (r & E & Hr). destruct (decide (p = [])) as [->|Hne]; [apply prefix_nil|]. destruct (decide (q = [])) as [->|Hne'].
    + destruct p as [|s p]; [done|]. unfold key in E. rewrite <- app_assoc in E. by apply app_inv_head in E.
    + assert (key p = root ++ c_slash :: join p ∧ key q = root ++ c_slash :: join q) as [Ep Eq] by (unfold key; by destruct p, q). rewrite Ep, Eq, <- app_assoc in E. apply app_inv_head in E. injection E as E.
      eapply join_prefix_inv; [by apply named_ok..|done|exact E|]. done.
  - intros [r ->]. destruct (decide (r = [])) as [->|Hr]; [exists []; rewrite !app_nil_r; auto|]. exists (c_slash :: join r). split; [|eauto]. apply key_app. intros E. apply Hr. rewrite <- (app_nil_r p) in E at 2. by apply app_inv_head in E.
Qed.

Lemma disk_key_inj p q : named p = true → named q = true → key p = key q → p = q.
Proof.
  intros Hp Hq E. assert (∀ x, mem_inside x x = true) as Hrefl by (intros x; apply inside_spec; exists []; rewrite app_nil_r; auto).
  apply (anti_symm prefix); apply key_inside; try done; [rewrite <- E|rewrite E]; apply Hrefl.
Qed.

Lemma mem_move_lookup p q m y n : mem_move p q m !! y = Some n ↔
  (∃ r, y = q ++ r ∧ mem_inside p (p ++ r) = true ∧ m !! (p ++ r) = Some n) ∨ (mem_inside p y = false ∧ mem_inside q y = false ∧ m !! y = Some n).
Proof.
  unfold mem_move. set (l := (λ xn, _) <$> _).
  assert (∀ y n, (y, n) ∈ l ↔ ∃ r, y = q ++ r ∧ mem_inside p (p ++ r) = true ∧ m !! (p ++ r) = Some n) as Hl.
  { clear y n. intros y n. unfold l. rewrite list_elem_of_fmap. split.
    - intros ([x n'] & [= -> ->] & [Hi Hx%elem_of_map_to_list]%list_elem_of_filter). cbn [fst snd] in *. pose proof Hi as (r & -> & _)%inside_spec. exists r. by rewrite drop_app_length.
    - intros (r & -> & Hi & Hn). exists (p ++ r, n). cbn [fst snd]. rewrite drop_app_length. split; [done|]. apply list_elem_of_filter. split; [done|]. by apply elem_of_map_to_list. }
  assert (NoDup l.*1) as Hnd.
  { unfold l. rewrite <- list_fmap_compose. apply NoDup_fmap_2_strong.
    - intros [x a] [x' a'] [Hi Hx]%list_elem_of_filter [Hi' Hx']%list_elem_of_filter. cbn [fst snd compose] in *. apply inside_spec in Hi as (r & -> & _), Hi' as (r' & -> & _). rewrite !drop_app_length. intros ->%app_inv_head.
      apply elem_of_map_to_list in Hx, Hx'. congruence.
    - apply NoDup_filter, NoDup_map_to_list. }
  rewrite lookup_union_Some_raw, map_lookup_filter_Some. cbn [fst]. rewrite <- elem_of_list_to_map by done. rewrite Hl. split; [naive_solver|].
  intros [?|(Hp & Hq & Hy)]; [by left|right]. split; [|done]. apply not_elem_of_list_to_map. intros Hin. apply list_elem_of_fmap in Hin as ([y' n'] & E & (r & -> & Hi & _)%Hl). cbn [fst] in E. subst y.
  assert (mem_inside q (q ++ r) = true); [|congruence]. apply inside_spec in Hi as (r' & ->%app_inv_head & Hr). apply inside_spec. eauto.
Qed.

Definition mem_entries (m : MemFs) : names := λ q, if named q then mem_kind <$> m !! key q else None.

Lemma mem_entries_set (m : MemFs) q n : named q = true → mem_entries (<[key q := n]> m) ≡ n_set q (Some (mem_kind n)) (mem_entries m).
Proof.
  intros Hq x. unfold mem_entries, n_set. case_decide as E; [subst x; by rewrite Hq, lookup_insert_eq|]. destruct (named x) eqn:Hx; [|done].
  rewrite lookup_insert_ne; [done|]. intros ?%disk_key_inj; congruence.
Qed.

Lemma mem_entries_delete (m : MemFs) q : named q = true → mem_entries (delete (key q) m) ≡ n_set q None (mem_entries m).
Proof.
  intros Hq x. unfold mem_entries, n_set. case_decide as E; [subst x; by rewrite Hq, lookup_delete_eq|]. destruct (named x) eqn:Hx; [|done].
  rewrite lookup_delete_ne; [done|]. intros ?%disk_key_inj; congruence.
Qed.

Lemma mem_listed (m : MemFs) q : omap (mem_child (key q)) (map_to_list m).*1 = [] → childless (mem_entries m) q.
Proof.
  intros Hno s. unfold mem_entries. destruct (named (q ++ [s])) eqn:Hn; [|done]. destruct (m !! key (q ++ [s])) as [n|] eqn:E; [|done]. exfalso.
  assert (q ++ [s] ≠ q) as Hne by (intros E'; apply (f_equal length) in E'; rewrite length_app in E'; cbn in E'; lia). rewrite (key_app q [s] Hne) in E. cbn [join] in E.
  assert (mem_child (key q) (key q ++ c_slash :: s) = Some s) as Hc.
  { unfold mem_child. change (key q ++ c_slash :: s) with (key q ++ [c_slash] ++ s). rewrite app_assoc, take_app_length', drop_app_length' by by rewrite length_app. rewrite bool_decide_eq_true_2 by done.
    rewrite named_app in Hn. apply andb_true_iff in Hn as [_ Hs%named_ok]. apply Forall_cons in Hs as [[Hs Hc] _]. rewrite bool_decide_eq_false_2 by by apply skipped_nil. cbn [orb].
    assert (existsb (Z.eqb 47) s = false) as ->; [|done]. apply not_true_iff_false. intros (c & Hin%list_elem_of_In & Ec%Z.eqb_eq)%existsb_exists. subst c. rewrite Forall_forall in Hc. by apply Hc in Hin. }
  assert (s ∈ omap (mem_child (key q)) (map_to_list m).*1) as Hin; [|rewrite Hno in Hin; by apply not_elem_of_nil in Hin].
  apply list_elem_of_omap. exists (key q ++ c_slash :: s). split; [|done]. apply list_elem_of_fmap. exists (key q ++ c_slash :: s, n). split; [done|]. by apply elem_of_map_to_list.
Qed.

Definition suffix (r : list bytes) : bytes := match r with [] => [] | _ => c_slash :: join r end.

Lemma key_suffix p r : key (p ++ r) = key p ++ suffix r.
Proof. destruct r as [|s r]; [by rewrite !app_nil_r|]. apply key_app. intros E. rewrite <- (app_nil_r p) in E at 2. by apply app_inv_head in E. Qed.

Lemma mem_entries_move (m : MemFs) p q : named p = true → named q = true → mem_entries (mem_move (key p) (key q) m) ≡ n_move p q (mem_entries m).
Proof.
  intros Hp Hq x. unfold mem_entries, n_move. case_decide as E.
  - destruct E as [r ->]. rewrite drop_app_length, !named_app, Hp, Hq. cbn [andb]. destruct (named r) eqn:Hr; [|done].
    assert (named (p ++ r) = true ∧ named (q ++ r) = true) as [Hpr Hqr] by by rewrite !named_app, Hp, Hq, Hr. f_equal. apply option_eq. intros n. rewrite mem_move_lookup, !key_suffix. split.
    + intros [(r' & ->%app_inv_head & _ & ?)|(_ & Hf & _)]; [done|]. exfalso. rewrite <- key_suffix in Hf. apply not_true_iff_false in Hf. apply Hf, key_inside; [done..|]. by apply prefix_app_r.
    + intros Hn. left. exists (suffix r). split_and!; [done| |done]. rewrite <- key_suffix. apply key_inside; [done..|]. by apply prefix_app_r.
  - destruct (named x) eqn:Hx; [|by case_decide]. assert (mem_inside (key q) (key x) = false) as Hqx by (apply not_true_iff_false; by rewrite key_inside).
    assert (mem_move (key p) (key q) m !! key x = if decide (p `prefix_of` x) then None else m !! key x) as ->; [|by case_decide]. apply option_eq. intros n. rewrite mem_move_lookup. split.
    + intros [(r & Ex & (r' & ->%app_inv_head & Hr)%inside_spec & _)|(Hf & _ & Hn)].
      * exfalso. apply not_true_iff_false in Hqx. apply Hqx, inside_spec. eauto.
      * rewrite decide_False; [done|]. intros Hpx. apply key_inside in Hpx; congruence.
    + case_decide as Hpx; [done|]. intros Hn. right. split_and!; [|done..]. apply not_true_iff_false. by rewrite key_inside.
Qed.

#[program] Definition mem_directories : Directories MemFs root :=
  {| entries := mem_entries; same_file m p q := bool_decide (p = q) |}.
Next Obligation. intros m p. cbn. by rewrite bool_decide_eq_true_2. Qed.
Next Obligation.
  intros m q _ Hq _ Hs. cbn. rewrite (mem_key_at q Hq). pose proof (mem_entries_set m q (MFile []) Hq) as Hset. unfold mem_entries in Hs. rewrite Hq in Hs. destruct (m !! key q) as [n|]; [done|]. split; [done|]. rewrite lookup_insert_eq. eexists. by split_and!.
Qed.
Next Obligation.
  intros m q _ Hq _. cbn. rewrite (mem_key_at q Hq). pose proof (mem_entries_set m q MDir Hq) as Hset. destruct (m !! key q) as [[]|] eqn:E; try done. split; [|done]. unfold mem_entries. by rewrite Hq, E.
Qed.
Next Obligation.
  intros m q Hm Hq Hh. cbn. rewrite (mem_key_at q Hq). pose proof (mem_entries_delete m q Hq) as Hdel.
  assert (mem_entries m q ≠ Some Directory → childless (mem_entries m) q) as Hfile. { intros Hn s. destruct (mem_entries m (q ++ [s])) eqn:E; [|done]. destruct Hn. eapply (proj2 Hm q s). congruence. }
  unfold mem_entries at 1 in Hfile. rewrite Hq in Hfile. destruct (m !! key q) as [[]|] eqn:E; [case_bool_decide as El; [split; [by apply mem_listed|done]|done]|..|done]; (split; [by apply Hfile|done]).
Qed.
Next Obligation.
  intros m p q Hm Hp Hq Hhp Hhq. cbn. rewrite (mem_key_at q Hq), (mem_key_at p Hp). pose proof (mem_entries_move m p q Hp Hq) as Hmove.
  assert (mem_entries m q ≠ Some Directory → childless (mem_entries m) q) as Hfile. { intros Hn s. destruct (mem_entries m (q ++ [s])) eqn:E; [|done]. destruct Hn. eapply (proj2 Hm q s). congruence. }
  unfold mem_entries at 1 in Hfile. rewrite Hq in Hfile.
  destruct (m !! key p) as [n|] eqn:Ep; [|done]. case_bool_decide as Epq; [by rewrite bool_decide_eq_true_2 by by apply disk_key_inj|]. rewrite (bool_decide_eq_false_2 (p = q)) by (intros ->; done).
  destruct (mem_inside (key p) (key q)) eqn:Ei; [done|]. assert (¬ p `prefix_of` q) as Hnp by (rewrite <- key_inside by done; congruence).
  destruct n, (m !! key q) as [[]|] eqn:Eq; try done; try (case_bool_decide as El; [|done]); (split_and!; [done| |done]); first [by apply mem_listed|by apply Hfile].
Qed.
End mem.
