(* ===== verification/Namespace.v ===== *)
(** * The namespace through the client and the agent

    The client's [create_file], [mkdir], [unlink], [rmdir] and [rename]
    ([agent/client.cpp]) composed with the agent's session and its file operations
    ([agent/server.cpp]): what names the mount shows, and what names the disk has.
    The specification is a map from paths to kinds. *)

From S2P Require Import Prelude Types KeyMap HashUtil FlatMap Wire Messages Path Unicode StringPool MetadataTree Forest TreeIndex TreeLinks TreeInv TreeOps TreeSpec TreeRefine TreeProps.
From S2P Require Import ReadCache FileSystem Resolve Scanner ScanProps Server Requests Client ClientProps Walk Mirror Warm Converge Through Names.

(** ** What the client makes of its mirror *)

Definition kinds (m : pathmap) : names := λ q, a_kind <$> m !! q.

Section client.
Context {M : Type} `{KeyMap M}.
Implicit Types (t : MetadataTree M) (cl : Client M) (m : pathmap).

(** The kind the mirror shows at a path. *)
Definition mirror_kind cl (q : list bytes) : option NodeKind :=
  match lookup (tree_ cl) (join q) Exact with Some id => Some (a_kind (n_attr (node (tree_ cl) id))) | None => None end.

Lemma mirror_kinds cl Fr m q : stands (tree_ cl) Fr m → named q = true → mirror_kind cl q = kinds m q.
Proof.
  intros Hst Hq. unfold mirror_kind, kinds. destruct (m !! q) as [a|] eqn:Ea.
  - destruct (path_node _ Fr m q a Hst Ea) as (id & Hid & _ & Hat & _). rewrite (lookup_node_path _ Fr m id q Hst Hid). by rewrite Hat.
  - pose proof (lookup_sim _ Fr m (join q) Hst) as Hl. destruct (lookup _ _ _) as [id|]; [|done]. unfold s_lookup in Hl. rewrite scan_join in Hl by by apply named_ok.
    destruct (s_walk m [] q) as [r|] eqn:Ew; [|done]. apply (s_walk_named m q [] r Hq) in Ew as [-> Hr]. cbn [app] in *. destruct (decide (q = [])) as [->|Hne]; [|destruct (Hr Hne); congruence].
    destruct Hst as (HF & _ & Hm). by apply (shows_none 0 Fr m [] HF Hm) with id in Ea.
Qed.

Lemma kinds_sound_closed m : sound (kinds m) → closed m ∧ dir_at m [].
Proof.
  intros [Hs0 Hs]. unfold kinds in *. split.
  - intros q s [a Ha]. specialize (Hs q s). rewrite Ha in Hs. destruct (m !! q); [done|]. by specialize (Hs ltac:(done)).
  - unfold dir_at, s_dir. destruct (m !! []) as [d|]; [|done]. exists d. injection Hs0 as ->. done.
Qed.

(** Where there is a directory, nothing above it is a file. *)
Lemma kinds_above m p : sound (kinds m) → kinds m p = Some Directory → ∀ r, r `prefix_of` p → dir_at m r.
Proof.
  intros Hs Hp r [u ->]. assert (kinds m r = Some Directory) as Hr.
  { destruct (decide (u = [])) as [->|Hu]; [by rewrite app_nil_r in Hp|]. eapply sound_above; [done| |done]. by rewrite Hp. }
  unfold kinds in Hr. unfold dir_at, s_dir. destruct (m !! r) as [d|]; [|done]. exists d. injection Hr as ->. done.
Qed.

(** A new entry where there is none. *)
Lemma upsert_kinds m q s a : named (q ++ [s]) = true → sound (kinds m) → kinds m q = Some Directory → kinds m (q ++ [s]) = None →
  kinds (s_upsert_path m (join (q ++ [s])) a).1 ≡ n_set (q ++ [s]) (Some (a_kind a)) (kinds m).
Proof.
  intros Hn Hs Hq Hnone. destruct (kinds_sound_closed m Hs) as [Hcl Hroot].
  assert (∀ r, r `prefix_of` q → dir_at m r) as Hdir by by apply kinds_above.
  destruct (upsert_spec m q s a Hn Hcl Hroot) as (m' & -> & Hat & Hx); [intros r Hr d Hd; destruct (Hdir r Hr) as (d' & Hd' & ?); congruence|].
  intros x. unfold n_set, kinds in *. case_decide as E; [subst x; by rewrite Hat|]. f_equal. apply option_eq. intros b. rewrite (Hx x b E). split.
  - intros [_ [?|(Hxn & _ & Hp)]]; [done|]. destruct (Hdir x Hp) as (d & Hd & _). congruence.
  - intros Hb. split; [right|by left]. intros Hp. destruct (closed_above m (q ++ [s]) x Hcl Hp) as [o Ho]; [eauto|]. by rewrite Ho in Hnone.
Qed.

(** An entry without others below it goes. *)
Lemma remove_kinds m q : named q = true → q ≠ [] → sound (kinds m) → childless (kinds m) q → kinds (s_remove_path m (join q)).1 ≡ n_set q None (kinds m).
Proof.
  intros Hn Hq Hs Hc. destruct (kinds_sound_closed m Hs) as [Hcl _]. intros x. unfold n_set. pose proof (remove_spec m q Hn Hq Hcl x) as Hr. unfold kinds at 1. case_decide as E.
  - subst x. assert ((s_remove_path m (join q)).1 !! q = None) as ->; [|done]. apply eq_None_not_Some. by intros [b [_ []]%Hr].
  - unfold kinds. f_equal. apply option_eq. intros b. rewrite Hr. split; [by intros [? _]|]. intros Hb. split; [done|]. intros [r ->].
    destruct (sound_above (kinds m) q r Hs) as [_ Hnc]; [unfold kinds; by rewrite Hb|intros ->; by rewrite app_nil_r in E|done].
Qed.

Lemma lookup_none t Fr m q : stands t Fr m → named q = true → m !! q = None → lookup t (join q) Exact = None.
Proof.
  intros Hst Hq Ea. pose proof (lookup_sim _ Fr m (join q) Hst) as Hl. destruct (lookup _ _ _) as [id|]; [|done]. unfold s_lookup in Hl. rewrite scan_join in Hl by by apply named_ok.
  destruct (s_walk m [] q) as [r|] eqn:Ew; [|done]. apply (s_walk_named m q [] r Hq) in Ew as [-> Hr]. cbn [app] in *. destruct Hst as (HF & _ & Hm). by apply (shows_none 0 Fr m q HF Hm) with id in Ea.
Qed.

(** Directories that exist are found, not made. *)
Lemma ensure_existing t Fr m comps : stands t Fr m → named comps = true → ∀ q x, at_path Fr q x → (∀ r, r `prefix_of` comps → dir_at m (q ++ r)) →
  ∃ y, ensure_from t x comps = (t, Ok y) ∧ at_path Fr (q ++ comps) y.
Proof.
  intros Hst. induction comps as [|c comps IH]; intros Hn q x Hx Hd; [exists x; by rewrite app_nil_r|]. cbn [ensure_from].
  pose proof (named_comp c comps Hn) as (-> & -> & Hn'). pose proof (find_sim_cases t Fr m x q c Hst Hx) as Hf.
  destruct (Hd [c]) as (d & Hdm & Hdir); [apply prefix_cons, prefix_nil|]. destruct (find_child t x c Exact) as [y|]; [|congruence].
  destruct Hf as (Hy & g & Hg & Em). pose proof Hst as (_ & (names & Ht) & _). rewrite (is_dir_spec t names Fr y g Ht Hg). rewrite Em in Hdm. injection Hdm as <-. change (s_dir (g_attr g)) with (g_isdir g) in Hdir. rewrite Hdir. cbn [negb].
  destruct (IH Hn' (q ++ [c]) y Hy) as (z & Ez & Hz); [|exists z; split; [done|]; by rewrite <- app_assoc in Hz].
  intros r Hr. rewrite <- app_assoc. by apply Hd, prefix_cons.
Qed.

Lemma move_kinds m m1 p q s : (∀ y b, m1 !! y = Some b ↔ m !! y = Some b ∧ ¬ q ++ [s] `prefix_of` y) → ¬ p `prefix_of` q ++ [s] → ¬ q ++ [s] `prefix_of` p →
  kinds (s_move p q s m1) ≡ n_move p (q ++ [s]) (kinds m).
Proof.
  intros Hm1 Hpq Hqp y. assert (∀ b, s_move p q s m1 !! y = Some b ↔ ∃ x, m1 !! x = Some b ∧ y = moved_key p q s x) as Hs by (intros b; apply s_move_lookup; by intros x [b' [_ ?]%Hm1]).
  assert (∀ r, q ++ s :: r = (q ++ [s]) ++ r) as Happ by (intros; by rewrite <- app_assoc). unfold n_move, moved_key in *. case_decide as E.
  - destruct E as [r ->]. rewrite drop_app_length. unfold kinds. f_equal. apply option_eq. intros b. rewrite Hs. split.
    + intros (x & [Hx Hn]%Hm1 & Ex). case_decide as Ep; [|subst x; destruct Hn; by eexists]. destruct Ep as [u ->]. rewrite drop_app_length, (Happ u) in Ex. apply app_inv_head in Ex as ->. done.
    + intros Hb. exists (p ++ r). rewrite decide_True by by eexists. rewrite drop_app_length, (Happ r). split; [|done]. apply Hm1. split; [done|]. intros Hp.
      destruct (prefix_weak_total p (q ++ [s]) (p ++ r)) as [?|?]; [by eexists|done..].
  - assert (∀ x, m1 !! x = m1 !! x → y = (if decide (p `prefix_of` x) then q ++ s :: drop (length p) x else x) → y = x ∧ ¬ p `prefix_of` x) as Hsame.
    { intros x _ ->. case_decide as Ep; [|done]. destruct E. rewrite (Happ (drop (length p) x)). by eexists. }
    unfold kinds. case_decide as Ep.
    + assert (s_move p q s m1 !! y = None) as ->; [|done]. apply eq_None_not_Some. intros [b (x & _ & [-> ?]%Hsame)%Hs]; done.
    + f_equal. apply option_eq. intros b. rewrite Hs. split.
      * intros (x & [Hx _]%Hm1 & [-> _]%Hsame); done.
      * intros Hb. exists y. rewrite decide_False by done. split; [|done]. by apply Hm1.
Qed.

(** The victim of a rename goes, and the source keeps its node. *)
Lemma remove_other_kept t Fr m p q x k : stands t Fr m → named q = true → q ≠ [] → sound (kinds m) → childless (kinds m) q → at_path Fr p x → p ≠ q → m !! p ≠ None → room t k →
  ∃ t1 Fr1 m1, remove_other t Exact (join q) (Some x) = t1 ∧ stands t1 Fr1 m1 ∧ room t1 k ∧ at_path Fr1 p x ∧ ¬ q `prefix_of` p
    ∧ ∀ y b, m1 !! y = Some b ↔ m !! y = Some b ∧ ¬ q `prefix_of` y.
Proof.
  intros Hst Hq Hne Hs Hc Hx Hpq Hp Hr. destruct (kinds_sound_closed m Hs) as [Hcl _].
  assert (¬ q `prefix_of` p) as Hqp.
  { intros [r ->]. destruct (sound_above (kinds m) q r Hs) as [_ Hn]; [unfold kinds; by destruct (m !! _)|intros ->; by rewrite app_nil_r in Hpq|done]. }
  unfold remove_other. destruct (m !! q) as [a|] eqn:Ea.
  - destruct (path_node t Fr m q a Hst Ea) as (y & Hy & _). rewrite (lookup_node_path t Fr m y q Hst Hy). rewrite bool_decide_eq_false_2 by (intros [= ->]; apply Hpq; by eapply at_path_id_inj).
    destruct (remove_sim_kept t Fr m y q Hst Hy) as (Fr1 & Hst1 & Hsame & _ & Hkeep). unfold s_remove in Hst1. rewrite Ea, bool_decide_eq_false_2 in Hst1 by done. cbn [fst] in Hst1.
    eexists _, Fr1, _. split_and!; [done|exact Hst1|by eapply same_room_room|by apply Hkeep|done|]. intros z b. unfold s_cut. by rewrite map_lookup_filter_Some.
  - rewrite (lookup_none t Fr m q Hst Hq Ea). exists t, Fr, m. split_and!; [done..|]. intros z b. split; [|by intros [? _]]. intros Hz. split; [done|]. intros Hp'. destruct (closed_above m q z Hcl Hp') as [o Ho]; [eauto|congruence].
Qed.

Lemma rename_node_kinds t Fr m p q s k : stands t Fr m → named p = true → named (q ++ [s]) = true → sound (kinds m) → p ≠ [] → kinds m p ≠ None →
  kinds m q = Some Directory → childless (kinds m) (q ++ [s]) → p ≠ q ++ [s] → ¬ p `prefix_of` q ++ [s] → zlen s < 2 ^ 30 → 0 <= k → room t (1 + k) →
  ∃ Fr' m', stands (rename_node t Exact (join p) (join (q ++ [s]))) Fr' m' ∧ room (rename_node t Exact (join p) (join (q ++ [s]))) k ∧ kinds m' ≡ n_move p (q ++ [s]) (kinds m).
Proof.
  intros Hst Hp Hqs Hs Hpn Hkp Hq Hc Hne Hnp Hlen Hk Hroom. assert (∃ a, m !! p = Some a) as [a Ha] by (unfold kinds in Hkp; destruct (m !! p); [eauto|done]).
  destruct (path_node t Fr m p a Hst Ha) as (x & Hx & _). unfold rename_node. rewrite (lookup_node_path t Fr m x p Hst Hx).
  destruct (remove_other_kept t Fr m p (q ++ [s]) x (1 + k) Hst Hqs) as (t1 & Fr1 & m1 & -> & Hst1 & Hr1 & Hx1 & Hqp & Hm1); [by destruct q|done..|congruence|done|].
  pose proof (named_ok _ Hqs) as Hok. apply Forall_app in Hok as [Hok [Hsk _]%Forall_cons]. rewrite (split_parent_join q s Hok Hsk).
  assert (∀ r, r `prefix_of` q → dir_at m1 r) as Hdirs.
  { intros r Hr. destruct (kinds_above m q Hs Hq r Hr) as (d & Hd & Hdir). exists d. split; [|done]. apply Hm1. split; [done|]. intros Hp'. assert (q ++ [s] `prefix_of` q) as Hbad%prefix_length by (by etrans). rewrite length_app in Hbad. cbn in Hbad. lia. }
  assert (named q = true ∧ valid_name s = true) as [Hnq Hvs]. { rewrite named_app in Hqs. apply andb_true_iff in Hqs as [? Hs']. split; [done|]. unfold named in Hs'. cbn in Hs'. by rewrite andb_true_r in Hs'. }
  assert (∃ y, (if bool_decide (join q = []) then (t1, Ok root) else ensure_directory_path t1 (join q)) = (t1, Ok y) ∧ at_path Fr1 q y) as (y & -> & Hy).
  { case_bool_decide as Ej.
    - assert (q = []) as -> by (destruct (decide (q = [])) as [|Hq']; [done|]; destruct (join_ends q Hq' Hnq) as [(? & ? & E & _) _]; congruence). exists root. split; [done|constructor].
    - unfold ensure_directory_path. rewrite scan_join by done. destruct (ensure_existing t1 Fr1 m1 q Hst1 Hnq [] root) as (y & -> & Hy); [constructor|done|]. by exists y. }
  destruct (rename_sim t1 Fr1 m1 x p y q s k Hst1 Hx1 Hy Hk Hr1 Hlen) as (Fr2 & Hst2 & Hr2 & Hag).
  assert (s_rename m1 p q s = (s_move p q s m1, Ok ())) as Er.
  { destruct (Hdirs q ltac:(done)) as (d & Hd & Hdir). unfold s_rename. rewrite (proj2 (Hm1 p a)) by done. rewrite Hd, (bool_decide_eq_false_2 (p = [])), Hdir, Hvs by done. cbn [negb].
    rewrite (bool_decide_eq_false_2 (p `prefix_of` q)) by (intros ?; apply Hnp; by apply prefix_app_r). rewrite (bool_decide_eq_false_2 (q ++ [s] = p)) by congruence.
    destruct (m1 !! (q ++ [s])) as [b|] eqn:Eb; [by apply Hm1 in Eb as [_ []]|done]. }
  rewrite Er in Hst2, Hag. destruct (MetadataTree.rename t1 x y s) as [t2 [u|e]]; cbn [fst snd agree] in *; [|done]. exists Fr2, (s_move p q s m1). split_and!; [done..|]. by apply move_kinds.
Qed.
End client.

(** ** Calls *)

Inductive NameOp := MkFile (q : list bytes) (mode : Z) | MkDir (q : list bytes) (mode : Z) | RmFile (q : list bytes) | RmDir (q : list bytes) | Move (p q : list bytes).

(** The specification: what a call that succeeds makes of the names. *)
Definition n_apply (T : names) (op : NameOp) : names :=
  match op with
  | MkFile q _ => n_set q (Some File) T
  | MkDir q _ => n_set q (Some Directory) T
  | RmFile q | RmDir q => n_set q None T
  | Move p q => if decide (p = q) then T else n_move p q T
  end.

Fixpoint n_run (T : names) (calls : list (NameOp * Result unit)) : names :=
  match calls with
  | [] => T
  | (op, Ok _) :: calls => n_run (n_apply T op) calls
  | (op, Err _) :: calls => n_run T calls
  end.

Section calls.
Context {F : Type} `{FileSystem F} {M : Type} `{KeyMap M}.
Context (blake3 : bytes → bytes) (transient : F → bytes → FsErr → bool) (cfg : Config) (rid : Z).
Implicit Types (v : @Serving F) (cl : Client M).

(** The kernel passes a call on when it has found the parent to be a directory. *)
Definition walkable cl (q : list bytes) : bool := bool_decide (q ≠ []) && bool_decide (mirror_kind cl (removelast q) = Some Directory).

(** The kernel creates only what it has not found, and renames only what it has. *)
Definition name_guard cl (op : NameOp) : bool :=
  match op with
  | MkFile q _ => walkable cl q && bool_decide (mirror_kind cl q = None)
  | MkDir q _ | RmFile q | RmDir q => walkable cl q
  | Move p q => walkable cl p && walkable cl q && negb (bool_decide (mirror_kind cl p = None))
  end.

Definition name_request (op : NameOp) : MsgType.t * bytes :=
  match op with
  | MkFile q mode => create_file_request (join q) mode
  | MkDir q mode => mkdir_request (join q) mode
  | RmFile q => unlink_request (join q)
  | RmDir q => rmdir_request (join q)
  | Move p q => rename_request (join p) (join q)
  end.

Definition name_use cl (op : NameOp) (r : Result Pending) : Client M * Result unit :=
  match op with
  | MkFile q _ => create_file cl (join q) r
  | MkDir q mode => mkdir cl (join q) mode r
  | RmFile q => unlink cl (join q) r
  | RmDir q => rmdir cl (join q) r
  | Move p q => rename cl (join p) (join q) r
  end.

(** A call at the agent's generation [gen]: the request, the agent's handling and
    the client's use of the reply. *)
Definition name_step v cl (gen : Z) (op : NameOp) : @Serving F * (Client M * Result unit) :=
  if name_guard cl op then let '(v, r) := ask blake3 transient cfg rid v gen (name_request op) in (v, name_use cl op r) else (v, (cl, Err NotFound)).

Fixpoint name_run v cl (calls : list (Z * NameOp)) : @Serving F * (Client M * list (Result unit)) :=
  match calls with
  | [] => (v, (cl, []))
  | (gen, op) :: calls =>
      let '(v, (cl, r)) := name_step v cl gen op in
      let '(v, (cl, rs)) := name_run v cl calls in (v, (cl, r :: rs))
  end.
End calls.

(** ** The agent's side of a call *)

(** A path a request can carry. *)
Definition name_path (q : list bytes) : Prop := named q = true ∧ zlen (join q) < 2 ^ 13.

Section agent.
Context {F : Type} `{FileSystem F}.
Context (blake3 : bytes → bytes) (transient : F → bytes → FsErr → bool) (cfg : Config) (rid : Z).
Context `{!Directories F (cfg_root cfg)}.
Implicit Types (fs : F) (T : names).

Definition ack_out (gen : Z) : Out := mkOut MsgType.Ok rid (write_mutation_ack (mkAck gen)) 0.

(** One frame back: what was asked is done and the frame is [good], or the frame
    is an error and no name has changed. *)
Definition told_back fs (T' : names) (good : Out → Prop) (r : F * (list Out * Result unit)) : Prop :=
  ∃ o, r.2 = ([o], Ok ()) ∧ ((good o ∧ entries r.1 ≡ T') ∨ (o_type o = MsgType.Error ∧ entries r.1 ≡ entries fs)).

Lemma error_back fs fs' T' good e d : zlen d < 2 ^ 13 → entries fs' ≡ entries fs → told_back fs T' good (fs', send_error (Ok ()) rid e d).
Proof.
  intros Hd He. eexists. unfold send_error. rewrite sends; [split; [done|by right]|]. cbn [o_payload]. unfold write_error. cbn [em_code em_detail].
  assert (kMaxPayload = 67108864) as Hmp by reflexivity. rewrite zlen_app, zlen_w_u32. pose proof (zlen_w_blob d). change (w_string d) with (w_blob d). lia.
Qed.

Lemma ok_back fs fs' T' gen : entries fs' ≡ T' → told_back fs T' (λ o, o = ack_out gen) (fs', send_ok (Ok ()) gen rid).
Proof. intros He. exists (ack_out gen). unfold send_ok. rewrite sends; [split; [done|by left]|]. cbn [o_payload]. unfold write_mutation_ack. rewrite zlen_w_u64. by assert (kMaxPayload = 67108864) as -> by reflexivity. Qed.

Hypothesis Hroot : root_ok (cfg_root cfg).

Lemma resolves q : named q = true → resolve_path cfg (join q) = Ok (at_ (cfg_root cfg) q) ∨ resolve_path cfg (join q) = Err InvalidPath.
Proof.
  intros Hq. unfold resolve_path. rewrite resolve_spec by done. rewrite components_named by done. destruct (forallb _ q); [left|by right].
  rewrite normalized_id; [done|]. exists q. split; [by apply named_ok|done].
Qed.

(** Trying again: a failed attempt leaves the names, and the last one counts. *)
Lemma retry_names T (P : F → Prop) target op n : (∀ fs, entries fs ≡ T → match op fs with (fs', None) => P fs' | (fs', Some _) => entries fs' ≡ T end) →
  ∀ fs, entries fs ≡ T → match share_retry transient n target op fs with (fs', None) => P fs' | (fs', Some _) => entries fs' ≡ T end.
Proof.
  intros Hop. induction n as [|n IH]; intros fs Hfs; cbn [share_retry]; specialize (Hop fs Hfs); destruct (op fs) as [fs1 [e|]]; try done.
  destruct (transient fs1 target e); [by apply IH|done].
Qed.

Lemma remove_names T (P : F → Prop) full n : (∀ fs, entries fs ≡ T → match fs_remove fs full with (fs', Ok true) => P fs' | (fs', _) => entries fs' ≡ T end) →
  ∀ fs, entries fs ≡ T → match remove_retry transient n full fs with (fs', Ok true) => P fs' | (fs', _) => entries fs' ≡ T end.
Proof.
  intros Hop. induction n as [|n IH]; intros fs Hfs; cbn [remove_retry]; specialize (Hop fs Hfs); destruct (fs_remove fs full) as [fs1 [[]|e]]; try done.
  destruct (transient fs1 full e); [by apply IH|done].
Qed.

Context (fs : F) (q : list bytes) (Hs : sound (entries fs)) (Hq : name_path q) (Hh : home (entries fs) q).

Lemma agent_creates gen : entries fs q = None → u64_ok gen →
  told_back fs (n_set q (Some File) (entries fs)) (λ o, ∃ a, o = mkOut MsgType.CreateResponse rid (write_attributes a ++ write_mutation_ack (mkAck gen)) 0 ∧ a_kind a = File ∧ attr_ok a)
    (do_create transient cfg fs (Ok ()) gen rid (join q)).
Proof.
  destruct Hq as [Hn Hl]. intros Hnone Hg. unfold do_create. destruct (resolves q Hn) as [-> | ->]; [|by apply error_back].
  pose proof (retry_names (entries fs) (λ fs', entries fs' ≡ n_set q (Some File) (entries fs) ∧ ∃ st, fs_lstat fs' (at_ (cfg_root cfg) q) = Some st ∧ rs_type st = FtRegular ∧ attr_ok (attributes_from st))
    (at_ (cfg_root cfg) q) (λ fs, fs_open fs (at_ (cfg_root cfg) q) ModeW) 8) as Hr. cbv beta in Hr. 
  unfold fopen_with_retry. specialize (λ Hop, Hr Hop fs ltac:(done)). destruct (share_retry _ _ _ _ fs) as [fs1 r]. lapply Hr; clear Hr; [intros Hr'|].
  2: { intros fs2 E. pose proof (entries_open fs2 q ltac:(by rewrite E) Hn ltac:(by rewrite E) ltac:(by rewrite (E q))) as Ho. destruct (fs_open fs2 (at_ (cfg_root cfg) q) ModeW) as [fs3 [e|]]; by rewrite E in Ho. }
  destruct r as [e|]; [by apply error_back|]. destruct Hr' as (He & st & Est & Hty & Hok).
  unfold Scanner.read_attributes. rewrite Est. exists (mkOut MsgType.CreateResponse rid (write_attributes (attributes_from st) ++ write_mutation_ack (mkAck gen)) 0).
  rewrite sends; [split; [done|left; split; [|done]]|].
  - exists (attributes_from st). split_and!; [done| |done]. unfold attributes_from. cbn [a_kind]. by rewrite Hty.
  - cbn [o_payload]. unfold write_attributes, write_mutation_ack. assert (kMaxPayload = 67108864) as -> by reflexivity. rewrite !zlen_app, zlen_w_u64. change (zlen (w_u8 _)) with 1.
    unfold w_i64. rewrite zlen_w_u64. pose proof (w_varint_length (a_mode (attributes_from st))). pose proof (w_varint_length (a_size (attributes_from st))). lia.
Qed.

Lemma agent_mkdirs gen : told_back fs (n_set q (Some Directory) (entries fs)) (λ o, o = ack_out gen ∧ entries fs q = None) (do_mkdir cfg fs (Ok ()) gen rid (join q)).
Proof.
  destruct Hq as [Hn Hl]. unfold do_mkdir. destruct (resolves q Hn) as [-> | ->]; [|by apply error_back]. pose proof (entries_mkdir fs q Hs Hn Hh) as Hm.
  destruct (fs_create_directory fs _) as [fs1 [[]|e]]; [|by apply error_back..]. destruct Hm as [Hnone He]. destruct (ok_back fs fs1 _ gen He) as (o & Ho & [Hg|Hbad]); exists o; (split; [done|]); naive_solver.
Qed.

Lemma removed_back fs1 (r : result FsErr bool) gen e1 : match r with Ok true => childless (entries fs) q ∧ entries fs1 ≡ n_set q None (entries fs) | _ => entries fs1 ≡ entries fs end →
  told_back fs (n_set q None (entries fs)) (λ o, o = ack_out gen ∧ childless (entries fs) q)
    (match r with Err e => (fs1, send_error (Ok ()) rid (map_fs_error e) (join q)) | Ok false => (fs1, send_error (Ok ()) rid e1 (join q)) | Ok true => (fs1, send_ok (Ok ()) gen rid) end).
Proof.
  destruct Hq as [Hn Hl]. destruct r as [[]|e]; [|intros; by apply error_back..]. intros [Hc He]. destruct (ok_back fs fs1 _ gen He) as (o & Ho & [Hg|Hbad]); exists o; (split; [done|]); naive_solver.
Qed.

Lemma remove_at fs1 : entries fs1 ≡ entries fs →
  match fs_remove fs1 (at_ (cfg_root cfg) q) with (fs2, Ok true) => childless (entries fs) q ∧ entries fs2 ≡ n_set q None (entries fs) | (fs2, _) => entries fs2 ≡ entries fs end.
Proof.
  destruct Hq as [Hn _]. intros E. pose proof (entries_remove fs1 q ltac:(by rewrite E) Hn ltac:(by rewrite E)) as Hr. destruct (fs_remove fs1 _) as [fs2 [[]|e]]; by rewrite E in Hr.
Qed.

Lemma agent_unlinks gen : told_back fs (n_set q None (entries fs)) (λ o, o = ack_out gen ∧ childless (entries fs) q) (do_unlink transient cfg fs (Ok ()) gen rid (join q)).
Proof.
  pose proof Hq as [Hn Hl]. unfold do_unlink. destruct (resolves q Hn) as [-> | ->]; [|by apply error_back]. destruct (fs_is_directory fs _); [by apply error_back|].
  pose proof (remove_names (entries fs) (λ fs', childless (entries fs) q ∧ entries fs' ≡ n_set q None (entries fs)) (at_ (cfg_root cfg) q) 8 remove_at fs ltac:(done)) as Hr.
  destruct (remove_retry _ _ _ fs) as [fs1 r]. pose proof (removed_back fs1 r gen NotFound) as Hb. destruct r as [[]|e]; by apply Hb.
Qed.

Lemma agent_rmdirs gen : told_back fs (n_set q None (entries fs)) (λ o, o = ack_out gen ∧ childless (entries fs) q) (do_rmdir cfg fs (Ok ()) gen rid (join q)).
Proof.
  pose proof Hq as [Hn Hl]. unfold do_rmdir. destruct (resolves q Hn) as [-> | ->]; [|by apply error_back]. destruct (negb _); [by apply error_back|].
  pose proof (remove_at fs ltac:(done)) as Hr. destruct (fs_remove fs _) as [fs1 r]. pose proof (removed_back fs1 r gen NotFound) as Hb. destruct r as [[]|e]; by apply Hb.
Qed.

(** No file has two names. *)
Definition no_hard_links : Prop := ∀ (f : F) p p', same_file f p p' = true → p = p'.

Lemma agent_renames p gen : no_hard_links → name_path p → home (entries fs) p →
  told_back fs (n_apply (entries fs) (Move p q)) (λ o, o = ack_out gen ∧ (p = q ∨ ¬ p `prefix_of` q ∧ childless (entries fs) q)) (do_rename transient cfg fs (Ok ()) gen rid (mkRenameRequest (join p) (join q))).
Proof.
  intros Hlinks [Hnp Hlp] Hhp. pose proof Hq as [Hn Hl]. unfold do_rename. cbn [nq_from nq_to]. destruct (resolves p Hnp) as [-> | ->]; [|by apply error_back]. destruct (resolves q Hn) as [-> | ->]; [|by apply error_back].
  pose proof (retry_names (entries fs) (λ fs', entries fs' ≡ n_apply (entries fs) (Move p q) ∧ (p = q ∨ ¬ p `prefix_of` q ∧ childless (entries fs) q)) (at_ (cfg_root cfg) q)
    (λ fs, fs_rename fs (at_ (cfg_root cfg) p) (at_ (cfg_root cfg) q)) 8) as Hr. specialize (λ Hop, Hr Hop fs ltac:(done)).
  unfold with_share_retry. destruct (share_retry _ _ _ _ fs) as [fs1 r]. lapply Hr; clear Hr; [intros Hr'|].
  2: { intros fs2 E. pose proof (entries_rename fs2 p q ltac:(by rewrite E) Hnp Hn ltac:(by rewrite E) ltac:(by rewrite E)) as Ho. destruct (fs_rename fs2 _ _) as [fs3 [e|]]; [by rewrite E in Ho|]. cbn [n_apply].
    destruct (same_file fs2 p q) eqn:Es; [apply Hlinks in Es as ->; rewrite decide_True by done; split; [by rewrite <- E|by left]|]. rewrite decide_False by (intros ->; by rewrite same_file_refl in Es).
    destruct Ho as (Hnp' & Hc & Ho). split; [by rewrite <- E|right]. split; [done|]. by rewrite <- E. }
  destruct r as [e|]; [by apply error_back|]. destruct Hr' as [He Hc]. destruct (ok_back fs fs1 _ gen He) as (o & Ho & [Hg|Hbad]); exists o; (split; [done|]); naive_solver.
Qed.
End agent.

(** ** A call, on both sides *)

Definition op_valid (op : NameOp) : Prop :=
  match op with
  | MkFile q mode | MkDir q mode => name_path q ∧ u32_ok mode
  | RmFile q | RmDir q => name_path q
  | Move p q => name_path p ∧ name_path q
  end.

(** What the kernel has made sure of. *)
Definition op_ready (T : names) (op : NameOp) : Prop :=
  match op with
  | MkFile q _ => home T q ∧ T q = None
  | MkDir q _ | RmFile q | RmDir q => home T q
  | Move p q => home T p ∧ home T q ∧ T p ≠ None
  end.

(** What a reply other than an error says. *)
Definition good_reply (rid gen : Z) (T : names) (op : NameOp) (o : Out) : Prop :=
  match op with
  | MkFile q _ => ∃ a, o = mkOut MsgType.CreateResponse rid (write_attributes a ++ write_mutation_ack (mkAck gen)) 0 ∧ a_kind a = File ∧ attr_ok a
  | MkDir q _ => o = ack_out rid gen ∧ T q = None
  | RmFile q | RmDir q => o = ack_out rid gen ∧ childless T q
  | Move p q => o = ack_out rid gen ∧ (p = q ∨ ¬ p `prefix_of` q ∧ childless T q)
  end.

Lemma name_path_str q : name_path q → str_ok (join q).
Proof. intros [_ Hl]. unfold str_ok, u64_ok. pose proof (zlen_nonneg (join q)). lia. Qed.

Lemma request_small op : op_valid op → zlen (name_request op).2 <= kMaxPayload.
Proof.
  assert (kMaxPayload = 67108864) as -> by reflexivity. assert (∀ q, name_path q → zlen (w_string (join q)) <= 9000) as Hs. { intros q [_ Hl]. pose proof (zlen_w_blob (join q)). change (w_string (join q)) with (w_blob (join q)). lia. }
  destruct op as [q mode|q mode|q|q|p q]; cbn [op_valid name_request create_file_request mkdir_request unlink_request rmdir_request rename_request snd].
  1,2: intros [Hq _]; unfold write_create_request, write_mkdir_request; cbn [cq_mode cq_path mq_mode mq_path]; rewrite zlen_app; specialize (Hs q Hq); pose proof (w_varint_length mode); try rewrite zlen_w_u32; lia.
  1,2: intros Hq; unfold write_path_request; cbn [pq_path]; specialize (Hs q Hq); lia.
  intros [Hp Hq]. unfold write_rename_request. cbn [nq_from nq_to]. rewrite zlen_app. pose proof (Hs p Hp). pose proof (Hs q Hq). lia.
Qed.

Section agent_call.
Context {F : Type} `{FileSystem F}.
Context (blake3 : bytes → bytes) (transient : F → bytes → FsErr → bool) (cfg : Config) (rid : Z).
Context `{!Directories F (cfg_root cfg)} (Hroot : root_ok (cfg_root cfg)) (Hlinks : no_hard_links (F := F) cfg).

Lemma decoded_enc {A} `{Codec A} (fs : F) (a : A) k : cwf a → decoded fs (dec (enc a)) k = k (con_wire a).
Proof. intros Ha. pose proof (codec_rt a [] Ha) as Hc. rewrite app_nil_r in Hc. unfold decoded. by rewrite Hc. Qed.

Lemma agent_does (fs : F) op gen : sound (entries fs) → op_valid op → op_ready (entries fs) op → u64_ok gen →
  told_back cfg fs (n_apply (entries fs) op) (good_reply rid gen (entries fs) op) (handle_mutation transient cfg fs (Ok ()) gen (name_request op).1 rid (name_request op).2).
Proof.
  intros Hs Hv Hr Hg. destruct op as [q mode|q mode|q|q|p q]; cbn [op_valid op_ready good_reply n_apply name_request create_file_request mkdir_request unlink_request rmdir_request rename_request fst snd handle_mutation] in *.
  - destruct Hv as [Hq Hm], Hr as [Hh Hn]. assert (cwf (mkCreateRequest (join q) mode)) as Hwf by (split; [done|by apply name_path_str]); pose proof (λ k, decoded_enc (A:=CreateRequest) fs (mkCreateRequest (join q) mode) k Hwf) as Hd; cbn [dec enc con_wire create_request_codec id] in Hd; rewrite Hd; clear Hd. by apply agent_creates.
  - destruct Hv as [Hq Hm]. assert (cwf (mkMkdirRequest (join q) mode)) as Hwf by (split; [done|by apply name_path_str]); pose proof (λ k, decoded_enc (A:=MkdirRequest) fs (mkMkdirRequest (join q) mode) k Hwf) as Hd; cbn [dec enc con_wire mkdir_request_codec id] in Hd; rewrite Hd; clear Hd. by apply agent_mkdirs.
  - assert (cwf (mkPathRequest (join q))) as Hwf by (by apply name_path_str); pose proof (λ k, decoded_enc (A:=PathRequest) fs (mkPathRequest (join q)) k Hwf) as Hd; cbn [dec enc con_wire path_request_codec id] in Hd; rewrite Hd; clear Hd. by apply agent_unlinks.
  - assert (cwf (mkPathRequest (join q))) as Hwf by (by apply name_path_str); pose proof (λ k, decoded_enc (A:=PathRequest) fs (mkPathRequest (join q)) k Hwf) as Hd; cbn [dec enc con_wire path_request_codec id] in Hd; rewrite Hd; clear Hd. by apply agent_rmdirs.
  - destruct Hv as [Hp Hq], Hr as (Hhp & Hhq & _). assert (cwf (mkRenameRequest (join p) (join q))) as Hwf by (split; by apply name_path_str); pose proof (λ k, decoded_enc (A:=RenameRequest) fs (mkRenameRequest (join p) (join q)) k Hwf) as Hd; cbn [dec enc con_wire rename_request_codec id] in Hd; rewrite Hd; clear Hd. by apply agent_renames.
Qed.

Lemma handled (s : Session) (fs : F) op gen : authed s = true →
  handle blake3 transient cfg s fs [] None gen (mkHeader (name_request op).1 0 (zlen (name_request op).2) rid) (name_request op).2
  = let '(fs', r) := handle_mutation transient cfg fs (Ok ()) gen (name_request op).1 rid (name_request op).2 in (s, fs', r).
Proof. intros Ha. unfold handle. cbn [h_type h_request_id head default from_option]. rewrite Ha. cbn [negb]. rewrite andb_false_r. by destruct op. Qed.
End agent_call.

(** ** Level

    The two sides agree on every name the tree can represent. *)
Definition level (T T' : names) : Prop := ∀ x, named x = true → T x = T' x.

Lemma level_set T T' q k : level T T' → level (n_set q k T) (n_set q k T').
Proof. intros Hl x Hx. unfold n_set. by rewrite (Hl x Hx). Qed.

Lemma level_move T T' p q : named p = true → level T T' → level (n_move p q T) (n_move p q T').
Proof.
  intros Hp Hl x Hx. unfold n_move. case_decide as E; [|by rewrite (Hl x Hx)]. destruct E as [r ->]. rewrite drop_app_length. apply Hl.
  rewrite named_app in *. apply andb_true_iff in Hx as [_ Hr]. by rewrite Hp, Hr.
Qed.

Lemma level_apply T T' op : op_valid op → level T T' → level (n_apply T op) (n_apply T' op).
Proof.
  intros Hv Hl. destruct op as [q mode|q mode|q|q|p q]; cbn [n_apply]; try by apply level_set. case_decide; [done|]. apply level_move; [|done]. by destruct Hv as [[? _] _].
Qed.

Definition op_cost (op : NameOp) : Z := match op with MkFile q _ | MkDir q _ => zlen q | RmFile _ | RmDir _ => 0 | Move _ _ => 1 end.

Section takes.
Context {M : Type} `{KeyMap M}.
Implicit Types (cl : Client M) (m : pathmap).

Lemma kinds_named (t : MetadataTree M) Fr m x : stands t Fr m → kinds m x ≠ None → named x = true.
Proof.
  intros (HF & _ & Hm) Hx. unfold kinds in Hx. destruct (m !! x) as [a|] eqn:Ea; [|done]. destruct (shows_some Fr m x a Hm Ea) as (id & g & Hid & _).
  pose proof (at_path_names Fr x id HF Hid) as Hn. unfold named. apply forallb_forall. intros c Hc%list_elem_of_In. rewrite Forall_forall in Hn. by apply Hn.
Qed.

Section sides.
Context (t : MetadataTree M) (Fr : forest) (m : pathmap) (T : names) (Hst : stands t Fr m) (Hl : level T (kinds m)) (Hs : sound T).

Lemma level_sound : sound (kinds m).
Proof.
  split; [by rewrite <- Hl by done; apply Hs|]. intros q s Hx. pose proof (kinds_named t Fr m _ Hst Hx) as Hn. rewrite <- (Hl q) by by eapply named_parent. eapply (proj2 Hs q s). by rewrite (Hl _ Hn).
Qed.

Lemma level_childless q : childless T q → childless (kinds m) q.
Proof. intros Hc s. destruct (kinds m (q ++ [s])) eqn:E; [|done]. rewrite <- (Hc s), <- E. symmetry. apply Hl. eapply kinds_named; [exact Hst|]. by rewrite E. Qed.

Lemma level_home q s : named (q ++ [s]) = true → home T (q ++ [s]) → kinds m q = Some Directory.
Proof. intros Hn Hh%home_snoc. rewrite <- Hl; [done|]. by eapply named_parent. Qed.
End sides.

Lemma short_of q : zlen (join q) < 2 ^ 13 → short_names q.
Proof.
  intros Hq. apply Forall_forall. intros c Hc. apply list_elem_of_split in Hc as (a & b & ->). revert Hq. induction a as [|x a IH]; cbn [app join].
  - destruct b; [lia|]. rewrite zlen_app, zlen_cons. pose proof (zlen_nonneg (join (l :: b))). lia.
  - destruct (a ++ c :: b) eqn:E; [by destruct a|]. rewrite zlen_app, zlen_cons. intros Hq. apply IH. pose proof (zlen_nonneg x). lia.
Qed.

Lemma decode_created a gen : attr_ok a → u64_ok gen →
  decode_reply MsgType.CreateResponse (attr ← Messages.read_attributes; gen ← take_ack; mret (attr, gen)) (Ok (finish (pending_new false) MsgType.CreateResponse (write_attributes a ++ write_mutation_ack (mkAck gen)))) = Ok (a, gen).
Proof.
  intros Ha Hg. unfold decode_reply, expect. cbn [finish p_type p_payload]. rewrite bool_decide_eq_true_2 by done. cbn [finish p_payload]. unfold take_ack.
  pose proof (codec_rt (A:=Attributes) a (write_mutation_ack (mkAck gen)) Ha) as Hc. cbn [enc dec con_wire attributes_codec id] in Hc.
  pose proof (codec_rt (A:=MutationAck) (mkAck gen) [] Hg) as Hc2. rewrite app_nil_r in Hc2. cbn [enc dec con_wire mutation_ack_codec id] in Hc2. unfold mbind, reader_bind. rewrite Hc. by rewrite Hc2.
Qed.
Lemma result_of t pl : t ≠ MsgType.Error → t ≠ MsgType.Ping → request_result (finish (pending_new false) t pl) = Ok (finish (pending_new false) t pl).
Proof. intros H1' H2'. unfold request_result. cbn [finish p_type p_payload]. by rewrite (bool_decide_eq_false_2 (t = _)), (bool_decide_eq_false_2 (t = _)), andb_false_r. Qed.

Lemma normal_named q : named q = true → normalize_path (join q) = join q.
Proof. intros Hq. apply normalized_id. exists q. split; [by apply named_ok|done]. Qed.

(** What the client makes of a good reply. *)
Definition takes cl (k : Z) (T : names) (r : Client M * Result unit) : Prop :=
  ∃ Fr m, r.2 = Ok () ∧ lookup_mode_ r.1 = Exact ∧ stands (tree_ r.1) Fr m ∧ room (tree_ r.1) k ∧ level T (kinds m).

Section one.
Context (cl : Client M) (Fr : forest) (m : pathmap) (T : names) (k rid gen : Z).
Context (Hmode : lookup_mode_ cl = Exact) (Hst : stands (tree_ cl) Fr m) (Hl : level T (kinds m)) (Hs : sound T) (Hk : 0 <= k) (Hg : u64_ok gen).

Lemma takes_new q a (cl' : Client M) : name_path q → home T q → T q = None → room (tree_ cl) (zlen q + k) → lookup_mode_ cl' = Exact → tree_ cl' = (upsert_path (tree_ cl) (join q) a).1 →
  takes cl k (n_set q (Some (a_kind a)) T) (cl', Ok ()).
Proof.
  intros [Hn Hlen] Hh Hnone Hroom Hm' Ht'. pose proof (upsert_path_sim (tree_ cl) Fr m (join q) a k Hst Hk) as Hu. rewrite (components_named q Hn) in Hu. specialize (Hu Hroom (short_of q Hlen)) as (Fr' & Hst' & Hr' & _).
  exists Fr', (s_upsert_path m (join q) a).1. cbn [fst snd]. rewrite Ht'. split_and!; [done..|]. pose proof (level_sound _ _ _ _ Hst Hl Hs) as Hsm. pose proof Hh as (b & s & -> & _)%home_split.
  intros x Hx. rewrite (upsert_kinds m b s a Hn Hsm (level_home _ _ Hl b s Hn Hh) ltac:(by rewrite <- Hl) x). by apply level_set.
Qed.

Lemma takes_gone q (cl' : Client M) : name_path q → q ≠ [] → childless T q → room (tree_ cl) k → lookup_mode_ cl' = Exact → tree_ cl' = (remove_path (tree_ cl) (join q) Exact).1 →
  takes cl k (n_set q None T) (cl', Ok ()).
Proof.
  intros [Hn Hlen] Hne Hc Hroom Hm' Ht'. destruct (remove_path_sim (tree_ cl) Fr m (join q) Hst) as (Fr' & Hst' & Hsame & _).
  exists Fr', (s_remove_path m (join q)).1. cbn [fst snd]. rewrite Ht'. split_and!; [done|done|done|by eapply same_room_room|]. pose proof (level_sound _ _ _ _ Hst Hl Hs) as Hsm.
  intros x Hx. rewrite (remove_kinds m q Hn Hne Hsm (level_childless _ _ _ _ Hst Hl q Hc) x). by apply level_set.
Qed.


Lemma takes_moved p q (cl' : Client M) : name_path p → name_path q → home T p → home T q → T p ≠ None → p ≠ q → ¬ p `prefix_of` q → childless T q → room (tree_ cl) (1 + k) →
  lookup_mode_ cl' = Exact → tree_ cl' = rename_node (tree_ cl) Exact (join p) (join q) → takes cl' k (n_move p q T) (cl', Ok ()).
Proof.
  intros [Hnp _] [Hnq Hlq] [Hpe Hhp] Hhq Hpn Hne Hpre Hc Hroom Hm' Ht'. pose proof (level_sound _ _ _ _ Hst Hl Hs) as Hsm. pose proof Hhq as (b & s & -> & _)%home_split.
  assert (zlen s < 2 ^ 30) as Hsz. { pose proof (short_of _ Hlq) as Hsh. by apply Forall_app in Hsh as [_ [? _]%Forall_cons]. }
  destruct (rename_node_kinds (tree_ cl) Fr m p b s k Hst Hnp Hnq Hsm Hpe ltac:(by rewrite <- Hl) (level_home _ _ Hl b s Hnq Hhq) (level_childless _ _ _ _ Hst Hl _ Hc) Hne Hpre Hsz Hk Hroom) as (Fr' & m' & Hst' & Hr' & Hm2).
  exists Fr', m'. cbn [fst snd]. rewrite Ht'. split_and!; [done..|]. intros x Hx. rewrite (Hm2 x). by apply level_move.
Qed.

Lemma client_takes op o : room (tree_ cl) (op_cost op + k) → op_valid op → op_ready T op → good_reply rid gen T op o →
  takes cl k (n_apply T op) (name_use cl op (request_result (finish (pending_new false) (o_type o) (o_payload o)))).
Proof.
  intros Hroom Hv Hr Ho. destruct op as [q mode|q mode|q|q|p q]; cbn [op_valid op_ready good_reply n_apply op_cost name_use] in *.
  - destruct Ho as (a & -> & Ha & Hok), Hv as [Hq _], Hr as [Hh Hnone]. cbn [o_type o_payload]. rewrite result_of by done. unfold create_file. rewrite decode_created by done. rewrite <- Ha. by apply (takes_new q a).
  - destruct Ho as [-> Hnone], Hv as [Hq _]. cbn [ack_out o_type o_payload]. rewrite result_of by done. unfold mkdir. rewrite decode_ack by done. by apply (takes_new q (mkAttr 0 0 mode Directory)).
  - destruct Ho as [-> Hc]. cbn [ack_out o_type o_payload]. rewrite result_of by done. unfold unlink. rewrite decode_ack by done. apply takes_gone; try done; [by destruct Hr|cbn; by rewrite Hmode].
  - destruct Ho as [-> Hc]. cbn [ack_out o_type o_payload]. rewrite result_of by done. unfold rmdir. rewrite decode_ack by done. apply takes_gone; try done; [by destruct Hr|cbn; by rewrite Hmode].
  - destruct Ho as [-> Hc], Hv as [Hp Hq], Hr as (Hhp & Hhq & Hpn). cbn [ack_out o_type o_payload]. rewrite result_of by done. unfold rename. rewrite decode_ack by done.
    rewrite (normal_named p (proj1 Hp)), (normal_named q (proj1 Hq)). case_bool_decide as E.
    + assert (p = q) as -> by (destruct Hp as [Hp _], Hq as [Hq _]; rewrite <- (components_named p), <- (components_named q), E by done; done). rewrite decide_True by done. exists Fr, m. cbn. split_and!; try done. eapply room_le; [done|lia].
    + rewrite decide_False by (intros ->; done). destruct Hc as [->|[Hpre Hc]]; [done|]. cbv zeta. set (cl1 := with_cache _ cl). set (cl2 := match _ with Some _ => _ | None => _ end).
      assert (tree_ cl2 = tree_ cl ∧ lookup_mode_ cl2 = Exact) as [Et Em] by (unfold cl2; repeat case_match; done).
      eapply takes_moved; try done; [intros ->; done|]. cbn. by rewrite Et, Em.
Qed.
End one.
End takes.

(** ** Any number of calls *)

Lemma sound_childless T q : sound T → T q ≠ Some Directory → childless T q.
Proof. intros [_ HT] Hq s. destruct (T (q ++ [s])) eqn:E; [|done]. destruct Hq. apply (HT q s). by rewrite E. Qed.

Lemma sound_apply T op rid gen o : sound T → op_ready T op → good_reply rid gen T op o → sound (n_apply T op).
Proof.
  intros Hs Hr Ho. destruct op as [q mode|q mode|q|q|p q]; cbn [op_ready good_reply n_apply] in *.
  - destruct Hr as [Hh Hn]. apply sound_set; [done..|right]. apply sound_childless; [done|by rewrite Hn].
  - by apply sound_set; [..|left].
  - apply sound_set; [done..|right; by destruct Ho].
  - apply sound_set; [done..|right; by destruct Ho].
  - case_decide as E; [done|]. destruct Hr as (Hhp & Hhq & Hp), Ho as [_ [?|[Hpre Hc]]]; [done|]. apply sound_move; [done..|]. intros [r ->].
    destruct (sound_above T q r Hs Hp) as [_ Hnc]; [intros ->; by rewrite app_nil_r in E|done].
Qed.

#[global] Instance n_apply_proper : Proper ((≡) ==> (=) ==> (≡)) n_apply.
Proof. intros T T' E op _ <-. destruct op; cbn [n_apply]; try by rewrite E. by case_decide; rewrite E. Qed.

Section run.
Context {F : Type} `{FileSystem F} {M : Type} `{KeyMap M}.
Context (blake3 : bytes → bytes) (transient : F → bytes → FsErr → bool) (cfg : Config) (rid : Z).
Context `{!Directories F (cfg_root cfg)}.
Implicit Types (v : @Serving F) (cl : Client M).

(** The session serves, the mount resolves names exactly, and the mirror shows the
    names of the disk, [T]; the tree has room for [k] more nodes. *)
Record abreast v cl (k : Z) (T : names) : Prop := {
  ab_ok : serving_ok v;
  ab_mode : lookup_mode_ cl = Exact;
  ab_disk : entries (sv_fs v) ≡ T;
  ab_sound : sound T;
  ab_mirror : ∃ Fr m, stands (tree_ cl) Fr m ∧ room (tree_ cl) k ∧ level T (kinds m)
}.

Lemma abreast_kind v cl k T q : abreast v cl k T → named q = true → mirror_kind cl q = T q.
Proof. intros [_ _ _ _ (Fr & m & Hst & _ & Hl)] Hq. rewrite (mirror_kinds cl Fr m q Hst Hq). by rewrite Hl. Qed.

Lemma walkable_home v cl k T q : abreast v cl k T → named q = true → walkable cl q = true → home T q.
Proof.
  intros Ha Hq [Hne%bool_decide_eq_true Hw%bool_decide_eq_true]%andb_true_iff. split; [done|]. rewrite <- (abreast_kind v cl k T _ Ha); [done|].
  destruct q as [|s q _] using rev_ind; [done|]. rewrite removelast_last. by eapply named_parent.
Qed.

Lemma guard_ready v cl k T op : abreast v cl k T → op_valid op → name_guard cl op = true → op_ready T op.
Proof.
  intros Ha Hv Hg. pose proof (λ q, walkable_home v cl k T q Ha) as Hw. pose proof (λ q, abreast_kind v cl k T q Ha) as Hk.
  destruct op as [q mode|q mode|q|q|p q]; cbn [op_valid name_guard op_ready] in *.
  - destruct Hv as [[Hq _] _]. apply andb_true_iff in Hg as [Hg Hn%bool_decide_eq_true]. split; [by apply Hw|]. by rewrite <- Hk.
  - destruct Hv as [[Hq _] _]. by apply Hw.
  - destruct Hv as [Hq _]. by apply Hw.
  - destruct Hv as [Hq _]. by apply Hw.
  - destruct Hv as [[Hp _] [Hq _]]. apply andb_true_iff in Hg as [[Hgp Hgq]%andb_true_iff Hn%negb_true_iff%bool_decide_eq_false]. split_and!; [by apply Hw..|]. by rewrite <- Hk.
Qed.

Hypothesis Hroot : root_ok (cfg_root cfg).
Hypothesis Hlinks : no_hard_links (F := F) cfg.

Lemma name_step_abreast v cl k T gen op : abreast v cl (op_cost op + k) T → 0 <= k → op_valid op → u64_ok gen →
  let '(v', (cl', r)) := name_step blake3 transient cfg rid v cl gen op in abreast v' cl' k (match r with Ok _ => n_apply T op | Err _ => T end).
Proof.
  intros Ha Hk Hv Hg. pose proof Ha as [A1 A2 A3 A4 (Fr & m & Hst & Hroom & Hl)]. assert (0 <= op_cost op) as Hc by (destruct op; cbn; try apply zlen_nonneg; lia).
  assert (∀ v', serving_ok v' → entries (sv_fs v') ≡ T → abreast v' cl k T) as Hstay. { intros v' Hok He. split; [done..|]. exists Fr, m. split_and!; [done| |done]. eapply room_le; [done|lia]. }
  unfold name_step. destruct (name_guard cl op) eqn:Eg; [|by apply Hstay]. pose proof (guard_ready v cl _ T op Ha Hv Eg) as Hr.
  assert (op_ready (entries (sv_fs v)) op) as Hr'. { clear -A3 Hr. destruct op; cbn [op_ready] in *; rewrite ?A3, ?(A3 q), ?(A3 p); done. }
  pose proof (agent_does transient cfg rid Hroot Hlinks (sv_fs v) op gen ltac:(by rewrite A3) Hv Hr' Hg) as (o & Eo & Hout). pose proof (handled blake3 transient cfg rid (sv_session v) (sv_fs v) op gen (so_authed _ A1)) as Hh.
  destruct (handle_mutation _ _ _ _ _ _ _ _) as [fs' r]. cbn [fst snd] in *. subst r.
  destruct (ask_replied blake3 transient cfg rid v gen (name_request op) fs' o A1 (request_small op Hv) Hh) as (v' & -> & Hok' & <-). destruct Hout as [[Hgood He]|[Herr He]].
  - assert (good_reply rid gen T op o) as Hgood'. { clear -A3 Hgood. destruct op; cbn [good_reply] in *; rewrite ?A3, ?(A3 q) in Hgood; done. }
    destruct (client_takes cl Fr m T k rid gen A2 Hst Hl A4 Hk Hg op o Hroom Hv Hr Hgood') as (Fr' & m' & Hres & Hm' & Hst' & Hr2 & Hl'). destruct (name_use cl op _) as [cl' r]. cbn [fst snd] in *. subst r.
    split; [done..| |by eapply sound_apply|by exists Fr', m']. by rewrite He, A3.
  - assert (∃ e, request_result (finish (pending_new false) (o_type o) (o_payload o)) = Err e) as (e & ->).
    { unfold request_result. cbn [finish p_type p_payload]. rewrite bool_decide_eq_true_2 by done. repeat case_match; eauto. }
    assert (name_use cl op (Err e) = (cl, Err e)) as -> by by destruct op. apply Hstay; [done|]. by rewrite He, A3.
Qed.

Definition calls_cost (calls : list (Z * NameOp)) : Z := sumZ (λ c, op_cost c.2) calls.

End run.

(** ** A directory made, filled and moved *)

(** Whether a map lists the files of a disk, and what such a map shows. *)
Definition names_match (root : bytes) (fs : MemFs) (m : pathmap) : bool :=
  forallb (λ kn : bytes * MemNode, existsb (λ qa : list bytes * Attributes, named qa.1 && bool_decide (key root qa.1 = kn.1)) (map_to_list m)) (map_to_list fs)
  && forallb (λ qa : list bytes * Attributes, named qa.1 && bool_decide (mem_kind <$> fs !! key root qa.1 = Some (a_kind qa.2))) (map_to_list m).

Lemma names_match_kinds root fs m : names_match root fs m = true → mem_entries root fs ≡ kinds m.
Proof.
  unfold names_match. rewrite andb_true_iff, !forallb_forall. intros [Hd Hm] q. unfold mem_entries, kinds.
  assert (∀ q a, m !! q = Some a → named q = true ∧ mem_kind <$> fs !! key root q = Some (a_kind a)) as Hin.
  { intros q' a Ha. specialize (Hm (q', a) ltac:(by apply list_elem_of_In, elem_of_map_to_list)) as [Hn Hk%bool_decide_eq_true]%andb_true_iff. done. }
  destruct (m !! q) as [a|] eqn:Ea; [by destruct (Hin q a Ea) as [-> ->]|]. destruct (named q) eqn:Hq; [|done]. destruct (fs !! key root q) as [n|] eqn:En; [|done].
  specialize (Hd (key root q, n) ltac:(by apply list_elem_of_In, elem_of_map_to_list)). apply existsb_exists in Hd as ([q' a] & Hq'%list_elem_of_In%elem_of_map_to_list & [Hn Ek%bool_decide_eq_true]%andb_true_iff). cbn [fst] in *.
  apply disk_key_inj in Ek; [congruence|done..].
Qed.

Lemma stands_sound {M} `{KeyMap M} (t : MetadataTree M) Fr m : stands t Fr m → kinds m [] = Some Directory → sound (kinds m).
Proof.
  intros Hst Hroot. split; [done|]. intros q s Hx. pose proof Hst as (HF & _ & Hm). unfold kinds in *. destruct (m !! (q ++ [s])) as [a|] eqn:Ea; [|done].
  destruct (shows_some Fr m _ a Hm Ea) as (x & g & Hat & Hg & _). inversion Hat as [E|q' c h Hq Hh Hn E]; [by destruct q|]. apply app_inj_tail in E as [-> _]. destruct (fo_home _ _ HF _ _ Hh Hn) as (gp & Hgp & Hdir).
  rewrite (shows_at Fr m q _ gp Hm Hq Hgp). cbn. unfold g_isdir, is_dir_kind in Hdir. by destruct (a_kind (g_attr gp)).
Qed.

Definition name_ops : list TreeOp := [OpUpsertPath (str "src/a.txt") (mkAttr 4 100 420 File); OpUpsertPath (str "src/b.txt") (mkAttr 7 200 420 File)].
Definition name_client : Client U64Map := with_tree (run tree_new name_ops).1 (client_new Exact).
Definition name_calls : list (Z * NameOp) :=
  [(1, MkDir [str "lib"] 493); (2, MkFile [str "lib"; str "c.h"] 420); (3, RmDir [str "src"]); (4, Move [str "src"] [str "lib"; str "src"]);
   (5, RmFile [str "lib"; str "src"; str "a.txt"]); (6, MkFile [str "src"; str "x"] 420); (7, Move [str "lib"; str "c.h"] [str "lib"; str "src"; str "b.txt"])].

#[global] Instance demo_directories : Directories MemFs (cfg_root warm_agent) := mem_directories (str "/r") ltac:(split; discriminate).

Lemma demo_abreast : abreast warm_agent demo_serving name_client (calls_cost name_calls) (mem_entries (str "/r") warm_disk).
Proof.
  assert (names_match (str "/r") warm_disk (s_run s_new name_ops).1 = true) as Hmatch%names_match_kinds by (vm_compute; reflexivity).
  destruct (run_sim (M := U64Map) name_ops tree_new f_root s_new (calls_cost name_calls) new_stands) as (Fr & Hst & Hroom & _); [vm_compute; discriminate|split; vm_compute; [discriminate|reflexivity]|vm_compute; reflexivity|repeat constructor; vm_compute; reflexivity|].
  split; [by split|done|done| |].
  - rewrite Hmatch. eapply stands_sound; [exact Hst|]. vm_compute. reflexivity.
  - exists Fr, (s_run s_new name_ops).1. split_and!; [exact Hst|exact Hroom|]. intros q _. apply Hmatch.
Qed.


(** ** Two names of one file

    The premise about hard links is needed.  [rename] of one name of a file to
    another of its names succeeds and does nothing; the client takes the success to
    mean that the source is gone, and no event will tell it otherwise. *)
Record Linked := mkLinked { lk_fs : MemFs; lk_pair : bytes * bytes }.

Definition on_fs {A} (f : MemFs → MemFs * A) (l : Linked) : Linked * A := let '(m, r) := f (lk_fs l) in (mkLinked m (lk_pair l), r).

#[global] Instance linked_fs : FileSystem Linked := {|
  fs_lstat l := fs_lstat (lk_fs l);
  fs_is_directory l := fs_is_directory (lk_fs l);
  fs_list l := fs_list (lk_fs l);
  fs_device l := fs_device (lk_fs l);
  fs_file_size l := fs_file_size (lk_fs l);
  fs_read_symlink l := fs_read_symlink (lk_fs l);
  fs_open l p mode := on_fs (λ m, fs_open m p mode) l;
  fs_seek l := fs_seek (lk_fs l);
  fs_fread l := fs_fread (lk_fs l);
  fs_fwrite l p off data := on_fs (λ m, fs_fwrite m p off data) l;
  fs_resize l p n := on_fs (λ m, fs_resize m p n) l;
  fs_create_directory l p := on_fs (λ m, fs_create_directory m p) l;
  fs_remove l p := on_fs (λ m, fs_remove m p) l;
  fs_rename l p q := if bool_decide (lk_pair l = (p, q)) then (l, None) else on_fs (λ m, fs_rename m p q) l
|}.

Example hard_link_rename_hides :
  let disk := mkLinked warm_disk (str "/r/src/a.txt", str "/r/src/b.txt") in
  let v := mkServing (mkSession true no_handshake) true kMaxPayload true disk [] in
  let '(v', (cl', r)) := name_step (λ _, []) (λ _ _ _, false) warm_agent 9 v name_client 1 (Move [str "src"; str "a.txt"] [str "src"; str "b.txt"]) in
  r = Ok () ∧ sv_fs v' = disk ∧ mirror_kind name_client [str "src"; str "a.txt"] = Some File ∧ mirror_kind cl' [str "src"; str "a.txt"] = None.
Proof. vm_compute. split_and!; reflexivity. Qed.
