(* ===== verification/Told.v ===== *)
(** * From the watcher's events to the mirror

    [Catchup] assumes of the planned operations that they tell of the changes
    ([reported]).  Here the same is assumed of the events a watcher delivered
    since the last batch ([told]), and the coalescer in between is the code's:
    every event is pushed, then [take] plans the batch.  Round after round the
    flusher's frames then keep a mirror equal to the disk. *)

From S2P Require Import Prelude Types KeyMap HashUtil FlatMap Wire Messages Path Unicode StringPool MetadataTree Forest TreeIndex TreeLinks TreeInv TreeSpec TreeRefine TreeProps.
From S2P Require Import Ignore ReadCache FileSystem Resolve Scanner ScanProps Server Broadcast Peers Requests Client ClientProps Mirror Converge Catchup Coalescer.

(** ** Ignored paths *)

Lemma any_match_dir name dir ss : any_match name dir ss false = true → any_match name dir ss true = true.
Proof.
  induction ss as [|s ss IH]; [done|]. cbn [any_match]. rewrite !orb_true_iff. intros [Hm|?]; [left|right; by apply IH].
  apply andb_true_iff in Hm as [-> _]. by rewrite !orb_true_r.
Qed.

Lemma ignored_dir rules p : ignored rules p false = true → ignored rules p true = true.
Proof.
  unfold ignored. destruct (_ || _); [done|]. case_bool_decide; [done|]. rewrite !existsb_exists. intros (pat & Hin & Hp). exists pat. split; [done|].
  unfold pattern_ignores in *. destruct (anchored pat).
  - destruct (_ <? _)%nat; [done|]. destruct (negb _); [done|]. by rewrite !orb_true_r.
  - destruct (last (segs pat)); [by apply any_match_dir|done].
Qed.

Lemma split_cons c s : c ≠ c_sep → split (c :: s) ≠ [].
Proof.
  intros Hc. unfold split. cbn [pieces]. rewrite (proj2 (Z.eqb_neq _ _) Hc). destruct (pieces c_sep s) as [|x l]; rewrite filter_cons_True by done; done.
Qed.

Lemma join_head q : q ≠ [] → named q = true → ∃ c s, join q = c :: s ∧ c ≠ c_sep.
Proof. intros Hq Hn. exact (proj1 (join_ends q Hq Hn)). Qed.

Lemma is_ignored_below cfg p r : named (p ++ r) = true → p ≠ [] → r ≠ [] → is_ignored cfg (join p) = true → is_ignored cfg (join (p ++ r)) = true.
Proof.
  intros Hn Hp Hr. unfold is_ignored. case_bool_decide; [done|]. cbn [negb andb]. intros Hi. rewrite join_app by done. apply orb_true_iff. left.
  assert (split (join r) ≠ []) as Hs.
  { rewrite named_app in Hn. apply andb_true_iff in Hn as [_ Hn]. destruct (join_head r Hr Hn) as (c & s & -> & Hc). by apply split_cons. }
  apply (ignored_subtree (cfg_ignore cfg) (join p) (join r) false Hs). apply orb_true_iff in Hi as [Hi|Hi]; [by apply ignored_dir|done].
Qed.

Section told.
Context {F : Type} `{FileSystem F} (cfg : Config) (fs : F).
Context (E : list (list bytes)) (D : pathmap) (Hsd : steady cfg fs E D).
Abbreviation seen := (watched cfg fs).
Abbreviation opened := (walked fs (cfg_root cfg) (cfg_skip cfg) (cfg_device cfg fs)).

Definition goes (k : FsEventKind) : bool := match k with EvRemoved | EvRenamedFrom => true | _ => false end.
Definition of_path (evs : list FsEvent) (q : list bytes) : list FsEvent := filter (on_path (join q)) evs.

(** What the watcher is assumed to have told since [m0], the map of the mirror.
    The events name paths it can see, none of them a socket, a pipe or a device;
    a removal that is the last word on a path is true; a directory whose last
    word, modifications aside, is that it appeared is no mount point; a path that
    changed is named by an event that is not filtered out, or is below one that
    is named and no directory now, or, where it is on the disk now, below one that
    appeared; and where a file became a directory, the last event on it precedes
    the last one on what is inside. *)
Record told (evs : list FsEvent) (m0 : pathmap) : Prop := {
  td_paths : ∀ e, e ∈ evs → ∃ q, seen q ∧ ev_path e = join q;
  td_solid : ∀ e q st, e ∈ evs → ev_path e = join q → named q = true → fs_lstat fs (full (cfg_root cfg) q) = Some st → a_kind (attributes_from st) ≠ Other;
  td_gone : ∀ q e, named q = true → last (of_path evs q) = Some e → goes (ev_kind e) = true → D !! q = None;
  td_appeared : ∀ q e a, named q = true → last_shape (of_path evs q) = Some e → appears (ev_kind e) = true → D !! q = Some a → s_dir a = true → opened q;
  td_changes : ∀ q, m0 !! q ≠ D !! q → ∃ p, named p = true ∧ is_ignored cfg (join p) = false ∧ of_path evs p ≠ []
    ∧ (p = q ∨ above p q ∧ ¬ dir_at D p
       ∨ above p q ∧ is_Some (D !! q) ∧ ∃ e, last_shape (of_path evs p) = Some e ∧ appears (ev_kind e) = true);
  td_order : ∀ r p, named r = true → of_path evs r ≠ [] → above p r → dir_at D p →
    no_file_at m0 p ∨ is_ignored cfg (join p) = false ∧ 0 < last_pos evs (join p) < last_pos evs (join r)
}.

(** What the coalescer holds between two batches: nothing. *)
Definition idle (c : Coalescer) : Prop := pending_ c = ∅ ∧ overflow_ c = false ∧ 0 <= seq_ c.

Context (c0 : Coalescer) (stamped : list (FsEvent * Z)) (m0 : pathmap).
Hypothesis Hidle : idle c0.
Hypothesis no_overflow : Forall (λ ev, ev_kind ev.1 ≠ EvOverflow) stamped.
Hypothesis few : seq_ c0 + zlen stamped < 2 ^ 64.
Hypothesis Htold : told stamped.*1 m0.
Abbreviation evs := (stamped.*1).
Let c := push_all c0 stamped.
Let planned := (take_batch c).2.

Lemma of_path_elem q e : e ∈ of_path evs q ↔ e ∈ evs ∧ ev_path e = join q.
Proof. unfold of_path. rewrite list_elem_of_filter. unfold on_path. tauto. Qed.

Lemma named_path q : of_path evs q ≠ [] → named q = true → q ≠ [] ∧ seen q.
Proof.
  intros Hne Hn. destruct (of_path evs q) as [|e es] eqn:Ee; [done|]. assert (e ∈ of_path evs q) as [He Hp]%of_path_elem by (rewrite Ee; left).
  destruct (td_paths _ _ Htold e He) as (x & Hx & Ex). assert (x = q) as <-; [|split; [|done]; destruct Hx as (_ & p & s & -> & _); by destruct p].
  rewrite <- (components_named x), <- (components_named q) by (done || apply Hx). congruence.
Qed.

(** The operations planned, by the events on their paths. *)
Lemma planned_events op : op ∈ planned → ∃ q l, named q = true ∧ po_path op = join q ∧ last (of_path evs q) = Some l ∧ po_kind op = kind_of (ev_kind l)
  ∧ po_appeared op = match last_shape (of_path evs q) with Some x => appears (ev_kind x) | None => false end
  ∧ seq_at c (po_path op) = seq_ c0 + last_pos evs (join q).
Proof.
  destruct Hidle as (I1 & I2 & I3). destruct (push_all_from c0 stamped I1 I2 I3 no_overflow few) as (Hov & _ & Hp). fold c in Hov, Hp. intros Hop.
  destruct (take_nothing_lost c Hov) as (_ & _ & _ & T4 & _). destruct (T4 op Hop) as (e & Hpe & Hk & Ha). specialize (Hp (po_path op)). rewrite Hpe in Hp. destruct Hp as [(l & Hl & Ek & Eap & _) Hseq].
  assert (l ∈ filter (on_path (po_path op)) evs) as [Hpath Hin]%list_elem_of_filter by (apply last_Some in Hl as [l' ->]; apply elem_of_app; right; by apply list_elem_of_singleton).
  destruct (td_paths _ _ Htold l Hin) as (q & Hq & Eq). unfold on_path in Hpath. assert (po_path op = join q) as Epq by congruence. exists q, l. rewrite Epq in *. unfold of_path, seq_at. rewrite Hpe.
  split_and!; [apply Hq|done|done|congruence|congruence|done].
Qed.

(** A path with an event has an operation, or one above it was removed last. *)
Lemma planned_or_gone q : named q = true → of_path evs q ≠ [] →
  (∃ op, op ∈ planned ∧ po_path op = join q) ∨ ∃ op p, op ∈ planned ∧ po_path op = join p ∧ p ≠ [] ∧ named p = true ∧ p `prefix_of` q ∧ D !! p = None.
Proof.
  intros Hn Hne. destruct Hidle as (I1 & I2 & I3). destruct (push_all_from c0 stamped I1 I2 I3 no_overflow few) as (Hov & _ & Hp). fold c in Hov, Hp. specialize (Hp (join q)).
  destruct (pending_ c !! join q) as [e|] eqn:Ee; [|done]. destruct (take_nothing_lost c Hov) as (_ & _ & _ & _ & T5).
  destruct (T5 _ _ Ee) as [(op & Ep & Hop)%list_elem_of_fmap|(op & Hop & Hk & Hu & _)]; [left; by exists op|right].
  destruct (planned_events op Hop) as (p & l & Hnp & Epp & Hl & Hkl & _). exists op, p. rewrite Epp in Hu.
  assert (of_path evs p ≠ []) as Hpe by (intros E0; by rewrite E0 in Hl). destruct (named_path p Hpe Hnp) as [Hp0 _].
  destruct (path_is_under_prefix p q [97]) as [[Hpre _] _]; [by apply named_ok..|by repeat constructor|]. split_and!; [done|done|done|done|by apply Hpre|].
  eapply (td_gone _ _ Htold); [done|exact Hl|]. rewrite Hk in Hkl. by destruct (ev_kind l).
Qed.

Lemma planned_resolved op q : op ∈ planned → po_path op = join q → named q = true → is_ignored cfg (join q) = false → resolved cfg fs op.
Proof.
  intros Hop Hp Hn Hi. destruct (planned_events op Hop) as (x & l & Hnx & Epx & Hl & Hk & _). assert (x = q) as -> by (rewrite <- (components_named x), <- (components_named q) by done; congruence).
  assert (l ∈ of_path evs q) as [Hin Hpl]%of_path_elem by (apply last_Some in Hl as [l' ->]; apply elem_of_app; right; by apply list_elem_of_singleton).
  assert (of_path evs q ≠ []) as Hne by (intros E0; by rewrite E0 in Hl). destruct (named_path q Hne Hn) as [Hq _].
  assert (ev_kind l ≠ EvOverflow) as Hov. { apply list_elem_of_fmap in Hin as (x & -> & Hx). rewrite Forall_forall in no_overflow. by apply no_overflow. }
  unfold resolved, resolve_op. rewrite Hp, Hi, (read_at cfg fs q Hq Hn). pose proof (td_solid _ _ Htold l q) as Hs.
  destruct (po_kind op); [| |by destruct (ev_kind l)]; (destruct (fs_lstat fs _) as [st|]; [specialize (Hs st Hin Hpl Hn eq_refl); destruct (a_kind (attributes_from st)); (done || by eexists)|by eexists]).
Qed.

(** What is planned for a path that is no directory covers what was below it. *)
Lemma removal_covers op p q : op ∈ planned → po_path op = join p → p ≠ [] → named p = true → above p q → ¬ dir_at D p → is_ignored cfg (join p) = false →
  ∃ op, op ∈ planned ∧ resolved cfg fs op ∧ (po_names op = q ∨ above (po_names op) q ∧ D !! q = None ∧ ¬ dir_at D (po_names op)
    ∨ above (po_names op) q ∧ is_Some (D !! q) ∧ po_appeared op = true).
Proof.
  intros Hop Hp Hne Hn Hab Hg Hi. exists op. split; [done|]. split; [by eapply planned_resolved|]. right. left. unfold po_names. rewrite Hp, components_named by done. split; [done|]. split.
  - apply eq_None_not_Some. intros Hq. destruct (disk_above D (disk_parent cfg fs E D Hsd) p q Hab Hq) as (d & Hd & ?). apply Hg. by exists d.
  - exact Hg.
Qed.

Lemma not_ignored_above p q : named q = true → p ≠ [] → p `prefix_of` q → is_ignored cfg (join q) = false → is_ignored cfg (join p) = false.
Proof.
  intros Hn Hp [r ->] Hi. destruct (decide (r = [])) as [->|Hr]; [by rewrite app_nil_r in Hi|]. destruct (is_ignored cfg (join p)) eqn:Ep; [|done].
  by rewrite (is_ignored_below cfg p r Hn Hp Hr Ep) in Hi.
Qed.

Lemma told_covers q : m0 !! q ≠ D !! q → ∃ op, op ∈ planned ∧ resolved cfg fs op
  ∧ (po_names op = q ∨ above (po_names op) q ∧ D !! q = None ∧ ¬ dir_at D (po_names op) ∨ above (po_names op) q ∧ is_Some (D !! q) ∧ po_appeared op = true).
Proof.
  intros Hq. destruct (td_changes _ _ Htold q Hq) as (p & Hn & Hi & Hne & Hcase).
  destruct (planned_or_gone p Hn Hne) as [(op & Hop & Hp)|(op & x & Hop & Hx & Hx0 & Hnx & Hpre & Hg)].
  - assert (po_names op = p) as Enm by (unfold po_names; by rewrite Hp, components_named). destruct (planned_events op Hop) as (y & l & Hny & Ey & Hl & Hk & Ha & _).
    assert (y = p) as -> by (rewrite <- (components_named y), <- (components_named p) by done; congruence).
    destruct Hcase as [->|[(Hab & Hnd)|(Hab & Hs & e & He & Hap)]].
    + exists op. split; [done|]. split; [by eapply planned_resolved|by left].
    + eapply (removal_covers op p); [done|done|by destruct (named_path p Hne Hn)|done|done|done|done].
    + exists op. split; [done|]. split; [by eapply planned_resolved|]. right. right. rewrite Enm, Ha, He. done.
  - assert (p = q ∨ above p q) as Hpq by (destruct Hcase as [->|[[? _]|[? _]]]; auto). assert (is_ignored cfg (join x) = false) as Hix by by apply (not_ignored_above x p).
    destruct (decide (x = q)) as [->|Hxq].
    + exists op. split; [done|]. split; [by eapply planned_resolved|left]. unfold po_names. by rewrite Hx, components_named.
    + eapply (removal_covers op x); [done..| | |done]; [|intros (d & Hd & _); congruence]. split; [|done]. destruct Hpq as [->|[Hpq _]]; [done|by etrans].
Qed.

(** The batch planned for events that told of the changes tells of them. *)
Lemma told_reported : Catchup.reported cfg fs D planned m0.
Proof.
  split.
  - intros op Hop. destruct (planned_events op Hop) as (q & l & Hn & Hp & Hl & _). exists q. split; [|done]. apply named_path; [intros E0; by rewrite E0 in Hl|done].
  - intros op a Hop Happ Ha Hd. destruct (planned_events op Hop) as (q & l & Hn & Hp & Hl & _ & Hap & _). unfold po_names in *. rewrite Hp, components_named in * by done.
    rewrite Happ in Hap. destruct (last_shape (of_path evs q)) as [e|] eqn:Ee; [|done]. by eapply (td_appeared _ _ Htold).
  - apply told_covers.
  - intros pre op post p Epl Hab Hdir. assert (op ∈ planned) as Hop by (rewrite Epl; apply elem_of_app; right; left).
    destruct (planned_events op Hop) as (r & l & Hn & Hp & Hl & _ & _ & Hseq). assert (po_names op = r) as Er by (unfold po_names; by rewrite Hp, components_named). rewrite Er in Hab.
    destruct (td_order _ _ Htold r p Hn ltac:(intros E0; by rewrite E0 in Hl) Hab Hdir) as [?|(Hi & Hpos & Hlt)]; [by left|right].
    assert (named p = true) as Hnp by (destruct Hab as [[x ->] _]; rewrite named_app in Hn; by apply andb_true_iff in Hn as [? _]).
    assert (of_path evs p ≠ []) as Hne.
    { intros E0. enough (last_pos evs (join p) = 0) by lia. clear -E0. unfold of_path in E0. induction evs as [|e l IH]; [done|]. rewrite filter_cons in E0. case_decide as Ho; [done|]. cbn [last_pos]. rewrite IH by done. rewrite (bool_decide_eq_true_2 (0 = 0)) by done. rewrite bool_decide_eq_false_2 by exact Ho. done. }
    destruct (planned_or_gone p Hnp Hne) as [(o & Ho & Hpo)|(o & x & _ & _ & Hx0 & _ & Hpre & Hg)].
    + exists o. split; [|split; [by eapply planned_resolved|unfold po_names; by rewrite Hpo, components_named]].
      rewrite Epl in Ho. apply elem_of_app in Ho as [Ho|[->|Ho]%elem_of_cons]; [done| |]; exfalso.
      * rewrite Hpo in Hp. destruct Hab as [_ Hne']. apply Hne'. rewrite <- (components_named p), <- (components_named r) by done. congruence.
      * destruct (planned_events o) as (y & _ & Hny & Ey & _ & _ & _ & Hso); [rewrite Epl; apply elem_of_app; right; by right|]. destruct Hidle as (I1 & I2 & I3).
        destruct (push_all_from c0 stamped I1 I2 I3 no_overflow few) as (Hov & _). destruct (take_nothing_lost c Hov) as (_ & _ & T3 & _). fold planned in T3. rewrite Epl in T3.
        apply StronglySorted_app_1_r in T3. apply StronglySorted_inv in T3 as [_ T3]. rewrite Forall_forall in T3. specialize (T3 o Ho). cbv beta in T3.
        rewrite Hseq, Hso, <- Ey, Hpo in T3. lia.
    + exfalso. destruct Hdir as (d & Hd & _). destruct (decide (x = p)) as [->|Hxp]; [congruence|].
      destruct (disk_above D (disk_parent cfg fs E D Hsd) x p) as (d' & Hd' & _); [by split|by eexists|congruence].
Qed.
End told.

(** ** Rounds of the flusher *)

Section rounds.
Context {F : Type} `{FileSystem F} {M : Type} `{KeyMap M} (cfg : Config) (max_expanded : Z).

(** What happens between two batches: the events that come in, then the time at
    which [flush_loop] takes them and the disk it finds, with what is on it. *)
Record Round := mkRound { rd_events : list (FsEvent * Z); rd_now : Z; rd_fs : F; rd_places : list (list bytes); rd_disk : pathmap }.

Definition after_events (s : RootServer) (evs : list (FsEvent * Z)) : RootServer := foldl (λ s ev, on_event ev.1 ev.2 s) s evs.
Definition agent_round (s : RootServer) (rd : Round) : RootServer := flush_round cfg max_expanded (rd_now rd) (rd_fs rd) (after_events s (rd_events rd)).

(** The frames the agent broadcasts are the ones the client's reader applies. *)
Definition round_frames (s : RootServer) : list Out := match flusher_ s with Batch frames => frames | _ => [] end.
Definition play_round (scl : RootServer * Client M) (rd : Round) : RootServer * Client M :=
  let s := agent_round scl.1 rd in (s, receive_batches scl.2 (o_payload <$> round_frames s)).

Definition round_batch (s : RootServer) (rd : Round) : list InvalidationOp :=
  flush_ops cfg max_expanded (rd_fs rd) (take_batch (push_all (coalescer_ s) (rd_events rd))).2.

Fixpoint all_ops (s : RootServer) (rds : list Round) : list TreeOp :=
  match rds with [] => [] | rd :: rds => as_ops (round_batch s rd) ++ all_ops (agent_round s rd) rds end.

(** A round as it usually is: the disk rests while the batch is made, the events
    told of what changed, the coalescer did not overflow, no directory that
    appeared is too large to expand, and the batch fits the wire. *)
Record round_ok (s : RootServer) (m0 : pathmap) (rd : Round) : Prop := {
  ro_disk : steady cfg (rd_fs rd) (rd_places rd) (rd_disk rd);
  ro_told : told cfg (rd_fs rd) (rd_disk rd) (rd_events rd).*1 m0;
  ro_overflow : Forall (λ ev, ev_kind ev.1 ≠ EvOverflow) (rd_events rd);
  ro_few : seq_ (coalescer_ s) + zlen (rd_events rd) < 2 ^ 64;
  ro_rescan : Forall (λ op, op_kind op ≠ Rescan) (round_batch s rd);
  ro_wire : zlen (round_batch s rd) < 2 ^ 64 ∧ Forall sendable (round_batch s rd)
}.

Fixpoint rounds_ok (s : RootServer) (m0 : pathmap) (rds : list Round) : Prop :=
  match rds with [] => True | rd :: rds => round_ok s m0 rd ∧ rounds_ok (agent_round s rd) (rd_disk rd) rds end.

Lemma after_events_coalescer evs : ∀ s, coalescer_ (after_events s evs) = push_all (coalescer_ s) evs.
Proof. induction evs as [|ev evs IH]; intros s; [done|]. apply (IH (on_event ev.1 ev.2 s)). Qed.

Lemma round_frames_spec s rd : round_frames (agent_round s rd)
  = broadcast_frames (cfg_chunk cfg) (mkBatch (generation_ (agent_round s rd)) (round_batch s rd)).
Proof.
  unfold agent_round, flush_round, round_batch. rewrite <- after_events_coalescer. destruct (take_batch _) as [co planned]. unfold round_frames. cbn. case_bool_decide as E; [by rewrite E|done].
Qed.

Lemma round_generation s rd : u64_ok (generation_ (agent_round s rd)).
Proof. unfold agent_round, flush_round. destruct (take_batch _) as [co planned]. cbn. by apply (wrap_ok 64). Qed.

Lemma round_idle s m0 rd : idle (coalescer_ s) → round_ok s m0 rd → idle (coalescer_ (agent_round s rd)).
Proof.
  intros (I1 & I2 & I3) Hok. destruct (push_all_from _ (rd_events rd) I1 I2 I3 (ro_overflow _ _ _ Hok) (ro_few _ _ _ Hok)) as (Hov & Hsq & _).
  unfold agent_round, flush_round. rewrite after_events_coalescer. set (c := push_all _ _) in *. destruct (take_nothing_lost c Hov) as (Hp & _).
  assert (overflow_ (take_batch c).1 = false ∧ seq_ (take_batch c).1 = seq_ c) as [E1 E2] by (unfold take_batch; rewrite Hov; by case_bool_decide).
  destruct (take_batch c) as [co planned]. cbn in *. split_and!; [done|done|]. rewrite E2, Hsq. unfold zlen. lia.
Qed.

Lemma round_in_step s m0 rd (cl : Client M) ops0 : idle (coalescer_ s) → round_ok s m0 rd → in_step cl ops0 m0 →
  total_cost (ops0 ++ as_ops (round_batch s rd)) < 2 ^ 31 →
  in_step (play_round (s, cl) rd).2 (ops0 ++ as_ops (round_batch s rd)) (rd_disk rd).
Proof.
  intros Hi Hok Hst Hcost. cbn. rewrite round_frames_spec. destruct Hok as [R1 R2 R3 R4 R5 [R6 R7]].
  eapply flush_in_step; [exact R1| |by rewrite Forall_forall in R5|exact Hst|exact Hcost|apply round_generation|exact R6|exact R7].
  by eapply told_reported.
Qed.

(** The mirror follows the disk as the events tell of it.  A client in step with a map of the served
    tree, and the agent's rounds: events come in, the coalescer collects them, the
    flusher resolves what it takes against the disk and broadcasts the frames,
    which the client applies.  If in every round the events told of what changed,
    then after the last one every path of the mirror shows what the disk of that
    round has, and the mirror has nothing else. *)
Theorem events_reach_mirror rds s (cl : Client M) ops0 m0 :
  idle (coalescer_ s) → in_step cl ops0 m0 → rounds_ok s m0 rds → total_cost (ops0 ++ all_ops s rds) < 2 ^ 31 →
  let D := default m0 (rd_disk <$> last rds) in let mirror := tree_ (foldl play_round (s, cl) rds).2 in
  (∀ path, observe mirror path = s_observe D path) ∧ live_ mirror = Z.of_nat (size D).
Proof.
  revert s cl ops0 m0. induction rds as [|rd rds IH]; intros s cl ops0 m0 Hi Hst Hok Hcost.
  - cbn in *. eapply in_step_shows; [exact Hst|]. by rewrite app_nil_r in Hcost.
  - destruct Hok as [Hrd Hok]. cbn [all_ops] in Hcost. rewrite app_assoc in Hcost. pose proof (total_cost_nonneg (all_ops (agent_round s rd) rds)) as Hnn.
    assert (total_cost (ops0 ++ as_ops (round_batch s rd)) < 2 ^ 31) as Hcost1 by (rewrite total_cost_app in Hcost; lia).
    specialize (IH (agent_round s rd) _ _ (rd_disk rd) (round_idle _ _ _ Hi Hrd) (round_in_step _ _ _ _ _ Hi Hrd Hst Hcost1) Hok Hcost).
    rewrite last_cons. cbn [foldl]. destruct (last rds); exact IH.
Qed.
End rounds.

(** ** Two rounds

    A directory goes away and a file becomes a directory with a file inside; then
    the new directory is reported once more, and nothing changed. *)

Definition demo_first : Round (F := MemFs) :=
  mkRound [(mkEvent EvRemoved (str "d") 0, 1); (mkEvent EvRemoved (str "a.txt") 0, 2); (mkEvent EvCreated (str "a.txt") 0, 3)] 40 demo_after demo_after_places demo_disk.
Definition demo_second : Round (F := MemFs) := mkRound [(mkEvent EvModified (str "a.txt") 0, 50)] 90 demo_after demo_after_places demo_disk.
Definition demo_root : RootServer := root_new (mkOptions 8 2 25).

Lemma demo_seen_file : watched demo_cfg demo_after [str "a.txt"].
Proof.
  split; [vm_compute; reflexivity|]. exists [], (str "a.txt"). split; [reflexivity|]. intros st _. split; [constructor|]. apply (bool_decide_unpack _). vm_compute. exact I.
Qed.

Lemma demo_seen_gone : watched demo_cfg demo_after [str "d"].
Proof.
  split; [vm_compute; reflexivity|]. exists [], (str "d"). split; [reflexivity|]. intros st Hst. vm_compute in Hst. discriminate.
Qed.

Lemma demo_dir_opened : walked demo_after (str "/r") (cfg_skip demo_cfg) (cfg_device demo_cfg demo_after) [str "a.txt"].
Proof.
  eapply (walked_sub _ _ _ _ []); [constructor|]. exists (str "a.txt"). split; [apply (bool_decide_unpack _); vm_compute; exact I|]. split; [reflexivity|]. vm_compute. reflexivity.
Qed.

(** The paths the events of a round name. *)
Lemma named_in (evs : list FsEvent) (Q : list (list bytes)) q : Forall (λ e, components (ev_path e) ∈ Q) evs → named q = true → of_path evs q ≠ [] → q ∈ Q.
Proof.
  intros HQ Hn Hne. destruct (of_path evs q) as [|e l] eqn:E; [done|]. assert (e ∈ of_path evs q) as [Ho He]%list_elem_of_filter by (rewrite E; left).
  rewrite Forall_forall in HQ. specialize (HQ e He). unfold on_path in Ho. by rewrite Ho, components_named in HQ.
Qed.

Lemma of_path_nonempty evs e q : e ∈ evs → ev_path e = join q → of_path evs q ≠ [].
Proof. intros He Hp E. apply (not_elem_of_nil e). rewrite <- E. by apply list_elem_of_filter. Qed.

Lemma above_top p x : above p [x] → p = [].
Proof. intros [[y E] Hne]. destruct p as [|a p]; [done|]. injection E as -> E. by destruct p. Qed.

Lemma demo_paths (evs : list FsEvent) : Forall (λ e, components (ev_path e) ∈ [[str "d"]; [str "a.txt"]]) evs → Forall (λ e, ev_path e = join (components (ev_path e))) evs →
  (∀ e, e ∈ evs → ∃ q, watched demo_cfg demo_after q ∧ ev_path e = join q)
  ∧ (∀ e q st, e ∈ evs → ev_path e = join q → named q = true → fs_lstat demo_after (full (cfg_root demo_cfg) q) = Some st → a_kind (attributes_from st) ≠ Other).
Proof.
  intros HQ Hj. rewrite Forall_forall in HQ, Hj. split.
  - intros e He. exists (components (ev_path e)). split; [|by apply Hj]. specialize (HQ e He). apply elem_of_cons in HQ as [->|HQ]; [exact demo_seen_gone|]. apply list_elem_of_singleton in HQ as ->. exact demo_seen_file.
  - intros e q st He Hp Hn. specialize (HQ e He). rewrite Hp, components_named in HQ by done. apply elem_of_cons in HQ as [->|HQ]; [vm_compute; discriminate|].
    apply list_elem_of_singleton in HQ as ->. vm_compute. intros [= <-]. discriminate.
Qed.

Lemma demo_order (evs : list FsEvent) (m0 : pathmap) : Forall (λ e, components (ev_path e) ∈ [[str "d"]; [str "a.txt"]]) evs → m0 !! [] = Some kImplicitDirectory →
  ∀ r p, named r = true → of_path evs r ≠ [] → above p r → no_file_at m0 p.
Proof.
  intros HQ Hm r p Hn Hne Hab. pose proof (named_in evs _ r HQ Hn Hne) as Hr. assert (p = []) as -> by (apply elem_of_cons in Hr as [->|Hr%list_elem_of_singleton]; [|subst r]; by eapply above_top).
  intros d Hd. rewrite Hm in Hd. by injection Hd as <-.
Qed.

Lemma demo_told_first : told demo_cfg demo_after demo_disk (rd_events demo_first).*1 demo_before.
Proof.
  set (evs := (rd_events demo_first).*1).
  assert (Forall (λ e, components (ev_path e) ∈ [[str "d"]; [str "a.txt"]]) evs) as HQ by (apply (bool_decide_unpack _); vm_compute; exact I).
  assert (∀ q, named q = true → of_path evs q ≠ [] → q = [str "d"] ∨ q = [str "a.txt"]) as Hq.
  { intros q Hn Hne. pose proof (named_in evs _ q HQ Hn Hne) as Hq. apply elem_of_cons in Hq as [->|Hq%list_elem_of_singleton]; auto. }
  destruct (demo_paths evs HQ ltac:(apply (bool_decide_unpack _); vm_compute; exact I)) as [P1 P2]. split; [exact P1|exact P2| | | |].
  - intros q e Hn He Hg. destruct (Hq q Hn ltac:(intros E; by rewrite E in He)) as [->| ->]; [vm_compute; reflexivity|]. vm_compute in He. injection He as <-. discriminate Hg.
  - intros q e a Hn He Ha _ _. destruct (Hq q Hn ltac:(intros E; by rewrite E in He)) as [->| ->]; [|exact demo_dir_opened]. vm_compute in He. injection He as <-. discriminate Ha.
  - assert (¬ dir_at demo_disk [str "d"]) as Hrm by (intros (d & Hd & _); vm_compute in Hd; discriminate).
    assert (∃ e, last_shape (of_path evs [str "a.txt"]) = Some e ∧ appears (ev_kind e) = true) as Hap by (eexists; split; vm_compute; reflexivity).
    intros q Hw%demo_wrong. rewrite !elem_of_cons in Hw. destruct Hw as [->|[->|[->|[->|Hw%elem_of_nil]]]]; [exists [str "a.txt"]|exists [str "a.txt"]|exists [str "d"]|exists [str "d"]|done].
    all: split; [vm_compute; reflexivity|]; split; [vm_compute; reflexivity|]; split; [vm_compute; discriminate|].
    + by left.
    + right. right. split; [split; [by exists [str "x"]|done]|]. split; [|exact Hap]. apply (bool_decide_unpack _). vm_compute. exact I.
    + by left.
    + right. left. split; [split; [by exists [str "b"]|done]|exact Hrm].
  - intros r p Hn Hne Hab _. left. eapply (demo_order evs); [exact HQ|vm_compute; reflexivity|exact Hn|exact Hne|exact Hab].
Qed.

Lemma demo_told_second : told demo_cfg demo_after demo_disk (rd_events demo_second).*1 demo_disk.
Proof.
  set (evs := (rd_events demo_second).*1).
  assert (Forall (λ e, components (ev_path e) ∈ [[str "d"]; [str "a.txt"]]) evs) as HQ by (apply (bool_decide_unpack _); vm_compute; exact I).
  assert (∀ q e, of_path evs q = e → e = [] ∨ e = [mkEvent EvModified (str "a.txt") 0]) as Hq.
  { intros q e <-. unfold of_path, evs. cbn [rd_events demo_second fmap list_fmap]. rewrite filter_cons. case_decide; auto. }
  destruct (demo_paths evs HQ ltac:(apply (bool_decide_unpack _); vm_compute; exact I)) as [P1 P2]. split; [exact P1|exact P2| | | |].
  - intros q e _ He Hg. destruct (Hq q _ eq_refl) as [E|E]; rewrite E in He; [done|]. injection He as <-. discriminate Hg.
  - intros q e a _ He Ha _ _. destruct (Hq q _ eq_refl) as [E|E]; rewrite E in He; done.
  - intros q Hw. by destruct Hw.
  - intros r p Hn Hne Hab _. left. eapply (demo_order evs); [exact HQ|vm_compute; reflexivity|exact Hn|exact Hne|exact Hab].
Qed.

Lemma demo_rounds_ok : rounds_ok demo_cfg 100 demo_root demo_before [demo_first; demo_second].
Proof.
  cbn [rounds_ok]. split_and!; [split|split|exact I].
  all: first [exact after_steady|exact demo_told_first|exact demo_told_second|idtac].
  1,5: repeat constructor; discriminate.
  1,4: vm_compute; reflexivity.
  1,3: apply (bool_decide_unpack _); vm_compute; exact I.
  - split; [vm_compute; reflexivity|].
    assert (round_batch demo_cfg 100 demo_root demo_first = ltac:(let r := eval vm_compute in (round_batch demo_cfg 100 demo_root demo_first) in exact r)) as -> by (vm_compute; reflexivity).
    repeat constructor; vm_compute; repeat split; try reflexivity; intros; discriminate.
  - split; [vm_compute; reflexivity|].
    assert (round_batch demo_cfg 100 (agent_round demo_cfg 100 demo_root demo_first) demo_second = ltac:(let r := eval vm_compute in (round_batch demo_cfg 100 (agent_round demo_cfg 100 demo_root demo_first) demo_second) in exact r)) as -> by (vm_compute; reflexivity).
    repeat constructor; vm_compute; repeat split; try reflexivity; intros; discriminate.
Qed.

Lemma events_reach_mirror_witness :
  let mirror := tree_ (foldl (play_round demo_cfg 100) (demo_root, demo_mirror) [demo_first; demo_second]).2 in
  (∀ path, observe mirror path = s_observe demo_disk path) ∧ live_ mirror = 4.
Proof.
  apply (events_reach_mirror demo_cfg 100 [demo_first; demo_second] demo_root demo_mirror demo_before_ops demo_before).
  - split_and!; vm_compute; congruence.
  - split; [split; reflexivity|reflexivity|reflexivity|vm_compute; reflexivity|]. repeat constructor; vm_compute; repeat split; try reflexivity; intros; discriminate.
  - exact demo_rounds_ok.
  - vm_compute. reflexivity.
Defined.
