(* ===== verification/Kernel.v ===== *)
(** * What a kernel tells of the changes to a disk

    [Told] assumes of the events of a round that they tell of what changed.  Here
    the changes themselves are steps on the map of the disk, and a class, [Teller],
    says what a platform's watcher must make of each.  On Linux the events are what
    [handle_event] of [platform/linux/dir_watcher.cpp] makes of the records inotify
    documents, those of directories not yet watched left out; on Windows what
    [dispatch] of [platform/win/dir_watcher.cpp] makes of those of
    ReadDirectoryChangesW.  Any history of such changes tells of what it changed, as
    long as no directory appears where there was something to forget. *)

From S2P Require Import Prelude Types KeyMap HashUtil FlatMap Wire Messages Path Unicode StringPool MetadataTree Forest TreeIndex TreeLinks TreeInv TreeSpec TreeRefine TreeProps.
From S2P Require Import Ignore ReadCache FileSystem Resolve Scanner ScanProps Server Broadcast Peers Requests Client ClientProps Walk Mirror Converge Catchup Coalescer Watcher Names Told.

(** ** Paths and events *)

Lemma join_named_inj p q : named p = true → named q = true → join p = join q → p = q.
Proof. intros Hp Hq E. rewrite <- (components_named p), <- (components_named q) by done. by rewrite E. Qed.

Lemma of_path_app es es' q : of_path (es ++ es') q = of_path es q ++ of_path es' q.
Proof. apply filter_app. Qed.

Lemma of_path_grows es es' q : of_path es q ≠ [] → of_path (es ++ es') q ≠ [].
Proof. rewrite of_path_app. intros Hn [? _]%app_eq_nil. done. Qed.

(** An event on [q], seen from [x]. *)
Lemma of_path_one e q x : ev_path e = join q → named q = true → named x = true → of_path [e] x = if decide (x = q) then [e] else [].
Proof.
  intros He Hq Hx. unfold of_path. rewrite filter_cons. unfold on_path. case_decide as E; case_decide as E'; try done.
  - destruct E'. apply join_named_inj; congruence.
  - congruence.
Qed.

Lemma of_path_same es e q : ev_path e = join q → of_path (es ++ [e]) q = of_path es q ++ [e].
Proof. intros He. rewrite of_path_app. f_equal. unfold of_path. by rewrite filter_cons_True. Qed.

Lemma of_path_other es e q x : ev_path e = join q → named q = true → named x = true → x ≠ q → of_path (es ++ [e]) x = of_path es x.
Proof. intros He Hq Hx Hne. rewrite of_path_app, (of_path_one e q x) by done. by rewrite decide_False, app_nil_r. Qed.

Lemma last_pos_same es e q : ev_path e = join q → last_pos (es ++ [e]) (join q) = zlen es + 1.
Proof. intros He. rewrite last_pos_snoc. by rewrite bool_decide_eq_true_2. Qed.

Lemma last_pos_other es e q x : ev_path e = join q → named q = true → named x = true → x ≠ q → last_pos (es ++ [e]) (join x) = last_pos es (join x).
Proof. intros He Hq Hx Hne. rewrite last_pos_snoc, bool_decide_eq_false_2; [done|]. intros E. apply Hne, join_named_inj; congruence. Qed.

Lemma last_pos_bound es x : 0 <= last_pos es x <= zlen es.
Proof. induction es as [|e es IH]; [done|]. cbn [last_pos]. rewrite zlen_cons. repeat case_bool_decide; lia. Qed.

Lemma last_pos_some es x : of_path es x ≠ [] → 0 < last_pos es (join x).
Proof.
  induction es as [|e es IH]; [done|]. unfold of_path. rewrite filter_cons. unfold on_path. cbn [last_pos]. pose proof (last_pos_bound es (join x)) as Hb. case_decide as E.
  - intros _. rewrite (bool_decide_eq_true_2 (ev_path e = join x)) by done. case_bool_decide; lia.
  - intros Hn%IH. rewrite bool_decide_eq_false_2 by lia. lia.
Qed.

(** ** Trees of paths *)

Record tree_map (m : pathmap) : Prop := {
  tm_root : dir_at m [];
  tm_parent : ∀ q s, is_Some (m !! (q ++ [s])) → dir_at m q;
  tm_named : ∀ q, is_Some (m !! q) → named q = true
}.

Lemma dir_some m q : dir_at m q → is_Some (m !! q).
Proof. intros (d & -> & _). by eexists. Qed.
#[local] Hint Resolve dir_some : core.

Lemma dir_same m m' q : m' !! q = m !! q → dir_at m' q ↔ dir_at m q.
Proof. unfold dir_at. by intros ->. Qed.

Lemma none_not_dir m q : m !! q = None → ¬ dir_at m q.
Proof. intros Hq (d & Hd & _). congruence. Qed.

Lemma tm_closed m : tree_map m → closed m.
Proof. intros Hm q s Hq. by apply dir_some, (tm_parent m Hm q s). Qed.

Lemma tm_above m p q : tree_map m → above p q → is_Some (m !! q) → dir_at m p.
Proof.
  intros Hm [[r ->] Hne] Hq. destruct r as [|s r]; [by rewrite app_nil_r in Hne|]. apply (tm_parent m Hm p s), (closed_above m _ (p ++ s :: r)); [by apply tm_closed| |done].
  exists r. by rewrite <- app_assoc.
Qed.

Lemma tm_above_dir m p q : tree_map m → p `prefix_of` q → dir_at m q → dir_at m p.
Proof. intros Hm Hp Hq. destruct (decide (p = q)) as [->|Hne]; [done|]. apply (tm_above m p q Hm); [done|by apply dir_some]. Qed.

Lemma tm_none_below m q x : tree_map m → ¬ dir_at m q → above q x → m !! x = None.
Proof. intros Hm Hq Hx. apply eq_None_not_Some. intros Hs. by apply Hq, (tm_above m q x). Qed.

Lemma tm_named_above m p q : tree_map m → named q = true → p `prefix_of` q → named p = true.
Proof. intros _ Hq [r ->]. rewrite named_app in Hq. by apply andb_true_iff in Hq as [? _]. Qed.

Lemma above_trans p q r : above p q → q `prefix_of` r → above p r.
Proof. intros [Hp Hne] Hq. split; [by etrans|]. intros ->. by apply Hne, (anti_symm prefix). Qed.

(** Two places above the same one. *)
Lemma above_either p q x : p `prefix_of` x → q `prefix_of` x → p = q ∨ above p q ∨ above q p.
Proof. intros Hp Hq. destruct (decide (p = q)) as [|Hne]; [by left|right]. destruct (prefix_weak_total p q x Hp Hq); [by left|right]. by split. Qed.

(** ** Where the events of a round stand

    [m0] is the disk as the last batch left it, [m] the disk now, [evs] the events
    since.  A directory that appeared has nothing of [m0] below it, and a change is
    on a path that is named, below one that is no directory any more, or, where it
    is there now, below one that appeared. *)
Definition appeared_at (evs : list FsEvent) (p : list bytes) : Prop := ∃ e, last_shape (of_path evs p) = Some e ∧ appears (ev_kind e) = true.

Definition accounted (m : pathmap) (evs : list FsEvent) (q : list bytes) : Prop :=
  ∃ p, named p = true ∧ (p = q ∧ of_path evs q ≠ [] ∨ above p q ∧ of_path evs p ≠ [] ∧ ¬ dir_at m p ∨ above p q ∧ is_Some (m !! q) ∧ appeared_at evs p).

Record account (m0 m : pathmap) (evs : list FsEvent) : Prop := {
  ac_tree : tree_map m;
  ac_paths : ∀ e, e ∈ evs → ∃ q, q ≠ [] ∧ named q = true ∧ ev_path e = join q;
  ac_shown : ∀ e, e ∈ evs → ev_kind e ≠ EvOverflow;
  ac_gone : ∀ q e, named q = true → last (of_path evs q) = Some e → goes (ev_kind e) = true → m !! q = None;
  ac_changes : ∀ q, m0 !! q ≠ m !! q → accounted m evs q;
  ac_new : ∀ p x, named p = true → appeared_at evs p → dir_at m p → above p x → m0 !! x = None;
  ac_heard : ∀ p, dir_at m p → ¬ no_file_at m0 p → of_path evs p ≠ [];
  ac_order : ∀ r p, named r = true → of_path evs r ≠ [] → above p r → dir_at m p → no_file_at m0 p ∨ last_pos evs (join p) < last_pos evs (join r)
}.

(** Nothing said of [q] yet, below a directory whose appearance was the last word
    on it: it is not watched yet. *)
Definition excused (evs : list FsEvent) (q : list bytes) : Prop := of_path evs q = [] ∧ ∃ p, named p = true ∧ above p q ∧ appeared_at evs p.

(** One event of a kind on [q], or none. *)
Definition heard (evs : list FsEvent) (q : list bytes) (K : FsEventKind → Prop) (es : list FsEvent) : Prop :=
  es = [] ∧ excused evs q ∨ ∃ e, es = [e] ∧ ev_path e = join q ∧ K (ev_kind e).

(** The elementary steps: something goes with all below it, something appears
    with all below it, attributes change, an event repeats that something is gone. *)
Inductive small_step (m0 m : pathmap) (evs : list FsEvent) : pathmap → list FsEvent → Prop :=
| small_cut q es : q ≠ [] → is_Some (m !! q) → heard evs q (λ k, goes k = true) es → small_step m0 m evs (s_cut q m) es
| small_graft q m' es : q ≠ [] → tree_map m' → is_Some (m' !! q) → ¬ dir_at m q → (∀ x, ¬ q `prefix_of` x → m' !! x = m !! x) →
    (dir_at m' q → ∀ x, above q x → m0 !! x = None ∧ (named x = true → of_path evs x = [])) → heard evs q (λ k, appears k = true) es → small_step m0 m evs m' es
| small_touch q a b es : q ≠ [] → m !! q = Some b → s_dir a = s_dir b → (s_dir a = true → no_file_at m0 q) →
    heard evs q (λ k, k = EvModified) es → small_step m0 m evs (<[q := a]> m) es
| small_echo q e : q ≠ [] → named q = true → m !! q = None → ev_path e = join q → goes (ev_kind e) = true → small_step m0 m evs m [e].

Section small.
Context (m0 m : pathmap) (evs : list FsEvent) (Hac : account m0 m evs).

Lemma s_cut_lookup q x : s_cut q m !! x = if decide (q `prefix_of` x) then None else m !! x.
Proof.
  unfold s_cut. apply option_eq. intros a. rewrite map_lookup_filter_Some. cbn. case_decide; [split; [by intros [_ []]|done]|tauto].
Qed.

Lemma s_cut_other q x : ¬ q `prefix_of` x → s_cut q m !! x = m !! x.
Proof. intros Hx. rewrite s_cut_lookup. by rewrite decide_False. Qed.

Lemma s_cut_none q x : q `prefix_of` x → s_cut q m !! x = None.
Proof. intros Hx. rewrite s_cut_lookup. by rewrite decide_True. Qed.

Lemma s_cut_dir q p : dir_at (s_cut q m) p → dir_at m p ∧ ¬ q `prefix_of` p.
Proof. intros (d & Hd & Hdir). rewrite s_cut_lookup in Hd. case_decide; [done|]. split; [by exists d|done]. Qed.

Lemma s_cut_tree q : q ≠ [] → tree_map (s_cut q m).
Proof.
  intros Hq. pose proof (ac_tree _ _ _ Hac) as Hm. split.
  - apply (dir_same m); [|apply Hm]. apply s_cut_other. by intros ?%prefix_nil_inv.
  - intros p s [a Ha]. rewrite s_cut_lookup in Ha. case_decide as E; [done|]. apply (dir_same m); [|apply (tm_parent m Hm p s); eauto]. apply s_cut_other. intros Hp. by apply E, prefix_app_r.
  - intros p [a Ha]. rewrite s_cut_lookup in Ha. case_decide; [done|]. apply (tm_named m Hm). eauto.
Qed.

(** What is below a directory that appeared was not on the old disk. *)
Lemma excused_new q : excused evs q → (∀ p, above p q → dir_at m p) → m0 !! q = None ∧ ∀ x, q `prefix_of` x → m0 !! x = None.
Proof.
  intros (_ & p & Hp & Hab & Hap) Hdir. assert (∀ x, q `prefix_of` x → m0 !! x = None) as Hx; [|split; [by apply Hx|done]].
  intros x Hx. apply (ac_new _ _ _ Hac p x Hp Hap); [by apply Hdir|by eapply above_trans].
Qed.

(** What an event on [q] changes of what is said of the paths. *)
Lemma heard_other q K es x : heard evs q K es → named q = true → named x = true → x ≠ q →
  of_path (evs ++ es) x = of_path evs x ∧ last_pos (evs ++ es) (join x) = last_pos evs (join x).
Proof.
  intros [[-> _]|(e & -> & He & _)] Hq Hx Hne; [by rewrite app_nil_r|]. split; [by eapply of_path_other|by eapply last_pos_other].
Qed.

Lemma heard_same q K es : heard evs q K es →
  es = [] ∧ excused evs q ∨ ∃ e, es = [e] ∧ K (ev_kind e) ∧ of_path (evs ++ es) q = of_path evs q ++ [e] ∧ last_pos (evs ++ es) (join q) = zlen evs + 1.
Proof. intros [?|(e & -> & He & Hk)]; [by left|right]. exists e. split_and!; [done|done|by apply of_path_same|by apply last_pos_same]. Qed.

Lemma heard_paths q K es : heard evs q K es → q ≠ [] → named q = true → (∀ k, K k → k ≠ EvOverflow) →
  ∀ e, e ∈ evs ++ es → (∃ q, q ≠ [] ∧ named q = true ∧ ev_path e = join q) ∧ ev_kind e ≠ EvOverflow.
Proof.
  intros Hh Hq Hn HK e [He|He]%elem_of_app; [split; [by apply (ac_paths _ _ _ Hac)|by apply (ac_shown _ _ _ Hac)]|].
  destruct Hh as [[-> _]|(e' & -> & Hp & Hk)]; [by apply not_elem_of_nil in He|]. apply list_elem_of_singleton in He as ->. split; [by exists q|by apply HK].
Qed.

(** The event says that [q] has been touched after anything it is compared with. *)
Lemma heard_last q K es p : heard evs q K es → named q = true → above p q → dir_at m p → of_path (evs ++ es) q ≠ [] → (dir_at m p → named p = true) →
  no_file_at m0 p ∨ last_pos (evs ++ es) (join p) < last_pos (evs ++ es) (join q).
Proof.
  intros Hh Hq Hab Hdir Hne Hnp. assert (p ≠ q) as Hpq by apply Hab. destruct (heard_other q K es p Hh Hq (Hnp Hdir) Hpq) as [_ ->].
  destruct (heard_same q K es Hh) as [[-> _]|(e & -> & _ & _ & ->)].
  - rewrite app_nil_r in *. by apply (ac_order _ _ _ Hac).
  - right. pose proof (last_pos_bound evs (join p)). lia.
Qed.

Lemma accounted_other q K es m' x : heard evs q K es → named q = true → accounted m evs x → m' !! x = m !! x → (∀ p, above p x → ¬ dir_at m p → ¬ dir_at m' p) →
  (above q x → is_Some (m !! x) → appeared_at evs q → appeared_at (evs ++ es) q) → accounted m' (evs ++ es) x.
Proof.
  intros Hh Hq (p & Hp & Hcase) Hx Hdirs Happ. exists p. split; [done|]. destruct Hcase as [[-> Hc]|[(Hab & Hne & Hnd)|(Hab & Hs & Hap)]].
  - left. split; [done|by apply of_path_grows].
  - right. left. split_and!; [done|by apply of_path_grows|by apply Hdirs].
  - right. right. rewrite Hx. split_and!; [done..|]. destruct (decide (p = q)) as [->|Hne]; [by apply Happ|].
    unfold appeared_at. by destruct (heard_other q K es p Hh Hq Hp Hne) as [-> _].
Qed.

Lemma heard_parts q K es m' : heard evs q K es → q ≠ [] → named q = true → (∀ k, K k → k ≠ EvOverflow) → tree_map m' →
  (∀ e, last (of_path (evs ++ es) q) = Some e → goes (ev_kind e) = true → m' !! q = None) → (∀ x, x ≠ q → named x = true → of_path evs x ≠ [] → m !! x = None → m' !! x = None) →
  tree_map m' ∧ (∀ e, e ∈ evs ++ es → ∃ q, q ≠ [] ∧ named q = true ∧ ev_path e = join q) ∧ (∀ e, e ∈ evs ++ es → ev_kind e ≠ EvOverflow)
  ∧ ∀ x e, named x = true → last (of_path (evs ++ es) x) = Some e → goes (ev_kind e) = true → m' !! x = None.
Proof.
  intros Hh Hq Hn HK Ht Hgone Hother. pose proof (heard_paths q K es Hh Hq Hn HK) as Hp. split_and!; [done|by intros e [? _]%Hp|by intros e [_ ?]%Hp|].
  intros x e Hx He Hg. destruct (decide (x = q)) as [->|Hne]; [by eapply Hgone|]. destruct (heard_other q K es x Hh Hn Hx Hne) as [E _]. rewrite E in He.
  apply Hother; [done|done|intros E0; by rewrite E0 in He|]. by eapply (ac_gone _ _ _ Hac).
Qed.

Lemma cut_account q es : q ≠ [] → is_Some (m !! q) → heard evs q (λ k, goes k = true) es → account m0 (s_cut q m) (evs ++ es).
Proof.
  intros Hq Hs Hh. pose proof (ac_tree _ _ _ Hac) as Hm. pose proof (tm_named m Hm q Hs) as Hn.
  assert (∀ p, dir_at (s_cut q m) p → named p = true ∧ p ≠ q ∧ dir_at m p) as Hd.
  { intros p [Hp Hnp]%s_cut_dir. split_and!; [by apply (tm_named m Hm), dir_some|by intros ->|done]. }
  destruct (heard_parts q _ es (s_cut q m) Hh Hq Hn) as (P1 & P2 & P3 & P4); [by intros k Hk ->|by apply s_cut_tree|intros; by apply s_cut_none|intros x _ _ _ Hx; rewrite s_cut_lookup; by case_decide|].
  split; [done..| | | |].
  - intros x Hx. destruct (decide (q `prefix_of` x)) as [Hqx|Hqx].
    + rewrite s_cut_none in Hx by done. destruct (heard_same q _ es Hh) as [[-> He]|(e & _ & _ & E & _)].
      { destruct (excused_new q He) as [_ H0']; [intros p Hp; by apply (tm_above m p q)|]. by rewrite H0' in Hx. }
      exists q. split; [done|]. assert (of_path (evs ++ es) q ≠ []) as Hne by (rewrite E; by destruct (of_path evs q)). destruct (decide (q = x)) as [->|Hqx']; [by left|right; left].
      split_and!; [by split|done|]. apply none_not_dir. by apply s_cut_none.
    + rewrite s_cut_other in Hx by done. eapply accounted_other; [done|done|by apply (ac_changes _ _ _ Hac)|by apply s_cut_other|intros p _ Hp (? & _ & ?)%Hd; done|].
      intros [? _]; done.
  - intros p x Hp Hap (_ & Hne & Hdir)%Hd Hab. apply (ac_new _ _ _ Hac p x); [done| |done..]. unfold appeared_at in *. by destruct (heard_other q _ es p Hh Hn Hp Hne) as [<- _].
  - intros p (_ & _ & Hdir)%Hd Hf. by apply of_path_grows, (ac_heard _ _ _ Hac).
  - intros r p Hr Hne Hab (Hp & Hpq & Hdir)%Hd. destruct (decide (r = q)) as [->|Hrq]; [by eapply heard_last|].
    destruct (heard_other q _ es r Hh Hn Hr Hrq) as [E ->], (heard_other q _ es p Hh Hn Hp Hpq) as [_ ->]. rewrite E in Hne. by apply (ac_order _ _ _ Hac).
Qed.

Lemma touch_account q a b es : q ≠ [] → m !! q = Some b → s_dir a = s_dir b → (s_dir a = true → no_file_at m0 q) →
  heard evs q (λ k, k = EvModified) es → account m0 (<[q := a]> m) (evs ++ es).
Proof.
  intros Hq Hb Hab Hord Hh. pose proof (ac_tree _ _ _ Hac) as Hm. pose proof (tm_named m Hm q ltac:(eauto)) as Hn.
  assert (∀ x, is_Some (<[q := a]> m !! x) ↔ is_Some (m !! x)) as Hsome. { intros x. destruct (decide (x = q)) as [->|Hne]; [rewrite lookup_insert_eq, Hb; split; eauto|by rewrite lookup_insert_ne]. }
  assert (∀ x, dir_at (<[q := a]> m) x ↔ dir_at m x) as Hdir.
  { intros x. destruct (decide (x = q)) as [->|Hne]; [|by apply dir_same, lookup_insert_ne]. unfold dir_at. rewrite lookup_insert_eq, Hb. split; intros (d & [= <-] & ?); eexists; (split; [done|congruence]). }
  assert (appeared_at (evs ++ es) q ↔ appeared_at evs q) as Hap.
  { destruct (heard_same q _ es Hh) as [[-> _]|(e & _ & Hk & E & _)]; [by rewrite app_nil_r|]. unfold appeared_at. rewrite E, last_shape_snoc. by rewrite bool_decide_eq_true_2. }
  destruct (heard_parts q _ es (<[q := a]> m) Hh Hq Hn) as (P1 & P2 & P3 & P4); [by intros k ->| | |intros x Hne _ _; by rewrite lookup_insert_ne|].
  { split; [apply Hdir, Hm|intros p s Hp; by apply Hdir, (tm_parent m Hm p s), Hsome|intros p Hp; by apply (tm_named m Hm), Hsome]. }
  { intros e He Hg. destruct (heard_same q _ es Hh) as [[-> [E _]]|(e' & _ & Hk & E & _)]; [by rewrite app_nil_r, E in He|].
    rewrite E, last_snoc in He. injection He as <-. by rewrite Hk in Hg. }
  split; [done..| | | |].
  - intros x Hx. destruct (decide (x = q)) as [->|Hne].
    + destruct (heard_same q _ es Hh) as [[-> (_ & p & Hp & Habp & Happ)]|(e & _ & _ & E & _)].
      * exists p. split; [done|]. right. right. split_and!; [done|apply Hsome; eauto|by rewrite app_nil_r].
      * exists q. split; [done|]. left. split; [done|]. rewrite E. by destruct (of_path evs q).
    + rewrite lookup_insert_ne in Hx by done. eapply accounted_other; [done|done|by apply (ac_changes _ _ _ Hac)|by apply lookup_insert_ne|intros p _ Hp Hp'; by apply Hp, Hdir|].
      intros _ _. apply Hap.
  - intros p x Hp Happ Hd Habx. apply (ac_new _ _ _ Hac p x); [done| |by apply Hdir|done]. destruct (decide (p = q)) as [->|Hne]; [by apply Hap|]. unfold appeared_at in *. by destruct (heard_other q _ es p Hh Hn Hp Hne) as [<- _].
  - intros p Hd Hf. apply of_path_grows, (ac_heard _ _ _ Hac); [by apply Hdir|done].
  - intros r p Hr Hne Habr Hd%Hdir. assert (named p = true) as Hp by by apply (tm_named m Hm), dir_some. destruct (decide (p = q)) as [->|Hpq].
    { left. apply Hord. destruct Hd as (d & Hd & Hdd). congruence. }
    destruct (decide (r = q)) as [->|Hrq]; [by eapply heard_last|].
    destruct (heard_other q _ es r Hh Hn Hr Hrq) as [E ->], (heard_other q _ es p Hh Hn Hp Hpq) as [_ ->]. rewrite E in Hne. by apply (ac_order _ _ _ Hac).
Qed.

Lemma graft_account q m' es : q ≠ [] → tree_map m' → is_Some (m' !! q) → ¬ dir_at m q → (∀ x, ¬ q `prefix_of` x → m' !! x = m !! x) →
  (dir_at m' q → ∀ x, above q x → m0 !! x = None ∧ (named x = true → of_path evs x = [])) → heard evs q (λ k, appears k = true) es → account m0 m' (evs ++ es).
Proof.
  intros Hq Hm' Hs Hnd Hout Hord Hh. pose proof (ac_tree _ _ _ Hac) as Hm. pose proof (tm_named m' Hm' q Hs) as Hn.
  assert (∀ p, above p q → dir_at m p) as Habove by (intros p Hp; apply (dir_same m' m); [symmetry; apply Hout; intros Hqp; by destruct (above_trans p q p Hp Hqp)|by apply (tm_above m' p q)]).
  assert (∀ x, above q x → is_Some (m' !! x) → dir_at m' q) as Hbelow by (intros x; by apply tm_above).
  assert (∀ p, dir_at m' p → named p = true) as Hnp by (intros p Hp; by apply (tm_named m' Hm'), dir_some).
  assert (∀ x, above q x → m !! x = None) as Hnone by (intros x; by apply tm_none_below).
  assert (∀ p, dir_at m' p → p = q ∨ above q p ∨ ¬ q `prefix_of` p ∧ dir_at m p) as Hwhere.
  { intros p Hp. destruct (decide (p = q)) as [|Hne]; [by left|right]. destruct (decide (q `prefix_of` p)) as [Hqp|Hqp]; [left; by split|right]. split; [done|]. by apply (dir_same m m' p (Hout p Hqp)). }
  destruct (heard_parts q _ es m' Hh Hq Hn) as (P1 & P2 & P3 & P4); [by intros k Hk ->|done| | |].
  { intros e He Hg. destruct (heard_same q _ es Hh) as [[-> [E _]]|(e' & _ & Hk & E & _)]; [by rewrite app_nil_r, E in He|].
    rewrite E, last_snoc in He. injection He as <-. by destruct (ev_kind e'). }
  { intros x Hne Hnx He Hx. destruct (decide (q `prefix_of` x)) as [Hqx|Hqx]; [|by rewrite Hout]. apply eq_None_not_Some. intros Hs'. assert (above q x) as Hab by by split.
    destruct (Hord (Hbelow x Hab Hs') x Hab) as [_ E]. by rewrite E in He. }
  assert (appeared_at (evs ++ es) q ∨ es = [] ∧ excused evs q) as Happ.
  { destruct (heard_same q _ es Hh) as [?|(e & _ & Hk & E & _)]; [by right|left]. exists e. rewrite E, last_shape_snoc, bool_decide_eq_false_2; [done|]. intros Em. by rewrite Em in Hk. }
  split; [done..| | | |].
  - intros x Hx. destruct (decide (q `prefix_of` x)) as [Hqx|Hqx].
    + destruct (m' !! x) as [b|] eqn:Eb.
      * destruct Happ as [Happ|[-> (_ & w & Hw & Habw & Happ)]]; [destruct (decide (x = q)) as [->|Hne]|].
        -- exists q. split; [done|]. left. split; [done|]. intros E. destruct Happ as (e & He & _). by rewrite E in He.
        -- exists q. split; [done|]. right. right. rewrite Eb. split_and!; [split; [done|congruence]|by eexists|done].
        -- exists w. split; [done|]. right. right. rewrite Eb, app_nil_r. split_and!; [by eapply above_trans|by eexists|done].
      * assert (above q x) as Hab by (split; [done|intros ->; rewrite Eb in Hs; by destruct Hs]). destruct (ac_changes _ _ _ Hac x) as (p & Hp & Hcase); [by rewrite Hnone|].
        exists p. split; [done|]. destruct Hcase as [[-> Hc]|[(Habp & Hne & Hndp)|(_ & Hsx & _)]]; [left; split; [done|by apply of_path_grows]| |by rewrite Hnone in Hsx; destruct Hsx].
        right. left. split_and!; [done|by apply of_path_grows|]. intros Hd. destruct (Hwhere p Hd) as [->|[Hqp|[_ ?]]]; [|destruct (Hord (Hbelow p Hqp (dir_some _ _ Hd)) x Hab) as [E _]; congruence|done].
        destruct (Hord Hd x Hab) as [E _]. congruence.
    + rewrite Hout in Hx by done. eapply accounted_other; [done|done|by apply (ac_changes _ _ _ Hac)|by apply Hout| |by intros [? _]].
      intros p Habp Hp Hp'. destruct (Hwhere p Hp') as [->|[Hqp|[_ ?]]]; [apply Hqx, Habp|apply Hqx; etrans; [apply Hqp|apply Habp]|done].
  - intros p x Hp Hap Hd Hab. destruct (Hwhere p Hd) as [->|[Hqp|[Hqp Hdp]]]; [by apply Hord|apply Hord; [by apply (Hbelow p), dir_some|by eapply above_trans, Hab]|].
    apply (ac_new _ _ _ Hac p x); [done| |done..]. assert (p ≠ q) as Hne by (by intros ->). unfold appeared_at in *. by destruct (heard_other q _ es p Hh Hn Hp Hne) as [<- _].
  - intros p Hd Hf. destruct (Hwhere p Hd) as [->|[Hqp|[_ Hdp]]].
    + destruct Happ as [(e & He & _)|[-> He]]; [intros E; by rewrite E in He|]. destruct Hf. intros d Hd'. by destruct (excused_new q He Habove) as [E _]; rewrite E in Hd'.
    + destruct Hf. intros d Hd'. by destruct (Hord (Hbelow p Hqp (dir_some _ _ Hd)) p Hqp) as [E _]; rewrite E in Hd'.
    + by apply of_path_grows, (ac_heard _ _ _ Hac).
  - intros r p Hr Hne Hab Hd. pose proof (Hnp p Hd) as Hp. assert (¬ q `prefix_of` p → dir_at m p) as Hdp by (intros ?; destruct (Hwhere p Hd) as [->|[[]|[]]]; done).
    destruct (decide (q `prefix_of` p)) as [Hqp|Hqp].
    { assert (dir_at m' q) as Hdq by by eapply tm_above_dir. assert (above q r) as Hqr by (split; [etrans; [exact Hqp|apply Hab]|intros ->; by destruct (above_trans p r p Hab Hqp)]).
      destruct (Hord Hdq r Hqr) as [_ E]. destruct (heard_other q _ es r Hh Hn Hr) as [E' _]; [intros ->; by destruct Hqr|]. by rewrite E', E in Hne. }
    destruct (decide (r = q)) as [->|Hrq]; [eapply heard_last; [done..|by apply Hdp|done|done]|]. assert (p ≠ q) as Hpq by (by intros ->).
    destruct (heard_other q _ es r Hh Hn Hr Hrq) as [E ->], (heard_other q _ es p Hh Hn Hp Hpq) as [_ ->]. rewrite E in Hne. apply (ac_order _ _ _ Hac); auto.
Qed.

Lemma echo_account q e : q ≠ [] → named q = true → m !! q = None → ev_path e = join q → goes (ev_kind e) = true → account m0 m (evs ++ [e]).
Proof.
  intros Hq Hn Hnone He Hk. pose proof (ac_tree _ _ _ Hac) as Hm. assert (heard evs q (λ k, goes k = true) [e]) as Hh by (right; by exists e).
  destruct (heard_parts q _ [e] m Hh Hq Hn) as (P1 & P2 & P3 & P4); [by intros k Hk' ->|done|done|done|].
  assert (∀ p, dir_at m p → named p = true ∧ p ≠ q) as Hd by (intros p Hp; split; [by apply (tm_named m Hm), dir_some|intros ->; by apply none_not_dir in Hp]).
  split; [done..| | | |].
  - intros x Hx. eapply accounted_other; [done|done|by apply (ac_changes _ _ _ Hac)|done|done|]. intros Hqx Hs. by rewrite (tm_none_below m q x Hm (none_not_dir m q Hnone) Hqx) in Hs; destruct Hs.
  - intros p x Hp Hap Hdp Hab. destruct (Hd p Hdp) as [_ Hne]. apply (ac_new _ _ _ Hac p x); [done| |done..]. unfold appeared_at in *. by destruct (heard_other q _ [e] p Hh Hn Hp Hne) as [<- _].
  - intros p Hdp Hf. by apply of_path_grows, (ac_heard _ _ _ Hac).
  - intros r p Hr Hne Hab Hdp. destruct (Hd p Hdp) as [Hp Hpq]. destruct (decide (r = q)) as [->|Hrq]; [by eapply heard_last|].
    destruct (heard_other q _ [e] r Hh Hn Hr Hrq) as [E ->], (heard_other q _ [e] p Hh Hn Hp Hpq) as [_ ->]. rewrite E in Hne. by apply (ac_order _ _ _ Hac).
Qed.

Lemma small_account m' es : small_step m0 m evs m' es → account m0 m' (evs ++ es).
Proof. intros [q es' Hq Hs Hh|q m1 es' Hq Ht Hs Hnd Hout Hord Hh|q a b es' Hq Hb Hab Hord Hh|q e Hq Hn Hnone He Hk]; [by apply cut_account|by eapply graft_account|by eapply touch_account|by eapply echo_account]. Qed.
End small.

Lemma account_start m0 : tree_map m0 → account m0 m0 [].
Proof.
  intros Hm. split; [done|..].
  - intros e He. by apply not_elem_of_nil in He.
  - intros e He. by apply not_elem_of_nil in He.
  - intros q e _ He. done.
  - intros q Hq. done.
  - intros p x _ (e & He & _). done.
  - intros p (d & Hd & Hdir) Hf. destruct Hf. intros d' Hd'. congruence.
  - intros r p _ Hr. done.
Qed.

(** ** Changes of the served tree *)

Inductive Touch := Stored | ClosedAfterWriting | AttributesSet.

(** In the directory [d]: the entry [s] is made, touched or removed, or renamed to
    [s'] in [d']. *)
Inductive Change :=
| Made (d : list bytes) (s : bytes) (a : Attributes)
| Touched (d : list bytes) (s : bytes) (a : Attributes) (how : Touch)
| Gone (d : list bytes) (s : bytes)
| Moved (d : list bytes) (s : bytes) (d' : list bytes) (s' : bytes) (cookie : Z).

Definition dir_here (m : pathmap) (q : list bytes) : bool := match m !! q with Some d => s_dir d | None => false end.

#[global] Instance above_dec p q : Decision (above p q).
Proof. unfold above. apply _. Defined.

(** What the operating system makes of them: only empty directories are removed,
    and a rename replaces nothing but a file, by a file.  (It may also replace an
    empty directory by a directory; [Watcher.replaced_reported_removed] is that case.) *)
Definition apply_change (m : pathmap) (ch : Change) : option pathmap :=
  match ch with
  | Made d s a => if dir_here m d && valid_name s && bool_decide (m !! (d ++ [s]) = None) then Some (<[d ++ [s] := a]> m) else None
  | Touched d s a _ => b ← m !! (d ++ [s]); if bool_decide (a_kind a = a_kind b) then Some (<[d ++ [s] := a]> m) else None
  | Gone d s => _ ← m !! (d ++ [s]); if bool_decide (map_Forall (λ x _, ¬ above (d ++ [s]) x) m) then Some (s_cut (d ++ [s]) m) else None
  | Moved d s d' s' _ =>
      a ← m !! (d ++ [s]);
      let free := match m !! (d' ++ [s']) with None => true | Some b => negb (s_dir a) && negb (s_dir b) end in
      if dir_here m d' && valid_name s' && free && negb (bool_decide ((d ++ [s]) `prefix_of` d' ++ [s']))
      then Some (s_move (d ++ [s]) d' s' (s_cut (d' ++ [s']) m)) else None
  end.

(** A directory appears only where there was nothing below, on the old disk and in
    what was said since; and one in the place of a file is not touched itself. *)
Definition fresh_place (m0 : pathmap) (evs : list FsEvent) (q : list bytes) : Prop := ∀ x, above q x → m0 !! x = None ∧ (named x = true → of_path evs x = []).
Definition orderly (m0 m : pathmap) (evs : list FsEvent) (ch : Change) : Prop :=
  match ch with
  | Made d s a => s_dir a = true → fresh_place m0 evs (d ++ [s])
  | Touched d s a _ => s_dir a = true → no_file_at m0 (d ++ [s])
  | Gone _ _ => True
  | Moved d s d' s' _ => dir_at m (d ++ [s]) → fresh_place m0 evs (d' ++ [s'])
  end.

(** ** What a platform's watcher says

    An event or none for the entry of a change, two for a move; and the end of a
    directory may be said once more. *)
Definition repeats (q : list bytes) (es : list FsEvent) : Prop := es = [] ∨ ∃ e, es = [e] ∧ ev_path e = join q ∧ goes (ev_kind e) = true.

Definition conveys (evs : list FsEvent) (ch : Change) (es : list FsEvent) : Prop :=
  match ch with
  | Made d s _ => heard evs (d ++ [s]) (λ k, appears k = true) es
  | Touched d s _ _ => heard evs (d ++ [s]) (λ k, k = EvModified) es
  | Gone d s => ∃ es1 es2, es = es1 ++ es2 ∧ heard evs (d ++ [s]) (λ k, goes k = true) es1 ∧ repeats (d ++ [s]) es2
  | Moved d s d' s' _ => ∃ es1 es2 es3, es = (es1 ++ es2) ++ es3 ∧ heard evs (d ++ [s]) (λ k, goes k = true) es1
      ∧ heard (evs ++ es1) (d' ++ [s']) (λ k, appears k = true) es2 ∧ repeats (d ++ [s]) es3
  end.

Definition in_named (ch : Change) : Prop :=
  match ch with
  | Made d s _ | Touched d s _ _ | Gone d s => named (d ++ [s]) = true
  | Moved d s d' s' _ => named (d ++ [s]) = true ∧ named (d' ++ [s']) = true
  end.

(** What a watcher says of a change of [m], after [evs]. *)
Class Teller (said : pathmap → list FsEvent → Change → list FsEvent → Prop) :=
  said_conveys : ∀ m evs ch es, in_named ch → said m evs ch es → conveys evs ch es.

(** The disk and the events after some changes of [m0]. *)
Inductive history (said : pathmap → list FsEvent → Change → list FsEvent → Prop) (m0 : pathmap) : pathmap → list FsEvent → Prop :=
| history_start : history said m0 m0 []
| history_change m evs ch m' es : history said m0 m evs → apply_change m ch = Some m' → orderly m0 m evs ch → said m evs ch es → history said m0 m' (evs ++ es).

(** ** Every change is accounted for *)

Lemma dir_here_at m q : dir_here m q = true ↔ dir_at m q.
Proof. unfold dir_here, dir_at. destruct (m !! q) as [d|]; split; [intros ?; by exists d|by intros (d' & [= <-] & ?)|done|by intros (d' & ? & _)]. Qed.

Lemma snoc_not_nil (d : list bytes) s : d ++ [s] ≠ [].
Proof. by destruct d. Qed.
#[local] Hint Resolve snoc_not_nil : core.

Lemma insert_tree m d s a : tree_map m → dir_at m d → valid_name s = true → m !! (d ++ [s]) = None → tree_map (<[d ++ [s] := a]> m).
Proof.
  intros Hm Hd Hs Hnone. assert (∀ x, dir_at m x → dir_at (<[d ++ [s] := a]> m) x) as Hdir.
  { intros x (b & Hb & ?). exists b. split; [|done]. rewrite lookup_insert_ne; [done|]. intros <-. congruence. }
  split; [apply Hdir, Hm| |].
  - intros q t Hq. apply Hdir. destruct (decide (q ++ [t] = d ++ [s])) as [[-> _]%app_inj_tail|Hne]; [done|]. rewrite lookup_insert_ne in Hq by done. by apply (tm_parent m Hm q t).
  - intros q Hq. destruct (decide (q = d ++ [s])) as [->|Hne]; [apply named_child; [by apply (tm_named m Hm), dir_some|done]|]. rewrite lookup_insert_ne in Hq by done. by apply (tm_named m Hm).
Qed.

Lemma made_account m0 m evs d s a m' es : account m0 m evs → apply_change m (Made d s a) = Some m' → orderly m0 m evs (Made d s a) →
  conveys evs (Made d s a) es → account m0 m' (evs ++ es).
Proof.
  intros Hac Ha Ho Hs. cbn [apply_change] in Ha. destruct (dir_here m d && valid_name s && bool_decide (m !! (d ++ [s]) = None)) eqn:E; [|done]. injection Ha as <-.
  rewrite !andb_true_iff, dir_here_at, bool_decide_eq_true in E. destruct E as [[Hd Hv] Hnone]. pose proof (ac_tree _ _ _ Hac) as Hm.
  apply (small_account m0 m evs Hac), (small_graft _ _ _ (d ++ [s])).
  - done.
  - by apply insert_tree.
  - rewrite lookup_insert_eq. by eexists.
  - by apply none_not_dir.
  - intros x Hx. apply lookup_insert_ne. by intros <-.
  - intros (b & Hb & Hdir). rewrite lookup_insert_eq in Hb. injection Hb as <-. by apply Ho.
  - exact Hs.
Qed.

Lemma touched_account m0 m evs d s a how m' es : account m0 m evs → apply_change m (Touched d s a how) = Some m' → orderly m0 m evs (Touched d s a how) →
  conveys evs (Touched d s a how) es → account m0 m' (evs ++ es).
Proof.
  intros Hac Ha Ho Hs. cbn [apply_change] in Ha. destruct (m !! (d ++ [s])) as [b|] eqn:Eb; [|done]. cbn in Ha. case_bool_decide as Ek; [|done]. injection Ha as <-.
  apply (small_account m0 m evs Hac), (small_touch _ _ _ (d ++ [s]) a b); [done|done|unfold s_dir; by rewrite Ek|exact Ho|exact Hs].
Qed.

Lemma repeats_account m0 m evs q es : account m0 m evs → repeats q es → q ≠ [] → named q = true → m !! q = None → account m0 m (evs ++ es).
Proof.
  intros Hac [->|(e & -> & He & Hk)] Hq Hn Hnone; [by rewrite app_nil_r|]. by apply (small_account m0 m evs Hac), (small_echo _ _ _ q).
Qed.

Lemma gone_account m0 m evs d s m' es : account m0 m evs → apply_change m (Gone d s) = Some m' → conveys evs (Gone d s) es → account m0 m' (evs ++ es).
Proof.
  intros Hac Ha (es1 & es2 & -> & Hs1 & Hs2). cbn [apply_change] in Ha. destruct (m !! (d ++ [s])) as [b|] eqn:Eb; [|done]. cbn in Ha. case_bool_decide as Ek; [|done]. injection Ha as <-.
  pose proof (ac_tree _ _ _ Hac) as Hm. assert (named (d ++ [s]) = true) as Hn by (apply (tm_named m Hm); by eexists). rewrite app_assoc.
  eapply repeats_account; [|exact Hs2|done|done|by apply s_cut_none]. apply (small_account m0 m evs Hac), small_cut; [done|by eexists|exact Hs1].
Qed.

Section moved.
Context (m0 m : pathmap) (evs : list FsEvent) (d : list bytes) (s : bytes) (d' : list bytes) (s' : bytes) (a : Attributes).
Abbreviation p := (d ++ [s]).
Abbreviation q := (d' ++ [s']).
Hypothesis Hac : account m0 m evs.
Hypothesis Hp : m !! p = Some a.
Hypothesis Hd' : dir_at m d'.
Hypothesis Hs' : valid_name s' = true.
Hypothesis Hfree : match m !! q with None => true | Some b => negb (s_dir a) && negb (s_dir b) end = true.
Hypothesis Hpq : ¬ p `prefix_of` q.
Let m' := s_move p d' s' (s_cut q m).

Lemma target_no_dir : ¬ dir_at m q.
Proof. intros (b & Hb & Hdir). rewrite Hb, Hdir in Hfree. by rewrite andb_false_r in Hfree. Qed.

Lemma source_not_below : ¬ q `prefix_of` p.
Proof.
  intros Hq. destruct (decide (q = p)) as [E|Hne]; [apply Hpq; by rewrite E|]. apply target_no_dir, (tm_above m q p (ac_tree _ _ _ Hac)); [by split|by eexists].
Qed.

Lemma snoc_app (r : list bytes) : d' ++ s' :: r = q ++ r.
Proof. by rewrite <- app_assoc. Qed.

Lemma moved_lookup y : m' !! y = if decide (q `prefix_of` y) then m !! (p ++ drop (length q) y) else if decide (p `prefix_of` y) then None else m !! y.
Proof.
  assert (∀ b, m' !! y = Some b ↔ ∃ x, s_cut q m !! x = Some b ∧ y = moved_key p d' s' x) as Hm.
  { intros b. apply s_move_lookup. intros x [c Hc]. rewrite s_cut_lookup in Hc. by case_decide. }
  apply option_eq. intros b. rewrite Hm. unfold moved_key. case_decide as Eq.
  - destruct Eq as [r ->]. rewrite drop_app_length. split.
    + intros (x & Hx & Ex). rewrite s_cut_lookup in Hx. destruct (decide (q `prefix_of` x)) as [|Eqx]; [done|]. case_decide as Epx; [|subst x; by destruct Eqx; eexists].
      destruct Epx as [u ->]. rewrite drop_app_length, (snoc_app u) in Ex. by apply app_inv_head in Ex as ->.
    + intros Hb. exists (p ++ r). rewrite decide_True by by eexists. rewrite drop_app_length, (snoc_app r). split; [|done]. rewrite s_cut_other; [done|]. intros Hq.
      destruct (prefix_weak_total p q (p ++ r)) as [?|?]; [by eexists|done|done|by apply source_not_below].
  - case_decide as Ep.
    + split; [|done]. intros (x & Hx & Ex). case_decide as Epx; [|by subst x]. subst y. destruct Eq. rewrite (snoc_app (drop (length p) x)). by eexists.
    + split; [|intros Hb; exists y; rewrite decide_False by done; split; [by rewrite s_cut_other|done]]. intros (x & Hx & Ex). case_decide as Epx; [subst y; destruct Eq; rewrite (snoc_app (drop (length p) x)); by eexists|]. subst x.
      by rewrite s_cut_other in Hx.
Qed.

Lemma moved_outside y : ¬ q `prefix_of` y → m' !! y = s_cut p m !! y.
Proof. intros Hq. rewrite moved_lookup, decide_False by done. by rewrite s_cut_lookup. Qed.

Lemma moved_target : m' !! q = Some a.
Proof. rewrite moved_lookup, decide_True by done. rewrite drop_all. by rewrite app_nil_r. Qed.

Lemma moved_stays_dir y : dir_at m y → ¬ q `prefix_of` y → ¬ p `prefix_of` y → dir_at m' y.
Proof. intros Hy Hq Hn. apply (dir_same m); [|done]. rewrite moved_lookup. by rewrite !decide_False. Qed.

Lemma moved_tree : tree_map m'.
Proof.
  pose proof (ac_tree _ _ _ Hac) as Hm. assert (∀ x : list bytes, ¬ x ++ [s'] `prefix_of` x) as Hlong by (intros x Hx%prefix_length; rewrite length_app in Hx; cbn in Hx; lia).
  assert (¬ p `prefix_of` d') as Hpd by (intros Hx; apply Hpq; by apply prefix_app_r).
  split.
  - apply moved_stays_dir; [apply Hm|by intros E%prefix_nil_inv; destruct d'|by intros E%prefix_nil_inv; destruct d].
  - intros y t Hy. rewrite moved_lookup in Hy. case_decide as Eq.
    + destruct Eq as [r Er]. destruct r as [|z r _] using rev_ind; [rewrite app_nil_r in Er; apply app_inj_tail in Er as [-> _]; by apply moved_stays_dir|].
      rewrite app_assoc in Er. apply app_inj_tail in Er as [-> ->]. rewrite <- (app_assoc q r [z]), drop_app_length, (app_assoc p r [z]) in Hy. destruct (tm_parent m Hm _ _ Hy) as (b & Hb & Hdir).
      exists b. split; [|done]. rewrite moved_lookup, decide_True by by eexists. by rewrite drop_app_length.
    + case_decide as Ep; [by destruct Hy|]. apply moved_stays_dir; [by apply (tm_parent m Hm y t)|intros Hq'; by apply Eq, prefix_app_r|intros Hp'; by apply Ep, prefix_app_r].
  - intros y Hy. rewrite moved_lookup in Hy. case_decide as Eq; [|case_decide; [by destruct Hy|by apply (tm_named m Hm)]]. destruct Eq as [r ->]. rewrite drop_app_length in Hy.
    apply (tm_named m Hm) in Hy. rewrite named_app in Hy. apply andb_true_iff in Hy as [_ Hr]. rewrite named_app, Hr, andb_true_r. apply named_child; [by apply (tm_named m Hm), dir_some|done].
Qed.

Lemma moved_account es cookie : orderly m0 m evs (Moved d s d' s' cookie) → conveys evs (Moved d s d' s' cookie) es → account m0 m' (evs ++ es).
Proof.
  intros Ho (es1 & es2 & es3 & -> & Hh1 & Hh2 & Hs3). pose proof (ac_tree _ _ _ Hac) as Hm. assert (named p = true) as Hn by (apply (tm_named m Hm); by eexists).
  assert (account m0 (s_cut p m) (evs ++ es1)) as Hac1 by (apply (small_account m0 m evs Hac), small_cut; [done|by eexists|exact Hh1]).
  rewrite !app_assoc. eapply (repeats_account _ _ _ p); [|exact Hs3|done|done|].
  - apply (small_account m0 _ _ Hac1), (small_graft _ _ _ q); [done|exact moved_tree|rewrite moved_target; by eexists| |exact moved_outside| |exact Hh2].
    + intros [Hq _]%s_cut_dir. by apply target_no_dir.
    + intros (b & Hb & Hdir) x Hx. rewrite moved_target in Hb. injection Hb as <-. destruct (Ho (ex_intro _ a (conj Hp Hdir)) x Hx) as [E1 E2]. split; [done|].
      intros Hx'. destruct (heard_other evs p _ es1 x Hh1 Hn Hx') as [-> _]; [|by apply E2]. intros ->. apply source_not_below, Hx.
  - rewrite moved_outside by exact source_not_below. by apply s_cut_none.
Qed.
End moved.

Lemma change_named m ch m' : tree_map m → apply_change m ch = Some m' → in_named ch.
Proof.
  intros Hm Ha. destruct ch as [d s a|d s a how|d s|d s d' s' cookie]; cbn [apply_change in_named] in *.
  - destruct (_ && _) eqn:E; [|done]. rewrite !andb_true_iff, dir_here_at in E. destruct E as [[Hd Hv] _]. apply named_child; [by apply (tm_named m Hm), dir_some|done].
  - destruct (m !! (d ++ [s])) as [b|] eqn:Eb; [|done]. apply (tm_named m Hm). by eexists.
  - destruct (m !! (d ++ [s])) as [b|] eqn:Eb; [|done]. apply (tm_named m Hm). by eexists.
  - destruct (m !! (d ++ [s])) as [b|] eqn:Eb; [|done]. cbn [mbind option_bind] in Ha. destruct (_ && _) eqn:E; [|done]. rewrite !andb_true_iff, dir_here_at in E. destruct E as [[[Hd Hv] _] _].
    split; [apply (tm_named m Hm); by eexists|]. apply named_child; [by apply (tm_named m Hm), dir_some|done].
Qed.

Lemma change_account m0 m evs ch m' es : account m0 m evs → apply_change m ch = Some m' → orderly m0 m evs ch → conveys evs ch es → account m0 m' (evs ++ es).
Proof.
  intros Hac Ha Ho Hs. destruct ch as [d s a|d s a how|d s|d s d' s' cookie].
  - by eapply made_account.
  - by eapply touched_account.
  - by eapply gone_account.
  - cbn [apply_change] in Ha. destruct (m !! (d ++ [s])) as [a|] eqn:Ea; [|done]. cbn [mbind option_bind] in Ha. destruct (_ && _) eqn:E; [|done]. injection Ha as <-.
    rewrite !andb_true_iff, dir_here_at, negb_true_iff, bool_decide_eq_false in E. destruct E as [[[Hd Hv] Hfree] Hpq]. by eapply moved_account.
Qed.

Lemma history_account `{Teller said} m0 m evs : tree_map m0 → history said m0 m evs → account m0 m evs.
Proof.
  intros Hm. induction 1 as [|m evs ch m' es _ IH Ha Ho Hs]; [by apply account_start|]. eapply change_account; [exact IH|exact Ha|exact Ho|].
  eapply said_conveys; [|exact Hs]. by eapply change_named, Ha; apply (ac_tree _ _ _ IH).
Qed.

(** ** The records of inotify *)

(** The record of an entry, in the watch of its directory: the name padded with
    zeros to a multiple of the header; and the record of a watch on itself. *)
Definition in_record (wd mask : Z) (dir : bool) (cookie : Z) (s : bytes) : InEvent :=
  mkIn wd (Z.lor mask (if dir then IN_ISDIR else 0)) cookie (16 * (zlen s / 16 + 1)) s.
Definition self_record (wd mask : Z) : InEvent := mkIn wd mask 0 0 [].

Definition touch_mask (how : Touch) : Z := match how with Stored => IN_MODIFY | ClosedAfterWriting => IN_CLOSE_WRITE | AttributesSet => IN_ATTRIB end.

Section records.
Context {K : Type} `{Inotify K} (fuel : nat) (root : bytes) (root_dev : Z).

(** The watcher's answer to a record whose watch stands for the directory [d]. *)
Definition says (d : list bytes) (r : InEvent) (es : list FsEvent) : Prop :=
  ∃ w : Watches K, wd_to_dir w !! in_wd r = Some (join d) ∧ es = (handle_event fuel root root_dev w r).2.

(** The record on an entry of [d] is said, unless [d] is not watched yet. *)
Definition entry_said (evs : list FsEvent) (d : list bytes) (s : bytes) (r : InEvent) (es : list FsEvent) : Prop :=
  says d r es ∨ es = [] ∧ excused evs (d ++ [s]).
(** A directory that goes or moves also has a record of its own, if it is watched
    still. *)
Definition self_said (dir : bool) (q : list bytes) (r : InEvent) (es : list FsEvent) : Prop := es = [] ∨ dir = true ∧ says q r es.

(** The watcher on Linux. *)
Definition linux_said (m : pathmap) (evs : list FsEvent) (ch : Change) (es : list FsEvent) : Prop :=
  match ch with
  | Made d s a => ∃ wd, entry_said evs d s (in_record wd IN_CREATE (s_dir a) 0 s) es
  | Touched d s a how => ∃ wd, entry_said evs d s (in_record wd (touch_mask how) (s_dir a) 0 s) es
  | Gone d s => ∃ wd wd' es1 es2, es = es1 ++ es2
      ∧ entry_said evs d s (in_record wd IN_DELETE (dir_here m (d ++ [s])) 0 s) es1
      ∧ self_said (dir_here m (d ++ [s])) (d ++ [s]) (self_record wd' IN_DELETE_SELF) es2
  | Moved d s d' s' cookie => ∃ wd wd' wd2 es1 es2 es3, es = (es1 ++ es2) ++ es3
      ∧ entry_said evs d s (in_record wd IN_MOVED_FROM (dir_here m (d ++ [s])) cookie s) es1
      ∧ entry_said (evs ++ es1) d' s' (in_record wd' IN_MOVED_TO (dir_here m (d ++ [s])) cookie s') es2
      ∧ self_said (dir_here m (d ++ [s])) (d ++ [s]) (self_record wd2 IN_MOVE_SELF) es3
  end.

Lemma join_rel_join d s : named d = true → join_rel (join d) s = join (d ++ [s]).
Proof.
  intros Hd. destruct (decide (d = [])) as [->|Hne]; [done|]. unfold join_rel. destruct (join_ends d Hne Hd) as [(c & x & E & _) _]. rewrite bool_decide_eq_false_2 by (rewrite E; done).
  by rewrite join_app.
Qed.

Definition entry_kind (mask : Z) : FsEventKind :=
  if negb (Z.land mask (Z.lor IN_CREATE IN_MOVED_TO) =? 0) then if negb (Z.land mask IN_MOVED_TO =? 0) then EvRenamedTo else EvCreated
  else if negb (Z.land mask (Z.lor IN_DELETE IN_MOVED_FROM) =? 0) then if negb (Z.land mask IN_MOVED_FROM =? 0) then EvRenamedFrom else EvRemoved
  else EvModified.

(** The watcher says of an entry what its record says. *)
Lemma says_entry d s wd mask dir cookie es : mask ∈ [IN_CREATE; IN_MOVED_TO; IN_DELETE; IN_MOVED_FROM; IN_MODIFY; IN_CLOSE_WRITE; IN_ATTRIB] → named d = true →
  says d (in_record wd mask dir cookie s) es → ∃ e, es = [e] ∧ ev_path e = join (d ++ [s]) ∧ ev_kind e = entry_kind mask.
Proof.
  intros Hmask Hd (w & Hw & ->). pose proof (zlen_nonneg s) as Hz. pose proof (Z.div_pos (zlen s) 16 Hz ltac:(lia)) as Hdiv.
  unfold handle_event. rewrite Hw. cbn [in_len in_record in_name]. rewrite (proj2 (Z.eqb_neq (16 * (zlen s / 16 + 1)) 0)) by lia. rewrite join_rel_join by done.
  unfold has, in_record. cbn [in_mask in_cookie]. rewrite !elem_of_cons in Hmask.
  destruct Hmask as [->|[->|[->|[->|[->|[->|[->|Hn]]]]]]]; [..|by apply not_elem_of_nil in Hn]; destruct dir; cbn; eexists; (split_and!; reflexivity).
Qed.

Lemma says_self q wd mask es : mask ∈ [IN_DELETE_SELF; IN_MOVE_SELF] → named q = true → q ≠ [] → says q (self_record wd mask) es →
  ∃ e, es = [e] ∧ ev_path e = join q ∧ goes (ev_kind e) = true.
Proof.
  intros Hmask Hn Hq (w & Hw & ->). unfold handle_event. rewrite Hw. destruct (join_ends q Hq Hn) as [(c & x & E & _) _]. rewrite E. rewrite bool_decide_eq_false_2 by done.
  rewrite !elem_of_cons in Hmask. destruct Hmask as [->|[->|Hm]]; [..|by apply not_elem_of_nil in Hm]; eexists; (split_and!; reflexivity).
Qed.

Lemma entry_heard evs d s wd mask dir cookie es (P : FsEventKind → Prop) : entry_said evs d s (in_record wd mask dir cookie s) es → mask ∈ [IN_CREATE; IN_MOVED_TO; IN_DELETE; IN_MOVED_FROM; IN_MODIFY; IN_CLOSE_WRITE; IN_ATTRIB] →
  named d = true → P (entry_kind mask) → heard evs (d ++ [s]) P es.
Proof. intros [Hs|[-> ?]] Hm Hd HP; [right|by left]. destruct (says_entry d s wd mask dir cookie es Hm Hd Hs) as (e & -> & ? & Hk). exists e. by rewrite Hk. Qed.

Lemma self_repeats q dir wd mask es : self_said dir q (self_record wd mask) es → mask ∈ [IN_DELETE_SELF; IN_MOVE_SELF] → named q = true → q ≠ [] → repeats q es.
Proof. intros [->|[_ Hs]] Hm Hn Hq; [by left|right]. by eapply says_self. Qed.

#[global] Instance linux_teller : Teller linux_said.
Proof.
  intros m evs ch es Hn Hs. destruct ch as [d s a|d s a how|d s|d s d' s' cookie]; cbn [linux_said in_named conveys] in *.
  - destruct Hs as (wd & Hs). eapply entry_heard; [exact Hs|set_solver|by eapply named_parent|done].
  - destruct Hs as (wd & Hs). eapply entry_heard; [exact Hs|destruct how; set_solver|by eapply named_parent|by destruct how].
  - destruct Hs as (wd & wd' & es1 & es2 & -> & Hs1 & Hs2). exists es1, es2. split_and!; [done| |].
    + eapply entry_heard; [exact Hs1|set_solver|by eapply named_parent|done].
    + by eapply self_repeats; [exact Hs2|left|..].
  - destruct Hs as (wd & wd' & wd2 & es1 & es2 & es3 & -> & Hs1 & Hs2 & Hs3), Hn as [Hn Hn']. exists es1, es2, es3. split_and!; [done| | |].
    + eapply entry_heard; [exact Hs1|set_solver|by eapply named_parent|done].
    + eapply entry_heard; [exact Hs2|set_solver|by eapply named_parent|done].
    + eapply self_repeats; [exact Hs3|set_solver|done|done].
Qed.
End records.

(** ** The records of ReadDirectoryChangesW

    The names are relative to the watched root, with backslashes; a recursive watch
    leaves none out. *)
Definition win_name (q : list bytes) : bytes := (λ c, if c =? c_slash then c_backslash else c) <$> join q.
Definition win_records_of (ch : Change) : list (Z * bytes) :=
  match ch with
  | Made d s _ => [(FILE_ACTION_ADDED, win_name (d ++ [s]))]
  | Touched d s _ _ => [(FILE_ACTION_MODIFIED, win_name (d ++ [s]))]
  | Gone d s => [(FILE_ACTION_REMOVED, win_name (d ++ [s]))]
  | Moved d s d' s' _ => [(FILE_ACTION_RENAMED_OLD_NAME, win_name (d ++ [s])); (FILE_ACTION_RENAMED_NEW_NAME, win_name (d' ++ [s']))]
  end.

(** A valid name has no separator of its own. *)
Lemma join_no_backslash q : named q = true → Forall (λ c, c ≠ c_backslash) (join q).
Proof.
  assert (∀ s, valid_name s = true → Forall (λ c, c ≠ c_backslash) s) as Hs.
  { intros s Hv. apply Forall_forall. intros c Hc ->. unfold valid_name in Hv. destruct (_ || _); [done|]. rewrite forallb_forall in Hv. by specialize (Hv c_backslash (proj1 (list_elem_of_In _ _) Hc)). }
  induction q as [|s q IH]; [constructor|]. cbn [named forallb]. rewrite andb_true_iff. intros [Hv Hq]. cbn [join]. destruct q as [|s' q']; [by apply Hs|].
  apply Forall_app. split; [by apply Hs|]. constructor; [done|by apply IH].
Qed.

Lemma slashes_win_name q : named q = true → slashes (win_name q) = join q.
Proof.
  intros Hn%join_no_backslash. unfold slashes, win_name. rewrite <- list_fmap_compose. induction Hn as [|c l Hc _ IH]; [done|]. rewrite fmap_cons, IH. f_equal. cbn.
  destruct (c =? c_slash) eqn:E; [apply Z.eqb_eq in E; by subst c|]. by rewrite (proj2 (Z.eqb_neq c c_backslash)).
Qed.

(** The watcher on Windows, whatever its cookies stand at. *)
Definition win_said (m : pathmap) (evs : list FsEvent) (ch : Change) (es : list FsEvent) : Prop :=
  ∃ c, es = (dispatch_all c (win_records_of ch)).2.

Lemma dispatch_one_event c action path : (dispatch_one c action path).2 = mkEvent
  (if action =? FILE_ACTION_ADDED then EvCreated else if action =? FILE_ACTION_REMOVED then EvRemoved else if action =? FILE_ACTION_MODIFIED then EvModified
   else if action =? FILE_ACTION_RENAMED_OLD_NAME then EvRenamedFrom else if action =? FILE_ACTION_RENAMED_NEW_NAME then EvRenamedTo else EvModified)
  (slashes path) (ev_cookie (dispatch_one c action path).2).
Proof. unfold dispatch_one. repeat case_match; simplify_eq; done. Qed.

#[global] Instance win_teller : Teller win_said.
Proof.
  intros m evs ch es Hn (c & ->).
  assert (∀ q c action (K : FsEventKind → Prop) evs, named q = true → K (ev_kind (dispatch_one c action (win_name q)).2) → heard evs q K [(dispatch_one c action (win_name q)).2]) as Hone.
  { intros q c' action K evs' Hq HK. right. eexists. split_and!; [done| |exact HK]. rewrite dispatch_one_event. cbn [ev_path]. by apply slashes_win_name. }
  destruct ch as [d s a|d s a how|d s|d s d' s' cookie]; cbn [win_records_of in_named conveys dispatch_all] in *.
  1,2: destruct (dispatch_one c _ _) as [c' e] eqn:E; cbn [snd]; change e with ((c', e).2); rewrite <- E; apply Hone; [done|by rewrite dispatch_one_event].
  - destruct (dispatch_one c _ _) as [c' e] eqn:E. cbn [snd]. exists [e], []. split_and!; [done| |by left]. change e with ((c', e).2). rewrite <- E. apply Hone; [done|by rewrite dispatch_one_event].
  - destruct Hn as [Hn Hn']. destruct (dispatch_one c _ _) as [c' e] eqn:E. destruct (dispatch_one c' _ _) as [c2 e2] eqn:E2. cbn [snd]. exists [e], [e2], []. split_and!; [done| | |by left].
    + change e with ((c', e).2). rewrite <- E. apply Hone; [done|by rewrite dispatch_one_event].
    + change e2 with ((c2, e2).2). rewrite <- E2. apply Hone; [done|by rewrite dispatch_one_event].
Qed.

(** The watchers there are, for an agent that serves [root]. *)
Inductive watcher_on (root : bytes) : (pathmap → list FsEvent → Change → list FsEvent → Prop) → Prop :=
| on_linux (K : Type) `{Inotify K} (fuel : nat) (root_dev : Z) : watcher_on root (linux_said (K := K) fuel root root_dev)
| on_windows : watcher_on root win_said.

Lemma watcher_teller root said : watcher_on root said → Teller said.
Proof. intros [K ? fuel root_dev|]; apply _. Qed.

(** ** What was told *)

(** A disk all of which is served: nothing is ignored, a device, or on another
    filesystem, and every directory can be listed. *)
Record plain `{FileSystem F} (cfg : Config) (fs : F) (D : pathmap) : Prop := {
  pl_all : ∀ q st, q ≠ [] → named q = true → fs_lstat fs (full (cfg_root cfg) q) = Some st → is_Some (D !! q);
  pl_open : ∀ p, dir_at D p → walked fs (cfg_root cfg) (cfg_skip cfg) (cfg_device cfg fs) p
}.

Lemma steady_tree `{FileSystem F} cfg (fs : F) E D : steady cfg fs E D → tree_map D.
Proof.
  intros Hsd. split.
  - exists kImplicitDirectory. split; [|done]. by eapply disk_root.
  - intros q s Hq. by eapply (disk_parent cfg fs E D Hsd q s).
  - intros q [a Ha]. destruct (decide (q = [])) as [->|Hne]; [done|]. apply (sd_named _ _ _ _ Hsd q a). by apply (disk_at cfg fs E D Hsd q a Hne).
Qed.

Lemma account_told `{FileSystem F} cfg (fs : F) E D m0 evs : steady cfg fs E D → plain cfg fs D → tree_map m0 → account m0 D evs →
  (∀ e q, e ∈ evs → ev_path e = join q → named q = true → is_ignored cfg (join q) = false) → told cfg fs D evs m0.
Proof.
  intros Hsd Hpl Hm0 Hac Hclear.
  assert (∀ q st, q ≠ [] → named q = true → fs_lstat fs (full (cfg_root cfg) q) = Some st → ∃ a p d, walked fs (cfg_root cfg) (cfg_skip cfg) (cfg_device cfg fs) p ∧ found_in fs (cfg_root cfg) (cfg_skip cfg) (cfg_device cfg fs) p q a d) as Hfound.
  { intros q st Hq Hn Hst. destruct (pl_all _ _ _ Hpl q st Hq Hn Hst) as [a Ha]. apply (disk_at cfg fs E D Hsd q a Hq) in Ha as (p & d & Hp & Hf). eauto. }
  assert (∀ q, of_path evs q ≠ [] → named q = true → is_ignored cfg (join q) = false) as Hcl.
  { intros q Hne Hn. destruct (of_path evs q) as [|e l] eqn:Ee; [done|]. assert (e ∈ of_path evs q) as [Hp He]%list_elem_of_filter by (rewrite Ee; left). by apply (Hclear e q). }
  split.
  - intros e He. destruct (ac_paths _ _ _ Hac e He) as (q & Hq & Hn & Ep). exists q. split; [|done]. split; [done|]. destruct q as [|s p _] using rev_ind; [done|]. exists p, s. split; [done|].
    intros st Hst. destruct (Hfound _ _ Hq Hn Hst) as (a & p' & d & Hp' & t & Ht & [-> ->]%app_inj_tail & _). done.
  - intros e q st He Ep Hn Hst. destruct (ac_paths _ _ _ Hac e He) as (q' & Hq' & Hn' & Ep'). assert (q' = q) as -> by (apply join_named_inj; congruence).
    destruct (Hfound q st Hq' Hn Hst) as (a & p & d & _ & s & _ & _ & Hat). unfold entry_at in Hat. rewrite Hst in Hat. cbn in Hat. case_bool_decide; [done|done].
  - intros q e. apply (ac_gone _ _ _ Hac).
  - intros q e a _ _ _ Ha Hd. apply (pl_open _ _ _ Hpl). by exists a.
  - intros q Hq. destruct (ac_changes _ _ _ Hac q Hq) as (p & Hn & Hcase). exists p. split; [done|]. destruct Hcase as [[-> Hne]|[(Hab & Hne & Hnd)|(Hab & Hs & Hap)]]; (split; [apply Hcl; [|done]|]).
    + done.
    + split; [done|by left].
    + done.
    + split; [done|by right; left].
    + destruct Hap as (e & He & _). intros E0. by rewrite E0 in He.
    + split; [destruct Hap as (e & He & _); intros E0; by rewrite E0 in He|]. right. right. split_and!; [done..|exact Hap].
  - intros r p Hr Hne Hab Hd. destruct (ac_order _ _ _ Hac r p Hr Hne Hab Hd) as [?|Hlt]; [by left|]. destruct (decide (of_path evs p = [])) as [Ep|Hnep].
    + left. intros d Hd'. destruct (s_dir d) eqn:Ed; [done|]. destruct (ac_heard _ _ _ Hac p Hd); [|done]. intros Hnf. by rewrite (Hnf d Hd') in Ed.
    + right. split; [apply Hcl; [done|by apply (tm_named D (ac_tree _ _ _ Hac)), dir_some]|]. split; [by apply last_pos_some|done].
Qed.

(** ** Rounds of changes *)

Section rounds.
Context {F : Type} `{FileSystem F} {M : Type} `{KeyMap M} said `{!Teller said} (cfg : Config) (max_expanded : Z).
Implicit Types (rd : Round (F := F)).

(** A round of changes: the disk went from [m0] to that of the round by changes
    of which the watcher said the events of the round, nothing of it
    is hidden from the mirror, no directory that appeared is too large to expand,
    and the batch fits the wire. *)
Record changed_by (s : RootServer) (m0 : pathmap) rd : Prop := {
  cb_disk : steady cfg (rd_fs rd) (rd_places rd) (rd_disk rd);
  cb_plain : plain cfg (rd_fs rd) (rd_disk rd);
  cb_history : history said m0 (rd_disk rd) (rd_events rd).*1;
  cb_clear : ∀ e q, e ∈ (rd_events rd).*1 → ev_path e = join q → named q = true → is_ignored cfg (join q) = false;
  cb_few : seq_ (coalescer_ s) + zlen (rd_events rd) < 2 ^ 64;
  cb_rescan : Forall (λ op, op_kind op ≠ Rescan) (round_batch cfg max_expanded s rd);
  cb_wire : zlen (round_batch cfg max_expanded s rd) < 2 ^ 64 ∧ Forall sendable (round_batch cfg max_expanded s rd)
}.

Fixpoint all_changed (s : RootServer) (m0 : pathmap) (rds : list Round) : Prop :=
  match rds with [] => True | rd :: rds => changed_by s m0 rd ∧ all_changed (agent_round cfg max_expanded s rd) (rd_disk rd) rds end.

Lemma changed_round s m0 rd : tree_map m0 → changed_by s m0 rd → round_ok cfg max_expanded s m0 rd.
Proof.
  intros Hm [C1 C2 C3 C4 C5 C6 C7]. pose proof (history_account _ _ _ Hm C3) as Hac. split; [done|by eapply account_told| |done..].
  apply Forall_forall. intros ev Hev. apply (ac_shown _ _ _ Hac). by apply list_elem_of_fmap_2.
Qed.

Lemma changed_rounds rds : ∀ s m0, tree_map m0 → all_changed s m0 rds → rounds_ok cfg max_expanded s m0 rds.
Proof.
  induction rds as [|rd rds IH]; [done|]. intros s m0 Hm [Hc Hr]. split; [by apply changed_round|]. apply IH; [by eapply steady_tree, (cb_disk _ _ _ Hc)|done].
Qed.

End rounds.


(** ** Two rounds of changes

    A directory goes and a file becomes a directory with a file inside, whose
    creation nobody saw; then the new directory moves and the file is written. *)

(** What can be computed of an in-memory disk below [/r]. *)
Definition disk_of (fs : MemFs) : pathmap := (s_load (scanned fs)).1.
Definition entry_checked (fs : MemFs) (q : list bytes) : Prop :=
  match entry_at fs (str "/r") (cfg_skip demo_cfg) (cfg_device demo_cfg fs) q with
  | Some (a, d) => named q = true ∧ attr_ok a ∧ (d = true → fs_is_directory fs (full (str "/r") q) = true ∧ root_device fs (full (str "/r") q) (cfg_one_fs demo_cfg) = cfg_device demo_cfg fs)
  | None => True
  end.
Definition root_checked (fs : MemFs) (E : list (list bytes)) : Prop :=
  survey_ok fs (str "/r") E = true ∧ fs_is_directory fs (str "/r") = true ∧ (S (length E) < 10)%nat ∧ root_device fs (full (str "/r") []) (cfg_one_fs demo_cfg) = cfg_device demo_cfg fs.

Lemma mem_steady fs E : root_checked fs E → Forall (entry_checked fs) E → steady demo_cfg fs E (disk_of fs).
Proof.
  intros (Hs & Hdir & Hlen & Hdev) Hall. pose proof (survey_ok_surveyed fs (str "/r") (cfg_skip demo_cfg) (cfg_device demo_cfg fs) E Hs) as Hsv.
  pose proof (found_check fs (str "/r") (cfg_skip demo_cfg) (cfg_device demo_cfg fs) E (λ q a d, named q = true ∧ attr_ok a ∧ (d = true → fs_is_directory fs (full (str "/r") q) = true ∧ root_device fs (full (str "/r") q) (cfg_one_fs demo_cfg) = cfg_device demo_cfg fs)) Hs) as Hent.
  assert (zlen E < 10) as HE by (unfold zlen; lia). split.
  - split; [done|exact Hdir|done|transitivity 10; [lia|vm_compute; congruence]|]. intros q a (p & d & Hp & Hf). by apply (Hent Hall p q a d Hp Hf).
  - destruct (scan_surveyed 10 fs (str "/r") (λ _ _, false) true E) as (w & Ew & _ & _ & _ & _ & _ & Hm); [by apply survey_ok_surveyed|lia|done|done|]. unfold disk_of, scanned. rewrite Ew. exact Hm.
  - intros q a (p & d & Hp & Hf). by apply (Hent Hall p q a d Hp Hf).
  - intros p Hp. destruct Hp as [|p q a Hp Hq]; [exact Hdir|]. by apply (Hent Hall p q a true Hp Hq).
  - intros p Hp. destruct Hp as [|p q a Hp Hq]; [exact Hdev|]. by apply (Hent Hall p q a true Hp Hq).
Qed.

Definition shown_keys (fs : MemFs) : Prop := Forall (λ k, k ∈ key (str "/r") <$> filter (λ q, named q = true) (map_to_list (disk_of fs)).*1) (map_to_list fs).*1.
Definition dirs_among (m : pathmap) (dirs : list (list bytes)) : Prop := Forall (λ qa : list bytes * Attributes, s_dir qa.2 = true → qa.1 ∈ dirs) (map_to_list m).
#[local] Instance shown_keys_dec fs : Decision (shown_keys fs).
Proof. unfold shown_keys. apply _. Defined.
#[local] Instance dirs_among_dec m dirs : Decision (dirs_among m dirs).
Proof. unfold dirs_among. apply _. Defined.

Lemma mem_plain (fs : MemFs) dirs : shown_keys fs → dirs_among (disk_of fs) dirs → Forall (walked fs (str "/r") (cfg_skip demo_cfg) (cfg_device demo_cfg fs)) dirs → plain demo_cfg fs (disk_of fs).
Proof.
  unfold shown_keys, dirs_among. intros Hk Hd Hw. rewrite Forall_forall in Hk. rewrite Forall_forall in Hd. rewrite Forall_forall in Hw. split.
  - intros q st Hq Hn Hst. rewrite full_join in Hst by done. change (mem_stat <$> fs !! mem_key (at_ (str "/r") q) = Some st) in Hst.
    rewrite mem_key_at in Hst by (done || (split; vm_compute; congruence)). destruct (fs !! key (str "/r") q) as [n|] eqn:En; [|done].
    destruct (list_elem_of_fmap_1 _ _ _ (Hk (key (str "/r") q) (list_elem_of_fmap_2' fst _ (key (str "/r") q, n) _ (proj2 (elem_of_map_to_list _ _ _) En) eq_refl))) as (q' & Ek & [Hn' Hin]%list_elem_of_filter).
    apply list_elem_of_fmap in Hin as ([q2 a] & -> & Ha%elem_of_map_to_list). assert (q = q2) as ->; [by apply (disk_key_inj (str "/r"))|]. by eexists.
  - intros p (a & Ha & Hdir). apply Hw, (Hd (p, a)); [by apply elem_of_map_to_list|done].
Qed.

Definition demo_moved : MemFs := list_to_map [(str "/r", MDir); (str "/r/e", MDir); (str "/r/e/x", MFile (str "newer")); (str "/r/l", MLink (str "a.txt"))].
Definition demo_moved_places : list (list bytes) := [[str "e"]; [str "e"; str "x"]; [str "l"]].

(** A table with one watch, on [d]. *)
Definition watch_on (d : list bytes) : Watches ToyKernel := mkWatches toy {[1 := join d]} {[join d := 1]}.

Lemma watched_says d r es : in_wd r = 1 → (handle_event 10 (str "/r") 1 (watch_on d) r).2 = es → says (K := ToyKernel) 10 (str "/r") 1 d r es.
Proof. intros Hw <-. exists (watch_on d). split; [|done]. by rewrite Hw. Qed.

(** A place nothing was below, as can be computed. *)
Lemma fresh_check m0 evs q : Forall (λ x, ¬ above q x) (map_to_list m0).*1 → Forall (λ e, ¬ above q (components (ev_path e))) evs → fresh_place m0 evs q.
Proof.
  intros Hm He x Hx. rewrite Forall_forall in Hm. rewrite Forall_forall in He. split.
  - apply eq_None_not_Some. intros [a Ha]. apply (Hm x); [|done]. apply list_elem_of_fmap. exists (x, a). by rewrite elem_of_map_to_list.
  - intros Hn. destruct (of_path evs x) as [|e l] eqn:E; [done|]. assert (e ∈ of_path evs x) as [Hp Hin]%list_elem_of_filter by (rewrite E; left).
    destruct (He e Hin). unfold on_path in Hp. by rewrite Hp, components_named.
Qed.

Definition file_attr (n : Z) : Attributes := mkAttr n 0 420 File.
Definition dir_attr : Attributes := mkAttr 0 0 493 Directory.
Definition first_changes : list Change := [Gone [str "d"] (str "b"); Gone [] (str "d"); Gone [] (str "a.txt"); Made [] (str "a.txt") dir_attr; Made [str "a.txt"] (str "x") (file_attr 3)].
Definition second_changes : list Change := [Moved [] (str "a.txt") [] (str "e") 5; Touched [str "e"] (str "x") (file_attr 5) Stored].
Fixpoint apply_changes (m : pathmap) (chs : list Change) : option pathmap :=
  match chs with [] => Some m | ch :: chs => m ← apply_change m ch; apply_changes m chs end.

Example changes_give_disks : apply_changes demo_before first_changes = Some demo_disk ∧ apply_changes demo_disk second_changes = Some (disk_of demo_moved).
Proof. vm_compute. split; reflexivity. Qed.

Definition first_round : Round (F := MemFs) :=
  mkRound [(mkEvent EvRemoved (str "d/b") 0, 1); (mkEvent EvRemoved (str "d") 0, 2); (mkEvent EvRemoved (str "d") 0, 2); (mkEvent EvRemoved (str "a.txt") 0, 3);
           (mkEvent EvCreated (str "a.txt") 0, 4)] 40 demo_after demo_after_places (disk_of demo_after).
Definition second_round : Round (F := MemFs) :=
  mkRound [(mkEvent EvRenamedFrom (str "a.txt") 5, 50); (mkEvent EvRenamedTo (str "e") 5, 50); (mkEvent EvModified (str "e/x") 0, 51)] 90 demo_moved demo_moved_places (disk_of demo_moved).

Abbreviation toy_said := (linux_said (K := ToyKernel) 10 (str "/r") 1).
Abbreviation toy_history := (history toy_said).
Definition after_some (m : pathmap) (chs : list Change) : pathmap := default ∅ (apply_changes m chs).

Lemma toy_gone evs d s wd (es1 es2 : list FsEvent) m : wd = 1 → (handle_event 10 (str "/r") 1 (watch_on d) (in_record wd IN_DELETE (dir_here m (d ++ [s])) 0 s)).2 = es1 →
  es2 = [] ∨ dir_here m (d ++ [s]) = true ∧ (handle_event 10 (str "/r") 1 (watch_on (d ++ [s])) (self_record wd IN_DELETE_SELF)).2 = es2 →
  toy_said m evs (Gone d s) (es1 ++ es2).
Proof.
  intros -> H1 H2. exists 1, 1, es1, es2. split_and!; [done|left; by apply watched_says|]. destruct H2 as [->|[Hd H2]]; [by left|right]. split; [done|by apply watched_says].
Qed.

Lemma toy_step m0 m evs ch m' es evs' : toy_history m0 m evs → apply_change m ch = Some m' → evs' = evs ++ es → orderly m0 m evs ch →
  toy_said m evs ch es → toy_history m0 m' evs'.
Proof. intros Hh Ha -> Ho Hs. by eapply history_change. Qed.

Lemma first_history : toy_history demo_before (disk_of demo_after) (rd_events first_round).*1.
Proof.
  pose proof (history_start toy_said demo_before) as E0.
  assert (toy_history demo_before (after_some demo_before (take 1 first_changes)) [mkEvent EvRemoved (str "d/b") 0]) as E1.
  { apply (toy_step _ _ _ (Gone [str "d"] (str "b")) _ ([mkEvent EvRemoved (str "d/b") 0] ++ []) _ E0); [vm_compute; reflexivity|reflexivity|exact I|].
    apply (toy_gone _ _ _ 1); [done|vm_compute; reflexivity|by left]. }
  assert (toy_history demo_before (after_some demo_before (take 2 first_changes)) [mkEvent EvRemoved (str "d/b") 0; mkEvent EvRemoved (str "d") 0; mkEvent EvRemoved (str "d") 0]) as E2.
  { apply (toy_step _ _ _ (Gone [] (str "d")) _ ([mkEvent EvRemoved (str "d") 0] ++ [mkEvent EvRemoved (str "d") 0]) _ E1); [vm_compute; reflexivity|reflexivity|exact I|].
    apply (toy_gone _ _ _ 1); [done|vm_compute; reflexivity|right; split; vm_compute; reflexivity]. }
  assert (toy_history demo_before (after_some demo_before (take 3 first_changes)) [mkEvent EvRemoved (str "d/b") 0; mkEvent EvRemoved (str "d") 0; mkEvent EvRemoved (str "d") 0; mkEvent EvRemoved (str "a.txt") 0]) as E3.
  { apply (toy_step _ _ _ (Gone [] (str "a.txt")) _ ([mkEvent EvRemoved (str "a.txt") 0] ++ []) _ E2); [vm_compute; reflexivity|reflexivity|exact I|].
    apply (toy_gone _ _ _ 1); [done|vm_compute; reflexivity|by left]. }
  assert (toy_history demo_before (after_some demo_before (take 4 first_changes)) (rd_events first_round).*1) as E4.
  { apply (toy_step _ _ _ (Made [] (str "a.txt") dir_attr) _ [mkEvent EvCreated (str "a.txt") 0] _ E3); [vm_compute; reflexivity|reflexivity| |].
    - intros _. apply fresh_check; apply (bool_decide_unpack _); vm_compute; exact I.
    - exists 1. left. apply watched_says; [done|vm_compute; reflexivity]. }
  assert (disk_of demo_after = after_some demo_before first_changes) as -> by (vm_compute; reflexivity).
  apply (toy_step _ _ _ (Made [str "a.txt"] (str "x") (file_attr 3)) _ [] _ E4); [vm_compute; reflexivity|reflexivity|intros Ed; discriminate Ed|].
  exists 2. right. split; [done|]. split; [vm_compute; reflexivity|]. exists [str "a.txt"]. split_and!; [reflexivity|by apply (above_snoc [str "a.txt"])|]. eexists. split; vm_compute; reflexivity.
Qed.

Lemma second_history : toy_history (disk_of demo_after) (disk_of demo_moved) (rd_events second_round).*1.
Proof.
  pose proof (history_start toy_said (disk_of demo_after)) as E0.
  assert (toy_history (disk_of demo_after) (after_some (disk_of demo_after) (take 1 second_changes)) [mkEvent EvRenamedFrom (str "a.txt") 5; mkEvent EvRenamedTo (str "e") 5]) as E1.
  { apply (toy_step _ _ _ (Moved [] (str "a.txt") [] (str "e") 5) _ (([mkEvent EvRenamedFrom (str "a.txt") 5] ++ [mkEvent EvRenamedTo (str "e") 5]) ++ []) _ E0); [vm_compute; reflexivity|reflexivity| |].
    - intros _. apply fresh_check; apply (bool_decide_unpack _); vm_compute; exact I.
    - exists 1, 1, 1, [mkEvent EvRenamedFrom (str "a.txt") 5], [mkEvent EvRenamedTo (str "e") 5], []. split_and!; [done|left; apply watched_says; [done|vm_compute; reflexivity]..|by left]. }
  assert (disk_of demo_moved = after_some (disk_of demo_after) second_changes) as -> by (vm_compute; reflexivity).
  apply (toy_step _ _ _ (Touched [str "e"] (str "x") (file_attr 5) Stored) _ [mkEvent EvModified (str "e/x") 0] _ E1); [vm_compute; reflexivity|reflexivity|intros Ed; discriminate Ed|].
  exists 1. left. apply watched_says; [done|vm_compute; reflexivity].
Qed.

(** The same move, as the watcher on Windows says it. *)
Example windows_history : history win_said (disk_of demo_after) (disk_of demo_moved) [mkEvent EvRenamedFrom (str "a.txt") 8; mkEvent EvRenamedTo (str "e") 8; mkEvent EvModified (str "e/x") 0].
Proof.
  assert (disk_of demo_moved = after_some (disk_of demo_after) second_changes) as -> by (vm_compute; reflexivity).
  apply (history_change _ _ (after_some (disk_of demo_after) (take 1 second_changes)) [mkEvent EvRenamedFrom (str "a.txt") 8; mkEvent EvRenamedTo (str "e") 8] (Touched [str "e"] (str "x") (file_attr 5) Stored) _ [mkEvent EvModified (str "e/x") 0]);
    [|vm_compute; reflexivity|intros Ed; discriminate Ed|exists (mkCookies 8 0); vm_compute; reflexivity].
  apply (history_change _ _ (disk_of demo_after) [] (Moved [] (str "a.txt") [] (str "e") 5) _ [mkEvent EvRenamedFrom (str "a.txt") 8; mkEvent EvRenamedTo (str "e") 8]); [constructor|vm_compute; reflexivity| |exists (mkCookies 7 0); vm_compute; reflexivity].
  intros _. apply fresh_check; apply (bool_decide_unpack _); vm_compute; exact I.
Qed.

Lemma moved_steady : steady demo_cfg demo_moved demo_moved_places (disk_of demo_moved).
Proof.
  apply mem_steady; [split_and!; first [vm_compute; reflexivity|vm_compute; lia]|].
  repeat constructor; vm_compute; repeat split; try reflexivity; intros; discriminate.
Qed.

Lemma sub_walked (fs : MemFs) s : s ∈ listed fs (str "/r") [] → (∃ a, entry_at fs (str "/r") (cfg_skip demo_cfg) (cfg_device demo_cfg fs) [s] = Some (a, true)) → walked fs (str "/r") (cfg_skip demo_cfg) (cfg_device demo_cfg fs) [s].
Proof. intros Hs (a & Ha). apply (walked_sub _ _ _ _ [] [s] a); [constructor|]. by exists s. Qed.

Lemma after_plain : plain demo_cfg demo_after (disk_of demo_after).
Proof.
  apply (mem_plain _ [[]; [str "a.txt"]]); [apply (bool_decide_unpack _); vm_compute; exact I..|]. repeat apply Forall_cons_2; [constructor| |constructor].
  apply sub_walked; [apply (bool_decide_unpack _); vm_compute; exact I|eexists; vm_compute; reflexivity].
Qed.

Lemma moved_plain : plain demo_cfg demo_moved (disk_of demo_moved).
Proof.
  apply (mem_plain _ [[]; [str "e"]]); [apply (bool_decide_unpack _); vm_compute; exact I..|]. repeat apply Forall_cons_2; [constructor| |constructor].
  apply sub_walked; [apply (bool_decide_unpack _); vm_compute; exact I|eexists; vm_compute; reflexivity].
Qed.

Lemma demo_clear (q : list bytes) : is_ignored demo_cfg (join q) = false.
Proof. done. Qed.

Lemma first_changed : changed_by toy_said demo_cfg 100 demo_root demo_before first_round.
Proof.
  assert (Forall sendable (round_batch demo_cfg 100 demo_root first_round)) as Hs.
  { assert (round_batch demo_cfg 100 demo_root first_round = ltac:(let r := eval vm_compute in (round_batch demo_cfg 100 demo_root first_round) in exact r)) as -> by (vm_compute; reflexivity).
    repeat constructor; vm_compute; repeat split; try reflexivity; intros; discriminate. }
  assert (Forall (λ op, op_kind op ≠ Rescan) (round_batch demo_cfg 100 demo_root first_round)) as Hr by (apply (bool_decide_unpack _); vm_compute; exact I).
  assert (zlen (round_batch demo_cfg 100 demo_root first_round) < 2 ^ 64) as Hz by (vm_compute; reflexivity).
  split; [exact after_steady|exact after_plain|exact first_history|intros; apply demo_clear|vm_compute; reflexivity|exact Hr|split; [exact Hz|exact Hs]].
Qed.

Lemma second_changed : changed_by toy_said demo_cfg 100 (agent_round demo_cfg 100 demo_root first_round) (disk_of demo_after) second_round.
Proof.
  set (s := agent_round demo_cfg 100 demo_root first_round). assert (Forall sendable (round_batch demo_cfg 100 s second_round)) as Hs.
  { assert (round_batch demo_cfg 100 s second_round = ltac:(let r := eval vm_compute in (round_batch demo_cfg 100 s second_round) in exact r)) as -> by (vm_compute; reflexivity).
    repeat constructor; vm_compute; repeat split; try reflexivity; intros; discriminate. }
  assert (Forall (λ op, op_kind op ≠ Rescan) (round_batch demo_cfg 100 s second_round)) as Hr by (apply (bool_decide_unpack _); vm_compute; exact I).
  assert (zlen (round_batch demo_cfg 100 s second_round) < 2 ^ 64) as Hz by (vm_compute; reflexivity).
  split; [exact moved_steady|exact moved_plain|exact second_history|intros; apply demo_clear|vm_compute; reflexivity|exact Hr|split; [exact Hz|exact Hs]].
Qed.

Lemma demo_changed : all_changed toy_said demo_cfg 100 demo_root demo_before [first_round; second_round].
Proof. split; [exact first_changed|]. split; [exact second_changed|exact I]. Qed.

(** What a finite map of paths must satisfy, as it can be computed. *)
Definition tree_checked (m : pathmap) : bool :=
  dir_here m [] && forallb (λ q, named q && bool_decide (q = []) || named q && dir_here m (removelast q)) (map_to_list m).*1.

Lemma tree_check m : tree_checked m = true → tree_map m.
Proof.
  unfold tree_checked. rewrite andb_true_iff, dir_here_at, forallb_forall. intros [Hr Hall].
  assert (∀ q, is_Some (m !! q) → named q && bool_decide (q = []) || named q && dir_here m (removelast q) = true) as Hq.
  { intros q [a Ha]. apply Hall, list_elem_of_In, list_elem_of_fmap. exists (q, a). by rewrite elem_of_map_to_list. }
  split; [done| |].
  - intros q s Hs. specialize (Hq _ Hs). rewrite bool_decide_eq_false_2, andb_false_r in Hq by (apply snoc_not_nil). apply andb_true_iff in Hq as [_ Hd]. rewrite removelast_last in Hd. by apply dir_here_at.
  - intros q Hs. specialize (Hq _ Hs). apply orb_true_iff in Hq as [[? _]%andb_true_iff|[? _]%andb_true_iff]; done.
Qed.

