(* ===== verification/Stale.v ===== *)
(** * Where mirrors stay behind

    The premises of [mirror_converges] are needed: events the coalescer, the
    flusher and the client handle as written, each on a disk where the mirror
    afterwards is not what a fresh snapshot would be. *)

From S2P Require Import Prelude Types KeyMap HashUtil FlatMap Wire Messages Path Unicode StringPool MetadataTree TreeRefine.
From S2P Require Import Ignore Coalescer FileSystem Resolve Scanner Server Broadcast Client.

(** A mirror fresh from a snapshot of [fs], and one that has applied the batch
    flushed for [evs]. *)
Definition fresh_mirror (cfg : Config) (fs : MemFs) : MetadataTree U64Map :=
  let skip := if bool_decide (patterns_ (cfg_ignore cfg) = []) then λ _ _, false else ignored (cfg_ignore cfg) in
  match scan_tree (cfg_fuel cfg) fs (cfg_root cfg) skip (cfg_one_fs cfg) with
  | Ok w => (load_snapshot tree_new (w_out w)).1
  | Err _ => tree_new
  end.
Definition planned_for (evs : list FsEvent) : list PlannedOp := (take_batch (push_all (coal_new (mkOptions 8 2 25)) ((λ e, (e, 0)) <$> evs))).2.
Definition after_events (cfg : Config) (fs : MemFs) (evs : list FsEvent) (t : MetadataTree U64Map) : MetadataTree U64Map :=
  foldl (apply_op Exact) t (flush_ops cfg 100 fs (planned_for evs)).
Definition has (t : MetadataTree U64Map) (path : bytes) : bool := bool_decide (lookup t path Exact ≠ None).
Definition kind_at (t : MetadataTree U64Map) (path : bytes) : option NodeKind := (λ x, a_kind (n_attr (node t x))) <$> lookup t path Exact.

Definition plain_cfg (rules : bytes) : Config := mkConfig (str "/r") false (str "t") true (str "a") 1024 true (parse rules) 10.

(** A file is replaced by a directory, which is touched once more after its
    first entry was made.  The entry is written first, below what is still a
    file, and the expansion leaves it out as it has an operation already. *)
Definition file_before : MemFs := list_to_map [(str "/r", MDir); (str "/r/a", MFile (str "x"))].
Definition dir_after : MemFs := list_to_map [(str "/r", MDir); (str "/r/a", MDir); (str "/r/a/b", MFile (str "y"))].
Example touched_directory_loses_entry :
  let cfg := plain_cfg [] in
  let t := after_events cfg dir_after
    [mkEvent EvRemoved (str "a") 0; mkEvent EvCreated (str "a") 0; mkEvent EvCreated (str "a/b") 0; mkEvent EvModified (str "a") 0]
    (fresh_mirror cfg file_before) in
  kind_at t (str "a") = Some Directory ∧ has t (str "a/b") = false ∧ has (fresh_mirror cfg dir_after) (str "a/b") = true.
Proof. vm_compute. split_and!; reflexivity. Qed.

(** Two directories are swapped by renames within one batch.  The name that
    exists before and after gets one operation, an upsert, which keeps the old
    entries. *)
Definition swap_before : MemFs :=
  list_to_map [(str "/r", MDir); (str "/r/d", MDir); (str "/r/d/old", MFile []); (str "/r/n", MDir); (str "/r/n/new", MFile [])].
Definition swap_after : MemFs :=
  list_to_map [(str "/r", MDir); (str "/r/d", MDir); (str "/r/d/new", MFile []); (str "/r/o", MDir); (str "/r/o/old", MFile [])].
Example swapped_directory_keeps_entries :
  let cfg := plain_cfg [] in
  let t := after_events cfg swap_after
    [mkEvent EvRenamedFrom (str "d") 1; mkEvent EvRenamedTo (str "o") 1; mkEvent EvRenamedFrom (str "n") 2; mkEvent EvRenamedTo (str "d") 2]
    (fresh_mirror cfg swap_before) in
  has t (str "d/new") = true ∧ has t (str "o/old") = true ∧ has t (str "d/old") = true ∧ has (fresh_mirror cfg swap_after) (str "d/old") = false.
Proof. vm_compute. split_and!; reflexivity. Qed.

(** A name with a backslash is dropped from a snapshot, but an event on it
    makes a directory and a file the disk does not have. *)
Definition backslash_after : MemFs := list_to_map [(str "/r", MDir); (str "/r/a\b", MFile [])].
Example backslash_event_invents_entries :
  let cfg := plain_cfg [] in
  let t := after_events cfg backslash_after [mkEvent EvCreated (str "a\b") 0] (fresh_mirror cfg ∅) in
  kind_at t (str "a") = Some Directory ∧ kind_at t (str "a/b") = Some File ∧ has (fresh_mirror cfg backslash_after) (str "a") = false.
Proof. vm_compute. split_and!; reflexivity. Qed.

(** A rule for directories does not hide a file of that name from a snapshot,
    but it hides the events on it. *)
Definition build_before : MemFs := list_to_map [(str "/r", MDir); (str "/r/build", MFile (str "x"))].
Definition build_after : MemFs := list_to_map [(str "/r", MDir)].
Example directory_rule_hides_events :
  let cfg := plain_cfg (str "build/") in
  let t := after_events cfg build_after [mkEvent EvRemoved (str "build") 0] (fresh_mirror cfg build_before) in
  has (fresh_mirror cfg build_before) (str "build") = true ∧ has t (str "build") = true ∧ has (fresh_mirror cfg build_after) (str "build") = false.
Proof. vm_compute. split_and!; reflexivity. Qed.

(** A path that became a socket, a pipe or a device is not reported at all. *)
Lemma device_unreported `{FileSystem F} cfg max_expanded (fs : F) op a : po_kind op ≠ Rescan →
  Scanner.read_attributes fs (join_relative (cfg_root cfg) (po_path op)) = Ok a → a_kind a = Other → flush_ops cfg max_expanded fs [op] = [].
Proof.
  intros Hk Ha Ho. assert (resolve_op cfg fs op = None) as Hr. { unfold resolve_op. rewrite Ha, Ho. destruct (po_kind op); [..|done]; by destruct (is_ignored cfg (po_path op)). }
  unfold flush_ops, resolve_all, expand_dirs. cbn. by rewrite Hr.
Qed.
