(* ===== verification/Bridge.v ===== *)
(** * The change-notification bridge ([mount/fsnotify_bridge.cpp])

    Changes applied to the mirror are replayed on the mount from a thread of
    this process, so that the kernel raises the matching events.  State: the
    queue of jobs and the one poke in flight.  The outcome of a system call and
    of [lstat] are parameters. *)

From S2P Require Import Prelude Types KeyMap Path Coalescer Client.

Inductive Poke := PokeNone | Mknod | Mkdir | Unlink | Rmdir | Rename.
Inductive Pretend := PNothing | PAbsent | PPresent.

#[global] Instance Poke_eq_dec : EqDecision Poke.
Proof. solve_decision. Defined.
#[global] Instance Pretend_eq_dec : EqDecision Pretend.
Proof. solve_decision. Defined.

Record Job := mkJob { j_change : ChangeKind; j_path : bytes; j_path2 : bytes; j_kind : NodeKind; j_rescan : bool }.
#[global] Instance Job_eq_dec : EqDecision Job.
Proof. solve_decision. Defined.

Record Active := mkActive { act_what : Poke; act_path : bytes; act_path2 : bytes; act_pretend : Pretend; act_kind : NodeKind }.
Definition no_active : Active := mkActive PokeNone [] [] PNothing File.

Record BridgeStats := mkBStats { bs_events : Z; bs_delivered : Z; bs_failed : Z; bs_dropped : Z; bs_rescans : Z }.

Record FsNotifyBridge := mkBridge {
  root_ : bytes;
  root_dev_ : Z;
  running_ : bool;
  poke_tid_ : Z;
  self_pid_ : Z;
  queue_ : list Job;
  active_ : Active;
  bstats_ : BridgeStats
}.

Definition with_active a b := mkBridge (root_ b) (root_dev_ b) (running_ b) (poke_tid_ b) (self_pid_ b) (queue_ b) a (bstats_ b).
Definition with_queue q b := mkBridge (root_ b) (root_dev_ b) (running_ b) (poke_tid_ b) (self_pid_ b) q (active_ b) (bstats_ b).
Definition with_bstats s b := mkBridge (root_ b) (root_dev_ b) (running_ b) (poke_tid_ b) (self_pid_ b) (queue_ b) (active_ b) s.

Definition set_active (a : Active) (b : FsNotifyBridge) := with_active a b.
Definition clear_active (b : FsNotifyBridge) := with_active no_active b.

Definition is_self (b : FsNotifyBridge) (caller : Z) : bool :=
  negb (caller =? 0) && ((caller =? poke_tid_ b) || (caller =? self_pid_ b)).
Definition is_poke_thread := is_self.

(** What a caller is told of a path, with the kind for a ghost. *)
Definition pretend (b : FsNotifyBridge) (caller : Z) (rel : bytes) : Pretend * NodeKind :=
  if negb (is_self b caller) then (PNothing, File)
  else if bool_decide (act_pretend (active_ b) = PNothing) || negb (bool_decide (act_path (active_ b) = rel)) then (PNothing, File)
  else (act_pretend (active_ b), act_kind (active_ b)).

Definition claim (b : FsNotifyBridge) (caller : Z) (what : Poke) (rel rel2 : bytes) : FsNotifyBridge * bool :=
  if negb (is_self b caller) then (b, false)
  else if negb (bool_decide (act_what (active_ b) = what)) || negb (bool_decide (act_path (active_ b) = rel))
          || negb (bool_decide (act_path2 (active_ b) = rel2)) then (b, false)
  else (with_active no_active b, true).

(** ** Queueing *)

(** One change of [post]: the jobs so far, and the open halves by cookie. *)
Definition post_step (st : list Job * gmap Z nat) (c : AppliedChange) : list Job * gmap Z nat :=
  let '(jobs, from) := st in
  if ac_rescan c then (jobs ++ [mkJob Unknown [] [] Directory true], from)
  else if bool_decide (ac_change c = MovedFrom) && negb (ac_cookie c =? 0) then
    (jobs ++ [mkJob MovedFrom (ac_path c) [] (ac_kind c) false],
     match from !! ac_cookie c with Some _ => from | None => <[ac_cookie c := length jobs]> from end)
  else if bool_decide (ac_change c = MovedTo) && negb (ac_cookie c =? 0) then
    match from !! ac_cookie c with
    | Some i => (alter (λ j, mkJob (j_change j) (j_path j) (ac_path c) (j_kind j) (j_rescan j)) i jobs, delete (ac_cookie c) from)
    | None => (jobs ++ [mkJob Created (ac_path c) [] (ac_kind c) false], from)
    end
  else (jobs ++ [mkJob (ac_change c) (ac_path c) [] (ac_kind c) false], from).

(** Sources left without a destination become removals. *)
Definition unpaired (from : gmap Z nat) (i : nat) : bool := bool_decide (i ∈ (map_to_list from).*2).
Definition close_pairs (jobs : list Job) (from : gmap Z nat) : list Job :=
  imap (λ i j, if unpaired from i then mkJob Removed (j_path j) (j_path2 j) (j_kind j) (j_rescan j) else j) jobs.

Definition pair_jobs (changes : list AppliedChange) : list Job :=
  let '(jobs, from) := foldl post_step ([], ∅) changes in close_pairs jobs from.

Definition kQueueCap : Z := 65536.

Fixpoint enqueue_jobs (queue : list Job) (jobs : list Job) (dropped : Z) : list Job * Z :=
  match jobs with
  | [] => (queue, dropped)
  | j :: jobs =>
      if zlen queue >=? kQueueCap then enqueue_jobs (tail queue ++ [j]) jobs (dropped + 1)
      else enqueue_jobs (queue ++ [j]) jobs dropped
  end.

Definition post (b : FsNotifyBridge) (changes : list AppliedChange) : FsNotifyBridge :=
  if negb (running_ b) then b
  else
    let '(q, dropped) := enqueue_jobs (queue_ b) (pair_jobs changes) 0 in
    let s := bstats_ b in
    with_bstats (mkBStats (bs_events s) (bs_delivered s) (bs_failed s) (bs_dropped s + dropped) (bs_rescans s)) (with_queue q b).

(** ** Delivery *)

Definition abs_path (b : FsNotifyBridge) (rel : bytes) : bytes :=
  (match rsplit (root_ b) with Some (p, []) => p | _ => root_ b end) ++ c_slash :: rel.

Inductive Syscall :=
| SysMkdir (p : bytes) | SysMknod (p : bytes) | SysUtimens (p : bytes)
| SysRmdir (p : bytes) | SysUnlink (p : bytes) | SysRename (p q : bytes).

Section delivery.
(** The device [lstat] finds a path on, and whether a system call succeeds. *)
Context (lstat_dev : bytes → option Z) (sys : Syscall → bool).

Definition inside_mount (b : FsNotifyBridge) (rel : bytes) : bool :=
  let parent := match rsplit rel with Some (p, _) => abs_path b p | None => root_ b end in
  match lstat_dev parent with Some d => d =? root_dev_ b | None => false end.

(** A poke: the record shown to the handlers during the call, if it sets one,
    the call, and the paths invalidated after it. *)
Record PokeRun := mkRun { run_active : option Active; run_call : Syscall; run_invalidate : list bytes; run_ok : bool }.

Definition poke_create (b : FsNotifyBridge) (j : Job) : option PokeRun :=
  if bool_decide (j_path j = []) || negb (inside_mount b (j_path j)) then None
  else
    let dir := bool_decide (j_kind j = Directory) in
    let call := if dir then SysMkdir (abs_path b (j_path j)) else SysMknod (abs_path b (j_path j)) in
    Some (mkRun (Some (mkActive (if dir then Mkdir else Mknod) (j_path j) [] PAbsent (j_kind j))) call [] (sys call)).

Definition poke_modify (b : FsNotifyBridge) (j : Job) : option PokeRun :=
  if negb (bool_decide (j_path j = [])) && negb (inside_mount b (j_path j)) then None
  else
    let call := SysUtimens (if bool_decide (j_path j = []) then root_ b else abs_path b (j_path j)) in
    Some (mkRun None call [] (sys call)).

Definition poke_remove (b : FsNotifyBridge) (j : Job) : option PokeRun :=
  if bool_decide (j_path j = []) || negb (inside_mount b (j_path j)) then None
  else
    let dir := bool_decide (j_kind j = Directory) in
    let call := if dir then SysRmdir (abs_path b (j_path j)) else SysUnlink (abs_path b (j_path j)) in
    Some (mkRun (Some (mkActive (if dir then Rmdir else Unlink) (j_path j) [] PPresent (j_kind j))) call
            (if sys call then [] else [j_path j]) (sys call)).

Definition poke_move (b : FsNotifyBridge) (j : Job) : option PokeRun :=
  if bool_decide (j_path j = []) || bool_decide (j_path2 j = []) then None
  else if negb (inside_mount b (j_path j)) || negb (inside_mount b (j_path2 j)) then None
  else
    let call := SysRename (abs_path b (j_path j)) (abs_path b (j_path2 j)) in
    Some (mkRun (Some (mkActive Rename (j_path j) (j_path2 j) PPresent (j_kind j))) call
            [if sys call then j_path2 j else j_path j] (sys call)).

(** The poke [deliver] chooses for a job; [None]: nothing to say. *)
Definition choose_poke (b : FsNotifyBridge) (j : Job) : option (option PokeRun) :=
  if j_rescan j then Some (poke_modify b (mkJob Modified [] [] Directory false))
  else if negb (bool_decide (j_path2 j = [])) then Some (poke_move b j)
  else
    match j_change j with
    | Created | MovedTo => Some (poke_create b j)
    | Modified => Some (poke_modify b j)
    | Removed | MovedFrom => Some (poke_remove b j)
    | Unknown => None
    end.

Definition deliver (b : FsNotifyBridge) (j : Job) : FsNotifyBridge * option PokeRun :=
  let s := bstats_ b in
  let s := mkBStats (bs_events s + 1) (bs_delivered s) (bs_failed s) (bs_dropped s)
             (bs_rescans s + if j_rescan j then 1 else 0) in
  match choose_poke b j with
  | None => (with_bstats s b, None)
  | Some run =>
      let ok := match run with Some r => run_ok r | None => false end in
      let b := match run with Some (mkRun (Some _) _ _ _) => clear_active b | _ => b end in
      (with_bstats (mkBStats (bs_events s) (bs_delivered s + if ok then 1 else 0) (bs_failed s + if ok then 0 else 1)
                      (bs_dropped s) (bs_rescans s)) b, run)
  end.

(** One round of [run]. *)
Definition run_round (b : FsNotifyBridge) : FsNotifyBridge * option PokeRun :=
  match queue_ b with [] => (b, None) | j :: q => deliver (with_queue q b) j end.
End delivery.

Definition stop (b : FsNotifyBridge) : FsNotifyBridge :=
  if negb (running_ b) then b
  else mkBridge (root_ b) (root_dev_ b) false (poke_tid_ b) (self_pid_ b) [] no_active (bstats_ b).

(** ** Queueing: lemmas *)

(** Every path reported is the path or the destination of some job. *)
Definition mentions (p : bytes) (j : Job) : Prop := j_path j = p ∨ j_path2 j = p.

(** What holds of the jobs and the open halves while [post] runs: an open half
    is an unfinished source, and each cookie's is a different one. *)
Record pairing (changes : list AppliedChange) (st : list Job * gmap Z nat) : Prop := {
  pg_open : ∀ ck i, st.2 !! ck = Some i → ∃ j, st.1 !! i = Some j ∧ j_path2 j = [] ∧ j_change j = MovedFrom
              ∧ ∃ c, c ∈ changes ∧ ac_change c = MovedFrom ∧ ac_cookie c = ck ∧ ck ≠ 0 ∧ ac_path c = j_path j;
  pg_inj : ∀ ck ck' i, st.2 !! ck = Some i → st.2 !! ck' = Some i → ck = ck';
  pg_seen : ∀ c, c ∈ changes → ac_rescan c = false → ac_path c ≠ [] → ∃ j, j ∈ st.1 ∧ mentions (ac_path c) j;
  pg_moves : ∀ j, j ∈ st.1 → j_path2 j ≠ [] →
     ∃ c c', c ∈ changes ∧ c' ∈ changes ∧ ac_change c = MovedFrom ∧ ac_change c' = MovedTo
       ∧ ac_cookie c = ac_cookie c' ∧ ac_cookie c ≠ 0 ∧ ac_path c = j_path j ∧ ac_path c' = j_path2 j
}.

Lemma pairing_snoc changes st c j (from : gmap Z nat) :
  pairing changes st → j_path2 j = [] → (ac_rescan c = false → mentions (ac_path c) j) →
  (from = st.2 ∨ (from = <[ac_cookie c := length st.1]> st.2 ∧ j_change j = MovedFrom ∧ ac_change c = MovedFrom
                  ∧ ac_cookie c ≠ 0 ∧ ac_path c = j_path j)) →
  pairing (changes ++ [c]) (st.1 ++ [j], from).
Proof.
  intros [H1 H2 H3 H4] Hj Hm Hfrom.
  assert (∀ ck i, st.2 !! ck = Some i → (i < length st.1)%nat) as Hlt.
  { intros ck i Hi. destruct (H1 ck i Hi) as (j' & Hj' & _). by eapply lookup_lt_Some. }
  assert (∀ ck i, st.2 !! ck = Some i → ∃ j0, (st.1 ++ [j]) !! i = Some j0 ∧ j_path2 j0 = [] ∧ j_change j0 = MovedFrom
     ∧ ∃ c0, c0 ∈ changes ++ [c] ∧ ac_change c0 = MovedFrom ∧ ac_cookie c0 = ck ∧ ck ≠ 0 ∧ ac_path c0 = j_path j0) as Hold.
  { intros ck i Hi. destruct (H1 ck i Hi) as (j' & Hj' & Hp & Hc & c0 & Hc0 & Hr). exists j'.
    rewrite lookup_app_l by eauto using lookup_lt_Some. split_and!; [done..|]. exists c0. rewrite elem_of_app. tauto. }
  split; cbn [fst snd].
  - intros ck i Hi. destruct Hfrom as [->|(-> & Hc & Hac & Hne & Hp)]; [by apply Hold|].
    destruct (decide (ck = ac_cookie c)) as [->|Hck].
    + rewrite lookup_insert_eq in Hi. injection Hi as <-. exists j. rewrite lookup_app_r, Nat.sub_diag by done.
      split_and!; [done..|]. exists c. split_and!; [set_solver|done..].
    + rewrite lookup_insert_ne in Hi by done. by apply Hold.
  - intros ck ck' i. destruct Hfrom as [->|(-> & _)]; [apply H2|].
    destruct (decide (ck = ac_cookie c)) as [->|Hck], (decide (ck' = ac_cookie c)) as [->|Hck'];
      rewrite ?lookup_insert_eq, ?lookup_insert_ne by done; [done|..].
    + intros [= <-] Hi. apply Hlt in Hi. lia.
    + intros Hi [= <-]. apply Hlt in Hi. lia.
    + apply H2.
  - intros c0 [Hc0|Hc0%list_elem_of_singleton]%elem_of_app Hr Hne; [|subst; exists j; split; [set_solver|by apply Hm]].
    destruct (H3 c0 Hc0 Hr Hne) as (j0 & Hj0 & ?). exists j0. set_solver.
  - intros j0 [Hj0|Hj0%list_elem_of_singleton]%elem_of_app Hp; [|by subst].
    destruct (H4 j0 Hj0 Hp) as (c1 & c2 & Hc1 & Hc2 & ?). exists c1, c2. rewrite !elem_of_app. tauto.
Qed.

Lemma elem_of_alter {A} (f : A → A) i (l : list A) x : x ∈ alter f i l →
  x ∈ l ∨ ∃ y, l !! i = Some y ∧ x = f y.
Proof.
  intros [k Hk]%list_elem_of_lookup. destruct (decide (i = k)) as [->|Hn].
  - rewrite list_lookup_alter_eq in Hk. apply fmap_Some in Hk as (y & Hy & ->). eauto.
  - rewrite list_lookup_alter_ne in Hk by done. left. by eapply list_elem_of_lookup_2.
Qed.

Definition set_path2 (p : bytes) (j : Job) : Job := mkJob (j_change j) (j_path j) p (j_kind j) (j_rescan j).

Lemma pairing_complete changes st c i :
  pairing changes st → st.2 !! ac_cookie c = Some i → ac_change c = MovedTo →
  pairing (changes ++ [c]) (alter (set_path2 (ac_path c)) i st.1, delete (ac_cookie c) st.2).
Proof.
  intros [H1 H2 H3 H4] Hi Hto. destruct (H1 _ _ Hi) as (ji & Hji & Hp2 & Hch & c0 & Hc0 & Hm0 & Hk0 & Hne0 & Hp0).
  assert (alter (set_path2 (ac_path c)) i st.1 !! i = Some (set_path2 (ac_path c) ji)) as Hnew.
  { by rewrite list_lookup_alter_eq, Hji. }
  split; cbn [fst snd].
  - intros ck k Hk. apply lookup_delete_Some in Hk as [Hne Hk]. destruct (H1 ck k Hk) as (j' & Hj' & ? & ? & c1 & ? & ?).
    exists j'. rewrite list_lookup_alter_ne by (intros ->; apply Hne; by eapply H2). split_and!; [done..|].
    exists c1. rewrite elem_of_app. tauto.
  - intros ck ck' k [_ Hk]%lookup_delete_Some [_ Hk']%lookup_delete_Some. by eapply H2.
  - intros c1 [Hc1|Hc1%list_elem_of_singleton]%elem_of_app Hr Hne.
    + destruct (H3 c1 Hc1 Hr Hne) as (j & [k Hk]%list_elem_of_lookup & Hmen). destruct (decide (i = k)) as [->|Hn].
      * exists (set_path2 (ac_path c) ji). split; [by eapply list_elem_of_lookup_2|]. left.
        destruct Hmen as [Hmen|Hmen]; cbn; congruence.
      * exists j. split; [|done]. eapply (list_elem_of_lookup_2 _ k). by rewrite list_lookup_alter_ne.
    + subst. exists (set_path2 (ac_path c) ji). split; [by eapply list_elem_of_lookup_2|]. by right.
  - intros j [Hj|(y & Hy & ->)]%elem_of_alter Hp.
    + destruct (H4 j Hj Hp) as (c1 & c2 & ?). exists c1, c2. rewrite !elem_of_app. tauto.
    + assert (y = ji) as -> by congruence. exists c0, c. rewrite !elem_of_app. cbn in *. split_and!; try done; [by left|right; set_solver|congruence].
Qed.

Lemma post_pairing changes : pairing changes (foldl post_step ([], ∅) changes).
Proof.
  induction changes as [|c changes IH] using rev_ind.
  { split; cbn; try set_solver; intros ? ?; by rewrite lookup_empty. }
  rewrite foldl_app. cbn [foldl]. set (st := foldl post_step ([], ∅) changes) in *. destruct st as [jobs from] eqn:Est.
  unfold post_step. destruct (ac_rescan c) eqn:Er.
  { apply (pairing_snoc changes (jobs, from) c); [done|done|congruence|by left]. }
  destruct (bool_decide (ac_change c = MovedFrom) && negb (ac_cookie c =? 0)) eqn:Ef.
  { b2p. destruct (from !! ac_cookie c) eqn:E; (apply (pairing_snoc changes (jobs, from) c); [done|done|by left|]); [by left|].
    right. by split_and!. }
  destruct (bool_decide (ac_change c = MovedTo) && negb (ac_cookie c =? 0)) eqn:Et.
  - b2p. destruct (from !! ac_cookie c) as [i|] eqn:E; [by apply (pairing_complete changes (jobs, from) c i)|].
    apply (pairing_snoc changes (jobs, from) c); [done|done|by left|by left].
  - apply (pairing_snoc changes (jobs, from) c); [done|done|by left|by left].
Qed.

Lemma close_pairs_lookup jobs from i : close_pairs jobs from !! i
  = (λ j, if unpaired from i then mkJob Removed (j_path j) (j_path2 j) (j_kind j) (j_rescan j) else j) <$> jobs !! i.
Proof. unfold close_pairs. by rewrite list_lookup_imap. Qed.

Lemma close_pairs_elem jobs from j : j ∈ close_pairs jobs from →
  ∃ j', j' ∈ jobs ∧ j_path j = j_path j' ∧ j_path2 j = j_path2 j'.
Proof.
  intros [i Hi]%list_elem_of_lookup. rewrite close_pairs_lookup in Hi. apply fmap_Some in Hi as (j' & Hj' & ->).
  exists j'. split; [by eapply list_elem_of_lookup_2|]. by destruct (unpaired from i).
Qed.

Lemma close_pairs_elem_2 jobs from j : j ∈ jobs →
  ∃ j', j' ∈ close_pairs jobs from ∧ j_path j' = j_path j ∧ j_path2 j' = j_path2 j.
Proof.
  intros [i Hi]%list_elem_of_lookup. eexists. split.
  - apply (list_elem_of_lookup_2 _ i). rewrite close_pairs_lookup, Hi. reflexivity.
  - by destruct (unpaired from i).
Qed.

(** ** Theorems *)

(** Queueing loses no change and invents no move: every path reported is
    the source or the destination of a job, and a job with a destination joins
    the two halves of one move, matched by their cookie. *)
Theorem post_pairs_moves changes :
  (∀ c, c ∈ changes → ac_rescan c = false → ac_path c ≠ [] →
     ∃ j, j ∈ pair_jobs changes ∧ (j_path j = ac_path c ∨ j_path2 j = ac_path c))
  ∧ (∀ j, j ∈ pair_jobs changes → j_path2 j ≠ [] →
     ∃ c c', c ∈ changes ∧ c' ∈ changes ∧ ac_change c = MovedFrom ∧ ac_change c' = MovedTo
       ∧ ac_cookie c = ac_cookie c' ∧ ac_cookie c ≠ 0 ∧ ac_path c = j_path j ∧ ac_path c' = j_path2 j).
Proof.
  pose proof (post_pairing changes) as [_ _ H3 H4]. unfold pair_jobs. destruct (foldl post_step ([], ∅) changes) as [jobs from].
  cbn [fst snd] in *. split.
  - intros c Hc Hr Hne. destruct (H3 c Hc Hr Hne) as (j & Hj & Hm). destruct (close_pairs_elem_2 jobs from j Hj) as (j' & Hj' & E1 & E2).
    exists j'. split; [done|]. rewrite E1, E2. exact Hm.
  - intros j (j' & Hj' & E1 & E2)%close_pairs_elem Hp. rewrite E1, E2. apply H4; [done|congruence].
Qed.

Lemma enqueue_jobs_spec jobs queue n : zlen queue <= kQueueCap →
  (enqueue_jobs queue jobs n).1 = drop (Z.to_nat (zlen (queue ++ jobs) - kQueueCap)) (queue ++ jobs)
  ∧ (enqueue_jobs queue jobs n).2 = n + Z.max 0 (zlen (queue ++ jobs) - kQueueCap).
Proof.
  revert queue n. induction jobs as [|j jobs IH]; intros queue n Hq; cbn [enqueue_jobs].
  { rewrite app_nil_r. replace (Z.to_nat (zlen queue - kQueueCap)) with 0%nat by lia. cbn. split; [done|lia]. }
  destruct (Z.geb_spec (zlen queue) kQueueCap) as [Hg|Hg].
  - destruct queue as [|x queue]; [rewrite zlen_nil in Hg; unfold kQueueCap in Hg; lia|]. cbn [tail].
    destruct (IH (queue ++ [j]) (n + 1)) as [-> ->]; [autorewrite with zlen in *; lia|].
    autorewrite with zlen in *. rewrite <- app_assoc. cbn [app]. pose proof (zlen_nonneg jobs). split; [|lia].
    replace (Z.to_nat (1 + zlen queue + (1 + zlen jobs) - kQueueCap))
      with (S (Z.to_nat (zlen queue + (1 + 0) + zlen jobs - kQueueCap))) by lia. done.
  - destruct (IH (queue ++ [j]) n) as [-> ->]; [autorewrite with zlen in *; lia|].
    rewrite <- app_assoc. cbn [app]. done.
Qed.

(** The queue is bounded by dropping the oldest: after [post] it holds the
    last [kQueueCap] of what was queued and what was posted, in order, and the
    number dropped is counted. *)
Theorem post_keeps_newest b changes :
  running_ b = true → zlen (queue_ b) <= kQueueCap →
  let all := queue_ b ++ pair_jobs changes in
  queue_ (post b changes) = drop (Z.to_nat (zlen all - kQueueCap)) all
  ∧ zlen (queue_ (post b changes)) <= kQueueCap
  ∧ bs_dropped (bstats_ (post b changes)) = bs_dropped (bstats_ b) + Z.max 0 (zlen all - kQueueCap).
Proof.
  intros Hr Hq all. unfold post. rewrite Hr. cbn [negb].
  destruct (enqueue_jobs_spec (pair_jobs changes) (queue_ b) 0 Hq) as [E1 E2]. fold all in E1, E2.
  destruct (enqueue_jobs (queue_ b) (pair_jobs changes) 0) as [q d]. cbn [fst snd] in *.
  cbn [with_bstats with_queue queue_ bstats_ bs_dropped]. subst. split_and!; [done| |lia].
  unfold zlen. rewrite length_drop. unfold kQueueCap. lia.
Qed.

Definition demo_bridge : FsNotifyBridge :=
  mkBridge (str "/mnt/w") 7 true 41 40 [] no_active (mkBStats 0 0 0 0 0).
Definition demo_changes : list AppliedChange :=
  [mkApplied MovedFrom (str "a") 5 File false; mkApplied Created (str "c") 0 File false; mkApplied MovedTo (str "b") 5 File false].

Lemma post_keeps_newest_witness :
  queue_ (post demo_bridge demo_changes)
  = [mkJob MovedFrom (str "a") (str "b") File false; mkJob Created (str "c") [] File false]
  ∧ zlen (queue_ (post demo_bridge demo_changes)) <= kQueueCap.
Proof.
  split; [vm_compute; reflexivity|]. apply post_keeps_newest; [reflexivity|vm_compute; congruence].
Defined.

(** ** The thread's life

    [thread_] is joinable from [start] on, also when [run] has returned; a
    [std::thread] that is destroyed or assigned to while joinable ends the program
    ([None]). *)
Definition FUSE_SUPER_MAGIC : Z := 0x65735546.

(** [statfs] of the root gives the type of its filesystem, [lstat] its device. *)
Definition verify_root (fs_type dev : option Z) (b : FsNotifyBridge) : FsNotifyBridge * bool :=
  match fs_type, dev with
  | Some t, Some d =>
      if t =? FUSE_SUPER_MAGIC then (mkBridge (root_ b) d (running_ b) (poke_tid_ b) (self_pid_ b) (queue_ b) (active_ b) (bstats_ b), true)
      else (b, false)
  | _, _ => (b, false)
  end.

Record BridgeThread := mkBThread { bt_bridge : FsNotifyBridge; bt_joinable : bool }.

Definition start (mount_root : bytes) (pid : Z) (t : BridgeThread) : option BridgeThread :=
  let b := bt_bridge t in
  if running_ b then Some t
  else if bt_joinable t then None
  else Some (mkBThread (mkBridge mount_root (root_dev_ b) true (poke_tid_ b) pid (queue_ b) (active_ b) (bstats_ b)) true).

(** What [run] does before its loop: [false] where the thread ends at once. *)
Definition run_begin (tid : Z) (fs_type dev : option Z) (t : BridgeThread) : BridgeThread * bool :=
  let b := bt_bridge t in
  let b := mkBridge (root_ b) (root_dev_ b) (running_ b) tid (self_pid_ b) (queue_ b) (active_ b) (bstats_ b) in
  let '(b, ok) := verify_root fs_type dev b in
  if ok then (mkBThread b (bt_joinable t), true)
  else (mkBThread (mkBridge (root_ b) (root_dev_ b) false (poke_tid_ b) (self_pid_ b) (queue_ b) (active_ b) (bstats_ b)) (bt_joinable t), false).

Definition stop_thread (t : BridgeThread) : BridgeThread :=
  if running_ (bt_bridge t) then mkBThread (stop (bt_bridge t)) false else t.

(** The destructor: [stop], then the members go. *)
Definition destroy (t : BridgeThread) : option unit := if bt_joinable (stop_thread t) then None else Some ().

(** A bridge whose root is the FUSE mount goes away cleanly. *)
Lemma destroy_after_start root pid tid dev t : bt_joinable t = false → running_ (bt_bridge t) = false →
  ∃ t1, start root pid t = Some t1 ∧ ∃ t2, run_begin tid (Some FUSE_SUPER_MAGIC) (Some dev) t1 = (t2, true) ∧ root_dev_ (bt_bridge t2) = dev ∧ destroy t2 = Some ().
Proof. intros Hj Hr. unfold start. rewrite Hr, Hj. eexists. split; [done|]. cbn. eexists. split; [reflexivity|]. done. Qed.

(** One whose root is not ends the program when it is destroyed: [run] has cleared
    [running_], so [stop] does not join the thread. *)
Lemma destroy_unverified root pid tid t : bt_joinable t = false → running_ (bt_bridge t) = false →
  ∃ t1, start root pid t = Some t1 ∧ ∃ t2, run_begin tid None None t1 = (t2, false) ∧ destroy t2 = None.
Proof. intros Hj Hr. unfold start. rewrite Hr, Hj. eexists. split; [done|]. cbn. eexists. split; [reflexivity|]. done. Qed.
