(* ===== verification/Mount.v ===== *)
(** * The FUSE handlers ([mount/fuse_mount.cpp])

    A handler is a function of the mount (the client, the bridge and the two
    options), of the calling process and of the agent's answers; it returns the
    mount, the calls it forwards to the agent, and what it tells FUSE. *)

From S2P Require Import Prelude Types KeyMap Messages Path WinNames StringPool FlatMap MetadataTree.
From S2P Require Import ReadCache FileSystem Server Requests Client Bridge.

Inductive Errno := ENOENT | EEXIST | ENOTDIR | EISDIR | EINVAL | ETIMEDOUT | EIO | EPERM.
Abbreviation Rc A := (result Errno A).

Definition err_to_errno (e : Errc) : Errno :=
  match e with
  | NotFound => ENOENT
  | AlreadyExists => EEXIST
  | NotADirectory => ENOTDIR
  | IsADirectory => EISDIR
  | InvalidPath | InvalidArgument => EINVAL
  | Timeout => ETIMEDOUT
  | ConnectionClosed => EIO
  | _ => EIO
  end.

Definition to_errno {A B} (k : A → B) (r : Result A) : Rc B :=
  match r with Ok a => Ok (k a) | Err e => Err (err_to_errno e) end.

(** What the mount asks the agent for. *)
Inductive Call :=
| CCreate (path : bytes) (mode : Z)
| CMkdir (path : bytes) (mode : Z)
| CUnlink (path : bytes)
| CRmdir (path : bytes)
| CRename (from to : bytes)
| CWrite (path : bytes) (offset : Z) (data : bytes)
| CTruncate (path : bytes) (size : Z).

Definition request_of (c : Call) : MsgType.t * bytes :=
  match c with
  | CCreate p m => create_file_request p m
  | CMkdir p m => mkdir_request p m
  | CUnlink p => unlink_request p
  | CRmdir p => rmdir_request p
  | CRename f t => rename_request f t
  | CWrite p o d => write_request p o d
  | CTruncate p s => truncate_request p s
  end.

(** ** Names and attributes *)

Fixpoint skip_slashes (p : bytes) : bytes :=
  match p with [] => [] | c :: p' => if c =? c_slash then skip_slashes p' else p end.

Definition to_rel (windows : bool) (path : bytes) : bytes :=
  let p := skip_slashes path in if windows then unescape_from_windows p else p.

Definition present_name (windows : bool) (raw : bytes) : bytes := if windows then escape_for_windows raw else raw.
Definition to_fuse_path (windows : bool) (rel : bytes) : bytes := c_slash :: present_name windows rel.

Definition S_IFMT : Z := 0xF000.
Definition S_IFREG : Z := 0x8000.
Definition S_IFDIR : Z := 0x4000.
Definition S_IFLNK : Z := 0xA000.

Record Stat := mkStat { st_mode : Z; st_nlink : Z; st_size : Z; st_sec : Z; st_nsec : Z }.

(** C++ division truncates towards zero. *)
Definition fill_stat (a : Attributes) : Stat :=
  let sec := Z.quot (a_mtime_ns a) 1000000000 in
  let nsec := Z.rem (a_mtime_ns a) 1000000000 in
  match a_kind a with
  | Directory => mkStat (Z.lor S_IFDIR 493) 2 0 sec nsec
  | Symlink => mkStat (Z.lor S_IFLNK 511) 1 (to_i64 (a_size a)) sec nsec
  | _ => mkStat (Z.lor S_IFREG 420) 1 (to_i64 (a_size a)) sec nsec
  end.

Definition fill_ghost_stat (k : NodeKind) : Stat :=
  match k with Directory => mkStat (Z.lor S_IFDIR 493) 2 0 0 0 | _ => mkStat (Z.lor S_IFREG 420) 1 0 0 0 end.

(** ** Write-back handles *)

Record WriteHandle := mkHandle { wh_path : bytes; wh_start : Z; wh_buf : bytes }.
Definition kWriteBackCap : Z := Z.shiftl 8 20.

Inductive PokeVerdict := NotOurs | Claimed | Refuse.

Section mount.
Context {M : Type} `{KeyMapOps M}.

Record Mount := mkMount { m_client : Client M; m_notify : option FsNotifyBridge; m_writeback : bool; m_windows : bool }.
Definition with_client c m := mkMount c (m_notify m) (m_writeback m) (m_windows m).
Definition with_notify b m := mkMount (m_client m) b (m_writeback m) (m_windows m).

Definition claim_poke (m : Mount) (caller : Z) (what : Poke) (rel rel2 : bytes) : Mount * PokeVerdict :=
  match m_notify m with
  | None => (m, NotOurs)
  | Some b =>
      let '(b, ok) := claim b caller what rel rel2 in
      let m := with_notify (Some b) m in
      if ok then (m, Claimed) else if is_poke_thread b caller then (m, Refuse) else (m, NotOurs)
  end.

(** The guard of the mutating handlers. *)
Definition guarded (m : Mount) (caller : Z) (what : Poke) (rel rel2 : bytes)
    (k : Mount → Mount * list Call * Rc Z) : Mount * list Call * Rc Z :=
  match claim_poke m caller what rel rel2 with
  | (m, Claimed) => (m, [], Ok 0)
  | (m, Refuse) => (m, [], Err EIO)
  | (m, NotOurs) => k m
  end.

(** A call forwarded to the agent, and what its answer makes of the client. *)
Definition forward {A} (m : Mount) (c : Call) (r : Client M * Result A) : Mount * list Call * Rc Z :=
  (with_client r.1 m, [c], to_errno (λ _, 0) r.2).

(** ** Reads of the mirror *)

Definition mirror (m : Mount) (path : bytes) : option Z :=
  lookup (tree_ (m_client m)) (to_rel (m_windows m) path) CaseInsensitive.

Definition op_getattr (m : Mount) (caller : Z) (path : bytes) : Rc Stat :=
  let rel := to_rel (m_windows m) path in
  let real :=
    match lookup (tree_ (m_client m)) rel CaseInsensitive with
    | None => Err ENOENT
    | Some id => Ok (fill_stat (n_attr (node (tree_ (m_client m)) id)))
    end in
  match m_notify m with
  | None => real
  | Some b =>
      match pretend b caller rel with
      | (PAbsent, _) => Err ENOENT
      | (PPresent, kind) => Ok (fill_ghost_stat kind)
      | (PNothing, _) => real
      end
  end.

(** The entries handed to [filler], which says whether there is room. *)
Fixpoint fill_entries (room : bytes → bool) (es : list (bytes * Stat)) : list (bytes * Stat) :=
  match es with [] => [] | e :: es => if room e.1 then e :: fill_entries room es else [] end.

Definition op_readdir (m : Mount) (path : bytes) (room : bytes → bool) : Rc (list (bytes * Stat)) :=
  let t := tree_ (m_client m) in
  match mirror m path with
  | None => Err ENOENT
  | Some id =>
      if negb (is_dir (node t id)) then Err ENOTDIR
      else Ok (fill_entries room
                 ((λ c, (present_name (m_windows m) (name t c), fill_stat (n_attr (node t c)))) <$> for_each_child t id))
  end.

(** The new handle, in write-back mode. *)
Definition open_handle (m : Mount) (rel : bytes) : option WriteHandle :=
  if m_writeback m then Some (mkHandle rel 0 []) else None.

Definition op_open (m : Mount) (path : bytes) : Rc (option WriteHandle) :=
  match mirror m path with
  | None => Err ENOENT
  | Some id => if is_dir (node (tree_ (m_client m)) id) then Err EISDIR else Ok (open_handle m (to_rel (m_windows m) path))
  end.

Definition op_chmod (m : Mount) (path : bytes) : Rc Z := match mirror m path with Some _ => Ok 0 | None => Err ENOENT end.
Definition op_utimens (m : Mount) (path : bytes) : Rc Z := match mirror m path with Some _ => Ok 0 | None => Err ENOENT end.

(** ** Mutations *)

Definition op_create (m : Mount) (caller : Z) (path : bytes) (mode : Z) (r : Result Pending)
    : Mount * list Call * Rc Z * option WriteHandle :=
  let rel := to_rel (m_windows m) path in
  let '(m', calls, rc) := guarded m caller Mknod rel [] (λ m,
    forward m (CCreate rel (Z.land mode 511)) (create_file (m_client m) rel r)) in
  (m', calls, rc, match rc, calls with Ok _, _ :: _ => open_handle m rel | _, _ => None end).

Definition op_mknod (m : Mount) (caller : Z) (path : bytes) (mode : Z) (r : Result Pending) : Mount * list Call * Rc Z :=
  let rel := to_rel (m_windows m) path in
  guarded m caller Mknod rel [] (λ m,
    if negb (Z.land mode S_IFMT =? 0) && negb (Z.land mode S_IFMT =? S_IFREG) then (m, [], Err EPERM)
    else forward m (CCreate rel (Z.land mode 511)) (create_file (m_client m) rel r)).

Definition op_mkdir (m : Mount) (caller : Z) (path : bytes) (mode : Z) (r : Result Pending) : Mount * list Call * Rc Z :=
  let rel := to_rel (m_windows m) path in
  guarded m caller Mkdir rel [] (λ m,
    forward m (CMkdir rel (Z.land mode 511)) (mkdir (m_client m) rel (Z.land mode 511) r)).

Definition op_unlink (m : Mount) (caller : Z) (path : bytes) (r : Result Pending) : Mount * list Call * Rc Z :=
  let rel := to_rel (m_windows m) path in
  guarded m caller Unlink rel [] (λ m, forward m (CUnlink rel) (unlink (m_client m) rel r)).

Definition op_rmdir (m : Mount) (caller : Z) (path : bytes) (r : Result Pending) : Mount * list Call * Rc Z :=
  let rel := to_rel (m_windows m) path in
  guarded m caller Rmdir rel [] (λ m, forward m (CRmdir rel) (rmdir (m_client m) rel r)).

Definition op_rename (m : Mount) (caller : Z) (from to : bytes) (r : Result Pending) : Mount * list Call * Rc Z :=
  let rfrom := to_rel (m_windows m) from in
  let rto := to_rel (m_windows m) to in
  guarded m caller Rename rfrom rto (λ m, forward m (CRename rfrom rto) (rename (m_client m) rfrom rto r)).

Definition op_truncate (m : Mount) (now : Z) (path : bytes) (size : Z) (r : Result Pending) : Mount * list Call * Rc Z :=
  let rel := to_rel (m_windows m) path in
  forward m (CTruncate rel size) (truncate (m_client m) now rel size r).

(** ** File contents *)

(** [flush_handle]: the handle after it, the write sent, the result. *)
Definition flush_handle (m : Mount) (now : Z) (h : option WriteHandle) (r : Result Pending)
    : Mount * option WriteHandle * list Call * Rc Z :=
  match h with
  | None => (m, None, [], Ok 0)
  | Some w =>
      if bool_decide (wh_buf w = []) then (m, h, [], Ok 0)
      else
        let '(c, res) := write (m_client m) now (wh_path w) (wh_start w) r in
        let m := with_client c m in
        let call := CWrite (wh_path w) (wh_start w) (wh_buf w) in
        match res with
        | Err e => (m, h, [call], Err (err_to_errno e))
        | Ok _ => (m, Some (mkHandle (wh_path w) (wrap 64 (wh_start w + zlen (wh_buf w))) []), [call], Ok 0)
        end
  end.

(** [r1] and [r2] answer the flush before and the flush after the append. *)
Definition op_write (m : Mount) (now : Z) (h : option WriteHandle) (path data : bytes) (offset : Z) (r1 r2 : Result Pending)
    : Mount * option WriteHandle * list Call * Rc Z :=
  match (if m_writeback m then h else None) with
  | None =>
      let rel := to_rel (m_windows m) path in
      let '(c, res) := write (m_client m) now rel offset r1 in
      (with_client c m, h, [CWrite rel offset data], to_errno id res)
  | Some w =>
      let '(m, h1, calls1, rc1) :=
        if negb (bool_decide (wh_buf w = [])) && negb (offset =? wrap 64 (wh_start w + zlen (wh_buf w)))
        then flush_handle m now (Some w) r1 else (m, Some w, [], Ok 0) in
      match rc1, h1 with
      | Err e, _ => (m, h1, calls1, Err e)
      | Ok _, None => (m, h1, calls1, Ok 0)                        (* not reached: the handle is there *)
      | Ok _, Some w =>
          let start := if bool_decide (wh_buf w = []) then offset else wh_start w in
          let w := mkHandle (wh_path w) start (wh_buf w ++ data) in
          if zlen (wh_buf w) >=? kWriteBackCap then
            let '(m, h2, calls2, rc2) := flush_handle m now (Some w) r2 in
            (m, h2, calls1 ++ calls2, match rc2 with Err e => Err e | Ok _ => Ok (zlen data) end)
          else (m, Some w, calls1, Ok (zlen data))
      end
  end.

Definition op_flush := flush_handle.
Definition op_fsync := flush_handle.

(** The handle is gone afterwards, whatever the flush said. *)
Definition op_release (m : Mount) (now : Z) (h : option WriteHandle) (r : Result Pending) : Mount * list Call * Rc Z :=
  let '(m, _, calls, rc) := flush_handle m now h r in (m, calls, rc).

Definition op_read (m : Mount) (now : Z) (h : option WriteHandle) (path : bytes) (size offset : Z)
    (rw many one : Result Pending) : Mount * option WriteHandle * list Call * Rc bytes :=
  let '(m, h, calls, rc) := if m_writeback m then flush_handle m now h rw else (m, h, [], Ok 0) in
  match rc with
  | Err e => (m, h, calls, Err e)
  | Ok _ =>
      let '(c, res) := read_into (m_client m) (to_rel (m_windows m) path) offset (Z.min size (Z.shiftl 16 20)) many one in
      (with_client c m, h, calls, to_errno id res)
  end.

(** What [op_readlink] leaves in the buffer of [size] bytes, the NUL aside. *)
Definition op_readlink (m : Mount) (path : bytes) (size : Z) (r : Result Pending) : Mount * Rc bytes :=
  if size =? 0 then (m, Err EINVAL)
  else
    let '(c, res) := readlink (m_client m) (to_rel (m_windows m) path) r in
    (with_client c m, to_errno (λ t, take (Z.to_nat (Z.min (zlen t) (size - 1))) t) res).
End mount.
Arguments Mount : clear implicits.

(** ** The bridge's requests and everyone else's *)

Inductive Mutation :=
| MutCreate (path : bytes) (mode : Z) | MutMknod (path : bytes) (mode : Z) | MutMkdir (path : bytes) (mode : Z)
| MutUnlink (path : bytes) | MutRmdir (path : bytes) | MutRename (from to : bytes).

Section gate.
Context {M : Type} `{KeyMapOps M}.
Implicit Types (m : Mount M).

Definition mutate m (caller : Z) (mu : Mutation) (r : Result Pending) : Mount M * list Call * Rc Z :=
  match mu with
  | MutCreate p mode => (op_create m caller p mode r).1
  | MutMknod p mode => op_mknod m caller p mode r
  | MutMkdir p mode => op_mkdir m caller p mode r
  | MutUnlink p => op_unlink m caller p r
  | MutRmdir p => op_rmdir m caller p r
  | MutRename f t => op_rename m caller f t r
  end.

Lemma claim_self b caller what rel rel2 : is_self b caller = true →
  is_self (claim b caller what rel rel2).1 caller = true.
Proof. intros Hs. unfold claim. rewrite Hs. cbn [negb]. by destruct (_ || _). Qed.

Lemma claim_other b caller what rel rel2 : is_self b caller = false → claim b caller what rel rel2 = (b, false).
Proof. intros Hs. unfold claim. by rewrite Hs. Qed.

Lemma guarded_self m b caller what rel rel2 k : m_notify m = Some b → is_self b caller = true →
  let '(m', calls, rc) := guarded m caller what rel rel2 k in m_client m' = m_client m ∧ calls = [].
Proof.
  intros Hb Hs. unfold guarded, claim_poke. rewrite Hb. pose proof (claim_self b caller what rel rel2 Hs) as Hc.
  destruct (claim b caller what rel rel2) as [b' ok]. cbn [fst] in Hc. destruct ok; [done|].
  unfold is_poke_thread. by rewrite Hc.
Qed.

(** What a request gives when there is no bridge, the bridge put back. *)
Definition as_if_no_bridge {A B} (b : FsNotifyBridge) (r : Mount M * A * B) : Mount M * A * B :=
  let '(m, a, c) := r in (with_notify (Some b) m, a, c).

Lemma guarded_other m b caller what rel rel2 k k' : m_notify m = Some b → is_self b caller = false →
  k m = as_if_no_bridge b (k' (with_notify None m)) →
  guarded m caller what rel rel2 k = as_if_no_bridge b (guarded (with_notify None m) caller what rel rel2 k').
Proof.
  intros Hb Hs Hk. unfold guarded, claim_poke. rewrite Hb, claim_other by done. unfold is_poke_thread. rewrite Hs.
  cbn [with_notify m_notify]. rewrite <- Hk. f_equal. destruct m; cbn in *. by subst.
Qed.

Ltac gate_self :=
  match goal with
  | Hb : m_notify ?m = Some ?b, Hs : is_self ?b ?c = true |- context [guarded ?m ?c ?w ?p ?q ?k] =>
      let Hg := fresh in
      pose proof (guarded_self m b c w p q k Hb Hs) as Hg; destruct (guarded m c w p q k) as [[? ?] ?]; exact Hg
  end.
Ltac gate_other Hf :=
  match goal with
  | Hb : m_notify ?m = Some ?b, Hs : is_self ?b ?c = false
    |- context [guarded ?m ?c ?w ?p ?q ?k] =>
      match goal with
      | |- context [guarded (with_notify None m) c w p q ?k'] =>
          rewrite (guarded_other m b c w p q k k' Hb Hs (Hf _ _ _));
          destruct (guarded (with_notify None m) c w p q k') as [[? ?] ?]; done
      end
  end.


(** A poke is recognised exactly once: the request it was announced for is
    answered locally, and the same request again from the same thread is
    refused, not forwarded. *)
Theorem poke_claimed_once m b caller what rel rel2 :
  m_notify m = Some b → is_self b caller = true → what ≠ PokeNone →
  act_what (active_ b) = what → act_path (active_ b) = rel → act_path2 (active_ b) = rel2 →
  (claim_poke m caller what rel rel2).2 = Claimed
  ∧ (claim_poke (claim_poke m caller what rel rel2).1 caller what rel rel2).2 = Refuse.
Proof.
  intros Hb Hs Hne H1 H2 H3.
  assert (claim b caller what rel rel2 = (with_active no_active b, true)) as Hc.
  { unfold claim. rewrite Hs. cbn [negb]. by rewrite !bool_decide_eq_true_2. }
  assert (is_self (with_active no_active b) caller = true) as Hs' by done.
  assert (claim (with_active no_active b) caller what rel rel2 = (with_active no_active b, false)) as Hc'.
  { unfold claim. rewrite Hs'. cbn [negb with_active active_ no_active act_what].
    by rewrite (bool_decide_eq_false_2 (PokeNone = what)). }
  unfold claim_poke at 1 3. rewrite Hb, Hc. cbn [fst snd]. split; [done|].
  unfold claim_poke. cbn [with_notify m_notify]. rewrite Hc'. unfold is_poke_thread. by rewrite Hs'.
Qed.
End gate.

(** ** Write-back *)

(** A file after [data] is written at [offset] (a hole reads as zeros). *)
Definition put_at (f : bytes) (offset : Z) (data : bytes) : bytes :=
  if bool_decide (data = []) then f
  else
    let n := Z.to_nat offset in
    take n f ++ replicate (n - length f) 0 ++ data ++ drop (n + length data) f.

(** The contents after a call: the last [CTruncate] cuts or extends. *)
Definition apply_call (f : bytes) (c : Call) : bytes :=
  match c with
  | CWrite _ offset data => put_at f offset data
  | CTruncate _ size => take (Z.to_nat size) f ++ replicate (Z.to_nat size - length f) 0
  | _ => f
  end.

Definition apply_write (f : bytes) (w : Z * bytes) : bytes := put_at f w.1 w.2.

Lemma put_at_merge f s b d : 0 <= s → b ≠ [] → put_at (put_at f s b) (s + zlen b) d = put_at f s (b ++ d).
Proof.
  intros Hs Hb. unfold put_at at 2. rewrite bool_decide_eq_false_2 by done. unfold put_at.
  destruct (decide (d = [])) as [->|Hd].
  { rewrite bool_decide_eq_true_2, app_nil_r, bool_decide_eq_false_2 by done. done. }
  rewrite (bool_decide_eq_false_2 (d = [])) by done.
  rewrite (bool_decide_eq_false_2 (b ++ d = [])) by (by intros [? ?]%app_eq_nil).
  set (n := Z.to_nat s). replace (Z.to_nat (s + zlen b)) with (n + length b)%nat by (unfold zlen, n; lia).
  set (head := take n f ++ replicate (n - length f) 0).
  assert (length head = n) as Hn by (unfold head; rewrite length_app, length_take, length_replicate; lia).
  replace (take n f ++ replicate (n - length f) 0 ++ b ++ drop (n + length b) f)
    with ((head ++ b) ++ drop (n + length b) f) by (unfold head; by rewrite <- !app_assoc).
  rewrite (take_app_length' (head ++ b)) by (rewrite length_app; lia).
  rewrite !length_app, Hn. replace (n + length b - (n + length b + length (drop (n + length b) f)))%nat with 0%nat by lia.
  rewrite (drop_app_ge (head ++ b)) by (rewrite length_app; lia). rewrite length_app, Hn.
  replace (n + length b + length d - (n + length b))%nat with (length d) by lia. rewrite drop_drop.
  cbn [replicate app]. unfold head. rewrite <- !app_assoc. do 3 f_equal. f_equal. f_equal. lia.
Qed.

Section writeback.
Context {M : Type} `{KeyMapOps M}.
Context (now : Z) (r : Result Pending) (resp : WriteResponse).
Context (Hr : decode_reply MsgType.WriteResponse read_write_response r = Ok resp).

(** A sequence of writes on one handle, every flush answered by [r]. *)
Fixpoint write_all (m : Mount M) (h : option WriteHandle) (path : bytes) (ws : list (Z * bytes))
    : Mount M * option WriteHandle * list Call :=
  match ws with
  | [] => (m, h, [])
  | (off, d) :: ws =>
      let '(m, h, calls, _) := op_write m now h path d off r r in
      let '(m, h, calls') := write_all m h path ws in (m, h, calls ++ calls')
  end.

(** What the file will hold once the buffer is flushed. *)
Definition pending_file (f : bytes) (w : WriteHandle) : bytes := put_at f (wh_start w) (wh_buf w).

Definition handle_ok (w : WriteHandle) : Prop := 0 <= wh_start w ∧ wh_start w + zlen (wh_buf w) < 2 ^ 64.

Lemma write_result (cl : Client M) path off : (write cl now path off r).2 = Ok (wr_written resp).
Proof. unfold write. by rewrite Hr. Qed.

(** A flush sends the buffer and keeps what the file will hold. *)
Lemma flush_spec (m : Mount M) w f : handle_ok w →
  ∃ m' w' calls, flush_handle m now (Some w) r = (m', Some w', calls, Ok 0)
    ∧ wh_buf w' = [] ∧ handle_ok w' ∧ wh_path w' = wh_path w ∧ m_writeback m' = m_writeback m
    ∧ foldl apply_call f calls = pending_file f w
    ∧ Forall (λ c, ∃ o d, c = CWrite (wh_path w) o d) calls.
Proof.
  intros [H0 H1]. unfold flush_handle. case_bool_decide as Hb.
  - exists m, w, []. split_and!; try done. unfold pending_file, put_at. by rewrite Hb, bool_decide_eq_true_2.
  - pose proof (write_result (m_client m) (wh_path w) (wh_start w)) as Hw.
    destruct (write (m_client m) now (wh_path w) (wh_start w) r) as [c res]. cbn [snd] in Hw. subst res.
    rewrite wrap_id by (pose proof (zlen_nonneg (wh_buf w)); lia). do 3 eexists. split; [reflexivity|].
    cbn. split_and!; try done.
    + pose proof (zlen_nonneg (wh_buf w)). split; cbn [wh_start wh_buf]; [lia|]. change (zlen []) with 0. lia.
    + constructor; [eauto|constructor].
Qed.

Lemma op_write_spec (m : Mount M) w path off d f :
  m_writeback m = true → handle_ok w → 0 <= off → off + zlen d < 2 ^ 64 →
  ∃ m' w' calls, op_write m now (Some w) path d off r r = (m', Some w', calls, Ok (zlen d))
    ∧ handle_ok w' ∧ wh_path w' = wh_path w ∧ m_writeback m' = true
    ∧ pending_file (foldl apply_call f calls) w' = put_at (pending_file f w) off d
    ∧ Forall (λ c, ∃ o e, c = CWrite (wh_path w) o e) calls.
Proof.
  intros Hm Hw Ho Hb. unfold op_write. rewrite Hm.
  set (pre := if negb (bool_decide (wh_buf w = [])) && _ then _ else _).
  assert (∃ m1 w1 calls1, pre = (m1, Some w1, calls1, Ok 0) ∧ handle_ok w1 ∧ wh_path w1 = wh_path w ∧ m_writeback m1 = true
    ∧ pending_file (foldl apply_call f calls1) w1 = pending_file f w
    ∧ (wh_buf w1 = [] ∨ off = wh_start w1 + zlen (wh_buf w1))
    ∧ Forall (λ c, ∃ o e, c = CWrite (wh_path w) o e) calls1) as (m1 & w1 & calls1 & -> & Hw1 & Hp1 & Hm1 & Hf1 & Hc1 & Hl1).
  { subst pre. destruct (negb (bool_decide (wh_buf w = [])) && negb (off =? wrap 64 (wh_start w + zlen (wh_buf w)))) eqn:E.
    - destruct (flush_spec m w f Hw) as (m1 & w1 & c1 & -> & Hb1 & Hw1 & Hp1 & Hm1 & Hf1 & Hl1). exists m1, w1, c1.
      split_and!; [done|done|done|congruence| |by left|done]. rewrite Hf1. unfold pending_file at 1, put_at. by rewrite Hb1, bool_decide_eq_true_2.
    - exists m, w, []. split_and!; try done. apply andb_false_iff in E as [E|E]; b2p; [by left|right].
      rewrite wrap_id in E by (destruct Hw; pose proof (zlen_nonneg (wh_buf w)); lia). done. }
  set (w2 := mkHandle (wh_path w1) (if bool_decide (wh_buf w1 = []) then off else wh_start w1) (wh_buf w1 ++ d)).
  assert (handle_ok w2 ∧ pending_file (foldl apply_call f calls1) w2 = put_at (pending_file f w) off d) as [Hw2 Hf2].
  { rewrite <- Hf1. unfold w2, handle_ok, pending_file. cbn [wh_start wh_buf]. case_bool_decide as He.
    - rewrite He. cbn [app]. split; [lia|]. unfold put_at at 3. by rewrite bool_decide_eq_true_2.
    - destruct Hc1 as [?|Hc1]; [done|]. destruct Hw1 as [H0 H1]. rewrite zlen_app. split; [lia|].
      rewrite Hc1. symmetry. by apply put_at_merge. }
  fold w2. destruct (_ >=? kWriteBackCap).
  - destruct (flush_spec m1 w2 (foldl apply_call f calls1) Hw2) as (m3 & w3 & c3 & -> & Hb3 & Hw3 & Hp3 & Hm3 & Hf3 & Hl3).
    exists m3, w3, (calls1 ++ c3). split_and!; [done|done|etrans; [exact Hp3|exact Hp1]|congruence| |].
    + rewrite foldl_app, Hf3. unfold pending_file at 1, put_at at 1. by rewrite Hb3, bool_decide_eq_true_2.
    + apply Forall_app. split; [done|]. cbn [w2 wh_path] in Hl3. by rewrite Hp1 in Hl3.
  - exists m1, w2, calls1. by split_and!.
Qed.

(** C34: write-back buffering is invisible: any sequence of writes through one
    handle, then a flush, sends the agent writes of that file only, whose effect
    on its contents is that of the writes one by one, when the agent accepts
    them. *)
Theorem writeback_equivalent (m : Mount M) p path ws f :
  m_writeback m = true → Forall (λ w, 0 <= w.1 ∧ w.1 + zlen w.2 < 2 ^ 64) ws →
  let '(m1, h, calls) := write_all m (Some (mkHandle p 0 [])) path ws in
  let '(_, _, last, rc) := op_flush m1 now h r in
  rc = Ok 0 ∧ foldl apply_call f (calls ++ last) = foldl apply_write f ws
  ∧ Forall (λ c, ∃ o d, c = CWrite p o d) (calls ++ last).
Proof.
  intros Hm Hws.
  assert (∀ ws (m : Mount M) w f, m_writeback m = true → handle_ok w → wh_path w = p →
    Forall (λ w, 0 <= w.1 ∧ w.1 + zlen w.2 < 2 ^ 64) ws →
    let '(m1, h, calls) := write_all m (Some w) path ws in
    ∃ w', h = Some w' ∧ handle_ok w' ∧ wh_path w' = p
      ∧ pending_file (foldl apply_call f calls) w' = foldl apply_write (pending_file f w) ws
      ∧ Forall (λ c, ∃ o d, c = CWrite p o d) calls) as Hall.
  { clear m ws f Hm Hws. induction ws as [|[off d] ws IH]; intros m w f Hm Hw Hp Hok; cbn [write_all].
    { exists w. by split_and!. }
    inversion Hok as [|? ? [Ho Hb] Hok']; subst. cbn [fst snd] in *.
    destruct (op_write_spec m w path off d f Hm Hw Ho Hb) as (m1 & w1 & c1 & -> & Hw1 & Hp1 & Hm1 & Hf1 & Hl1).
    specialize (IH m1 w1 (foldl apply_call f c1) Hm1 Hw1 Hp1 Hok'). destruct (write_all m1 (Some w1) path ws) as [[m2 h2] c2].
    destruct IH as (w2 & -> & Hw2 & Hp2 & Hf2 & Hl2). exists w2. split_and!; [done|done|done| |by apply Forall_app].
    rewrite foldl_app, Hf2, Hf1. done. }
  specialize (Hall ws m (mkHandle p 0 []) f Hm). destruct (write_all m (Some (mkHandle p 0 [])) path ws) as [[m1 h] calls].
  destruct Hall as (w & -> & Hw & Hp & Hf & Hl); [unfold handle_ok; cbn [wh_start wh_buf]; change (zlen []) with 0; lia|done|done|].
  destruct (flush_spec m1 w (foldl apply_call f calls) Hw) as (m2 & w2 & c2 & E & _ & _ & _ & _ & Hf2 & Hl2).
  unfold op_flush. rewrite E. split_and!; [done| |].
  - rewrite foldl_app, Hf2, Hf. unfold pending_file, put_at at 1. cbn [wh_buf wh_start]. by rewrite bool_decide_eq_true_2.
  - apply Forall_app. split; [done|]. by rewrite Hp in Hl2.
Qed.
End writeback.

(** ** Divergences *)

(** In write-back mode a truncate overtakes the writes buffered before it: the
    file ends up with the bytes the truncate was meant to remove. *)
Theorem truncate_overtakes_writes {M} `{KeyMapOps M} (m : Mount M) now r resp :
  m_writeback m = true → m_windows m = false →
  decode_reply MsgType.WriteResponse read_write_response r = Ok resp →
  let w := mkHandle (str "f") 0 [] in
  let '(m1, h, calls1, _) := op_write m now (Some w) (str "/f") (str "old") 0 r r in
  let '(m2, calls2, _) := op_truncate m1 now (str "/f") 0 r in
  let '(_, calls3, _) := op_release m2 now h r in
  calls1 ++ calls2 ++ calls3 = [CTruncate (str "f") 0; CWrite (str "f") 0 (str "old")]
  ∧ foldl apply_call [] (calls1 ++ calls2 ++ calls3) = str "old"
  ∧ foldl apply_call [] [CWrite (str "f") 0 (str "old"); CTruncate (str "f") 0] = [].
Proof.
  intros Hm Hw Hr. cbv zeta.
  assert (op_write m now (Some (mkHandle (str "f") 0 [])) (str "/f") (str "old") 0 r r
          = (m, Some (mkHandle (str "f") 0 (str "old")), [], Ok 3)) as ->.
  { unfold op_write. rewrite Hm. reflexivity. }
  unfold op_truncate, forward, to_rel. rewrite Hw. set (m2 := with_client _ _).
  unfold op_release, flush_handle. rewrite bool_decide_eq_false_2 by done. cbn [wh_path wh_start wh_buf].
  pose proof (write_result now r resp Hr (m_client m2) (str "f") 0) as Hres.
  destruct (write (m_client m2) now (str "f") 0 r) as [c res]. cbn [snd] in Hres. subst res. done.
Qed.

(** A timestamp before 1970 gets a negative nanosecond field. *)
Theorem fill_stat_negative_nsec : st_nsec (fill_stat (mkAttr 0 (-1) 0 File)) = -1.
Proof. reflexivity. Qed.

(** ** Witnesses *)

Definition demo_mount (writeback : bool) : Mount FlatMap.U64Map :=
  mkMount (client_new CaseInsensitive)
    (Some (set_active (mkActive Unlink (str "a") [] PPresent File) demo_bridge)) writeback false.
Definition demo_reply : Result Pending :=
  Ok (finish (pending_new false) MsgType.WriteResponse (write_write_response (mkWriteResponse 3 1))).


Lemma poke_claimed_once_witness :
  (claim_poke (claim_poke (demo_mount false) 41 Unlink (str "a") []).1 41 Unlink (str "a") []).2 = Refuse.
Proof.
  apply (poke_claimed_once (demo_mount false) (set_active (mkActive Unlink (str "a") [] PPresent File) demo_bridge) 41 Unlink (str "a") []);
    [reflexivity|reflexivity|discriminate|reflexivity|reflexivity|reflexivity].
Defined.

Lemma writeback_equivalent_witness :
  let ws := [(0, str "abc"); (3, str "def"); (1, str "X")] in
  let '(m1, h, calls) := write_all 7 demo_reply (demo_mount true) (Some (mkHandle (str "f") 0 [])) (str "/f") ws in
  let '(_, _, last, _) := op_flush m1 7 h demo_reply in
  calls ++ last = [CWrite (str "f") 0 (str "abcdef"); CWrite (str "f") 1 (str "X")]
  ∧ foldl apply_call [] (calls ++ last) = str "aXcdef".
Proof.
  cbv zeta. set (ws := [(0, str "abc"); (3, str "def"); (1, str "X")]).
  assert (decode_reply MsgType.WriteResponse read_write_response demo_reply = Ok (mkWriteResponse 3 1)) as Hr by (vm_compute; reflexivity).
  assert (Forall (λ w : Z * bytes, 0 <= w.1 ∧ w.1 + zlen w.2 < 2 ^ 64) ws) as Hw
    by (repeat constructor; vm_compute; congruence).
  pose proof (writeback_equivalent 7 demo_reply (mkWriteResponse 3 1) Hr (demo_mount true) (str "f") (str "/f") ws [] eq_refl Hw) as H.
  assert ((write_all 7 demo_reply (demo_mount true) (Some (mkHandle (str "f") 0 [])) (str "/f") ws).2
          = [CWrite (str "f") 0 (str "abcdef")]) as Hc by (vm_compute; reflexivity).
  assert ((write_all 7 demo_reply (demo_mount true) (Some (mkHandle (str "f") 0 [])) (str "/f") ws).1.2
          = Some (mkHandle (str "f") 1 (str "X"))) as Hh by (vm_compute; reflexivity).
  destruct (write_all 7 demo_reply (demo_mount true) (Some (mkHandle (str "f") 0 [])) (str "/f") ws) as [[m1 h] calls].
  cbn [fst snd] in Hc, Hh. subst h calls. unfold op_flush in *.
  destruct (flush_handle m1 7 (Some (mkHandle (str "f") 1 (str "X"))) demo_reply) as [[[m2 h2] last] rc] eqn:E.
  destruct H as (_ & H & _). split; [|rewrite H; vm_compute; reflexivity].
  unfold flush_handle in E. rewrite bool_decide_eq_false_2 in E by done.
  pose proof (write_result 7 demo_reply (mkWriteResponse 3 1) Hr (m_client m1) (str "f") 1) as Hres. cbn [wh_path wh_start] in E.
  destruct (write (m_client m1) 7 (str "f") 1 demo_reply) as [c res]. cbn [snd] in Hres. subst res.
  injection E as _ _ <- _. reflexivity.
Defined.
