(* ===== verification/Refusal.v ===== *)
(** * Refusals

    What a caller of the mount sees of a mutation the agent refuses: the handlers of
    [mount/fuse_mount.cpp], the client's calls, the agent's session and the errors
    of the disk, composed.  [refused] lists the reasons, each with its errno; a
    refused call leaves the mount as it was, and the disk too, but where a file was
    being created or written. *)

From S2P Require Import Prelude Types KeyMap FlatMap Wire Messages Path StringPool MetadataTree.
From S2P Require Import Ignore FileSystem Resolve Scanner ReadCache Server Requests Client Bridge TreeRefine TreeProps ClientProps Walk Mirror Warm Converge Through Names Namespace Mount.

(** ** Error replies *)

Definition small_path (p : bytes) : Prop := zlen p < 2 ^ 13.

Lemma small_str p : small_path p → str_ok p.
Proof. intros Hp. unfold small_path in Hp. unfold str_ok, u64_ok. pose proof (zlen_nonneg p). lia. Qed.

(** The code of an error frame comes back as the error. *)
Lemma error_reply e d : str_ok d → request_result (finish (pending_new false) MsgType.Error (write_error (mkErrorMessage (errc_code e) d))) = Err e.
Proof.
  intros Hd. unfold request_result. cbn [finish p_type p_payload]. rewrite bool_decide_eq_true_2 by done.
  assert (cwf (mkErrorMessage (errc_code e) d)) as Hwf by (split; [destruct e; vm_compute; by split|done]).
  pose proof (codec_rt (A:=ErrorMessage) (mkErrorMessage (errc_code e) d) [] Hwf) as Hc. rewrite app_nil_r in Hc. cbn [enc dec con_wire error_codec id] in Hc. rewrite Hc. cbn [em_code]. by destruct e.
Qed.

Lemma error_sent id e d : small_path d → send_error (Ok ()) id e d = ([mkOut MsgType.Error id (write_error (mkErrorMessage (errc_code e) d)) 0], Ok ()).
Proof.
  intros Hd. unfold send_error. rewrite sends; [done|]. cbn [o_payload]. unfold write_error. cbn [em_code em_detail]. assert (kMaxPayload = 67108864) as -> by reflexivity.
  rewrite zlen_app, zlen_w_u32. pose proof (zlen_w_blob d). change (w_string d) with (w_blob d). unfold small_path in Hd. lia.
Qed.

(** ** What the agent refuses *)

(** The errno of an error of the disk, by [map_fs_error] and [err_to_errno]. *)
Definition errno_of (e : FsErr) : Errno :=
  match e with
  | no_such_file_or_directory => ENOENT
  | file_exists | directory_not_empty => EEXIST
  | not_a_directory => ENOTDIR
  | is_a_directory => EISDIR
  | invalid_argument => EINVAL
  | other_error => EIO
  end.

Definition call_paths (c : Mount.Call) : list bytes :=
  match c with
  | CCreate p _ | CMkdir p _ | CUnlink p | CRmdir p | CWrite p _ _ | CTruncate p _ => [p]
  | CRename f t => [f; t]
  end.

(** What the types of the requests guarantee, with paths of a length the kernel
    hands out and data that fits a frame. *)
Definition call_ok (c : Mount.Call) : Prop :=
  Forall small_path (call_paths c) ∧
  match c with
  | CCreate _ mode | CMkdir _ mode => u32_ok mode
  | CWrite _ off data => u64_ok off ∧ zlen data < 2 ^ 25
  | CTruncate _ size => u64_ok size
  | _ => True
  end.

Section agent.
Context {F : Type} `{FileSystem F} (blake3 : bytes → bytes) (transient : F → bytes → FsErr → bool) (cfg : Config) (rid : Z).
Implicit Types (fs : F).

(** The file opened for a write: in place, or new where there is none. *)
Definition open_for_write fs (full : bytes) : F * option FsErr :=
  match fopen_with_retry transient fs full ModeRP with
  | (fs, Some no_such_file_or_directory) => fopen_with_retry transient fs full ModeWP
  | r => r
  end.

(** The agent refuses a call: what the disk is then, and the errno the caller sees.
    A path outside the root or an offset out of range never reaches the disk. *)
Inductive refused fs : Mount.Call → F → Errno → Prop :=
| refused_outside c p : p ∈ call_paths c → resolve_path cfg p = Err InvalidPath → refused fs c fs EINVAL
| refused_create p mode full fs' e : resolve_path cfg p = Ok full → fopen_with_retry transient fs full ModeW = (fs', Some e) → refused fs (CCreate p mode) fs' EIO
| refused_vanished p mode full fs' : resolve_path cfg p = Ok full → fopen_with_retry transient fs full ModeW = (fs', None) → fs_lstat fs' full = None → refused fs (CCreate p mode) fs' ENOENT
| refused_mkdir p mode full fs' e : resolve_path cfg p = Ok full → fs_create_directory fs full = (fs', Err e) → refused fs (CMkdir p mode) fs' (errno_of e)
| refused_exists p mode full fs' : resolve_path cfg p = Ok full → fs_create_directory fs full = (fs', Ok false) → refused fs (CMkdir p mode) fs' EEXIST
| refused_unlink_dir p full : resolve_path cfg p = Ok full → fs_is_directory fs full = true → refused fs (CUnlink p) fs EISDIR
| refused_unlink p full fs' e : resolve_path cfg p = Ok full → fs_is_directory fs full = false → remove_retry transient 8 full fs = (fs', Err e) → refused fs (CUnlink p) fs' (errno_of e)
| refused_unlink_gone p full fs' : resolve_path cfg p = Ok full → fs_is_directory fs full = false → remove_retry transient 8 full fs = (fs', Ok false) → refused fs (CUnlink p) fs' ENOENT
| refused_rmdir_file p full : resolve_path cfg p = Ok full → fs_is_directory fs full = false → refused fs (CRmdir p) fs ENOTDIR
| refused_rmdir p full fs' e : resolve_path cfg p = Ok full → fs_is_directory fs full = true → fs_remove fs full = (fs', Err e) → refused fs (CRmdir p) fs' (errno_of e)
| refused_rmdir_gone p full fs' : resolve_path cfg p = Ok full → fs_is_directory fs full = true → fs_remove fs full = (fs', Ok false) → refused fs (CRmdir p) fs' ENOENT
| refused_rename f t from to fs' e : resolve_path cfg f = Ok from → resolve_path cfg t = Ok to →
    with_share_retry transient to (λ fs, fs_rename fs from to) fs = (fs', Some e) → refused fs (CRename f t) fs' (errno_of e)
| refused_too_long p size full : resolve_path cfg p = Ok full → kMaxFileOffset < size → refused fs (CTruncate p size) fs EINVAL
| refused_truncate p size full fs' e : resolve_path cfg p = Ok full → size <= kMaxFileOffset →
    with_share_retry transient full (λ fs, fs_resize fs full size) fs = (fs', Some e) → refused fs (CTruncate p size) fs' (errno_of e)
| refused_too_far p off data full : resolve_path cfg p = Ok full → kMaxFileOffset < off → refused fs (CWrite p off data) fs EINVAL
| refused_open p off data full fs' e : resolve_path cfg p = Ok full → off <= kMaxFileOffset → open_for_write fs full = (fs', Some e) → refused fs (CWrite p off data) fs' EIO
| refused_seek p off data full fs' : resolve_path cfg p = Ok full → off <= kMaxFileOffset → open_for_write fs full = (fs', None) →
    seek_in_range off && fs_seek fs' full off = false → refused fs (CWrite p off data) fs' EIO
| refused_short p off data full fs1 fs' n : resolve_path cfg p = Ok full → off <= kMaxFileOffset → open_for_write fs full = (fs1, None) →
    seek_in_range off && fs_seek fs1 full off = true → data ≠ [] → fs_fwrite fs1 full off data = (fs', n) → n ≠ zlen data → refused fs (CWrite p off data) fs' EIO.

(** The agent's answer to a call: refused, with an error frame that carries the
    errno, or one frame that is no error. *)
Definition answer fs (c : Mount.Call) (r : F * (list Out * Result unit)) : Prop :=
  (∃ e d, small_path d ∧ refused fs c r.1 (err_to_errno e) ∧ r.2 = send_error (Ok ()) rid e d)
  ∨ ∃ o, r.2 = ([o], Ok ()) ∧ o_type o ≠ MsgType.Error ∧ o_type o ≠ MsgType.Ping.

Lemma errno_of_mapped e : errno_of e = err_to_errno (map_fs_error e).
Proof. by destruct e. Qed.

Lemma resolved_or_outside p : (∃ full, resolve_path cfg p = Ok full) ∨ resolve_path cfg p = Err InvalidPath.
Proof. unfold resolve_path, resolve. destruct (negb _); [by right|]. destruct (negb _); [by right|left; eauto]. Qed.

Lemma answer_refused fs c fs' n e d : refused fs c fs' n → n = err_to_errno e → small_path d → answer fs c (fs', send_error (Ok ()) rid e d).
Proof. intros Hr -> Hd. left. by exists e, d. Qed.

Lemma answer_frame fs c fs' o : zlen (o_payload o) <= kMaxPayload → o_type o ≠ MsgType.Error → o_type o ≠ MsgType.Ping → answer fs c (fs', send_frame (Ok ()) o).
Proof. intros Hl Ht Hp. right. exists o. by rewrite sends. Qed.

Lemma answer_ok fs c fs' gen : answer fs c (fs', send_ok (Ok ()) gen rid).
Proof. apply answer_frame; [|done..]. cbn [o_payload]. unfold write_mutation_ack. rewrite zlen_w_u64. by assert (kMaxPayload = 67108864) as -> by reflexivity. Qed.

Ltac outside p Hp := let E := fresh "Hres" in destruct (resolved_or_outside p) as [[? E]|E]; rewrite E; [|by eapply answer_refused; [apply (refused_outside _ _ p); [left|done]|done|exact Hp]].

Lemma create_answers fs p mode gen : small_path p → answer fs (CCreate p mode) (do_create transient cfg fs (Ok ()) gen rid p).
Proof.
  intros Hp. unfold do_create. outside p Hp. destruct (fopen_with_retry _ _ _ _) as [fs' [e|]] eqn:Eo; [by eapply answer_refused; [eapply refused_create|..]|].
  unfold Scanner.read_attributes. destruct (fs_lstat fs' x) as [st|] eqn:El; [|by eapply answer_refused; [eapply refused_vanished|..]].
  apply answer_frame; [|done..]. cbn [o_payload]. unfold write_attributes, write_mutation_ack. assert (kMaxPayload = 67108864) as -> by reflexivity. rewrite !zlen_app, zlen_w_u64. change (zlen (w_u8 _)) with 1.
  unfold w_i64. rewrite zlen_w_u64. pose proof (w_varint_length (a_mode (attributes_from st))). pose proof (w_varint_length (a_size (attributes_from st))). lia.
Qed.

Lemma mkdir_answers fs p mode gen : small_path p → answer fs (CMkdir p mode) (do_mkdir cfg fs (Ok ()) gen rid p).
Proof.
  intros Hp. unfold do_mkdir. outside p Hp. destruct (fs_create_directory fs x) as [fs' [[]|e]] eqn:Eo.
  - apply answer_ok.
  - by eapply answer_refused; [eapply refused_exists|..].
  - eapply answer_refused; [by eapply refused_mkdir|apply errno_of_mapped|done].
Qed.

Lemma unlink_answers fs p gen : small_path p → answer fs (CUnlink p) (do_unlink transient cfg fs (Ok ()) gen rid p).
Proof.
  intros Hp. unfold do_unlink. outside p Hp. destruct (fs_is_directory fs x) eqn:Ed; [by eapply answer_refused; [eapply refused_unlink_dir|..]|].
  destruct (remove_retry _ _ _ _) as [fs' [[]|e]] eqn:Eo.
  - apply answer_ok.
  - by eapply answer_refused; [eapply refused_unlink_gone|..].
  - eapply answer_refused; [by eapply refused_unlink|apply errno_of_mapped|done].
Qed.

Lemma rmdir_answers fs p gen : small_path p → answer fs (CRmdir p) (do_rmdir cfg fs (Ok ()) gen rid p).
Proof.
  intros Hp. unfold do_rmdir. outside p Hp. destruct (fs_is_directory fs x) eqn:Ed; [|by eapply answer_refused; [eapply refused_rmdir_file|..]]. cbn [negb].
  destruct (fs_remove fs x) as [fs' [[]|e]] eqn:Eo.
  - apply answer_ok.
  - by eapply answer_refused; [eapply refused_rmdir_gone|..].
  - eapply answer_refused; [by eapply refused_rmdir|apply errno_of_mapped|done].
Qed.

Lemma rename_answers fs f t gen : small_path f → small_path t → answer fs (CRename f t) (do_rename transient cfg fs (Ok ()) gen rid (mkRenameRequest f t)).
Proof.
  intros Hf Ht. unfold do_rename. cbn [nq_from nq_to]. outside f Hf.
  destruct (resolved_or_outside t) as [[to Et]|Et]; rewrite Et; [|by eapply answer_refused; [apply (refused_outside _ _ t); [right; left|done]|done|exact Ht]].
  destruct (with_share_retry _ _ _ _) as [fs' [e|]] eqn:Eo; [eapply answer_refused; [by eapply refused_rename|apply errno_of_mapped|done]|apply answer_ok].
Qed.

Lemma truncate_answers fs p size gen : small_path p → answer fs (CTruncate p size) (do_truncate transient cfg fs (Ok ()) gen rid (mkTruncateRequest p size)).
Proof.
  intros Hp. unfold do_truncate. cbn [tq_path tq_size]. outside p Hp. rewrite Z.gtb_ltb. destruct (Z.ltb_spec kMaxFileOffset size) as [Hl|Hl]; [by eapply answer_refused; [eapply refused_too_long|..]|].
  destruct (with_share_retry _ _ _ _) as [fs' [e|]] eqn:Eo; [eapply answer_refused; [by eapply refused_truncate|apply errno_of_mapped|done]|apply answer_ok].
Qed.

Lemma write_answers fs p off data gen : small_path p → answer fs (CWrite p off data) (do_write transient cfg fs (Ok ()) gen rid (mkWriteRequest p off data)).
Proof.
  intros Hp. unfold do_write. cbn [wq_path wq_offset wq_data]. outside p Hp. rewrite Z.gtb_ltb. destruct (Z.ltb_spec kMaxFileOffset off) as [Hl|Hl]; [by eapply answer_refused; [eapply refused_too_far|..]|].
  pose proof (eq_refl (open_for_write fs x)) as Eo. unfold open_for_write at 2 in Eo.
  destruct (fopen_with_retry transient fs x ModeRP) as [fs0 err0]. set (r := match err0 with Some no_such_file_or_directory => fopen_with_retry transient fs0 x ModeWP | _ => (fs0, err0) end) in *.
  assert (open_for_write fs x = r) as Er by (rewrite Eo; unfold r; by destruct err0 as [[]|]). clearbody r. clear Eo. destruct r as [fs1 [e|]]; [by eapply answer_refused; [eapply refused_open|..]|].
  destruct (seek_in_range off && fs_seek fs1 x off) eqn:Es; cbn [negb]; [|by eapply answer_refused; [eapply refused_seek|..]].
  assert (∀ fs' n, answer fs (CWrite p off data) (fs', send_frame (Ok ()) (mkOut MsgType.WriteResponse rid (write_write_response (mkWriteResponse n gen)) 0))) as Hgood.
  { intros fs' n. apply answer_frame; [|done..]. cbn [o_payload]. unfold write_write_response. assert (kMaxPayload = 67108864) as -> by reflexivity. cbn [wr_written wr_generation]. rewrite zlen_app. pose proof (w_varint_length n). rewrite !zlen_w_u64. lia. }
  case_bool_decide as Hd.
  - subst data. cbn. apply Hgood.
  - destruct (fs_fwrite fs1 x off data) as [fs' n] eqn:Ew. destruct (Z.eqb_spec n (zlen data)) as [Hn|Hn]; [apply Hgood|]. by eapply answer_refused; [eapply refused_short|..].
Qed.

(** Whatever has a reason to be refused is: the operation sends that error. *)
Definition operation (c : Mount.Call) (gen : Z) fs : F * (list Out * Result unit) :=
  match c with
  | CCreate p _ => do_create transient cfg fs (Ok ()) gen rid p
  | CMkdir p _ => do_mkdir cfg fs (Ok ()) gen rid p
  | CUnlink p => do_unlink transient cfg fs (Ok ()) gen rid p
  | CRmdir p => do_rmdir cfg fs (Ok ()) gen rid p
  | CRename f t => do_rename transient cfg fs (Ok ()) gen rid (mkRenameRequest f t)
  | CWrite p off data => do_write transient cfg fs (Ok ()) gen rid (mkWriteRequest p off data)
  | CTruncate p size => do_truncate transient cfg fs (Ok ()) gen rid (mkTruncateRequest p size)
  end.

Lemma outside_refused fs c p gen : p ∈ call_paths c → resolve_path cfg p = Err InvalidPath → ∃ d, operation c gen fs = (fs, send_error (Ok ()) rid InvalidPath d).
Proof.
  intros Hp Hr. destruct c as [q mode|q mode|q|q|f t|q off data|q size]; cbn [call_paths operation] in *; rewrite ?elem_of_cons in Hp.
  5: { unfold do_rename. cbn [nq_from nq_to]. destruct (resolved_or_outside f) as [[from Ef]|Ef]; rewrite Ef; [|by eexists]. destruct Hp as [->|[->|Hp]]; [congruence| |by apply not_elem_of_nil in Hp]. rewrite Hr. by eexists. }
  all: destruct Hp as [->|Hp]; [|by apply not_elem_of_nil in Hp].
  all: unfold do_create, do_mkdir, do_unlink, do_rmdir, do_write, do_truncate; cbn [wq_path tq_path]; rewrite Hr; by eexists.
Qed.

Lemma refused_sends fs c fs' n gen : refused fs c fs' n → ∃ e d, operation c gen fs = (fs', send_error (Ok ()) rid e d).
Proof.
  intros Hr. destruct Hr as [c p Hp Ho|p mode full fs' e Er Ho|p mode full fs' Er Ho El|p mode full fs' e Er Ho|p mode full fs' Er Ho|p full Er Ed|p full fs' e Er Ed Ho|p full fs' Er Ed Ho|p full Er Ed|p full fs' e Er Ed Ho
    |p full fs' Er Ed Ho|f t from to fs' e Er Er' Ho|p size full Er Hl|p size full fs' e Er Hl Ho|p off data full Er Hl|p off data full fs' e Er Hl Ho|p off data full fs' Er Hl Ho Es|p off data full fs1 fs' n Er Hl Ho Es Hd Hw Hn].
  1: { destruct (outside_refused fs c p gen Hp Ho) as [d E]. by exists InvalidPath, d. }
  all: cbn [operation]; unfold do_create, do_mkdir, do_unlink, do_rmdir, do_rename, do_truncate, do_write; cbn [nq_from nq_to tq_path tq_size wq_path wq_offset wq_data]; rewrite Er, ?Er', ?Ed; cbn [negb].
  all: try (rewrite Ho; by eexists _, _).
  - rewrite Ho. unfold Scanner.read_attributes. rewrite El. by eexists _, _.
  - by eexists _, _.
  - by eexists _, _.
  - rewrite Z.gtb_ltb, (proj2 (Z.ltb_lt _ _) Hl). by eexists _, _.
  - rewrite Z.gtb_ltb, (proj2 (Z.ltb_ge _ _) Hl), Ho. by eexists _, _.
  - rewrite Z.gtb_ltb, (proj2 (Z.ltb_lt _ _) Hl). by eexists _, _.
  - rewrite Z.gtb_ltb, (proj2 (Z.ltb_ge _ _) Hl). unfold open_for_write in Ho. destruct (fopen_with_retry transient fs full ModeRP) as [fs0 [[]|]]; rewrite ?Ho; simplify_eq; by eexists _, _.
  - rewrite Z.gtb_ltb, (proj2 (Z.ltb_ge _ _) Hl). unfold open_for_write in Ho. destruct (fopen_with_retry transient fs full ModeRP) as [fs0 [[]|]]; rewrite ?Ho; simplify_eq; rewrite Es; by eexists _, _.
  - rewrite Z.gtb_ltb, (proj2 (Z.ltb_ge _ _) Hl). unfold open_for_write in Ho. rewrite (bool_decide_eq_false_2 (data = [])) by done.
    destruct (fopen_with_retry transient fs full ModeRP) as [fs0 [[]|]]; rewrite ?Ho; simplify_eq; rewrite Es; cbn [negb]; rewrite Hw, (proj2 (Z.eqb_neq _ _) Hn); by eexists _, _.
Qed.

(** The session takes the request apart and answers it. *)
Lemma taken_apart fs c gen : call_ok c → handle_mutation transient cfg fs (Ok ()) gen (request_of c).1 rid (request_of c).2 = operation c gen fs.
Proof.
  intros [Hp Hc]. destruct c as [p mode|p mode|p|p|f t|p off data|p size]; cbn [operation call_paths request_of create_file_request mkdir_request unlink_request rmdir_request rename_request write_request truncate_request fst snd handle_mutation] in *.
  all: repeat match goal with Hp : Forall _ (_ :: _) |- _ => let Hq := fresh "Hq" in apply Forall_cons in Hp as [Hq Hp] end.
  - assert (cwf (mkCreateRequest p mode)) as Hwf by (split; [done|by apply small_str]). exact (decoded_enc (A:=CreateRequest) fs (mkCreateRequest p mode) _ Hwf).
  - assert (cwf (mkMkdirRequest p mode)) as Hwf by (split; [done|by apply small_str]). exact (decoded_enc (A:=MkdirRequest) fs (mkMkdirRequest p mode) _ Hwf).
  - exact (decoded_enc (A:=PathRequest) fs (mkPathRequest p) _ (small_str p Hq)).
  - exact (decoded_enc (A:=PathRequest) fs (mkPathRequest p) _ (small_str p Hq)).
  - assert (cwf (mkRenameRequest f t)) as Hwf by (split; by apply small_str). exact (decoded_enc (A:=RenameRequest) fs (mkRenameRequest f t) _ Hwf).
  - destruct Hc as [Ho Hl]. assert (cwf (mkWriteRequest p off data)) as Hwf by (split_and!; first [done|by apply small_str|unfold str_ok, u64_ok; cbn; pose proof (zlen_nonneg data); lia]).
    exact (decoded_enc (A:=WriteRequest) fs (mkWriteRequest p off data) _ Hwf).
  - assert (cwf (mkTruncateRequest p size)) as Hwf by (split; first [done|by apply small_str]). exact (decoded_enc (A:=TruncateRequest) fs (mkTruncateRequest p size) _ Hwf).
Qed.

Lemma operation_answers fs c gen : call_ok c → answer fs c (operation c gen fs).
Proof.
  intros [Hp _]. destruct c; cbn [operation call_paths] in *; repeat match goal with Hp : Forall _ (_ :: _) |- _ => let Hq := fresh "Hq" in apply Forall_cons in Hp as [Hq Hp] end.
  - by apply create_answers.
  - by apply mkdir_answers.
  - by apply unlink_answers.
  - by apply rmdir_answers.
  - by apply rename_answers.
  - by apply write_answers.
  - by apply truncate_answers.
Qed.

Lemma call_fits c : call_ok c → zlen (request_of c).2 <= kMaxPayload.
Proof.
  intros [Hp Hc]. assert (kMaxPayload = 67108864) as -> by reflexivity. assert (∀ q, small_path q → zlen (w_string q) <= 9000) as Hs by (intros q Hq; unfold small_path in Hq; pose proof (zlen_w_blob q); change (w_string q) with (w_blob q); lia).
  destruct c as [p mode|p mode|p|p|f t|p off data|p size]; cbn [call_paths request_of create_file_request mkdir_request unlink_request rmdir_request rename_request write_request truncate_request fst snd] in *.
  all: repeat match goal with Hp : Forall _ (_ :: _) |- _ => let Hq := fresh "Hq" in apply Forall_cons in Hp as [Hq Hp]; apply Hs in Hq end.
  - unfold write_create_request. cbn [cq_mode cq_path]. rewrite zlen_app. pose proof (w_varint_length mode). try rewrite zlen_w_u32. lia.
  - unfold write_mkdir_request. cbn [mq_mode mq_path]. rewrite zlen_app. pose proof (w_varint_length mode). try rewrite zlen_w_u32. lia.
  - done || (unfold write_path_request; cbn [pq_path]; lia).
  - done || (unfold write_path_request; cbn [pq_path]; lia).
  - unfold write_rename_request. cbn [nq_from nq_to]. rewrite zlen_app. lia.
  - unfold write_write_request. cbn [wq_path wq_offset wq_data]. rewrite !zlen_app, ?zlen_w_u64. pose proof (zlen_w_blob data). destruct Hc. lia.
  - unfold write_truncate_request. cbn [tq_path tq_size]. rewrite !zlen_app, ?zlen_w_u64. lia.
Qed.

Lemma call_handled (s : Session) fs c gen : authed s = true →
  handle blake3 transient cfg s fs [] None gen (mkHeader (request_of c).1 0 (zlen (request_of c).2) rid) (request_of c).2
  = let '(fs', r) := handle_mutation transient cfg fs (Ok ()) gen (request_of c).1 rid (request_of c).2 in (s, fs', r).
Proof. intros Ha. unfold handle. cbn [h_type h_request_id head default from_option]. rewrite Ha. cbn [negb]. rewrite andb_false_r. by destruct c. Qed.
End agent.

(** ** A disk whose failed operations change nothing *)
Class CleanFailures (F : Type) `{FileSystem F} := {
  clean_mkdir fs p : match fs_create_directory fs p with (fs', Ok true) => True | (fs', _) => fs' = fs end;
  clean_remove fs p : match fs_remove fs p with (fs', Ok true) => True | (fs', _) => fs' = fs end;
  clean_rename fs p q : match fs_rename fs p q with (fs', Some _) => fs' = fs | _ => True end;
  clean_resize fs p n : match fs_resize fs p n with (fs', Some _) => fs' = fs | _ => True end
}.

#[global] Program Instance mem_clean : CleanFailures MemFs.
Next Obligation. intros m p. cbn. repeat case_match; simplify_eq; done. Qed.
Next Obligation. intros m p. cbn. repeat case_match; simplify_eq; done. Qed.
Next Obligation. intros m p q. cbn. repeat case_match; simplify_eq; done. Qed.
Next Obligation. intros m p n. cbn. repeat case_match; simplify_eq; done. Qed.

(** The calls that only rename, make or remove, or cut: they either do or do not. *)
Definition all_or_nothing (c : Mount.Call) : bool := match c with CCreate _ _ | CWrite _ _ _ => false | _ => true end.

Section clean.
Context {F : Type} `{CleanFailures F} (transient : F → bytes → FsErr → bool) (cfg : Config).

Lemma retry_clean target op n : (∀ fs, match op fs with (fs', Some _) => fs' = fs | _ => True end) →
  ∀ fs, match share_retry transient n target op fs with (fs', Some _) => fs' = fs | _ => True end.
Proof.
  intros Hop. induction n as [|n IH]; intros fs; cbn [share_retry]; specialize (Hop fs); destruct (op fs) as [fs1 [e|]]; try done. subst fs1.
  destruct (transient fs target e); [apply IH|done].
Qed.

Lemma remove_clean full n : ∀ fs, match remove_retry transient n full fs with (fs', Ok true) => True | (fs', _) => fs' = fs end.
Proof.
  induction n as [|n IH]; intros fs; cbn [remove_retry]; pose proof (clean_remove fs full) as Hr; destruct (fs_remove fs full) as [fs1 [[]|e]]; try done. subst fs1.
  destruct (transient fs full e); [apply IH|done].
Qed.

Lemma refused_clean fs c fs' n : refused transient cfg fs c fs' n → all_or_nothing c = true → fs' = fs.
Proof.
  intros Hr Hc. destruct Hr as [| | |p mode full fs' e _ Ho|p mode full fs' _ Ho| |p full fs' e _ _ Ho|p full fs' _ _ Ho| |p full fs' e _ _ Ho|p full fs' _ _ Ho|f t from to fs' e _ _ Ho| |p size full fs' e _ _ Ho| | | |]; try done.
  - pose proof (clean_mkdir fs full) as Hm. by rewrite Ho in Hm.
  - pose proof (clean_mkdir fs full) as Hm. by rewrite Ho in Hm.
  - pose proof (remove_clean full 8 fs) as Hm. by rewrite Ho in Hm.
  - pose proof (remove_clean full 8 fs) as Hm. by rewrite Ho in Hm.
  - pose proof (clean_remove fs full) as Hm. by rewrite Ho in Hm.
  - pose proof (clean_remove fs full) as Hm. by rewrite Ho in Hm.
  - pose proof (retry_clean to (λ fs, fs_rename fs from to) 8 (λ fs, clean_rename fs from to) fs) as Hm. unfold with_share_retry in Ho. by rewrite Ho in Hm.
  - pose proof (retry_clean full (λ fs, fs_resize fs full size) 8 (λ fs, clean_resize fs full size) fs) as Hm. unfold with_share_retry in Ho. by rewrite Ho in Hm.
Qed.
End clean.

(** ** The caller's side *)

Inductive FuseCall := CallNames (mu : Mutation) | CallTruncate (path : bytes) (size : Z) | CallWrite (path data : bytes) (off : Z).

Definition call_of (windows : bool) (fc : FuseCall) : Mount.Call :=
  let rel := to_rel windows in
  match fc with
  | CallNames (MutCreate p mode) | CallNames (MutMknod p mode) => CCreate (rel p) (Z.land mode 511)
  | CallNames (MutMkdir p mode) => CMkdir (rel p) (Z.land mode 511)
  | CallNames (MutUnlink p) => CUnlink (rel p)
  | CallNames (MutRmdir p) => CRmdir (rel p)
  | CallNames (MutRename f t) => CRename (rel f) (rel t)
  | CallTruncate p size => CTruncate (rel p) size
  | CallWrite p data off => CWrite (rel p) off data
  end.

(** [mknod] is for regular files; everything else has been turned away. *)
Definition regular (fc : FuseCall) : Prop :=
  match fc with CallNames (MutMknod _ mode) => Z.land mode S_IFMT = 0 ∨ Z.land mode S_IFMT = S_IFREG | _ => True end.

Section caller.
Context {M : Type} `{KeyMapOps M}.
Implicit Types (m : Mount M).

(** The handler of a call, without a write-back handle, given the agent's reply. *)
Definition perform m (caller now : Z) (fc : FuseCall) (reply : Result Pending) : Mount M * list Mount.Call * Rc Z :=
  match fc with
  | CallNames mu => mutate m caller mu reply
  | CallTruncate p size => op_truncate m now p size reply
  | CallWrite p data off => let '(m, _, calls, rc) := op_write m now None p data off reply reply in (m, calls, rc)
  end.

(** Not one of the bridge's own threads. *)
Definition stranger m (caller : Z) : Prop := match m_notify m with None => True | Some b => is_self b caller = false end.

Lemma guarded_stranger m caller what rel rel2 k : stranger m caller → guarded m caller what rel rel2 k = k m.
Proof.
  unfold stranger, guarded, claim_poke. destruct (m_notify m) as [b|] eqn:Eb; [|done]. intros Hs. rewrite claim_other by done. unfold is_poke_thread. rewrite Hs.
  f_equal. destruct m; cbn in *. by subst.
Qed.

Lemma forward_error {A} m c (e : Errc) : forward (A := A) m c (m_client m, Err e) = (m, [c], Err (err_to_errno e)).
Proof. unfold forward. cbn. by destruct m. Qed.

(** Whatever the reason there is no good reply, the caller sees it, and the mount
    is as it was. *)
Lemma perform_error m caller now fc e : stranger m caller → regular fc → perform m caller now fc (Err e) = (m, [call_of (m_windows m) fc], Err (err_to_errno e)).
Proof.
  intros Hs Hr. destruct fc as [mu|p size|p data off]; [destruct mu as [p mode|p mode|p mode|p|p|f t]| |]; cbn [perform mutate call_of].
  - unfold op_create. rewrite guarded_stranger by done. cbn. by destruct m.
  - unfold op_mknod. rewrite guarded_stranger by done.
    assert (negb (Z.land mode S_IFMT =? 0) && negb (Z.land mode S_IFMT =? S_IFREG) = false) as -> by (cbn [regular] in Hr; destruct Hr as [->| ->]; by rewrite ?andb_false_r).
    apply (forward_error (A := unit)).
  - unfold op_mkdir. rewrite guarded_stranger by done. apply (forward_error (A := unit)).
  - unfold op_unlink. rewrite guarded_stranger by done. apply (forward_error (A := unit)).
  - unfold op_rmdir. rewrite guarded_stranger by done. apply (forward_error (A := unit)).
  - unfold op_rename. rewrite guarded_stranger by done. apply (forward_error (A := unit)).
  - apply (forward_error (A := unit)).
  - unfold op_write. destruct (m_writeback m); cbn; by destruct m.
Qed.
End caller.

Section theorem.
Context {F : Type} `{CleanFailures F} {M : Type} `{KeyMap M} (blake3 : bytes → bytes) (transient : F → bytes → FsErr → bool) (cfg : Config) (rid : Z).
Implicit Types (v : @Serving F) (m : Mount M).

(** C7: refusals reach the caller, and change nothing.  A mutation that comes to a
    mount handler goes as a request to the agent's session and comes back as its
    reply.  Either the agent refuses it for one of the reasons of [refused]: a path
    outside the root, an offset out of range, an error of the disk once the retries
    are used up; then the caller gets the errno of that reason, and the mount, with
    its mirror and its cache, is as it was, and so is the disk unless a file was
    being created or written.  Or there is no such reason, and the reply is no
    error.  In both cases the session goes on. *)
Theorem refusals_reach_caller v m caller now gen fc : serving_ok v → stranger m caller → regular fc →
  let c := call_of (m_windows m) fc in call_ok c →
  let '(v', reply) := ask blake3 transient cfg rid v gen (request_of c) in
  serving_ok v'
  ∧ ((∃ n, refused transient cfg (sv_fs v) c (sv_fs v') n ∧ perform m caller now fc reply = (m, [c], Err n) ∧ (all_or_nothing c = true → sv_fs v' = sv_fs v))
     ∨ (∀ fs' n, ¬ refused transient cfg (sv_fs v) c fs' n) ∧ ∃ p, reply = Ok p).
Proof.
  intros Hok Hs Hr c Hc. pose proof (call_handled blake3 transient cfg rid (sv_session v) (sv_fs v) c gen (so_authed _ Hok)) as Hh. rewrite taken_apart in Hh by done.
  pose proof (operation_answers transient cfg rid (sv_fs v) c gen Hc) as Ha. pose proof (λ fs' n, refused_sends transient cfg rid (sv_fs v) c fs' n gen) as Hno.
  destruct (operation _ _ _ _ _ _) as [fs' r]. cbn [fst snd] in *. destruct Ha as [(e & d & Hd & Href & Er)|(o & Er & Ht & Hp)]; cbn [fst snd] in *; subst r.
  - rewrite error_sent in Hh by done. destruct (ask_replied blake3 transient cfg rid v gen (request_of c) fs' _ Hok (call_fits c Hc) Hh) as (v' & -> & Hok' & <-). split; [done|left].
    cbn [o_type o_payload]. rewrite error_reply by by apply small_str. exists (err_to_errno e). split_and!; [done|by apply perform_error|by apply (refused_clean transient cfg (sv_fs v) c _ _ Href)].
  - destruct (ask_answered blake3 transient cfg rid v gen (request_of c) fs' o Hok (call_fits c Hc) Hh Ht Hp) as (v' & -> & Hok' & <-). split; [done|right]. split; [|by eexists].
    intros fs2 n (e & d & E)%Hno. injection E as _ E. unfold send_error, send_frame in E. destruct (_ >? _); [done|]. injection E as ->. done.
Qed.
End theorem.

(** ** A directory that is not empty, and a file above the root *)
Definition refusal_mount : Mount U64Map := mkMount (client_new Exact) None false false.

Lemma refusals_reach_caller_witness :
  (let '(v', reply) := ask (λ _, []) (λ _ _ _, false) warm_agent 9 demo_serving 3 (request_of (CRmdir (str "src"))) in
   sv_fs v' = sv_fs demo_serving ∧ perform refusal_mount 7 0 (CallNames (MutRmdir (str "/src"))) reply = (refusal_mount, [CRmdir (str "src")], Err EEXIST))
  ∧ (let '(v', reply) := ask (λ _, []) (λ _ _ _, false) warm_agent 9 demo_serving 3 (request_of (CUnlink (str "../passwd"))) in
     perform refusal_mount 7 0 (CallNames (MutUnlink (str "/../passwd"))) reply = (refusal_mount, [CUnlink (str "../passwd")], Err EINVAL)).
Proof.
  assert (serving_ok demo_serving) as Hok by by split.
  pose proof (refusals_reach_caller (λ _, []) (λ _ _ _, false) warm_agent 9 demo_serving refusal_mount 7 0 3 (CallNames (MutRmdir (str "/src"))) Hok I I) as H1.
  pose proof (refusals_reach_caller (λ _, []) (λ _ _ _, false) warm_agent 9 demo_serving refusal_mount 7 0 3 (CallNames (MutUnlink (str "/../passwd"))) Hok I I) as H2.
  cbv zeta in H1, H2. split.
  - change (call_of (m_windows refusal_mount) (CallNames (MutRmdir (str "/src")))) with (CRmdir (str "src")) in H1. lapply H1; [clear H1; intros H1|split; [repeat constructor; vm_compute; reflexivity|exact I]].
    assert ((ask (λ _, []) (λ _ _ _, false) warm_agent 9 demo_serving 3 (request_of (CRmdir (str "src")))).2 = Err AlreadyExists) as E by (vm_compute; reflexivity).
    revert H1 E. generalize (ask (λ _, []) (λ _ _ _, false) warm_agent 9 demo_serving 3 (request_of (CRmdir (str "src")))). intros [v' reply] H1 E. cbn [snd] in E. subst reply. destruct H1 as (_ & [(n & _ & Hp & Hc)|[_ [p Hp]]]); [|done]. split; [by apply Hc|reflexivity].
  - change (call_of (m_windows refusal_mount) (CallNames (MutUnlink (str "/../passwd")))) with (CUnlink (str "../passwd")) in H2. lapply H2; [clear H2; intros H2|split; [repeat constructor; vm_compute; reflexivity|exact I]].
    assert ((ask (λ _, []) (λ _ _ _, false) warm_agent 9 demo_serving 3 (request_of (CUnlink (str "../passwd")))).2 = Err InvalidPath) as E by (vm_compute; reflexivity).
    revert H2 E. generalize (ask (λ _, []) (λ _ _ _, false) warm_agent 9 demo_serving 3 (request_of (CUnlink (str "../passwd")))). intros [v' reply] H2 E. cbn [snd] in E. subst reply. reflexivity.
Defined.
