(* ===== verification/Lifecycle.v ===== *)
(** * The mount's life ([mount/fuse_mount.cpp])

    Mounting, unmounting and the thread that drops the kernel's cached pages:
    the queue of paths the far side changed, what the invalidation hook and the
    notification bridge put into it, and the order in which [unmount] stops the
    threads before it destroys the FUSE handle they use.  A run is a list of
    choices of the scheduler; each step of a thread is a section under the queue's
    lock or one call on the handle. *)

From S2P Require Import Prelude Types Client Mount.

(** ** Negotiation ([op_init]) *)

Record Conn := mkConn { cn_capable : Z; cn_want : Z; cn_max_write : Z; cn_max_readahead : Z; cn_max_background : Z; cn_congestion : Z }.
Record FuseConfig := mkFuseConfig { fc_auto_cache : bool; fc_entry_timeout : Z; fc_attr_timeout : Z; fc_negative_timeout : Z }.   (* seconds *)

(** [wanted]: the union of the capability bits [op_init] asks for on the platform. *)
Definition op_init (wanted : Z) (conn : option Conn) : option Conn * FuseConfig :=
  ((λ c, mkConn (cn_capable c) (Z.lor (cn_want c) (Z.land wanted (cn_capable c))) (Z.shiftl 1 20) (Z.shiftl 1 20) 64 48) <$> conn,
   mkFuseConfig true 1 1 0).

Record Statvfs := mkStatvfs { f_bsize : Z; f_frsize : Z; f_blocks : Z; f_bfree : Z; f_bavail : Z; f_files : Z; f_ffree : Z; f_namemax : Z }.
Definition op_statfs : Statvfs :=
  mkStatvfs 4096 4096 (Z.shiftl 1 32) (Z.shiftl 1 31) (Z.shiftl 1 31) (Z.shiftl 1 20) (Z.shiftl 1 19) 255.

(** ** The queue and the threads *)

Definition kInvalQueueCap : Z := 4096.

(** The invalidation thread: not started, in its wait, calling
    [fuse_invalidate_path], or ended. *)
Inductive InvalThread := NoThread | Waits | Punches (path : bytes) | Ended.

(** Where the main thread is: not mounted, mounted, or inside [unmount] having
    removed the hook and stopped the bridge, stopped the queue, joined the
    invalidation thread, told the loop to exit, joined it, destroyed the handle. *)
Inductive MainPc := Unmounted | Mounted | Quiesced | QueueStopped | InvalJoined | LoopTold | LoopJoined.

Record FuseMount := mkFuse {
  fuse_ : bool;                   (* the handle exists *)
  main_pc : MainPc;
  inval_ : InvalThread;
  loop_ : bool;                   (* fuse_loop is running *)
  mounted_ : bool;
  inval_stop_ : bool;
  inval_queue_ : list bytes;
  queued : list bytes;            (* every path put into the queue since the mount *)
  punched : list bytes            (* paths handed to the kernel since the mount *)
}.

Definition fuse_new : FuseMount := mkFuse false Unmounted NoThread false false false [] [] [].

(** The loop of the hook over the changes of a batch. *)
Fixpoint queue_changes (changes : list AppliedChange) (q : list bytes) : list bytes :=
  match changes with
  | [] => q
  | c :: changes =>
      if ac_rescan c then queue_changes changes q
      else if kInvalQueueCap <=? zlen q then q
      else queue_changes changes (q ++ [to_fuse_path false (ac_path c)])
  end.

Inductive Choice :=
| MountOk                                   (* fuse_new and fuse_mount succeed; the threads are started *)
| Hook (changes : list AppliedChange)       (* the invalidation hook, on the reader's thread *)
| Invalidate (rel : bytes)                  (* the bridge asks for one path *)
| InvalTakes | InvalPunches                 (* the invalidation thread *)
| LoopEnds                                  (* fuse_loop returns *)
| UnmountStep.                              (* the main thread moves in unmount *)

Definition enqueue (q : list bytes) (s : FuseMount) : FuseMount :=
  mkFuse (fuse_ s) (main_pc s) (inval_ s) (loop_ s) (mounted_ s) (inval_stop_ s) q (queued s ++ drop (length (inval_queue_ s)) q) (punched s).

(** The next step of [unmount]; [None] where it waits for a thread. *)
Definition unmount_step (s : FuseMount) : option FuseMount :=
  let at_pc pc s := mkFuse (fuse_ s) pc (inval_ s) (loop_ s) (mounted_ s) (inval_stop_ s) (inval_queue_ s) (queued s) (punched s) in
  match main_pc s with
  | Unmounted => None
  | Mounted => Some (at_pc Quiesced s)
  | Quiesced => Some (mkFuse (fuse_ s) QueueStopped (inval_ s) (loop_ s) (mounted_ s) true [] (queued s) (punched s))
  | QueueStopped => match inval_ s with NoThread | Ended => Some (at_pc InvalJoined s) | _ => None end
  | InvalJoined => Some (at_pc LoopTold s)
  | LoopTold => if loop_ s then None else Some (at_pc LoopJoined s)
  | LoopJoined => Some (mkFuse false Unmounted (inval_ s) (loop_ s) false (inval_stop_ s) (inval_queue_ s) (queued s) (punched s))
  end.

(** Each operation gives the state after it and whether it uses the handle; [None]
    where its thread cannot move.  The hook and the invalidation thread exist on
    Linux only. *)
Abbreviation Move := (option (FuseMount * bool)).

(** [mount] once [fuse_new] and [fuse_mount] have succeeded. *)
Definition mount (linux : bool) (s : FuseMount) : Move :=
  match main_pc s with
  | Unmounted => Some (mkFuse true Mounted (if linux then Waits else NoThread) true true (if linux then false else inval_stop_ s)
                         (if linux then [] else inval_queue_ s) (if linux then [] else queued s) (if linux then [] else punched s), true)
  | _ => None
  end.

(** The invalidated-paths hook. *)
Definition paths_hook (linux : bool) (changes : list AppliedChange) (s : FuseMount) : Move :=
  if negb linux then None
  else if inval_stop_ s then Some (s, false)
  else match main_pc s with Unmounted => None | _ => Some (enqueue (queue_changes changes (inval_queue_ s)) s, false) end.

(** What the bridge calls for a single path. *)
Definition invalidate_one (linux : bool) (rel : bytes) (s : FuseMount) : Move :=
  if negb linux then None
  else if inval_stop_ s || (kInvalQueueCap <=? zlen (inval_queue_ s)) then Some (s, false)
  else match main_pc s with Unmounted => None | _ => Some (enqueue (inval_queue_ s ++ [to_fuse_path false rel]) s, false) end.

(** [inval_loop]: the section under the lock, and the call after it. *)
Definition inval_takes (s : FuseMount) : Move :=
  match inval_ s with
  | Waits =>
      if inval_stop_ s then Some (mkFuse (fuse_ s) (main_pc s) Ended (loop_ s) (mounted_ s) true (inval_queue_ s) (queued s) (punched s), false)
      else match inval_queue_ s with
           | [] => None
           | p :: q => Some (mkFuse (fuse_ s) (main_pc s) (Punches p) (loop_ s) (mounted_ s) false q (queued s) (punched s), false)
           end
  | _ => None
  end.
Definition inval_punches (s : FuseMount) : Move :=
  match inval_ s with
  | Punches p => Some (mkFuse (fuse_ s) (main_pc s) Waits (loop_ s) (mounted_ s) (inval_stop_ s) (inval_queue_ s) (queued s) (punched s ++ [p]), true)
  | _ => None
  end.

(** The loop's thread: [fuse_loop] returns. *)
Definition loop_ends (s : FuseMount) : Move :=
  if loop_ s then Some (mkFuse (fuse_ s) (main_pc s) (inval_ s) false false (inval_stop_ s) (inval_queue_ s) (queued s) (punched s), true) else None.

Definition unmount_moves (s : FuseMount) : Move :=
  match unmount_step s with
  | Some s' => Some (s', match main_pc s with InvalJoined | LoopJoined => true | _ => false end)
  | None => None
  end.

Definition step (linux : bool) (s : FuseMount) (x : Choice) : Move :=
  match x with
  | MountOk => mount linux s
  | Hook changes => paths_hook linux changes s
  | Invalidate rel => invalidate_one linux rel s
  | InvalTakes => inval_takes s
  | InvalPunches => inval_punches s
  | LoopEnds => loop_ends s
  | UnmountStep => unmount_moves s
  end.

Fixpoint run (linux : bool) (s : FuseMount) (xs : list Choice) : option FuseMount :=
  match xs with [] => Some s | x :: xs => match step linux s x with Some (s, _) => run linux s xs | None => None end end.

(** ** The handle outlives its threads *)

Definition inval_over (s : FuseMount) : Prop := inval_ s = NoThread ∨ inval_ s = Ended.
Definition in_hand (s : FuseMount) : list bytes := match inval_ s with Punches p => [p] | _ => [] end.

Record mount_ok (s : FuseMount) : Prop := {
  mo_handle : fuse_ s = match main_pc s with Unmounted => false | _ => true end;
  mo_inval : match main_pc s with Unmounted | InvalJoined | LoopTold | LoopJoined => inval_over s | _ => True end;
  mo_loop : match main_pc s with Unmounted | LoopJoined => loop_ s = false | _ => True end;
  mo_stop : match main_pc s with QueueStopped | InvalJoined | LoopTold | LoopJoined => inval_stop_ s = true | _ => True end;
  mo_cap : zlen (inval_queue_ s) <= kInvalQueueCap;
  mo_order : ∃ rest, queued s = punched s ++ in_hand s ++ rest ∧ (inval_stop_ s = false → rest = inval_queue_ s)
}.

Lemma fuse_new_ok : mount_ok fuse_new.
Proof. split; cbn; try done; [by left|]. exists []. done. Qed.

(** What the hook adds goes to the end of the queue, within its cap. *)
Lemma queue_changes_spec changes : ∀ q, zlen q <= kInvalQueueCap →
  zlen (queue_changes changes q) <= kInvalQueueCap ∧ ∃ more, queue_changes changes q = q ++ more.
Proof.
  induction changes as [|c changes IH]; intros q Hq; cbn [queue_changes]; [split; [done|]; exists []; by rewrite app_nil_r|].
  destruct (ac_rescan c); [by apply IH|]. destruct (Z.leb_spec kInvalQueueCap (zlen q)); [split; [done|]; exists []; by rewrite app_nil_r|].
  destruct (IH (q ++ [to_fuse_path false (ac_path c)])) as (Hl & more & E); [rewrite zlen_app; unfold zlen at 2; cbn; lia|].
  split; [done|]. rewrite E. eexists. by rewrite <- app_assoc.
Qed.

Lemma enqueue_ok s q more : mount_ok s → inval_stop_ s = false → q = inval_queue_ s ++ more → zlen q <= kInvalQueueCap → mount_ok (enqueue q s).
Proof.
  intros [Hh Hi Hl Hs Hc (rest & Eq & Er)] Hns -> Hq. split; cbn; try done.
  exists (rest ++ more). rewrite Eq, drop_app_length, <- !app_assoc. split; [done|]. intros _. by rewrite (Er Hns).
Qed.

Lemma unmount_ok s s' : mount_ok s → unmount_step s = Some s' → mount_ok s'.
Proof.
  intros [Hh Hi Hl Hs Hc (rest & Eq & Er)] Hu. unfold unmount_step in Hu. destruct (main_pc s) eqn:Epc; [done| | | | | |].
  - injection Hu as <-. split; cbn; try done. eauto.
  - injection Hu as <-. split; cbn; try done. exists rest. split; [done|discriminate].
  - destruct (inval_ s) eqn:Ei; try done; injection Hu as <-; (split; cbn; try done; [unfold inval_over; cbn; auto|exists rest; unfold in_hand in *; cbn; rewrite Ei in *; done]).
  - injection Hu as <-. split; cbn; try done. eauto.
  - destruct (loop_ s) eqn:El; [done|]. injection Hu as <-. split; cbn; try done. eauto.
  - injection Hu as <-. split; cbn; try done. eauto.
Qed.

Lemma life_step_ok linux s x s' uses : mount_ok s → step linux s x = Some (s', uses) → mount_ok s' ∧ (uses = true → x = MountOk ∨ fuse_ s = true).
Proof.
  intros Hok Hs. pose proof Hok as [Hh Hi Hl Hst Hc (rest & Eq & Er)]. destruct x as [|changes|rel| | | |]; cbn [step] in Hs;
    unfold mount, paths_hook, invalidate_one, inval_takes, inval_punches, loop_ends, unmount_moves in Hs.
  - destruct (main_pc s) eqn:Epc; try done. injection Hs as <- <-. split; [|by left]. destruct linux; (split; cbn; try done); [exists []; done|].
    exists rest. rewrite Eq. unfold in_hand. destruct Hi as [-> | ->]; done.
  - destruct linux; [|done]. destruct (inval_stop_ s) eqn:Es; [by injection Hs as <- <-|]. destruct (queue_changes_spec changes _ Hc) as (Hq & more & E).
    assert (mount_ok (enqueue (queue_changes changes (inval_queue_ s)) s)) by (by apply (enqueue_ok s _ more)).
    cbn [negb] in Hs. destruct (main_pc s); try done; by injection Hs as <- <-.
  - destruct linux; [|done]. cbn [negb] in Hs. destruct (inval_stop_ s) eqn:Es; [by injection Hs as <- <-|].
    destruct (Z.leb_spec kInvalQueueCap (zlen (inval_queue_ s))); [by injection Hs as <- <-|].
    assert (mount_ok (enqueue (inval_queue_ s ++ [to_fuse_path false rel]) s)) by (apply (enqueue_ok s _ [to_fuse_path false rel]); try done; rewrite zlen_app; unfold zlen at 2; cbn; lia).
    cbn [orb] in Hs. destruct (main_pc s); try done; by injection Hs as <- <-.
  - unfold in_hand in Eq. destruct (inval_ s) eqn:Ei; try done. destruct (inval_stop_ s) eqn:Es; [|destruct (inval_queue_ s) as [|p q] eqn:Eqq; [done|]];
      injection Hs as <- <-; (split; [|done]); (split; cbn; try done).
    + destruct (main_pc s); try done; by right.
    + exists rest. unfold in_hand. cbn. auto.
    + destruct (main_pc s); try done; destruct Hi as [Hi|Hi]; rewrite Ei in Hi; done.
    + rewrite zlen_cons in Hc. lia.
    + exists q. split; [|done]. rewrite Eq, (Er eq_refl). done.
  - unfold in_hand in Eq. destruct (inval_ s) as [| |p|] eqn:Ei; try done. injection Hs as <- <-. split.
    + split; cbn; try done; [destruct (main_pc s); try done; destruct Hi as [Hi|Hi]; rewrite Ei in Hi; done|].
      exists rest. rewrite Eq. unfold in_hand. cbn. by rewrite <- app_assoc.
    + intros _. right. rewrite Hh. destruct (main_pc s); try done. destruct Hi as [Hi|Hi]; rewrite Ei in Hi; done.
  - destruct (loop_ s) eqn:El; [|done]. injection Hs as <- <-. split.
    + split; cbn; try done; [by destruct (main_pc s)|]. eauto.
    + intros _. right. rewrite Hh. by destruct (main_pc s).
  - destruct (unmount_step s) as [s1|] eqn:Eu; [|done]. injection Hs as <- <-. split; [by eapply unmount_ok|]. intros Hu. right. rewrite Hh. by destruct (main_pc s).
Qed.

Lemma life_run_ok linux xs : ∀ s s', mount_ok s → run linux s xs = Some s' → mount_ok s'.
Proof.
  induction xs as [|x xs IH]; intros s s' Hok Hr; cbn [run] in Hr; [by injection Hr as <-|].
  destruct (step linux s x) as [[s1 u]|] eqn:E; [|done]. eapply IH; [|done]. by eapply life_step_ok.
Qed.

(** C19: the FUSE handle outlives every thread that uses it, and the page-cache
    queue loses nothing it accepted: however the hook, the bridge, the two threads
    and [unmount] interleave, a call on the handle finds it alive, the queue never
    exceeds its cap, the kernel is told of the queued paths in order, and of all
    of them once the queue has been drained. *)
Theorem mount_handle_safe linux xs s : run linux fuse_new xs = Some s →
  (∀ x s', step linux s x = Some (s', true) → x ≠ MountOk → fuse_ s = true)
  ∧ zlen (inval_queue_ s) <= kInvalQueueCap ∧ punched s `prefix_of` queued s
  ∧ (inval_stop_ s = false → inval_queue_ s = [] → in_hand s = [] → punched s = queued s).
Proof.
  intros Hr. assert (mount_ok s) as Hok by (eapply life_run_ok; [apply fuse_new_ok|done]). pose proof Hok as [_ _ _ _ Hc (rest & Eq & Er)]. split_and!.
  - intros x s' Hs Hx. destruct (life_step_ok _ _ _ _ _ Hok Hs) as [_ Hu]. by destruct (Hu eq_refl).
  - done.
  - rewrite Eq. by eexists.
  - intros Hs Hq Hh. rewrite Eq, Hh, (Er Hs), Hq. cbn. by rewrite app_nil_r.
Qed.

(** The rest of an [unmount], the threads it waits for included. *)
Definition finish (s : FuseMount) : list Choice :=
  let inval := match inval_ s with Waits => [InvalTakes] | Punches _ => [InvalPunches; InvalTakes] | _ => [] end in
  let loop := if loop_ s then [LoopEnds] else [] in
  match main_pc s with
  | Unmounted => []
  | Mounted => [UnmountStep; UnmountStep] ++ inval ++ [UnmountStep; UnmountStep] ++ loop ++ [UnmountStep; UnmountStep]
  | Quiesced => [UnmountStep] ++ inval ++ [UnmountStep; UnmountStep] ++ loop ++ [UnmountStep; UnmountStep]
  | QueueStopped => inval ++ [UnmountStep; UnmountStep] ++ loop ++ [UnmountStep; UnmountStep]
  | InvalJoined => [UnmountStep] ++ loop ++ [UnmountStep; UnmountStep]
  | LoopTold => loop ++ [UnmountStep; UnmountStep]
  | LoopJoined => [UnmountStep]
  end.


Definition demo_life : list Choice :=
  [MountOk; Hook [mkApplied Modified (str "a") 0 File false; mkApplied Modified (str "b") 0 File false]; InvalTakes; UnmountStep].

Lemma mount_handle_safe_witness : ∃ s, run true fuse_new demo_life = Some s ∧ inval_queue_ s = [str "/b"] ∧ fuse_ s = true.
Proof.
  destruct (run true fuse_new demo_life) as [s|] eqn:E; [|vm_compute in E; discriminate E]. exists s.
  assert (inval_queue_ s = [str "/b"]) by (vm_compute in E; injection E as <-; vm_compute; reflexivity).
  split_and!; [reflexivity|done|]. destruct (mount_handle_safe true demo_life s E) as [Hu _].
  destruct (step true s InvalPunches) as [[s' [|]]|] eqn:Es; [apply (Hu InvalPunches s' Es); discriminate|..]; vm_compute in E; injection E as <-; vm_compute in Es; discriminate Es.
Defined.


(** [op_init] asks for no capability the kernel does not offer. *)
Lemma op_init_offered wanted c c' : (op_init wanted (Some c)).1 = Some c' → Z.ldiff (cn_want c') (cn_capable c) = Z.ldiff (cn_want c) (cn_capable c).
Proof.
  intros [= <-]. cbn [cn_want]. apply Z.bits_inj'. intros n _. rewrite !Z.ldiff_spec, Z.lor_spec, Z.land_spec.
  by destruct (Z.testbit (cn_want c) n), (Z.testbit wanted n), (Z.testbit (cn_capable c) n).
Qed.
