(* ===== verification/Handles.v ===== *)
(** * Who owns a socket ([net/socket.hpp], [net/socket.cpp])

    [Socket] and [Listener] wrap a native socket: constructed from one, moved,
    move-assigned, closed and destroyed.  The objects share a store, so that an
    assignment of an object to itself, a moved-from object and a second close can
    be told from the rest. *)

From S2P Require Import Prelude Types.

Definition kInvalidSocket : Z := -1.

(** The objects that exist, by name, with their [s_]; the native sockets that are
    open; and the calls of [close_native] made so far. *)
Record Store := mkStore { objs : gmap nat Z; opened : gset Z; closes : list Z }.

Definition valid (s : Z) : bool := negb (s =? kInvalidSocket).

(** [close_native], whatever it is given. *)
Definition close_native (s : Z) (st : Store) : Store := mkStore (objs st) (opened st ∖ {[s]}) (closes st ++ [s]).

Definition set_obj (o : nat) (s : Z) (st : Store) : Store := mkStore (<[o := s]> (objs st)) (opened st) (closes st).

(** [Socket::close] of an object whose socket is [s]. *)
Definition close (o : nat) (s : Z) (st : Store) : Store :=
  if valid s then set_obj o kInvalidSocket (close_native s st) else st.

(** The constructors, the assignment, [close] and the destructor; [None] where an
    object the operation names does not exist (or exists already), or where the
    system hands out a socket that is still open, which it does not do. *)
Inductive Op := Wrap (o : nat) (s : Z) | MoveTo (o from : nat) | Assign (o from : nat) | Close (o : nat) | Destroy (o : nat).

Definition move_construct (o from : nat) (st : Store) : option Store :=
  match objs st !! o, objs st !! from with
  | None, Some s => Some (set_obj from kInvalidSocket (set_obj o s st))
  | _, _ => None
  end.

Definition move_assign (o from : nat) (st : Store) : option Store :=
  match objs st !! o, objs st !! from with
  | Some s, Some _ =>
      if bool_decide (o = from) then Some st
      else
        let st := close o s st in
        match objs st !! from with
        | Some s' => Some (set_obj from kInvalidSocket (set_obj o s' st))
        | None => None
        end
  | _, _ => None
  end.

Definition step (st : Store) (op : Op) : option Store :=
  match op with
  | Wrap o s =>
      if bool_decide (s ∈ opened st) || negb (valid s) || bool_decide (is_Some (objs st !! o)) then None
      else Some (mkStore (<[o := s]> (objs st)) ({[s]} ∪ opened st) (closes st))
  | MoveTo o from => move_construct o from st
  | Assign o from => move_assign o from st
  | Close o => match objs st !! o with Some s => Some (close o s st) | None => None end
  | Destroy o => match objs st !! o with Some s => let st := close o s st in Some (mkStore (delete o (objs st)) (opened st) (closes st)) | None => None end
  end.

(** Operations that are not possible are left out of a run. *)
Definition run (st : Store) (ops : list Op) : Store := foldl (λ st op, default st (step st op)) st ops.

Definition no_sockets : Store := mkStore ∅ ∅ [].

(** ** One owner each *)

(** An open socket has exactly one object, an object's socket is open, and every
    [close_native] so far was of a socket that was open then. *)
Record owned (st : Store) : Prop := {
  ow_open : ∀ o s, objs st !! o = Some s → valid s = true → s ∈ opened st;
  ow_one : ∀ o o' s, objs st !! o = Some s → objs st !! o' = Some s → valid s = true → o = o';
  ow_held : ∀ s, s ∈ opened st → valid s = true ∧ ∃ o, objs st !! o = Some s
}.

Lemma socket_valid_spec s : valid s = true ↔ s ≠ kInvalidSocket.
Proof. unfold valid. rewrite negb_true_iff, Z.eqb_neq. done. Qed.

Lemma close_owned o s st : owned st → objs st !! o = Some s → owned (close o s st) ∧ objs (close o s st) !! o = Some kInvalidSocket
  ∧ (∀ o', o' ≠ o → objs (close o s st) !! o' = objs st !! o') ∧ (valid s = true → s ∈ opened st).
Proof.
  intros [O1 O2 O3] Ho. unfold close. destruct (valid s) eqn:Ev.
  - cbn. split_and!; [|by rewrite lookup_insert_eq|intros o' Hn; by rewrite lookup_insert_ne|intros _; by eapply O1]. split; cbn.
    + intros o' s' [[<- <-]|[Hn Ho']]%lookup_insert_Some Hv; [done|]. apply elem_of_difference. split; [by eapply O1|]. intros ->%elem_of_singleton. apply Hn. by eapply O2.
    + intros o1 o2 s' [[<- <-]|[Hn1 H1]]%lookup_insert_Some H2' Hv; [done|]. apply lookup_insert_Some in H2' as [[<- <-]|[Hn2 H2]]; [done|]. by eapply O2.
    + intros s' [Hs' Hne%not_elem_of_singleton]%elem_of_difference. destruct (O3 s' Hs') as [Hv (o' & Ho')]. split; [done|]. exists o'. rewrite lookup_insert_ne; [done|]. intros ->. congruence.
  - assert (s = kInvalidSocket) as ->. { unfold valid in Ev. apply negb_false_iff, Z.eqb_eq in Ev. done. } by split_and!.
Qed.

Lemma move_owned o from s st : owned st → o ≠ from → objs st !! from = Some s → (objs st !! o = None ∨ objs st !! o = Some kInvalidSocket) →
  owned (set_obj from kInvalidSocket (set_obj o s st)).
Proof.
  intros [O1 O2 O3] Hn Hf Ho. split; cbn.
  - intros o' s' [[<- <-]|[Hn' Ho']]%lookup_insert_Some Hv; [done|]. apply lookup_insert_Some in Ho' as [[<- <-]|[_ Ho']]; by eapply O1.
  - intros o1 o2 s' [[<- <-]|[Hn1 H1]]%lookup_insert_Some H2 Hv; [done|]. apply lookup_insert_Some in H2 as [[<- <-]|[Hn2 H2]]; [done|].
    apply lookup_insert_Some in H1 as [[<- <-]|[? H1]], H2 as [[<- E2]|[? H2]]; [done| | |by eapply O2].
    + exfalso. apply Hn2. by eapply O2.
    + subst. exfalso. apply Hn1. by eapply O2.
  - intros s' Hs'. destruct (O3 s' Hs') as [Hv (o' & Ho')]. split; [done|]. destruct (decide (o' = from)) as [->|Hf'].
    + exists o. rewrite lookup_insert_ne by done. rewrite lookup_insert_eq. congruence.
    + exists o'. rewrite lookup_insert_ne by done. rewrite lookup_insert_ne; [done|]. intros <-. destruct Ho as [Ho|Ho]; rewrite Ho in Ho'; [done|]. injection Ho' as <-. done.
Qed.

(** What a step closes was open, and is closed once. *)
Definition closes_open (st st' : Store) : Prop := closes st' = closes st ∨ ∃ s, closes st' = closes st ++ [s] ∧ s ∈ opened st ∧ s ∉ opened st'.

Lemma close_closes o s st : owned st → objs st !! o = Some s → closes_open st (close o s st).
Proof.
  intros Hw Ho. destruct (close_owned o s st Hw Ho) as (_ & _ & _ & Hin). unfold close. destruct (valid s) eqn:Ev; [right|by left]. exists s. cbn. split_and!; [done|by apply Hin|set_solver].
Qed.

Lemma step_owned st op st' : owned st → step st op = Some st' → owned st' ∧ closes_open st st'.
Proof.
  intros Hw. destruct op as [o s|o from|o from|o|o]; cbn [step].
  - case_bool_decide as Es; [done|]. destruct (valid s) eqn:Ev; [|done]. case_bool_decide as Ho; [done|]. cbn [orb negb]. intros [= <-]. split; [|by left]. destruct Hw as [O1 O2 O3].
    assert (∀ o', objs st !! o' ≠ Some s) as Hs by (intros o' Ho'; by apply Es, (O1 o' s)). split; cbn.
    + intros o' s' [[<- <-]|[_ Ho']]%lookup_insert_Some Hv; [set_solver|]. apply elem_of_union. right. by eapply O1.
    + intros o1 o2 s' [[<- <-]|[Hn1 H1]]%lookup_insert_Some [[<- E2]|[Hn2 H2]]%lookup_insert_Some Hv; [done|by apply Hs in H2|subst; by apply Hs in H1|by eapply O2].
    + intros s' [->%elem_of_singleton|Hs']%elem_of_union; [split; [done|]; exists o; apply lookup_insert_eq|]. destruct (O3 s' Hs') as [Hv (o' & Ho')]. split; [done|]. exists o'. rewrite lookup_insert_ne; [done|]. intros ->. apply Ho. by eexists.
  - unfold move_construct. destruct (objs st !! o) eqn:Eo; [done|]. destruct (objs st !! from) as [s|] eqn:Ef; [|done]. intros [= <-]. split; [|by left]. apply move_owned; [done|congruence|done|by left].
  - unfold move_assign. destruct (objs st !! o) as [s|] eqn:Eo; [|done]. destruct (objs st !! from) as [s'|] eqn:Ef; [|done]. case_bool_decide as En; [intros [= <-]; split; [done|by left]|].
    destruct (close_owned o s st Hw Eo) as (Hw' & Hc & Hother & _). rewrite (Hother from) by congruence. rewrite Ef. intros [= <-]. split; [|by apply close_closes].
    apply move_owned; [done|done|by rewrite Hother, Ef by congruence|by right].
  - destruct (objs st !! o) as [s|] eqn:Eo; [|done]. intros [= <-]. destruct (close_owned o s st Hw Eo) as (Hw' & _). split; [done|by apply close_closes].
  - destruct (objs st !! o) as [s|] eqn:Eo; [|done]. intros [= <-]. destruct (close_owned o s st Hw Eo) as (Hw' & Hc & _). split; [|by apply close_closes].
    destruct Hw' as [O1 O2 O3]. split; cbn.
    + intros o' s' [_ Ho']%lookup_delete_Some. exact (O1 o' s' Ho').
    + intros o1 o2 s' [_ H1]%lookup_delete_Some [_ H2]%lookup_delete_Some. exact (O2 o1 o2 s' H1 H2).
    + intros s' Hs'. destruct (O3 s' Hs') as [Hv (o' & Ho')]. split; [done|]. exists o'. apply lookup_delete_Some. split; [|done]. intros ->. rewrite Hc in Ho'. by injection Ho' as <-.
Qed.

(** Every native socket is closed while it is open and never again, and none is
    left open without an owner: at any moment each open socket has exactly one
    object, and once all objects are gone no socket is open.  An object assigned
    to itself keeps its socket. *)
Theorem sockets_owned ops : let st := run no_sockets ops in
  owned st ∧ (objs st = ∅ → opened st = ∅)
  ∧ ∀ op st', step st op = Some st' → closes_open st st' ∧ (∀ o, op = Assign o o → st' = st).
Proof.
  assert (owned (run no_sockets ops)) as Hw.
  { induction ops as [|op ops IH] using rev_ind; [split; cbn; [intros o s|intros o o' s|intros s]; [by rewrite lookup_empty..|by intros ?%not_elem_of_empty]|].
    unfold run in *. rewrite foldl_app. cbn. destruct (step _ op) as [st'|] eqn:Es; [|done]. exact (proj1 (step_owned _ op st' IH Es)). }
  split_and!; [done| |].
  - intros He. apply leibniz_equiv_iff. intros s. split; [|by intros ?%not_elem_of_empty]. intros Hs. destruct (ow_held _ Hw s Hs) as [_ (o & Ho)]. rewrite He in Ho. by rewrite lookup_empty in Ho.
  - intros op st' Hs. split; [exact (proj2 (step_owned _ op st' Hw Hs))|]. intros o ->. cbn in Hs. unfold move_assign in Hs. destruct (objs _ !! o); [|done]. rewrite bool_decide_eq_true_2 in Hs by done. by injection Hs as <-.
Qed.

(** An accepted socket is moved into place over an older one; then all go. *)
Example sockets_demo : let st := run no_sockets [Wrap 0 7; Wrap 1 8; Assign 0 1; Assign 0 0; MoveTo 2 0; Destroy 0; Destroy 1; Destroy 2] in
  closes st = [7; 8] ∧ opened st = ∅ ∧ objs st = ∅.
Proof. split_and!; vm_compute; reflexivity. Qed.

(** ** Options and shutdown

    What an object asks of the system for the socket it holds. *)
Inductive SysCall :=
| SetReceiveBuffer (s n : Z)          (* SO_RCVBUF *)
| SetSendTimeout (s : Z) (value : Z * Z)   (* SO_SNDTIMEO: seconds and microseconds; milliseconds and 0 on Windows *)
| SetNoDelay (s v : Z)                (* TCP_NODELAY *)
| Shutdown (s : Z).                   (* both directions *)

Definition set_receive_buffer (s n : Z) : list SysCall := if negb (valid s) then [] else [SetReceiveBuffer s n].

(** C++ division truncates towards zero; a [DWORD] has 32 bits. *)
Definition timeval_of (ms : Z) : Z * Z := (Z.quot ms 1000, Z.rem ms 1000 * 1000).
Definition set_send_timeout (windows : bool) (s ms : Z) : list SysCall :=
  if negb (valid s) then [] else [SetSendTimeout s (if windows then (wrap 32 ms, 0) else timeval_of ms)].

Definition set_nodelay (s : Z) (on : bool) : list SysCall := [SetNoDelay s (if on then 1 else 0)].
Definition shutdown (s : Z) : list SysCall := if negb (valid s) then [] else [Shutdown s].

Definition call_socket (c : SysCall) : Z := match c with SetReceiveBuffer s _ | SetSendTimeout s _ | SetNoDelay s _ | Shutdown s => s end.

(** The timeout the system is given is the one asked for, in a form it accepts. *)
Lemma timeval_exact ms : 0 <= ms → let '(sec, usec) := timeval_of ms in 0 <= usec < 1000000 ∧ sec * 1000000 + usec = ms * 1000.
Proof. intros Hms. unfold timeval_of. pose proof (Z.rem_bound_pos ms 1000 Hms ltac:(lia)). pose proof (Z.quot_rem' ms 1000). lia. Qed.

(** Those calls that look at the object first reach only an open socket, and no
    other object has it: not one that was closed, moved from or handed on. *)
Theorem calls_reach_own_socket st o s c n ms windows : owned st → objs st !! o = Some s →
  c ∈ set_receive_buffer s n ++ set_send_timeout windows s ms ++ shutdown s → call_socket c ∈ opened st ∧ ∀ o', objs st !! o' = Some (call_socket c) → o' = o.
Proof.
  intros Hw Ho Hc. unfold set_receive_buffer, set_send_timeout, shutdown in Hc. destruct (valid s) eqn:Ev; cbn [negb app] in Hc; [|by apply not_elem_of_nil in Hc].
  assert (call_socket c = s) as ->. { rewrite !elem_of_cons in Hc. by destruct Hc as [->|[->|[->|Hc%not_elem_of_nil]]]. }
  split; [by eapply (ow_open st Hw)|]. intros o' Ho'. by eapply (ow_one st Hw).
Qed.
