(* ===== verification/Endpoint.v ===== *)
(** * Endpoints ([net/socket.cpp], [Endpoint::parse] and [Endpoint::to_string]) *)

From S2P Require Import Prelude Types Auth.

Inductive Kind := Tcp | Vsock | HyperV.
Record Endpoint := mkEndpoint { ep_kind : Kind; host : bytes; vm_id : bytes; cid : Z; port : Z }.

Definition c_colon : byte := 58.
Definition c_open : byte := 91.    (* '[' *)
Definition c_close : byte := 93.   (* ']' *)

(** [text.find("://")]: what is before and after the first occurrence. *)
Fixpoint split_scheme (s : bytes) : option (bytes * bytes) :=
  if bool_decide (take 3 s = str "://") then Some ([], drop 3 s)
  else match s with
       | [] => None
       | c :: s' => match split_scheme s' with Some (a, b) => Some (c :: a, b) | None => None end
       end.

(** [find(':')] and [rfind(':')]. *)
Fixpoint split_first (s : bytes) : option (bytes * bytes) :=
  match s with
  | [] => None
  | c :: s' => if c =? c_colon then Some ([], s')
               else match split_first s' with Some (a, b) => Some (c :: a, b) | None => None end
  end.
Fixpoint split_last (s : bytes) : option (bytes * bytes) :=
  match s with
  | [] => None
  | c :: s' => match split_last s' with
               | Some (a, b) => Some (c :: a, b)
               | None => if c =? c_colon then Some ([], s') else None
               end
  end.

(** [std::from_chars] into a [std::uint32_t], all of the text. *)
Definition parse_u32 (s : bytes) : option Z :=
  if bool_decide (s = []) || negb (forallb (λ c, (48 <=? c) && (c <=? 57)) s) then None
  else if undec s <? 2 ^ 32 then Some (undec s) else None.

Definition bracketed (h : bytes) : bool :=
  (2 <=? zlen h) && bool_decide (head h = Some c_open) && bool_decide (last h = Some c_close).
Definition strip_brackets (h : bytes) : bytes :=
  if bracketed h then take (length h - 2) (tail h) else h.

Definition parse (text : bytes) : Result Endpoint :=
  match split_scheme text with
  | None => Err InvalidArgument
  | Some (scheme, rest) =>
      if bool_decide (rest = []) then Err InvalidArgument
      else if bool_decide (scheme = str "tcp") then
        match split_last rest with
        | None => Err InvalidArgument
        | Some (h, p) =>
            if bool_decide (h = []) then Err InvalidArgument
            else match parse_u32 p with
                 | Some p => if p >? 65535 then Err InvalidArgument else Ok (mkEndpoint Tcp (strip_brackets h) [] 0 p)
                 | None => Err InvalidArgument
                 end
        end
      else if bool_decide (scheme = str "vsock") then
        match split_first rest with
        | None => Err InvalidArgument
        | Some (c, p) =>
            match (if bool_decide (c = str "host") then Some 2
                   else if bool_decide (c = str "any") then Some 0xFFFFFFFF else parse_u32 c), parse_u32 p with
            | Some c, Some p => Ok (mkEndpoint Vsock [] [] c p)
            | _, _ => Err InvalidArgument
            end
        end
      else if bool_decide (scheme = str "hv") then
        match split_last rest with
        | None => match parse_u32 rest with Some p => Ok (mkEndpoint HyperV [] [] 0 p) | None => Err InvalidArgument end
        | Some (v, p) => match parse_u32 p with Some p => Ok (mkEndpoint HyperV [] v 0 p) | None => Err InvalidArgument end
        end
      else Err InvalidArgument
  end.

Definition print (e : Endpoint) : bytes :=
  match ep_kind e with
  | Tcp => str "tcp://" ++ (if bool_decide (c_colon ∈ host e) then [c_open] ++ host e ++ [c_close] else host e)
           ++ [c_colon] ++ to_string (port e)
  | Vsock => str "vsock://" ++ (if cid e =? 2 then str "host" else if cid e =? 0xFFFFFFFF then str "any" else to_string (cid e))
             ++ [c_colon] ++ to_string (port e)
  | HyperV => str "hv://" ++ (if bool_decide (vm_id e = []) then [] else vm_id e ++ [c_colon]) ++ to_string (port e)
  end.

(** ** GUIDs of Hyper-V sockets *)

Record GUID := mkGuid { Data1 : Z; Data2 : Z; Data3 : Z; Data4 : list Z }.

Definition vsock_service_id (port : Z) : GUID := mkGuid port 0xfacb 0x11e6 [0xbd; 0x58; 0x64; 0x00; 0x6a; 0x79; 0x86; 0xd3].

Definition xdigit (c : byte) : option Z :=
  if (48 <=? c) && (c <=? 57) then Some (c - 48)
  else if (97 <=? c) && (c <=? 102) then Some (c - 87)
  else if (65 <=? c) && (c <=? 70) then Some (c - 55) else None.

(** [%<width>x] of [std::sscanf]: white space is skipped, then at most [width]
    characters are taken: a sign, "0x" and hexadecimal digits. *)
Definition is_space (c : byte) : bool := (c =? 32) || ((9 <=? c) && (c <=? 13)).
Fixpoint skip_space (s : bytes) : bytes :=
  match s with c :: r => if is_space c then skip_space r else s | [] => [] end.
Fixpoint scan_digits (width : nat) (acc : Z) (s : bytes) : Z * bytes :=
  match width, s with
  | S width, c :: r => match xdigit c with Some d => scan_digits width (acc * 16 + d) r | None => (acc, s) end
  | _, _ => (acc, s)
  end.
Definition scan_hex (width : nat) (s : bytes) : option (Z * bytes) :=
  let s := skip_space s in
  let '(neg, width, s) :=
    match s with
    | c :: r => if (c =? 45) || (c =? 43) then (c =? 45, pred width, r) else (false, width, s)
    | [] => (false, width, s)
    end in
  let '(width, s) :=
    match width, s with
    | S (S width'), 48 :: c :: r => if (c =? 120) || (c =? 88) then (width', r) else (width, s)
    | _, _ => (width, s)
    end in
  let '(v, rest) := scan_digits width 0 s in
  if (length rest =? length s)%nat then None else Some (wrap 32 (if neg then - v else v), rest).

(** A literal '-' of the format. *)
Definition scan_dash (s : bytes) : option bytes := match s with c :: s => if c =? 45 then Some s else None | [] => None end.

Definition parse_guid (text : bytes) : option GUID :=
  let s := match text with 123 :: s => s | _ => text end in
  let s := if bool_decide (last s = Some 125) then take (length s - 1) s else s in
  if negb (length s =? 36)%nat then None
  else
    '(d1, s) ← scan_hex 8 s; s ← scan_dash s; '(d2, s) ← scan_hex 4 s; s ← scan_dash s; '(d3, s) ← scan_hex 4 s; s ← scan_dash s;
    '(b0, s) ← scan_hex 2 s; '(b1, s) ← scan_hex 2 s; s ← scan_dash s;
    '(b2, s) ← scan_hex 2 s; '(b3, s) ← scan_hex 2 s; '(b4, s) ← scan_hex 2 s;
    '(b5, s) ← scan_hex 2 s; '(b6, s) ← scan_hex 2 s; '(b7, s) ← scan_hex 2 s;
    Some (mkGuid d1 (wrap 16 d2) (wrap 16 d3) (wrap 8 <$> [b0; b1; b2; b3; b4; b5; b6; b7])).

(** ** Lemmas *)

Lemma split_first_app a b : (c_colon ∉ a) → split_first (a ++ c_colon :: b) = Some (a, b).
Proof.
  intros Ha. induction a as [|c a IH]; cbn [app split_first]; [by rewrite Z.eqb_refl|].
  apply not_elem_of_cons in Ha as [Hc Ha]. rewrite (proj2 (Z.eqb_neq c c_colon)) by done. by rewrite IH.
Qed.

Lemma split_last_none s : (c_colon ∉ s) → split_last s = None.
Proof.
  intros Hs. induction s as [|c s IH]; cbn [split_last]; [done|]. apply not_elem_of_cons in Hs as [Hc Hs].
  rewrite IH by done. by rewrite (proj2 (Z.eqb_neq c c_colon)).
Qed.

Lemma split_last_app a b : (c_colon ∉ b) → split_last (a ++ c_colon :: b) = Some (a, b).
Proof.
  intros Hb. induction a as [|c a IH]; cbn [app split_last]; [by rewrite split_last_none, Z.eqb_refl|]. by rewrite IH.
Qed.

Lemma digits_no_colon s : Forall (λ d, 48 <= d <= 57) s → c_colon ∉ s.
Proof. intros Hs Hc. rewrite Forall_forall in Hs. apply Hs in Hc. unfold c_colon in Hc. lia. Qed.

Lemma to_string_digits n : u32_ok n → undec (to_string n) = n ∧ Forall (λ d, 48 <= d <= 57) (to_string n) ∧ to_string n ≠ [].
Proof.
  intros Hn. unfold to_string. destruct (to_string_loop_spec 20 n) as [H1 H2]; [zsolve|]. split_and!; [done|done|].
  cbn [to_string_loop]. destruct (n <? 10); [done|]. by intros [_ ?]%app_eq_nil.
Qed.

Lemma parse_u32_to_string n : u32_ok n → parse_u32 (to_string n) = Some n.
Proof.
  intros Hn. destruct (to_string_digits n Hn) as (H1 & H2 & H3). unfold parse_u32. rewrite bool_decide_eq_false_2 by done.
  assert (forallb (λ c, (48 <=? c) && (c <=? 57)) (to_string n) = true) as ->.
  { apply forallb_forall. intros c Hc%list_elem_of_In. rewrite Forall_forall in H2. apply H2 in Hc.
    apply andb_true_iff. split; apply Z.leb_le; lia. }
  cbn [negb orb]. rewrite H1, (proj2 (Z.ltb_lt _ _)); [done|]. by destruct Hn.
Qed.

Lemma strip_brackets_wrap h : strip_brackets ([c_open] ++ h ++ [c_close]) = h.
Proof.
  unfold strip_brackets, bracketed. cbn [app head tail]. rewrite last_cons, last_snoc.
  rewrite !bool_decide_eq_true_2 by done. rewrite zlen_cons, zlen_app, (proj2 (Z.leb_le _ _)) by (pose proof (zlen_nonneg h); unfold zlen at 2; simpl; lia).
  cbn [andb]. rewrite take_app_length'; [done|]. cbn [length]. rewrite length_app. cbn [length]. lia.
Qed.

Definition endpoint_ok (e : Endpoint) : Prop :=
  u32_ok (port e) ∧
  match ep_kind e with
  | Tcp => host e ≠ [] ∧ port e <= 65535 ∧ (c_colon ∈ host e ∨ bracketed (host e) = false) ∧ vm_id e = [] ∧ cid e = 0
  | Vsock => u32_ok (cid e) ∧ host e = [] ∧ vm_id e = []
  | HyperV => host e = [] ∧ cid e = 0
  end.

(** An endpoint survives being printed and parsed: every kind, IPv6 hosts
    and the "host" and "any" context ids included. *)
Theorem endpoint_roundtrip e : endpoint_ok e → parse (print e) = Ok e.
Proof.
  destruct e as [k h v c p]. intros [Hp Hk]. cbn [port ep_kind host vm_id cid] in *.
  destruct (to_string_digits p Hp) as (_ & Hd & Hne). apply digits_no_colon in Hd. unfold parse, print. cbn [ep_kind host vm_id cid port].
  destruct k.
  - destruct Hk as (Hh & Hle & Hb & -> & ->).
    set (h' := if bool_decide (c_colon ∈ h) then [c_open] ++ h ++ [c_close] else h).
    change (split_scheme (str "tcp://" ++ ?x)) with (Some (str "tcp", x)). cbv iota.
    assert (h' ≠ [] ∧ strip_brackets h' = h) as [Hh' Hs].
    { unfold h'. case_bool_decide; [split; [done|apply strip_brackets_wrap]|]. split; [done|].
      destruct Hb as [?|Hb]; [done|]. unfold strip_brackets. by rewrite Hb. }
    rewrite (bool_decide_eq_false_2 (h' ++ _ = [])) by (by intros [? _]%app_eq_nil).
    rewrite bool_decide_eq_true_2 by done. cbn [app]. rewrite split_last_app by done.
    rewrite bool_decide_eq_false_2, parse_u32_to_string by done. rewrite Z.gtb_ltb, (proj2 (Z.ltb_ge _ _)) by lia. by rewrite Hs.
  - destruct Hk as (Hc & -> & ->).
    set (c' := if c =? 2 then str "host" else if c =? 0xFFFFFFFF then str "any" else to_string c).
    change (split_scheme (str "vsock://" ++ ?x)) with (Some (str "vsock", x)). cbv iota.
    rewrite (bool_decide_eq_false_2 (c' ++ _ = [])) by (by intros [_ ?]%app_eq_nil).
    rewrite (bool_decide_eq_false_2 (str "vsock" = str "tcp")), bool_decide_eq_true_2 by done. cbn [app].
    destruct (to_string_digits c Hc) as (_ & Hcd & _).
    assert (c_colon ∉ c') as Hn.
    { unfold c'. destruct (c =? 2); [apply (bool_decide_unpack _); vm_compute; exact I|].
      destruct (c =? 0xFFFFFFFF); [apply (bool_decide_unpack _); vm_compute; exact I|]. by apply digits_no_colon. }
    rewrite split_first_app, (parse_u32_to_string p) by done. unfold c'. destruct (Z.eqb_spec c 2) as [->|H2]; [done|].
    destruct (Z.eqb_spec c 0xFFFFFFFF) as [->|H3]; [done|].
    assert (∀ s, s !! 0%nat = Some 104 ∨ s !! 0%nat = Some 97 → to_string c ≠ s) as Hdiff.
    { intros s Hs0 <-. destruct Hs0 as [Hs0|Hs0]; eapply Forall_lookup_1 in Hs0; try exact Hcd; cbn in Hs0; lia. }
    rewrite !bool_decide_eq_false_2 by (apply Hdiff; auto). by rewrite parse_u32_to_string.
  - destruct Hk as [-> ->]. change (split_scheme (str "hv://" ++ ?x)) with (Some (str "hv", x)). cbv iota.
    rewrite (bool_decide_eq_false_2 (_ ++ _ = [])) by (by intros [_ ?]%app_eq_nil).
    rewrite (bool_decide_eq_false_2 (str "hv" = str "tcp")), (bool_decide_eq_false_2 (str "hv" = str "vsock")), bool_decide_eq_true_2 by done.
    case_bool_decide as Hv.
    + subst. cbn [app]. by rewrite split_last_none, parse_u32_to_string.
    + rewrite <- app_assoc. cbn [app]. by rewrite split_last_app, parse_u32_to_string.
Qed.

Lemma endpoint_roundtrip_witness :
  print (mkEndpoint Tcp (str "::1") [] 0 5000) = str "tcp://[::1]:5000"
  ∧ parse (print (mkEndpoint Tcp (str "::1") [] 0 5000)) = Ok (mkEndpoint Tcp (str "::1") [] 0 5000).
Proof.
  split; [vm_compute; reflexivity|]. apply endpoint_roundtrip.
  split; [vm_compute; intuition congruence|]. cbn [ep_kind host vm_id cid port].
  split_and!; [discriminate|lia|left; apply (bool_decide_unpack _); vm_compute; exact I|reflexivity|reflexivity].
Defined.
