(* ===== verification/Transport.v ===== *)
(** * Sockets and time ([net/socket.cpp], [net/frame_channel.cpp])

    [Channel] has the frames on a stream without a clock; here is the clock: the
    bytes of a peer arrive at given times, a wait moves the clock, and a frame
    whose channel is bounded must arrive in full by a deadline.  Also how
    endpoints become sockets: connecting, binding and accepting on both platforms
    with the system's answers as parameters.  Times are in nanoseconds; computing
    takes none. *)

From S2P Require Import Prelude Types Wire Messages Auth Channel Endpoint.

Definition ms : Z := 1000000.

(** What the peer does next, and when: bytes, or the end of the stream. *)
Inductive Arrival := Data (b : bytes) | Closed.
Record TimedSocket := mkTimed { now : Z; arrivals : list (Z * Arrival) }.

(** [wait_readable]: [select] with a timeout in milliseconds. *)
Definition wait_readable (timeout : Z) (s : TimedSocket) : TimedSocket * bool :=
  match arrivals s with
  | (t, _) :: _ =>
      if t <=? now s then (s, true)
      else if t <=? now s + timeout * ms then (mkTimed t (arrivals s), true)
      else (mkTimed (now s + timeout * ms) (arrivals s), false)
  | [] => (mkTimed (now s + timeout * ms) (arrivals s), false)
  end.

(** [recv_some] once something is there. *)
Definition recv_ready (n : nat) (s : TimedSocket) : TimedSocket * Result bytes :=
  match arrivals s with
  | (t, Data c) :: rest =>
      if (n <? length c)%nat then (mkTimed (now s) ((t, Data (drop n c)) :: rest), Ok (take n c)) else (mkTimed (now s) rest, Ok c)
  | _ => (s, Err ConnectionClosed)
  end.

(** [recv_exact] with a deadline; every round takes a byte at least, so [n] rounds
    suffice. *)
Fixpoint recv_until (fuel : nat) (deadline : Z) (n : nat) (s : TimedSocket) : TimedSocket * Result bytes :=
  match n, fuel with
  | O, _ => (s, Ok [])
  | _, O => (s, Err IoError)
  | _, S fuel =>
      if deadline <=? now s then (s, Err Timeout)
      else
        let '(s, ready) := wait_readable ((deadline - now s) / ms + 1) s in
        if negb ready then (s, Err Timeout)
        else
          match recv_ready n s with
          | (s, Err e) => (s, Err e)
          | (s, Ok got) =>
              match recv_until fuel deadline (n - length got) s with
              | (s, Err e) => (s, Err e)
              | (s, Ok rest) => (s, Ok (got ++ rest))
              end
          end
  end.

(** [receive] on a channel bounded by [frame_timeout] (in milliseconds). *)
Definition receive_bounded (max_payload frame_timeout : Z) (s : TimedSocket) : TimedSocket * Result (FrameHeader * bytes) :=
  let deadline := now s + frame_timeout * ms in
  match recv_until kHeaderSize deadline kHeaderSize s with
  | (s, Err e) => (s, Err e)
  | (s, Ok hdr) =>
      match decode_header hdr with
      | Err e => (s, Err e)
      | Ok h =>
          if h_payload_len h >? max_payload then (s, Err TooLarge)
          else match recv_until (Z.to_nat (h_payload_len h)) deadline (Z.to_nat (h_payload_len h)) s with
               | (s, Err e) => (s, Err e)
               | (s, Ok payload) => (s, Ok (h, payload))
               end
      end
  end.

(** [receive(timeout)]: nothing within the poll is a timeout of its own. *)
Definition receive_poll (poll max_payload frame_timeout : Z) (s : TimedSocket) : TimedSocket * Result (FrameHeader * bytes) :=
  match wait_readable poll s with
  | (s, false) => (s, Err Timeout)
  | (s, true) => receive_bounded max_payload frame_timeout s
  end.

(** ** Connecting, binding, accepting *)

Inductive Os := OsWindows | OsLinux.

(** What the system says of one address: no socket, a refusal, or a socket. *)
Inductive Try (S : Type) := NoSocket | Refused | Established (s : S).
Arguments NoSocket {S}.
Arguments Refused {S}.
Arguments Established {S} s.

(** The first address that works. *)
Fixpoint first_established {A S} (attempt : A → Try S) (addrs : list A) : option S :=
  match addrs with
  | [] => None
  | a :: addrs => match attempt a with Established s => Some s | _ => first_established attempt addrs end
  end.

(** The system's side: resolution of a host and port, and the attempts. *)
Class Network (S : Type) := {
  addr : Type;
  getaddrinfo : bytes → bytes → option (list addr);
  dial_addr : addr → Try S;
  dial_vsock : Z → Z → Try S;
  dial_hv : GUID → GUID → Try S;
  listen_addr : addr → Try (S * option Z);          (* the bound port, where it is known *)
  listen_vsock : Z → Z → Try S;
  listen_hv : GUID → GUID → Try S
}.

Definition of_try {S} (t : Try S) : Result S := match t with NoSocket => Err Unsupported | Refused => Err IoError | Established s => Ok s end.

Section network.
Context {S : Type} `{Network S}.

Definition connect (os : Os) (ep : Endpoint) : Result S :=
  match ep_kind ep with
  | Tcp =>
      match getaddrinfo (host ep) (to_string (port ep)) with
      | None | Some [] => Err NotFound
      | Some addrs => match first_established dial_addr addrs with Some s => Ok s | None => Err IoError end
      end
  | Vsock => match os with OsWindows => Err Unsupported | OsLinux => of_try (dial_vsock (cid ep) (port ep)) end
  | HyperV =>
      match os with
      | OsLinux => Err Unsupported
      | OsWindows =>
          if bool_decide (vm_id ep = []) then Err InvalidArgument
          else match parse_guid (vm_id ep) with
               | None => Err InvalidArgument
               | Some vm => of_try (dial_hv vm (vsock_service_id (port ep)))
               end
      end
  end.

Definition VMADDR_CID_ANY : Z := 0xFFFFFFFF.
Definition kHvGuidWildcard : GUID := mkGuid 0 0 0 [0; 0; 0; 0; 0; 0; 0; 0].

(** [Listener::bind]: the socket and the local endpoint. *)
Definition bind (os : Os) (ep : Endpoint) : Result (S * Endpoint) :=
  match ep_kind ep with
  | Tcp =>
      match getaddrinfo (host ep) (to_string (port ep)) with
      | None | Some [] => Err NotFound
      | Some addrs =>
          match first_established listen_addr addrs with
          | Some (s, bound) => Ok (s, mkEndpoint Tcp (host ep) (vm_id ep) (cid ep) (default (port ep) bound))
          | None => Err IoError
          end
      end
  | Vsock =>
      match os with
      | OsWindows => Err Unsupported
      | OsLinux => match of_try (listen_vsock (if cid ep =? 0 then VMADDR_CID_ANY else cid ep) (port ep)) with Ok s => Ok (s, ep) | Err e => Err e end
      end
  | HyperV =>
      match os with
      | OsLinux => Err Unsupported
      | OsWindows =>
          match (if bool_decide (vm_id ep = []) then Some kHvGuidWildcard else parse_guid (vm_id ep)) with
          | None => Err InvalidArgument
          | Some vm => match of_try (listen_hv vm (vsock_service_id (port ep))) with Ok s => Ok (s, ep) | Err e => Err e end
          end
      end
  end.
End network.

(** One [::accept]: a socket, interrupted, the listener gone (EBADF, EINVAL), or
    another error. *)
Inductive AcceptCall (S : Type) := GotSocket (s : S) | Eintr | ListenerGone | AcceptFailed.
Arguments GotSocket {S} s.
Arguments Eintr {S}.
Arguments ListenerGone {S}.
Arguments AcceptFailed {S}.

(** [Listener::accept] on Linux; [None]: still blocked. *)
Fixpoint accept_calls {S} (calls : list (AcceptCall S)) : option (Result S) :=
  match calls with
  | [] => None
  | GotSocket s :: _ => Some (Ok s)
  | Eintr :: calls => accept_calls calls
  | ListenerGone :: _ => Some (Err ConnectionClosed)
  | AcceptFailed :: _ => Some (Err IoError)
  end.
Definition accept {S} (valid : bool) (calls : list (AcceptCall S)) : option (Result S) :=
  if negb valid then Some (Err ConnectionClosed) else accept_calls calls.

(** [accept(timeout)]: [n] is what [select] returns. *)
Definition accept_timeout {S} (valid : bool) (n : Z) (calls : list (AcceptCall S)) : option (Result S) :=
  if negb valid then Some (Err ConnectionClosed)
  else if n =? 0 then Some (Err Timeout)
  else if n <? 0 then Some (Err ConnectionClosed)
  else accept valid calls.

(** ** A peer cannot hold the thread *)

Lemma wait_readable_bound timeout s : 0 <= timeout →
  let '(s', ready) := wait_readable timeout s in now s <= now s' <= now s + timeout * ms ∧ arrivals s' = arrivals s.
Proof.
  intros Ht. unfold wait_readable, ms. destruct (arrivals s) as [|[t a] rest] eqn:E; [cbn; split; [lia|done]|].
  destruct (Z.leb_spec t (now s)); [cbn; split; [lia|done]|]. destruct (Z.leb_spec t (now s + timeout * 1000000)); cbn; (split; [lia|done]).
Qed.

Lemma recv_ready_now n s : now (recv_ready n s).1 = now s.
Proof. unfold recv_ready. by repeat case_match. Qed.

Lemma recv_until_bound fuel deadline : ∀ n s, now s <= now (recv_until fuel deadline n s).1 <= Z.max (now s) (deadline + ms).
Proof.
  induction fuel as [|fuel IH]; intros [|n] s; cbn [recv_until]; [cbn; lia..|].
  destruct (Z.leb_spec deadline (now s)) as [Hd|Hd]; [cbn; lia|].
  pose proof (wait_readable_bound ((deadline - now s) / ms + 1) s) as Hw. destruct (wait_readable _ s) as [s1 ready].
  assert (0 <= (deadline - now s) / ms ∧ (deadline - now s) / ms * ms <= deadline - now s) as [Hq1 Hq2].
  { unfold ms. pose proof (Z.div_pos (deadline - now s) 1000000). pose proof (Z.mul_div_le (deadline - now s) 1000000). lia. }
  destruct Hw as [Hw _]; [lia|]. assert (now s <= now s1 <= deadline + ms) as Hs1 by lia. clear Hw Hq1 Hq2.
  destruct ready; cbn [negb]; [|cbn [fst]; lia].
  pose proof (recv_ready_now (S n) s1) as Hr. destruct (recv_ready (S n) s1) as [s2 [got|e]]; cbn [fst] in Hr; [|cbn [fst]; lia].
  specialize (IH (S n - length got)%nat s2). destruct (recv_until fuel deadline _ s2) as [s3 [rest|e]]; cbn [fst] in *; lia.
Qed.

(** C20: a peer cannot hold a bounded channel: whatever it sends, and however
    slowly, a receive is over at most one millisecond after the poll and the
    frame timeout together. *)
Theorem frame_deadline poll max_payload frame_timeout s : 0 <= poll → 0 <= frame_timeout →
  now (receive_poll poll max_payload frame_timeout s).1 <= now s + (poll + frame_timeout + 1) * ms.
Proof.
  intros Hp Hf. unfold receive_poll. pose proof (wait_readable_bound poll s Hp) as Hw. destruct (wait_readable poll s) as [s1 ready].
  destruct Hw as [Hw _]. assert (0 < ms) as Hms by done. destruct ready; [|cbn [fst]; nia]. unfold receive_bounded. set (d := now s1 + frame_timeout * ms).
  assert (now s1 <= d) by (unfold d; nia). cut (now (receive_bounded max_payload frame_timeout s1).1 <= d + ms).
  { unfold receive_bounded. fold d. intros Hc. unfold d in *. nia. }
  unfold receive_bounded. fold d. pose proof (recv_until_bound kHeaderSize d kHeaderSize s1) as H1. destruct (recv_until kHeaderSize d kHeaderSize s1) as [s2 [hdr|e]];
    cbn [fst] in *; [|lia]. destruct (decode_header hdr) as [h|e]; [|cbn [fst]; lia]. destruct (_ >? _); [cbn [fst]; lia|].
  pose proof (recv_until_bound (Z.to_nat (h_payload_len h)) d (Z.to_nat (h_payload_len h)) s2) as H2. destruct (recv_until _ d _ s2) as [s3 [payload|e]]; cbn [fst] in *; lia.
Qed.

(** ** On a peer that is in time the clock makes no difference *)

Definition timed (l : list (Z * bytes)) (closed : Z) : list (Z * Arrival) := ((λ tb, (tb.1, Data tb.2)) <$> l) ++ [(closed, Closed)].
Definition in_time (deadline : Z) (l : list (Z * bytes)) (closed : Z) : Prop := Forall (λ tb, tb.1 < deadline) l ∧ closed < deadline.

Lemma wait_in_time deadline s : now s < deadline → (∃ t a rest, arrivals s = (t, a) :: rest ∧ t < deadline) →
  ∃ now', wait_readable ((deadline - now s) / ms + 1) s = (mkTimed now' (arrivals s), true) ∧ now' < deadline.
Proof.
  intros Hn (t & a & rest & E & Ht). unfold wait_readable. rewrite E. destruct (Z.leb_spec t (now s)).
  - exists (now s). split; [|done]. f_equal. destruct s; cbn in *; congruence.
  - rewrite (proj2 (Z.leb_le t _)); [by exists t|]. unfold ms. pose proof (Z.div_mod (deadline - now s) 1000000). pose proof (Z.mod_pos_bound (deadline - now s) 1000000). lia.
Qed.

Lemma recv_ready_timed n l closed t0 :
  match recv_some l.*2 n with
  | Ok (got, rest) => ∃ l', recv_ready n (mkTimed t0 (timed l closed)) = (mkTimed t0 (timed l' closed), Ok got) ∧ rest = l'.*2
      ∧ ∀ d, in_time d l closed → in_time d l' closed
  | Err e => recv_ready n (mkTimed t0 (timed l closed)) = (mkTimed t0 (timed l closed), Err e)
  end.
Proof.
  destruct l as [|[t c] l]; [done|]. cbn [fmap list_fmap snd recv_some]. unfold recv_ready. cbn [arrivals now]. unfold timed at 1 3. cbn [fmap list_fmap app fst snd].
  destruct (n <? length c)%nat.
  - exists ((t, drop n c) :: l). split_and!; [done|done|]. intros d [Hl Hc]. apply Forall_cons in Hl as [Ht Hl]. split; [by constructor|done].
  - exists l. split_and!; [done|done|]. intros d [Hl Hc]. by apply Forall_cons in Hl as [_ Hl].
Qed.

Lemma recv_until_in_time deadline closed fuel : ∀ n l t0, in_time deadline l closed → t0 < deadline →
  match recv_loop fuel l.*2 n with
  | Ok (b, rest) => ∃ t1 l', recv_until fuel deadline n (mkTimed t0 (timed l closed)) = (mkTimed t1 (timed l' closed), Ok b)
      ∧ rest = l'.*2 ∧ in_time deadline l' closed ∧ t1 < deadline
  | Err e => (recv_until fuel deadline n (mkTimed t0 (timed l closed))).2 = Err e
  end.
Proof.
  induction fuel as [|fuel IH]; intros [|n] l t0 Hl Hn; cbn [recv_loop recv_until].
  1-3: (exists t0, l; done) || done.
  cbn [now]. rewrite (proj2 (Z.leb_gt deadline t0)) by done.
  destruct (wait_in_time deadline (mkTimed t0 (timed l closed)) Hn) as (t1 & Ew & Hn').
  { destruct Hl as [[|[t b] l' Ht _] Hc]; cbn; eauto 10. }
  cbn [now arrivals] in Ew. rewrite Ew. cbn [negb]. pose proof (recv_ready_timed (S n) l closed t1) as Hr.
  destruct (recv_some l.*2 (S n)) as [[got rest]|e]; [|by rewrite Hr]. destruct Hr as (l' & -> & -> & Hl').
  specialize (IH (S n - length got)%nat l' t1 (Hl' _ Hl) Hn'). destruct (recv_loop fuel l'.*2 _) as [[b rest]|e].
  - destruct IH as (t2 & l2 & -> & ?). eauto.
  - by destruct (recv_until fuel deadline _ _) as [s' [?|?]].
Qed.


(** A ping in two pieces, then silence; a byte, then silence. *)
Definition ping_frame : bytes := encode_header (mkHeader MsgType.Ping 0 0 7).

Lemma frame_deadline_witness :
  now (receive_poll 200 4096 10000 (mkTimed 0 [(50 * ms, Data [1])])).1 = 10051 * ms
  ∧ now (receive_poll 200 4096 10000 (mkTimed 0 [(50 * ms, Data [1])])).1 <= 0 + (200 + 10000 + 1) * ms.
Proof. split; [vm_compute; reflexivity|]. apply frame_deadline; lia. Defined.


(** ** The endpoint a launch uses can be connected *)

(** A Hyper-V endpoint is refused as malformed only when its machine is not a GUID. *)
Lemma connect_hv_guid {S} `{Network S} ep : ep_kind ep = HyperV → vm_id ep ≠ [] → is_Some (parse_guid (vm_id ep)) → connect OsWindows ep ≠ Err InvalidArgument.
Proof.
  intros Hk Hv [g Hg]. unfold connect. rewrite Hk, bool_decide_eq_false_2, Hg by done. by destruct (dial_hv _ _).
Qed.
