(* ===== verification/Launch.v ===== *)
(** * Launching agents ([platform/win/wsl_launch.cpp], [platform/linux/win_launch.cpp])

    The command lines, environments and decisions of the two launchers.  Running
    a process is a parameter (its output and exit code); everything the launchers
    compute around it is here: quoting for the distro's shell, discovery of the
    virtual machine's GUID in the output of [hcsdiag], the check that a distro is
    installed, the wait for it to start, and how the token travels.  The
    reference is a reader of POSIX shell words ([sh_words]). *)

From S2P Require Import Prelude Types Ignore Auth Endpoint.

Definition c_quote : byte := 39.
Definition c_space : byte := 32.
Definition c_dash : byte := 45.

(** ** Command lines *)

(** [for (char c : s)] of [sh_quote]. *)
Definition sh_quote_char (c : byte) : bytes := if c =? c_quote then str "'\''" else [c].
Definition sh_quote (s : bytes) : bytes := [c_quote] ++ (s ≫= sh_quote_char) ++ [c_quote].

Record WslAgentSpec := mkWslSpec {
  ws_distro : bytes;
  ws_agent_path : bytes;
  ws_root : bytes;
  ws_port : Z;
  ws_listen : bytes;
  ws_token : bytes
}.

Definition wsl_agent (spec : WslAgentSpec) : bytes := if bool_decide (ws_agent_path spec = []) then str "wsldrived" else ws_agent_path spec.
Definition wsl_listen (spec : WslAgentSpec) : bytes :=
  if bool_decide (ws_listen spec = []) then str "tcp://127.0.0.1:" ++ to_string (ws_port spec) else ws_listen spec.

(** What precedes [" -- "]. *)
Definition wsl_exe (distro : bytes) : bytes := str "wsl.exe" ++ (if bool_decide (distro = []) then [] else str " -d " ++ distro).

Definition build_wsl_command (spec : WslAgentSpec) : bytes :=
  wsl_exe (ws_distro spec) ++ str " -- " ++ sh_quote (wsl_agent spec) ++ str " --root " ++ sh_quote (ws_root spec)
  ++ str " --listen " ++ wsl_listen spec ++ str " --exit-when-idle".

(** The command [WslAgent::stop] runs. *)
Definition kill_pattern (port : Z) : bytes := str "wsldrived.*:" ++ to_string port.
Definition kill_command (spec : WslAgentSpec) : bytes :=
  wsl_exe (ws_distro spec) ++ str " -- pkill -f " ++ sh_quote (kill_pattern (ws_port spec)).

Record WinAgentSpec := mkWinSpec { wi_exe : bytes; wi_root : bytes; wi_connect : bytes; wi_token : bytes }.

Definition build_win_agent_command (spec : WinAgentSpec) : bytes :=
  wi_exe spec ++ str " --root " ++ wi_root spec ++ str " --connect " ++ wi_connect spec ++ str " --exit-when-idle".

(** The arguments [WinAgent::start] passes to [execl]. *)
Definition win_agent_argv (spec : WinAgentSpec) : list bytes :=
  [wi_exe spec; str "--root"; wi_root spec; str "--connect"; wi_connect spec; str "--exit-when-idle"].

(** ** The virtual machine's GUID *)

Definition is_hex (c : byte) : bool := ((48 <=? c) && (c <=? 57)) || ((97 <=? c) && (c <=? 102)) || ((65 <=? c) && (c <=? 70)).
Definition guid_dash (j : nat) : bool := ((j =? 8) || (j =? 13) || (j =? 18) || (j =? 23))%nat.
Definition guid_char (j : nat) (c : byte) : bool := if guid_dash j then c =? c_dash else is_hex c.
Definition guid_shaped (w : bytes) : bool := (length w =? 36)%nat && forallb id (imap guid_char w).

Fixpoint first_guid (s : bytes) : bytes :=
  if guid_shaped (take 36 s) then take 36 s
  else match s with [] => [] | _ :: s => first_guid s end.

(** [for (i = 0; i <= size; ++i) if (i == size || out\[i\] == '\n')]: the lines, the
    one after the last separator included. *)
Fixpoint lines_all (sep : byte) (s : bytes) : list bytes :=
  match s with
  | [] => [[]]
  | b :: s => if b =? sep then [] :: lines_all sep s
              else match lines_all sep s with [] => [[b]] | p :: ps => (b :: p) :: ps end
  end.

(** [find(needle) != npos]. *)
Fixpoint contains (needle s : bytes) : bool :=
  bool_decide (take (length needle) s = needle) || match s with [] => false | _ :: s => contains needle s end.

Fixpoint pick_guid (fallback : bytes) (lines : list bytes) : bytes :=
  match lines with
  | [] => fallback
  | line :: lines =>
      let g := first_guid line in
      if bool_decide (g = []) then pick_guid fallback lines
      else if contains (str "WSL") line then g
      else pick_guid (if bool_decide (fallback = []) then g else fallback) lines
  end.

(** [discover_wsl_vm_guid] on the output of [hcsdiag list]; [None] where the pipe
    cannot be opened. *)
Definition discover_wsl_vm_guid (out : option bytes) : bytes :=
  match out with None => [] | Some out => pick_guid [] (lines_all c_nl out) end.

(** ** Whether the distro is there *)

(** [std::tolower] in the "C" locale. *)
Definition tolower (c : byte) : byte := if (65 <=? c) && (c <=? 90) then c + 32 else c.
Definition lower (s : bytes) : bytes := tolower <$> s.

Definition trailing (c : byte) : bool := (c =? 13) || (c =? c_space) || (c =? 0).
Fixpoint drop_front (p : byte → bool) (s : bytes) : bytes :=
  match s with c :: r => if p c then drop_front p r else s | [] => [] end.
Definition trim_line (line : bytes) : bytes :=
  drop_front (λ c, c =? c_space) (reverse (drop_front trailing (reverse line))).

(** [out]: the output of [wsl.exe -l -q] and its exit code. *)
Definition distro_definitely_absent (distro : bytes) (out : option (bytes * Z)) : bool :=
  if bool_decide (distro = []) then false
  else match out with
       | None => false
       | Some (out, rc) =>
           if negb (rc =? 0) || bool_decide (out = []) then false
           else
             let out := if (3 <=? length out)%nat && bool_decide (head out = Some 0xEF) then drop 3 out else out in
             negb (existsb (λ line, bool_decide (lower (trim_line line) = lower distro)) (lines_all c_nl out))
       end.

Definition ready_command (distro : bytes) : bytes := wsl_exe distro ++ str " -e true".

(** The loop of [wait_wsl_ready]; round [i] is the exit code of the probe (1 where
    it could not be started) and the clock when it is read after it, in
    milliseconds. *)
Fixpoint wait_loop (fuel : nat) (rounds : nat → Z * Z) (deadline : Z) (i : nat) : option bool :=
  match fuel with
  | O => None
  | S fuel =>
      let '(code, now) := rounds i in
      if code =? 0 then Some true
      else if deadline <=? now then Some false
      else wait_loop fuel rounds deadline (S i)
  end.

Definition wait_wsl_ready (fuel : nat) (distro : bytes) (listing : option (bytes * Z)) (t0 timeout : Z) (rounds : nat → Z * Z) : option bool :=
  if distro_definitely_absent distro listing then Some false else wait_loop fuel rounds (t0 + timeout) 0.

(** ** The token's way into the agent

    An environment is a finite map; [WSLENV] is a list of names with flags,
    separated by colons. *)
Abbreviation Env := (gmap bytes bytes).
Definition kAuthTokenEnv : bytes := str "WSLDRIVE_TOKEN".
Definition kWslEnv : bytes := str "WSLENV".

Definition auth_token_from_env (env : Env) : bytes := default [] (env !! kAuthTokenEnv).

(** [std::size(existing)] *)
Definition kEnvBuffer : Z := 32767.

(** The environment [WslAgent::start] leaves for [wsl.exe]. *)
Definition wsl_env (to_wide : bytes → bytes) (token : bytes) (env : Env) : Env :=
  if bool_decide (token = []) then env
  else
    let env := <[kAuthTokenEnv := to_wide token]> env in
    let wslenv :=
      match env !! kWslEnv with
      | Some existing =>
          if (0 <? zlen existing) && (zlen existing <? kEnvBuffer)
          then if contains kAuthTokenEnv existing then existing else existing ++ str ":WSLDRIVE_TOKEN/u"
          else str "WSLDRIVE_TOKEN/u"
      | None => str "WSLDRIVE_TOKEN/u"
      end in
    <[kWslEnv := wslenv]> env.

(** The environment of the child of [WinAgent::start]. *)
Definition win_env (token : bytes) (env : Env) : Env :=
  if bool_decide (token = []) then env
  else
    let env := <[kAuthTokenEnv := token]> env in
    let existing := default [] (env !! kWslEnv) in
    let wslenv :=
      if contains kAuthTokenEnv existing then existing
      else (if bool_decide (existing = []) then existing else existing ++ [c_colon]) ++ str "WSLDRIVE_TOKEN/w" in
    <[kWslEnv := wslenv]> env.

(** [WslAgent]: the process it holds and the spec it was started with. *)
Record WslAgent := mkWslAgent { ag_proc : option Z; ag_spec : WslAgentSpec }.

(** [create] is [CreateProcessW]: the handle of the process it starts. *)
Definition wsl_start (to_wide : bytes → bytes) (create : Env → bytes → option Z) (env : Env) (a : WslAgent) (spec : WslAgentSpec)
    : WslAgent * Env * Result unit :=
  let env := wsl_env to_wide (ws_token spec) env in
  match create env (to_wide (build_wsl_command spec)) with
  | None => (mkWslAgent (ag_proc a) spec, env, Err IoError)
  | Some h => (mkWslAgent (Some h) spec, env, Ok ())
  end.

(** The commands run and handles terminated by [WslAgent::stop]. *)
Definition wsl_stop (a : WslAgent) : WslAgent * list bytes * list Z :=
  match ag_proc a with
  | Some h => (mkWslAgent None (ag_spec a), [kill_command (ag_spec a)], [h])
  | None => (a, [], [])
  end.

(** ** Reference: the words of a POSIX shell command

    Blanks separate words, single quotes take everything up to the next one, a
    backslash takes the next character; characters that start an expansion, a
    redirection or another command are outside the fragment ([None]), so a command
    that has words runs one program and expands nothing. *)
Definition sh_blank (c : byte) : bool := (c =? 32) || (c =? 9) || (c =? 10).
Definition sh_plain (c : byte) : bool :=
  ((48 <=? c) && (c <=? 57)) || ((97 <=? c) && (c <=? 122)) || ((65 <=? c) && (c <=? 90))
  || existsb (Z.eqb c) (str "-_./:@%+,").

Inductive Lex := Blank | InWord | Quoted | Escaped.

Fixpoint sh_lex (m : Lex) (w s : bytes) : option (list bytes) :=
  match s with
  | [] => match m with Blank => Some [] | InWord => Some [w] | _ => None end
  | c :: s =>
      match m with
      | Quoted => if c =? c_quote then sh_lex InWord w s else sh_lex Quoted (w ++ [c]) s
      | Escaped => if c =? 10 then None else sh_lex InWord (w ++ [c]) s
      | _ =>
          if sh_blank c then match m with Blank => sh_lex Blank [] s | _ => cons w <$> sh_lex Blank [] s end
          else if c =? c_quote then sh_lex Quoted w s
          else if c =? 92 then sh_lex Escaped w s
          else if sh_plain c then sh_lex InWord (w ++ [c]) s else None
      end
  end.
Definition sh_words (s : bytes) : option (list bytes) := sh_lex Blank [] s.

Definition unquoted (m : Lex) : Prop := m = Blank ∨ m = InWord.

Lemma lex_quoted s : ∀ w rest, sh_lex Quoted w ((s ≫= sh_quote_char) ++ c_quote :: rest) = sh_lex InWord (w ++ s) rest.
Proof.
  induction s as [|c s IH]; intros w rest; [by rewrite app_nil_r|]. rewrite bind_cons, <- app_assoc. unfold sh_quote_char at 1.
  destruct (Z.eqb_spec c c_quote) as [->|Hc].
  - change (str "'\''" ++ ?x) with (c_quote :: 92 :: c_quote :: c_quote :: x).
    change (sh_lex Quoted w (c_quote :: 92 :: c_quote :: c_quote :: ?x)) with (sh_lex Quoted (w ++ [c_quote]) x).
    by rewrite IH, <- app_assoc.
  - cbn [app sh_lex]. rewrite (proj2 (Z.eqb_neq _ _) Hc), IH. by rewrite <- app_assoc.
Qed.

Lemma lex_sh_quote m w s rest : unquoted m → sh_lex m w (sh_quote s ++ rest) = sh_lex InWord (w ++ s) rest.
Proof.
  intros Hm. unfold sh_quote. rewrite <- !app_assoc. cbn [app].
  replace (sh_lex m w (c_quote :: (s ≫= sh_quote_char) ++ c_quote :: rest)) with (sh_lex Quoted w ((s ≫= sh_quote_char) ++ c_quote :: rest))
    by (by destruct Hm as [-> | ->]). apply lex_quoted.
Qed.

Lemma sh_plain_spec c : sh_plain c = true → sh_blank c = false ∧ (c =? c_quote) = false ∧ (c =? 92) = false.
Proof.
  unfold sh_plain, sh_blank, c_quote. intros Hc. rewrite !orb_false_iff, !Z.eqb_neq.
  split_and!; intros ->; by vm_compute in Hc.
Qed.

Lemma lex_plain p : ∀ m w rest, unquoted m → p ≠ [] → forallb sh_plain p = true → sh_lex m w (p ++ rest) = sh_lex InWord (w ++ p) rest.
Proof.
  induction p as [|c p IH]; intros m w rest Hm Hne Hp; [done|]. cbn [forallb] in Hp. apply andb_true_iff in Hp as [Hc Hp].
  destruct (sh_plain_spec c Hc) as (H1 & H2 & H3).
  assert (sh_lex m w ((c :: p) ++ rest) = sh_lex InWord (w ++ [c]) (p ++ rest)) as ->
    by (destruct Hm as [-> | ->]; cbn [app sh_lex]; by rewrite H1, H2, H3, Hc).
  destruct p as [|c' p]; [done|]. rewrite IH by (try done; by right). by rewrite <- app_assoc.
Qed.

Lemma lex_blank w rest : sh_lex InWord w (c_space :: rest) = cons w <$> sh_lex Blank [] rest.
Proof. done. Qed.

(** An option word between blanks. *)
Lemma lex_option o w rest : o ≠ [] → forallb sh_plain o = true →
  sh_lex InWord w ([c_space] ++ o ++ [c_space] ++ rest) = (λ ws, w :: o :: ws) <$> sh_lex Blank [] rest.
Proof.
  intros Hne Ho. cbn [app]. rewrite lex_blank, lex_plain by (try done; by left). cbn [app]. rewrite lex_blank.
  by destruct (sh_lex Blank [] rest).
Qed.

Lemma digits_plain s : Forall (λ d, 48 <= d <= 57) s → forallb sh_plain s = true.
Proof.
  intros Hs. apply forallb_forall. intros c Hc%list_elem_of_In. rewrite Forall_forall in Hs. apply Hs in Hc.
  unfold sh_plain. rewrite (proj2 (Z.leb_le _ _)), (proj2 (Z.leb_le _ _)) by lia. done.
Qed.

Definition agent_argv (spec : WslAgentSpec) : list bytes :=
  [wsl_agent spec; str "--root"; ws_root spec; str "--listen"; wsl_listen spec; str "--exit-when-idle"].

(** What follows [" -- "] reads back as the agent's arguments. *)
Lemma wsl_command_lex spec : wsl_listen spec ≠ [] → forallb sh_plain (wsl_listen spec) = true →
  ∃ rest, build_wsl_command spec = wsl_exe (ws_distro spec) ++ str " -- " ++ rest ∧ sh_words rest = Some (agent_argv spec).
Proof.
  intros Hne Hl. eexists. split; [reflexivity|]. unfold sh_words. rewrite lex_sh_quote by (by left).
  change (str " --root ") with ([c_space] ++ str "--root" ++ [c_space]). rewrite <- !app_assoc, lex_option by done.
  rewrite lex_sh_quote by (by left). change (str " --listen ") with ([c_space] ++ str "--listen" ++ [c_space]).
  rewrite <- !app_assoc, lex_option by done. rewrite lex_plain by (try done; by left). done.
Qed.

Lemma wsl_listen_plain spec : u32_ok (ws_port spec) → ws_listen spec = [] ∨ ws_listen spec = str "vsock://any:" ++ to_string (ws_port spec) →
  wsl_listen spec ≠ [] ∧ forallb sh_plain (wsl_listen spec) = true.
Proof.
  intros Hp Hl. destruct (to_string_digits _ Hp) as (_ & Hd & _). apply digits_plain in Hd. unfold wsl_listen. destruct Hl as [-> | ->].
  - rewrite bool_decide_eq_true_2 by done. split; [done|]. by rewrite forallb_app, Hd.
  - rewrite bool_decide_eq_false_2 by done. split; [done|]. by rewrite forallb_app, Hd.
Qed.

(** Quoting is safe: whatever bytes the agent's path and the served directory
    hold, the distro's shell reads the command after [--] as one program run with
    exactly the arguments meant (nothing is expanded, split or run besides), and
    the command does not depend on the token. *)
Theorem wsl_command_words spec : u32_ok (ws_port spec) →
  ws_listen spec = [] ∨ ws_listen spec = str "vsock://any:" ++ to_string (ws_port spec) →
  ∃ rest, sh_words rest = Some (agent_argv spec) ∧
    ∀ token, build_wsl_command (mkWslSpec (ws_distro spec) (ws_agent_path spec) (ws_root spec) (ws_port spec) (ws_listen spec) token)
             = wsl_exe (ws_distro spec) ++ str " -- " ++ rest.
Proof.
  intros Hp Hl. destruct (wsl_listen_plain spec Hp Hl) as [Hne Hpl]. destruct (wsl_command_lex spec Hne Hpl) as (rest & Hb & Hw).
  exists rest. split; [done|]. intros token. by rewrite <- Hb.
Qed.

Definition demo_spec : WslAgentSpec := mkWslSpec (str "Ubuntu") [] (str "/home/it's $HOME; rm x") 5000 [] (str "secret").

Lemma wsl_command_words_witness : ∃ rest,
  sh_words rest = Some [str "wsldrived"; str "--root"; str "/home/it's $HOME; rm x"; str "--listen"; str "tcp://127.0.0.1:5000"; str "--exit-when-idle"]
  ∧ build_wsl_command demo_spec = str "wsl.exe -d Ubuntu -- " ++ rest.
Proof.
  destruct (wsl_command_words demo_spec) as (rest & Hw & Hb); [unfold u32_ok; cbn; lia|by left|].
  exists rest. split; [exact Hw|exact (Hb (str "secret"))].
Defined.

(** ** Waiting for the distro *)

(** Round [i] is the first whose probe succeeds, no earlier one being past the
    deadline. *)
Definition ready_at (rounds : nat → Z * Z) (deadline : Z) (i : nat) : Prop :=
  (rounds i).1 = 0 ∧ ∀ j, (j < i)%nat → (rounds j).1 ≠ 0 ∧ (rounds j).2 < deadline.

Lemma wait_loop_spec rounds deadline : (∀ i, (rounds i).2 + 500 <= (rounds (S i)).2) → ∀ fuel i,
  (∀ j, (j < i)%nat → (rounds j).1 ≠ 0 ∧ (rounds j).2 < deadline) → deadline - (rounds i).2 <= 500 * Z.of_nat fuel →
  ∃ b, wait_loop (S fuel) rounds deadline i = Some b ∧ (b = true ↔ ∃ k, ready_at rounds deadline k).
Proof.
  intros Hclock. induction fuel as [|fuel IH]; intros i Hpast Hleft; cbn [wait_loop];
    destruct (rounds i) as [code now] eqn:Ei; cbn [snd] in Hleft.
  all: destruct (Z.eqb_spec code 0) as [->|Hcode];
    [exists true; split; [done|]; split; [intros _; exists i; split; [by rewrite Ei|done]|done]|].
  all: destruct (Z.leb_spec deadline now) as [Hd|Hd];
    [exists false; split; [done|]; split; [done|]; intros (k & Hk & Hb)|].
  1,3: destruct (lt_eq_lt_dec k i) as [[Hlt| ->]|Hgt]; [by destruct (Hpast k Hlt)|by rewrite Ei in Hk|];
    destruct (Hb i Hgt) as [_ Hn]; rewrite Ei in Hn; cbn in Hn; lia.
  - lia.
  - apply (IH (S i)).
    + intros j Hj. destruct (decide (j = i)) as [->|]; [rewrite Ei; cbn; lia|]. apply Hpast. lia.
    + specialize (Hclock i). rewrite Ei in Hclock. cbn [snd] in Hclock. lia.
Qed.

(** The wait for a distro ends: with a clock that moves 500 ms between
    probes, at most [timeout / 500 + 2] of them are run, and the answer is yes
    exactly when the distro is not known to be absent and a probe succeeded before
    the deadline passed. *)
Theorem wait_wsl_ready_ends distro listing t0 timeout rounds : 0 <= timeout → t0 <= (rounds 0%nat).2 →
  (∀ i, (rounds i).2 + 500 <= (rounds (S i)).2) →
  ∃ b, wait_wsl_ready (Z.to_nat (timeout / 500) + 2) distro listing t0 timeout rounds = Some b
    ∧ (b = true ↔ distro_definitely_absent distro listing = false ∧ ∃ k, ready_at rounds (t0 + timeout) k).
Proof.
  intros Ht H0 Hclock. unfold wait_wsl_ready. destruct (distro_definitely_absent distro listing); [exists false; naive_solver|].
  destruct (wait_loop_spec rounds (t0 + timeout) Hclock (Z.to_nat (timeout / 500) + 1) 0) as (b & Hb & Hiff); [lia| |].
  - pose proof (Z.div_pos timeout 500). pose proof (Z.div_mod timeout 500). pose proof (Z.mod_pos_bound timeout 500). lia.
  - exists b. split; [by rewrite Nat.add_succ_r|]. rewrite Hiff. naive_solver.
Qed.

Lemma wait_wsl_ready_ends_witness :
  wait_wsl_ready 182 (str "Ubuntu") (Some (str "Ubuntu", 0)) 0 90000 (λ i, (if (i =? 3)%nat then 0 else 1, 700 * Z.of_nat i)) = Some true
  ∧ ∃ b, wait_wsl_ready (Z.to_nat (90000 / 500) + 2) (str "Ubuntu") (Some (str "Ubuntu", 0)) 0 90000 (λ i, (1, 700 * Z.of_nat i)) = Some b.
Proof.
  split; [vm_compute; reflexivity|].
  destruct (wait_wsl_ready_ends (str "Ubuntu") (Some (str "Ubuntu", 0)) 0 90000 (λ i, (1, 700 * Z.of_nat i))) as (b & Hb & _);
    [lia|cbn; lia|intros i; cbn [snd]; lia|]. exists b. exact Hb.
Defined.

(** ** The listing of distros *)

Lemma lines_all_app sep a s : (sep ∉ a) → lines_all sep (a ++ sep :: s) = a :: lines_all sep s.
Proof.
  intros Ha. induction a as [|c a IH]; cbn [app lines_all]; [by rewrite Z.eqb_refl|].
  apply not_elem_of_cons in Ha as [Hc Ha]. rewrite (proj2 (Z.eqb_neq _ _)) by congruence. by rewrite IH.
Qed.

(** A name as [wsl.exe -l -q] prints it: no line break, no blank at its ends. *)
Definition name_ok (n : bytes) : Prop :=
  (c_nl ∉ n) ∧ (∃ c, head n = Some c ∧ c ≠ c_space) ∧ (∃ c, last n = Some c ∧ trailing c = false).

Lemma trim_line_name n cr : name_ok n → cr = [] ∨ cr = [13] → trim_line (n ++ cr) = n.
Proof.
  intros (_ & (c & Hh & Hc) & (d & Hl & Hd)) Hcr. unfold trim_line.
  assert (drop_front trailing (reverse (n ++ cr)) = reverse n) as ->.
  { apply last_Some in Hl as [n' ->]. rewrite !reverse_app. destruct Hcr as [-> | ->]; cbn; by rewrite Hd. }
  rewrite reverse_involutive. destruct n as [|c' n]; [done|]. injection Hh as ->. cbn [drop_front]. by rewrite (proj2 (Z.eqb_neq _ _) Hc).
Qed.

Lemma absent_lines want names cr : Forall name_ok names → cr = [] ∨ cr = [13] → want ≠ [] →
  existsb (λ line, bool_decide (lower (trim_line line) = want)) (lines_all c_nl (names ≫= (λ n, n ++ cr ++ [c_nl])))
  = existsb (λ n, bool_decide (lower n = want)) names.
Proof.
  intros Hn Hcr Hw. induction Hn as [|n names Hok _ IH].
  - cbn. rewrite bool_decide_eq_false_2; [done|]. by intros <-.
  - rewrite bind_cons. assert (∀ r, (n ++ cr ++ [c_nl]) ++ r = (n ++ cr) ++ c_nl :: r) as -> by (intros r; by rewrite <- !app_assoc).
    rewrite lines_all_app. { cbn [existsb]. by rewrite IH, trim_line_name. }
    rewrite elem_of_app. intros [?|?]; [by apply Hok|]. destruct Hcr as [-> | ->]; [by apply not_elem_of_nil in H|].
    by apply list_elem_of_singleton in H.
Qed.

(** The fast failure is exact: on the listing wsl.exe prints, with or without
    a byte-order mark, a distro is held to be absent exactly when no installed
    name equals it without regard to ASCII case. *)
Theorem distro_absent_exact distro names cr bom : distro ≠ [] → names ≠ [] → Forall name_ok names → cr = [] ∨ cr = [13] →
  bom = [0xEF; 0xBB; 0xBF] ∨ (bom = [] ∧ Forall (λ n, head n ≠ Some 0xEF) names) →
  distro_definitely_absent distro (Some (bom ++ (names ≫= (λ n, n ++ cr ++ [c_nl])), 0)) = true ↔ ∀ n, n ∈ names → lower n ≠ lower distro.
Proof.
  intros Hd Hne Hn Hcr Hbom. set (body := names ≫= _). unfold distro_definitely_absent. rewrite (bool_decide_eq_false_2 (distro = [])) by done.
  assert (body ≠ [] ∧ head body = head (default [] (head names)) ) as [Hb Hh].
  { destruct names as [|n names]; [done|]. apply Forall_cons in Hn as [(_ & (c & Hc & _) & _) _]. unfold body. rewrite bind_cons. by destruct n. }
  cbn [Z.eqb negb orb]. rewrite (bool_decide_eq_false_2 (bom ++ body = [])) by (by intros [_ ?]%app_eq_nil).
  assert ((if (3 <=? length (bom ++ body))%nat && bool_decide (head (bom ++ body) = Some 0xEF) then drop 3 (bom ++ body) else bom ++ body) = body) as ->.
  { destruct Hbom as [-> | [-> He]]; [done|]. cbn [app]. rewrite (bool_decide_eq_false_2 (head body = _)); [by rewrite andb_false_r|].
    rewrite Hh. destruct names as [|n names]; [done|]. by apply Forall_cons in He as [? _]. }
  unfold body. rewrite absent_lines by (try done; by destruct distro). rewrite negb_true_iff, <- not_true_iff_false, existsb_exists. split.
  - intros Hx n Hin He. apply Hx. exists n. split; [by apply list_elem_of_In|]. by apply bool_decide_eq_true_2.
  - intros Hall (n & Hin%list_elem_of_In & He%bool_decide_eq_true). by apply (Hall n).
Qed.

Lemma distro_absent_exact_witness :
  distro_definitely_absent (str "debian") (Some (([0xEF; 0xBB; 0xBF] ++ str "Ubuntu" ++ [13; 10]) ++ (str "Debian" ++ [13; 10]) ++ [], 0)) = false
  ∧ distro_definitely_absent (str "Arch") (Some ([0xEF; 0xBB; 0xBF] ++ ([str "Ubuntu"; str "Debian"] ≫= (λ n, n ++ [13] ++ [c_nl])), 0)) = true.
Proof.
  split; [vm_compute; reflexivity|]. apply distro_absent_exact; [discriminate|discriminate| |by right|by left|].
  - repeat constructor; try (eexists; split; [reflexivity|vm_compute; (discriminate || reflexivity)]); apply (bool_decide_unpack _); vm_compute; exact I.
  - intros n Hn He. apply elem_of_cons in Hn as [->|Hn]; [vm_compute in He; discriminate|]. apply list_elem_of_singleton in Hn as ->. vm_compute in He. discriminate.
Defined.

(** ** Discovered GUIDs *)

Lemma is_hex_xdigit c : is_hex c = true → ∃ d, xdigit c = Some d ∧ 0 <= d < 16.
Proof.
  unfold is_hex, xdigit. intros H.
  destruct (Z.leb_spec 48 c), (Z.leb_spec c 57), (Z.leb_spec 97 c), (Z.leb_spec c 102), (Z.leb_spec 65 c), (Z.leb_spec c 70); cbn in *; try done;
    eexists; (split; [reflexivity|lia]).
Qed.

Lemma scan_digits_all h : ∀ acc rest, forallb is_hex h = true → ∃ v, scan_digits (length h) acc (h ++ rest) = (v, rest).
Proof.
  induction h as [|c h IH]; intros acc rest Hh; [by exists acc; destruct rest|]. cbn [forallb] in Hh. apply andb_true_iff in Hh as [Hc Hh].
  destruct (is_hex_xdigit c Hc) as (d & Hd & _). cbn [length scan_digits app]. rewrite Hd. by apply IH.
Qed.

Lemma is_hex_start c : is_hex c = true → is_space c = false ∧ (c =? 45) || (c =? 43) = false ∧ (c =? 120) || (c =? 88) = false.
Proof.
  unfold is_hex, is_space. intros H.
  split_and!; apply not_true_iff_false; intros H'; destruct (Z.leb_spec 48 c), (Z.leb_spec c 57), (Z.leb_spec 97 c), (Z.leb_spec c 102), (Z.leb_spec 65 c), (Z.leb_spec c 70);
    cbn in H; try done; rewrite ?orb_true_iff, ?andb_true_iff, ?Z.eqb_eq, ?Z.leb_le in H'; lia.
Qed.

(** A field of hexadecimal digits that fills its width. *)
Lemma scan_hex_field h rest v : (2 <= length h)%nat → forallb is_hex h = true → scan_digits (length h) 0 (h ++ rest) = (v, rest) →
  scan_hex (length h) (h ++ rest) = Some (wrap 32 v, rest).
Proof.
  intros Hlen Hh Hv. destruct h as [|c [|c' h]]; cbn [length] in Hlen; [lia|lia|].
  cbn [forallb] in Hh. apply andb_true_iff in Hh as [Hc Hh]. apply andb_true_iff in Hh as [Hc' _].
  destruct (is_hex_start c Hc) as (H1 & H2 & _), (is_hex_start c' Hc') as (_ & _ & H3).
  unfold scan_hex. cbn [app skip_space]. rewrite H1, H2. cbn [app length] in Hv |- *. rewrite H3.
  destruct (decide (c = 48)) as [->|Hne].
  - rewrite Hv. rewrite (proj2 (Nat.eqb_neq _ _)); [done|]. cbn [length]. rewrite length_app. lia.
  - assert (∀ (A : Type) (x y : A), match c with 48 => x | _ => y end = y) as Hm by (intros; by repeat case_match).
    rewrite Hm, Hv. rewrite (proj2 (Nat.eqb_neq _ _)); [done|]. cbn [length]. rewrite length_app. lia.
Qed.

(** The fields of a GUID-shaped text. *)
Lemma guid_shaped_fields g : guid_shaped g = true → ∃ d1 d2 d3 b0 b1 b2 b3 b4 b5 b6 b7,
  g = d1 ++ c_dash :: d2 ++ c_dash :: d3 ++ c_dash :: b0 ++ b1 ++ c_dash :: b2 ++ b3 ++ b4 ++ b5 ++ b6 ++ b7
  ∧ length d1 = 8%nat ∧ length d2 = 4%nat ∧ length d3 = 4%nat ∧ Forall (λ h, length h = 2%nat) [b0; b1; b2; b3; b4; b5; b6; b7]
  ∧ Forall (λ h, forallb is_hex h = true) [d1; d2; d3; b0; b1; b2; b3; b4; b5; b6; b7].
Proof.
  unfold guid_shaped. rewrite andb_true_iff, Nat.eqb_eq. intros [Hlen Hg].
  do 36 (destruct g as [|? g]; [discriminate Hlen|]). destruct g; [|discriminate Hlen]. clear Hlen.
  cbn -[is_hex Z.eqb] in Hg. unfold guid_char in Hg. cbn -[is_hex Z.eqb] in Hg. rewrite !andb_true_iff, !Z.eqb_eq in Hg. destruct_and!. subst.
  eexists [_;_;_;_;_;_;_;_], [_;_;_;_], [_;_;_;_], [_;_], [_;_], [_;_], [_;_], [_;_], [_;_], [_;_], [_;_]. split; [reflexivity|].
  do 3 (split; [reflexivity|]). split; [by repeat constructor|]. repeat constructor; cbn [forallb]; rewrite ?andb_true_iff; tauto.
Qed.

(** One field, one dash of the format. *)
Lemma scan_field {B} n h rest (k : Z * bytes → option B) : length h = n → (2 <= n)%nat → forallb is_hex h = true →
  (∀ v, is_Some (k (v, rest))) → is_Some (scan_hex n (h ++ rest) ≫= k).
Proof. intros <- Hn Hh Hk. destruct (scan_digits_all h 0 rest Hh) as (v & Hv). rewrite (scan_hex_field h rest v) by done. apply Hk. Qed.

Lemma scan_dash_step {B} rest (k : bytes → option B) : is_Some (k rest) → is_Some (scan_dash (c_dash :: rest) ≫= k).
Proof. done. Qed.

(** Text in the shape of a GUID is accepted in braces. *)
Lemma parse_guid_shaped g : guid_shaped g = true → is_Some (parse_guid ([123] ++ g ++ [125])).
Proof.
  intros Hg. pose proof Hg as Hlen. unfold guid_shaped in Hlen. apply andb_true_iff in Hlen as [Hlen%Nat.eqb_eq _].
  apply guid_shaped_fields in Hg as (d1 & d2 & d3 & b0 & b1 & b2 & b3 & b4 & b5 & b6 & b7 & Heq & L1 & L2 & L3 & Lb & Hh).
  unfold parse_guid. cbn [app]. rewrite last_snoc, bool_decide_eq_true_2 by done.
  rewrite take_app_length' by (rewrite length_app; cbn; lia). rewrite Hlen. cbn [Nat.eqb negb]. rewrite Heq, <- (app_nil_r b7). clear Hlen Heq.
  repeat match goal with H : Forall _ (_ :: _) |- _ => apply Forall_cons in H as [? H] end.
  repeat first [apply scan_dash_step | apply scan_field; [done|lia|done|intros ?; cbv beta iota]]. eauto.
Qed.

Lemma first_guid_shaped s : first_guid s = [] ∨ guid_shaped (first_guid s) = true.
Proof.
  induction s as [|c s IH]; cbn [first_guid]; [left; by destruct (guid_shaped _)|].
  destruct (guid_shaped (take 36 (c :: s))) eqn:E; [by right|done].
Qed.

Lemma pick_guid_shaped lines : ∀ fb, fb = [] ∨ guid_shaped fb = true → pick_guid fb lines = [] ∨ guid_shaped (pick_guid fb lines) = true.
Proof.
  induction lines as [|l lines IH]; intros fb Hfb; [done|]. cbn [pick_guid]. pose proof (first_guid_shaped l) as Hg.
  case_bool_decide; [by apply IH|]. destruct (contains _ l); [done|]. apply IH. by case_bool_decide.
Qed.

(** A GUID is found when a line holds one. *)
Lemma first_guid_finds a g b : guid_shaped g = true → first_guid (a ++ g ++ b) ≠ [].
Proof.
  intros Hg. assert (length g = 36)%nat as Hl by (unfold guid_shaped in Hg; apply andb_true_iff in Hg as [?%Nat.eqb_eq _]; done).
  induction a as [|c a IH].
  - cbn [app]. destruct g as [|c g]; [done|]. cbn [app first_guid]. change (c :: g ++ b) with ((c :: g) ++ b).
    rewrite (take_app_length' (c :: g) b 36) by done. by rewrite Hg.
  - cbn [app first_guid]. destruct (guid_shaped (take 36 _)) eqn:E; [cbn; discriminate|apply IH].
Qed.

Lemma pick_guid_finds lines : ∀ fb, (fb ≠ [] ∨ Exists (λ l, first_guid l ≠ []) lines) → pick_guid fb lines ≠ [].
Proof.
  induction lines as [|l lines IH]; intros fb Hfb; cbn [pick_guid]; [by destruct Hfb as [?|Hx]; [|apply Exists_nil in Hx]|].
  case_bool_decide as E.
  - apply IH. destruct Hfb as [?|[?|?]%Exists_cons]; [by left|done|by right].
  - destruct (contains _ l); [done|]. apply IH. left. by case_bool_decide.
Qed.

(** A discovered GUID can be dialled: when the output of hcsdiag holds a GUID
    the discovery finds one, and what it finds, in braces as the endpoint has it,
    is accepted by the socket layer's parser. *)
Theorem discovered_guid_connects out a g b : Exists (λ l, l = a ++ g ++ b) (lines_all c_nl out) → guid_shaped g = true →
  discover_wsl_vm_guid (Some out) ≠ [] ∧ is_Some (parse_guid ([123] ++ discover_wsl_vm_guid (Some out) ++ [125])).
Proof.
  intros Hin Hg. assert (discover_wsl_vm_guid (Some out) ≠ []) as Hne.
  { apply pick_guid_finds. right. eapply Exists_impl; [exact Hin|]. intros l ->. by apply first_guid_finds. }
  split; [done|]. apply parse_guid_shaped. by destruct (pick_guid_shaped (lines_all c_nl out) []) as [?|?]; [left|done|].
Qed.

Definition hcs_output : bytes :=
  str "VM, Running, 00000000-1111-2222-3333-444444444444, vmmem" ++ [10] ++ str "VM, Running, 0A1B2C3D-4e5f-6071-8293-a4b5c6d7e8f9, WSL" ++ [10].

Lemma discovered_guid_connects_witness :
  discover_wsl_vm_guid (Some hcs_output) = str "0A1B2C3D-4e5f-6071-8293-a4b5c6d7e8f9"
  ∧ is_Some (parse_guid ([123] ++ discover_wsl_vm_guid (Some hcs_output) ++ [125])).
Proof.
  split; [vm_compute; reflexivity|].
  apply (discovered_guid_connects hcs_output (str "VM, Running, ") (str "00000000-1111-2222-3333-444444444444") (str ", vmmem"));
    [apply Exists_cons_hd; vm_compute; reflexivity|vm_compute; reflexivity].
Defined.

(** ** How WSLENV forwards the token *)

(** The name of an entry is what precedes its flags. *)
Fixpoint entry_name (e : bytes) : bytes :=
  match e with c :: e => if c =? 47 then [] else c :: entry_name e | [] => [] end.
Definition forwards (wslenv name : bytes) : Prop := ∃ e, e ∈ lines_all c_colon wslenv ∧ entry_name e = name.

Lemma lines_all_snoc sep a b : (sep ∉ b) → lines_all sep (a ++ sep :: b) = lines_all sep a ++ [b].
Proof.
  intros Hb. assert (lines_all sep b = [b]) as Eb.
  { clear a. induction b as [|c b IH]; [done|]. apply not_elem_of_cons in Hb as [Hc Hb]. cbn [lines_all].
    by rewrite (proj2 (Z.eqb_neq _ _)), IH by congruence. }
  induction a as [|c a IH]; cbn [app lines_all]; [by rewrite Z.eqb_refl, Eb|]. rewrite IH. destruct (c =? sep); [done|].
  destruct (lines_all sep a) as [|p ps] eqn:E; [|done]. destruct a; [done|]. cbn [lines_all] in E. by repeat case_match.
Qed.

Lemma forwards_snoc wslenv e : (c_colon ∉ e) → ∀ name, forwards (wslenv ++ c_colon :: e) name ↔ forwards wslenv name ∨ entry_name e = name.
Proof.
  intros He name. unfold forwards. rewrite lines_all_snoc by done. setoid_rewrite elem_of_app. setoid_rewrite list_elem_of_singleton. naive_solver.
Qed.

(** Adding an entry to a possibly empty list. *)
Lemma forwards_added old e w : (c_colon ∉ e) → w = (if bool_decide (old = []) then e else old ++ c_colon :: e) →
  forwards w (entry_name e) ∧ ∀ name, forwards old name → name = [] ∨ forwards w name.
Proof.
  intros He ->. case_bool_decide as Ho.
  - subst. split; [exists e; split; [|done]; pose proof (lines_all_snoc c_colon [] e He) as Hs|intros name (x & Hx & <-); left].
    + cbn [app lines_all] in Hs. rewrite Z.eqb_refl in Hs. injection Hs as ->. by apply list_elem_of_singleton.
    + cbn in Hx. by apply list_elem_of_singleton in Hx as ->.
  - split; [apply forwards_snoc; auto|]. intros name Hn. right. apply forwards_snoc; auto.
Qed.

(** The token reaches the agent through the environment: unless the user's
    WSLENV already mentions it, after a launch from either side WSLENV forwards
    the token besides everything it forwarded before, and the variable holds it. *)
Theorem token_forwarded token env : token ≠ [] → zlen (default [] (env !! kWslEnv)) < kEnvBuffer →
  contains kAuthTokenEnv (default [] (env !! kWslEnv)) = false →
  Forall (λ env', auth_token_from_env env' = token ∧ ∃ wslenv, env' !! kWslEnv = Some wslenv ∧ forwards wslenv kAuthTokenEnv
      ∧ ∀ name, forwards (default [] (env !! kWslEnv)) name → name = [] ∨ forwards wslenv name)
    [wsl_env id token env; win_env token env].
Proof.
  intros Ht Hlen Hc. unfold wsl_env, win_env, auth_token_from_env. rewrite !(bool_decide_eq_false_2 (token = [])) by done.
  rewrite (lookup_insert_ne env kAuthTokenEnv kWslEnv token), (lookup_insert_ne env kAuthTokenEnv kWslEnv (id token)) by done.
  assert (∀ w, <[kWslEnv := w]> (<[kAuthTokenEnv := token]> env) !! kAuthTokenEnv = Some token) as Hl
    by (intros w; rewrite lookup_insert_ne, lookup_insert_eq by done; done).
  set (old := default [] (env !! kWslEnv)) in *.
  repeat constructor; try by rewrite Hl.
  all: eexists; rewrite lookup_insert_eq; split; [done|].
  - apply (forwards_added old (str "WSLDRIVE_TOKEN/u")); [by apply (bool_decide_unpack _); vm_compute|]. unfold old in *.
    destruct (env !! kWslEnv) as [[|c ex]|]; [done| |done]. cbn [from_option id] in *. rewrite (bool_decide_eq_false_2 (c :: ex = [])) by done.
    rewrite (proj2 (Z.ltb_lt 0 _)), (proj2 (Z.ltb_lt _ kEnvBuffer)), Hc by (first [exact Hlen|rewrite zlen_cons; pose proof (zlen_nonneg ex); lia]). done.
  - apply (forwards_added old (str "WSLDRIVE_TOKEN/w")); [by apply (bool_decide_unpack _); vm_compute|]. rewrite Hc.
    case_bool_decide as E; [by rewrite E|]. by rewrite <- app_assoc.
Qed.

Lemma token_forwarded_witness :
  wsl_env id (str "t") {[kWslEnv := str "PATH/l"]} !! kWslEnv = Some (str "PATH/l:WSLDRIVE_TOKEN/u")
  ∧ Forall (λ env', auth_token_from_env env' = str "t") [wsl_env id (str "t") {[kWslEnv := str "PATH/l"]}; win_env (str "t") {[kWslEnv := str "PATH/l"]}].
Proof.
  split; [vm_compute; reflexivity|].
  pose proof (token_forwarded (str "t") {[kWslEnv := str "PATH/l"]} ltac:(done) ltac:(vm_compute; reflexivity) ltac:(vm_compute; reflexivity)) as H.
  eapply Forall_impl; [exact H|]. intros env' [He _]. exact He.
Defined.

(** The test is on the text, not on the names: a variable whose name ends like
    the token's hides it, and the token is not forwarded. *)
Lemma token_hidden :
  let env : Env := {[kWslEnv := str "MY_WSLDRIVE_TOKEN/u"]} in
  wsl_env id (str "t") env !! kWslEnv = Some (str "MY_WSLDRIVE_TOKEN/u") ∧ ¬ forwards (str "MY_WSLDRIVE_TOKEN/u") kAuthTokenEnv.
Proof.
  split; [vm_compute; reflexivity|]. intros (e & He & Hn). vm_compute in He. apply list_elem_of_singleton in He as ->. by vm_compute in Hn.
Qed.

(** ** Stopping the agent *)

(** [pkill -f] with the pattern of [kill_pattern]: the fixed text, anything, the
    port. *)
Fixpoint after (needle s : bytes) : option bytes :=
  if bool_decide (take (length needle) s = needle) then Some (drop (length needle) s)
  else match s with [] => None | _ :: s => after needle s end.
Definition pkill_matches (port : Z) (cmdline : bytes) : bool :=
  match after (str "wsldrived") cmdline with None => false | Some rest => contains (c_colon :: to_string port) rest end.

Fixpoint joined (ws : list bytes) : bytes :=
  match ws with [] => [] | [w] => w | w :: ws => w ++ c_space :: joined ws end.

(** The pattern is not anchored: stopping the mount on port 5178 also kills the
    agent that listens on 51789. *)
Lemma kill_other_port :
  pkill_matches 5178 (joined (agent_argv (mkWslSpec [] [] (str "/srv") 51789 [] []))) = true.
Proof. vm_compute. reflexivity. Qed.

Lemma contains_app needle a b : contains needle b = true → contains needle (a ++ b) = true.
Proof.
  intros Hb. induction a as [|c a IH]; [done|]. cbn [app contains]. rewrite IH. by rewrite orb_true_r.
Qed.

Lemma contains_here needle b : contains needle (needle ++ b) = true.
Proof. destruct (needle ++ b) eqn:E; cbn [contains]; rewrite <- E, take_app_length, bool_decide_eq_true_2 by done; done. Qed.

Lemma after_app needle a b : ∃ x, after needle (a ++ needle ++ b) = Some (x ++ b).
Proof.
  assert (∀ s, bool_decide (take (length needle) s = needle) = true → after needle s = Some (drop (length needle) s)) as Hhere
    by (intros [|c s] E; cbn [after]; by rewrite E).
  induction a as [|c a (x & IH)].
  - exists []. cbn [app]. rewrite Hhere; [by rewrite drop_app_length|]. rewrite take_app_length. by apply bool_decide_eq_true_2.
  - destruct (bool_decide (take (length needle) ((c :: a) ++ needle ++ b) = needle)) eqn:E.
    + rewrite (Hhere _ E), app_assoc, drop_app_le by (rewrite length_app; lia). eauto.
    + exists x. cbn [app after] in E |- *. by rewrite E.
Qed.

(** Stopping a mount reaches its own agent, wherever it is installed. *)
Lemma kill_own_agent dir root port : u32_ok port →
  pkill_matches port (joined (agent_argv (mkWslSpec [] (dir ++ str "wsldrived") root port [] []))) = true.
Proof.
  intros Hp. unfold agent_argv, wsl_agent, wsl_listen. cbn [ws_agent_path ws_root ws_listen ws_port joined].
  rewrite (bool_decide_eq_false_2 (_ ++ _ = [])) by (by intros [_ ?]%app_eq_nil). rewrite bool_decide_eq_true_2 by done.
  unfold pkill_matches. rewrite <- app_assoc. destruct (after_app (str "wsldrived") dir (c_space :: str "--root" ++ c_space :: root ++ c_space :: str "--listen"
    ++ c_space :: (str "tcp://127.0.0.1:" ++ to_string port) ++ c_space :: str "--exit-when-idle")) as (x & ->).
  apply contains_app. change (str "tcp://127.0.0.1:") with (str "tcp://127.0.0.1" ++ [c_colon]).
  rewrite <- !app_assoc. do 4 (rewrite app_comm_cons; apply contains_app). cbn [app].
  rewrite app_comm_cons. apply contains_here.
Qed.
