(* ===== verification/Discover.v ===== *)
(** * Looking outside ([platform/linux/win_launch.cpp], [platform/win/wsl_launch.cpp], [tools/wsldrivew_main.cpp])

    How the two platforms find the virtual machine's GUID, the life of the agent
    process started from Linux, and the launcher without a window.  [Launch] has the
    text that is searched as a list of lines; here are the loops over indices, the
    buffer [fgets] fills, and that they find the same. *)

From S2P Require Import Prelude Types Ignore Endpoint Launch Watcher.

(** ** Reading the output of [hcsdiag] *)

(** [fgets(buf, n + 1)]: up to [n] characters, the last one a newline if there is
    one among them. *)
Fixpoint fgets (n : nat) (s : bytes) : bytes * bytes :=
  match n, s with
  | S n, c :: s => if c =? c_nl then ([c], s) else let '(line, s) := fgets n s in (c :: line, s)
  | _, _ => ([], s)
  end.

(** [while (fgets(buf, 512, pipe)) out += buf]: what is appended ends at the first
    zero byte. *)
Fixpoint read_pipe (fuel : nat) (s : bytes) : bytes :=
  match fuel, s with
  | S fuel, _ :: _ => let '(line, rest) := fgets 511 s in until_nul line ++ read_pipe fuel rest
  | _, _ => []
  end.

Lemma fgets_app n : ∀ s, (fgets n s).1 ++ (fgets n s).2 = s.
Proof. induction n as [|n IH]; intros [|c s]; cbn [fgets]; try done. destruct (c =? c_nl); [done|]. specialize (IH s). destruct (fgets n s) as [l r]. cbn in *. by rewrite IH. Qed.

Lemma fgets_length n s : s ≠ [] → (length (fgets (S n) s).2 < length s)%nat.
Proof.
  destruct s as [|c s]; [done|]. intros _. cbn [fgets]. destruct (c =? c_nl); [cbn; lia|]. pose proof (fgets_app n s) as E. destruct (fgets n s) as [l r]. cbn [fst snd length] in *. subst s. rewrite length_app. lia.
Qed.

Lemma until_nul_whole s : Forall (λ c, c ≠ 0) s → until_nul s = s.
Proof. induction 1 as [|c s Hc _ IH]; [done|]. cbn. by rewrite (proj2 (Z.eqb_neq _ _) Hc), IH. Qed.

(** Text without zero bytes is read whole, whatever its lines. *)
Lemma read_pipe_whole fuel : ∀ s, (length s <= fuel)%nat → Forall (λ c, c ≠ 0) s → read_pipe fuel s = s.
Proof.
  induction fuel as [|fuel IH]; intros [|c s] Hl Hs; try done; [cbn in Hl; lia|]. cbn [read_pipe]. pose proof (fgets_app 511 (c :: s)) as E. pose proof (fgets_length 510 (c :: s) ltac:(done)) as Hlt.
  destruct (fgets 511 (c :: s)) as [l r]. cbn [fst snd] in *. rewrite <- E in Hs. apply Forall_app in Hs as [Hsl Hsr]. rewrite until_nul_whole, IH by (done || cbn in *; lia). done.
Qed.

(** ** The search, by index *)

Definition char_at (s : bytes) (i : nat) : byte := default 0 (s !! i).

(** The inner loop from [j] on, [n] rounds to go. *)
Fixpoint guid_from (n : nat) (s : bytes) (i j : nat) : bool :=
  match n with
  | O => true
  | S n =>
      let c := char_at s (i + j) in
      let ok := if ((j =? 8) || (j =? 13) || (j =? 18) || (j =? 23))%nat then c =? c_dash else is_hex c in
      if ok then guid_from n s i (S j) else false
  end.

(** [for (i = 0; i + 36 <= s.size(); ++i)] *)
Fixpoint first_guid_from (fuel : nat) (s : bytes) (i : nat) : bytes :=
  match fuel with
  | O => []
  | S fuel => if (i + 36 <=? length s)%nat then if guid_from 36 s i 0 then take 36 (drop i s) else first_guid_from fuel s (S i) else []
  end.
Definition first_guid (s : bytes) : bytes := first_guid_from (S (length s)) s 0.

(** [for (i = 0; i <= out.size(); ++i)], the line since [start]. *)
Fixpoint discover_from (fuel : nat) (out : bytes) (start i : nat) (fallback : bytes) : bytes :=
  match fuel with
  | O => fallback
  | S fuel =>
      if (i =? length out)%nat || (char_at out i =? c_nl) then
        let line := take (i - start) (drop start out) in
        let g := first_guid line in
        if bool_decide (g = []) then discover_from fuel out (S i) (S i) fallback
        else if contains (str "WSL") line then g
        else discover_from fuel out (S i) (S i) (if bool_decide (fallback = []) then g else fallback)
      else discover_from fuel out start (S i) fallback
  end.
Definition discover_wsl_vm_guid (out : option bytes) : bytes :=
  match out with None => [] | Some out => discover_from (S (length out)) out 0 0 [] end.

(** ** The same *)

Lemma guid_from_spec n : ∀ s i j, (i + j + n <= length s)%nat → guid_from n s i j = forallb id (imap (λ k c, guid_char (j + k) c) (take n (drop (i + j) s))).
Proof.
  induction n as [|n IH]; intros s i j Hl; [done|]. cbn [guid_from]. unfold char_at. destruct (lookup_lt_is_Some_2 s (i + j)) as [c Hc]; [lia|]. rewrite Hc. rewrite (drop_S s c (i + j) Hc). cbn [take imap default from_option]. cbn [forallb id]. rewrite Nat.add_0_r.
  change (if ((j =? 8) || (j =? 13) || (j =? 18) || (j =? 23))%nat then c =? c_dash else is_hex c) with (guid_char j c). unfold id at 1. destruct (guid_char j c); [|done]. cbn [andb]. rewrite IH by lia.
  replace (i + S j)%nat with (S (i + j)) by lia. f_equal. apply imap_ext. intros k x _. cbn. f_equal. lia.
Qed.

Lemma guid_shaped_at s i : (i + 36 <= length s)%nat → guid_from 36 s i 0 = guid_shaped (take 36 (drop i s)).
Proof.
  intros Hl. rewrite guid_from_spec by lia. rewrite Nat.add_0_r. unfold guid_shaped. rewrite length_take, length_drop. replace (Nat.min 36 (length s - i)) with 36%nat by lia. done.
Qed.

Lemma short_no_guid s : (length s < 36)%nat → Launch.first_guid s = [].
Proof.
  induction s as [|c s IH]; intros Hl; [done|]. cbn [Launch.first_guid]. assert (guid_shaped (take 36 (c :: s)) = false) as ->; [|apply IH; cbn in Hl; lia].
  unfold guid_shaped. rewrite length_take, Nat.min_r by lia. rewrite (proj2 (Nat.eqb_neq _ _)) by lia. done.
Qed.

Lemma first_guid_from_spec fuel : ∀ s i, (i <= length s)%nat → (length s < fuel + i)%nat → first_guid_from fuel s i = Launch.first_guid (drop i s).
Proof.
  induction fuel as [|fuel IH]; intros s i Hi Hf; [lia|]. cbn [first_guid_from]. destruct (Nat.leb_spec (i + 36) (length s)) as [Hl|Hl].
  - rewrite guid_shaped_at by done. destruct (lookup_lt_is_Some_2 s i) as [c Hc]; [lia|]. rewrite (drop_S s c i Hc) at 3. cbn [Launch.first_guid]. rewrite <- (drop_S s c i Hc).
    destruct (guid_shaped (take 36 (drop i s))); [done|]. by rewrite IH by lia.
  - symmetry. apply short_no_guid. rewrite length_drop. lia.
Qed.

Lemma first_guid_same s : first_guid s = Launch.first_guid s.
Proof. unfold first_guid. rewrite first_guid_from_spec by lia. by rewrite drop_0. Qed.

(** The line that began before what is left. *)
Definition glue (l : bytes) (ls : list bytes) : list bytes := match ls with [] => [l] | p :: ps => (l ++ p) :: ps end.

Lemma take_more (out : bytes) start i c : (start <= i)%nat → out !! i = Some c → take (S i - start) (drop start out) = take (i - start) (drop start out) ++ [c].
Proof.
  intros Hs Hc. replace (S i - start)%nat with (S (i - start)) by lia. apply take_S_r. rewrite lookup_drop. by replace (start + (i - start))%nat with i by lia.
Qed.

Lemma discover_unfold fuel out start i fallback : discover_from (S fuel) out start i fallback =
  if (i =? length out)%nat || (char_at out i =? c_nl) then
    let g := Launch.first_guid (take (i - start) (drop start out)) in
    if bool_decide (g = []) then discover_from fuel out (S i) (S i) fallback
    else if contains (str "WSL") (take (i - start) (drop start out)) then g
    else discover_from fuel out (S i) (S i) (if bool_decide (fallback = []) then g else fallback)
  else discover_from fuel out start (S i) fallback.
Proof. cbn [discover_from]. by rewrite first_guid_same. Qed.

Lemma discover_from_spec k out : ∀ start i fb, (start <= i)%nat → (i + k = length out)%nat →
  discover_from (S k) out start i fb = pick_guid fb (glue (take (i - start) (drop start out)) (lines_all c_nl (drop i out))).
Proof.
  induction k as [|k IH]; intros start i fb Hs Hl; rewrite discover_unfold; unfold char_at; cbv zeta.
  - rewrite (proj2 (Nat.eqb_eq i (length out))) by lia. cbn [orb]. rewrite (drop_ge out i) by lia. cbn [lines_all glue pick_guid]. rewrite app_nil_r. done.
  - rewrite (proj2 (Nat.eqb_neq i (length out))) by lia. cbn [orb]. destruct (lookup_lt_is_Some_2 out i) as [c Hc]; [lia|]. rewrite Hc, (drop_S out c i Hc). cbn [default from_option]. unfold id. cbn [lines_all].
    assert (∀ fb', discover_from (S k) out (S i) (S i) fb' = pick_guid fb' (lines_all c_nl (drop (S i) out))) as Hnext.
    { intros fb'. rewrite IH by lia. rewrite Nat.sub_diag. cbn [take]. unfold glue. destruct (lines_all c_nl (drop (S i) out)) eqn:E; [|done]. destruct (drop (S i) out) as [|b r]; [done|]. cbn in E. destruct (b =? c_nl); [done|]. by destruct (lines_all c_nl r). }
    destruct (c =? c_nl); cbn [glue pick_guid].
    + rewrite app_nil_r, !Hnext. done.
    + rewrite IH, (take_more out start i c Hs Hc) by lia. unfold glue. destruct (lines_all c_nl (drop (S i) out)); by rewrite <- ?app_assoc.
Qed.

(** Both platforms find the same virtual machine in the same text: the loops over
    indices give what the list of lines gives, and [fgets] with its 511 characters
    loses nothing of a text without zero bytes, however long its lines are. *)
Theorem discovery_agrees out : Forall (λ c, c ≠ 0) out →
  discover_wsl_vm_guid (Some out) = Launch.discover_wsl_vm_guid (Some (read_pipe (length out) out)).
Proof.
  intros Hz. rewrite (read_pipe_whole (length out) out) by done. unfold discover_wsl_vm_guid, Launch.discover_wsl_vm_guid. rewrite (discover_from_spec (length out) out) by lia. rewrite drop_0. cbn [Nat.sub take glue].
  destruct (lines_all c_nl out); done.
Qed.

Lemma discovery_agrees_witness : discover_wsl_vm_guid (Some hcs_output) = Launch.discover_wsl_vm_guid (Some (read_pipe (length hcs_output) hcs_output))
  ∧ discover_wsl_vm_guid (Some hcs_output) = str "0A1B2C3D-4e5f-6071-8293-a4b5c6d7e8f9".
Proof. split; [apply (discovery_agrees hcs_output); apply (bool_decide_unpack _); vm_compute; exact I|vm_compute; reflexivity]. Defined.

(** ** [WinAgent] *)

Record WinAgent := mkWinAgent { pid_ : Z }.
Definition win_agent_new : WinAgent := mkWinAgent (-1).

(** [fork] in the parent. *)
Definition win_start (a : WinAgent) (pid : Z) : WinAgent * Result unit := if pid <? 0 then (a, Err IoError) else (mkWinAgent pid, Ok ()).

(** [stop], and the destructor: the child that is signalled and waited for. *)
Definition win_stop (a : WinAgent) : WinAgent * list Z := if pid_ a <=? 0 then (a, []) else (mkWinAgent (-1), [pid_ a]).

(** What is started is stopped once: the next [stop], and the destructor, find
    nothing to do, so no other process that got the number is hit. *)
Lemma win_agent_once a pid a1 : 0 < pid → win_start a pid = (a1, Ok ()) →
  let '(a2, killed) := win_stop a1 in killed = [pid] ∧ win_stop a2 = (a2, []).
Proof. intros Hp. unfold win_start. rewrite (proj2 (Z.ltb_ge _ _)) by lia. intros [= <-]. unfold win_stop. cbn [pid_]. rewrite (proj2 (Z.leb_gt _ _)) by lia. done. Qed.

(** ** [wWinMain] *)

(** [create]: [CreateProcessW] on the command line, and the exit code (a [DWORD])
    of the process once it has ended. *)
Definition wWinMain (create : bytes → option Z) (lpCmdLine : option bytes) : Z :=
  match lpCmdLine with
  | None | Some [] => 2
  | Some cmd => match create (cmd ++ [0]) with None => 1 | Some code => if code <? 2 ^ 31 then code else code - 2 ^ 32 end
  end.

(** The task sees a success exactly where the command ran and succeeded. *)
Lemma launcher_success create cmd : (∀ c code, create c = Some code → u32_ok code) →
  wWinMain create cmd = 0 ↔ ∃ c, cmd = Some c ∧ c ≠ [] ∧ create (c ++ [0]) = Some 0.
Proof.
  intros Hc. unfold wWinMain. destruct cmd as [[|b c]|]; [split; [done|by intros (? & [= <-] & ? & _)]| |split; [done|by intros (? & ? & _)]].
  destruct (create ((b :: c) ++ [0])) as [code|] eqn:E.
  - pose proof (Hc _ _ E) as Hu. unfold u32_ok in Hu. split.
    + intros Hz. exists (b :: c). split_and!; [done..|]. rewrite E. f_equal. destruct (Z.ltb_spec code (2 ^ 31)); lia.
    + intros (c' & [= <-] & _ & E'). rewrite E in E'. by injection E' as ->.
  - split; [done|]. intros (c' & [= <-] & _ & E'). congruence.
Qed.
