(* ===== verification/Agent.v ===== *)
(** * The agent program ([tools/wsldrived_main.cpp])

    The arguments, the refusal to serve without a token, the choice between
    dialling, one session and a listening loop, and that loop: a vector of session
    threads that is capped and reaped.  The loop runs beside its session threads:
    a run is a list of choices, each a step of the main thread or the end of a
    session.  What the sockets answer is a parameter. *)

From S2P Require Import Prelude Types Auth Endpoint Launch.

(** ** Arguments *)

Record AgentArgs := mkArgs {
  aa_root : bytes; aa_listen : bytes; aa_connect : bytes;
  aa_watch : bool; aa_exit_when_idle : bool; aa_one_file_system : bool; aa_insecure_no_auth : bool
}.

Definition no_args : AgentArgs := mkArgs [] [] [] true false true false.

(** The loop over [argv]; [None] prints the usage and exits with 2. *)
Fixpoint parse_args (args : list bytes) (a : AgentArgs) : option AgentArgs :=
  match args with
  | [] => Some a
  | x :: args =>
      if bool_decide (x = str "--root") then
        match args with [] => None | v :: args => parse_args args (mkArgs v (aa_listen a) (aa_connect a) (aa_watch a) (aa_exit_when_idle a) (aa_one_file_system a) (aa_insecure_no_auth a)) end
      else if bool_decide (x = str "--listen") then
        match args with [] => None | v :: args => parse_args args (mkArgs (aa_root a) v (aa_connect a) (aa_watch a) (aa_exit_when_idle a) (aa_one_file_system a) (aa_insecure_no_auth a)) end
      else if bool_decide (x = str "--connect") then
        match args with [] => None | v :: args => parse_args args (mkArgs (aa_root a) (aa_listen a) v (aa_watch a) (aa_exit_when_idle a) (aa_one_file_system a) (aa_insecure_no_auth a)) end
      else if bool_decide (x = str "--no-watch") then
        parse_args args (mkArgs (aa_root a) (aa_listen a) (aa_connect a) false (aa_exit_when_idle a) (aa_one_file_system a) (aa_insecure_no_auth a))
      else if bool_decide (x = str "--exit-when-idle") then
        parse_args args (mkArgs (aa_root a) (aa_listen a) (aa_connect a) (aa_watch a) true (aa_one_file_system a) (aa_insecure_no_auth a))
      else if bool_decide (x = str "--cross-filesystems") then
        parse_args args (mkArgs (aa_root a) (aa_listen a) (aa_connect a) (aa_watch a) (aa_exit_when_idle a) false (aa_insecure_no_auth a))
      else if bool_decide (x = str "--insecure-no-auth") then
        parse_args args (mkArgs (aa_root a) (aa_listen a) (aa_connect a) (aa_watch a) (aa_exit_when_idle a) (aa_one_file_system a) true)
      else None
  end.

(** ** [main] up to the sessions *)

(** [RootServer::Options] as [main] fills it in. *)
Record ServerOptions := mkServerOptions { so_root : bytes; so_watch : bool; so_one_file_system : bool; so_token : bytes }.

(** How the agent meets its clients. *)
Inductive Meeting :=
| Dialled (ep : Endpoint)      (* --connect: one session on the socket dialled *)
| OneSession (ep : Endpoint)   (* --listen --exit-when-idle *)
| Listening (ep : Endpoint).   (* --listen: the accept loop *)

Inductive Outcome := Exited (code : Z) | Serves (opts : ServerOptions) (how : Meeting).

(** Whether the server starts, and what the sockets answer. *)
Record Sys := mkSys { sys_start : bool; sys_connect : Endpoint → bool; sys_bind : Endpoint → bool; sys_accept : bool }.

Definition main (env : Env) (sys : Sys) (args : list bytes) : Outcome :=
  if bool_decide (head args = Some (str "--version")) || bool_decide (head args = Some (str "-V")) then Exited 0
  else
    match parse_args args no_args with
    | None => Exited 2
    | Some a =>
        if bool_decide (aa_root a = []) || Bool.eqb (bool_decide (aa_listen a = [])) (bool_decide (aa_connect a = [])) then Exited 2
        else
          let token := auth_token_from_env env in
          if bool_decide (token = []) && negb (aa_insecure_no_auth a) then Exited 2
          else
            let opts := mkServerOptions (aa_root a) (aa_watch a) (aa_one_file_system a) token in
            if negb (sys_start sys) then Exited 1
            else if negb (bool_decide (aa_connect a = [])) then
              match parse (aa_connect a) with
              | Err _ => Exited 2
              | Ok ep => if sys_connect sys ep then Serves opts (Dialled ep) else Exited 1
              end
            else
              match parse (aa_listen a) with
              | Err _ => Exited 2
              | Ok ep =>
                  if negb (sys_bind sys ep) then Exited 1
                  else if aa_exit_when_idle a then (if sys_accept sys then Serves opts (OneSession ep) else Exited 0)
                  else Serves opts (Listening ep)
              end
    end.

(** ** The accept loop *)

Definition kMaxSessions : nat := 32.

(** A session: the connection it serves and the flag its thread sets. *)
Record Session := mkSession { se_conn : nat; se_done : bool }.

(** Where the main thread is: waiting in [accept], at index [i] of [reap] (on
    behalf of an accepted connection, or after a timeout), past [reap] with a
    connection, or out of the loop. *)
Inductive Pc := Accepting | Reap (i : nat) (conn : option nat) | Admit (conn : nat) | Leaving.

Record Loop := mkLoop { pc : Pc; sessions : list Session; served : list nat; refused : list nat }.
Definition loop_start : Loop := mkLoop Accepting [] [] [].

(** What [accept] returns. *)
Inductive Accepted := Conn (c : nat) | AcceptTimeout | AcceptError.

(** A choice of the scheduler: the main thread moves (with what [accept] returns
    if it is called), or the thread of the session at an index ends. *)
Inductive Choice := MainMoves (a : Accepted) | Finishes (i : nat).

Definition main_step (a : Accepted) (l : Loop) : Loop :=
  match pc l with
  | Accepting =>
      match a with
      | Conn c => mkLoop (Reap 0 (Some c)) (sessions l) (served l) (refused l)
      | AcceptTimeout => mkLoop (Reap 0 None) (sessions l) (served l) (refused l)
      | AcceptError => mkLoop Leaving (sessions l) (served l) (refused l)
      end
  | Reap i conn =>
      match sessions l !! i with
      | Some s => if se_done s then mkLoop (Reap i conn) (delete i (sessions l)) (served l) (refused l)
                  else mkLoop (Reap (S i) conn) (sessions l) (served l) (refused l)
      | None => mkLoop (match conn with Some c => Admit c | None => Accepting end) (sessions l) (served l) (refused l)
      end
  | Admit c =>
      if (kMaxSessions <=? length (sessions l))%nat then mkLoop Accepting (sessions l) (served l) (refused l ++ [c])
      else mkLoop Accepting (sessions l ++ [mkSession c false]) (served l ++ [c]) (refused l)
  | Leaving => l
  end.

Definition step (l : Loop) (x : Choice) : Loop :=
  match x with
  | MainMoves a => main_step a l
  | Finishes i => mkLoop (pc l) (alter (λ s, mkSession (se_conn s) true) i (sessions l)) (served l) (refused l)
  end.

Definition run (l : Loop) (xs : list Choice) : Loop := foldl step l xs.

(** ** Authentication *)

Lemma parse_args_insecure args : ∀ a a', parse_args args a = Some a' → aa_insecure_no_auth a' = true →
  aa_insecure_no_auth a = true ∨ str "--insecure-no-auth" ∈ args.
Proof.
  assert (∀ n args a a', (length args <= n)%nat → parse_args args a = Some a' → aa_insecure_no_auth a' = true →
    aa_insecure_no_auth a = true ∨ str "--insecure-no-auth" ∈ args) as H; [|intros a a'; by apply (H (length args))]. clear args.
  induction n as [|n IH]; intros [|x args] a a' Hlen Hp Hi; cbn [length] in Hlen; [injection Hp as <-; by left|lia|injection Hp as <-; by left|].
  cbn [parse_args] in Hp. rewrite elem_of_cons.
  repeat (case_bool_decide; [|]).
  1-3: destruct args as [|v args]; [done|]; cbn [length] in Hlen; apply IH in Hp; [|lia|done]; destruct Hp as [?|?]; [by left|right; right; by apply list_elem_of_further].
  1-3: apply IH in Hp; [|lia|done]; cbn [aa_insecure_no_auth] in Hp; tauto.
  - subst. right. by left.
  - done.
Qed.

(** C17: the agent never serves unauthenticated by accident: if it serves at all,
    its sessions demand the token of its environment, and that token is empty only
    when --insecure-no-auth was given; the endpoint it uses is the one endpoint
    named on its command line. *)
Theorem agent_authenticated env sys args opts how : main env sys args = Serves opts how →
  so_token opts = auth_token_from_env env ∧ (so_token opts ≠ [] ∨ str "--insecure-no-auth" ∈ args)
  ∧ ∃ a, parse_args args no_args = Some a ∧ so_root opts = aa_root a ∧ so_root opts ≠ []
    ∧ match how with
      | Dialled ep => parse (aa_connect a) = Ok ep ∧ aa_listen a = []
      | OneSession ep => parse (aa_listen a) = Ok ep ∧ aa_connect a = [] ∧ aa_exit_when_idle a = true
      | Listening ep => parse (aa_listen a) = Ok ep ∧ aa_connect a = [] ∧ aa_exit_when_idle a = false
      end.
Proof.
  unfold main. destruct (_ || _); [done|]. destruct (parse_args args no_args) as [a|] eqn:Ea; [|done].
  case_bool_decide as Hroot; [done|]. cbn [orb]. destruct (Bool.eqb _ _) eqn:Eone; [done|]. apply Bool.eqb_false_iff in Eone.
  destruct (bool_decide (auth_token_from_env env = []) && negb (aa_insecure_no_auth a)) eqn:Etok; [done|]. destruct (sys_start sys); [|done]. cbn [negb].
  assert (auth_token_from_env env ≠ [] ∨ str "--insecure-no-auth" ∈ args) as Hauth.
  { apply andb_false_iff in Etok as [Ht|Ht]; [left; by apply bool_decide_eq_false in Ht|]. apply negb_false_iff in Ht.
    right. by destruct (parse_args_insecure _ _ _ Ea Ht). }
  destruct (bool_decide (aa_connect a = [])) eqn:Ec, (bool_decide (aa_listen a = [])) eqn:El; try done; cbn [negb]; b2p.
  - destruct (parse (aa_listen a)) as [ep|] eqn:Ep; [|done]. destruct (sys_bind sys ep); [|done]. cbn [negb].
    destruct (aa_exit_when_idle a) eqn:Ex; [destruct (sys_accept sys); [|done]|]; intros [= <- <-]; (split_and!; [done|done|]); exists a; naive_solver.
  - destruct (parse (aa_connect a)) as [ep|] eqn:Ep; [|done]. destruct (sys_connect sys ep); [|done]. intros [= <- <-].
    split_and!; [done|done|]. exists a; naive_solver.
Qed.

Definition all_well : Sys := mkSys true (λ _, true) (λ _, true) true.

Lemma agent_authenticated_witness :
  let env : Env := {[kAuthTokenEnv := str "s3"]} in let args := [str "--root"; str "/srv"; str "--listen"; str "tcp://127.0.0.1:5000"] in
  main ∅ all_well args = Exited 2
  ∧ ∃ opts how, main env all_well args = Serves opts how ∧ so_token opts = str "s3".
Proof.
  cbv zeta. split; [vm_compute; reflexivity|].
  destruct (main {[kAuthTokenEnv := str "s3"]} all_well [str "--root"; str "/srv"; str "--listen"; str "tcp://127.0.0.1:5000"]) as [code|opts how] eqn:E;
    [vm_compute in E; discriminate E|]. exists opts, how. split; [reflexivity|].
  destruct (agent_authenticated _ _ _ _ _ E) as [-> _]. vm_compute. reflexivity.
Defined.

(** ** The cap on sessions *)

Definition unfinished (s : Session) : Prop := se_done s = false.
#[global] Instance unfinished_dec s : Decision (unfinished s).
Proof. unfold unfinished. apply _. Defined.

Abbreviation conns := (fmap se_conn).

(** The sessions a reap on its way still has to account for: those it has seen
    unfinished and those it has not seen and that are not finished. *)
Definition pending (i : nat) (ss : list Session) : list nat := conns (take i ss ++ filter unfinished (drop i ss)).

Lemma filter_alter_done (i : nat) (ss : list Session) : filter unfinished (alter (λ s, mkSession (se_conn s) true) i ss) `sublist_of` filter unfinished ss.
Proof.
  revert i. induction ss as [|s ss IH]; intros [|i]; cbn [alter list_alter]; [done|done| |].
  - rewrite (filter_cons_False _ (mkSession _ true)) by done. rewrite filter_cons. case_decide; [by apply sublist_cons|done].
  - rewrite !filter_cons. case_decide; [apply sublist_skip|]; apply IH.
Qed.

Lemma conns_alter (i : nat) (ss : list Session) : conns (alter (λ s, mkSession (se_conn s) true) i ss) = conns ss.
Proof. revert i. induction ss as [|s ss IH]; intros [|i]; cbn; [done..|]. f_equal. apply IH. Qed.

Lemma pending_alter (n i : nat) (ss : list Session) : pending n (alter (λ s, mkSession (se_conn s) true) i ss) `sublist_of` pending n ss.
Proof.
  unfold pending. rewrite !fmap_app. destruct (decide (i < n)%nat).
  - rewrite drop_alter_lt, take_alter_lt by done. apply sublist_app; [|done]. by rewrite conns_alter.
  - apply sublist_app; [by rewrite take_alter_ge by lia|]. apply fmap_sublist.
    assert (drop n (alter (λ s, mkSession (se_conn s) true) i ss) = alter (λ s, mkSession (se_conn s) true) (i - n)%nat (drop n ss)) as ->.
    { rewrite drop_alter_ge by lia. done. } apply filter_alter_done.
Qed.

Lemma pending_delete (i : nat) (ss : list Session) s : ss !! i = Some s → se_done s = true → pending i (delete i ss) = pending i ss.
Proof.
  intros Hs Hd. pose proof (lookup_lt_Some _ _ _ Hs). unfold pending. rewrite (drop_S ss s i Hs), filter_cons_False by (unfold unfinished; by rewrite Hd).
  rewrite delete_take_drop. rewrite take_app_length', drop_app_length' by (rewrite length_take; lia). done.
Qed.

Lemma pending_skip (i : nat) (ss : list Session) s : ss !! i = Some s → se_done s = false → pending (S i) ss = pending i ss.
Proof. intros Hs Hd. unfold pending. rewrite (drop_S ss s i Hs), filter_cons_True by done. rewrite (take_S_r ss i s Hs). by rewrite <- app_assoc. Qed.

Lemma pending_end (i : nat) (ss : list Session) : ss !! i = None → pending i ss = conns ss.
Proof. intros Hs%lookup_ge_None. unfold pending. by rewrite take_ge, drop_ge, filter_nil, app_nil_r by lia. Qed.

(** Connection [c] was accepted after the choices [ys]. *)
Definition accepted_after (xs : list Choice) (c : nat) (ys : list Choice) : Prop :=
  pc (run loop_start ys) = Accepting ∧ ∃ zs, xs = ys ++ MainMoves (Conn c) :: zs.

Lemma accepted_snoc xs x c ys : accepted_after xs c ys → accepted_after (xs ++ [x]) c ys.
Proof. intros (Hp & zs & ->). split; [done|]. exists (zs ++ [x]). by rewrite <- app_assoc. Qed.

Abbreviation running_after := (λ ys, filter unfinished (sessions (run loop_start ys))).

Definition loop_inv (xs : list Choice) (l : Loop) : Prop :=
  (length (sessions l) <= kMaxSessions)%nat
  ∧ match pc l with
    | Reap i (Some c) => ∃ ys, accepted_after xs c ys ∧ pending i (sessions l) `sublist_of` conns (running_after ys)
    | Admit c => ∃ ys, accepted_after xs c ys ∧ conns (sessions l) `sublist_of` conns (running_after ys)
    | _ => True
    end
  ∧ Forall (λ c, ∃ ys, accepted_after xs c ys ∧ (kMaxSessions <= length (running_after ys))%nat) (refused l).

Lemma refused_snoc xs x l : Forall (λ c, ∃ ys, accepted_after xs c ys ∧ (kMaxSessions <= length (running_after ys))%nat) (refused l) →
  Forall (λ c, ∃ ys, accepted_after (xs ++ [x]) c ys ∧ (kMaxSessions <= length (running_after ys))%nat) (refused l).
Proof. intros H. eapply Forall_impl; [exact H|]. intros c (ys & Ha & Hl). exists ys. split; [by apply accepted_snoc|done]. Qed.

Lemma main_step_inv xs a l : l = run loop_start xs → loop_inv xs l → loop_inv (xs ++ [MainMoves a]) (main_step a l).
Proof.
  intros El (Hcap & Hpc & Href). apply (refused_snoc _ (MainMoves a)) in Href. unfold main_step. destruct (pc l) as [|i conn|c|] eqn:Epc.
  - destruct a as [c| |]; (split_and!; [done| |done]); [|done..]. exists xs. split; [split; [by rewrite <- El|by exists []]|].
    unfold pending. cbn [take drop app sessions]. by rewrite El.
  - destruct (sessions l !! i) as [s|] eqn:Es; [destruct (se_done s) eqn:Ed|]; (split_and!; [|destruct conn as [c|]; [|done]|done]); cbn [sessions]; try done.
    + rewrite length_delete by eauto. lia.
    + destruct Hpc as (ys & Ha & Hs). exists ys. split; [by apply accepted_snoc|]. by rewrite (pending_delete i (sessions l) s).
    + destruct Hpc as (ys & Ha & Hs). exists ys. split; [by apply accepted_snoc|]. by rewrite (pending_skip i (sessions l) s).
    + destruct Hpc as (ys & Ha & Hs). exists ys. split; [by apply accepted_snoc|]. by rewrite <- (pending_end i (sessions l)).
  - destruct (Nat.leb_spec kMaxSessions (length (sessions l))) as [Hl|Hl]; (split_and!; [|done|]); cbn [sessions refused]; [done| |rewrite length_app; cbn; lia|done].
    apply Forall_app. split; [done|]. apply Forall_singleton. destruct Hpc as (ys & Ha & Hs). exists ys. split; [by apply accepted_snoc|].
    apply sublist_length in Hs. rewrite !length_fmap in Hs. lia.
  - split_and!; [done|by rewrite Epc|done].
Qed.

Lemma finish_inv xs i l : loop_inv xs l → loop_inv (xs ++ [Finishes i]) (step l (Finishes i)).
Proof.
  intros (Hcap & Hpc & Href). split_and!; [cbn; by rewrite length_alter| |by apply refused_snoc]. cbn [step pc sessions].
  destruct (pc l) as [|n [c|]|c|]; try done; destruct Hpc as (ys & Ha & Hs); exists ys; (split; [by apply accepted_snoc|]).
  - etrans; [apply pending_alter|done].
  - by rewrite conns_alter.
Qed.

Lemma run_inv xs : loop_inv xs (run loop_start xs).
Proof.
  induction xs as [|x xs IH] using rev_ind; [split_and!; cbn; [unfold kMaxSessions; lia|done|constructor]|].
  unfold run. rewrite foldl_app. cbn [foldl]. fold (run loop_start xs). destruct x as [a|i]; [by apply main_step_inv|by apply finish_inv].
Qed.

(** C18: however accepting, reaping and the ends of sessions interleave, the agent
    never holds more than 32 sessions, and a connection it refuses was accepted
    while 32 sessions were all still running. *)
Theorem sessions_capped xs :
  (length (sessions (run loop_start xs)) <= 32)%nat
  ∧ ∀ c, c ∈ refused (run loop_start xs) → ∃ ys zs, xs = ys ++ MainMoves (Conn c) :: zs ∧ pc (run loop_start ys) = Accepting
      ∧ length (filter unfinished (sessions (run loop_start ys))) = 32%nat.
Proof.
  destruct (run_inv xs) as (Hcap & _ & Href). split; [done|]. intros c Hc. rewrite Forall_forall in Href. destruct (Href c Hc) as (ys & (Hp & zs & Hx) & Hl).
  exists ys, zs. split_and!; [done|done|]. destruct (run_inv ys) as (Hcap' & _). pose proof (length_filter unfinished (sessions (run loop_start ys))).
  unfold kMaxSessions in *. lia.
Qed.

(** ** A free place is found *)

Lemma reap_runs c n : ∀ i l, pc l = Reap i (Some c) → length (sessions l) = (i + n)%nat →
  run l (replicate (S n) (MainMoves AcceptError)) =
    mkLoop (Admit c) (take i (sessions l) ++ filter unfinished (drop i (sessions l))) (served l) (refused l).
Proof.
  induction n as [|n IH]; intros i l Hpc Hlen.
  - cbn [replicate run foldl step]. unfold main_step. rewrite Hpc, lookup_ge_None_2 by lia. by rewrite take_ge, drop_ge, filter_nil, app_nil_r by lia.
  - destruct (lookup_lt_is_Some_2 (sessions l) i) as [s Hs]; [lia|].
    change (run l (replicate (S (S n)) (MainMoves AcceptError))) with (run (main_step AcceptError l) (replicate (S n) (MainMoves AcceptError))).
    unfold main_step. rewrite Hpc, Hs. destruct (se_done s) eqn:Ed.
    + etrans; [apply IH; [done|]|]; cbn [sessions served refused]; [rewrite length_delete by eauto; lia|].
      rewrite delete_take_drop, take_app_length', drop_app_length' by (rewrite length_take; lia).
      by rewrite (drop_S _ _ _ Hs), filter_cons_False by (unfold unfinished; by rewrite Ed).
    + etrans; [apply IH; [done|]|]; cbn [sessions served refused]; [lia|].
      by rewrite (drop_S _ _ _ Hs), filter_cons_True, (take_S_r _ _ _ Hs), <- app_assoc by done.
Qed.

(** Finished sessions make room: when fewer than 32 sessions are still
    running, the next connection is served once the reap has passed over the
    vector, which then holds exactly the running sessions and the new one. *)
Theorem sessions_admitted l c : pc l = Accepting → (length (filter unfinished (sessions l)) < 32)%nat →
  let l' := run l (MainMoves (Conn c) :: replicate (length (sessions l) + 2) (MainMoves AcceptError)) in
  pc l' = Accepting ∧ served l' = served l ++ [c] ∧ refused l' = refused l ∧ sessions l' = filter unfinished (sessions l) ++ [mkSession c false].
Proof.
  intros Hpc Hl. cbv zeta. replace (length (sessions l) + 2)%nat with (S (length (sessions l)) + 1)%nat by lia. rewrite replicate_add.
  assert (step l (MainMoves (Conn c)) = mkLoop (Reap 0 (Some c)) (sessions l) (served l) (refused l)) as Hfirst
    by (cbn [step]; unfold main_step; by rewrite Hpc).
  unfold run. cbn [foldl]. rewrite Hfirst, foldl_app.
  pose proof (reap_runs c (length (sessions l)) 0 (mkLoop (Reap 0 (Some c)) (sessions l) (served l) (refused l)) eq_refl eq_refl) as Hr.
  unfold run in Hr. cbn [sessions served refused take drop app] in Hr. rewrite Hr. cbn [replicate foldl step main_step pc sessions served refused].
  rewrite (proj2 (Nat.leb_gt _ _)) by done. done.
Qed.

(** 33 connections in a row: the last one is refused; when a session has ended,
    the next one is served. *)
Definition fill : list Choice := seq 0 33 ≫= (λ c, MainMoves (Conn c) :: replicate (Nat.min c 32 + 2) (MainMoves AcceptError)).

Lemma sessions_admitted_witness :
  refused (run loop_start fill) = [32%nat]
  ∧ let l := run loop_start (fill ++ [Finishes 5]) in
    served (run l (MainMoves (Conn 33) :: replicate (length (sessions l) + 2) (MainMoves AcceptError))) = served l ++ [33%nat].
Proof.
  split; [vm_compute; reflexivity|]. cbv zeta.
  destruct (sessions_admitted (run loop_start (fill ++ [Finishes 5])) 33) as (_ & H & _); [vm_compute; reflexivity|apply Nat.ltb_lt; vm_compute; reflexivity|exact H].
Defined.
