(* ===== verification/Cli.v ===== *)
(** * The client program ([tools/wsldrive_main.cpp])

    [wsldrive mount] up to the connected socket, on both platforms: the arguments,
    what is launched with which token and endpoint, and how the client meets the
    agent; the arguments of [fetch], the checks of [doctor] and the transport
    probe.  What the system answers (the wait for the distro, the random
    generator, hcsdiag, process creation, sockets) is a parameter.  The theorems
    join this program to the agent's ([Agent]) through the launchers ([Launch])
    and the endpoints ([Endpoint]). *)

From S2P Require Import Prelude Types Auth Endpoint Launch Agent.
From stdpp Require Import functions.
#[local] Open Scope Z_scope.

(** How the program ends early: an exit code, or an exception nothing catches. *)
Inductive Stop := ExitCode (code : Z) | Terminated.
Abbreviation Run A := (result Stop A).

Inductive Platform := Windows | Linux.
Definition ulong_bits (p : Platform) : Z := match p with Windows => 32 | Linux => 64 end.

(** [std::stoul]: white space, a sign, decimal digits; [None] where it throws. *)
Fixpoint dec_digits (s : bytes) : bytes :=
  match s with c :: s => if (48 <=? c) && (c <=? 57) then c :: dec_digits s else [] | [] => [] end.
Definition stoul (p : Platform) (s : bytes) : option Z :=
  let s := skip_space s in
  let '(neg, s) := match s with c :: r => if c =? 45 then (true, r) else if c =? 43 then (false, r) else (false, s) | [] => (false, s) end in
  let ds := dec_digits s in
  if bool_decide (ds = []) || (2 ^ ulong_bits p <=? undec ds) then None
  else Some (wrap (ulong_bits p) (if neg then - undec ds else undec ds)).

(** ** The arguments of [mount] *)

Inductive StrOpt := OConnect | OListen | ODistro | OWslRoot | OAgent | OWinRoot | OWinAgent | OVmGuid.
Inductive FlagOpt := HaveDistro | Writeback | Hvsocket | Prefetch | NotifyChanges.
#[global] Instance stropt_eq : EqDecision StrOpt.
Proof. solve_decision. Defined.
#[global] Instance flagopt_eq : EqDecision FlagOpt.
Proof. solve_decision. Defined.

(** The variables [main] fills in: its strings, its flags and the port. *)
Record MountArgs := mkMount { ma_str : StrOpt → bytes; ma_flag : FlagOpt → bool; ma_port : Z }.

Definition kDefaultPort : Z := 51789.
Definition mount_defaults : MountArgs :=
  mkMount (λ _, []) (λ f, match f with Prefetch | NotifyChanges => true | _ => false end) kDefaultPort.

Definition set_str (o : StrOpt) (v : bytes) (m : MountArgs) : MountArgs := mkMount (<[o := v]> (ma_str m)) (ma_flag m) (ma_port m).
Definition set_flag (f : FlagOpt) (b : bool) (m : MountArgs) : MountArgs := mkMount (ma_str m) (<[f := b]> (ma_flag m)) (ma_port m).
Definition set_port (p : Z) (m : MountArgs) : MountArgs := mkMount (ma_str m) (ma_flag m) p.

(** What an argument does; [val()] is empty at the end of [argv]. *)
Inductive Handler := Value (h : bytes → MountArgs → option MountArgs) | Flag (h : MountArgs → MountArgs) | Unknown.

Definition mount_option (p : Platform) (a : bytes) : Handler :=
  let string o := Value (λ v m, Some (set_str o v m)) in
  if bool_decide (a = str "--connect") then string OConnect
  else if bool_decide (a = str "--listen") then string OListen
  else if bool_decide (a = str "--hvsocket") then Flag (set_flag Hvsocket true)
  else if bool_decide (a = str "--vm-guid") then string OVmGuid
  else if bool_decide (a = str "--win-root") then string OWinRoot
  else if bool_decide (a = str "--win-agent") then string OWinAgent
  else if bool_decide (a = str "--writeback") then Flag (set_flag Writeback true)
  else if bool_decide (a = str "--no-prefetch") then Flag (set_flag Prefetch false)
  else if bool_decide (a = str "--no-inotify") then Flag (set_flag NotifyChanges false)
  else if bool_decide (a = str "--distro") then Value (λ v m, Some (set_flag HaveDistro true (set_str ODistro v m)))
  else if bool_decide (a = str "--wsl-root") then string OWslRoot
  else if bool_decide (a = str "--agent") then string OAgent
  else if bool_decide (a = str "--port") then Value (λ v m, (λ n, set_port (wrap 32 n) m) <$> stoul p v)
  else Unknown.

Fixpoint mount_args (p : Platform) (args : list bytes) (m : MountArgs) : Run MountArgs :=
  match args with
  | [] => Ok m
  | a :: args =>
      match mount_option p a with
      | Unknown => Err (ExitCode 2)
      | Flag h => mount_args p args (h m)
      | Value h =>
          match args with
          | [] => match h [] m with Some m => Ok m | None => Err Terminated end
          | v :: args => match h v m with Some m => mount_args p args m | None => Err Terminated end
          end
      end
  end.

(** ** What is launched *)

(** What the system answers on the way. *)
Record Answers := mkAnswers {
  an_ready : bool;              (* wait_wsl_ready *)
  an_random : option bytes;     (* the random generator *)
  an_hcsdiag : option bytes;    (* the output of hcsdiag list *)
  an_started : bool             (* the agent's process was created *)
}.

(** What [mount] goes on with: the token it will present, where it listens or
    connects, the agent it launched, and the one it launches once it listens. *)
Record Plan := mkPlan {
  pl_token : bytes;
  pl_listen : bytes;
  pl_connect : bytes;
  pl_wsl_agent : option WslAgentSpec;
  pl_win_agent : option WinAgentSpec
}.

Definition kVsockPort : Z := 5700.
(** [if (hvsocket && port == 51789) port = 5700;] *)
Definition mount_port (m : MountArgs) : Z := if ma_flag m Hvsocket && (ma_port m =? kDefaultPort) then kVsockPort else ma_port m.

Definition loopback (port : Z) : bytes := str "tcp://127.0.0.1:" ++ to_string port.
Definition vsock_any (port : Z) : bytes := str "vsock://any:" ++ to_string port.
Definition hv_guest (guid : bytes) (port : Z) : bytes := str "hv://{" ++ guid ++ str "}:" ++ to_string port.

Definition vm_guid_of (an : Answers) (m : MountArgs) : bytes :=
  if bool_decide (ma_str m OVmGuid = []) then discover_wsl_vm_guid (an_hcsdiag an) else ma_str m OVmGuid.

(** The auto-launch of Windows. *)
Definition launch_in_distro (an : Answers) (m : MountArgs) : Run Plan :=
  if bool_decide (ma_str m OWslRoot = []) then Err (ExitCode 2)
  else if negb (an_ready an) then Err (ExitCode 1)
  else
    let port := mount_port m in
    let token := generate_auth_token (an_random an) in
    if bool_decide (token = []) then Err (ExitCode 1)
    else
      let spec listen := mkWslSpec (ma_str m ODistro) (ma_str m OAgent) (ma_str m OWslRoot) port listen token in
      if ma_flag m Hvsocket then
        let guid := vm_guid_of an m in
        if bool_decide (guid = []) then Err (ExitCode 2)
        else if negb (an_started an) then Err (ExitCode 1)
        else Ok (mkPlan token (ma_str m OListen) (hv_guest guid port) (Some (spec (vsock_any port))) None)
      else if negb (an_started an) then Err (ExitCode 1)
      else Ok (mkPlan token (ma_str m OListen) (loopback port) (Some (spec [])) None).

(** Direction B, on Linux. *)
Definition prepare_win_agent (an : Answers) (m : MountArgs) : Run Plan :=
  if bool_decide (ma_str m OWinAgent = []) then Err (ExitCode 2)
  else
    let port := mount_port m in
    let token := generate_auth_token (an_random an) in
    if bool_decide (token = []) then Err (ExitCode 1)
    else
      let spec connect := mkWinSpec (ma_str m OWinAgent) (ma_str m OWinRoot) connect token in
      if ma_flag m Hvsocket then
        let guid := vm_guid_of an m in
        if bool_decide (guid = []) then Err (ExitCode 2)
        else Ok (mkPlan token (vsock_any port) (ma_str m OConnect) None (Some (spec (hv_guest guid port))))
      else Ok (mkPlan token (loopback port) (ma_str m OConnect) None (Some (spec (loopback port)))).

Definition nowhere (m : MountArgs) : bool :=
  bool_decide (ma_str m OConnect = []) && bool_decide (ma_str m OListen = []) && bool_decide (ma_str m OWinRoot = []).
Definition attach (env : Env) (m : MountArgs) : Plan := mkPlan (auth_token_from_env env) (ma_str m OListen) (ma_str m OConnect) None None.

Definition plan_mount (p : Platform) (env : Env) (an : Answers) (m : MountArgs) : Run Plan :=
  match p with
  | Windows =>
      if ma_flag m HaveDistro then launch_in_distro an m
      else if nowhere m then Err (ExitCode 2)
      else Ok (attach env m)
  | Linux =>
      if nowhere m then Err (ExitCode 2)
      else if bool_decide (ma_str m OWinRoot = []) then Ok (attach env m)
      else prepare_win_agent an m
  end.

(** ** Meeting the agent *)

(** A poll of [accept] with its 200 ms, and the stop flag read before it. *)
Inductive Poll := PollStop | PollConn | PollTimeout | PollError.

(** The loop that waits for the agent to dial in. *)
Fixpoint accept_loop (polls : list Poll) : bool :=
  match polls with
  | PollConn :: _ => true
  | PollTimeout :: polls => accept_loop polls
  | _ => false
  end.

(** [attempts] calls of [connect], 100 ms apart; [tries] says which succeed. *)
Fixpoint connect_loop (attempts i : nat) (tries : nat → bool) : bool :=
  match attempts with O => false | S n => if tries i then true else connect_loop n (S i) tries end.

(** How the socket came to be. *)
Inductive Link := AcceptedOn (ep : Endpoint) | ConnectedTo (ep : Endpoint).

Record Sockets := mkSockets { sk_bind : Endpoint → bool; sk_win_started : bool; sk_polls : list Poll; sk_tries : nat → bool }.

Definition meet (plan : Plan) (have_distro : bool) (sk : Sockets) : Run Link :=
  if negb (bool_decide (pl_listen plan = [])) then
    match parse (pl_listen plan) with
    | Err _ => Err (ExitCode 2)
    | Ok ep =>
        if negb (sk_bind sk ep) then Err (ExitCode 1)
        else if bool_decide (is_Some (pl_win_agent plan)) && negb (sk_win_started sk) then Err (ExitCode 1)
        else if accept_loop (sk_polls sk) then Ok (AcceptedOn ep) else Err (ExitCode 1)
    end
  else
    match parse (pl_connect plan) with
    | Err _ => Err (ExitCode 2)
    | Ok ep => if connect_loop (if have_distro then 300 else 1) 0 (sk_tries sk) then Ok (ConnectedTo ep) else Err (ExitCode 1)
    end.

(** ** [fetch] *)

Record FetchArgs := mkFetch { fe_connect : bytes; fe_listen : bytes; fe_watch : bool; fe_read : bytes; fe_lookups : Z }.

(** [std::stol]: as [stoul], with the range of a signed [long]. *)
Definition stol (p : Platform) (s : bytes) : option Z :=
  let s := skip_space s in
  let '(neg, s) := match s with c :: r => if c =? 45 then (true, r) else if c =? 43 then (false, r) else (false, s) | [] => (false, s) end in
  let ds := dec_digits s in
  let v := if neg then - undec ds else undec ds in
  if bool_decide (ds = []) || negb ((- 2 ^ (ulong_bits p - 1) <=? v) && (v <? 2 ^ (ulong_bits p - 1))) then None else Some v.

Fixpoint fetch_args (p : Platform) (args : list bytes) (f : FetchArgs) : Run FetchArgs :=
  match args with
  | [] => Ok f
  | a :: args =>
      if bool_decide (a = str "--connect") then
        match args with [] => Err (ExitCode 2) | v :: args => fetch_args p args (mkFetch v (fe_listen f) (fe_watch f) (fe_read f) (fe_lookups f)) end
      else if bool_decide (a = str "--listen") then
        match args with [] => Err (ExitCode 2) | v :: args => fetch_args p args (mkFetch (fe_connect f) v (fe_watch f) (fe_read f) (fe_lookups f)) end
      else if bool_decide (a = str "--watch") then fetch_args p args (mkFetch (fe_connect f) (fe_listen f) true (fe_read f) (fe_lookups f))
      else if bool_decide (a = str "--read") then
        match args with [] => Err (ExitCode 2) | v :: args => fetch_args p args (mkFetch (fe_connect f) (fe_listen f) (fe_watch f) v (fe_lookups f)) end
      else if bool_decide (a = str "--lookups") then
        match args with
        | [] => Err (ExitCode 2)
        | v :: args => match stol p v with Some n => fetch_args p args (mkFetch (fe_connect f) (fe_listen f) (fe_watch f) (fe_read f) n) | None => Err Terminated end
        end
      else Err (ExitCode 2)
  end.

Definition fetch_setup (p : Platform) (args : list bytes) : Run FetchArgs :=
  match fetch_args p args (mkFetch [] [] false [] 0) with
  | Err e => Err e
  | Ok f => if Bool.eqb (bool_decide (fe_connect f = [])) (bool_decide (fe_listen f = [])) then Err (ExitCode 2) else Ok f
  end.

(** The socket of [fetch]: one [connect], or one [accept]. *)
Definition fetch_link (f : FetchArgs) (bind dial : Endpoint → bool) (accepted : bool) : Run Link :=
  if negb (bool_decide (fe_connect f = [])) then
    match parse (fe_connect f) with
    | Err _ => Err (ExitCode 2)
    | Ok ep => if dial ep then Ok (ConnectedTo ep) else Err (ExitCode 1)
    end
  else
    match parse (fe_listen f) with
    | Err _ => Err (ExitCode 2)
    | Ok ep => if negb (bind ep) then Err (ExitCode 1) else if accepted then Ok (AcceptedOn ep) else Err (ExitCode 1)
    end.

(** ** The transport probe *)

(** Round trips in nanoseconds, as many of the 20 as succeeded. *)
Definition probe_result (rtt : list Z) : option Z :=
  if (5 <=? length rtt)%nat then merge_sort Z.le rtt !! (length rtt / 2)%nat else None.

(** 5 ms *)
Definition kFastLoopback : Z := 5000000.
Definition probe_transport_exit (rtt : option Z) : Z :=
  match rtt with None => 2 | Some t => if t <? kFastLoopback then 0 else 1 end.

(** ** [doctor] *)

Record DoctorArgs := mkDoctor { dr_distro : bytes; dr_port : Z; dr_hv : bool; dr_probe : bool }.

(** What its checks find; [ck_port_free]: the loopback endpoint could be bound. *)
Record Checks := mkChecks {
  ck_winfsp_built : bool; ck_winfsp_runtime : bool; ck_wsl_on_path : bool; ck_wsl_exit : Z;
  ck_distro_exit : Z; ck_registered : Z → bool; ck_port_free : Endpoint → bool
}.

(** The registry key of a port's service: "%08X-facb-11e6-bd58-64006a7986d3". *)
Definition hex_upper (v : Z) : byte := if v <? 10 then 48 + v else 55 + v.
Fixpoint hex_fixed (n : nat) (v : Z) : bytes := match n with O => [] | S n => hex_fixed n (v / 16) ++ [hex_upper (v mod 16)] end.
Definition service_guid (p : Z) : bytes := hex_fixed 8 (wrap 32 p) ++ str "-facb-11e6-bd58-64006a7986d3".

Definition to_string_int (n : Z) : bytes := if n <? 0 then 45 :: to_string (- n) else to_string n.

Definition problem (ok : bool) : Z := if ok then 0 else 1.
Definition hv_ports (d : DoctorArgs) : list Z := (λ i, (if dr_port d =? 0 then kVsockPort else dr_port d) + Z.of_nat i) <$> seq 0 10.

Definition doctor_problems (d : DoctorArgs) (c : Checks) : Z :=
  problem (ck_winfsp_built c) + problem (ck_winfsp_runtime c) + problem (ck_wsl_on_path c) + problem (ck_wsl_exit c =? 0)
  + (if bool_decide (dr_distro d = []) then 0 else problem (ck_distro_exit c =? 0))
  + (if dr_hv d then problem (length (filter (λ p, ck_registered c p = true) (hv_ports d)) =? 10)%nat else 0)
  + (if dr_port d =? 0 then 0
     else problem (match parse (str "tcp://127.0.0.1:" ++ to_string_int (dr_port d)) with Ok ep => ck_port_free c ep | Err _ => false end)).

Definition doctor_exit (d : DoctorArgs) (c : Checks) : Z := if doctor_problems d c =? 0 then 0 else 1.

(** ** The endpoints of a launch *)

Lemma loopback_parse p : u32_ok p →
  parse (loopback p) = if p >? 65535 then Err InvalidArgument else Ok (mkEndpoint Tcp (str "127.0.0.1") [] 0 p).
Proof.
  intros Hp. destruct (to_string_digits p Hp) as (_ & Hd & _). apply digits_no_colon in Hd. unfold loopback, parse.
  change (str "tcp://127.0.0.1:" ++ to_string p) with (str "tcp://" ++ (str "127.0.0.1" ++ c_colon :: to_string p)).
  change (split_scheme (str "tcp://" ++ ?x)) with (Some (str "tcp", x)). cbv iota.
  rewrite (bool_decide_eq_false_2 (str "127.0.0.1" ++ _ = [])), bool_decide_eq_true_2 by done.
  rewrite split_last_app, bool_decide_eq_false_2, parse_u32_to_string by done. by destruct (p >? 65535).
Qed.

Lemma vsock_any_parse p : u32_ok p → parse (vsock_any p) = Ok (mkEndpoint Vsock [] [] 0xFFFFFFFF p).
Proof. intros Hp. apply (endpoint_roundtrip (mkEndpoint Vsock [] [] 0xFFFFFFFF p)). split; [done|]. split; [vm_compute; intuition congruence|done]. Qed.

Lemma hv_guest_parse g p : u32_ok p → parse (hv_guest g p) = Ok (mkEndpoint HyperV [] ([123] ++ g ++ [125]) 0 p).
Proof.
  intros Hp. rewrite <- (endpoint_roundtrip (mkEndpoint HyperV [] ([123] ++ g ++ [125]) 0 p)) by (split_and!; done).
  unfold hv_guest, print. cbn [ep_kind vm_id port]. rewrite bool_decide_eq_false_2 by done. f_equal.
  change (str "hv://{") with (str "hv://" ++ [123]). change (str "}:") with ([125] ++ [c_colon]). by rewrite <- !app_assoc.
Qed.

(** The dialling end reaches the listening end: the same loopback endpoint, or a
    virtual machine's port from outside and any address of it from inside. *)
Definition meets (dial listen : Endpoint) : Prop :=
  dial = listen ∧ ep_kind dial = Tcp ∧ host dial = str "127.0.0.1"
  ∨ (ep_kind dial = HyperV ∧ vm_id dial ≠ [] ∧ ep_kind listen = Vsock ∧ cid listen = 0xFFFFFFFF ∧ port dial = port listen).

Lemma mount_port_ok m : u32_ok (ma_port m) → u32_ok (mount_port m).
Proof. unfold mount_port. by destruct (_ && _). Qed.

(** The agent on the arguments the launchers give it. *)
Definition agent_answer (env : Env) (args : list bytes) (root token : bytes) (how : Endpoint → Meeting) (theirs ours : Result Endpoint)
    (reach : Endpoint → Endpoint → Prop) : Prop :=
  match ours with
  | Ok ep => ∃ ep', theirs = Ok ep' ∧ reach ep ep' ∧ Agent.main env all_well args = Serves (mkServerOptions root true true token) (how ep')
  | Err _ => Agent.main env all_well args = Exited 2
  end.

Lemma agent_listens env root listen : root ≠ [] → listen ≠ [] → auth_token_from_env env ≠ [] →
  Agent.main env all_well [str "--root"; root; str "--listen"; listen; str "--exit-when-idle"]
  = match parse listen with Ok ep => Serves (mkServerOptions root true true (auth_token_from_env env)) (OneSession ep) | Err _ => Exited 2 end.
Proof.
  intros Hr Hl Ht. unfold Agent.main. rewrite !bool_decide_eq_false_2 by (intros [=]). cbn [orb].
  assert (parse_args [str "--root"; root; str "--listen"; listen; str "--exit-when-idle"] no_args = Some (mkArgs root listen [] true true true false)) as -> by (vm_compute; reflexivity).
  cbn [aa_root aa_listen aa_connect aa_watch aa_exit_when_idle aa_one_file_system aa_insecure_no_auth].
  rewrite (bool_decide_eq_false_2 (root = [])), (bool_decide_eq_false_2 (listen = [])), (bool_decide_eq_false_2 (auth_token_from_env env = [])) by done.
  by destruct (parse listen).
Qed.

Lemma agent_dials env root connect : root ≠ [] → connect ≠ [] → auth_token_from_env env ≠ [] →
  Agent.main env all_well [str "--root"; root; str "--connect"; connect; str "--exit-when-idle"]
  = match parse connect with Ok ep => Serves (mkServerOptions root true true (auth_token_from_env env)) (Dialled ep) | Err _ => Exited 2 end.
Proof.
  intros Hr Hl Ht. unfold Agent.main. rewrite !bool_decide_eq_false_2 by (intros [=]). cbn [orb].
  assert (parse_args [str "--root"; root; str "--connect"; connect; str "--exit-when-idle"] no_args = Some (mkArgs root [] connect true true true false)) as -> by (vm_compute; reflexivity).
  cbn [aa_root aa_listen aa_connect aa_watch aa_exit_when_idle aa_one_file_system aa_insecure_no_auth].
  rewrite (bool_decide_eq_false_2 (root = [])), (bool_decide_eq_false_2 (connect = [])), (bool_decide_eq_false_2 (auth_token_from_env env = [])) by done.
  by destruct (parse connect).
Qed.

(** The endpoints of a launch agree whichever transport is used. *)
Lemma transports_agree (reach : Endpoint → Endpoint → Prop) env args root token how hv guid p dialled listening :
  u32_ok p → guid ≠ [] ∨ hv = false → dialled = (if hv then hv_guest guid p else loopback p) → listening = (if hv then vsock_any p else loopback p) →
  (∀ ep ep', meets ep ep' → reach ep ep') →
  (Agent.main env all_well args = match parse listening with Ok ep => Serves (mkServerOptions root true true token) (how ep) | Err _ => Exited 2 end) →
  agent_answer env args root token how (parse listening) (parse dialled) reach.
Proof.
  intros Hp Hg -> -> Hreach Hmain. unfold agent_answer. rewrite Hmain. destruct hv.
  - rewrite hv_guest_parse, vsock_any_parse by done. eexists. split_and!; [done| |done]. apply Hreach. right. by split_and!.
  - rewrite loopback_parse by done. destruct (p >? 65535); [done|]. eexists. split_and!; [done| |done]. apply Hreach. by left.
Qed.



Definition demo_answers : Answers := mkAnswers true (Some (replicate 16 0xA7)) (Some hcs_output) true.
Definition demo_mount (p : Platform) (args : list bytes) : MountArgs :=
  match mount_args p args mount_defaults with Ok m => m | Err _ => mount_defaults end.
Definition demo_distro : MountArgs := demo_mount Windows [str "--distro"; str "Ubuntu"; str "--wsl-root"; str "/home/it's"; str "--hvsocket"].
Definition demo_win : MountArgs := demo_mount Linux [str "--win-root"; str "C:\src"; str "--win-agent"; str "/mnt/c/wsldrived.exe"; str "--port"; str "6000"].
Definition token_env (t : bytes) : Env := {[kAuthTokenEnv := t]}.



(** A client that was also told to listen waits where nobody dials: the agent it
    launched listens too. *)
Lemma distro_and_listen :
  let m := set_str OListen (str "tcp://127.0.0.1:6001") demo_distro in
  ∃ plan, plan_mount Windows ∅ demo_answers m = Ok plan ∧ is_Some (pl_wsl_agent plan)
    ∧ ∀ sk, meet plan true sk ≠ Ok (ConnectedTo (mkEndpoint HyperV [] (str "{0A1B2C3D-4e5f-6071-8293-a4b5c6d7e8f9}") 0 5700)).
Proof.
  cbv zeta. destruct (plan_mount Windows ∅ demo_answers (set_str OListen (str "tcp://127.0.0.1:6001") demo_distro)) as [plan|] eqn:E; [|by vm_compute in E].
  exists plan. split; [done|]. vm_compute in E. injection E as <-. split; [done|]. intros sk. unfold meet. cbn -[parse].
  destruct (parse _) as [ep|]; [|done]. destruct (sk_bind sk ep); [|done]. cbn. by destruct (accept_loop _).
Qed.

(** `--port` with no number after it ends the program by an exception. *)
Lemma port_without_value p : mount_args p [str "--port"] mount_defaults = Err Terminated.
Proof. destruct p; reflexivity. Qed.

(** ** The probe's verdict *)

(** In a sorted list what is at or before a position is no greater, what is at or
    after it no smaller. *)
Lemma sorted_below (P : Z → Prop) `{∀ x, Decision (P x)} (l : list Z) (k : nat) (t : Z) :
  StronglySorted Z.le l → l !! k = Some t → (∀ x, x <= t → P x) → (k < length (filter P l))%nat.
Proof.
  revert k. induction l as [|x l IH]; intros k Hs Hk HP; [done|]. inversion Hs as [|? ? Hs' Hx]; subst. destruct k as [|k].
  - injection Hk as ->. rewrite filter_cons_True by (apply HP; lia). cbn [length]. lia.
  - cbn in Hk. rewrite filter_cons_True by (apply HP; rewrite Forall_lookup in Hx; by apply (Hx k)). cbn [length].
    specialize (IH k Hs' Hk HP). lia.
Qed.

Lemma sorted_above (P : Z → Prop) `{∀ x, Decision (P x)} (l : list Z) (k : nat) (t : Z) :
  StronglySorted Z.le l → l !! k = Some t → (∀ x, t <= x → P x) → (length l <= k + length (filter P l))%nat.
Proof.
  revert k. induction l as [|x l IH]; intros k Hs Hk HP; [done|]. inversion Hs as [|? ? Hs' Hx]; subst. destruct k as [|k].
  - injection Hk as ->. rewrite filter_all; [cbn; lia|]. constructor; [apply HP; lia|]. rewrite Forall_forall in Hx |- *. auto.
  - cbn in Hk. specialize (IH k Hs' Hk HP). rewrite filter_cons. destruct (decide (P x)); cbn [length] in *; lia.
Qed.

#[local] Instance zle_total : Total Z.le.
Proof. intros x y. lia. Qed.
#[local] Instance zle_trans : Transitive Z.le.
Proof. intros x y z. lia. Qed.

(** A verdict of the transport probe rests on a majority: it is given only when
    at least five round trips succeeded, "fast" means that more than half of them
    took less than 5 ms, and "slow" that at least half took 5 ms or more. *)
Theorem probe_majority rtt :
  match probe_transport_exit (probe_result rtt) with
  | 0 => (5 <= length rtt)%nat ∧ (length rtt < 2 * length (filter (λ x, (x < kFastLoopback)%Z) rtt))%nat
  | 1 => (5 <= length rtt)%nat ∧ (length rtt <= 2 * length (filter (λ x, (kFastLoopback <= x)%Z) rtt))%nat
  | c => c = 2 ∧ (length rtt < 5)%nat
  end.
Proof.
  unfold probe_result. destruct (Nat.leb_spec 5 (length rtt)) as [Hn|Hn]; [|done].
  pose proof (merge_sort_Permutation Z.le rtt) as Hp. pose proof (StronglySorted_merge_sort Z.le rtt) as Hs. set (s := merge_sort Z.le rtt) in *.
  assert (length s = length rtt) as Hl by (by apply Permutation_length). pose proof (Nat.div_mod_eq (length rtt) 2). pose proof (Nat.mod_upper_bound (length rtt) 2 ltac:(lia)).
  destruct (lookup_lt_is_Some_2 s (length rtt / 2)) as [t Ht]; [lia|]. rewrite Ht. cbn [probe_transport_exit].
  destruct (Z.ltb_spec t kFastLoopback) as [Hf|Hf]; (split; [done|]).
  - pose proof (sorted_below (λ x, x < kFastLoopback) s _ t Hs Ht ltac:(intros; cbv beta; lia)) as Hc. rewrite Hp in Hc. lia.
  - pose proof (sorted_above (λ x, kFastLoopback <= x) s _ t Hs Ht ltac:(intros; cbv beta; lia)) as Hc. rewrite Hp in Hc. lia.
Qed.

(** ** The service GUIDs [doctor] looks up *)

Lemma xdigit_upper v : 0 <= v < 16 → xdigit (hex_upper v) = Some v ∧ is_hex (hex_upper v) = true.
Proof.
  intros Hv. unfold hex_upper, xdigit, is_hex. destruct (Z.ltb_spec v 10).
  - rewrite (proj2 (Z.leb_le 48 _)), (proj2 (Z.leb_le _ 57)) by lia. split; [cbn; f_equal; lia|done].
  - rewrite (proj2 (Z.leb_gt _ 57)), (proj2 (Z.leb_gt 97 _)), (proj2 (Z.leb_le 65 _)), (proj2 (Z.leb_le _ 70)) by lia.
    rewrite !andb_false_r. cbn. split; [f_equal; lia|done].
Qed.

Lemma hex_fixed_hex n : ∀ v, forallb is_hex (hex_fixed n v) = true ∧ length (hex_fixed n v) = n.
Proof.
  induction n as [|n IH]; intros v; cbn [hex_fixed]; [done|]. destruct (IH (v / 16)) as [Hh Hl].
  rewrite forallb_app, length_app, Hh, Hl. cbn [forallb length]. destruct (xdigit_upper (v mod 16)) as [_ ->]; [apply Z.mod_pos_bound; lia|]. split; [done|lia].
Qed.

Lemma scan_digits_app h : ∀ n acc rest v, forallb is_hex h = true → scan_digits (length h) acc h = (v, []) →
  scan_digits (length h + n) acc (h ++ rest) = scan_digits n v rest.
Proof.
  induction h as [|c h IH]; intros n acc rest v Hh Hv; [by injection Hv as ->|]. cbn [forallb] in Hh. apply andb_true_iff in Hh as [Hc Hh].
  destruct (is_hex_xdigit c Hc) as (d & Hd & _). cbn [length scan_digits app Nat.add] in *. rewrite Hd in *. by apply IH.
Qed.

Lemma scan_digits_fixed n : ∀ v, 0 <= v < 16 ^ Z.of_nat n → scan_digits n 0 (hex_fixed n v) = (v, []).
Proof.
  induction n as [|n IH]; intros v Hv; [cbn in *; f_equal; lia|]. rewrite Nat2Z.inj_succ, Z.pow_succ_r in Hv by lia. cbn [hex_fixed].
  destruct (hex_fixed_hex n (v / 16)) as [Hh Hl]. rewrite <- Nat.add_1_r. rewrite <- Hl at 1.
  rewrite (scan_digits_app _ 1 0 _ (v / 16)); [|done|].
  - cbn [scan_digits]. destruct (xdigit_upper (v mod 16)) as [-> _]; [apply Z.mod_pos_bound; lia|]. f_equal. pose proof (Z.div_mod v 16). lia.
  - rewrite Hl. apply IH. split; [apply Z.div_pos; lia|]. apply Z.div_lt_upper_bound; lia.
Qed.

(** The registry key [doctor] checks for a port names the service the socket layer
    uses for it. *)
Theorem service_guid_agrees p : u32_ok p → parse_guid (service_guid p) = Some (vsock_service_id p).
Proof.
  intros Hp. unfold service_guid. rewrite wrap_id by done. destruct (hex_fixed_hex 8 p) as [Hh Hl].
  pose proof (scan_digits_fixed 8 p ltac:(unfold u32_ok in Hp; cbn; lia)) as Hv. remember (hex_fixed 8 p) as h eqn:E. clear E.
  set (tail := str "-facb-11e6-bd58-64006a7986d3").
  assert (scan_hex 8 (h ++ tail) = Some (p, tail)) as Hs.
  { rewrite <- Hl, (scan_hex_field h tail p); [by rewrite wrap_id|lia|done|]. rewrite <- (Nat.add_0_r (length h)), (scan_digits_app h 0 0 tail p); [done|done|by rewrite Hl]. }
  unfold parse_guid. assert (match h ++ tail with 123 :: s => s | _ => h ++ tail end = h ++ tail) as ->.
  { destruct h as [|c h]; [done|]. cbn [app]. cbn [forallb] in Hh. apply andb_true_iff in Hh as [Hc _].
    destruct (Z.eq_dec c 123) as [->|Hne]; [by vm_compute in Hc|]. by repeat case_match. }
  rewrite last_app. change (last tail) with (Some 51). rewrite bool_decide_eq_false_2 by done. rewrite length_app, Hl. cbn -[scan_hex scan_dash tail].
  rewrite Hs. reflexivity.
Qed.
