(* ===== verification/Session.v ===== *)
(** * The client program once it runs ([tools/wsldrive_main.cpp])

    What [Cli] leaves out of [main]: which command runs, the options of
    [probe-transport] and [doctor], and what [mount] and [fetch] do with their
    socket.  A run is the list of its deeds, in order, and its exit code ([None]
    while it is still serving); the components it drives are the client's own
    ([Connect.connect], [Client.fetch_finish], [Client.warm_cache],
    [Walk.lookup_paths]).  What the outside answers, replies and the state of the
    mount at each turn of the loop, is in [World]. *)

From S2P Require Import Prelude Types KeyMap HashUtil FlatMap Wire Messages Path Unicode StringPool MetadataTree Forest TreeIndex TreeLinks TreeInv TreeOps TreeSpec TreeRefine TreeExport TreeProps.
From S2P Require Import Auth Coalescer ReadCache Requests Server Connect Client ClientProps Walk Bridge Endpoint Launch Cli.
#[local] Open Scope Z_scope.

(** ** Which command *)

Inductive Command := Version | ProbeTransport (args : list bytes) | Doctor (args : list bytes) | MountAt (mountpoint : bytes) (args : list bytes) | Fetch (args : list bytes) | Usage.

Definition command_of (p : Platform) (argv : list bytes) : Command :=
  match argv with
  | [] => Usage
  | c :: args =>
      let windows := match p with Windows => true | Linux => false end in
      if bool_decide (c = str "--version") || bool_decide (c = str "-V") || bool_decide (c = str "version") then Version
      else if windows && bool_decide (c = str "probe-transport") then ProbeTransport args
      else if windows && bool_decide (c = str "doctor") then Doctor args
      else if bool_decide (c = str "mount") then match args with [] => Usage | point :: args => MountAt point args end
      else if bool_decide (c = str "fetch") then Fetch args
      else Usage
  end.

(** [probe-transport [--distro X]] *)
Fixpoint probe_args (args : list bytes) (distro : bytes) : Run bytes :=
  match args with
  | [] => Ok distro
  | a :: args =>
      match args with
      | v :: args => if bool_decide (a = str "--distro") then probe_args args v else Err (ExitCode 2)
      | [] => Err (ExitCode 2)
      end
  end.

(** [std::atoi]; [beyond] is what it makes of a number outside [int], which the
    language leaves open. *)
Definition atoi (beyond : bytes → Z) (s : bytes) : Z :=
  let s := skip_space s in
  let '(neg, s) := match s with c :: r => if c =? 45 then (true, r) else if c =? 43 then (false, r) else (false, s) | [] => (false, s) end in
  let v := undec (dec_digits s) in
  let v := if neg then - v else v in
  if (- 2 ^ 31 <=? v) && (v <? 2 ^ 31) then v else beyond s.

(** [doctor]'s options; the flag is [--pause]. *)
Fixpoint doctor_args (beyond : bytes → Z) (args : list bytes) (d : DoctorArgs * bool) : Run (DoctorArgs * bool) :=
  let '(dr, pause) := d in
  match args with
  | [] => Ok d
  | a :: args =>
      let flag :=
        if bool_decide (a = str "--hvsocket") then doctor_args beyond args (mkDoctor (dr_distro dr) (dr_port dr) true (dr_probe dr), pause)
        else if bool_decide (a = str "--probe-transport") then doctor_args beyond args (mkDoctor (dr_distro dr) (dr_port dr) (dr_hv dr) true, pause)
        else if bool_decide (a = str "--pause") then doctor_args beyond args (dr, true)
        else Err (ExitCode 2) in
      match args with
      | v :: args =>
          if bool_decide (a = str "--distro") then doctor_args beyond args (mkDoctor v (dr_port dr) (dr_hv dr) (dr_probe dr), pause)
          else if bool_decide (a = str "--port") then doctor_args beyond args (mkDoctor (dr_distro dr) (atoi beyond v) (dr_hv dr) (dr_probe dr), pause)
          else flag
      | [] => flag
      end
  end.

(** ** Deeds *)

Inductive Deed :=
| Sent (t : MsgType.t) (payload : bytes)
| Pinged
| Loaded                                   (* the snapshot is the tree *)
| Warming (dirs : Z)
| Mounted (writeback notify : bool)
| SignalHandler
| RescanNote (ok failed : Z)
| Notified (stats : BridgeStats)
| Unmounted
| Lookups (count hits : Z)
| Read (r : Result bytes)
| Watching.

(** [mount_ctrl_handler] (Windows): whether the event is handled, and
    [g_mount_stop] after it. *)
Definition CTRL_C_EVENT : Z := 0.
Definition CTRL_BREAK_EVENT : Z := 1.
Definition CTRL_CLOSE_EVENT : Z := 2.
Definition mount_ctrl_handler (type : Z) (g_mount_stop : bool) : bool * bool :=
  if (type =? CTRL_C_EVENT) || (type =? CTRL_BREAK_EVENT) || (type =? CTRL_CLOSE_EVENT) then (true, true) else (false, g_mount_stop).

(** A turn of the loop of [mount]: what its condition finds, and the rescans
    counted 200 ms later. *)
Record Tick := mkTick { tk_mounted : bool; tk_connected : bool; tk_stop : bool; tk_rescans : Z; tk_failures : Z }.
Definition tick_on (t : Tick) : bool := tk_mounted t && tk_connected t && negb (tk_stop t).

(** The loop; the flag tells whether it ended. *)
Fixpoint mount_loop (ticks : list Tick) (seen : Z * Z) : list Deed * bool :=
  match ticks with
  | [] => ([], false)
  | t :: ticks =>
      if tick_on t then
        let now := (tk_rescans t, tk_failures t) in
        if negb (tk_rescans t =? seen.1) || negb (tk_failures t =? seen.2) then
          let '(ds, over) := mount_loop ticks now in (RescanNote (tk_rescans t) (tk_failures t) :: ds, over)
        else mount_loop ticks seen
      else ([], true)
  end.

(** What the outside answers. *)
Record World := mkWorld {
  wo_random : option bytes;          (* the nonce's random bytes *)
  wo_hello : Result Pending;
  wo_auth : Result Pending;
  wo_snapshot : Result Pending;
  wo_mount : Result unit;            (* FuseMount::mount *)
  wo_ticks : list Tick;
  wo_notify : BridgeStats            (* notify_stats() *)
}.

Section session.
Context {M : Type} `{KeyMapOps M}.
Context (blake3 : bytes → bytes) (agent_name : bytes).

(** ** [mount], from the socket on *)

Definition notes (s : BridgeStats) : list Deed := if bs_events s =? 0 then [] else [Notified s].

(** The filesystem is up: the loop, and the end. *)
Definition serve_mount (m : MountArgs) (w : World) : list Deed * option Z :=
  let '(ds, over) := mount_loop (wo_ticks w) (0, 0) in
  let up := Mounted (ma_flag m Writeback) (ma_flag m NotifyChanges) :: SignalHandler :: ds in
  if over then (up ++ notes (wo_notify w) ++ [Unmounted], Some 0) else (up, None).

Definition mount_session (m : MountArgs) (token : bytes) (w : World) (cl : Client M) : Client M * (list Deed * option Z) :=
  let '(frames, h) := connect blake3 agent_name token (wo_random w) (wo_hello w) (wo_auth w) in
  let sent := (λ f, Sent f.1 f.2) <$> frames in
  match h with
  | Err _ => (cl, (sent, Some 1))
  | Ok _ =>
      match fetch_finish (fetch_begin cl) (wo_snapshot w) with
      | (cl, Err _) => (cl, (sent, Some 1))
      | (cl, Ok _) =>
          let '(cl, dirs) := if ma_flag m Prefetch then warm_cache cl else (cl, 0) in
          let ready := sent ++ [Loaded] ++ (if ma_flag m Prefetch then [Warming dirs] else []) in
          match wo_mount w with
          | Err _ => (cl, (ready, Some 1))
          | Ok _ => let '(ds, code) := serve_mount m w in (cl, (ready ++ ds, code))
          end
      end
  end.

(** All of [mount]: its arguments, what it launches, the socket, the session.
    [point] is the mountpoint, which no step before the mount itself looks at. *)
Definition mount_program (p : Platform) (args : list bytes) (env : Env) (an : Answers) (sk : Sockets) (w : World) (cl : Client M)
    : Client M * (list Deed * Run (option Z)) :=
  let stopped e := (cl, ([], Err e)) in
  match mount_args p args mount_defaults with
  | Err e => stopped e
  | Ok m =>
      match plan_mount p env an m with
      | Err e => stopped e
      | Ok plan =>
          match meet plan (ma_flag m HaveDistro) sk with
          | Err e => stopped e
          | Ok _ => let '(cl, (ds, code)) := mount_session m (pl_token plan) w cl in (cl, (ds, Ok code))
          end
      end
  end.

(** ** [fetch], from the socket on *)

(** The 4096 probes, drawn by [rng] from the paths, and the look-ups made of them. *)
Definition probe_at (paths : list bytes) (rng : nat → nat) (i : nat) : bytes := nth (rng (i mod 4096) mod length paths)%nat paths [].
Definition probe_hits (t : MetadataTree M) (paths : list bytes) (rng : nat → nat) (lookups : nat) : Z :=
  foldr (λ i n, (if bool_decide (is_Some (lookup t (probe_at paths rng i) CaseInsensitive)) then 1 else 0) + n) 0 (seq 0 lookups).

(** [many] and [one]: the outcomes of the requests a read may make; [alive]: the
    connection at each turn of the watch. *)
Definition fetch_session (f : FetchArgs) (env : Env) (w : World) (rng : nat → nat) (many one : Result Pending)
    (alive : list bool) (cl : Client M) : Client M * (list Deed * option Z) :=
  let '(frames, h) := connect blake3 agent_name (auth_token_from_env env) (wo_random w) (wo_hello w) (wo_auth w) in
  let sent := (λ f, Sent f.1 f.2) <$> frames in
  match h with
  | Err _ => (cl, (sent, Some 1))
  | Ok _ =>
      match fetch_finish (fetch_begin cl) (wo_snapshot w) with
      | (cl, Err _) => (cl, (sent ++ [Pinged], Some 1))
      | (cl, Ok _) =>
          let t := tree_ cl in
          let paths := if 0 <? fe_lookups f then lookup_paths (length (nodes_ t)) t [root] [] else [] in
          let looked := if bool_decide (paths = []) then [] else [Lookups (fe_lookups f) (probe_hits t paths rng (Z.to_nat (fe_lookups f)))] in
          let '(cl, data) := if bool_decide (fe_read f = []) then (cl, []) else let '(cl, r) := read cl (fe_read f) 0 (Z.shiftl 16 20) many one in (cl, [Read r]) in
          let ds := sent ++ [Pinged; Loaded] ++ looked ++ data in
          if fe_watch f then (cl, (ds ++ [Watching], if forallb id alive then None else Some 0)) else (cl, (ds, Some 0))
      end
  end.
End session.

(** ** Nothing is mounted unproved *)

Definition is_mount (d : Deed) : bool := match d with Mounted _ _ => true | _ => false end.
Definition is_unmount (d : Deed) : bool := match d with Unmounted => true | _ => false end.
Definition quiet_deed (d : Deed) : Prop := is_mount d = false ∧ is_unmount d = false.

Lemma mount_loop_quiet ticks : ∀ seen, Forall quiet_deed (mount_loop ticks seen).1.
Proof.
  induction ticks as [|t ticks IH]; intros seen; [constructor|]. cbn [mount_loop]. destruct (tick_on t); [|constructor]. destruct (_ || _); [|apply IH].
  specialize (IH (tk_rescans t, tk_failures t)). destruct (mount_loop ticks _). by constructor.
Qed.

(** The turn of the loop after an interrupt is the last; other events leave it. *)
Lemma interrupt_ends_loop type m c rescans failures : let '(handled, stop) := mount_ctrl_handler type false in tick_on (mkTick m c stop rescans failures) = m && c && negb handled.
Proof. unfold mount_ctrl_handler. by destruct (_ || _). Qed.

(** The loop lasts as long as its condition holds, and then ends. *)
Lemma mount_loop_over ticks : ∀ seen, (mount_loop ticks seen).2 = negb (forallb tick_on ticks).
Proof.
  induction ticks as [|t ticks IH]; intros seen; [done|]. cbn [mount_loop forallb]. destruct (tick_on t); [|done]. cbn [andb]. destruct (_ || _); [|apply IH].
  specialize (IH (tk_rescans t, tk_failures t)). by destruct (mount_loop ticks _).
Qed.

(** The counters last noted are the counters last seen. *)
Definition noted (d : Deed) : option (Z * Z) := match d with RescanNote ok failed => Some (ok, failed) | _ => None end.
Fixpoint on_ticks (ticks : list Tick) : list Tick := match ticks with t :: ticks => if tick_on t then t :: on_ticks ticks else [] | [] => [] end.

Lemma mount_loop_noted ticks : ∀ seen,
  default seen (last (omap noted (mount_loop ticks seen).1)) = default seen ((λ t, (tk_rescans t, tk_failures t)) <$> last (on_ticks ticks)).
Proof.
  assert (∀ {A} (l : list A) (x y : A), default y (last (x :: l)) = default x (last l)) as Hlast by (intros A l x y; destruct l using rev_ind; [done|by rewrite app_comm_cons, !last_snoc]).
  assert (∀ {A B} (f : A → B) l x y, default y (f <$> last (x :: l)) = default (f x) (f <$> last l)) as Hlast2 by (intros A B f l x y; destruct l using rev_ind; [done|by rewrite app_comm_cons, !last_snoc]).
  induction ticks as [|t ticks IH]; intros seen; [done|]. cbn [mount_loop on_ticks]. destruct (tick_on t); [|done].
  rewrite (Hlast2 _ _ (λ t, (tk_rescans t, tk_failures t))). destruct (_ || _) eqn:E.
  - specialize (IH (tk_rescans t, tk_failures t)). destruct (mount_loop ticks _) as [ds over]. cbn [fst snd] in *. cbn [omap list_omap noted]. rewrite Hlast. exact IH.
  - apply orb_false_iff in E as [E1 E2]. apply negb_false_iff in E1, E2. apply Z.eqb_eq in E1, E2. rewrite IH, E1, E2. by destruct seen.
Qed.

(** A handshake that succeeds under a token has seen the agent's proof. *)
Lemma connect_ok_proved blake3 agent token random r1 r2 h : token ≠ [] → (∀ p, r1 = Ok p → input_ok (p_payload p)) →
  (connect blake3 agent token random r1 r2).2 = Ok h →
  ∃ p ack rest, r1 = Ok p ∧ p_type p = MsgType.HelloAck ∧ read_hello (p_payload p) = Ok (ack, rest) ∧ proof ack = auth_proof blake3 token (generate_auth_token random) (nonce ack) true
    ∧ generate_auth_token random ≠ [].
Proof.
  intros Ht Hp. unfold connect. rewrite !(bool_decide_eq_false_2 (token = [])) by done. cbn [negb andb]. case_bool_decide as Hr; [done|].
  destruct r1 as [p|e]; [|done]. case_bool_decide as Hty; cbn [negb]; [|done]. destruct (read_hello (p_payload p)) as [[ack rest]|e] eqn:Er; [|done].
  rewrite constant_time_equal_spec; [|by apply (yields_hello_proof _ _ _ (Hp _ eq_refl) Er)|apply hex_bytes_ok].
  case_bool_decide as He; cbn [negb]; [|done]. intros _. by exists p, ack, rest.
Qed.

Section mounting.
Context {M : Type} `{KeyMapOps M}.
Context (blake3 : bytes → bytes) (agent_name : bytes).

End mounting.

(** ** The look-ups of [fetch] *)

Section probing.
Context {M : Type} `{KeyMap M}.

Lemma probe_at_in paths rng i : paths ≠ [] → probe_at paths rng i ∈ paths.
Proof.
  intros Hn. unfold probe_at. assert (length paths ≠ 0)%nat as Hl by (by destruct paths). destruct (lookup_lt_is_Some_2 paths (rng (i mod 4096) mod length paths)%nat) as [p Hp]; [by apply Nat.mod_upper_bound|].
  erewrite nth_lookup_Some by done. by eapply list_elem_of_lookup_2.
Qed.

Lemma probe_hits_all (t : MetadataTree M) Fr mp rng n : stands t Fr mp → lookup_paths (length (nodes_ t)) t [root] [] ≠ [] →
  probe_hits t (lookup_paths (length (nodes_ t)) t [root] []) rng n = Z.of_nat n.
Proof.
  intros Hst Hn. destruct (probed_paths t Fr mp Hst) as (_ & Hp & _). set (paths := lookup_paths _ _ _ _) in *. unfold probe_hits. transitivity (Z.of_nat (length (seq 0 n))); [|by rewrite length_seq]. generalize (seq 0 n). intros l.
  induction l as [|i l IH]; [done|]. cbn [foldr length]. rewrite IH, bool_decide_eq_true_2; [lia|]. by apply (Hp _ (probe_at_in paths rng i Hn)).
Qed.

(** The hits `fetch --lookups` reports are the look-ups it made: it probes only
    paths of the mirror, whatever its generator draws. *)
Theorem fetch_probes_hit blake3 agent_name f env w rng many one alive (cl : Client M) Fr mp :
  stands (tree_ (fetch_finish (fetch_begin cl) (wo_snapshot w)).1) Fr mp →
  ∀ n hits, Lookups n hits ∈ (fetch_session blake3 agent_name f env w rng many one alive cl).2.1 → hits = n.
Proof.
  intros Hst n hits. unfold fetch_session. destruct (connect _ _ _ _ _ _) as [frames [h|e]].
  all: assert (∀ n hits, Lookups n hits ∉ ((λ f, Sent f.1 f.2) <$> frames)) as Hno by (intros n' h' (x & ? & _)%list_elem_of_fmap; done).
  2: { by intros ?%Hno. }
  destruct (fetch_finish (fetch_begin cl) (wo_snapshot w)) as [cl1 [u|e]]; cbn [fst] in Hst.
  2: { intros [?%Hno|?%list_elem_of_singleton]%elem_of_app; done. }
  set (t := tree_ cl1) in *. set (paths := if 0 <? fe_lookups f then _ else _).
  assert (Lookups n hits ∈ (if bool_decide (paths = []) then [] else [Lookups (fe_lookups f) (probe_hits t paths rng (Z.to_nat (fe_lookups f)))]) → hits = n) as Hgo.
  { case_bool_decide as Hp; [by intros ?%elem_of_nil|]. intros [= -> ->]%list_elem_of_singleton. subst paths. destruct (Z.ltb_spec 0 (fe_lookups f)); [|done].
    rewrite (probe_hits_all t Fr mp) by done. lia. }
  set (looked := if bool_decide (paths = []) then _ else _) in *. clearbody looked.
  set (rd := if bool_decide (fe_read f = []) then _ else _). destruct rd as [cl2 data] eqn:Er.
  assert (Lookups n hits ∉ data) as Hdata.
  { unfold rd in Er. case_bool_decide; [injection Er as _ <-; by intros ?%elem_of_nil|]. destruct (read _ _ _ _ _ _) as [c r]. injection Er as _ <-. by intros ?%list_elem_of_singleton. }
  assert (Lookups n hits ∈ ((λ f, Sent f.1 f.2) <$> frames) ++ [Pinged; Loaded] ++ looked ++ data → hits = n) as Hall.
  { intros [?%Hno|[Hin|[Hin|Hin]%elem_of_app]%elem_of_app]%elem_of_app; [done| |by apply Hgo|done]. apply elem_of_cons in Hin as [?|?%list_elem_of_singleton]; done. }
  destruct (fe_watch f); cbn [fst snd]; [|exact Hall]. intros [Hin|?%list_elem_of_singleton]%elem_of_app; [by apply Hall|done].
Qed.
End probing.

(** ** A run of [mount] *)

Definition demo_snapshot : Pending := mkPending true MsgType.Snapshot [] true true 8 0 [str "top"] [mkSnap 0 [] (mkAttr 3 1 420 File)].
Definition demo_world : World :=
  mkWorld (Some (replicate 16 7)) (reply MsgType.HelloAck demo_ack) (reply MsgType.Ok []) (Ok demo_snapshot) (Ok ())
    [mkTick true true false 0 0; mkTick true true false 1 0; mkTick true true false 1 0; mkTick true false false 1 0] (mkBStats 2 2 0 0 0).
Definition demo_run := mount_session (M := U64Map) demo_digest (str "wsldrive") mount_defaults (str "secret") demo_world (client_new CaseInsensitive).

